(* ===== verification/_CoqProject ===== *)
-Q . S2P
Prelude.v
GoStd.v
GoStdSpec.v
Uuid.v
Types.v
Wire.v
Validation.v
Buffer.v
BufferInv.v
BufferSpec.v
BufferWrite.v
BufferWriteSpec.v
BufferRead.v
BufferDelete.v
BufferDeleteSpec.v
BufferCounter.v
BufferCounterSpec.v
BufferReplace.v
BufferReplaceSpec.v
BufferTheorems.v
Clock.v
Store.v
StoreInv.v
BufferOps.v
StoreSpec.v
Events.v
StoreOps.v
Bulk.v
BulkSpec.v
RebuildSpec.v
WarmSpec.v
StoreClock.v
Steps.v
SubscribeSpec.v
OpsSteps.v
EventsSpec.v
Refine.v
Flights.v
FlightsSpec.v
RefineOps.v
RefineBulk.v
ScopeList.v
StoreTheorems.v
Simulation.v
Handlers.v
HandlersSpec.v
Gateway.v
GatewaySpec.v
Guarded.v
Adapters.v
AdaptersSpec.v
ServiceTheorems.v
Php.v
PhpSpec.v
Subscriber.v
SubscriberSpec.v
ExtensionTheorems.v
Sockets.v
SocketsSpec.v
Lifecycle.v
LifecycleSpec.v
BootSpec.v
Caddy.v
CaddySpec.v
LifecycleTheorems.v
Processes.v
Interleave.v
InterleaveSpec.v
InterleaveTheorems.v
Locks.v
LocksTheorems.v
DataTheorems.v
Demo.v
BufferWitnesses.v
StoreWitnesses.v
ServiceWitnesses.v
ExtensionWitnesses.v
LifecycleWitnesses.v
InterleaveWitnesses.v
Findings.v
