(* ===== verification/Prelude.v ===== *)
(** * scopecache: a verified model of the cache

  scopecache is an in-memory store of small JSON items, grouped in scopes and
  served over HTTP, as a Go library, inside Caddy and to PHP. This library
  models it from the byte-level encoders up to the request paths and proves
  what its clients rely on. The file is also the prelude: its own contents
  (record update, the state monad, results, machine integers, sums, lists and
  automation) start after this comment.

  ** The program and its model

  The model is shallow: a Go function is a Rocq function of the same name, a
  method a function of its receiver; an error is a value of [result error A]; code that
  changes shared state runs in a state monad. All of it is executable, which is
  what the files *Witnesses.v and Findings.v use.

  - _Pure parts._ Types.v (types.go: items, requests, configuration, errors,
    size accounting), Uuid.v (uuid.go), Validation.v (validation.go: validators,
    parameters, the render cache, grouping of batches), Wire.v (wire.go and
    response builders: the JSON emitters). GoStd.v holds the parts of Go's
    standard library these use (strconv, utf8, json.Valid, sort.Search), as
    executable definitions.
  - _The scope buffer._ Buffer.v (buffer.go, buffer_locked.go, buffer_heat.go,
    buffer_stats.go, the admission control of store.go), BufferWrite.v,
    BufferRead.v, BufferDelete.v, BufferCounter.v, BufferReplace.v (the
    buffer_*.go file of that name). A [scopeBuffer] owns an arena of items and
    counter cells; the slice and the three maps hold addresses of it, so a write
    through one index is seen through the others. A method runs in [M] over the
    buffer, the store's atomic counters ([acct]) and a tick that indexes the
    clock and the random source.
  - _The store._ Store.v (store.go: shards, scope creation and its rollback,
    reserved scopes, lookups), Events.v (events.go, subscribe.go, the append
    path), StoreOps.v (the single-item operations and reads of store.go), Bulk.v
    (bulk.go). A [store] is an arena of buffers with the sharded map of their
    addresses: a pointer a goroutine kept stays a pointer after the scope is
    unlinked. Each critical section is one step, and each operation a
    composition of such steps in the code's order.
  - _The service._ Handlers.v (handlers*.go, response_types.go, api.go: every
    endpoint and the routing table [serve]), Gateway.v (gateway*.go: the
    in-process API, the copies at its boundary on a heap of byte arrays, the
    registry), Guarded.v (addons/guarded), Adapters.v (cmd/scopecache/main.go,
    caddymodule/module.go: configuration and request path), Php.v
    (addons/frankenphp-ext), Subscriber.v (subscriber_command.go,
    init_command.go), Processes.v (subscriber_command_unix.go: what a
    cancelled command's process group is).
  - _The life of an instance._ Sockets.v (main.go, module.go: the public socket
    and the private one of the boot command, on a small file system with a
    kernel that may refuse any call), Lifecycle.v (main.go: the boot, then main,
    the goroutine that waits for the signal, the bridges, requests and commands
    as one step relation), Caddy.v (module.go: Provision, and Cleanup among all
    the gateways of the process as a step relation).
  - _Below one step._ Interleave.v models the lock-free loops of store.go and
    buffer_counter.go at the grain of single loads and swaps, Locks.v the
    acquisitions and releases of every locked section, to justify that the
    other files run each of them as one step.

  ** How the parts meet

  [BufferOp] (StoreInv.v) is what the store needs of a buffer method: on an
  attached buffer it honours the contract [bstep] (BufferSpec.v), on a detached
  one it does nothing and says so. BufferOps.v gives the instances, and the
  store's theorems use nothing else of the methods. [sstep] (Steps.v) is one
  critical section of any goroutine; OpsSteps.v shows that every operation is a
  sequence of them, so an invariant of [sstep] holds under every interleaving
  of requests. [content] (Refine.v) is the abstract store, the items of every
  scope; RefineOps.v and RefineBulk.v state each operation as a relation on it,
  which HandlersSpec.v, GatewaySpec.v, PhpSpec.v and InitSpec.v use in turn.

  ** The theorems

  - BufferTheorems.v: each method family on the content of one scope. The
    invariant [buf_wf] (BufferInv.v) is the aliasing rule of buffer.go, the
    order of the items and the exact byte count.
  - StoreTheorems.v, Simulation.v, ScopeList.v: the store's invariant in every
    reachable state and under every interleaving (counters exact, cap kept,
    subscribers sound); safety of pointers across /wipe, /delete_scope and
    /rebuild; every operation, errors included, as a change of the content; the
    simulation of any sequence of calls by the abstract store; the end of the
    event recursion; the paging of /scopelist.
  - InterleaveTheorems.v: concurrent increments are whole increments in some
    order, concurrent reservations keep the cap at every moment, and the retry
    loops end. LocksTheorems.v: the locks exclude each other and never deadlock.
  - ServiceTheorems.v: the HTTP status contract, what a refused request leaves
    behind, isolation at the Go API's boundary and between token holders, the
    registry across a reload, exact configurations, the miss fall-through.
  - ExtensionTheorems.v: no wake-up of a subscriber command is lost and its stop
    function ends; the boot command leaves an empty log; the PHP functions
    answer as the endpoints do.
  - LifecycleTheorems.v: binding the socket loses no file and backs out of
    errors; what an instance starts serving with; the order of a shutdown, that
    it leaves nothing behind and can always be completed; what a Provision adds;
    a reload never leaves "default" without a gateway. SocketsSpec.v,
    LifecycleSpec.v, BootSpec.v and CaddySpec.v carry them.
    Processes.v: what a cancelled command leaves running.
  - DataTheorems.v: encoders against reference encoders, the size estimate, the
    validators, UUID round trips, configuration arithmetic.
  - *Witnesses.v apply the theorems on concrete inputs, in the environment of
    Demo.v. Findings.v evaluates runs that a comment or document of the
    repository does not describe.

  ** Fuel and bounds

  Integers are Go's: an int64 or uint64 is a [Z] with the wrap-around written
  out ([i64], [u64]) wherever the code computes, and the theorems carry the
  bounds under which nothing wraps, or show them from the invariant. The event
  log is written through the append path, which logs: [appendOneTrusted_fuel]
  runs with fuel two, and [event_recursion_ends] shows that more changes
  nothing. In GoStd.v a binary search over [n] positions has fuel [n], decimal
  printing one more than the binary logarithm, and the JSON checker twice the
  length of its input and two, for at most two calls per consumed byte
  (GoStdSpec.v: more changes nothing). The machines of Interleave.v and Locks.v
  take their schedule as an argument, and [cas_loops_end] and
  [locks_never_deadlock] bound the length of every schedule. Nothing else uses
  fuel.

  ** Parameters

  Code outside the repository is a type class the definitions take: [Env] (the
  clock, the random source, the JSON library's strings and numbers, the growth
  of a slice), [ScopeHash] (the hash that picks a shard), [EventMarshal],
  [RespMarshal] and [Decoders] (the JSON library on the structs of the events,
  responses and bodies), [TokenHash] and [GuardedMarshal] (the addon's), [GoMap]
  and [ArrayErrorText] (FrankenPHP's conversion of arrays), [Kernel] (which calls
  of the operating system fail, the mode of a new socket, the names of temporary
  directories). A boot command is a [boot_command], any computation over the
  store that takes sections of it as requests do. Two laws are
  assumed of them where a theorem says so: [JsonQuoteLaw], a quoted string is
  at least two bytes longer, and [TokenHashLaw], a token's name has 43 bytes.
  [Caps] are the caps of a configuration and [CapsOk] their bounds, which the
  adapters' theorems derive from what an operator may write. The order in which
  Go ranges over a map is an order of an association list.

  ** Not modelled

  - json.go: wrappers of a third-party JSON library (a parameter).
  - The inside of the HTTP server: connections, its timeouts, how requests are
    read. Lifecycle.v has what main does with it. ServeMux is the table of
    paths; its cleaning of unusual paths is not modelled.
  - Caddy's module registration (init, CaddyModule, parseCaddyfile) and logging.
  - In the file system of Sockets.v a file is its path as written, so two
    spellings of a path are two files, other programs do not touch the files,
    and the mode of directories is left out.
  - The link between Processes.v and the bridges: a command of the latter ends
    at some moment, or is killed once it is cancelled; that the kill is that of
    its process group is the reading of the code the model makes.
  - The pools of response buffers and the pre-sized allocations: they do not
    change what is answered.
  - The Go memory model below atomics and mutexes: a critical section is a step,
    and the sections are those the code locks. Locks.v has the order of their
    locks, not their contents; that a section's effect is that of its step is
    the reading of the code the model makes. *)
From stdpp Require Export base gmap sets list strings sorting list_numbers.
From Stdlib Require Export ZArith Lia Ascii.
#[global] Open Scope Z_scope.
#[export] Set Warnings "-clear-no-such-hyp".

(** ** Record update

  [r <| f := v |>] is Go's field assignment [r.f = v] on a record value. A
  record opts in with an [Eta] instance (its own eta expansion); the setter
  of one field is computed from it by abstracting that projection. *)

Class Eta (R : Type) := eta_expand : R → R.
Class Setter {R T : Type} (proj : R → T) := set_field : (T → T) → R → R.
#[global] Arguments set_field {R T} proj {Setter} _ _ / : assert.
#[global] Hint Mode Setter + + + : typeclass_instances.

Ltac derive_setter R proj :=
  let e := constr:(_ : Eta R) in
  let e := eval hnf in e in
  match eval pattern proj in e with
  | ?g _ =>
      let g := eval cbv beta in (fun f => g (fun r => f (proj r))) in
      exact g
  end.

#[global] Hint Extern 1 (@Setter ?R _ ?proj) =>
  derive_setter R proj : typeclass_instances.

Declare Scope go_scope.
Delimit Scope go_scope with go.
#[global] Open Scope go_scope.

Notation "r <| f := v |>" := (set_field f (λ _, v) r)
  (at level 1, f constr at level 9, v at level 200, left associativity) : go_scope.

(** ** State threading

  A Go method that reads and writes memory is a function [S → A * S]. *)

Definition ST (S A : Type) : Type := S → A * S.
Definition ret {S A} (a : A) : ST S A := λ s, (a, s).
Definition bind {S A B} (m : ST S A) (k : A → ST S B) : ST S B :=
  λ s, let '(a, s1) := m s in k a s1.
Definition get {S} : ST S S := λ s, (s, s).
Definition gets {S A} (f : S → A) : ST S A := λ s, (f s, s).
Definition modify {S} (f : S → S) : ST S unit := λ s, (tt, f s).

Notation "'let*' x ':=' m 'in' k" := (bind m (λ x, k))
  (at level 10, x binder, m at level 100, k at level 200,
   format "'[v' 'let*'  x  ':='  m  'in' '/' k ']'") : go_scope.
Notation "m ';;;' k" := (bind m (λ _, k))
  (at level 100, right associativity, format "'[v' m ';;;' '/' k ']'") : go_scope.

Lemma bind_ret {S A B} (a : A) (k : A → ST S B) s : bind (ret a) k s = k a s.
Proof. reflexivity. Qed.

Lemma bind_eq {S A B} (m : ST S A) (k : A → ST S B) s :
  bind m k s = k (m s).1 (m s).2.
Proof. unfold bind. by destruct (m s). Qed.

Lemma bind_run {S A B} (m : ST S A) (k : A → ST S B) s a s1 :
  m s = (a, s1) → bind m k s = k a s1.
Proof. intros H. unfold bind. by rewrite H. Qed.

(** Two continuations that agree on the run's result. *)
Lemma bind_ext {S A B} (m : ST S A) (k1 k2 : A → ST S B) s :
  (∀ a s1, m s = (a, s1) → k1 a s1 = k2 a s1) → bind m k1 s = bind m k2 s.
Proof. intros Hk. unfold bind. destruct (m s) as [a s1]. by apply Hk. Qed.

Lemma bind_assoc {S A B C} (m : ST S A) (k : A → ST S B) (l : B → ST S C) s :
  bind (bind m k) l s = bind m (λ a, bind (k a) l) s.
Proof. unfold bind. by destruct (m s). Qed.

Lemma bind_ext_l {S A B} (m1 m2 : ST S A) (k : A → ST S B) s : m1 s = m2 s → bind m1 k s = bind m2 k s.
Proof. intros E. unfold bind. by rewrite E. Qed.

(** Hoare-style reading of a computation: every run from [s] satisfies [Q]. *)
Definition runs {S A} (m : ST S A) (s : S) (Q : A → S → Prop) : Prop :=
  Q (m s).1 (m s).2.

Lemma runs_ret {S A} (a : A) s (Q : A → S → Prop) : Q a s → runs (ret a) s Q.
Proof. done. Qed.
Lemma runs_bind {S A B} (m : ST S A) (k : A → ST S B) s (Q : B → S → Prop) :
  runs m s (λ a s1, runs (k a) s1 Q) → runs (bind m k) s Q.
Proof. unfold runs, bind. by destruct (m s). Qed.
Lemma runs_mono {S A} (m : ST S A) s (P Q : A → S → Prop) :
  runs m s P → (∀ a s1, P a s1 → Q a s1) → runs m s Q.
Proof. unfold runs. eauto. Qed.
Lemma runs_eq {S A} (m : ST S A) s (Q : A → S → Prop) a s1 :
  runs m s Q → m s = (a, s1) → Q a s1.
Proof. unfold runs. intros H E. by rewrite E in H. Qed.

(** ** Go's (value, error) results *)
Inductive result (E A : Type) : Type :=
| Ok (a : A)
| Err (e : E).
#[global] Arguments Ok {E A} a.
#[global] Arguments Err {E A} e.

Definition is_ok {E A} (r : result E A) : bool :=
  match r with Ok _ => true | Err _ => false end.

(** Fallible computations: [let? x := m in k] is
    [x, err := m(); if err != nil { return err }; k]. *)
Definition bindE {S E A B} (m : ST S (result E A)) (k : A → ST S (result E B)) :
    ST S (result E B) :=
  bind m (λ r, match r with Ok a => k a | Err e => ret (Err e) end).
Notation "'let?' x ':=' m 'in' k" := (bindE m (λ x, k))
  (at level 10, x binder, m at level 100, k at level 200,
   format "'[v' 'let?'  x  ':='  m  'in' '/' k ']'") : go_scope.

Lemma runs_bindE {S E A B} (m : ST S (result E A)) (k : A → ST S (result E B)) s
    (Q : result E B → S → Prop) :
  runs m s (λ r s1, match r with Ok a => runs (k a) s1 Q | Err e => Q (Err e) s1 end) →
  runs (bindE m k) s Q.
Proof.
  intros H. apply runs_bind. eapply runs_mono; [exact H|]. intros [a|e] s1; done.
Qed.

(** [yields m Q]: whatever the state, a successful result of [m] satisfies [Q]. *)
Definition yields {S E A} (m : ST S (result E A)) (Q : A → Prop) : Prop :=
  ∀ s, match (m s).1 with Ok a => Q a | Err _ => True end.
Lemma yields_ok {S E A} (a : A) (Q : A → Prop) : Q a → yields (@ret S (result E A) (Ok a)) Q.
Proof. by intros Ha s. Qed.
Lemma yields_err {S E A} (e : E) (Q : A → Prop) : yields (@ret S (result E A) (Err e)) Q.
Proof. by intros s. Qed.
Lemma yields_bind {S E A B} (m : ST S A) (k : A → ST S (result E B)) (Q : B → Prop) :
  (∀ a, yields (k a) Q) → yields (bind m k) Q.
Proof. intros Hk s. unfold bind. destruct (m s) as [a s1]. apply Hk. Qed.
Lemma yields_bindE {S E A B} (m : ST S (result E A)) (k : A → ST S (result E B)) (Q : B → Prop) :
  (∀ a, yields (k a) Q) → yields (bindE m k) Q.
Proof. intros Hk. apply yields_bind. intros [a|e]; [apply Hk|apply yields_err]. Qed.

(** ** A clock in the state

  [mono clk m]: no run of [m] turns the clock back. *)
Definition mono {S A} (clk : S → nat) (m : ST S A) : Prop := ∀ s, (clk s ≤ clk (m s).2)%nat.

Lemma mono_ret {S A} (clk : S → nat) (a : A) : mono clk (ret a).
Proof. by intros s. Qed.
Lemma mono_get {S} (clk : S → nat) : mono clk get.
Proof. by intros s. Qed.
Lemma mono_gets {S A} (clk : S → nat) (f : S → A) : mono clk (gets f).
Proof. by intros s. Qed.
Lemma mono_modify {S} (clk : S → nat) f : (∀ s, clk s ≤ clk (f s))%nat → mono clk (modify f).
Proof. by intros Hf s. Qed.
Lemma mono_bind {S A B} (clk : S → nat) (m : ST S A) (k : A → ST S B) :
  mono clk m → (∀ a, mono clk (k a)) → mono clk (bind m k).
Proof.
  intros Hm Hk s. unfold bind. specialize (Hm s). destruct (m s) as [a s1].
  specialize (Hk a s1). cbn in *. lia.
Qed.
Lemma mono_bindE {S E A B} (clk : S → nat) (m : ST S (result E A)) (k : A → ST S (result E B)) :
  mono clk m → (∀ a, mono clk (k a)) → mono clk (bindE m k).
Proof.
  intros Hm Hk. apply mono_bind; [done|]. intros [a|e]; [apply Hk|apply mono_ret].
Qed.

Create HintDb clock.
#[export] Hint Resolve mono_ret mono_get mono_gets : clock.
Ltac clock_step :=
  match goal with
  | |- mono _ _ => solve [eauto with clock nocore]
  | |- mono _ (bind _ _) => apply mono_bind; [|intros ?]
  | |- mono _ (bindE _ _) => apply mono_bindE; [|intros ?]
  | |- mono _ (modify _) => apply mono_modify; intros ?; cbn; lia
  | |- mono _ (match ?x with _ => _ end) => destruct x
  | |- mono _ (let _ := _ in _) => cbv zeta
  end.
Ltac clock := repeat clock_step.

(** ** Machine integers

  A w-bit integer is a [Z]; [i64] and [u64] write out the wrap-around of the
  Go types, [byte_of] the conversion to [byte]. *)
Definition MaxInt64 : Z := 2 ^ 63 - 1.
Definition MinInt64 : Z := - 2 ^ 63.
Definition MaxUint64 : Z := 2 ^ 64 - 1.
Definition i64 (x : Z) : Z := (x + 2 ^ 63) mod 2 ^ 64 - 2 ^ 63.
Definition u64 (x : Z) : Z := x mod 2 ^ 64.
Definition byte_of (x : Z) : Z := x mod 256.

#[global] Arguments i64 : simpl never.
#[global] Arguments u64 : simpl never.
#[global] Arguments byte_of : simpl never.
#[global] Arguments MaxInt64 : simpl never.
#[global] Arguments MinInt64 : simpl never.
#[global] Arguments MaxUint64 : simpl never.

Definition in_i64 (x : Z) : Prop := MinInt64 ≤ x ≤ MaxInt64.
Definition in_u64 (x : Z) : Prop := 0 ≤ x ≤ MaxUint64.

Lemma i64_id x : in_i64 x → i64 x = x.
Proof. unfold in_i64, MinInt64, MaxInt64, i64. intros. rewrite Z.mod_small; lia. Qed.
Lemma u64_id x : in_u64 x → u64 x = x.
Proof. unfold in_u64, MaxUint64, u64. intros. rewrite Z.mod_small; lia. Qed.
Lemma i64_range x : in_i64 (i64 x).
Proof.
  unfold in_i64, MinInt64, MaxInt64, i64.
  pose proof (Z.mod_pos_bound (x + 2 ^ 63) (2 ^ 64) ltac:(lia)). lia.
Qed.
Lemma u64_range x : in_u64 (u64 x).
Proof.
  unfold in_u64, MaxUint64, u64.
  pose proof (Z.mod_pos_bound x (2 ^ 64) ltac:(lia)). lia.
Qed.

(** ** Strings and byte slices

  A Go [string] is its byte sequence, here a [String.string] (one [ascii] per
  byte). A Go byte slice that can be nil is an [option string]: [None] is the
  nil slice, whose length is 0. *)
Abbreviation slice := (option string).

Definition slen (s : string) : Z := Z.of_nat (String.length s).
Definition blen (b : slice) : Z := from_option slen 0 b.

#[global] Arguments slen : simpl never.
#[global] Arguments blen : simpl never.

Lemma slen_nonneg s : 0 ≤ slen s.
Proof. unfold slen. lia. Qed.
Lemma blen_nonneg b : 0 ≤ blen b.
Proof. destruct b; unfold blen; cbn; [apply slen_nonneg | lia]. Qed.
Lemma string_length_app s1 s2 :
  String.length (s1 +:+ s2) = (String.length s1 + String.length s2)%nat.
Proof. induction s1; simpl; [done|]. by rewrite IHs1. Qed.
Lemma string_app_assoc (a b c : string) : (a +:+ b) +:+ c = a +:+ (b +:+ c).
Proof. induction a as [|x a IH]; [done|]. exact (f_equal (String x) IH). Qed.
Lemma string_app_nil_r (a : string) : a +:+ "" = a.
Proof. induction a as [|x a IH]; [done|]. exact (f_equal (String x) IH). Qed.
Lemma slen_app s1 s2 : slen (s1 +:+ s2) = slen s1 + slen s2.
Proof. unfold slen. rewrite string_length_app. lia. Qed.
Lemma slen_empty : slen "" = 0.
Proof. done. Qed.
Lemma slen_zero s : slen s = 0 ↔ s = ""%string.
Proof. unfold slen. destruct s; simpl; split; (done || lia). Qed.

(** ** Sums over lists *)
Fixpoint zsum {A} (f : A → Z) (l : list A) : Z :=
  match l with
  | [] => 0
  | x :: l => f x + zsum f l
  end.

Lemma zsum_app {A} (f : A → Z) l1 l2 : zsum f (l1 ++ l2) = zsum f l1 + zsum f l2.
Proof. induction l1; simpl; lia. Qed.
Lemma zsum_perm {A} (f : A → Z) l1 l2 : l1 ≡ₚ l2 → zsum f l1 = zsum f l2.
Proof. induction 1; simpl; lia. Qed.
Lemma zsum_ext {A} (f g : A → Z) l :
  (∀ x, x ∈ l → f x = g x) → zsum f l = zsum g l.
Proof.
  induction l as [|x l IH]; simpl; intros H; [done|].
  rewrite (H x), IH; [done| |]; intros; try apply H; by constructor.
Qed.
Lemma zsum_nonneg {A} (f : A → Z) l : (∀ x, x ∈ l → 0 ≤ f x) → 0 ≤ zsum f l.
Proof.
  induction l as [|x l IH]; simpl; intros H; [lia|].
  pose proof (H x ltac:(by constructor)). specialize (IH (λ y Hy, H y (list_elem_of_further _ _ _ Hy))). lia.
Qed.
Lemma zsum_map {A B} (f : B → Z) (g : A → B) l : zsum f (g <$> l) = zsum (λ x, f (g x)) l.
Proof. induction l as [|x l IH]; [done|]. cbn. by rewrite IH. Qed.
Lemma zsum_const {A} (c : Z) (l : list A) : zsum (λ _, c) l = c * Z.of_nat (length l).
Proof. induction l; simpl; lia. Qed.
Lemma zsum_add {A} (f g : A → Z) l : zsum (λ x, f x + g x) l = zsum f l + zsum g l.
Proof. induction l; simpl; lia. Qed.
Lemma zsum_le {A} (f g : A → Z) l :
  (∀ x, x ∈ l → f x ≤ g x) → zsum f l ≤ zsum g l.
Proof.
  induction l as [|x l IH]; simpl; intros H; [lia|].
  pose proof (H x ltac:(by constructor)).
  specialize (IH (λ y Hy, H y (list_elem_of_further _ _ _ Hy))). lia.
Qed.
Lemma zsum_elem {A} (f : A → Z) l x :
  (∀ y, y ∈ l → 0 ≤ f y) → x ∈ l → f x ≤ zsum f l.
Proof.
  intros H [l1 [l2 ->]]%list_elem_of_split. rewrite zsum_app. simpl.
  assert (0 ≤ zsum f l1) by (apply zsum_nonneg; set_solver).
  assert (0 ≤ zsum f l2) by (apply zsum_nonneg; set_solver). lia.
Qed.

(** ** Strictly ascending lists *)
Lemma sorted_lookup (l : list Z) i j x y :
  StronglySorted Z.lt l → l !! i = Some x → l !! j = Some y → (i < j)%nat → x < y.
Proof.
  intros Hs. revert i j. induction Hs as [|z l Hs IH Hz]; intros i j Hi Hj Hij; [done|].
  destruct j as [|j]; [lia|]. cbn in Hj.
  destruct i as [|i]; cbn in Hi.
  - simplify_eq. rewrite Forall_forall in Hz. apply Hz. by eapply list_elem_of_lookup_2.
  - apply (IH i j); [done..|lia].
Qed.

Lemma sorted_lookup_inj (l : list Z) i j x :
  StronglySorted Z.lt l → l !! i = Some x → l !! j = Some x → i = j.
Proof.
  intros Hs Hi Hj. destruct (Nat.lt_trichotomy i j) as [?|[?|?]]; [|done|].
  - pose proof (sorted_lookup l i j x x Hs Hi Hj ltac:(done)). lia.
  - pose proof (sorted_lookup l j i x x Hs Hj Hi ltac:(done)). lia.
Qed.

Lemma sorted_sublist (l k : list Z) :
  sublist l k → StronglySorted Z.lt k → StronglySorted Z.lt l.
Proof.
  induction 1 as [|x l k Hsub IH|x l k Hsub IH]; intros Hs; [done| |].
  - apply StronglySorted_cons in Hs as [Hx Hs]. apply StronglySorted_cons. split; [|auto].
    rewrite Forall_forall in *. intros y Hy. apply Hx.
    by eapply elem_of_submseteq, sublist_submseteq.
  - apply StronglySorted_cons in Hs as [_ Hs]. auto.
Qed.

Lemma sorted_snoc (l : list Z) x :
  StronglySorted Z.lt l → (∀ y, y ∈ l → y < x) → StronglySorted Z.lt (l ++ [x]).
Proof.
  intros Hs Hx. apply StronglySorted_app_2; [|done|repeat constructor].
  intros y z Hy ->%list_elem_of_singleton. by apply Hx.
Qed.

(** ** Finite ranges

  A boolean property of a small range of integers is decided by evaluation. *)
Lemma range_check (P : Z → bool) (n : Z) :
  forallb P (seqZ 0 n) = true → ∀ x, 0 ≤ x < n → P x = true.
Proof.
  intros H x Hx. rewrite forallb_forall in H. apply H.
  apply list_elem_of_In, elem_of_seqZ. lia.
Qed.

(** [dq] turns the apostrophes of a literal into double quotes, so that JSON
    text can be written readably. *)
Fixpoint dq (s : string) : string :=
  match s with
  | EmptyString => EmptyString
  | String c s =>
      String (if Ascii.eqb c "'"%char then Ascii.ascii_of_nat 34 else c) (dq s)
  end.

(** Evaluate the lengths of the literals in the goal. *)
Ltac slen_literals :=
  repeat match goal with
  | |- context [slen (dq ?s)] =>
      let n := eval vm_compute in (slen (dq s)) in change (slen (dq s)) with n
  | |- context [slen ?s] =>
      match s with
      | EmptyString => change (slen s) with 0
      | String _ _ => let n := eval vm_compute in (slen s) in change (slen s) with n
      end
  end.

(** ** Shared automation *)
Create HintDb scope.
#[export] Hint Resolve slen_nonneg blen_nonneg : scope.
Create Rewrite HintDb slen.
#[export] Hint Rewrite slen_app slen_empty : slen.

(** Case analysis on every boolean integer test of the goal. *)
Ltac ztests :=
  repeat match goal with
  | |- context [Z.ltb ?a ?b] => destruct (Z.ltb_spec a b)
  | |- context [Z.leb ?a ?b] => destruct (Z.leb_spec a b)
  | |- context [Z.eqb ?a ?b] => destruct (Z.eqb_spec a b)
  end.
