(* ===== verification/GoStd.v ===== *)
(** * The parts of Go's standard library the cache uses

  Executable models of [sort.Search], [strconv] (decimal), [unicode/utf8],
  [strings]/[bytes] trimming, [json.Valid] of [encoding/json] and the
  [AppendFloat(_, 'f', 4, 64)] rendering of a MiB amount, with the lemmas the
  components share. They are not code of the repository. *)
From S2P Require Import Prelude.

(** ** Bytes of a string *)
Definition code (c : ascii) : Z := Z.of_N (N_of_ascii c).
Definition chr (z : Z) : ascii := ascii_of_N (Z.to_N (byte_of z)).

Fixpoint codes (s : string) : list Z :=
  match s with
  | EmptyString => []
  | String c s => code c :: codes s
  end.
Fixpoint of_codes (l : list Z) : string :=
  match l with
  | [] => EmptyString
  | z :: l => String (chr z) (of_codes l)
  end.

Lemma code_range c : 0 ≤ code c < 256.
Proof. unfold code. pose proof (N_ascii_bounded c). lia. Qed.
Lemma chr_code c : chr (code c) = c.
Proof.
  unfold chr, byte_of. pose proof (code_range c). rewrite Z.mod_small by lia.
  unfold code. rewrite N2Z.id. apply ascii_N_embedding.
Qed.
Lemma code_chr z : 0 ≤ z < 256 → code (chr z) = z.
Proof.
  intros H. unfold code, chr, byte_of. rewrite Z.mod_small by lia.
  rewrite N_ascii_embedding by lia. lia.
Qed.
Lemma of_codes_codes s : of_codes (codes s) = s.
Proof. induction s as [|c s IH]; simpl; [done|]. by rewrite chr_code, IH. Qed.
Lemma length_codes s : length (codes s) = String.length s.
Proof. induction s; simpl; auto. Qed.
Lemma length_of_codes l : String.length (of_codes l) = length l.
Proof. induction l; simpl; auto. Qed.
Lemma codes_app s1 s2 : codes (s1 +:+ s2) = codes s1 ++ codes s2.
Proof. induction s1 as [|c s1 IH]; simpl; [done|]. by rewrite IH. Qed.
Lemma codes_range s z : z ∈ codes s → 0 ≤ z < 256.
Proof.
  induction s as [|c s IH]; simpl; [set_solver|].
  intros [->|H]%elem_of_cons; [apply code_range | auto].
Qed.

(** ** sort.Search *)
Fixpoint search_go (fuel : nat) (f : nat → bool) (i j : nat) : nat :=
  match fuel with
  | O => i
  | S k =>
      if (i <? j)%nat then
        let h := ((i + j) / 2)%nat in
        if f h then search_go k f i h else search_go k f (h + 1) j
      else i
  end.

(** Each round at least drops the probe, so [n] rounds are enough. *)
Definition sort_Search (n : nat) (f : nat → bool) : nat := search_go n f 0 n.

Lemma search_go_spec fuel f i j :
  (i ≤ j)%nat → (j - i ≤ fuel)%nat →
  (∀ a b, (a ≤ b)%nat → f a = true → f b = true) →
  let r := search_go fuel f i j in
  (i ≤ r ≤ j)%nat ∧ (∀ k, (i ≤ k < r)%nat → f k = false) ∧
  (∀ k, (r ≤ k < j)%nat → f k = true).
Proof.
  intros Hij Hfuel Hmono. revert i j Hij Hfuel.
  induction fuel as [|n IH]; intros i j Hij Hfuel; cbn [search_go].
  { assert (i = j) as -> by lia. repeat split; intros; lia. }
  destruct (Nat.ltb_spec i j) as [Hlt|Hge].
  2:{ assert (i = j) as -> by lia. repeat split; intros; lia. }
  set (h := ((i + j) / 2)%nat).
  assert (i ≤ h < j)%nat as Hh.
  { unfold h. split; [apply Nat.div_le_lower_bound|apply Nat.Div0.div_lt_upper_bound]; lia. }
  destruct (f h) eqn:Hf.
  - destruct (IH i h) as (R1 & R2 & R3); [lia..|].
    split; [lia|]. split; [auto|]. intros k Hk.
    destruct (decide (k < h)%nat); [apply R3; lia|].
    apply (Hmono h); [lia|done].
  - destruct (IH (h + 1)%nat j) as (R1 & R2 & R3); [lia..|].
    split; [lia|]. split; [|intros; apply R3; lia].
    intros k Hk. destruct (decide (h < k)%nat); [apply R2; lia|].
    destruct (f k) eqn:Hfk; [|done]. exfalso.
    rewrite (Hmono k h) in Hf; [done|lia|done].
Qed.

(** The index found is the least one satisfying a monotone predicate. *)
Lemma sort_Search_least n f :
  (∀ a b, (a ≤ b)%nat → f a = true → f b = true) →
  let r := sort_Search n f in
  (r ≤ n)%nat ∧ (∀ k, (k < r)%nat → f k = false) ∧
  (∀ k, (r ≤ k < n)%nat → f k = true).
Proof.
  intros Hm. destruct (search_go_spec n f 0 n) as (H1 & H2 & H3); [lia..|done|].
  unfold sort_Search. cbv zeta in *. split; [lia|]. split; [|done].
  intros k Hk. apply H2. lia.
Qed.

Lemma search_go_ext fuel f g i j :
  (∀ k, (i ≤ k < j)%nat → f k = g k) → search_go fuel f i j = search_go fuel g i j.
Proof.
  revert i j. induction fuel as [|n IH]; intros i j H; cbn [search_go]; [done|].
  destruct (Nat.ltb_spec i j) as [Hlt|]; [|done].
  assert (i ≤ (i + j) / 2 < j)%nat as Hh.
  { split; [apply Nat.div_le_lower_bound|apply Nat.Div0.div_lt_upper_bound]; lia. }
  rewrite <- H by lia. destruct (f _); apply IH; intros; apply H; lia.
Qed.

(** On an ascending list and an upward-closed predicate the search returns the
    cut: everything before it fails the predicate, everything from it on
    satisfies it. *)
Lemma search_sorted (l : list Z) (P : Z → bool) :
  StronglySorted Z.lt l →
  (∀ x y, x ≤ y → P x = true → P y = true) →
  let r := sort_Search (length l) (λ i, P (l !!! i)) in
  (r ≤ length l)%nat ∧ (∀ i x, l !! i = Some x → (i < r)%nat → P x = false) ∧
  (∀ i x, l !! i = Some x → (r ≤ i)%nat → P x = true).
Proof.
  intros Hs HP.
  set (f := λ i, if (i <? length l)%nat then P (l !!! i) else true).
  assert (sort_Search (length l) (λ i, P (l !!! i)) = sort_Search (length l) f) as ->.
  { apply search_go_ext. intros k Hk. unfold f.
    by rewrite (proj2 (Nat.ltb_lt k (length l))) by lia. }
  destruct (sort_Search_least (length l) f) as (H1 & H2 & H3).
  { intros a b Hab. unfold f. destruct (Nat.ltb_spec b (length l)); [|done].
    rewrite (proj2 (Nat.ltb_lt a (length l))) by lia.
    destruct (decide (a = b)) as [->|]; [done|]. apply HP.
    destruct (lookup_lt_is_Some_2 l a) as [x Hx]; [lia|].
    destruct (lookup_lt_is_Some_2 l b) as [y Hy]; [lia|].
    rewrite (list_lookup_total_correct _ _ _ Hx), (list_lookup_total_correct _ _ _ Hy).
    apply Z.lt_le_incl, (sorted_lookup l a b x y Hs Hx Hy). lia. }
  cbv zeta. split; [done|].
  assert (∀ i x, l !! i = Some x → f i = P x) as Hf.
  { intros i x Hx. unfold f. rewrite (proj2 (Nat.ltb_lt i (length l))) by (by eapply lookup_lt_Some).
    by rewrite (list_lookup_total_correct _ _ _ Hx). }
  split; intros i x Hx Hi; rewrite <- (Hf i x Hx); [by apply H2|].
  apply H3. split; [done|]. by eapply lookup_lt_Some.
Qed.

(** ** strconv: decimal integers *)
Definition is_digit (z : Z) : bool := (48 <=? z) && (z <=? 57).
Definition digit_char (d : Z) : ascii := chr (48 + d).

Fixpoint dec_go (fuel : nat) (n : Z) (acc : string) : string :=
  match fuel with
  | O => acc
  | S k =>
      let acc := String (digit_char (n mod 10)) acc in
      if n / 10 =? 0 then acc else dec_go k (n / 10) acc
  end.

(** [strconv.FormatUint]: a number below [2 ^ f] has at most [f] digits. *)
Definition FormatUint (n : Z) : string := dec_go (S (Z.to_nat (Z.log2 n))) n "".
Definition FormatInt (n : Z) : string :=
  if n <? 0 then String "-"%char (FormatUint (- n)) else FormatUint n.

Fixpoint parse_digits (s : string) (acc : Z) : option Z :=
  match s with
  | EmptyString => Some acc
  | String c s =>
      if is_digit (code c) then parse_digits s (acc * 10 + (code c - 48)) else None
  end.

(** [strconv.ParseUint(s, 10, 64)]: digits only, at least one, in range. *)
Definition ParseUint (s : string) : option Z :=
  match s with
  | EmptyString => None
  | _ => match parse_digits s 0 with
         | Some n => if n <=? MaxUint64 then Some n else None
         | None => None
         end
  end.

(** [strconv.ParseInt(s, 10, 64)], which [strconv.Atoi] is on a 64-bit [int]:
    an optional sign, then digits; the magnitude is range-checked per sign. *)
Definition split_sign (s : string) : bool * string :=
  match s with
  | String c r =>
      if code c =? 45 then (true, r) else if code c =? 43 then (false, r) else (false, s)
  | EmptyString => (false, s)
  end.
Definition ParseInt (s : string) : option Z :=
  let '(neg, rest) := split_sign s in
  match ParseUint rest with
  | None => None
  | Some n => if (neg : bool) then (if n <=? 2 ^ 63 then Some (- n) else None)
              else (if n <=? MaxInt64 then Some n else None)
  end.
Definition Atoi : string → option Z := ParseInt.

Lemma code_digit_char d : 0 ≤ d < 10 → code (digit_char d) = 48 + d.
Proof. intros. unfold digit_char. apply code_chr. lia. Qed.

Lemma parse_dec_go fuel n acc :
  0 ≤ n < 2 ^ Z.of_nat fuel → (0 < fuel)%nat →
  parse_digits (dec_go fuel n acc) 0 = parse_digits acc n.
Proof.
  revert n acc. induction fuel as [|k IH]; intros n acc Hn Hk; [lia|].
  cbn [dec_go].
  pose proof (Z.mod_pos_bound n 10 ltac:(lia)) as Hm.
  pose proof (Z.div_mod n 10 ltac:(lia)) as Hdm.
  assert (is_digit (48 + n mod 10) = true) as Hd
    by (unfold is_digit; rewrite andb_true_iff, !Z.leb_le; lia).
  destruct (Z.eqb_spec (n / 10) 0) as [Hz|Hz].
  - cbn [parse_digits]. rewrite code_digit_char, Hd by lia. f_equal. lia.
  - assert (0 ≤ n / 10) by (apply Z.div_pos; lia).
    assert (n / 10 < 2 ^ Z.of_nat k).
    { apply Z.div_lt_upper_bound; [lia|].
      rewrite Nat2Z.inj_succ, Z.pow_succ_r in Hn by lia. lia. }
    assert (0 < k)%nat by (destruct k; [cbn in *; lia|lia]).
    rewrite IH by lia. cbn [parse_digits].
    rewrite code_digit_char, Hd by lia. f_equal. lia.
Qed.

Lemma parse_FormatUint n : 0 ≤ n → parse_digits (FormatUint n) 0 = Some n.
Proof.
  intros Hn. unfold FormatUint. rewrite parse_dec_go; [done| |lia].
  split; [done|]. rewrite Nat2Z.inj_succ, Z2Nat.id by apply Z.log2_nonneg.
  destruct (decide (n = 0)) as [->|]; [done|]. apply Z.log2_spec. lia.
Qed.

Lemma dec_go_nonempty fuel n acc : dec_go (S fuel) n acc ≠ ""%string.
Proof.
  assert (∀ f m a, a ≠ ""%string → dec_go f m a ≠ ""%string) as H.
  { induction f as [|f IH]; intros m a Ha; cbn [dec_go]; [done|]. by case_match; [|apply IH]. }
  cbn [dec_go]. case_match; [done|]. by apply H.
Qed.

Lemma ParseUint_FormatUint n : in_u64 n → ParseUint (FormatUint n) = Some n.
Proof.
  intros [H1 H2]. unfold ParseUint.
  destruct (FormatUint n) as [|c s] eqn:E.
  { exfalso. exact (dec_go_nonempty _ _ _ E). }
  rewrite <- E, parse_FormatUint by done.
  rewrite (proj2 (Z.leb_le _ _) H2). done.
Qed.

(** The first character of a printed natural number is a digit. *)
Lemma dec_go_head fuel n acc c s :
  dec_go fuel n acc = String c s → (0 < fuel)%nat → 0 ≤ n → is_digit (code c) = true.
Proof.
  revert n acc. induction fuel as [|k IH]; intros n acc E Hf Hn; [lia|].
  cbn [dec_go] in E.
  pose proof (Z.mod_pos_bound n 10 ltac:(lia)) as Hm.
  assert (is_digit (code (digit_char (n mod 10))) = true) as Hd.
  { rewrite code_digit_char by lia. unfold is_digit.
    rewrite andb_true_iff, !Z.leb_le. lia. }
  destruct (n / 10 =? 0); [by simplify_eq|].
  destruct k as [|k]; [by cbn in E; simplify_eq|].
  eapply IH; [exact E|lia|]. apply Z.div_pos; lia.
Qed.

Lemma ParseInt_FormatInt n : in_i64 n → ParseInt (FormatInt n) = Some n.
Proof.
  intros [H1 H2]. unfold FormatInt, MinInt64 in *.
  destruct (Z.ltb_spec n 0) as [Hneg|Hpos].
  - unfold ParseInt, split_sign. change (code "-"%char =? 45) with true. cbv iota beta.
    rewrite ParseUint_FormatUint by (unfold in_u64, MaxUint64; lia).
    rewrite (proj2 (Z.leb_le _ _)) by lia. f_equal. lia.
  - unfold ParseInt, split_sign. destruct (FormatUint n) as [|c s] eqn:E.
    { exfalso. exact (dec_go_nonempty _ _ _ E). }
    pose proof (dec_go_head _ _ _ _ _ E ltac:(lia) Hpos) as Hd.
    unfold is_digit in Hd. rewrite andb_true_iff, !Z.leb_le in Hd.
    rewrite (proj2 (Z.eqb_neq (code c) 45)), (proj2 (Z.eqb_neq (code c) 43)) by lia.
    rewrite <- E, ParseUint_FormatUint by (unfold in_u64, MaxUint64, MaxInt64 in *; lia).
    rewrite (proj2 (Z.leb_le _ _)) by lia. done.
Qed.

Lemma parse_digits_nonneg s a n : 0 ≤ a → parse_digits s a = Some n → 0 ≤ n.
Proof.
  revert a. induction s as [|c s IH]; intros a Ha; cbn [parse_digits]; [intros; by simplify_eq|].
  unfold is_digit. case_match eqn:E; [|done]. rewrite andb_true_iff, !Z.leb_le in E.
  apply IH. lia.
Qed.

Lemma ParseUint_range s n : ParseUint s = Some n → in_u64 n.
Proof.
  unfold ParseUint, in_u64. destruct s as [|c s]; [done|].
  case_match eqn:E; [|done]. case_match eqn:E2; [|done]. intros; simplify_eq.
  apply parse_digits_nonneg in E; [|lia]. rewrite Z.leb_le in E2. lia.
Qed.

Lemma ParseInt_range s n : ParseInt s = Some n → in_i64 n.
Proof.
  unfold ParseInt, in_i64, MinInt64. destruct (split_sign s) as [neg rest].
  destruct (ParseUint rest) as [m|] eqn:E; [|done].
  apply ParseUint_range in E. unfold in_u64, MaxInt64 in *.
  destruct neg; case_match eqn:E2; intros; simplify_eq; rewrite Z.leb_le in E2; lia.
Qed.

(** ** strings / bytes: trimming and prefixes *)
Definition HasPrefix (s prefix : string) : bool := String.prefix prefix s.

Definition ascii_space (z : Z) : bool := (z =? 32) || ((9 <=? z) && (z <=? 13)).
(** The other [unicode.IsSpace] runes: U+0085, U+00A0 in two bytes, and
    U+1680, U+2000..200A, U+2028, U+2029, U+202F, U+205F, U+3000 in three. *)
Definition space2 (a b : Z) : bool := (a =? 0xC2) && ((b =? 0x85) || (b =? 0xA0)).
Definition space3 (a b c : Z) : bool :=
  ((a =? 0xE1) && (b =? 0x9A) && (c =? 0x80))
  || ((a =? 0xE2) && (b =? 0x80)
      && (((0x80 <=? c) && (c <=? 0x8A)) || (c =? 0xA8) || (c =? 0xA9) || (c =? 0xAF)))
  || ((a =? 0xE2) && (b =? 0x81) && (c =? 0x9F))
  || ((a =? 0xE3) && (b =? 0x80) && (c =? 0x80)).

Fixpoint trim_left_space (l : list Z) : list Z :=
  match l with
  | a :: l1 =>
      if ascii_space a then trim_left_space l1
      else match l1 with
           | b :: l2 =>
               if space2 a b then trim_left_space l2
               else match l2 with
                    | c :: l3 => if space3 a b c then trim_left_space l3 else l
                    | [] => l
                    end
           | [] => l
           end
  | [] => []
  end.
(** The same on the reversed bytes, for the right end. *)
Fixpoint trim_right_space_rev (l : list Z) : list Z :=
  match l with
  | a :: l1 =>
      if ascii_space a then trim_right_space_rev l1
      else match l1 with
           | b :: l2 =>
               if space2 b a then trim_right_space_rev l2
               else match l2 with
                    | c :: l3 => if space3 c b a then trim_right_space_rev l3 else l
                    | [] => l
                    end
           | [] => l
           end
  | [] => []
  end.
Definition TrimSpace_codes (l : list Z) : list Z :=
  rev (trim_right_space_rev (rev (trim_left_space l))).
Definition TrimSpace (s : string) : string := of_codes (TrimSpace_codes (codes s)).

(** [bytes.TrimLeft(p, " \t\r\n")], the JSON white space of the payload. *)
Definition json_space (z : Z) : bool := (z =? 32) || (z =? 9) || (z =? 13) || (z =? 10).
Fixpoint skip_ws (l : list Z) : list Z :=
  match l with
  | z :: l' => if json_space z then skip_ws l' else l
  | [] => []
  end.

(** ** unicode/utf8 *)
Definition cont (z : Z) : bool := (0x80 <=? z) && (z <=? 0xBF).
Fixpoint utf8_valid (l : list Z) : bool :=
  match l with
  | [] => true
  | a :: l1 =>
      if a <? 0x80 then utf8_valid l1
      else match l1 with
           | [] => false
           | b :: l2 =>
               if (0xC2 <=? a) && (a <=? 0xDF) then cont b && utf8_valid l2
               else match l2 with
                    | [] => false
                    | c :: l3 =>
                        if (0xE0 <=? a) && (a <=? 0xEF) then
                          ((if a =? 0xE0 then 0xA0 else 0x80) <=? b)
                          && (b <=? (if a =? 0xED then 0x9F else 0xBF))
                          && cont c && utf8_valid l3
                        else match l3 with
                             | [] => false
                             | d :: l4 =>
                                 if (0xF0 <=? a) && (a <=? 0xF4) then
                                   ((if a =? 0xF0 then 0x90 else 0x80) <=? b)
                                   && (b <=? (if a =? 0xF4 then 0x8F else 0xBF))
                                   && cont c && cont d && utf8_valid l4
                                 else false
                             end
                    end
           end
  end.
Definition utf8_ValidString (s : string) : bool := utf8_valid (codes s).

(** ** encoding/json: json.Valid

  A recursive-descent reading of the scanner: each function returns the input
  left after the construct, [None] on a syntax error. Every call of
  [json_value] is followed by a consumed byte before the next one, so fuel
  twice the length is enough; nesting is bounded like [maxNestingDepth]. *)
Definition is_hex (z : Z) : bool :=
  is_digit z || ((97 <=? z) && (z <=? 102)) || ((65 <=? z) && (z <=? 70)).
Definition simple_escape (z : Z) : bool :=
  bool_decide (z ∈ [98; 102; 110; 114; 116; 92; 47; 34]).

Fixpoint json_string_tail (l : list Z) : option (list Z) :=
  match l with
  | [] => None
  | c :: l1 =>
      if c =? 34 then Some l1
      else if c <? 32 then None
      else if c =? 92 then
        match l1 with
        | [] => None
        | e :: l2 =>
            if simple_escape e then json_string_tail l2
            else if e =? 117 then
              match l2 with
              | h1 :: h2 :: h3 :: h4 :: l3 =>
                  if is_hex h1 && is_hex h2 && is_hex h3 && is_hex h4
                  then json_string_tail l3 else None
              | _ => None
              end
            else None
        end
      else json_string_tail l1
  end.

Fixpoint skip_digits (l : list Z) : list Z :=
  match l with
  | d :: l' => if is_digit d then skip_digits l' else l
  | [] => []
  end.
Definition json_digits1 (l : list Z) : option (list Z) :=
  match l with
  | d :: l' => if is_digit d then Some (skip_digits l') else None
  | [] => None
  end.
Definition json_exp (l : list Z) : option (list Z) :=
  match l with
  | e :: l' =>
      if (e =? 101) || (e =? 69) then
        match l' with
        | s :: l'' => if (s =? 43) || (s =? 45) then json_digits1 l'' else json_digits1 l'
        | [] => None
        end
      else Some l
  | [] => Some l
  end.
Definition json_frac (l : list Z) : option (list Z) :=
  match l with
  | p :: l' =>
      if p =? 46 then match json_digits1 l' with Some r => json_exp r | None => None end
      else json_exp l
  | [] => Some l
  end.
Definition json_unsigned (l : list Z) : option (list Z) :=
  match l with
  | d :: l' =>
      if d =? 48 then json_frac l'
      else if is_digit d then json_frac (skip_digits l') else None
  | [] => None
  end.
Definition json_number (l : list Z) : option (list Z) :=
  match l with
  | m :: l' => if m =? 45 then json_unsigned l' else json_unsigned l
  | [] => None
  end.
Fixpoint json_literal (w l : list Z) : option (list Z) :=
  match w, l with
  | [], _ => Some l
  | a :: w', b :: l' => if a =? b then json_literal w' l' else None
  | _ :: _, [] => None
  end.

Definition maxNestingDepth : Z := 10000.

Fixpoint json_value (fuel : nat) (depth : Z) (l : list Z) : option (list Z) :=
  match fuel with
  | O => None
  | S k =>
      match skip_ws l with
      | [] => None
      | c :: l1 =>
          if c =? 34 then json_string_tail l1
          else if c =? 123 then
            if maxNestingDepth <? depth + 1 then None
            else match skip_ws l1 with
                 | d :: l2 => if d =? 125 then Some l2 else json_members k (depth + 1) l1
                 | [] => None
                 end
          else if c =? 91 then
            if maxNestingDepth <? depth + 1 then None
            else match skip_ws l1 with
                 | d :: l2 => if d =? 93 then Some l2 else json_elements k (depth + 1) l1
                 | [] => None
                 end
          else if c =? 116 then json_literal [114; 117; 101] l1
          else if c =? 102 then json_literal [97; 108; 115; 101] l1
          else if c =? 110 then json_literal [117; 108; 108] l1
          else json_number (c :: l1)
      end
  end
with json_members (fuel : nat) (depth : Z) (l : list Z) : option (list Z) :=
  match fuel with
  | O => None
  | S k =>
      match skip_ws l with
      | c :: l1 =>
          if c =? 34 then
            match json_string_tail l1 with
            | Some l2 =>
                match skip_ws l2 with
                | e :: l3 =>
                    if e =? 58 then
                      match json_value k depth l3 with
                      | Some l4 =>
                          match skip_ws l4 with
                          | s :: l5 =>
                              if s =? 44 then json_members k depth l5
                              else if s =? 125 then Some l5 else None
                          | [] => None
                          end
                      | None => None
                      end
                    else None
                | [] => None
                end
            | None => None
            end
          else None
      | [] => None
      end
  end
with json_elements (fuel : nat) (depth : Z) (l : list Z) : option (list Z) :=
  match fuel with
  | O => None
  | S k =>
      match json_value k depth l with
      | Some l1 =>
          match skip_ws l1 with
          | s :: l2 =>
              if s =? 44 then json_elements k depth l2
              else if s =? 93 then Some l2 else None
          | [] => None
          end
      | None => None
      end
  end.

Definition json_Valid (s : string) : bool :=
  let l := codes s in
  match json_value (2 * length l + 2) 0 l with
  | Some rest => match skip_ws rest with [] => true | _ => false end
  | None => false
  end.

(** ** strconv.AppendFloat(_, float64(n) / 1048576, 'f', 4, 64)

  [float64_of_int] rounds an integer to 53 significant bits, half to even; the
  division by a power of two is exact, and the four decimals are the exact
  quotient rounded half to even. *)
Definition round_half_even (a b : Z) : Z :=
  let q := a / b in
  let r := a mod b in
  if 2 * r <? b then q else if b <? 2 * r then q + 1 else if Z.even q then q else q + 1.
Definition float64_of_int (n : Z) : Z :=
  let m := Z.abs n in
  if m <? 2 ^ 53 then n
  else let e := 2 ^ (Z.log2 m - 52) in Z.sgn n * (round_half_even m e * e).
Definition pad4 (n : Z) : string :=
  of_codes [48 + n / 1000; 48 + n / 100 mod 10; 48 + n / 10 mod 10; 48 + n mod 10].
Definition format_mib (n : Z) : string :=
  let q := round_half_even (Z.abs (float64_of_int n) * 10000) 1048576 in
  (if n <? 0 then "-" else "") +:+ FormatUint (q / 10000) +:+ "." +:+ pad4 (q mod 10000).
