(* ===== verification/GoStdSpec.v ===== *)
(** * The fuel of the JSON checker is enough

  Every construct of [json.Valid] leaves less input than it was given, so the
  fuel [json_Valid] starts with is never used up: more fuel gives the same
  answer. *)
From S2P Require Import Prelude GoStd.

(** A reader that leaves less (or not more) than it got. *)
Definition consumes (n : nat) (l : list Z) (o : option (list Z)) : Prop :=
  match o with Some r => (n + length r ≤ length l)%nat | None => True end.

Lemma consumes_mono n n' l l' o : consumes n l o → (n' + length l ≤ n + length l')%nat → consumes n' l' o.
Proof. destruct o; cbn; [lia|done]. Qed.
Lemma skip_ws_length l : (length (skip_ws l) ≤ length l)%nat.
Proof. induction l as [|c l IH]; cbn; [lia|]. case_match; cbn in *; lia. Qed.
Lemma skip_ws_cons l c l1 : skip_ws l = c :: l1 → (S (length l1) ≤ length l)%nat.
Proof. intros E. pose proof (skip_ws_length l) as X. rewrite E in X. exact X. Qed.
Lemma skip_digits_length l : (length (skip_digits l) ≤ length l)%nat.
Proof. induction l as [|c l IH]; cbn; [lia|]. case_match; cbn in *; lia. Qed.

Lemma json_string_tail_consumes l : consumes 1 l (json_string_tail l).
Proof.
  induction l as [l IH] using (induction_ltof1 _ (@length Z)). unfold ltof in IH.
  destruct l as [|c l1]; [done|]. cbn [json_string_tail].
  repeat case_match; try done; subst; cbn;
    try (eapply consumes_mono; [apply IH; cbn; lia|cbn; lia]). lia.
Qed.
Lemma json_digits1_consumes l : consumes 1 l (json_digits1 l).
Proof.
  destruct l as [|d l]; [done|]. cbn. case_match; [|done]. cbn.
  pose proof (skip_digits_length l). lia.
Qed.
Lemma json_exp_consumes l : consumes 0 l (json_exp l).
Proof.
  destruct l as [|e l]; cbn; [lia|]. repeat case_match; try done; subst;
    try (eapply consumes_mono; [apply json_digits1_consumes|cbn; lia]).
  all: cbn; lia.
Qed.
Lemma json_frac_consumes l : consumes 0 l (json_frac l).
Proof.
  destruct l as [|p l]; [cbn; lia|]. unfold json_frac. case_match; [|apply json_exp_consumes].
  pose proof (json_digits1_consumes l) as X. destruct (json_digits1 l) as [r|]; [|done].
  eapply consumes_mono; [apply json_exp_consumes|]. cbn in *. lia.
Qed.
Lemma json_unsigned_consumes l : consumes 1 l (json_unsigned l).
Proof.
  destruct l as [|d l]; [done|]. cbn [json_unsigned]. pose proof (skip_digits_length l).
  repeat case_match; try done; (eapply consumes_mono; [apply json_frac_consumes|cbn; lia]).
Qed.
Lemma json_number_consumes l : consumes 1 l (json_number l).
Proof.
  destruct l as [|m l]; [done|]. unfold json_number. case_match; [|apply json_unsigned_consumes].
  eapply consumes_mono; [apply json_unsigned_consumes|cbn; lia].
Qed.
Lemma json_literal_consumes w l : consumes 0 l (json_literal w l).
Proof.
  revert l. induction w as [|a w IH]; intros [|b l]; cbn; try done; [lia..|].
  case_match; [|done]. eapply consumes_mono; [apply IH|cbn; lia].
Qed.

Lemma json_consumes fuel : ∀ depth l,
  consumes 1 l (json_value fuel depth l) ∧ consumes 1 l (json_members fuel depth l) ∧
  consumes 1 l (json_elements fuel depth l).
Proof.
  induction fuel as [|k IH]; intros depth l; [done|].
  assert (IHv : ∀ d l', consumes 1 l' (json_value k d l')) by (intros; apply IH).
  assert (IHm : ∀ d l', consumes 1 l' (json_members k d l')) by (intros; apply IH).
  assert (IHe : ∀ d l', consumes 1 l' (json_elements k d l')) by (intros; apply IH).
  clear IH. split_and!; cbn [json_value json_members json_elements].
  - destruct (skip_ws l) as [|c l1] eqn:E; [done|]. apply skip_ws_cons in E.
    repeat (case_match; try done).
    all: try match goal with E2 : skip_ws _ = _ :: _ |- _ => apply skip_ws_cons in E2; cbn; lia end.
    all: (eapply consumes_mono;
      [first [apply json_string_tail_consumes|apply IHm|apply IHe|apply json_literal_consumes
             |apply json_number_consumes]|cbn; lia]).
  - destruct (skip_ws l) as [|c l1] eqn:E; [done|]. apply skip_ws_cons in E.
    case_match; [|done]. pose proof (json_string_tail_consumes l1) as C1.
    destruct (json_string_tail l1) as [l2|]; [|done]. cbn in C1.
    destruct (skip_ws l2) as [|e l3] eqn:E2; [done|]. apply skip_ws_cons in E2.
    case_match; [|done]. pose proof (IHv depth l3) as C2.
    destruct (json_value k depth l3) as [l4|]; [|done]. cbn in C2.
    destruct (skip_ws l4) as [|s l5] eqn:E3; [done|]. apply skip_ws_cons in E3.
    case_match; [eapply consumes_mono; [apply IHm|lia]|]. case_match; [cbn; lia|done].
  - pose proof (IHv depth l) as C1. destruct (json_value k depth l) as [l1|]; [|done]. cbn in C1.
    destruct (skip_ws l1) as [|s l2] eqn:E2; [done|]. apply skip_ws_cons in E2.
    case_match; [eapply consumes_mono; [apply IHe|lia]|]. case_match; [cbn; lia|done].
Qed.

Lemma json_fuel f : ∀ g depth l,
  ((2 * length l + 1 ≤ f)%nat → (2 * length l + 1 ≤ g)%nat →
     json_value f depth l = json_value g depth l) ∧
  ((2 * length l + 2 ≤ f)%nat → (2 * length l + 2 ≤ g)%nat →
     json_members f depth l = json_members g depth l ∧
     json_elements f depth l = json_elements g depth l).
Proof.
  induction f as [|f IH]; intros g depth l; [split; lia|]. destruct g as [|g]; [split; lia|].
  split; intros Hf Hg.
  - cbn [json_value]. destruct (skip_ws l) as [|c l1] eqn:E; [done|]. apply skip_ws_cons in E.
    destruct (IH g (depth + 1) l1) as [_ [-> ->]]; [lia..|done].
  - destruct (IH g depth l) as [Hv _]. cbn [json_members json_elements]. split.
    + destruct (skip_ws l) as [|c l1] eqn:E; [done|]. apply skip_ws_cons in E.
      case_match; [|done]. pose proof (json_string_tail_consumes l1) as C1.
      destruct (json_string_tail l1) as [l2|]; [|done]. cbn in C1.
      destruct (skip_ws l2) as [|e l3] eqn:E2; [done|]. apply skip_ws_cons in E2.
      case_match; [|done]. destruct (IH g depth l3) as [-> _]; [|lia..].
      destruct (json_consumes g depth l3) as [C2 _].
      destruct (json_value g depth l3) as [l4|]; [|done]. cbn in C2.
      destruct (skip_ws l4) as [|s l5] eqn:E3; [done|]. apply skip_ws_cons in E3.
      destruct (IH g depth l5) as [_ [-> _]]; [lia..|done].
    + rewrite Hv by lia. destruct (json_consumes g depth l) as [C1 _].
      destruct (json_value g depth l) as [l1|]; [|done]. cbn in C1.
      destruct (skip_ws l1) as [|s l2] eqn:E2; [done|]. apply skip_ws_cons in E2.
      destruct (IH g depth l2) as [_ [_ ->]]; [lia..|done].
Qed.

(** [json_Valid] with any larger fuel is [json_Valid]. *)
Lemma json_Valid_fuel s fuel : (2 * length (codes s) + 2 ≤ fuel)%nat →
  json_Valid s = match json_value fuel 0 (codes s) with
                 | Some rest => match skip_ws rest with [] => true | _ => false end
                 | None => false
                 end.
Proof.
  intros Hf. unfold json_Valid.
  destruct (json_fuel (2 * length (codes s) + 2) fuel 0 (codes s)) as [-> _]; [done|lia..].
Qed.
