(* ===== verification/Uuid.v ===== *)
(** * uuid.go: UUIDv7 minting, validation and rendering

  The [UUID] type is the raw 16 bytes; its canonical 36-character form exists
  only at the boundaries. The clock reading and the two random draws of
  [newUUIDv7] are arguments. *)
From S2P Require Import Prelude GoStd.

(** [type UUID [16]byte]: a list of bytes, [uuid_wf] states the array's type. *)
Definition UUID : Type := list Z.
Definition is_byte (z : Z) : Prop := 0 ≤ z < 256.
Definition uuid_wf (u : UUID) : Prop := length u = 16%nat ∧ Forall is_byte u.
#[export] Instance UUID_eq_dec : EqDecision UUID.
Proof. unfold UUID. apply _. Defined.
#[export] Instance UUID_countable : Countable UUID.
Proof. unfold UUID. apply _. Defined.

Definition zeroUUID : UUID := replicate 16 0.
Definition IsZero (u : UUID) : bool := bool_decide (u = zeroUUID).

#[global] Arguments IsZero : simpl never.

(** The byte at index [i] of a fixed-size array. *)
Definition byte_at (l : list Z) (i : nat) : Z := nth i l 0.

Definition uuidStringLen : Z := 36.
Definition hexDigits : list Z := codes "0123456789abcdef".

(** [ms] is [uint64(time.Now().UnixMilli())], [randA] and [randB] the two
    [mathrand.Uint64()] draws. *)
Definition newUUIDv7 (ms randA randB : Z) : UUID :=
  [ byte_of (Z.shiftr ms 40);
    byte_of (Z.shiftr ms 32);
    byte_of (Z.shiftr ms 24);
    byte_of (Z.shiftr ms 16);
    byte_of (Z.shiftr ms 8);
    byte_of ms;
    Z.lor 0x70 (byte_of (Z.land (Z.shiftr randA 8) 0x0F));
    byte_of randA;
    Z.lor 0x80 (byte_of (Z.land (Z.shiftr randB 56) 0x3F));
    byte_of (Z.shiftr randB 48);
    byte_of (Z.shiftr randB 40);
    byte_of (Z.shiftr randB 32);
    byte_of (Z.shiftr randB 24);
    byte_of (Z.shiftr randB 16);
    byte_of (Z.shiftr randB 8);
    byte_of randB ].

Definition isValidV7 (u : UUID) : bool :=
  (Z.shiftr (byte_at u 6) 4 =? 0x7) && (Z.shiftr (byte_at u 8) 6 =? 2).

Definition hexVal (c : Z) : option Z :=
  if (48 <=? c) && (c <=? 57) then Some (c - 48)
  else if (97 <=? c) && (c <=? 102) then Some (c - 97 + 10)
  else None.

Definition hexDigit (n : Z) : Z := byte_at hexDigits (Z.to_nat n).

Definition hex_byte_step (dst : string) (ib : nat * Z) : string :=
  let '(i, b) := ib in
  let dst := if (i =? 4)%nat || (i =? 6)%nat || (i =? 8)%nat || (i =? 10)%nat
             then dst +:+ "-" else dst in
  dst +:+ of_codes [hexDigit (Z.shiftr b 4); hexDigit (Z.land b 0x0F)].
Definition appendUUIDHex (dst : string) (u : UUID) : string :=
  foldl hex_byte_step dst (zip (seq 0 16) u).

Definition appendUUIDJSON (dst : string) (u : UUID) : string :=
  if IsZero u then dst +:+ dq "''"
  else (appendUUIDHex (dst +:+ dq "'") u) +:+ dq "'".

Definition formatUUID (u : UUID) : string := appendUUIDHex "" u.
Definition UUID_String (u : UUID) : string := formatUUID u.
Definition UUID_MarshalJSON (u : UUID) : string := appendUUIDJSON "" u.
Definition wireUUID (u : UUID) : string := if IsZero u then "" else formatUUID u.

Fixpoint parse_hex_bytes (n src : nat) (s : list Z) : option (list Z) :=
  match n with
  | O => Some []
  | S n' =>
      let src := if (src =? 8)%nat || (src =? 13)%nat || (src =? 18)%nat || (src =? 23)%nat
                 then S src else src in
      match hexVal (byte_at s src), hexVal (byte_at s (S src)) with
      | Some hi, Some lo =>
          match parse_hex_bytes n' (src + 2) s with
          | Some b => Some (Z.lor (byte_of (Z.shiftl hi 4)) lo :: b)
          | None => None
          end
      | _, _ => None
      end
  end.

(** [None] is [errInvalidUUIDv7]. *)
Definition parseUUIDv7 (s : string) : option UUID :=
  let l := codes s in
  if negb (length l =? 36)%nat then None
  else if negb ((byte_at l 8 =? 45) && (byte_at l 13 =? 45)
                && (byte_at l 18 =? 45) && (byte_at l 23 =? 45)) then None
  else match parse_hex_bytes 16 0 l with
       | Some b =>
           if negb (Z.shiftr (byte_at b 6) 4 =? 0x7) then None
           else if negb (Z.shiftr (byte_at b 8) 6 =? 2) then None
           else Some b
       | None => None
       end.
Definition isValidUUIDv7 (s : string) : bool := bool_decide (is_Some (parseUUIDv7 s)).

(** [u.UnmarshalJSON(data)]: the receiver's new value, or [None] for the error. *)
Definition UUID_UnmarshalJSON (u : UUID) (data : string) : option UUID :=
  let l := codes data in
  if bool_decide (data = "null") then Some u
  else if (length l <? 2)%nat || negb (byte_at l 0 =? 34)
          || negb (byte_at l (length l - 1) =? 34) then None
  else let s := take (length l - 2) (drop 1 l) in
       match s with
       | [] => Some u
       | _ => parseUUIDv7 (of_codes s)
       end.

(** ** Nibbles and bytes *)
Lemma hexVal_hexDigit n : 0 ≤ n < 16 → hexVal (hexDigit n) = Some n.
Proof.
  intros H.
  assert (bool_decide (hexVal (hexDigit n) = Some n) = true) as Hb.
  { revert n H. apply range_check. vm_compute. reflexivity. }
  by apply bool_decide_eq_true in Hb.
Qed.

Lemma hexDigit_hexVal c n : 0 ≤ c < 256 → hexVal c = Some n → 0 ≤ n < 16 ∧ hexDigit n = c.
Proof.
  intros H E.
  assert (match hexVal c with
          | Some m => bool_decide (0 ≤ m < 16 ∧ hexDigit m = c)
          | None => true
          end = true) as Hb.
  { clear n E. revert c H. apply range_check. vm_compute. reflexivity. }
  rewrite E in Hb. by apply bool_decide_eq_true in Hb.
Qed.

Lemma hexDigit_byte n : 0 ≤ n < 16 → 0 ≤ hexDigit n < 256 ∧ hexDigit n ≠ 45.
Proof.
  intros H. assert (bool_decide (0 ≤ hexDigit n < 256 ∧ hexDigit n ≠ 45) = true) as Hb.
  { revert n H. apply range_check. vm_compute. reflexivity. }
  by apply bool_decide_eq_true in Hb.
Qed.

Lemma nibbles b : is_byte b →
  0 ≤ Z.shiftr b 4 < 16 ∧ 0 ≤ Z.land b 0x0F < 16 ∧
  Z.lor (byte_of (Z.shiftl (Z.shiftr b 4) 4)) (Z.land b 0x0F) = b.
Proof.
  intros H.
  assert (bool_decide (0 ≤ Z.shiftr b 4 < 16 ∧ 0 ≤ Z.land b 0x0F < 16 ∧
    Z.lor (byte_of (Z.shiftl (Z.shiftr b 4) 4)) (Z.land b 0x0F) = b) = true) as Hb.
  { revert b H. unfold is_byte. apply range_check. vm_compute. reflexivity. }
  by apply bool_decide_eq_true in Hb.
Qed.

Lemma join_nibbles hi lo : 0 ≤ hi < 16 → 0 ≤ lo < 16 →
  let b := Z.lor (byte_of (Z.shiftl hi 4)) lo in
  is_byte b ∧ Z.shiftr b 4 = hi ∧ Z.land b 0x0F = lo.
Proof.
  intros Hh Hl.
  assert (forallb (λ l, let b := Z.lor (byte_of (Z.shiftl hi 4)) l in
    bool_decide (0 ≤ b < 256 ∧ Z.shiftr b 4 = hi ∧ Z.land b 0x0F = l)) (seqZ 0 16) = true) as Hb.
  { revert hi Hh. apply range_check. vm_compute. reflexivity. }
  rewrite forallb_forall in Hb. specialize (Hb lo).
  rewrite <- list_elem_of_In, elem_of_seqZ in Hb.
  specialize (Hb ltac:(lia)). by apply bool_decide_eq_true in Hb.
Qed.

Lemma byte_of_is_byte x : is_byte (byte_of x).
Proof. apply Z.mod_pos_bound. lia. Qed.

(** ** The canonical string *)
Lemma appendUUIDHex_dst dst u : appendUUIDHex dst u = dst +:+ formatUUID u.
Proof.
  unfold formatUUID, appendUUIDHex.
  assert (∀ l d, foldl hex_byte_step d l = d +:+ foldl hex_byte_step "" l) as H; [|apply H].
  induction l as [|[i b] l IH]; intros d; cbn [foldl]; [by rewrite string_app_nil_r|].
  rewrite IH, (IH (hex_byte_step "" _)), <- string_app_assoc. f_equal.
  unfold hex_byte_step. destruct (_ || _); by rewrite ?string_app_assoc.
Qed.

(** The 36 character codes, given by position. *)
Definition hex_hi (u : UUID) (i : nat) : Z := hexDigit (Z.shiftr (byte_at u i) 4).
Definition hex_lo (u : UUID) (i : nat) : Z := hexDigit (Z.land (byte_at u i) 0x0F).
Definition format_codes (u : UUID) : list Z :=
  [hex_hi u 0; hex_lo u 0; hex_hi u 1; hex_lo u 1; hex_hi u 2; hex_lo u 2;
   hex_hi u 3; hex_lo u 3; 45;
   hex_hi u 4; hex_lo u 4; hex_hi u 5; hex_lo u 5; 45;
   hex_hi u 6; hex_lo u 6; hex_hi u 7; hex_lo u 7; 45;
   hex_hi u 8; hex_lo u 8; hex_hi u 9; hex_lo u 9; 45;
   hex_hi u 10; hex_lo u 10; hex_hi u 11; hex_lo u 11; hex_hi u 12; hex_lo u 12;
   hex_hi u 13; hex_lo u 13; hex_hi u 14; hex_lo u 14; hex_hi u 15; hex_lo u 15].

Ltac explode_uuid u H :=
  let Hl := fresh "Hl" in let Hb := fresh "Hb" in
  destruct H as [Hl Hb];
  do 16 (destruct u as [|? u]; [discriminate Hl|]);
  destruct u; [clear Hl|discriminate Hl];
  repeat match goal with
  | Hb : Forall is_byte (_ :: _) |- _ =>
      let Hx := fresh "Hx" in apply Forall_cons in Hb as [Hx Hb]
  end.

Lemma formatUUID_of_codes u : uuid_wf u → formatUUID u = of_codes (format_codes u).
Proof. intros H. explode_uuid u H. reflexivity. Qed.

Lemma codes_of_codes l : Forall is_byte l → codes (of_codes l) = l.
Proof.
  induction 1 as [|z l Hz _ IH]; [done|]. cbn [of_codes codes].
  by rewrite code_chr, IH.
Qed.

Lemma hex_byte_hi b : is_byte b → is_byte (hexDigit (Z.shiftr b 4)).
Proof. intros (H1 & H2 & _)%nibbles. by apply hexDigit_byte. Qed.
Lemma hex_byte_lo b : is_byte b → is_byte (hexDigit (Z.land b 0x0F)).
Proof. intros (H1 & H2 & _)%nibbles. by apply hexDigit_byte. Qed.

Lemma hyphen_byte : is_byte 45.
Proof. unfold is_byte. lia. Qed.

Lemma format_codes_bytes u : uuid_wf u → Forall is_byte (format_codes u).
Proof.
  intros [_ Hb].
  assert (∀ i, is_byte (byte_at u i)) as Hi.
  { intros i. unfold byte_at. destruct (nth_in_or_default i u 0) as [H| ->].
    - rewrite Forall_forall in Hb. apply Hb, list_elem_of_In, H.
    - unfold is_byte. lia. }
  unfold format_codes, hex_hi, hex_lo.
  repeat apply Forall_cons_2; auto using hex_byte_hi, hex_byte_lo, hyphen_byte, Forall_nil_2.
Qed.

(** The parser's cursor: a hyphen position is skipped. *)
Definition skip_hyphen (src : nat) : nat :=
  if (src =? 8)%nat || (src =? 13)%nat || (src =? 18)%nat || (src =? 23)%nat
  then S src else src.

Lemma byte_at_is_byte l i : Forall is_byte l → is_byte (byte_at l i).
Proof.
  intros Hb. unfold byte_at. destruct (nth_in_or_default i l 0) as [H| ->].
  - rewrite Forall_forall in Hb. apply Hb, list_elem_of_In, H.
  - unfold is_byte. lia.
Qed.

Lemma parse_hex_step n src s b bs :
  is_byte b →
  byte_at s (skip_hyphen src) = hexDigit (Z.shiftr b 4) →
  byte_at s (S (skip_hyphen src)) = hexDigit (Z.land b 0x0F) →
  parse_hex_bytes n (skip_hyphen src + 2) s = Some bs →
  parse_hex_bytes (S n) src s = Some (b :: bs).
Proof.
  intros (H1 & H2 & H3)%nibbles Ehi Elo E. cbn [parse_hex_bytes]. fold (skip_hyphen src).
  by rewrite Ehi, Elo, !hexVal_hexDigit, E, H3.
Qed.

Lemma parse_hex_step_inv n src k s u :
  skip_hyphen src = k → Forall is_byte s → parse_hex_bytes (S n) src s = Some u →
  ∃ b bs, u = b :: bs ∧ is_byte b ∧
    byte_at s k = hexDigit (Z.shiftr b 4) ∧ byte_at s (S k) = hexDigit (Z.land b 0x0F) ∧
    parse_hex_bytes n (k + 2) s = Some bs.
Proof.
  intros <- Hs. cbn [parse_hex_bytes]. fold (skip_hyphen src).
  destruct (hexVal (byte_at s (skip_hyphen src))) as [hi|] eqn:Ehi; [|done].
  destruct (hexVal (byte_at s (S (skip_hyphen src)))) as [lo|] eqn:Elo; [|done].
  destruct (parse_hex_bytes n _ s) as [bs|] eqn:E; [|done]. intros [= <-].
  apply hexDigit_hexVal in Ehi as [Hhi Ehi]; [|by apply byte_at_is_byte].
  apply hexDigit_hexVal in Elo as [Hlo Elo]; [|by apply byte_at_is_byte].
  destruct (join_nibbles hi lo Hhi Hlo) as (Hb & H4 & HF).
  eexists _, bs. split; [reflexivity|]. by rewrite H4, HF.
Qed.

Ltac parse_next Hb E :=
  match type of E with
  | parse_hex_bytes (S ?n) ?src _ = _ =>
      let k := eval vm_compute in (skip_hyphen src) in
      apply (parse_hex_step_inv n src k _ _ eq_refl Hb) in E as (? & ? & -> & ? & ? & ? & E)
  end.

Lemma parse_format_codes u : uuid_wf u → parse_hex_bytes 16 0 (format_codes u) = Some u.
Proof.
  intros H. pose proof (proj2 H) as Hb. destruct H as [Hl _].
  do 16 (destruct u as [|? u]; [discriminate Hl|]). destruct u; [|discriminate Hl].
  do 16 (apply parse_hex_step;
    [apply (byte_at_is_byte _ 0 Hb)|reflexivity|reflexivity|];
    apply Forall_inv_tail in Hb).
  reflexivity.
Qed.

Lemma parse_hex_bytes_codes l u : length l = 36%nat → Forall is_byte l →
  byte_at l 8 = 45 → byte_at l 13 = 45 → byte_at l 18 = 45 → byte_at l 23 = 45 →
  parse_hex_bytes 16 0 l = Some u → uuid_wf u ∧ format_codes u = l.
Proof.
  intros Hl Hb H8 H13 H18 H23 E.
  do 16 parse_next Hb E. injection E as <-. clear Hb.
  split; [split; [reflexivity|]; by repeat apply Forall_cons_2; auto using Forall_nil_2|].
  do 36 (destruct l as [|? l]; [discriminate Hl|]). destruct l; [|discriminate Hl].
  unfold byte_at in *. cbn [nth] in *. unfold format_codes, hex_hi, hex_lo, byte_at. cbn [nth].
  by subst.
Qed.

(** ** Round trips *)
Lemma parse_formatUUID u : uuid_wf u → isValidV7 u = true → parseUUIDv7 (formatUUID u) = Some u.
Proof.
  intros Hw Hv. unfold parseUUIDv7.
  rewrite formatUUID_of_codes, codes_of_codes, parse_format_codes by auto using format_codes_bytes.
  unfold isValidV7 in Hv. apply andb_true_iff in Hv as [-> ->]. reflexivity.
Qed.

Lemma codes_bytes s : Forall is_byte (codes s).
Proof. apply Forall_forall. intros z Hz. by apply codes_range in Hz. Qed.

Lemma format_parseUUID s u :
  parseUUIDv7 s = Some u → uuid_wf u ∧ isValidV7 u = true ∧ formatUUID u = s.
Proof.
  unfold parseUUIDv7, isValidV7.
  destruct (Nat.eqb_spec (length (codes s)) 36) as [Hl|]; [|done]. cbn [negb].
  destruct (_ && _ && _ && _) eqn:Eh; [|done]. cbn [negb].
  rewrite !andb_true_iff, !Z.eqb_eq in Eh. destruct Eh as [[[H8 H13] H18] H23].
  destruct (parse_hex_bytes 16 0 (codes s)) as [b|] eqn:E; [|done].
  destruct (Z.eqb_spec (Z.shiftr (byte_at b 6) 4) 7) as [H6|]; [|done]. cbn [negb].
  destruct (Z.eqb_spec (Z.shiftr (byte_at b 8) 6) 2) as [Hv|]; [|done]. cbn [negb].
  intros [= <-].
  apply parse_hex_bytes_codes in E as [Hw Hf]; try done; [|apply codes_bytes].
  split; [done|]. split; [by rewrite H6, Hv|].
  by rewrite formatUUID_of_codes, Hf, of_codes_codes.
Qed.

Lemma uuid_json_string u : uuid_wf u → codes (dq "'" +:+ formatUUID u +:+ dq "'") =
  34 :: format_codes u ++ [34].
Proof.
  intros Hw. rewrite !codes_app, formatUUID_of_codes, codes_of_codes by auto using format_codes_bytes.
  reflexivity.
Qed.

(** Reading back what [appendUUIDJSON] wrote, the zero value included, gives
    the same 16 bytes. *)
Lemma unmarshal_marshal u :
  uuid_wf u → IsZero u = true ∨ isValidV7 u = true →
  UUID_UnmarshalJSON zeroUUID (UUID_MarshalJSON u) = Some u.
Proof.
  intros Hw Hv. unfold UUID_MarshalJSON, appendUUIDJSON.
  destruct (IsZero u) eqn:Hz.
  { unfold IsZero in Hz. apply bool_decide_eq_true in Hz. by subst u. }
  destruct Hv as [|Hv]; [done|].
  rewrite appendUUIDHex_dst, string_app_assoc.
  change ("" +:+ dq "'") with (dq "'").
  unfold UUID_UnmarshalJSON. rewrite uuid_json_string by done.
  rewrite bool_decide_eq_false_2.
  2:{ intros E. apply (f_equal codes) in E. rewrite uuid_json_string in E by done. discriminate E. }
  cbn [format_codes app length Nat.sub take drop byte_at nth].
  cbn [Nat.ltb Nat.leb Z.eqb Pos.eqb negb orb].
  by rewrite <- (parse_formatUUID u), formatUUID_of_codes.
Qed.

(** ** Minting *)
Lemma land_mod x n : 0 ≤ n → Z.land x (Z.ones n) = x mod 2 ^ n.
Proof. apply Z.land_ones. Qed.

Lemma mod_high_low x k n : 0 ≤ k → 0 ≤ n →
  x mod 2 ^ (k + n) = x mod 2 ^ k + 2 ^ k * (Z.shiftr x k mod 2 ^ n).
Proof.
  intros. rewrite Z.shiftr_div_pow2, Z.pow_add_r by lia. apply Z.rem_mul_r; lia.
Qed.

(** Two numbers agree on their low [k + n] bits when they agree on the low [k]
    and on the next [n]. *)
Lemma mod_split x y k n : 0 ≤ k → 0 ≤ n →
  x mod 2 ^ (k + n) = y mod 2 ^ (k + n) ↔
  x mod 2 ^ k = y mod 2 ^ k ∧ Z.shiftr x k mod 2 ^ n = Z.shiftr y k mod 2 ^ n.
Proof.
  intros Hk Hn. rewrite !mod_high_low by lia.
  pose proof (Z.mod_pos_bound x (2 ^ k) ltac:(lia)).
  pose proof (Z.mod_pos_bound y (2 ^ k) ltac:(lia)).
  split; [|intros [-> ->]; done]. intros E.
  assert (Z.shiftr x k mod 2 ^ n = Z.shiftr y k mod 2 ^ n) as E2 by nia.
  rewrite E2 in E. split; [lia|done].
Qed.

Lemma mod_split8 x y k : 0 ≤ k →
  x mod 2 ^ (k + 8) = y mod 2 ^ (k + 8) ↔
  x mod 2 ^ k = y mod 2 ^ k ∧ byte_of (Z.shiftr x k) = byte_of (Z.shiftr y k).
Proof. intros. apply (mod_split x y k 8); lia. Qed.

(** The version and variant bits sit above the random ones. *)
Lemma lor_version x : 0 ≤ x < 16 → Z.lor 0x70 x = 112 + x.
Proof.
  intros H. assert ((Z.lor 0x70 x =? 112 + x) = true) as E; [|by apply Z.eqb_eq].
  revert x H. apply range_check. vm_compute. reflexivity.
Qed.
Lemma lor_variant x : 0 ≤ x < 64 → Z.lor 0x80 x = 128 + x.
Proof.
  intros H. assert ((Z.lor 0x80 x =? 128 + x) = true) as E; [|by apply Z.eqb_eq].
  revert x H. apply range_check. vm_compute. reflexivity.
Qed.
Lemma version_byte randA :
  Z.lor 0x70 (byte_of (Z.land (Z.shiftr randA 8) 0x0F)) = 112 + Z.shiftr randA 8 mod 2 ^ 4.
Proof.
  rewrite (Z.land_ones _ 4) by lia. pose proof (Z.mod_pos_bound (Z.shiftr randA 8) (2 ^ 4) ltac:(lia)).
  unfold byte_of. rewrite Z.mod_small by lia. apply lor_version. lia.
Qed.
Lemma variant_byte randB :
  Z.lor 0x80 (byte_of (Z.land (Z.shiftr randB 56) 0x3F)) = 128 + Z.shiftr randB 56 mod 2 ^ 6.
Proof.
  rewrite (Z.land_ones _ 6) by lia. pose proof (Z.mod_pos_bound (Z.shiftr randB 56) (2 ^ 6) ltac:(lia)).
  unfold byte_of. rewrite Z.mod_small by lia. apply lor_variant. lia.
Qed.

Lemma newUUIDv7_wf ms a b : uuid_wf (newUUIDv7 ms a b).
Proof.
  split; [reflexivity|]. unfold newUUIDv7. rewrite version_byte, variant_byte.
  pose proof (Z.mod_pos_bound (Z.shiftr a 8) (2 ^ 4) ltac:(lia)).
  pose proof (Z.mod_pos_bound (Z.shiftr b 56) (2 ^ 6) ltac:(lia)).
  repeat apply Forall_cons_2; try apply byte_of_is_byte; [..|apply Forall_nil_2];
    unfold is_byte; lia.
Qed.

Lemma newUUIDv7_valid ms a b : isValidV7 (newUUIDv7 ms a b) = true.
Proof.
  unfold isValidV7, newUUIDv7, byte_at. cbn [nth]. rewrite version_byte, variant_byte.
  pose proof (Z.mod_pos_bound (Z.shiftr a 8) (2 ^ 4) ltac:(lia)).
  pose proof (Z.mod_pos_bound (Z.shiftr b 56) (2 ^ 6) ltac:(lia)).
  set (x := _ mod 2 ^ 4) in *. set (y := _ mod 2 ^ 6) in *. clearbody x y.
  rewrite !Z.shiftr_div_pow2, andb_true_iff, !Z.eqb_eq by lia.
  split; symmetry; [apply Z.div_unique with x | apply Z.div_unique with y]; lia.
Qed.

Lemma newUUIDv7_not_zero ms a b : IsZero (newUUIDv7 ms a b) = false.
Proof.
  unfold IsZero. apply bool_decide_eq_false_2. intros E.
  pose proof (newUUIDv7_valid ms a b) as H. rewrite E in H. vm_compute in H. discriminate.
Qed.

(** Two mints are equal exactly when the 48 clock bits and the 74 random bits are. *)
Lemma newUUIDv7_eq ms a b ms' a' b' :
  newUUIDv7 ms a b = newUUIDv7 ms' a' b' ↔
  ms mod 2 ^ 48 = ms' mod 2 ^ 48 ∧ a mod 2 ^ 12 = a' mod 2 ^ 12 ∧ b mod 2 ^ 62 = b' mod 2 ^ 62.
Proof.
  unfold newUUIDv7. rewrite !version_byte, !variant_byte.
  rewrite (mod_split8 ms ms' 40), (mod_split8 ms ms' 32), (mod_split8 ms ms' 24),
    (mod_split8 ms ms' 16), (mod_split8 ms ms' 8) by lia.
  rewrite (mod_split a a' 8 4) by lia.
  rewrite (mod_split b b' 56 6), (mod_split8 b b' 48), (mod_split8 b b' 40), (mod_split8 b b' 32),
    (mod_split8 b b' 24), (mod_split8 b b' 16), (mod_split8 b b' 8) by lia.
  change (2 ^ 8) with 256. unfold byte_of.
  split.
  - intros [=]. repeat split; lia.
  - intros H. destruct_and! H. repeat (apply f_equal2; [lia|]). done.
Qed.
