(* ===== verification/Types.v ===== *)
(** * types.go: constants, configuration, items, errors, byte accounting

  The record [Item] is Go's struct; its [counter] field, a pointer to a heap
  cell in Go, is here the cell's address in the scope buffer's cell arena.
  [Env] collects what the cache takes from outside the repository: the clock
  and the random source (indexed by a tick that counts the calls), the JSON
  library's string and number decoding, and the growth policy of [append]. *)
From S2P Require Import Prelude GoStd Uuid.

(** ** The environment *)
Class Env := {
  (** The n-th reading of [time.Now().UnixMicro()] / [UnixMilli()]. *)
  clk_micro : nat → Z;
  clk_milli : nat → Z;
  (** The n-th draw of [mathrand.Uint64()]. *)
  rnd : nat → Z;
  (** [jsonUnmarshal(data, &s)] for [var s string], and for a [json.Number]. *)
  json_unquote : string → option string;
  json_number_of : string → option string;
  (** [jsonMarshal(s)] of a string. *)
  json_quote : string → string;
  (** The capacity [append] gives to a full slice of this capacity. *)
  growcap : nat → nat;
}.

(** What the wire-size estimate relies on: quoting a string adds at least the
    two quotes and never shortens it. *)
Class JsonQuoteLaw `{Env} : Prop :=
  json_quote_len : ∀ s, slen s + 2 ≤ slen (json_quote s).

(** ** Constants *)
Definition DefaultLimit : Z := 1000.
Definition MaxLimit : Z := 10000.
Definition ScopeMaxItems : Z := 100000.
Definition MaxStoreMiB : Z := 100.
Definition MaxItemBytes : Z := Z.shiftl 1 20.
Definition MaxScopeBytes : Z := 256.
Definition MaxIDBytes : Z := 256.
Definition InboxMaxItemBytes : Z := Z.shiftl 64 10.
Definition eventsItemEnvelopeOverhead : Z := 1024.
Definition EventsScopeName : string := "_events".
Definition InboxScopeName : string := "_inbox".
Definition MissHeader : string := "Scopecache-Miss".
Definition singleRequestBytesOverhead : Z := 4096.
Definition bulkRequestBytesOverhead : Z := Z.shiftl 16 20.
Definition MaxCounterValue : Z := Z.shiftl 1 53 - 1.
Definition counterCellOverhead : Z := 24 + 32.
Definition multiItemEnvelopeMinBytes : Z := 80.
Definition multiItemPerItemMinBytes : Z := 25.

(** From store.go. *)
Definition scopeBufferOverhead : Z := 1024.
Definition unboundedScopeMaxItems : Z := 0.
Definition reservedScopeNames : list string := [EventsScopeName; InboxScopeName].
Definition reservedScopesOverhead : Z :=
  Z.of_nat (length reservedScopeNames) * scopeBufferOverhead.
Definition isReservedScope (scope : string) : bool :=
  existsb (λ name, bool_decide (scope = name)) reservedScopeNames.

Definition addClampedInt64 (a b : Z) : Z :=
  if (b >? 0) && (a >? i64 (MaxInt64 - b)) then MaxInt64
  else if (b <? 0) && (a <? i64 (MinInt64 - b)) then MinInt64
  else i64 (a + b).

(** ** Configuration *)
Definition EventsMode : Type := Z.
Definition EventsModeOff : EventsMode := 0.
Definition EventsModeNotify : EventsMode := 1.
Definition EventsModeFull : EventsMode := 2.

Definition EventsMode_String (m : EventsMode) : string :=
  if m =? EventsModeOff then "off"
  else if m =? EventsModeNotify then "notify"
  else if m =? EventsModeFull then "full"
  else "unknown".

(** The error's [%q] rendering is kept as the offending value. *)
Inductive parse_mode_error :=
| invalid_events_mode (s : string).
Definition ParseEventsMode (s : string) : result parse_mode_error EventsMode :=
  if bool_decide (s = "") || bool_decide (s = "off") then Ok EventsModeOff
  else if bool_decide (s = "notify") then Ok EventsModeNotify
  else if bool_decide (s = "full") then Ok EventsModeFull
  else Err (invalid_events_mode s).

Record EventsConfig := mkEventsConfig { Mode : EventsMode }.
Record InboxConfig := mkInboxConfig { Inbox_MaxItems : Z; Inbox_MaxItemBytes : Z }.
Record Config := mkConfig {
  Config_ScopeMaxItems : Z;
  Config_MaxStoreBytes : Z;
  Config_MaxItemBytes : Z;
  Events : EventsConfig;
  Inbox : InboxConfig;
}.
#[export] Instance eta_InboxConfig : Eta InboxConfig :=
  λ c, mkInboxConfig (Inbox_MaxItems c) (Inbox_MaxItemBytes c).
#[export] Instance eta_Config : Eta Config := λ c,
  mkConfig (Config_ScopeMaxItems c) (Config_MaxStoreBytes c) (Config_MaxItemBytes c)
    (Events c) (Inbox c).

Definition WithDefaults (c : Config) : Config :=
  let c := if Config_ScopeMaxItems c <=? 0
           then c <| Config_ScopeMaxItems := ScopeMaxItems |> else c in
  let c := if Config_MaxStoreBytes c <=? 0
           then c <| Config_MaxStoreBytes := Z.shiftl MaxStoreMiB 20 |> else c in
  let c := if Config_MaxStoreBytes c <? reservedScopesOverhead
           then c <| Config_MaxStoreBytes := reservedScopesOverhead |> else c in
  let c := if Config_MaxItemBytes c <=? 0
           then c <| Config_MaxItemBytes := MaxItemBytes |> else c in
  let c := if Inbox_MaxItems (Inbox c) <=? 0
           then c <| Inbox := (Inbox c) <| Inbox_MaxItems := Config_ScopeMaxItems c |> |> else c in
  let c := if Inbox_MaxItemBytes (Inbox c) <=? 0
           then c <| Inbox := (Inbox c) <| Inbox_MaxItemBytes := InboxMaxItemBytes |> |> else c in
  if (Mode (Events c) =? EventsModeOff) || (Mode (Events c) =? EventsModeNotify)
     || (Mode (Events c) =? EventsModeFull) then c
  else c <| Events := mkEventsConfig EventsModeOff |>.

(** [MB]: a byte count rendered in MiB with four decimals. *)
Definition MB : Type := Z.
Definition MB_MarshalJSON (m : MB) : string := format_mib m.

(** ** Items *)
Record counterCell := mkcounterCell { cell_value : Z; cell_ts : Z }.
#[export] Instance eta_counterCell : Eta counterCell :=
  λ c, mkcounterCell (cell_value c) (cell_ts c).

Record Item := mkItem {
  Scope : string;
  ID : string;
  Seq : Z;
  Ts : Z;
  Uuid : UUID;
  Payload : slice;
  renderBytes : slice;
  counter : option nat;
}.
#[export] Instance eta_Item : Eta Item := λ i,
  mkItem (Scope i) (ID i) (Seq i) (Ts i) (Uuid i) (Payload i) (renderBytes i) (counter i).
Definition zeroItem : Item := mkItem "" "" 0 0 zeroUUID None None None.
#[export] Instance inhabited_Item : Inhabited Item := populate zeroItem.
#[export] Instance Item_eq_dec : EqDecision Item.
Proof. solve_decision. Defined.

(** ** Requests *)
Record deleteRequest := mkdeleteRequest {
  del_Scope : string; del_ID : string; del_Seq : Z; del_UUID : string }.
Record deleteScopeRequest := mkdeleteScopeRequest { dels_Scope : string }.
Record deleteUpToRequest := mkdeleteUpToRequest {
  dut_Scope : string; dut_MaxSeq : Z; dut_UUID : string }.
Record counterAddRequest := mkcounterAddRequest {
  ca_Scope : string; ca_ID : string; ca_By : option Z }.

(** ** Errors *)
Record ScopeCapacityOffender := mkOffender {
  off_Scope : string; off_Count : Z; off_Cap : Z }.

(** [ErrInvalidInput] carries the wrapped reason, [ErrText] is a plain
    [errors.New], [ErrItemCap] the [fmt.Errorf] of insertNewItemLocked.
    [ErrBatchItem] and [ErrScopeMismatch] are the two [fmt.Errorf] of the bulk
    validation loops, the second with its [%q] argument kept as a value. *)
Inductive error :=
| ErrInvalidInput (reason : string)
| ErrText (msg : string)
| ErrItemCap (size maxBytes : Z) (scope : string)
| ScopeFullError (Count Cap : Z)
| ScopeCapacityError (Offenders : list ScopeCapacityOffender)
| StoreFullError (StoreBytes AddedBytes Cap : Z)
| CounterPayloadError (Reason : string)
| CounterOverflowError (Current By : Z)
| ScopeDetachedError
| ErrBatchItem (scope : string) (index : Z) (inner : error)
| ErrScopeMismatch (scope : string) (index : Z) (itemScope : string).

(** [errors.Is(err, ErrInvalidInput)]. *)
Fixpoint is_invalid_input (e : error) : bool :=
  match e with
  | ErrInvalidInput _ | ErrScopeMismatch _ _ _ => true
  | ErrBatchItem _ _ inner => is_invalid_input inner
  | _ => false
  end.

(** ** Byte accounting *)
Definition approxItemSize (item : Item) : Z :=
  let n := 0 in
  let n := n + 32 in
  let n := n + slen (Scope item) in
  let n := n + slen (ID item) in
  let n := if negb (IsZero (Uuid item)) then n + uuidStringLen else n in
  let n := n + 8 in
  let n := n + 8 in
  match counter item with
  | Some _ => n + counterCellOverhead
  | None => n + blen (Payload item) + blen (renderBytes item)
  end.

#[global] Arguments approxItemSize : simpl never.

Definition estimateMultiItemResponseBytes (items : list Item) : Z :=
  foldl (λ n it, n + slen (Scope it) + slen (ID it) + blen (Payload it))
    (multiItemEnvelopeMinBytes + Z.of_nat (length items) * multiItemPerItemMinBytes) items.

(** Go's integer division truncates toward zero. *)
Definition bulkRequestBytesFor (maxStoreBytes : Z) : Z :=
  addClampedInt64 (addClampedInt64 maxStoreBytes (Z.quot maxStoreBytes 10)) bulkRequestBytesOverhead.
Definition singleRequestBytesFor (maxItemBytes : Z) : Z :=
  addClampedInt64 maxItemBytes singleRequestBytesOverhead.

(** From buffer_locked.go: the decoded bytes of a JSON-string payload. *)
Definition precomputeRenderBytes `{Env} (payload : slice) : slice :=
  match skip_ws (codes (default "" payload)) with
  | c :: _ => if c =? 34 then json_unquote (default "" payload) else None
  | [] => None
  end.

(** ** Lemmas *)
Lemma addClampedInt64_spec a b : in_i64 a → in_i64 b →
  addClampedInt64 a b = Z.max MinInt64 (Z.min MaxInt64 (a + b)).
Proof.
  unfold addClampedInt64, in_i64. intros Ha Hb. rewrite !Z.gtb_ltb.
  destruct (Z.ltb_spec 0 b) as [Hp|Hp]; cbn [andb].
  - rewrite (i64_id (MaxInt64 - b)) by (unfold in_i64, MaxInt64, MinInt64 in *; lia).
    destruct (Z.ltb_spec (MaxInt64 - b) a); [unfold MaxInt64, MinInt64 in *; lia|].
    destruct (Z.ltb_spec b 0); [lia|]. cbn [andb].
    rewrite i64_id by (unfold in_i64, MaxInt64, MinInt64 in *; lia). lia.
  - destruct (Z.ltb_spec b 0); cbn [andb].
    2:{ assert (b = 0) as -> by lia. rewrite Z.add_0_r, i64_id by done. lia. }
    rewrite (i64_id (MinInt64 - b)) by (unfold in_i64, MaxInt64, MinInt64 in *; lia).
    destruct (Z.ltb_spec a (MinInt64 - b)); [unfold MaxInt64, MinInt64 in *; lia|].
    rewrite i64_id by (unfold in_i64, MaxInt64, MinInt64 in *; lia). lia.
Qed.

Lemma addClampedInt64_range a b : in_i64 a → in_i64 b → in_i64 (addClampedInt64 a b).
Proof. intros. rewrite addClampedInt64_spec by done. unfold in_i64, MaxInt64, MinInt64. lia. Qed.

(** A request body cap is never below the budget it is derived from. *)
Lemma bulkRequestBytesFor_spec m : 0 ≤ m ≤ MaxInt64 →
  bulkRequestBytesFor m = Z.min MaxInt64 (m + m / 10 + bulkRequestBytesOverhead).
Proof.
  intros Hm. unfold bulkRequestBytesFor. rewrite Z.quot_div_nonneg by lia.
  pose proof (Z.div_pos m 10 ltac:(lia) ltac:(lia)).
  pose proof (Z.div_le_upper_bound m 10 MaxInt64 ltac:(lia) ltac:(unfold MaxInt64 in *; lia)).
  change bulkRequestBytesOverhead with 16777216.
  rewrite (addClampedInt64_spec m) by (unfold in_i64, MinInt64, MaxInt64 in *; lia).
  rewrite addClampedInt64_spec by (unfold in_i64, MinInt64, MaxInt64 in *; lia).
  unfold MinInt64, MaxInt64 in *. lia.
Qed.

Definition valid_config (c : Config) : Prop :=
  0 < Config_ScopeMaxItems c ∧ reservedScopesOverhead ≤ Config_MaxStoreBytes c ∧
  0 < Config_MaxItemBytes c ∧ 0 < Inbox_MaxItems (Inbox c) ∧
  0 < Inbox_MaxItemBytes (Inbox c) ∧
  (Mode (Events c) = EventsModeOff ∨ Mode (Events c) = EventsModeNotify ∨
   Mode (Events c) = EventsModeFull).

Lemma let_eq {A B} (x y : A) (K : A → B) : x = y → (let c := x in K c) = K y.
Proof. by intros ->. Qed.
(** Normalise the value of a leading [let], by cases on the test [b]. *)
Ltac let_step N b :=
  match goal with
  | |- (let c := ?X in @?K c) = _ =>
      transitivity (K N);
      [apply (let_eq X N K); destruct b eqn:?; try reflexivity;
       cbn; by destruct (_ <? reservedScopesOverhead)|]
  end;
  cbv beta iota delta [Config_ScopeMaxItems Config_MaxStoreBytes Config_MaxItemBytes Events Inbox
    Mode Inbox_MaxItems Inbox_MaxItemBytes].

(** The result, field by field. *)
Lemma WithDefaults_eq c : WithDefaults c =
  let smi := if Config_ScopeMaxItems c <=? 0 then ScopeMaxItems else Config_ScopeMaxItems c in
  let msb := if Config_MaxStoreBytes c <=? 0 then Z.shiftl MaxStoreMiB 20
             else if Config_MaxStoreBytes c <? reservedScopesOverhead
                  then reservedScopesOverhead else Config_MaxStoreBytes c in
  let mode := Mode (Events c) in
  mkConfig smi msb (if Config_MaxItemBytes c <=? 0 then MaxItemBytes else Config_MaxItemBytes c)
    (if (mode =? EventsModeOff) || (mode =? EventsModeNotify) || (mode =? EventsModeFull)
     then Events c else mkEventsConfig EventsModeOff)
    (mkInboxConfig (if Inbox_MaxItems (Inbox c) <=? 0 then smi else Inbox_MaxItems (Inbox c))
      (if Inbox_MaxItemBytes (Inbox c) <=? 0 then InboxMaxItemBytes
       else Inbox_MaxItemBytes (Inbox c))).
Proof.
  destruct c as [a b d [m] [e f]]. cbv beta iota delta [WithDefaults Config_ScopeMaxItems
    Config_MaxStoreBytes Config_MaxItemBytes Events Inbox Mode Inbox_MaxItems Inbox_MaxItemBytes].
  let_step (mkConfig (if a <=? 0 then ScopeMaxItems else a) b d (mkEventsConfig m)
    (mkInboxConfig e f)) (a <=? 0).
  generalize (if a <=? 0 then ScopeMaxItems else a). intros a'.
  let_step (mkConfig a' (if b <=? 0 then Z.shiftl MaxStoreMiB 20 else b) d (mkEventsConfig m)
    (mkInboxConfig e f)) (b <=? 0).
  let_step (mkConfig a' (if b <=? 0 then Z.shiftl MaxStoreMiB 20 else
    if b <? reservedScopesOverhead then reservedScopesOverhead else b) d (mkEventsConfig m)
    (mkInboxConfig e f)) (b <=? 0).
  generalize (if b <=? 0 then Z.shiftl MaxStoreMiB 20 else
    if b <? reservedScopesOverhead then reservedScopesOverhead else b). intros b'.
  let_step (mkConfig a' b' (if d <=? 0 then MaxItemBytes else d) (mkEventsConfig m)
    (mkInboxConfig e f)) (d <=? 0).
  let_step (mkConfig a' b' (if d <=? 0 then MaxItemBytes else d) (mkEventsConfig m)
    (mkInboxConfig (if e <=? 0 then a' else e) f)) (e <=? 0).
  let_step (mkConfig a' b' (if d <=? 0 then MaxItemBytes else d) (mkEventsConfig m)
    (mkInboxConfig (if e <=? 0 then a' else e) (if f <=? 0 then InboxMaxItemBytes else f)))
    (f <=? 0).
  cbv zeta. by destruct (_ || _ || _).
Qed.

Lemma WithDefaults_id c : valid_config c → WithDefaults c = c.
Proof.
  intros (Ha & Hb & Hd & He & Hf & Hm). rewrite WithDefaults_eq. cbv zeta.
  change reservedScopesOverhead with 2048 in *.
  rewrite (proj2 (Z.leb_gt _ 0) Ha), (proj2 (Z.leb_gt _ 0) Hd), (proj2 (Z.leb_gt _ 0) He),
    (proj2 (Z.leb_gt _ 0) Hf), (proj2 (Z.leb_gt (Config_MaxStoreBytes c) 0)),
    (proj2 (Z.ltb_ge _ _) Hb) by lia.
  destruct c as [a b d [m] [e f]]. cbn in *. by destruct Hm as [->|[->| ->]].
Qed.

Lemma WithDefaults_valid c : valid_config (WithDefaults c).
Proof.
  rewrite WithDefaults_eq. unfold valid_config. cbn.
  change reservedScopesOverhead with 2048. change ScopeMaxItems with 100000.
  change (Z.shiftl MaxStoreMiB 20) with 104857600. change MaxItemBytes with 1048576.
  change InboxMaxItemBytes with 65536.
  split; [ztests; lia|]. split; [ztests; lia|]. split; [ztests; lia|].
  split; [ztests; lia|]. split; [ztests; lia|].
  destruct (_ || _ || _) eqn:E; [|by left].
  rewrite !orb_true_iff, !Z.eqb_eq in E. tauto.
Qed.

Lemma approxItemSize_eq it :
  approxItemSize it = 48 + slen (Scope it) + slen (ID it)
    + (if IsZero (Uuid it) then 0 else 36)
    + match counter it with
      | Some _ => 56
      | None => blen (Payload it) + blen (renderBytes it)
      end.
Proof.
  unfold approxItemSize, counterCellOverhead, uuidStringLen.
  destruct (IsZero _), (counter it); cbn; lia.
Qed.

Lemma approxItemSize_pos it : 48 ≤ approxItemSize it.
Proof.
  rewrite approxItemSize_eq.
  pose proof (slen_nonneg (Scope it)). pose proof (slen_nonneg (ID it)).
  pose proof (blen_nonneg (Payload it)). pose proof (blen_nonneg (renderBytes it)).
  destruct (IsZero _), (counter it); lia.
Qed.
#[export] Hint Resolve approxItemSize_pos : scope.

Lemma estimateMultiItemResponseBytes_eq items :
  estimateMultiItemResponseBytes items =
  80 + zsum (λ it, 25 + slen (Scope it) + slen (ID it) + blen (Payload it)) items.
Proof.
  unfold estimateMultiItemResponseBytes, multiItemEnvelopeMinBytes, multiItemPerItemMinBytes.
  assert (∀ l n, foldl (λ n it, n + slen (Scope it) + slen (ID it) + blen (Payload it)) n l
    = n + zsum (λ it, slen (Scope it) + slen (ID it) + blen (Payload it)) l) as H.
  { induction l as [|x l IH]; intros n; cbn [foldl zsum]; [lia|]. rewrite IH. lia. }
  rewrite H. rewrite (zsum_ext (λ it, 25 + slen (Scope it) + slen (ID it) + blen (Payload it))
    (λ it, 25 + (slen (Scope it) + slen (ID it) + blen (Payload it)))) by (intros; lia).
  rewrite (zsum_add (λ _, 25)), zsum_const. lia.
Qed.

Lemma isReservedScope_spec s :
  isReservedScope s = true ↔ s = EventsScopeName ∨ s = InboxScopeName.
Proof.
  unfold isReservedScope, reservedScopeNames. cbn [existsb].
  rewrite !orb_true_iff, !bool_decide_eq_true. intuition congruence.
Qed.
