(* ===== verification/Wire.v ===== *)
(** * wire.go and the response builders of handlers_read.go / handlers_observe.go

  The hand-rolled JSON emitters. A byte buffer is a string; [append(buf, s...)]
  is [buf +:+ s]. What the response writer receives is the body bytes together
  with the [Scopecache-Miss] header. *)
From S2P Require Import Prelude GoStd Uuid Types.

Section Wire.
Context `{Env}.

Definition needs_escape (c : Z) : bool :=
  (c <? 0x20) || (c =? 34) || (c =? 92) || (c =? 60) || (c =? 62) || (c =? 38).

Definition AppendJSONString (dst s : string) : string :=
  if existsb needs_escape (codes s) then dst +:+ json_quote s
  else dst +:+ dq "'" +:+ s +:+ dq "'".

(** [Item.MarshalJSON]. *)
Definition Item_MarshalJSON (i : Item) : string :=
  let '(payloadKey, uuidKey) :=
    if bool_decide (Scope i = EventsScopeName)
    then (dq "'event':", dq ",'event_uuid':") else (dq "'payload':", dq ",'uuid':") in
  let buf := "" in
  let buf := buf +:+ dq "{'scope':" in
  let buf := AppendJSONString buf (Scope i) in
  let buf := buf +:+ dq ",'id':" in
  let buf := if bool_decide (ID i = "") then buf +:+ "null" else AppendJSONString buf (ID i) in
  let buf := buf +:+ dq ",'seq':" in
  let buf := buf +:+ FormatUint (Seq i) in
  let buf := buf +:+ dq ",'ts':" in
  let buf := buf +:+ FormatInt (Ts i) in
  let buf := buf +:+ uuidKey in
  let buf := appendUUIDJSON buf (Uuid i) in
  let buf := buf +:+ "," in
  let buf := buf +:+ payloadKey in
  let buf := if blen (Payload i) =? 0 then buf +:+ "null"
             else buf +:+ default "" (Payload i) in
  buf +:+ "}".

(** The part of an item before its payload, shared text of [AppendItemJSON]
    and [writeGetResponse], which both spell it out. *)
Definition AppendItemJSON (buf : string) (item : Item) : string :=
  let '(payloadKey, uuidKey) :=
    if bool_decide (Scope item = EventsScopeName)
    then ("event", "event_uuid") else ("payload", "uuid") in
  let buf := buf +:+ dq "{'scope':" in
  let buf := AppendJSONString buf (Scope item) in
  let buf := buf +:+ dq ",'id':" in
  let buf := if bool_decide (ID item = "") then buf +:+ "null"
             else AppendJSONString buf (ID item) in
  let buf := buf +:+ dq ",'seq':" in
  let buf := buf +:+ FormatUint (Seq item) in
  let buf := buf +:+ dq ",'ts':" in
  let buf := buf +:+ FormatInt (Ts item) in
  let buf := buf +:+ dq ",'" in
  let buf := buf +:+ uuidKey in
  let buf := buf +:+ dq "':" in
  let buf := appendUUIDJSON buf (Uuid item) in
  let buf := buf +:+ dq ",'" in
  let buf := buf +:+ payloadKey in
  let buf := buf +:+ dq "':" in
  let buf := if blen (Payload item) =? 0 then buf +:+ "null"
             else buf +:+ default "" (Payload item) in
  buf +:+ "}".

(** The closing [approx_response_mb] field and newline. *)
Definition newline : string := of_codes [10].

Definition AppendGetResponseJSON (buf : string) (item : option Item) : string :=
  let startLen := slen buf in
  let buf := match item with
             | None => buf +:+ dq "{'ok':true,'hit':false,'count':0,'item':null"
             | Some item =>
                 AppendItemJSON (buf +:+ dq "{'ok':true,'hit':true,'count':1,'item':") item
             end in
  let estTotal := slen buf - startLen + 30 in
  let buf := buf +:+ dq ",'approx_response_mb':" in
  let buf := buf +:+ format_mib estTotal in
  buf +:+ "}" +:+ newline.

Definition append_bool (buf : string) (b : bool) : string :=
  if b then buf +:+ "true" else buf +:+ "false".

(** [for i := range items { if i > 0 { ',' }; append }] *)
Definition append_list {A} (emit : string → A → string) (buf : string) (l : list A) : string :=
  foldl (λ buf ix, emit (if (ix.1 =? 0)%nat then buf else buf +:+ ",") ix.2) buf
    (zip (seq 0 (length l)) l).

Definition appendItemsEnvelopeJSON (buf : string) (items : list Item) (truncated : bool)
    (offset : option Z) : string :=
  let startLen := slen buf in
  let buf := buf +:+ dq "{'ok':true,'hit':" in
  let buf := append_bool buf (0 <? Z.of_nat (length items)) in
  let buf := buf +:+ dq ",'count':" in
  let buf := buf +:+ FormatInt (Z.of_nat (length items)) in
  let buf := match offset with
             | Some o => (buf +:+ dq ",'offset':") +:+ FormatInt o
             | None => buf
             end in
  let buf := buf +:+ dq ",'truncated':" in
  let buf := append_bool buf truncated in
  let buf := buf +:+ dq ",'items':[" in
  let buf := append_list AppendItemJSON buf items in
  let buf := buf +:+ "]" in
  let estTotal := slen buf - startLen + 30 in
  let buf := buf +:+ dq ",'approx_response_mb':" in
  let buf := buf +:+ format_mib estTotal in
  buf +:+ "}" +:+ newline.

Definition AppendHeadResponseJSON (buf : string) (items : list Item) (truncated : bool) : string :=
  appendItemsEnvelopeJSON buf items truncated None.
Definition AppendTailResponseJSON (buf : string) (items : list Item) (truncated : bool)
    (offset : Z) : string :=
  appendItemsEnvelopeJSON buf items truncated (Some offset).

(** store.go: one row of /scopelist. *)
Record scopeListEntry := mkscopeListEntry {
  sle_Scope : string; sle_ItemCount : Z; sle_LastSeq : Z; sle_FirstUUID : UUID;
  sle_LastUUID : UUID; sle_ApproxScopeMB : MB; sle_CreatedTS : Z; sle_LastWriteTS : Z;
  sle_LastAccessTS : Z; sle_ReadCountTotal : Z }.

Definition appendScopeListEntryJSON (buf : string) (e : scopeListEntry) : string :=
  let buf := buf +:+ dq "{'scope':" in
  let buf := AppendJSONString buf (sle_Scope e) in
  let buf := buf +:+ dq ",'item_count':" in
  let buf := buf +:+ FormatInt (sle_ItemCount e) in
  let buf := buf +:+ dq ",'last_seq':" in
  let buf := buf +:+ FormatUint (sle_LastSeq e) in
  let buf := buf +:+ dq ",'first_uuid':" in
  let buf := appendUUIDJSON buf (sle_FirstUUID e) in
  let buf := buf +:+ dq ",'last_uuid':" in
  let buf := appendUUIDJSON buf (sle_LastUUID e) in
  let buf := buf +:+ dq ",'approx_scope_mb':" in
  let buf := buf +:+ format_mib (sle_ApproxScopeMB e) in
  let buf := buf +:+ dq ",'created_ts':" in
  let buf := buf +:+ FormatInt (sle_CreatedTS e) in
  let buf := buf +:+ dq ",'last_write_ts':" in
  let buf := buf +:+ FormatInt (sle_LastWriteTS e) in
  let buf := buf +:+ dq ",'last_access_ts':" in
  let buf := buf +:+ FormatInt (sle_LastAccessTS e) in
  let buf := buf +:+ dq ",'read_count_total':" in
  let buf := buf +:+ FormatUint (sle_ReadCountTotal e) in
  buf +:+ "}".

Definition AppendScopeListResponseJSON (buf : string) (entries : list scopeListEntry)
    (truncated : bool) : string :=
  let startLen := slen buf in
  let buf := buf +:+ dq "{'ok':true,'hit':" in
  let buf := append_bool buf (0 <? Z.of_nat (length entries)) in
  let buf := buf +:+ dq ",'count':" in
  let buf := buf +:+ FormatInt (Z.of_nat (length entries)) in
  let buf := buf +:+ dq ",'truncated':" in
  let buf := append_bool buf truncated in
  let buf := buf +:+ dq ",'scopes':[" in
  let buf := append_list appendScopeListEntryJSON buf entries in
  let buf := buf +:+ "]" in
  let estTotal := slen buf - startLen + 30 in
  let buf := buf +:+ dq ",'approx_response_mb':" in
  let buf := buf +:+ format_mib estTotal in
  buf +:+ "}" +:+ newline.

(** ** The HTTP builders

  A written response: whether the miss header is set, and the body; or the
  507 envelope of [responseTooLarge] with its two sizes. *)
Inductive written :=
| Written (miss : bool) (body : string)
| TooLarge (size cap : Z).

Definition writeItemsResponse (maxResponseBytes : Z) (items : list Item) (truncated : bool)
    (offset : option Z) : written :=
  let buf := "" in
  let buf := buf +:+ dq "{'ok':true,'hit':" in
  let buf := append_bool buf (0 <? Z.of_nat (length items)) in
  let buf := buf +:+ dq ",'count':" in
  let buf := buf +:+ FormatInt (Z.of_nat (length items)) in
  let buf := match offset with
             | Some o => (buf +:+ dq ",'offset':") +:+ FormatInt o
             | None => buf
             end in
  let buf := buf +:+ dq ",'truncated':" in
  let buf := append_bool buf truncated in
  let buf := buf +:+ dq ",'items':[" in
  let buf := append_list AppendItemJSON buf items in
  let buf := buf +:+ "]" in
  let estTotal := slen buf + 30 in
  let buf := buf +:+ dq ",'approx_response_mb':" in
  let buf := buf +:+ format_mib estTotal in
  let buf := buf +:+ "}" +:+ newline in
  if maxResponseBytes <? slen buf then TooLarge (slen buf) maxResponseBytes
  else Written (Z.of_nat (length items) =? 0) buf.

Definition writeHeadResponse (maxResponseBytes : Z) (items : list Item) (truncated : bool) : written :=
  if (0 <? Z.of_nat (length items)) && (maxResponseBytes <? estimateMultiItemResponseBytes items)
  then TooLarge (estimateMultiItemResponseBytes items) maxResponseBytes
  else writeItemsResponse maxResponseBytes items truncated None.
Definition writeTailResponse (maxResponseBytes : Z) (items : list Item) (truncated : bool)
    (offset : Z) : written :=
  if (0 <? Z.of_nat (length items)) && (maxResponseBytes <? estimateMultiItemResponseBytes items)
  then TooLarge (estimateMultiItemResponseBytes items) maxResponseBytes
  else writeItemsResponse maxResponseBytes items truncated (Some offset).

Definition writeScopeListResponse (maxResponseBytes : Z) (hit : bool) (count : Z)
    (truncated : bool) (scopes : list scopeListEntry) : written :=
  let buf := "" in
  let buf := buf +:+ dq "{'ok':true,'hit':" in
  let buf := append_bool buf hit in
  let buf := buf +:+ dq ",'count':" in
  let buf := buf +:+ FormatInt count in
  let buf := buf +:+ dq ",'truncated':" in
  let buf := append_bool buf truncated in
  let buf := buf +:+ dq ",'scopes':[" in
  let buf := append_list appendScopeListEntryJSON buf scopes in
  let buf := buf +:+ "]" in
  let estTotal := slen buf + 30 in
  let buf := buf +:+ dq ",'approx_response_mb':" in
  let buf := buf +:+ format_mib estTotal in
  let buf := buf +:+ "}" +:+ newline in
  if maxResponseBytes <? slen buf then TooLarge (slen buf) maxResponseBytes
  else Written false buf.

(** [writeGetResponse]: the prefix built for a hit, then the three writes,
    concatenated by the connection. *)
Definition writeGetResponse_prefix (item : Item) : string :=
  let '(payloadKey, uuidKey) :=
    if bool_decide (Scope item = EventsScopeName)
    then ("event", "event_uuid") else ("payload", "uuid") in
  let prefix := dq "{'ok':true,'hit':true,'count':1,'item':{'scope':" in
  let prefix := AppendJSONString prefix (Scope item) in
  let prefix := prefix +:+ dq ",'id':" in
  let prefix := if bool_decide (ID item = "") then prefix +:+ "null"
                else AppendJSONString prefix (ID item) in
  let prefix := prefix +:+ dq ",'seq':" in
  let prefix := prefix +:+ FormatUint (Seq item) in
  let prefix := prefix +:+ dq ",'ts':" in
  let prefix := prefix +:+ FormatInt (Ts item) in
  let prefix := prefix +:+ dq ",'" in
  let prefix := prefix +:+ uuidKey in
  let prefix := prefix +:+ dq "':" in
  let prefix := appendUUIDJSON prefix (Uuid item) in
  let prefix := prefix +:+ dq ",'" in
  let prefix := prefix +:+ payloadKey in
  prefix +:+ dq "':".

Definition writeGetResponse (item : option Item) : written :=
  let payload := match item with Some item => Payload item | None => None end in
  let prefix := match item with
    | None => dq "{'ok':true,'hit':false,'count':0,'item':null"
    | Some item => writeGetResponse_prefix item
    end in
  let hit := match item with Some _ => true | None => false end in
  let suffix := if (hit : bool) then "}" else "" in
  let estTotal := slen prefix + blen payload + slen suffix + 30 in
  let suffix := suffix +:+ dq ",'approx_response_mb':" in
  let suffix := suffix +:+ format_mib estTotal in
  let suffix := suffix +:+ "}" +:+ newline in
  let middle := if (hit : bool)
                then (if blen payload =? 0 then "null" else default "" payload) else "" in
  Written (negb hit) (prefix +:+ middle +:+ suffix).
(** ** Lemmas: every emitter appends to its destination *)
Lemma AppendJSONString_dst dst s : AppendJSONString dst s = dst +:+ AppendJSONString "" s.
Proof. unfold AppendJSONString. by destruct (existsb _ _). Qed.

Lemma appendUUIDJSON_dst dst u : appendUUIDJSON dst u = dst +:+ appendUUIDJSON "" u.
Proof.
  unfold appendUUIDJSON. destruct (IsZero u); [done|].
  rewrite (appendUUIDHex_dst (dst +:+ _)), (appendUUIDHex_dst ("" +:+ _)).
  by rewrite !string_app_assoc.
Qed.

Lemma append_bool_dst dst b : append_bool dst b = dst +:+ append_bool "" b.
Proof. by destruct b. Qed.

(** An item object up to its payload, and the payload as written. *)
Definition item_head (it : Item) : string :=
  dq "{'scope':" +:+ AppendJSONString "" (Scope it) +:+ dq ",'id':" +:+
  (if bool_decide (ID it = "") then "null" else AppendJSONString "" (ID it)) +:+
  dq ",'seq':" +:+ FormatUint (Seq it) +:+ dq ",'ts':" +:+ FormatInt (Ts it) +:+
  (if bool_decide (Scope it = EventsScopeName) then dq ",'event_uuid':" else dq ",'uuid':") +:+
  appendUUIDJSON "" (Uuid it) +:+
  (if bool_decide (Scope it = EventsScopeName) then dq ",'event':" else dq ",'payload':").
Definition item_payload (it : Item) : string :=
  if blen (Payload it) =? 0 then "null" else default "" (Payload it).

Lemma MarshalJSON_shape it : Item_MarshalJSON it = item_head it +:+ item_payload it +:+ "}".
Proof.
  unfold Item_MarshalJSON, item_head, item_payload.
  destruct (bool_decide (Scope it = EventsScopeName)), (bool_decide (ID it = "")),
    (blen (Payload it) =? 0); cbv zeta beta iota;
  repeat (rewrite (AppendJSONString_dst (_ +:+ _)) || rewrite (appendUUIDJSON_dst (_ +:+ _)));
  rewrite !string_app_assoc; reflexivity.
Qed.

(** The item object, as [Item.MarshalJSON] spells it. *)
Lemma AppendItemJSON_eq buf it : AppendItemJSON buf it = buf +:+ Item_MarshalJSON it.
Proof.
  rewrite MarshalJSON_shape. unfold AppendItemJSON, item_head, item_payload.
  destruct (bool_decide (Scope it = EventsScopeName)), (bool_decide (ID it = "")),
    (blen (Payload it) =? 0); cbv zeta beta iota;
  repeat (rewrite (AppendJSONString_dst (_ +:+ _)) || rewrite (appendUUIDJSON_dst (_ +:+ _)));
  rewrite !string_app_assoc; reflexivity.
Qed.

Lemma append_list_eq {A} (emit : string → A → string) (f : A → string) buf l :
  (∀ b x, emit b x = b +:+ f x) →
  append_list emit buf l = buf +:+ append_list emit "" l.
Proof.
  intros He. unfold append_list. generalize (zip (seq 0 (length l)) l). intros z. revert buf.
  assert (∀ z buf, foldl (λ buf ix, emit (if (ix.1 =? 0)%nat then buf else buf +:+ ",") ix.2) buf z
    = buf +:+ foldl (λ buf ix, emit (if (ix.1 =? 0)%nat then buf else buf +:+ ",") ix.2) "" z) as Hz;
    [|apply Hz].
  clear z. induction z as [|[i x] z IH]; intros buf; cbn [foldl]; [by rewrite string_app_nil_r|].
  rewrite IH, (IH (emit _ _)), !He. cbn [fst snd].
  destruct (i =? 0)%nat; by rewrite ?string_app_assoc.
Qed.

Lemma appendScopeListEntryJSON_eq buf e :
  appendScopeListEntryJSON buf e = buf +:+ appendScopeListEntryJSON "" e.
Proof.
  unfold appendScopeListEntryJSON. cbv zeta.
  repeat (rewrite (AppendJSONString_dst (_ +:+ _)) || rewrite (appendUUIDJSON_dst (_ +:+ _))).
  by rewrite !string_app_assoc.
Qed.

Lemma slen_sub_app a b : slen (a +:+ b) - slen a = slen b.
Proof. rewrite slen_app. lia. Qed.

(** A builder appends to whatever the buffer holds: its size estimate counts
    from there. *)
Ltac appends_dst buf :=
  rewrite ?(append_bool_dst (_ +:+ _)), ?string_app_assoc; rewrite ?slen_sub_app;
  change ("" +:+ ?x) with x; rewrite ?slen_empty, ?Z.sub_0_r; reflexivity.
Lemma appendItemsEnvelopeJSON_dst buf items truncated offset :
  appendItemsEnvelopeJSON buf items truncated offset = buf +:+ appendItemsEnvelopeJSON "" items truncated offset.
Proof.
  unfold appendItemsEnvelopeJSON. cbv zeta.
  rewrite !(append_list_eq AppendItemJSON Item_MarshalJSON (_ +:+ _)) by apply AppendItemJSON_eq.
  destruct offset; appends_dst buf.
Qed.
Lemma AppendScopeListResponseJSON_dst buf entries truncated :
  AppendScopeListResponseJSON buf entries truncated = buf +:+ AppendScopeListResponseJSON "" entries truncated.
Proof.
  unfold AppendScopeListResponseJSON. cbv zeta.
  rewrite !(append_list_eq appendScopeListEntryJSON (appendScopeListEntryJSON "") (_ +:+ _)) by apply appendScopeListEntryJSON_eq.
  appends_dst buf.
Qed.
Lemma AppendGetResponseJSON_dst buf item : AppendGetResponseJSON buf item = buf +:+ AppendGetResponseJSON "" item.
Proof.
  unfold AppendGetResponseJSON. cbv zeta. destruct item as [it|]; rewrite ?AppendItemJSON_eq; appends_dst buf.
Qed.

(** The in-process builders append exactly the body the HTTP writers send. *)
Lemma items_envelope_body maxR items truncated offset :
  writeItemsResponse maxR items truncated offset =
  let body := appendItemsEnvelopeJSON "" items truncated offset in
  if maxR <? slen body then TooLarge (slen body) maxR
  else Written (Z.of_nat (length items) =? 0) body.
Proof.
  unfold writeItemsResponse, appendItemsEnvelopeJSON. cbv zeta.
  by rewrite slen_empty, Z.sub_0_r.
Qed.

Lemma scopelist_body maxR truncated scopes :
  writeScopeListResponse maxR (0 <? Z.of_nat (length scopes)) (Z.of_nat (length scopes))
    truncated scopes =
  let body := AppendScopeListResponseJSON "" scopes truncated in
  if maxR <? slen body then TooLarge (slen body) maxR else Written false body.
Proof.
  unfold writeScopeListResponse, AppendScopeListResponseJSON. cbv zeta.
  by rewrite slen_empty, Z.sub_0_r.
Qed.

Lemma writeGetResponse_prefix_eq it :
  writeGetResponse_prefix it = dq "{'ok':true,'hit':true,'count':1,'item':" +:+ item_head it.
Proof.
  unfold writeGetResponse_prefix, item_head.
  destruct (bool_decide (Scope it = EventsScopeName)), (bool_decide (ID it = ""));
    cbv zeta beta iota;
  repeat (rewrite (AppendJSONString_dst (_ +:+ _)) || rewrite (appendUUIDJSON_dst (_ +:+ _)));
  rewrite ?(AppendJSONString_dst (dq _));
  rewrite !string_app_assoc; reflexivity.
Qed.

(** Prefix, payload and suffix of writeGetResponse make up the envelope of
    AppendGetResponseJSON; the size estimate is the same because only an empty
    payload is counted differently (0 bytes there, [null] here). *)
Lemma get_body item :
  (∀ it, item = Some it → 0 < blen (Payload it)) →
  writeGetResponse item =
  Written (bool_decide (item = None)) (AppendGetResponseJSON "" item).
Proof.
  intros Hp. destruct item as [it|]; [|reflexivity].
  specialize (Hp it eq_refl).
  unfold AppendGetResponseJSON, writeGetResponse.
  rewrite AppendItemJSON_eq, MarshalJSON_shape, writeGetResponse_prefix_eq.
  unfold item_payload. rewrite (proj2 (Z.eqb_neq (blen (Payload it)) 0)) by lia.
  assert (blen (Payload it) = slen (default "" (Payload it))) as -> by (by destruct (Payload it)).
  rewrite bool_decide_eq_false_2 by done. cbv zeta iota beta delta [negb].
  rewrite slen_empty, Z.sub_0_r, !slen_app, slen_empty. change (slen "}") with 1.
  rewrite !string_app_assoc. f_equal. change ("" +:+ ?x) with x.
  do 4 f_equal. change ("}" +:+ dq ",'approx_response_mb':")%string with (dq "},'approx_response_mb':").
  do 3 f_equal. lia.
Qed.

(** ** The pre-flight estimate is a lower bound of the body *)
Lemma slen_FormatUint n : 1 ≤ slen (FormatUint n).
Proof.
  unfold slen. destruct (FormatUint n) eqn:E; cbn [String.length]; [|lia].
  exfalso. exact (dec_go_nonempty _ _ _ E).
Qed.
Lemma slen_FormatInt n : 1 ≤ slen (FormatInt n).
Proof.
  unfold FormatInt. destruct (n <? 0); [|apply slen_FormatUint].
  change (String "-" ?x) with ("-" +:+ x). rewrite slen_app.
  pose proof (slen_nonneg (FormatUint (- n))). slen_literals. lia.
Qed.
Lemma slen_format_mib n : 6 ≤ slen (format_mib n).
Proof.
  unfold format_mib. rewrite !slen_app.
  pose proof (slen_nonneg (if n <? 0 then "-" else "")).
  pose proof (slen_FormatUint (round_half_even (Z.abs (float64_of_int n) * 10000) 1048576 / 10000)).
  unfold pad4. slen_literals.
  change (slen (of_codes ?l)) with (Z.of_nat (String.length (of_codes l))).
  rewrite length_of_codes. cbn [length]. lia.
Qed.

Lemma slen_appendUUIDJSON u : 2 ≤ slen (appendUUIDJSON "" u).
Proof.
  unfold appendUUIDJSON. destruct (IsZero u); [done|].
  rewrite appendUUIDHex_dst, !slen_app. slen_literals. pose proof (slen_nonneg (formatUUID u)). lia.
Qed.

Lemma slen_AppendJSONString `{!JsonQuoteLaw} s : slen s + 2 ≤ slen (AppendJSONString "" s).
Proof.
  unfold AppendJSONString. destruct (existsb _ _).
  - rewrite slen_app. pose proof (json_quote_len s). slen_literals. lia.
  - rewrite !slen_app. slen_literals. lia.
Qed.

Lemma slen_item `{!JsonQuoteLaw} it :
  25 + slen (Scope it) + slen (ID it) + blen (Payload it) ≤ slen (Item_MarshalJSON it).
Proof.
  rewrite MarshalJSON_shape. unfold item_head, item_payload. rewrite !slen_app.
  pose proof (slen_AppendJSONString (Scope it)). pose proof (slen_FormatUint (Seq it)).
  pose proof (slen_FormatInt (Ts it)). pose proof (slen_appendUUIDJSON (Uuid it)).
  assert (slen (ID it) + 2 ≤ slen (if bool_decide (ID it = "") then "null"
    else AppendJSONString "" (ID it))).
  { case_bool_decide as E; [rewrite E; done|apply slen_AppendJSONString]. }
  assert (blen (Payload it) ≤ slen (if blen (Payload it) =? 0 then "null"
    else default "" (Payload it))).
  { destruct (Z.eqb_spec (blen (Payload it)) 0) as [->|]; [done|]. by destruct (Payload it). }
  destruct (bool_decide (Scope it = EventsScopeName)); slen_literals; lia.
Qed.

Lemma slen_append_list {A} (emit : string → A → string) (f : A → string) l :
  (∀ b x, emit b x = b +:+ f x) →
  zsum (λ x, slen (f x)) l ≤ slen (append_list emit "" l).
Proof.
  intros He. unfold append_list.
  assert (∀ l n buf, slen buf + zsum (λ x, slen (f x)) l ≤
    slen (foldl (λ buf ix, emit (if (ix.1 =? 0)%nat then buf else buf +:+ ",") ix.2) buf
      (zip (seq n (length l)) l))) as Hl.
  { clear l. induction l as [|x l IH]; intros n buf; cbn [zip zip_with length seq foldl zsum]; [lia|].
    rewrite He. cbn [fst snd]. etrans; [|apply IH]. rewrite slen_app.
    destruct (n =? 0)%nat; rewrite ?slen_app; slen_literals; lia. }
  specialize (Hl l 0%nat ""). rewrite slen_empty in Hl. lia.
Qed.

Lemma envelope_estimate `{!JsonQuoteLaw} items truncated offset :
  items ≠ [] →
  estimateMultiItemResponseBytes items ≤ slen (appendItemsEnvelopeJSON "" items truncated offset).
Proof.
  intros Hne. rewrite estimateMultiItemResponseBytes_eq. unfold appendItemsEnvelopeJSON. cbv zeta.
  rewrite (append_list_eq _ Item_MarshalJSON (_ +:+ _)) by apply AppendItemJSON_eq.
  rewrite !slen_app.
  rewrite (append_bool_dst (_ +:+ _) truncated), slen_app.
  pose proof (slen_append_list AppendItemJSON Item_MarshalJSON items AppendItemJSON_eq).
  assert (zsum (λ it, 25 + slen (Scope it) + slen (ID it) + blen (Payload it)) items ≤
    zsum (λ x, slen (Item_MarshalJSON x)) items) by (apply zsum_le; intros; apply slen_item).
  destruct items as [|x l]; [done|]. change (0 <? Z.of_nat (length (x :: l))) with true.
  cbn [append_bool].
  pose proof (slen_FormatInt (Z.of_nat (length (x :: l)))).
  assert (4 ≤ slen (append_bool "" truncated)) by (destruct truncated; vm_compute; discriminate).
  destruct offset as [o|]; rewrite !slen_app; slen_literals;
    [pose proof (slen_FormatInt o)|]; change (slen newline) with 1;
    match goal with |- context [format_mib ?n] => pose proof (slen_format_mib n) end; lia.
Qed.
End Wire.
