(* ===== verification/Validation.v ===== *)
(** * validation.go: request validation

  Every validator returns [Ok] of what the Go function passes on (unit, or the
  item with its [renderBytes] filled in) or the error. The inner checks return
  their plain message; the top-level validators wrap it with [ErrInvalidInput]. *)
From S2P Require Import Prelude GoStd Uuid Types.

Section Validation.
Context `{Env}.

(** Sequencing of [if err := ...; err != nil { return err }]. *)
Definition check {E} (c : result E unit) {A} (k : result E A) : result E A :=
  match c with Ok _ => k | Err e => Err e end.
Notation "c 'then?' k" := (check c k) (at level 60, right associativity).
Definition guard {E} (bad : bool) (e : E) : result E unit := if bad then Err e else Ok tt.

Definition wrapValidation {A} (r : result string A) : result error A :=
  match r with Ok a => Ok a | Err msg => Err (ErrInvalidInput msg) end.

Definition control_char (c : Z) : bool := (c <? 0x20) || (c =? 0x7f).

Definition checkKeyField (fieldName value : string) (maxLen : Z) : result string unit :=
  if maxLen <? slen value then
    Err ("the '" +:+ fieldName +:+ "' field must not exceed " +:+ FormatInt maxLen +:+ " bytes")
  else if negb (bool_decide (value = TrimSpace value)) then
    Err ("the '" +:+ fieldName +:+ "' field must not have leading or trailing whitespace")
  else if existsb control_char (codes value) then
    Err ("the '" +:+ fieldName +:+ "' field must not contain control characters")
  else if negb (utf8_ValidString value) then
    Err ("the '" +:+ fieldName +:+ "' field must be valid UTF-8")
  else Ok tt.

Definition validateScope (scope endpoint : string) : result string unit :=
  if bool_decide (scope = "") then
    Err ("the 'scope' field is required for the '" +:+ endpoint +:+ "' endpoint")
  else checkKeyField "scope" scope MaxScopeBytes.

Definition validateID (id : string) : result string unit :=
  if bool_decide (id = "") then Ok tt else checkKeyField "id" id MaxIDBytes.

Definition requireID (id endpoint : string) : result string unit :=
  if bool_decide (id = "") then
    Err ("the 'id' field is required for the '" +:+ endpoint +:+ "' endpoint")
  else checkKeyField "id" id MaxIDBytes.

Definition validateIDSeqUUID (endpoint id : string) (seq : Z) (hasUUID uuidValid : bool)
    : result string unit :=
  let hasID := negb (bool_decide (id = "")) in
  let hasSeq := negb (seq =? 0) in
  let n := foldl (λ n (h : bool), if h then n + 1 else n) 0 [hasID; hasSeq; hasUUID] in
  if negb (n =? 1) then
    Err ("exactly one of 'id', 'seq' or 'uuid' must be provided for the '" +:+ endpoint +:+ "' endpoint")
  else if hasID then checkKeyField "id" id MaxIDBytes
  else if hasUUID && negb uuidValid then
    Err ("the 'uuid' field must be a canonical lowercase UUIDv7 string for the '"
         +:+ endpoint +:+ "' endpoint")
  else Ok tt.

Definition validatePayload (p : slice) : result string unit :=
  let s := default "" p in
  if (blen p =? 0) || bool_decide (TrimSpace s = "null") then Err "the 'payload' field is required"
  else if negb (json_Valid s) then Err "the 'payload' field must be a valid JSON value"
  else if negb (utf8_ValidString s) then Err "the 'payload' field must be valid UTF-8"
  else Ok tt.

(** The item is a pointer in Go: its renderBytes are filled in on every path. *)
Definition fillRenderBytes (item : Item) : Item :=
  match renderBytes item with
  | None => item <| renderBytes := precomputeRenderBytes (Payload item) |>
  | Some _ => item
  end.

Definition checkItemSize (item : Item) (maxItemBytes : Z) : result string Item :=
  let item := fillRenderBytes item in
  let size := approxItemSize item in
  let size := if IsZero (Uuid item) then size + uuidStringLen else size in
  if maxItemBytes <? size then
    Err ("the item's approximate size (" +:+ FormatInt size +:+
         " bytes) exceeds the maximum of " +:+ FormatInt maxItemBytes +:+ " bytes")
  else Ok item.

Definition normalizeLimit (raw : string) : result string Z :=
  if bool_decide (raw = "") then Ok DefaultLimit
  else match Atoi raw with
       | Some n =>
           if n <=? 0 then Err "the 'limit' parameter must be a positive integer"
           else if MaxLimit <? n then Ok MaxLimit else Ok n
       | None => Err "the 'limit' parameter must be a positive integer"
       end.

Definition normalizeOffset (raw : string) : result string Z :=
  if bool_decide (raw = "") then Ok 0
  else match Atoi raw with
       | Some n =>
           if n <? 0 then Err "the 'offset' parameter must be a non-negative integer" else Ok n
       | None => Err "the 'offset' parameter must be a non-negative integer"
       end.

Definition usPerHour : Z := 3600000000.
Definition normalizeHours (raw : string) : result string Z :=
  if bool_decide (raw = "") then Ok 0
  else match ParseInt raw with
       | Some n =>
           if n <? 0 then Err "the 'hours' parameter must be a non-negative integer"
           else if Z.quot MaxInt64 usPerHour <? n
                then Err "the 'hours' parameter is unreasonably large" else Ok n
       | None => Err "the 'hours' parameter must be a non-negative integer"
       end.

Definition managed_field (field endpoint : string) : string :=
  "the '" +:+ field +:+ "' field is managed by the cache and must not be provided to the '"
  +:+ endpoint +:+ "' endpoint".

Definition rejectClientTs (item : Item) (endpoint : string) : result string unit :=
  guard (negb (Ts item =? 0)) (managed_field "ts" endpoint).

Definition rejectClientUUID (item : Item) (endpoint : string) : result string unit :=
  guard (negb (IsZero (Uuid item))) (managed_field "uuid" endpoint).

Definition checkWriteUUID (item : Item) (endpoint : string) : result string unit :=
  if bool_decide (endpoint = "/append") then rejectClientUUID item endpoint
  else guard (negb (IsZero (Uuid item)) && negb (isValidV7 (Uuid item)))
         "the 'uuid' field must be a canonical lowercase UUIDv7 string".

Definition validateWriteItem (item : Item) (endpoint : string) (maxItemBytes : Z)
    : result error Item :=
  wrapValidation (
    validateScope (Scope item) endpoint then?
    guard (bool_decide (endpoint = "/append") && bool_decide (Scope item = EventsScopeName))
      ("scope '" +:+ Scope item +:+ "' is reserved for cache-emitted events; /append is rejected (use a user-managed scope with events_mode=full to inject)") then?
    validateID (ID item) then?
    validatePayload (Payload item) then?
    guard (negb (Seq item =? 0)) (managed_field "seq" endpoint) then?
    rejectClientTs item endpoint then?
    checkWriteUUID item endpoint then?
    checkItemSize item maxItemBytes).

Definition validateUpsertItem (item : Item) (maxItemBytes : Z) : result error Item :=
  wrapValidation (
    validateScope (Scope item) "/upsert" then?
    guard (isReservedScope (Scope item))
      ("scope '" +:+ Scope item +:+ "' is reserved; in-place mutation (/upsert) is not supported on the drain-stream scopes (use /append)") then?
    requireID (ID item) "/upsert" then?
    validatePayload (Payload item) then?
    guard (negb (Seq item =? 0)) (managed_field "seq" "/upsert") then?
    rejectClientTs item "/upsert" then?
    rejectClientUUID item "/upsert" then?
    checkItemSize item maxItemBytes).

Definition validateUpdateItem (item : Item) (maxItemBytes : Z) : result error Item :=
  wrapValidation (
    validateScope (Scope item) "/update" then?
    guard (isReservedScope (Scope item))
      ("scope '" +:+ Scope item +:+ "' is reserved; in-place mutation (/update) is not supported on the drain-stream scopes") then?
    validateIDSeqUUID "/update" (ID item) (Seq item) (negb (IsZero (Uuid item)))
      (isValidV7 (Uuid item)) then?
    validatePayload (Payload item) then?
    rejectClientTs item "/update" then?
    checkItemSize item maxItemBytes).

(** The candidate's counter pointer is any non-nil one. *)
Definition validateCounterAddRequest (req : counterAddRequest) (maxItemBytes : Z)
    : result error Z :=
  wrapValidation (
    validateScope (ca_Scope req) "/counter_add" then?
    guard (isReservedScope (ca_Scope req))
      ("scope '" +:+ ca_Scope req +:+ "' is reserved; counters are not supported on the drain-stream scopes") then?
    requireID (ca_ID req) "/counter_add" then?
    match ca_By req with
    | None => Err "the 'by' field is required for the '/counter_add' endpoint"
    | Some by_ =>
        guard (by_ =? 0) "the 'by' field must not be zero" then?
        guard ((MaxCounterValue <? by_) || (by_ <? - MaxCounterValue))
          "the 'by' field must be within ±(2^53-1)" then?
        let candidate := zeroItem <| Scope := ca_Scope req |> <| ID := ca_ID req |>
                           <| counter := Some 0%nat |> in
        let size := approxItemSize candidate + uuidStringLen in
        guard ((0 <? maxItemBytes) && (maxItemBytes <? size))
          ("the counter item's approximate size (" +:+ FormatInt size +:+
           " bytes) exceeds the maximum of " +:+ FormatInt maxItemBytes +:+ " bytes") then?
        Ok by_
    end).

Definition validateDeleteRequest (req : deleteRequest) : result error unit :=
  wrapValidation (
    validateScope (del_Scope req) "/delete" then?
    validateIDSeqUUID "/delete" (del_ID req) (del_Seq req)
      (negb (bool_decide (del_UUID req = ""))) (isValidUUIDv7 (del_UUID req))).

Definition validateDeleteScopeRequest (req : deleteScopeRequest) : result error unit :=
  wrapValidation (
    validateScope (dels_Scope req) "/delete_scope" then?
    guard (isReservedScope (dels_Scope req))
      ("scope '" +:+ dels_Scope req +:+ "' is reserved and cannot be deleted")).

Definition validateDeleteUpToRequest (req : deleteUpToRequest) : result error unit :=
  wrapValidation (
    validateScope (dut_Scope req) "/delete_up_to" then?
    let hasSeq := negb (dut_MaxSeq req =? 0) in
    let hasUUID := negb (bool_decide (dut_UUID req = "")) in
    guard (Bool.eqb hasSeq hasUUID)
      "exactly one of 'max_seq' or 'uuid' must be provided for the '/delete_up_to' endpoint" then?
    guard (hasUUID && negb (isValidUUIDv7 (dut_UUID req)))
      "the 'uuid' field must be a canonical lowercase UUIDv7 string for the '/delete_up_to' endpoint").

(** [map[string][]Item]: the association list is one order in which Go may
    range over the map; the scopes are distinct, the items keep their order. *)
Fixpoint group_add (item : Item) (grouped : list (string * list Item)) : list (string * list Item) :=
  match grouped with
  | [] => [(Scope item, [item])]
  | (k, l) :: rest =>
      if bool_decide (k = Scope item) then (k, l ++ [item]) :: rest
      else (k, l) :: group_add item rest
  end.
Definition groupItemsByScope (items : list Item) : list (string * list Item) :=
  foldl (λ g item, group_add item g) [] items.
(** ** Lemmas *)
Lemma check_ok {E A} (c : result E unit) (k : result E A) a :
  check c k = Ok a ↔ c = Ok tt ∧ k = Ok a.
Proof. destruct c as [[]|e]; cbn; naive_solver. Qed.
Lemma guard_ok {E} b (e : E) : guard b e = Ok tt ↔ b = false.
Proof. destruct b; cbn; naive_solver. Qed.
Lemma wrapValidation_ok {A} (r : result string A) a : wrapValidation r = Ok a ↔ r = Ok a.
Proof. destruct r; cbn; naive_solver. Qed.
(** A validator's failures are all tagged as invalid input. *)
Lemma wrapValidation_err {A} (r : result string A) e :
  wrapValidation r = Err e → ∃ msg, e = ErrInvalidInput msg.
Proof. destruct r; cbn; naive_solver. Qed.

Definition key_field_ok (value : string) (maxLen : Z) : Prop :=
  slen value ≤ maxLen ∧ value = TrimSpace value ∧
  (∀ c, c ∈ codes value → ¬ (c < 0x20 ∨ c = 0x7f)) ∧ utf8_ValidString value = true.

Lemma existsb_false {A} (f : A → bool) l : existsb f l = false ↔ ∀ x, x ∈ l → f x = false.
Proof.
  induction l as [|y l IH]; cbn [existsb]; [set_solver|].
  rewrite orb_false_iff, IH. setoid_rewrite elem_of_cons. naive_solver.
Qed.

Lemma checkKeyField_spec fieldName value maxLen :
  checkKeyField fieldName value maxLen = Ok tt ↔ key_field_ok value maxLen.
Proof.
  unfold checkKeyField, key_field_ok.
  destruct (Z.ltb_spec maxLen (slen value)); [split; [done|]; intros [? _]; lia|].
  case_bool_decide as Ht; cbn [negb]; [|split; [done|]; intros (_ & ? & _); done].
  destruct (existsb control_char (codes value)) eqn:Ec.
  { split; [done|]. intros (_ & _ & Hc & _). exfalso.
    apply existsb_exists in Ec as (c & Hin & Hcc). apply (Hc c); [by apply list_elem_of_In|].
    unfold control_char in Hcc. rewrite orb_true_iff, Z.ltb_lt, Z.eqb_eq in Hcc. lia. }
  rewrite existsb_false in Ec.
  destruct (utf8_ValidString value); cbn [negb]; split; try done.
  - intros _. split; [done|]. split; [done|]. split; [|done]. intros c Hin Hcc.
    specialize (Ec c Hin). unfold control_char in Ec.
    rewrite orb_false_iff, Z.ltb_ge, Z.eqb_neq in Ec. lia.
  - by intros (_ & _ & _ & ?).
Qed.

Lemma validateScope_spec scope endpoint :
  validateScope scope endpoint = Ok tt ↔ scope ≠ ""%string ∧ key_field_ok scope MaxScopeBytes.
Proof.
  unfold validateScope. case_bool_decide; [naive_solver|]. rewrite checkKeyField_spec. naive_solver.
Qed.
Lemma requireID_spec id endpoint :
  requireID id endpoint = Ok tt ↔ id ≠ ""%string ∧ key_field_ok id MaxIDBytes.
Proof.
  unfold requireID. case_bool_decide; [naive_solver|]. rewrite checkKeyField_spec. naive_solver.
Qed.
Lemma validateID_spec id :
  validateID id = Ok tt ↔ id = ""%string ∨ key_field_ok id MaxIDBytes.
Proof.
  unfold validateID. case_bool_decide; [naive_solver|]. rewrite checkKeyField_spec. naive_solver.
Qed.

(** The stored payload contract: present, not [null], valid JSON, valid UTF-8. *)
Definition payload_ok (p : slice) : Prop :=
  ∃ s, p = Some s ∧ s ≠ ""%string ∧ TrimSpace s ≠ "null"%string ∧
    json_Valid s = true ∧ utf8_ValidString s = true.
Lemma validatePayload_spec p : validatePayload p = Ok tt ↔ payload_ok p.
Proof.
  unfold validatePayload, payload_ok. destruct p as [s|].
  2:{ cbn. split; [done|]. by intros (s & ? & _). }
  change (blen (Some s)) with (slen s). change (default ""%string (Some s)) with s.
  destruct (Z.eqb_spec (slen s) 0) as [E|E]; cbn [orb].
  { apply slen_zero in E as ->. split; [done|]. naive_solver. }
  assert (s ≠ ""%string) by (by intros ->).
  case_bool_decide; [split; [done|]; intros (? & [= <-] & ? & ? & _); done|].
  destruct (json_Valid s) eqn:Hj; cbn [negb];
    [|split; [done|]; intros (? & [= <-] & _ & _ & ? & _); congruence].
  destruct (utf8_ValidString s) eqn:Hu; cbn [negb];
    [|split; [done|]; intros (? & [= <-] & _ & _ & _ & ?); congruence].
  split; [|done]. intros _. by exists s.
Qed.

(** Exactly one address, in valid shape. *)
Lemma validateIDSeqUUID_spec endpoint id seq hasUUID uuidValid :
  validateIDSeqUUID endpoint id seq hasUUID uuidValid = Ok tt ↔
  (id ≠ ""%string ∧ seq = 0 ∧ hasUUID = false ∧ key_field_ok id MaxIDBytes) ∨
  (id = ""%string ∧ seq ≠ 0 ∧ hasUUID = false) ∨
  (id = ""%string ∧ seq = 0 ∧ hasUUID = true ∧ uuidValid = true).
Proof.
  unfold validateIDSeqUUID. cbv zeta.
  case_bool_decide as Hi; destruct (Z.eqb_spec seq 0), hasUUID, uuidValid;
    cbn [foldl negb]; change (0 + 1 + 1 + 1 =? 1) with false; change (0 + 1 + 1 =? 1) with false;
    change (0 + 1 =? 1) with true; change (0 =? 1) with false; cbn [negb andb];
    try rewrite checkKeyField_spec; intuition (try congruence).
Qed.

Lemma checkItemSize_spec item maxB item' :
  checkItemSize item maxB = Ok item' ↔
  item' = fillRenderBytes item ∧
  approxItemSize item' + (if IsZero (Uuid item') then uuidStringLen else 0) ≤ maxB.
Proof.
  unfold checkItemSize. cbv zeta. destruct (IsZero (Uuid (fillRenderBytes item))) eqn:Hz.
  - destruct (Z.ltb_spec maxB (approxItemSize (fillRenderBytes item) + uuidStringLen)); split.
    + done. + intros [-> ?]. rewrite Hz in *. lia.
    + intros [= <-]. by rewrite Hz. + by intros [-> _].
  - destruct (Z.ltb_spec maxB (approxItemSize (fillRenderBytes item))); split.
    + done. + intros [-> ?]. rewrite Hz in *. lia.
    + intros [= <-]. rewrite Hz, Z.add_0_r. done. + by intros [-> _].
Qed.

Lemma fillRenderBytes_fields item :
  let item' := fillRenderBytes item in
  Scope item' = Scope item ∧ ID item' = ID item ∧ Seq item' = Seq item ∧ Ts item' = Ts item ∧
  Uuid item' = Uuid item ∧ Payload item' = Payload item ∧ counter item' = counter item.
Proof. unfold fillRenderBytes. destruct item as [? ? ? ? ? ? [] ?]; cbn; auto 10. Qed.

(** Everything an accepted write item satisfies, endpoint by endpoint. *)
Lemma validateWriteItem_spec item endpoint maxB item' :
  validateWriteItem item endpoint maxB = Ok item' ↔
  (Scope item ≠ ""%string ∧ key_field_ok (Scope item) MaxScopeBytes) ∧
  ¬ (endpoint = "/append"%string ∧ Scope item = EventsScopeName) ∧
  (ID item = ""%string ∨ key_field_ok (ID item) MaxIDBytes) ∧
  payload_ok (Payload item) ∧ Seq item = 0 ∧ Ts item = 0 ∧
  (if bool_decide (endpoint = "/append"%string) then IsZero (Uuid item) = true
   else IsZero (Uuid item) = true ∨ isValidV7 (Uuid item) = true) ∧
  item' = fillRenderBytes item ∧
  approxItemSize item' + (if IsZero (Uuid item') then uuidStringLen else 0) ≤ maxB.
Proof.
  unfold validateWriteItem. rewrite wrapValidation_ok.
  rewrite !check_ok, validateScope_spec, guard_ok, validateID_spec, validatePayload_spec,
    checkItemSize_spec, guard_ok, andb_false_iff, !bool_decide_eq_false, negb_false_iff, Z.eqb_eq.
  unfold rejectClientTs. rewrite guard_ok, negb_false_iff, Z.eqb_eq.
  assert (checkWriteUUID item endpoint = Ok tt ↔
    (if bool_decide (endpoint = "/append"%string) then IsZero (Uuid item) = true
     else IsZero (Uuid item) = true ∨ isValidV7 (Uuid item) = true)) as ->.
  { unfold checkWriteUUID, rejectClientUUID. case_bool_decide; rewrite guard_ok;
      destruct (IsZero (Uuid item)), (isValidV7 (Uuid item)); cbn; naive_solver. }
  destruct (decide (endpoint = "/append"%string)), (decide (Scope item = EventsScopeName));
    naive_solver.
Qed.

Lemma validateUpsertItem_spec item maxB item' :
  validateUpsertItem item maxB = Ok item' ↔
  (Scope item ≠ ""%string ∧ key_field_ok (Scope item) MaxScopeBytes) ∧
  isReservedScope (Scope item) = false ∧
  (ID item ≠ ""%string ∧ key_field_ok (ID item) MaxIDBytes) ∧
  payload_ok (Payload item) ∧ Seq item = 0 ∧ Ts item = 0 ∧ IsZero (Uuid item) = true ∧
  item' = fillRenderBytes item ∧
  approxItemSize item' + (if IsZero (Uuid item') then uuidStringLen else 0) ≤ maxB.
Proof.
  unfold validateUpsertItem, rejectClientTs, rejectClientUUID. rewrite wrapValidation_ok.
  rewrite !check_ok, validateScope_spec, !guard_ok, requireID_spec, validatePayload_spec,
    checkItemSize_spec, !negb_false_iff, !Z.eqb_eq. tauto.
Qed.

Lemma validateUpdateItem_spec item maxB item' :
  validateUpdateItem item maxB = Ok item' ↔
  (Scope item ≠ ""%string ∧ key_field_ok (Scope item) MaxScopeBytes) ∧
  isReservedScope (Scope item) = false ∧
  validateIDSeqUUID "/update" (ID item) (Seq item) (negb (IsZero (Uuid item)))
    (isValidV7 (Uuid item)) = Ok tt ∧
  payload_ok (Payload item) ∧ Ts item = 0 ∧ item' = fillRenderBytes item ∧
  approxItemSize item' + (if IsZero (Uuid item') then uuidStringLen else 0) ≤ maxB.
Proof.
  unfold validateUpdateItem, rejectClientTs. rewrite wrapValidation_ok.
  rewrite !check_ok, validateScope_spec, !guard_ok, validatePayload_spec,
    checkItemSize_spec, !negb_false_iff, !Z.eqb_eq. tauto.
Qed.

Lemma counter_candidate_size scope id c :
  approxItemSize (zeroItem <| Scope := scope |> <| ID := id |> <| counter := Some c |>)
  = 104 + slen scope + slen id.
Proof. rewrite approxItemSize_eq. unfold zeroItem. cbn. change (IsZero _) with true. cbv iota. lia. Qed.

Lemma validateCounterAddRequest_spec req maxB by_ :
  validateCounterAddRequest req maxB = Ok by_ ↔
  (ca_Scope req ≠ ""%string ∧ key_field_ok (ca_Scope req) MaxScopeBytes) ∧
  isReservedScope (ca_Scope req) = false ∧
  (ca_ID req ≠ ""%string ∧ key_field_ok (ca_ID req) MaxIDBytes) ∧
  ca_By req = Some by_ ∧ by_ ≠ 0 ∧ - MaxCounterValue ≤ by_ ≤ MaxCounterValue ∧
  (0 < maxB → 140 + slen (ca_Scope req) + slen (ca_ID req) ≤ maxB).
Proof.
  unfold validateCounterAddRequest. rewrite wrapValidation_ok.
  rewrite !check_ok, validateScope_spec, !guard_ok, requireID_spec.
  destruct (ca_By req) as [b|]; [|naive_solver].
  rewrite !check_ok, !guard_ok, Z.eqb_neq, orb_false_iff, !Z.ltb_ge, andb_false_iff, !Z.ltb_ge,
    counter_candidate_size. change uuidStringLen with 36.
  split.
  - intros (H1 & H2 & H3 & H4 & [H5 H6] & H7 & [= ->]).
    do 5 (split; [done|]). split; lia.
  - intros (H1 & H2 & H3 & [= ->] & H5 & [H6 H6'] & H7).
    do 4 (split; [done|]). split; [lia|]. split; [|done].
    destruct (decide (0 < maxB)); [right|left]; lia.
Qed.

(** ** Query parameters *)
Lemma normalizeLimit_range raw n : normalizeLimit raw = Ok n → 1 ≤ n ≤ MaxLimit.
Proof.
  unfold normalizeLimit, DefaultLimit, MaxLimit. case_bool_decide; [intros [= <-]; lia|].
  destruct (Atoi raw); [|done]. ztests; intros [= <-]; lia.
Qed.
Lemma normalizeOffset_range raw n : normalizeOffset raw = Ok n → 0 ≤ n ≤ MaxInt64.
Proof.
  unfold normalizeOffset. case_bool_decide; [intros [= <-]; unfold MaxInt64; lia|].
  destruct (Atoi raw) eqn:E; [|done]. apply ParseInt_range in E. unfold in_i64 in E.
  ztests; intros [= <-]; lia.
Qed.

(** ** Grouping *)
Lemma group_add_keys item g :
  (group_add item g).*1 = if bool_decide (Scope item ∈ g.*1) then g.*1 else g.*1 ++ [Scope item].
Proof.
  induction g as [|[k l] g IH]; cbn [group_add fmap list_fmap fst]; [done|].
  destruct (decide (k = Scope item)) as [Hk|Hk].
  - rewrite bool_decide_eq_true_2 by done. cbn [fmap list_fmap fst].
    rewrite bool_decide_eq_true_2; [done|]. subst. by constructor.
  - rewrite bool_decide_eq_false_2 by done. cbn [fmap list_fmap fst]. rewrite IH.
    destruct (decide (Scope item ∈ g.*1)) as [Hin|Hin].
    + rewrite !bool_decide_eq_true_2; [done|by constructor|done].
    + rewrite !bool_decide_eq_false_2; [done| |done].
      intros [?|?]%elem_of_cons; [by apply Hk|done].
Qed.

Lemma group_add_elem item g k l : NoDup g.*1 →
  (k, l) ∈ group_add item g ↔
  (k ≠ Scope item ∧ (k, l) ∈ g) ∨
  (k = Scope item ∧ (∃ l0, l = l0 ++ [item] ∧ ((k, l0) ∈ g ∨ (¬ k ∈ g.*1 ∧ l0 = [])))).
Proof.
  induction g as [|[k' l'] g IH]; cbn [group_add fmap list_fmap fst]; intros Hnd.
  { rewrite list_elem_of_singleton. split.
    - intros [= -> ->]. right. split; [done|]. exists []. split; [done|]. right. set_solver.
    - intros [[_ H0]|(-> & l0 & -> & [H0|[_ ->]])]; [set_solver..|done]. }
  apply NoDup_cons in Hnd as [Hk' Hnd].
  assert (∀ l0, (k', l0) ∉ g) as Hout by (intros l0 Hin; apply Hk', list_elem_of_fmap; by exists (k', l0)).
  case_bool_decide as Hk; rewrite elem_of_cons; [|rewrite IH by done];
    setoid_rewrite elem_of_cons.
  - subst k'. split.
    + intros [[= -> ->]|Hin].
      * right. split; [done|]. exists l'. split; [done|]. left. by left.
      * left. split; [|by right]. intros ->. by apply (Hout l).
    + intros [[Hne [[= -> ->]|Hin]]|(-> & l0 & -> & [[[= ->]|Hin]|[Hn _]])]; [done|by right|by left| |].
      * exfalso. by apply (Hout l0).
      * exfalso. apply Hn. by left.
  - split.
    + intros [[= -> ->]|[[Hne Hin]|(-> & l0 & -> & Hin)]].
      * left. split; [done|by left].
      * left. split; [done|by right].
      * right. split; [done|]. exists l0. split; [done|].
        destruct Hin as [Hin|[Hn ->]]; [left; by right|]. right. split; [|done].
        intros [?|?]; [by apply Hk|done].
    + intros [[Hne [[= -> ->]|Hin]]|(-> & l0 & -> & [[[= E ->]|Hin]|[Hn ->]])].
      * by left.
      * right. left. done.
      * exfalso. by apply Hk.
      * right. right. split; [done|]. exists l0. split; [done|by left].
      * right. right. split; [done|]. exists []. split; [done|]. right. split; [|done].
        intros ?. apply Hn. by right.
Qed.

Lemma group_add_NoDup item g : NoDup g.*1 → NoDup (group_add item g).*1.
Proof.
  intros Hnd. rewrite group_add_keys. case_bool_decide as Hin; [done|].
  apply NoDup_app. split; [done|]. split; [|apply NoDup_singleton].
  intros x Hx ->%list_elem_of_singleton. done.
Qed.

Lemma groupItemsByScope_app items x :
  groupItemsByScope (items ++ [x]) = group_add x (groupItemsByScope items).
Proof. unfold groupItemsByScope. by rewrite foldl_app. Qed.

(** One group per scope that occurs, holding that scope's items in input order. *)
Lemma groupItemsByScope_spec items :
  NoDup (groupItemsByScope items).*1 ∧
  ∀ k l, (k, l) ∈ groupItemsByScope items ↔
    l = filter (λ it, Scope it = k) items ∧ l ≠ [].
Proof.
  induction items as [|x items [IHn IH]] using rev_ind.
  { split; [apply NoDup_nil_2|]. intros k l. cbn. split; [set_solver|]. by intros [-> ?]. }
  rewrite groupItemsByScope_app. split; [by apply group_add_NoDup|]. intros k l.
  rewrite group_add_elem, filter_app by done. rewrite filter_cons, filter_nil.
  destruct (decide (Scope x = k)) as [<-|Hne].
  - split.
    + intros [[? _]|(_ & l0 & -> & Hl0)]; [done|]. split; [|by destruct l0]. f_equal.
      destruct Hl0 as [Hl0|[Hn ->]]; [by apply IH in Hl0 as [-> _]|].
      destruct (filter _ items) eqn:E; [done|]. exfalso. apply Hn, list_elem_of_fmap.
      exists (Scope x, filter (λ it, Scope it = Scope x) items). split; [done|].
      apply IH. split; [done|]. by rewrite E.
    + intros [-> _]. right. split; [done|]. eexists. split; [done|].
      destruct (filter (λ it, Scope it = Scope x) items) as [|y l] eqn:E.
      * right. split; [|done]. intros ((k & l0) & Hk & Hin)%list_elem_of_fmap. cbn in Hk. subst k.
        apply IH in Hin as [-> ?]. by rewrite E in *.
      * left. apply IH. by rewrite E.
  - rewrite app_nil_r, <- IH. split; [|intros; left; auto].
    intros [[_ ?]|[? _]]; [done|by subst].
Qed.
End Validation.
