(* ===== verification/Buffer.v ===== *)
(** * buffer.go, buffer_locked.go, buffer_heat.go, buffer_stats.go: the scope buffer

  A scope buffer owns an arena of items ([heap]) and of counter cells
  ([cells]); the pointer collections [items], [byID], [bySeq] and [byUUID]
  hold addresses of that arena, so that a write through one of them is seen
  through the others, as in Go. A nil map is the empty map. Methods run on the
  buffer together with the store's atomic counters ([acct]) and the tick that
  indexes the clock and the random source; each body runs under [b.mu], so it
  is one atomic step. *)
From S2P Require Import Prelude GoStd Uuid Types.

(** ** The store's configuration and atomic counters (store.go) *)
Class Caps := {
  defaultMaxItems : Z;
  maxStoreBytes : Z;
  maxItemBytes : Z;
  eventsMaxItemBytes : Z;
  inboxMaxItems : Z;
  inboxMaxItemBytes : Z;
  eventsMode : EventsMode;
}.

Record acct := mkacct {
  totalBytes : Z;
  totalItems : Z;
  scopeCount : Z;
  store_lastWriteTS : Z;
  eventsDropsTotal : Z;
}.
#[export] Instance eta_acct : Eta acct := λ a,
  mkacct (totalBytes a) (totalItems a) (scopeCount a) (store_lastWriteTS a) (eventsDropsTotal a).

(** ** The buffer *)
Record scopeBuffer := mkscopeBuffer {
  attached : bool;
  detached : bool;
  heap : gmap nat Item;
  cells : gmap nat counterCell;
  nextp : nat;
  items : list nat;
  itemsCap : nat;
  byID : gmap string nat;
  bySeq : gmap Z nat;
  byUUID : gmap UUID nat;
  lastSeq : Z;
  firstUUID : UUID;
  lastUUID : UUID;
  maxItems : Z;
  buf_maxItemBytes : Z;
  bytes : Z;
  idKeyBytes : Z;
  createdTS : Z;
  lastWriteTS : Z;
  lastAccessTS : Z;
  readCountTotal : Z;
}.
#[export] Instance eta_scopeBuffer : Eta scopeBuffer := λ b,
  mkscopeBuffer (attached b) (detached b) (heap b) (cells b) (nextp b) (items b) (itemsCap b)
    (byID b) (bySeq b) (byUUID b) (lastSeq b) (firstUUID b) (lastUUID b) (maxItems b)
    (buf_maxItemBytes b) (bytes b) (idKeyBytes b) (createdTS b) (lastWriteTS b)
    (lastAccessTS b) (readCountTotal b).

(** A block of field assignments is evaluated to one record when it is defined. *)
Declare Reduction fields := cbn [set_field attached detached heap cells nextp items itemsCap byID
  bySeq byUUID lastSeq firstUUID lastUUID maxItems buf_maxItemBytes bytes idKeyBytes createdTS
  lastWriteTS lastAccessTS readCountTotal Scope ID Seq Ts Uuid Payload renderBytes counter
  totalBytes totalItems scopeCount store_lastWriteTS eventsDropsTotal].

(** The item a pointer refers to. *)
Definition deref (b : scopeBuffer) (p : nat) : Item := heap b !!! p.

Record ctx := mkctx { c_buf : scopeBuffer; c_acct : acct; c_tick : nat }.
#[export] Instance eta_ctx : Eta ctx := λ c, mkctx (c_buf c) (c_acct c) (c_tick c).
Definition M (A : Type) : Type := ST ctx A.

Definition modify_buf (f : scopeBuffer → scopeBuffer) : M unit :=
  λ c, (tt, mkctx (f (c_buf c)) (c_acct c) (c_tick c)).
Definition modify_acct (f : acct → acct) : M unit :=
  λ c, (tt, mkctx (c_buf c) (f (c_acct c)) (c_tick c)).
Definition tick : M nat := λ c, (c_tick c, mkctx (c_buf c) (c_acct c) (S (c_tick c))).
Definition get_buf : M scopeBuffer := gets c_buf.
Definition get_acct : M acct := gets c_acct.

(** Assignments to the store's counters. *)
Definition set_totalBytes (n : Z) (a : acct) : acct := Eval fields in a <| totalBytes := n |>.
Definition set_totalItems (n : Z) (a : acct) : acct := Eval fields in a <| totalItems := n |>.
Definition set_store_lastWriteTS (n : Z) (a : acct) : acct := Eval fields in
  a <| store_lastWriteTS := n |>.

(** Assignments to single buffer fields. *)
Definition set_heap (h : gmap nat Item) (b : scopeBuffer) : scopeBuffer := Eval fields in
  b <| heap := h |>.
Definition set_bytes (n : Z) (b : scopeBuffer) : scopeBuffer := Eval fields in b <| bytes := n |>.
Definition set_lastWriteTS (n : Z) (b : scopeBuffer) : scopeBuffer := Eval fields in
  b <| lastWriteTS := n |>.

Section Buffer.
Context `{Env} `{Caps}.

(** [time.Now().UnixMicro()] and [newUUIDv7()] with their environment reads. *)
Definition nowUnixMicro : M Z := let* t := tick in ret (clk_micro t).
Definition mintUUID : M UUID :=
  let* t1 := tick in
  let* t2 := tick in
  let* t3 := tick in
  ret (newUUIDv7 (u64 (clk_milli t1)) (rnd t2) (rnd t3)).

(** ** store.go: per-scope caps, admission control *)
Definition maxItemBytesFor (scope : string) : Z :=
  if bool_decide (scope = EventsScopeName) then eventsMaxItemBytes
  else if bool_decide (scope = InboxScopeName) then inboxMaxItemBytes
  else maxItemBytes.

Definition maxItemsFor (scope : string) : Z :=
  if bool_decide (scope = EventsScopeName) then unboundedScopeMaxItems
  else if bool_decide (scope = InboxScopeName) then inboxMaxItems
  else defaultMaxItems.

Definition maxItemBytesAnyScope : Z :=
  let biggest := maxItemBytes in
  let biggest := if biggest <? eventsMaxItemBytes then eventsMaxItemBytes else biggest in
  if biggest <? inboxMaxItemBytes then inboxMaxItemBytes else biggest.

(** [s.totalBytes.Add(d)]: the atomic add returns the new value. *)
Definition add_totalBytes (d : Z) : M Z :=
  modify_acct (λ a, set_totalBytes (i64 (totalBytes a + d)) a) ;;;
  let* a := get_acct in ret (totalBytes a).
Definition add_totalItems (d : Z) : M unit :=
  modify_acct (λ a, set_totalItems (i64 (totalItems a + d)) a).

Definition bumpLastWriteTS (nowUs : Z) : M unit :=
  modify_acct (λ a,
    if nowUs <=? store_lastWriteTS a then a else set_store_lastWriteTS nowUs a).

(** Within one atomic step the compare-and-swap succeeds at once (Interleave.v
    runs the loop against other writers). *)
Definition reserveBytes (delta : Z) : M (bool * Z * Z) :=
  if delta <=? 0 then
    let* n := add_totalBytes delta in ret (true, n, maxStoreBytes)
  else
    let* a := get_acct in
    let current := totalBytes a in
    if i64 (maxStoreBytes - current) <? delta then ret (false, current, maxStoreBytes)
    else
      let next := i64 (current + delta) in
      modify_acct (set_totalBytes next) ;;;
      ret (true, next, maxStoreBytes).

(** ** Construction *)
Definition newscopeBuffer (maxI now : Z) : scopeBuffer :=
  mkscopeBuffer false false ∅ ∅ 0 [] 0 ∅ ∅ ∅ 0 zeroUUID zeroUUID maxI 0 0 0 now now 0 0.

(** ** buffer_heat.go *)
Definition recordRead (now : Z) (b : scopeBuffer) : scopeBuffer := Eval fields in
  b <| readCountTotal := u64 (readCountTotal b + 1) |> <| lastAccessTS := now |>.

(** ** buffer_stats.go *)
Definition approxSizeBytesLocked (b : scopeBuffer) : Z :=
  let structOverhead := 64 in
  let itemSlotOverhead := 32 in
  let byIDBucketOverhead := 32 in
  let bySeqBucketOverhead := 16 in
  i64 (structOverhead + Z.of_nat (length (items b)) * itemSlotOverhead + bytes b
    + Z.of_nat (size (byID b)) * byIDBucketOverhead + idKeyBytes b
    + Z.of_nat (size (bySeq b)) * bySeqBucketOverhead).
Definition approxSizeBytes (b : scopeBuffer) : Z := approxSizeBytesLocked b.

Record scopeStats := mkscopeStats {
  st_ItemCount : Z; st_LastSeq : Z; st_FirstUUID : UUID; st_LastUUID : UUID;
  st_ApproxScopeMB : MB; st_CreatedTS : Z; st_LastWriteTS : Z; st_LastAccessTS : Z;
  st_ReadCountTotal : Z }.
Definition buf_stats (b : scopeBuffer) : scopeStats :=
  mkscopeStats (Z.of_nat (length (items b))) (lastSeq b) (firstUUID b) (lastUUID b)
    (approxSizeBytesLocked b) (createdTS b) (lastWriteTS b) (lastAccessTS b) (readCountTotal b).

(** ** buffer_locked.go *)
Definition reservePayloadDeltaLocked (oldSize newSize : Z) : M (result error Z) :=
  let delta := i64 (newSize - oldSize) in
  let* b := get_buf in
  if attached b && negb (delta =? 0) then
    let* r := reserveBytes delta in
    let '(ok, current, max) := r in
    if (ok : bool) then ret (Ok delta) else ret (Err (StoreFullError current delta max))
  else ret (Ok delta).

Definition itemCapExceeded (b : scopeBuffer) (proposed : Z) : bool :=
  (0 <? maxItems b) && (maxItems b <? proposed).

Definition payloadAndRenderBytes (item : Item) : Z :=
  match counter item with
  | Some _ => counterCellOverhead
  | None => blen (Payload item) + blen (renderBytes item)
  end.

(** An in-place field write through a pointer. *)
Definition write_item (p : nat) (f : Item → Item) : M unit :=
  modify_buf (λ b, set_heap (<[p := f (deref b p)]> (heap b)) b).

Definition replace_fields (payload : slice) (ts : Z) (render : slice) (it : Item) : Item :=
  Eval fields in
  it <| Payload := payload |> <| Ts := ts |> <| renderBytes := render |> <| counter := None |>.

Definition replaceItemAtIndexLocked (i : nat) (payload : slice) (ts : Z) (render : slice)
    (delta : Z) : M unit :=
  let* b := get_buf in
  let p := items b !!! i in
  write_item p (replace_fields payload ts render) ;;;
  modify_buf (λ b, set_bytes (i64 (bytes b + delta)) b) ;;;
  modify_buf (set_lastWriteTS ts) ;;;
  let* b := get_buf in
  if attached b then bumpLastWriteTS ts else ret tt.

Definition seq_at (b : scopeBuffer) (i : nat) : Z := Seq (deref b (items b !!! i)).

Definition indexBySeqLocked (b : scopeBuffer) (seq : Z) : option nat :=
  let n := length (items b) in
  let i := sort_Search n (λ i, seq <=? seq_at b i) in
  if (i =? n)%nat || negb (seq_at b i =? seq) then None else Some i.
End Buffer.
