(* ===== verification/BufferInv.v ===== *)
(** * The scope buffer's well-formedness and its preservation

  [buf_wf] states the aliasing invariants of buffer.go (rule 4), the ascending
  order of [items] the binary searches rely on, and the byte count. The lemmas
  of this file are the ways an operation may change a buffer: a push, an
  in-place write through a pointer, a restriction to fewer items, and a change
  of bookkeeping fields only. *)
From S2P Require Import Prelude GoStd Uuid Types Buffer.

Definition size_of (b : scopeBuffer) (p : nat) : Z := approxItemSize (deref b p).
Definition seqs (b : scopeBuffer) : list Z := (λ p, Seq (deref b p)) <$> items b.
Definition cell_ok (c : counterCell) : Prop :=
  - MaxCounterValue ≤ cell_value c ≤ MaxCounterValue.

Record buf_wf (b : scopeBuffer) : Prop := {
  w_sorted : StronglySorted Z.lt (seqs b);
  w_range : ∀ p, p ∈ items b → 1 ≤ Seq (deref b p) ≤ lastSeq b;
  w_last : 0 ≤ lastSeq b ≤ MaxUint64;
  w_heap : ∀ p, p ∈ items b → is_Some (heap b !! p);
  w_fresh : ∀ p, (nextp b ≤ p)%nat → heap b !! p = None ∧ cells b !! p = None;
  w_bySeq : ∀ s p, bySeq b !! s = Some p ↔ p ∈ items b ∧ Seq (deref b p) = s;
  w_byID : ∀ id p, byID b !! id = Some p ↔
    p ∈ items b ∧ ID (deref b p) = id ∧ id ≠ ""%string;
  w_byUUID : ∀ u p, byUUID b !! u = Some p →
    p ∈ items b ∧ Uuid (deref b p) = u ∧ IsZero u = false;
  w_bytes : bytes b = zsum (size_of b) (items b);
  w_cells : ∀ p c, p ∈ items b → counter (deref b p) = Some c →
    ∃ cell, cells b !! c = Some cell ∧ cell_ok cell;
  w_cellinj : ∀ p q c, p ∈ items b → q ∈ items b →
    counter (deref b p) = Some c → counter (deref b q) = Some c → p = q;
}.

(** Every stored uuid is indexed, which with [w_byUUID] makes the uuids of a
    scope distinct. *)
Definition uuid_ok (b : scopeBuffer) : Prop :=
  ∀ p, p ∈ items b → IsZero (Uuid (deref b p)) = false → byUUID b !! Uuid (deref b p) = Some p.

(** The observability counter of buffer_stats.go. *)
Definition idkey_ok (b : scopeBuffer) : Prop :=
  idKeyBytes b = zsum (λ p, slen (ID (deref b p))) (items b).

(** ** Consequences *)
Section wf.
Context {b : scopeBuffer} (W : buf_wf b).

Lemma wf_fresh_not_in : nextp b ∉ items b.
Proof.
  intros Hin. destruct (w_heap _ W _ Hin) as [it Hit].
  destruct (w_fresh _ W (nextp b)) as [E _]; [done|]. by rewrite E in Hit.
Qed.

Lemma seqs_lookup i p : items b !! i = Some p → seqs b !! i = Some (Seq (deref b p)).
Proof. intros Hi. unfold seqs. by rewrite list_lookup_fmap, Hi. Qed.

Lemma wf_index_inj i j p q :
  items b !! i = Some p → items b !! j = Some q → Seq (deref b p) = Seq (deref b q) → i = j.
Proof.
  intros Hi%seqs_lookup Hj%seqs_lookup E. rewrite E in Hi.
  exact (sorted_lookup_inj _ _ _ _ (w_sorted _ W) Hi Hj).
Qed.

Lemma wf_seq_inj p q : p ∈ items b → q ∈ items b → Seq (deref b p) = Seq (deref b q) → p = q.
Proof.
  intros [i Hi]%list_elem_of_lookup [j Hj]%list_elem_of_lookup E.
  pose proof (wf_index_inj _ _ _ _ Hi Hj E). subst. congruence.
Qed.

Lemma wf_nodup : NoDup (items b).
Proof.
  apply NoDup_alt. intros i j p Hi Hj. by eapply wf_index_inj.
Qed.

Lemma wf_bytes_nonneg : 48 * Z.of_nat (length (items b)) ≤ bytes b.
Proof.
  rewrite (w_bytes _ W), <- (zsum_const 48). apply zsum_le. intros. apply approxItemSize_pos.
Qed.

Lemma wf_size_le p : p ∈ items b → size_of b p ≤ bytes b.
Proof.
  intros Hp. rewrite (w_bytes _ W). apply (zsum_elem (size_of b)); [|done].
  intros q _. pose proof (approxItemSize_pos (deref b q)). unfold size_of. lia.
Qed.

Lemma seq_at_lookup i p : items b !! i = Some p → seq_at b i = Seq (deref b p).
Proof. intros Hi. unfold seq_at. by rewrite (list_lookup_total_correct _ _ _ Hi). Qed.

Lemma search_cut (P : Z → bool) :
  (∀ x y, x ≤ y → P x = true → P y = true) →
  let r := sort_Search (length (items b)) (λ i, P (seq_at b i)) in
  (r ≤ length (items b))%nat ∧
  (∀ i p, items b !! i = Some p → (i < r)%nat → P (Seq (deref b p)) = false) ∧
  (∀ i p, items b !! i = Some p → (r ≤ i)%nat → P (Seq (deref b p)) = true).
Proof.
  intros HP. cbv zeta.
  assert (sort_Search (length (items b)) (λ i, P (seq_at b i)) =
    sort_Search (length (seqs b)) (λ i, P (seqs b !!! i))) as ->.
  { unfold seqs. rewrite length_fmap. apply search_go_ext. intros k Hk.
    destruct (lookup_lt_is_Some_2 (items b) k) as [p Hp]; [lia|].
    rewrite (seq_at_lookup _ _ Hp). f_equal. symmetry. apply list_lookup_total_correct.
    by apply seqs_lookup. }
  destruct (search_sorted (seqs b) P (w_sorted _ W) HP) as (H1 & H2 & H3).
  split; [by rewrite <- (length_fmap (λ p, Seq (deref b p)) (items b))|].
  split; intros i p Hi Hr; [eapply H2|eapply H3]; eauto using seqs_lookup.
Qed.

(** The binary search finds the position of an item by its seq. *)
Lemma index_hit i p : items b !! i = Some p → indexBySeqLocked b (Seq (deref b p)) = Some i.
Proof.
  intros Hi. unfold indexBySeqLocked.
  destruct (search_cut (λ x, Seq (deref b p) <=? x)) as (H1 & H2 & H3).
  { intros x y ? ?%Z.leb_le. apply Z.leb_le. lia. }
  set (r := sort_Search _ _) in *.
  destruct (decide (i < r)%nat) as [Hlt|Hge].
  { specialize (H2 i p Hi Hlt). by rewrite Z.leb_refl in H2. }
  assert (r < length (items b))%nat as Hrl by (apply lookup_lt_Some in Hi; lia).
  destruct (lookup_lt_is_Some_2 (items b) r Hrl) as [q Hq].
  assert (r = i) as Hri.
  { destruct (decide (r = i)) as [|Hne]; [done|].
    pose proof (sorted_lookup (seqs b) r i _ _ (w_sorted _ W)
      (seqs_lookup _ _ Hq) (seqs_lookup _ _ Hi) ltac:(lia)).
    specialize (H3 r q Hq ltac:(lia)). apply Z.leb_le in H3. lia. }
  rewrite Hri, (seq_at_lookup _ _ Hi), Z.eqb_refl.
  apply lookup_lt_Some in Hi. rewrite (proj2 (Nat.eqb_neq i _)) by lia. done.
Qed.

Lemma index_some s i :
  indexBySeqLocked b s = Some i → ∃ p, items b !! i = Some p ∧ Seq (deref b p) = s.
Proof.
  unfold indexBySeqLocked.
  destruct (search_cut (λ x, s <=? x)) as (H1 & _ & _).
  { intros x y ? ?%Z.leb_le. apply Z.leb_le. lia. }
  set (r := sort_Search _ _) in *.
  destruct (Nat.eqb_spec r (length (items b))) as [|Hne]; [done|]. cbn [orb].
  destruct (lookup_lt_is_Some_2 (items b) r) as [q Hq]; [lia|].
  rewrite (seq_at_lookup _ _ Hq). destruct (Z.eqb_spec (Seq (deref b q)) s); [|done].
  cbn. intros [= <-]. by exists q.
Qed.

Lemma index_ptr p : p ∈ items b →
  ∃ i, items b !! i = Some p ∧ indexBySeqLocked b (Seq (deref b p)) = Some i.
Proof. intros [i Hi]%list_elem_of_lookup. exists i. split; [done|]. by apply index_hit. Qed.
End wf.

(** ** Bookkeeping changes *)
Lemma wf_frame b b' : buf_wf b →
  heap b' = heap b → cells b' = cells b → nextp b' = nextp b → items b' = items b →
  byID b' = byID b → bySeq b' = bySeq b → byUUID b' = byUUID b → lastSeq b' = lastSeq b →
  bytes b' = bytes b → buf_wf b'.
Proof.
  destruct b, b'. cbn. intros [] * -> -> -> -> -> -> -> -> ->.
  constructor; cbn in *; assumption.
Qed.

(** ** Restriction to fewer items *)
Lemma wf_restrict b b' : buf_wf b →
  heap b' = heap b → cells b' = cells b → nextp b' = nextp b → lastSeq b' = lastSeq b →
  sublist (items b') (items b) →
  (∀ s p, bySeq b' !! s = Some p ↔ bySeq b !! s = Some p ∧ p ∈ items b') →
  (∀ id p, byID b' !! id = Some p ↔ byID b !! id = Some p ∧ p ∈ items b') →
  (∀ u p, byUUID b' !! u = Some p →
    p ∈ items b' ∧ Uuid (deref b p) = u ∧ IsZero u = false) →
  bytes b' = zsum (size_of b) (items b') →
  buf_wf b'.
Proof.
  intros W Hh Hc Hn Hl Hsub HS HI HU Hb.
  assert (∀ p, p ∈ items b' → p ∈ items b) as Hin.
  { intros p Hp. by eapply elem_of_submseteq, sublist_submseteq. }
  assert (∀ p, deref b' p = deref b p) as Hd by (intros; unfold deref; by rewrite Hh).
  constructor.
  - eapply sorted_sublist, (w_sorted _ W). unfold seqs.
    rewrite (list_fmap_ext (λ p, Seq (deref b' p)) (λ p, Seq (deref b p)) (items b'))
      by (intros; by rewrite Hd). by apply fmap_sublist.
  - intros p Hp. rewrite Hd, Hl. apply (w_range _ W), Hin, Hp.
  - rewrite Hl. apply (w_last _ W).
  - intros p Hp. rewrite Hh. apply (w_heap _ W), Hin, Hp.
  - intros p Hp. rewrite Hh, Hc. apply (w_fresh _ W). by rewrite <- Hn.
  - intros s p. rewrite HS, (w_bySeq _ W), Hd. naive_solver.
  - intros id p. rewrite HI, (w_byID _ W), Hd. naive_solver.
  - intros u p Hp. rewrite Hd. by apply HU.
  - rewrite Hb. apply zsum_ext. intros p _. unfold size_of. by rewrite Hd.
  - intros p c Hp. rewrite Hd, Hc. apply (w_cells _ W), Hin, Hp.
  - intros p q c Hp Hq. rewrite !Hd. apply (w_cellinj _ W); auto.
Qed.

(** ** An in-place write through a pointer

  All indexes alias the item, so a write that keeps its keys keeps them exact. *)
Definition set_ptr (b : scopeBuffer) (p : nat) (it : Item) : scopeBuffer := Eval fields in
  b <| heap := <[p := it]> (heap b) |>
    <| bytes := bytes b + (approxItemSize it - size_of b p) |>.

Lemma deref_set_eq b p it : deref (set_ptr b p it) p = it.
Proof. unfold deref. cbn. apply lookup_total_insert_eq. Qed.
Lemma deref_set_ne b p q it : q ≠ p → deref (set_ptr b p it) q = deref b q.
Proof. intros. unfold deref. cbn. by apply lookup_total_insert_ne. Qed.

Lemma wf_set b p it : buf_wf b → p ∈ items b →
  Seq it = Seq (deref b p) → ID it = ID (deref b p) → Uuid it = Uuid (deref b p) →
  (∀ c, counter it = Some c →
    (∃ cell, cells b !! c = Some cell ∧ cell_ok cell) ∧
    ∀ q, q ∈ items b → q ≠ p → counter (deref b q) ≠ Some c) →
  buf_wf (set_ptr b p it).
Proof.
  intros W Hp HS HI HU HC.
  assert (∀ q, Seq (deref (set_ptr b p it) q) = Seq (deref b q)) as ES.
  { intros q. destruct (decide (q = p)) as [->|]; [by rewrite deref_set_eq|by rewrite deref_set_ne]. }
  assert (∀ q, ID (deref (set_ptr b p it) q) = ID (deref b q)) as EI.
  { intros q. destruct (decide (q = p)) as [->|]; [by rewrite deref_set_eq|by rewrite deref_set_ne]. }
  assert (∀ q, Uuid (deref (set_ptr b p it) q) = Uuid (deref b q)) as EU.
  { intros q. destruct (decide (q = p)) as [->|]; [by rewrite deref_set_eq|by rewrite deref_set_ne]. }
  constructor; cbn [items lastSeq bySeq byID byUUID nextp cells set_ptr].
  - unfold seqs. cbn [items set_ptr].
    rewrite (list_fmap_ext _ (λ p, Seq (deref b p)) _ (λ i q _, ES q)). apply (w_sorted _ W).
  - intros q Hq. rewrite ES. by apply (w_range _ W).
  - apply (w_last _ W).
  - intros q Hq. cbn. destruct (decide (q = p)) as [->|]; simplify_map_eq; [done|by apply (w_heap _ W)].
  - intros q Hq. cbn. pose proof (w_fresh _ W q Hq) as [E1 E2]. split; [|done].
    rewrite lookup_insert_ne; [done|]. intros <-. destruct (w_heap _ W _ Hp). congruence.
  - intros s q. rewrite ES. apply (w_bySeq _ W).
  - intros id q. rewrite EI. apply (w_byID _ W).
  - intros u q. rewrite EU. apply (w_byUUID _ W).
  - apply list_elem_of_split in Hp as (l1 & l2 & Hl).
    pose proof (wf_nodup W) as Hnd. rewrite Hl in Hnd.
    apply NoDup_app in Hnd as (_ & Hnd1 & Hnd2). apply NoDup_cons in Hnd2 as [Hnd2 _].
    cbn. rewrite (w_bytes _ W), Hl, !zsum_app. cbn [zsum].
    assert (∀ q, q ≠ p → size_of (set_ptr b p it) q = size_of b q) as En
      by (intros; unfold size_of; by rewrite deref_set_ne).
    rewrite (zsum_ext (size_of (set_ptr b p it)) (size_of b) l1)
      by (intros q Hq; apply En; intros ->; apply (Hnd1 p Hq); by left).
    rewrite (zsum_ext (size_of (set_ptr b p it)) (size_of b) l2)
      by (intros q Hq; apply En; by intros ->).
    assert (size_of (set_ptr b p it) p = approxItemSize it) as ->
      by (unfold size_of; by rewrite deref_set_eq). lia.
  - intros q c Hq. destruct (decide (q = p)) as [->|].
    + rewrite deref_set_eq. intros Hc. by apply HC.
    + rewrite deref_set_ne by done. by apply (w_cells _ W).
  - intros q r c Hq Hr. destruct (decide (q = p)) as [->|], (decide (r = p)) as [->|]; [done| | |].
    + rewrite deref_set_eq, deref_set_ne by done. intros Hc Hrc. exfalso. by eapply (proj2 (HC c Hc) r).
    + rewrite deref_set_eq, deref_set_ne by done. intros Hrc Hc. exfalso. by eapply (proj2 (HC c Hc) q).
    + rewrite !deref_set_ne by done. by apply (w_cellinj _ W).
Qed.

(** ** A new counter cell *)
Definition alloc_cell (b : scopeBuffer) (cell : counterCell) : scopeBuffer := Eval fields in
  b <| cells := <[nextp b := cell]> (cells b) |> <| nextp := S (nextp b) |>.

Lemma wf_alloc_cell b cell : buf_wf b → buf_wf (alloc_cell b cell).
Proof.
  intros W. destruct W. constructor; cbn; try assumption.
  - intros p Hp. destruct (w_fresh0 p ltac:(lia)) as [? ?]. split; [done|].
    rewrite lookup_insert_ne; [done|lia].
  - intros p c Hp Hc. destruct (w_cells0 p c Hp Hc) as (cl & Hcl & Hok).
    exists cl. split; [|done]. rewrite lookup_insert_ne; [done|]. intros <-.
    destruct (w_fresh0 (nextp b) ltac:(lia)). congruence.
Qed.

Lemma alloc_cell_unused b q : buf_wf b → q ∈ items b → counter (deref b q) ≠ Some (nextp b).
Proof.
  intros W Hq Hc. destruct (w_cells _ W q _ Hq Hc) as (cl & Hcl & _).
  destruct (w_fresh _ W (nextp b)) as [_ ?]; [done|]. congruence.
Qed.

(** ** Appending an item *)
Definition push (b : scopeBuffer) (it : Item) : scopeBuffer := Eval fields in
  b <| heap := <[nextp b := it]> (heap b) |>
    <| nextp := S (nextp b) |>
    <| items := items b ++ [nextp b] |>
    <| lastSeq := Seq it |>
    <| bySeq := <[Seq it := nextp b]> (bySeq b) |>
    <| byID := if bool_decide (ID it = "") then byID b else <[ID it := nextp b]> (byID b) |>
    <| byUUID := if IsZero (Uuid it) then byUUID b else <[Uuid it := nextp b]> (byUUID b) |>
    <| bytes := bytes b + approxItemSize it |>.

Lemma deref_push_new b it : deref (push b it) (nextp b) = it.
Proof. unfold deref. cbn. apply lookup_total_insert_eq. Qed.
Lemma deref_push_old b it p : p ≠ nextp b → deref (push b it) p = deref b p.
Proof. intros. unfold deref. cbn. by apply lookup_total_insert_ne. Qed.

Lemma wf_push b it : buf_wf b →
  Seq it = lastSeq b + 1 → Seq it ≤ MaxUint64 →
  (ID it ≠ ""%string → byID b !! ID it = None) →
  (∀ c, counter it = Some c →
    (∃ cell, cells b !! c = Some cell ∧ cell_ok cell) ∧
    ∀ q, q ∈ items b → counter (deref b q) ≠ Some c) →
  buf_wf (push b it).
Proof.
  intros W HS Hmax HI HC.
  assert (∀ p, p ∈ items b → p ≠ nextp b) as Hne
    by (intros p Hp ->; by apply (wf_fresh_not_in W)).
  assert (∀ p, p ∈ items b → deref (push b it) p = deref b p) as Hold
    by (intros; apply deref_push_old; auto).
  constructor; cbn [items lastSeq nextp cells push].
  - unfold seqs. change (items (push b it)) with (items b ++ [nextp b]).
    rewrite fmap_app. cbn [fmap list_fmap]. rewrite deref_push_new.
    rewrite (list_fmap_ext _ (λ p, Seq (deref b p)) (items b)
      (λ i p Hp, f_equal Seq (Hold p (list_elem_of_lookup_2 _ _ _ Hp)))).
    apply sorted_snoc; [apply (w_sorted _ W)|].
    intros y (p & -> & Hp)%list_elem_of_fmap. pose proof (w_range _ W p Hp). lia.
  - intros p [Hp| ->%list_elem_of_singleton]%elem_of_app.
    + rewrite Hold by done. pose proof (w_range _ W p Hp). cbn. lia.
    + rewrite deref_push_new. pose proof (w_last _ W). cbn. lia.
  - pose proof (w_last _ W). cbn. lia.
  - intros p [Hp| ->%list_elem_of_singleton]%elem_of_app; cbn.
    + rewrite lookup_insert_ne by (apply not_eq_sym; auto). by apply (w_heap _ W).
    + by rewrite lookup_insert_eq.
  - intros p Hp. cbn in *. destruct (w_fresh _ W p) as [? ?]; [lia|].
    rewrite lookup_insert_ne by lia. done.
  - intros s p. cbn. rewrite elem_of_app, list_elem_of_singleton. split.
    + rewrite lookup_insert_Some. intros [[<- <-]|[Hs Hp]].
      * split; [by right|]. by rewrite deref_push_new.
      * apply (w_bySeq _ W) in Hp as [Hp Hps]. split; [by left|]. by rewrite Hold.
    + intros [[Hp| ->] Hps].
      * rewrite Hold in Hps by done. pose proof (w_range _ W p Hp).
        rewrite lookup_insert_ne by lia. by apply (w_bySeq _ W).
      * rewrite deref_push_new in Hps. subst s. by rewrite lookup_insert_eq.
  - intros id p. cbn. rewrite elem_of_app, list_elem_of_singleton.
    case_bool_decide as Hid.
    + rewrite (w_byID _ W). split.
      * intros (Hp & Hpi & ?). split; [by left|]. by rewrite Hold.
      * intros ([Hp| ->] & Hpi & ?); [by rewrite Hold in Hpi|].
        rewrite deref_push_new in Hpi. congruence.
    + rewrite lookup_insert_Some, (w_byID _ W). split.
      * intros [[<- <-]|(Hidn & Hp & Hpi & ?)].
        -- split; [by right|]. by rewrite deref_push_new.
        -- split; [by left|]. by rewrite Hold.
      * intros ([Hp| ->] & Hpi & ?).
        -- rewrite Hold in Hpi by done. right. split; [|done]. intros E.
           assert (byID b !! id = Some p) as Hx by (by apply (w_byID _ W)).
           rewrite <- E, HI in Hx; done.
        -- rewrite deref_push_new in Hpi. by left.
  - intros u p. cbn. rewrite elem_of_app, list_elem_of_singleton.
    destruct (IsZero (Uuid it)) eqn:Hz.
    + intros Hp%(w_byUUID _ W). destruct Hp as (Hp & ? & ?). rewrite Hold by done. auto.
    + rewrite lookup_insert_Some. intros [[<- <-]|[? Hp%(w_byUUID _ W)]].
      * rewrite deref_push_new. auto.
      * destruct Hp as (Hp & ? & ?). rewrite Hold by done. auto.
  - cbn. rewrite zsum_app. cbn [zsum].
    assert (size_of (push b it) (nextp b) = approxItemSize it) as ->
      by (unfold size_of; by rewrite deref_push_new).
    rewrite (zsum_ext (size_of (push b it)) (size_of b))
      by (intros p Hp; unfold size_of; by rewrite Hold).
    rewrite (w_bytes _ W). lia.
  - intros p c [Hp| ->%list_elem_of_singleton]%elem_of_app; cbn.
    + rewrite Hold by done. by apply (w_cells _ W).
    + rewrite deref_push_new. intros Hc. by apply HC.
  - intros p q c [Hp| ->%list_elem_of_singleton]%elem_of_app
      [Hq| ->%list_elem_of_singleton]%elem_of_app; cbn; rewrite ?deref_push_new, ?Hold by done.
    + by apply (w_cellinj _ W).
    + intros Hc Hn. exfalso. by eapply (proj2 (HC c Hn) p).
    + intros Hn Hc. exfalso. by eapply (proj2 (HC c Hn) q).
    + done.
Qed.
