(* ===== verification/BufferSpec.v ===== *)
(** * What a buffer operation promises

  [view] is the abstract content of a scope: its items oldest first, each with
  the state of its counter cell. [buf_pre] is what an operation may assume of
  the buffer and the store counters, [bstep] the part of its contract that does
  not depend on the operation: accounting moves in step with the buffer, the
  byte counter does not pass the cap, well-formedness is kept. The store's
  theorems use only this contract. The byte counter may differ from the bytes
  really held, either way, while a /warm has reserved and not yet committed. *)
From S2P Require Import Prelude GoStd Uuid Types Buffer BufferInv.

(** ** Abstract content *)
Definition aitem : Type := Item * option counterCell.
Definition no_pointer (it : Item) : Item := Eval fields in it <| counter := None |>.
Definition view_item (b : scopeBuffer) (p : nat) : aitem :=
  (no_pointer (deref b p), counter (deref b p) ≫= λ c, cells b !! c).
Definition view (b : scopeBuffer) : list aitem := view_item b <$> items b.

Definition scope_ok (s : string) (b : scopeBuffer) : Prop :=
  ∀ p, p ∈ items b → Scope (deref b p) = s.

(** The uuid index is complete after an operation when it was before, as long as
    no two items of the scope end up with the same uuid. *)
Definition distinct_uuids (l : list aitem) : Prop := ∀ i j e f,
  l !! i = Some e → l !! j = Some f → Uuid e.1 = Uuid f.1 → IsZero (Uuid e.1) = false → i = j.
Definition index_kept (b b' : scopeBuffer) : Prop :=
  uuid_ok b → distinct_uuids (view b') → uuid_ok b'.

(** What a reservation may bring the byte counter to: the cap, or no higher
    than it is (a release always succeeds). *)
Abbreviation ceiling a := (Z.max maxStoreBytes (totalBytes a)).

Section Spec.
Context `{Env} `{Caps}.

Record buf_pre (b : scopeBuffer) (a : acct) : Prop := {
  p_wf : buf_wf b;
  p_att : attached b = true;
  p_items : Z.of_nat (length (items b)) ≤ totalItems a;
  p_rest : 48 * (totalItems a - Z.of_nat (length (items b)))
           ≤ totalBytes a - bytes b + (MaxInt64 - maxStoreBytes);
  p_top : totalBytes a ≤ MaxInt64;
  p_bytes : bytes b ≤ MaxInt64;
  p_max : 0 ≤ maxStoreBytes ≤ MaxInt64;
}.

Record bstep (b : scopeBuffer) (a : acct) (b' : scopeBuffer) (a' : acct) : Prop := {
  bs_wf : buf_wf b';
  bs_index : index_kept b b';
  bs_bytes : totalBytes a' - totalBytes a = bytes b' - bytes b;
  bs_items : totalItems a' - totalItems a
    = Z.of_nat (length (items b')) - Z.of_nat (length (items b));
  bs_cap : totalBytes a' ≤ ceiling a;
  bs_scopes : scopeCount a' = scopeCount a;
  bs_drops : eventsDropsTotal a' = eventsDropsTotal a;
  bs_ts : store_lastWriteTS a ≤ store_lastWriteTS a';
  bs_att : attached b' = attached b;
  bs_det : detached b' = detached b;
  bs_maxItems : maxItems b' = maxItems b;
  bs_maxBytes : buf_maxItemBytes b' = buf_maxItemBytes b;
  bs_created : createdTS b' = createdTS b;
  bs_count : maxItems b ≤ 0 ∨
    (length (items b') ≤ Nat.max (length (items b)) (Z.to_nat (maxItems b)))%nat;
}.

Lemma bstep_refl b a : buf_pre b a → bstep b a b a.
Proof. intros []. constructor; try done; try lia. by intros ? ?. Qed.

Lemma pre_bytes b a : buf_pre b a →
  0 ≤ bytes b ≤ MaxInt64 ∧ bytes b ≤ totalBytes a + (MaxInt64 - maxStoreBytes).
Proof. intros P. destruct P. pose proof (wf_bytes_nonneg p_wf0). lia. Qed.

(** After a step the buffer may run its next operation. *)
Lemma bstep_pre b a b' a' : buf_pre b a → bstep b a b' a' → buf_pre b' a'.
Proof.
  intros P []. pose proof (pre_bytes _ _ P). destruct P.
  constructor; try done; try congruence; lia.
Qed.

(** ** The counters after an operation *)
Definition acct_add (db di : Z) (a : acct) : acct :=
  mkacct (totalBytes a + db) (totalItems a + di) (scopeCount a) (store_lastWriteTS a)
    (eventsDropsTotal a).
Definition acct_bump (ts : Z) (a : acct) : acct :=
  mkacct (totalBytes a) (totalItems a) (scopeCount a) (Z.max (store_lastWriteTS a) ts)
    (eventsDropsTotal a).

Lemma bump_run ts b a t : bumpLastWriteTS ts (mkctx b a t) = (tt, mkctx b (acct_bump ts a) t).
Proof.
  unfold bumpLastWriteTS, modify_acct, acct_bump, set_store_lastWriteTS. cbn. do 2 f_equal.
  destruct a. cbn. ztests; f_equal; lia.
Qed.

Lemma reserve_run d b a t :
  maxStoreBytes - MaxInt64 ≤ totalBytes a ≤ MaxInt64 → 0 ≤ maxStoreBytes ≤ MaxInt64 →
  MinInt64 ≤ totalBytes a + d →
  reserveBytes d (mkctx b a t) =
    if totalBytes a + d <=? ceiling a
    then ((true, totalBytes a + d, maxStoreBytes), mkctx b (acct_add d 0 a) t)
    else ((false, totalBytes a, maxStoreBytes), mkctx b a t).
Proof.
  intros H1 H2 H3. unfold reserveBytes, add_totalBytes, modify_acct, get_acct, gets, bind, ret.
  unfold set_totalBytes, acct_add. destruct a as [tb ti sc lw ed]. cbn in *.
  destruct (Z.leb_spec d 0); cbn.
  - rewrite i64_id by (unfold in_i64, MinInt64, MaxInt64 in *; lia).
    destruct (Z.leb_spec (tb + d) (Z.max maxStoreBytes tb)); [|lia]. by rewrite Z.add_0_r.
  - rewrite (i64_id (maxStoreBytes - tb)) by (unfold in_i64, MinInt64, MaxInt64 in *; lia).
    destruct (Z.ltb_spec (maxStoreBytes - tb) d), (Z.leb_spec (tb + d) (Z.max maxStoreBytes tb)); try lia; [done|].
    cbn. rewrite i64_id by (unfold in_i64, MinInt64, MaxInt64 in *; lia). by rewrite Z.add_0_r.
Qed.

(** A growing reservation is granted below the cap only. *)
Lemma reserve_grow d b a t : 0 < d →
  maxStoreBytes - MaxInt64 ≤ totalBytes a ≤ MaxInt64 → 0 ≤ maxStoreBytes ≤ MaxInt64 →
  reserveBytes d (mkctx b a t) =
    if totalBytes a + d <=? maxStoreBytes
    then ((true, totalBytes a + d, maxStoreBytes), mkctx b (acct_add d 0 a) t)
    else ((false, totalBytes a, maxStoreBytes), mkctx b a t).
Proof.
  intros Hd Ht Hm. rewrite reserve_run by (unfold MinInt64, MaxInt64 in *; lia).
  by destruct (Z.leb_spec (totalBytes a + d) (ceiling a)), (Z.leb_spec (totalBytes a + d) maxStoreBytes); try lia.
Qed.

Lemma add_bytes_run d b a t : in_i64 (totalBytes a + d) →
  add_totalBytes d (mkctx b a t) = (totalBytes a + d, mkctx b (acct_add d 0 a) t).
Proof.
  intros Hd. unfold add_totalBytes, modify_acct, get_acct, gets, bind, ret, set_totalBytes, acct_add.
  cbn. rewrite (i64_id (totalBytes a + d)) by done. by rewrite Z.add_0_r.
Qed.

Lemma add_items_run d b a t : in_i64 (totalItems a + d) →
  add_totalItems d (mkctx b a t) = (tt, mkctx b (acct_add 0 d a) t).
Proof.
  intros Hd. unfold add_totalItems, modify_acct, set_totalItems, acct_add.
  cbn. rewrite i64_id by done. by rewrite Z.add_0_r.
Qed.

Lemma bind_mint {B} (k : UUID → M B) b a t :
  bind mintUUID k (mkctx b a t) =
  k (newUUIDv7 (u64 (clk_milli t)) (rnd (S t)) (rnd (S (S t)))) (mkctx b a (S (S (S t)))).
Proof. reflexivity. Qed.
Lemma bind_now {B} (k : Z → M B) b a t :
  bind nowUnixMicro k (mkctx b a t) = k (clk_micro t) (mkctx b a (S t)).
Proof. reflexivity. Qed.
Lemma bind_get_buf {B} (k : scopeBuffer → M B) b a t :
  bind get_buf k (mkctx b a t) = k b (mkctx b a t).
Proof. reflexivity. Qed.
Lemma bind_modify_buf {B} (k : unit → M B) f b a t :
  bind (modify_buf f) k (mkctx b a t) = k tt (mkctx (f b) a t).
Proof. reflexivity. Qed.
End Spec.

(** ** The content after the primitive changes *)
Lemma view_frame b b' :
  heap b' = heap b → cells b' = cells b → items b' = items b → view b' = view b.
Proof. destruct b, b'. cbn. by intros -> -> ->. Qed.

Lemma view_push b it : buf_wf b →
  view (push b it) = view b ++ [(no_pointer it, counter it ≫= λ c, cells b !! c)].
Proof.
  intros W. unfold view. cbn [push items]. rewrite fmap_app. f_equal.
  - apply list_fmap_ext. intros i p Hp%list_elem_of_lookup_2. unfold view_item.
    rewrite deref_push_old; [done|]. intros ->. by apply (wf_fresh_not_in W).
  - cbn. unfold view_item. by rewrite deref_push_new.
Qed.

Lemma view_alloc_cell b cell : buf_wf b → view (alloc_cell b cell) = view b.
Proof.
  intros W. unfold view. apply list_fmap_ext. intros i p Hp%list_elem_of_lookup_2.
  unfold view_item. change (deref (alloc_cell b cell) p) with (deref b p). f_equal.
  destruct (counter (deref b p)) as [c|] eqn:Hc; [|done]. cbn.
  destruct (w_cells _ W p c Hp Hc) as (cl & Hcl & _). rewrite lookup_insert_ne; [done|].
  intros <-. destruct (w_fresh _ W (nextp b)); [done|]. congruence.
Qed.

(** An in-place write changes one position. *)
Lemma view_set b i p it : buf_wf b → items b !! i = Some p →
  view (set_ptr b p it) = <[i := (no_pointer it, counter it ≫= λ c, cells b !! c)]> (view b).
Proof.
  intros W Hi. apply list_eq. intros j. unfold view. cbn [set_ptr items].
  destruct (decide (i = j)) as [<-|Hne].
  - rewrite list_lookup_insert_eq by (rewrite length_fmap; by eapply lookup_lt_Some).
    rewrite list_lookup_fmap, Hi. cbn. unfold view_item. by rewrite deref_set_eq.
  - rewrite list_lookup_insert_ne, !list_lookup_fmap by done.
    destruct (items b !! j) as [q|] eqn:Hj; [|done]. cbn. unfold view_item.
    rewrite deref_set_ne; [done|]. intros ->. apply Hne.
    eapply (NoDup_lookup (items b)); eauto using wf_nodup.
Qed.

Lemma view_restrict b b' :
  heap b' = heap b → cells b' = cells b → view b' = view_item b <$> items b'.
Proof. destruct b, b'. cbn. by intros -> ->. Qed.

(** ** The uuid index after the primitive changes *)
Lemma kept_keys b b' : items b' = items b → byUUID b' = byUUID b →
  (∀ p, p ∈ items b → Uuid (deref b' p) = Uuid (deref b p)) → index_kept b b'.
Proof. intros Ei Eu Ed U _ p. rewrite Ei, Eu. intros Hp. rewrite Ed by done. by apply U. Qed.

Lemma index_subset b b' : heap b' = heap b → (∀ p, p ∈ items b' → p ∈ items b) →
  (∀ u p, p ∈ items b' → byUUID b !! u = Some p → byUUID b' !! u = Some p) → uuid_ok b → uuid_ok b'.
Proof.
  intros Eh Hi Hu U p Hp. assert (deref b' p = deref b p) as -> by (unfold deref; by rewrite Eh).
  intros Hz. apply Hu; [done|]. apply U; [by apply Hi|done].
Qed.

Lemma kept_push b b' n it : n ∉ items b → heap b' = <[n := it]> (heap b) →
  items b' = items b ++ [n] →
  byUUID b' = (if IsZero (Uuid it) then byUUID b else <[Uuid it := n]> (byUUID b)) → index_kept b b'.
Proof.
  intros Hn Eh Ei Eu U D.
  assert (deref b' n = it) as En by (unfold deref; rewrite Eh; apply lookup_total_insert_eq).
  assert (∀ p, p ∈ items b → deref b' p = deref b p) as Eo.
  { intros p Hp. unfold deref. rewrite Eh. apply lookup_total_insert_ne. by intros ->. }
  assert (∀ i p, items b' !! i = Some p → view b' !! i = Some (view_item b' p)) as Hv.
  { intros i p Hi. unfold view. by rewrite list_lookup_fmap, Hi. }
  intros p. rewrite Ei, Eu. intros [Hp| ->%list_elem_of_singleton]%elem_of_app Hz.
  - assert (Uuid (deref b' p) ≠ Uuid it) as Hne.
    { intros E. apply list_elem_of_lookup in Hp as [i Hi].
      assert (i = length (items b)) as ->; [|apply lookup_lt_Some in Hi; lia].
      apply (D i (length (items b)) (view_item b' p) (view_item b' n)); [apply Hv|apply Hv| |done].
      - rewrite Ei. by apply lookup_app_l_Some.
      - rewrite Ei. by apply list_lookup_middle.
      - change (Uuid (deref b' p) = Uuid (deref b' n)). by rewrite En. }
    rewrite Eo in Hz, Hne |- * by done. destruct (IsZero (Uuid it)); [by apply U|].
    rewrite lookup_insert_ne by done. by apply U.
  - rewrite En in Hz |- *. rewrite Hz. apply lookup_insert_eq.
Qed.
