(* ===== verification/BufferWrite.v ===== *)
(** * buffer_write.go: append, upsert, update *)
From S2P Require Import Prelude GoStd Uuid Types Buffer BufferInv BufferSpec.

Section BufferWrite.
Context `{Env} `{Caps}.

(** The capacity [append] leaves behind. *)
Definition append_cap (b : scopeBuffer) : nat :=
  if (length (items b) <? itemsCap b)%nat then itemsCap b else growcap (itemsCap b).

(** insertNewItemLocked, from [b.lastSeq++] to [b.bytes += size]: one heap item
    shared by every index. *)
Definition store_fields (item : Item) (size : Z) (b : scopeBuffer) : scopeBuffer := Eval fields in
  let stored := nextp b in
  let item := item <| Seq := u64 (lastSeq b + 1) |> in
  b <| lastSeq := u64 (lastSeq b + 1) |>
    <| heap := <[stored := item]> (heap b) |>
    <| nextp := S stored |>
    <| items := items b ++ [stored] |>
    <| itemsCap := append_cap b |>
    <| bySeq := <[Seq item := stored]> (bySeq b) |>
    <| byID := if bool_decide (ID item = "") then byID b else <[ID item := stored]> (byID b) |>
    <| idKeyBytes := if bool_decide (ID item = "") then idKeyBytes b
                     else i64 (idKeyBytes b + slen (ID item)) |>
    <| byUUID := if IsZero (Uuid item) then byUUID b else <[Uuid item := stored]> (byUUID b) |>
    <| firstUUID := if IsZero (Uuid item) then firstUUID b
                    else if IsZero (firstUUID b) then Uuid item else firstUUID b |>
    <| lastUUID := if IsZero (Uuid item) then lastUUID b else Uuid item |>
    <| bytes := i64 (bytes b + size) |>.

Definition with_ts (nowUs : Z) (item : Item) : Item := Eval fields in
  item <| counter := None |> <| Ts := nowUs |>.
Definition with_render (item : Item) : Item := Eval fields in
  match renderBytes item with
  | None => item <| renderBytes := precomputeRenderBytes (Payload item) |>
  | Some _ => item
  end.
Definition with_uuid (u : UUID) (item : Item) : Item := Eval fields in item <| Uuid := u |>.
Definition with_seq (s : Z) (item : Item) : Item := Eval fields in item <| Seq := s |>.

Definition insertNewItemLocked (item : Item) (nowUs : Z) (mintedUUID : UUID)
    : M (result error Item) :=
  let item := with_render (with_ts nowUs item) in
  let* b := get_buf in
  let item := if attached b && IsZero (Uuid item) then with_uuid mintedUUID item else item in
  let size := approxItemSize item in
  let? _ := (if attached b then
               if buf_maxItemBytes b <? size
               then ret (Err (ErrItemCap size (buf_maxItemBytes b) (Scope item)))
               else
                 let* r := reserveBytes size in
                 let '(ok, current, max) := r in
                 if (ok : bool) then ret (Ok tt) else ret (Err (StoreFullError current size max))
             else ret (Ok tt)) in
  modify_buf (store_fields item size) ;;;
  let item := with_seq (u64 (lastSeq b + 1)) item in
  (if attached b then add_totalItems 1 ;;; bumpLastWriteTS nowUs else ret tt) ;;;
  modify_buf (set_lastWriteTS nowUs) ;;;
  ret (Ok item).

Definition appendItem (item : Item) : M (result error Item) :=
  let* mintedUUID := mintUUID in
  let* b := get_buf in
  if detached b then ret (Err ScopeDetachedError)
  else if itemCapExceeded b (Z.of_nat (length (items b)) + 1) then
    ret (Err (ScopeFullError (Z.of_nat (length (items b))) (maxItems b)))
  else if negb (bool_decide (ID item = "")) && bool_decide (is_Some (byID b !! ID item)) then
    ret (Err (ErrText "an item with this 'id' already exists in the scope"))
  else
    let* now := nowUnixMicro in
    insertNewItemLocked item now mintedUUID.

(** [newRender := preRender; if newRender == nil { precompute }], the fallback of
    every replacing path. *)
Definition render_of (pre payload : slice) : slice :=
  match pre with None => precomputeRenderBytes payload | Some r => Some r end.

(** The replace branch of upsertByID and its miss branch. The unreachable
    index miss returns the zero item, as the code does. *)
Definition upsertByID (item : Item) : M (result error (Item * bool)) :=
  let* mintedUUID := mintUUID in
  let* b := get_buf in
  if detached b then ret (Err ScopeDetachedError)
  else
    let* nowUs := nowUnixMicro in
    match byID b !! ID item with
    | Some p =>
        let existing := deref b p in
        let newRender := render_of (renderBytes item) (Payload item) in
        let delta := i64 (blen (Payload item) + blen newRender - payloadAndRenderBytes existing) in
        let? _ := (if attached b && negb (delta =? 0) then
                     let* r := reserveBytes delta in
                     let '(ok, current, max) := r in
                     if (ok : bool) then ret (Ok tt)
                     else ret (Err (StoreFullError current delta max))
                   else ret (Ok tt)) in
        match indexBySeqLocked b (Seq existing) with
        | None => ret (Ok (zeroItem, false))
        | Some i =>
            let p := items b !!! i in
            write_item p (replace_fields (Payload item) nowUs newRender) ;;;
            modify_buf (λ b, set_bytes (i64 (bytes b + delta)) b) ;;;
            modify_buf (set_lastWriteTS nowUs) ;;;
            (if attached b then bumpLastWriteTS nowUs else ret tt) ;;;
            let* b := get_buf in
            ret (Ok (deref b p, false))
        end
    | None =>
        if itemCapExceeded b (Z.of_nat (length (items b)) + 1) then
          ret (Err (ScopeFullError (Z.of_nat (length (items b))) (maxItems b)))
        else
          let? inserted := insertNewItemLocked item nowUs mintedUUID in
          ret (Ok (inserted, true))
    end.

Definition updateByID (id : string) (payload preRender : slice) : M (result error Z) :=
  let* b := get_buf in
  if detached b then ret (Err ScopeDetachedError)
  else match byID b !! id with
  | None => ret (Ok 0)
  | Some p =>
      let existing := deref b p in
      let newRender := render_of preRender payload in
      let? delta := reservePayloadDeltaLocked (payloadAndRenderBytes existing)
                      (blen payload + blen newRender) in
      match indexBySeqLocked b (Seq existing) with
      | None => ret (Ok 0)
      | Some i =>
          let* now := nowUnixMicro in
          replaceItemAtIndexLocked i payload now newRender delta ;;;
          ret (Ok 1)
      end
  end.

(** The per-item cap re-check of updateBySeq and updateByUUID. *)
Definition too_large_reason (size maxBytes : Z) : string :=
  "the item's approximate size (" +:+ FormatInt size +:+
  " bytes) exceeds the maximum of " +:+ FormatInt maxBytes +:+ " bytes".
Definition update_candidate (existing : Item) (payload newRender : slice) : Item :=
  mkItem (Scope existing) (ID existing) 0 0 (Uuid existing) payload newRender None.

Definition updateBySeq (seq : Z) (payload preRender : slice) : M (result error Z) :=
  let* b := get_buf in
  if detached b then ret (Err ScopeDetachedError)
  else match bySeq b !! seq with
  | None => ret (Ok 0)
  | Some p =>
      let existing := deref b p in
      let newRender := render_of preRender payload in
      let maxB := maxItemBytesFor (Scope existing) in
      let size := approxItemSize (update_candidate existing payload newRender) in
      if attached b && (maxB <? size) then ret (Err (ErrInvalidInput (too_large_reason size maxB)))
      else
        let? delta := reservePayloadDeltaLocked (payloadAndRenderBytes existing)
                        (blen payload + blen newRender) in
        match indexBySeqLocked b seq with
        | None => ret (Ok 0)
        | Some i =>
            let* now := nowUnixMicro in
            replaceItemAtIndexLocked i payload now newRender delta ;;;
            ret (Ok 1)
        end
  end.

Definition updateByUUID (u : UUID) (payload preRender : slice) : M (result error Z) :=
  let* b := get_buf in
  if detached b then ret (Err ScopeDetachedError)
  else match byUUID b !! u with
  | None => ret (Ok 0)
  | Some p =>
      let existing := deref b p in
      let newRender := render_of preRender payload in
      let maxB := maxItemBytesFor (Scope existing) in
      let size := approxItemSize (update_candidate existing payload newRender) in
      if attached b && (maxB <? size) then ret (Err (ErrInvalidInput (too_large_reason size maxB)))
      else
        let? delta := reservePayloadDeltaLocked (payloadAndRenderBytes existing)
                        (blen payload + blen newRender) in
        match indexBySeqLocked b (Seq existing) with
        | None => ret (Ok 0)
        | Some i =>
            let* now := nowUnixMicro in
            replaceItemAtIndexLocked i payload now newRender delta ;;;
            ret (Ok 1)
        end
  end.
End BufferWrite.
