(* ===== verification/BufferWriteSpec.v ===== *)
(** * What append, upsert and update do

  For each operation: its result and final state on every branch, the contract
  [bstep], and the new content of the scope. *)
From S2P Require Import Prelude GoStd Uuid Types Buffer BufferInv BufferSpec BufferWrite.

Section Spec.
Context `{Env} `{Caps}.

(** The uuid [newUUIDv7] mints at tick [t]. *)
Definition minted (t : nat) : UUID := newUUIDv7 (u64 (clk_milli t)) (rnd (S t)) (rnd (S (S t))).

(** The item insertNewItemLocked stores in an attached buffer. *)
Definition stamped (item : Item) (nowUs : Z) (u : UUID) : Item :=
  let item := with_render (with_ts nowUs item) in
  if IsZero (Uuid item) then with_uuid u item else item.
Definition inserted (b : scopeBuffer) (item : Item) (nowUs : Z) (u : UUID) : Item :=
  with_seq (lastSeq b + 1) (stamped item nowUs u).

Lemma stamped_fields item nowUs u :
  let it := stamped item nowUs u in
  Scope it = Scope item ∧ ID it = ID item ∧ Seq it = Seq item ∧ Ts it = nowUs ∧
  Payload it = Payload item ∧ counter it = None ∧
  Uuid it = (if IsZero (Uuid item) then u else Uuid item) ∧
  renderBytes it = render_of (renderBytes item) (Payload item).
Proof.
  unfold stamped, with_ts, with_render, with_uuid.
  destruct item as [? ? ? ? u' ? [] ?]; cbn -[IsZero]; destruct (IsZero u'); cbn; auto 10.
Qed.

Lemma with_seq_size s it : approxItemSize (with_seq s it) = approxItemSize it.
Proof. reflexivity. Qed.

Lemma length_size b : buf_wf b → ∀ a, buf_pre b a → Z.of_nat (length (items b)) ≤ MaxInt64.
Proof. intros W a P. destruct (pre_bytes _ _ P). pose proof (wf_bytes_nonneg W). lia. Qed.

Lemma pre_totals b a : buf_pre b a →
  maxStoreBytes - MaxInt64 ≤ totalBytes a ∧ totalBytes a ≤ MaxInt64 ∧ 0 ≤ maxStoreBytes ≤ MaxInt64 ∧
  0 ≤ totalItems a ∧ 48 * totalItems a ≤ totalBytes a + (MaxInt64 - maxStoreBytes).
Proof.
  intros P. pose proof (wf_bytes_nonneg (p_wf _ _ P)). destruct P. lia.
Qed.

Lemma insert_run item nowUs u b a t : buf_pre b a → lastSeq b < MaxUint64 →
  insertNewItemLocked item nowUs u (mkctx b a t) =
  let it := stamped item nowUs u in
  let size := approxItemSize it in
  if buf_maxItemBytes b <? size
  then (Err (ErrItemCap size (buf_maxItemBytes b) (Scope item)), mkctx b a t)
  else if totalBytes a + size <=? maxStoreBytes
  then (Ok (with_seq (lastSeq b + 1) it),
        mkctx (set_lastWriteTS nowUs (store_fields it size b))
          (acct_bump nowUs (acct_add size 1 a)) t)
  else (Err (StoreFullError (totalBytes a) size maxStoreBytes), mkctx b a t).
Proof.
  intros P Hs. destruct (pre_totals _ _ P) as (H1 & H2 & H3 & H4 & H5).
  pose proof (w_last _ (p_wf _ _ P)) as Hl.
  unfold insertNewItemLocked. rewrite bind_get_buf, (p_att _ _ P). cbn [andb].
  change (if IsZero (Uuid (with_render (with_ts nowUs item)))
    then with_uuid u (with_render (with_ts nowUs item)) else with_render (with_ts nowUs item))
    with (stamped item nowUs u).
  cbv zeta. destruct (stamped_fields item nowUs u) as (ES & _).
  pose proof (approxItemSize_pos (stamped item nowUs u)) as Hpos.
  set (it := stamped item nowUs u) in *. set (sz := approxItemSize it) in *.
  destruct (buf_maxItemBytes b <? sz) eqn:Hcap.
  { unfold bindE, bind, ret. by rewrite ES. }
  unfold bindE. rewrite bind_assoc, bind_eq, reserve_grow by lia.
  destruct (Z.leb_spec (totalBytes a + sz) maxStoreBytes); [|reflexivity].
  rewrite (u64_id (lastSeq b + 1)) by (unfold in_u64, MaxUint64 in *; lia).
  cbn [fst snd]. rewrite bind_ret, bind_modify_buf, bind_assoc, bind_eq.
  rewrite add_items_run by (unfold in_i64, MinInt64, MaxInt64, acct_add in *; cbn; lia).
  cbn [fst snd]. rewrite bind_eq, bump_run. cbn [fst snd]. rewrite bind_modify_buf.
  unfold acct_add. cbn. by rewrite !Z.add_0_r.
Qed.
(** What storing an item does to the buffer is a [push]. *)
Lemma store_push it b : lastSeq b < MaxUint64 → 0 ≤ lastSeq b →
  in_i64 (bytes b + approxItemSize it) →
  let b' := store_fields it (approxItemSize it) b in
  let q := push b (with_seq (lastSeq b + 1) it) in
  heap b' = heap q ∧ cells b' = cells q ∧ nextp b' = nextp q ∧ items b' = items q ∧
  byID b' = byID q ∧ bySeq b' = bySeq q ∧ byUUID b' = byUUID q ∧ lastSeq b' = lastSeq q ∧
  bytes b' = bytes q.
Proof.
  intros H1 H2 H3. cbn.
  rewrite (u64_id (lastSeq b + 1)) by (unfold in_u64, MaxUint64 in *; lia).
  rewrite i64_id by done. auto 10.
Qed.

Lemma cap_not_exceeded b : itemCapExceeded b (Z.of_nat (length (items b)) + 1) = false →
  maxItems b ≤ 0 ∨ Z.of_nat (length (items b)) + 1 ≤ maxItems b.
Proof.
  unfold itemCapExceeded. rewrite andb_false_iff, !Z.ltb_ge. lia.
Qed.

Definition id_free (b : scopeBuffer) (id : string) : Prop := id ≠ ""%string → byID b !! id = None.

Lemma insert_effect item nowUs u b a it size b' :
  it = stamped item nowUs u → size = approxItemSize it →
  b' = set_lastWriteTS nowUs (store_fields it size b) →
  buf_pre b a → lastSeq b < MaxUint64 →
  id_free b (ID item) →
  maxItems b ≤ 0 ∨ Z.of_nat (length (items b)) + 1 ≤ maxItems b →
  totalBytes a + size ≤ maxStoreBytes →
  bstep b a b' (acct_bump nowUs (acct_add size 1 a)) ∧
  view b' = view b ++ [(inserted b item nowUs u, None)] ∧ lastSeq b' = lastSeq b + 1.
Proof.
  intros Hit Hsize Hb' P Hs HI Hcap Hfit.
  pose proof (w_last _ (p_wf _ _ P)) as Hl. pose proof (pre_bytes _ _ P) as Hb.
  destruct (pre_totals _ _ P) as (H1 & H2 & H3 & H4 & H5).
  pose proof (approxItemSize_pos it) as Hpos. rewrite <- Hsize in Hpos.
  destruct (stamped_fields item nowUs u) as (ES & EI & _ & _ & _ & EC & _).
  rewrite <- Hit in ES, EI, EC.
  destruct (store_push it b) as (E1 & E2 & E3 & E4 & E5 & E6 & E7 & E8 & E9);
    [lia..|rewrite <- Hsize; unfold in_i64, MinInt64, MaxInt64 in *; lia|].
  assert (buf_wf (push b (with_seq (lastSeq b + 1) it))) as W.
  { apply wf_push; [apply P|reflexivity|cbn; lia| |].
    - change (ID (with_seq _ it)) with (ID it). rewrite EI. exact HI.
    - change (counter (with_seq _ it)) with (counter it). rewrite EC. done. }
  split; [constructor|split].
  - subst b' size. eapply wf_frame; [exact W|..]; assumption.
  - subst b' size. by apply (kept_push b _ _ _ (wf_fresh_not_in (p_wf _ _ P)) E1 E4).
  - subst b' size. change (bytes (set_lastWriteTS _ ?x)) with (bytes x). rewrite E9.
    change (bytes (push b ?x)) with (bytes b + approxItemSize x). rewrite with_seq_size. cbn. lia.
  - subst b' size. change (items (set_lastWriteTS _ ?x)) with (items x). rewrite E4. cbn.
    rewrite length_app. cbn. lia.
  - cbn. lia.
  - done.
  - done.
  - cbn. lia.
  - by subst b'.
  - by subst b'.
  - by subst b'.
  - by subst b'.
  - by subst b'.
  - subst b' size. change (items (set_lastWriteTS _ ?x)) with (items x). rewrite E4. cbn.
    rewrite length_app. cbn. lia.
  - rewrite (view_frame (push b (with_seq (lastSeq b + 1) it)) b') by (subst b' size; assumption).
    rewrite view_push by apply P. do 3 f_equal.
    + unfold inserted. rewrite <- Hit. unfold no_pointer, with_seq. cbn. by rewrite <- EC.
    + change (counter (with_seq _ it)) with (counter it). by rewrite EC.
  - subst b' size. exact E8.
Qed.

(** ** appendItem, on every branch *)
Definition dup_id_error : error := ErrText "an item with this 'id' already exists in the scope".

Lemma appendItem_run item b a t : buf_pre b a → lastSeq b < MaxUint64 →
  let u := minted t in
  let now := clk_micro (t + 3) in
  let it := stamped item now u in
  let size := approxItemSize it in
  appendItem item (mkctx b a t) =
  if detached b then (Err ScopeDetachedError, mkctx b a (t + 3))
  else if itemCapExceeded b (Z.of_nat (length (items b)) + 1)
  then (Err (ScopeFullError (Z.of_nat (length (items b))) (maxItems b)), mkctx b a (t + 3))
  else if negb (bool_decide (ID item = "")) && bool_decide (is_Some (byID b !! ID item))
  then (Err dup_id_error, mkctx b a (t + 3))
  else if buf_maxItemBytes b <? size
  then (Err (ErrItemCap size (buf_maxItemBytes b) (Scope item)), mkctx b a (t + 4))
  else if totalBytes a + size <=? maxStoreBytes
  then (Ok (inserted b item now u),
        mkctx (set_lastWriteTS now (store_fields it size b))
          (acct_bump now (acct_add size 1 a)) (t + 4))
  else (Err (StoreFullError (totalBytes a) size maxStoreBytes), mkctx b a (t + 4)).
Proof.
  intros P Hs. cbv zeta. unfold appendItem. rewrite bind_mint, bind_get_buf.
  replace (t + 3)%nat with (S (S (S t))) by lia. replace (t + 4)%nat with (S (S (S (S t)))) by lia.
  destruct (detached b); [done|]. destruct (itemCapExceeded _ _); [done|].
  destruct (_ && _); [done|]. rewrite bind_now, insert_run by done. done.
Qed.

(** ** In-place replacement, shared by upsert and the updates *)
Definition replaced (b : scopeBuffer) (p : nat) (payload : slice) (ts : Z) (render : slice)
    (delta : Z) : scopeBuffer :=
  set_lastWriteTS ts (set_bytes (bytes b + delta)
    (set_heap (<[p := replace_fields payload ts render (deref b p)]> (heap b)) b)).
Definition payload_delta (b : scopeBuffer) (p : nat) (payload render : slice) : Z :=
  blen payload + blen render - payloadAndRenderBytes (deref b p).

(** A slice's length fits Go's [int]. *)
Definition lengths_ok (payload render : slice) : Prop := blen payload + blen render ≤ MaxInt64.

Lemma replace_size payload ts render it :
  approxItemSize (replace_fields payload ts render it) - approxItemSize it =
  blen payload + blen render - payloadAndRenderBytes it.
Proof.
  rewrite !approxItemSize_eq. unfold replace_fields, payloadAndRenderBytes, counterCellOverhead.
  cbn. destruct (counter it); lia.
Qed.

Lemma payload_bytes_le it : 0 ≤ payloadAndRenderBytes it ≤ approxItemSize it.
Proof.
  rewrite approxItemSize_eq. unfold payloadAndRenderBytes, counterCellOverhead.
  pose proof (blen_nonneg (Payload it)). pose proof (blen_nonneg (renderBytes it)).
  pose proof (slen_nonneg (Scope it)). pose proof (slen_nonneg (ID it)).
  destruct (counter it), (IsZero (Uuid it)); lia.
Qed.

Lemma delta_range b a p payload render : buf_pre b a → p ∈ items b → lengths_ok payload render →
  - bytes b ≤ payload_delta b p payload render ≤ MaxInt64 ∧
  in_i64 (payload_delta b p payload render).
Proof.
  intros P Hp HL. pose proof (wf_size_le (p_wf _ _ P) p Hp) as Hs.
  destruct (payload_bytes_le (deref b p)) as [Hp1 Hp2]. unfold size_of in Hs.
  pose proof (pre_bytes _ _ P). destruct (pre_totals _ _ P) as (_ & ? & ? & _).
  pose proof (blen_nonneg payload). pose proof (blen_nonneg render).
  unfold payload_delta, lengths_ok, in_i64, MinInt64 in *. unfold MaxInt64 in *. lia.
Qed.

Lemma replace_effect b a i p payload ts render : buf_pre b a → items b !! i = Some p →
  lengths_ok payload render →
  totalBytes a + payload_delta b p payload render ≤ ceiling a →
  let d := payload_delta b p payload render in
  let b' := replaced b p payload ts render d in
  bstep b a b' (acct_bump ts (acct_add d 0 a)) ∧
  view b' = <[i := (no_pointer (replace_fields payload ts render (deref b p)), None)]> (view b).
Proof.
  intros P Hi HL Hfit d b'. pose proof (list_elem_of_lookup_2 _ _ _ Hi) as Hp.
  destruct (delta_range b a p payload render P Hp HL) as [Hd _].
  pose proof (pre_bytes _ _ P). destruct (pre_totals _ _ P) as (? & ? & ? & ? & ?).
  set (it := replace_fields payload ts render (deref b p)).
  assert (buf_wf (set_ptr b p it)) as W.
  { apply wf_set; try done; [apply P|..]. }
  assert (bytes (set_ptr b p it) = bytes b') as Eb.
  { cbn. unfold size_of. subst it. rewrite replace_size. done. }
  split; [constructor|].
  - eapply wf_frame; [exact W|..]; try reflexivity. by rewrite Eb.
  - apply kept_keys; [done..|]. intros q _. change (deref b' q) with (deref (set_ptr b p it) q).
    destruct (decide (q = p)) as [->|]; [by rewrite deref_set_eq|by rewrite deref_set_ne].
  - cbn. fold d. lia.
  - cbn. lia.
  - cbn. fold d in Hfit. lia.
  - done.
  - done.
  - cbn. lia.
  - done.
  - done.
  - done.
  - done.
  - done.
  - cbn. lia.
  - rewrite (view_frame (set_ptr b p it) b') by reflexivity.
    by rewrite (view_set b i p it (p_wf _ _ P) Hi).
Qed.

Lemma replace_run i p payload ts render d b a t :
  items b !! i = Some p → attached b = true → in_i64 (bytes b + d) →
  replaceItemAtIndexLocked i payload ts render d (mkctx b a t) =
  (tt, mkctx (replaced b p payload ts render d) (acct_bump ts a) t).
Proof.
  intros Hi Hatt Hd. unfold replaceItemAtIndexLocked.
  rewrite bind_get_buf, (list_lookup_total_correct _ _ _ Hi).
  unfold write_item. rewrite !bind_modify_buf, bind_get_buf.
  change (bytes (set_heap ?h b)) with (bytes b). rewrite i64_id by done.
  change (attached _) with (attached b). rewrite Hatt. apply bump_run.
Qed.

Lemma reserve_delta_run old new b a t : buf_pre b a →
  in_i64 (new - old) → MinInt64 ≤ totalBytes a + (new - old) →
  reservePayloadDeltaLocked old new (mkctx b a t) =
  if totalBytes a + (new - old) <=? ceiling a
  then (Ok (new - old), mkctx b (acct_add (new - old) 0 a) t)
  else (Err (StoreFullError (totalBytes a) (new - old) maxStoreBytes), mkctx b a t).
Proof.
  intros P Hr Hlo. destruct (pre_totals _ _ P) as (? & ? & ? & ? & ?).
  unfold reservePayloadDeltaLocked. rewrite i64_id, bind_get_buf, (p_att _ _ P) by done.
  destruct (Z.eqb_spec (new - old) 0) as [->|Hne]; cbn [andb negb].
  - destruct (Z.leb_spec (totalBytes a + 0) (ceiling a)); [|lia].
    unfold acct_add. rewrite !Z.add_0_r. by destruct a.
  - rewrite bind_eq, reserve_run by lia. by destruct (_ <=? _).
Qed.

(** The state after a replacement of the item at [p]. *)
Definition after_replace (b : scopeBuffer) (a : acct) (p : nat) (payload render : slice) (t : nat)
    (t' : nat) : ctx :=
  let d := payload_delta b p payload render in
  mkctx (replaced b p payload (clk_micro t) render d) (acct_bump (clk_micro t) (acct_add d 0 a)) t'.

Lemma in_range_after b a p payload render : buf_pre b a → p ∈ items b →
  lengths_ok payload render →
  totalBytes a + payload_delta b p payload render ≤ ceiling a →
  in_i64 (bytes b + payload_delta b p payload render).
Proof.
  intros P Hp HL Hfit. destruct (delta_range b a p payload render P Hp HL) as [Hd _].
  pose proof (pre_bytes _ _ P). destruct (pre_totals _ _ P) as (? & ? & ? & ? & ?).
  unfold in_i64, MinInt64 in *. unfold MaxInt64 in *. lia.
Qed.

(** The tail every update shares: reserve the delta, find the position, replace. *)
Lemma update_tail_run b a p payload render t : buf_pre b a → p ∈ items b →
  lengths_ok payload render →
  (let? delta := reservePayloadDeltaLocked (payloadAndRenderBytes (deref b p))
                   (blen payload + blen render) in
   match indexBySeqLocked b (Seq (deref b p)) with
   | None => ret (Ok 0)
   | Some i =>
       let* now := nowUnixMicro in
       replaceItemAtIndexLocked i payload now render delta ;;;
       ret (Ok 1)
   end) (mkctx b a t) =
  let d := payload_delta b p payload render in
  if totalBytes a + d <=? ceiling a
  then (Ok 1, after_replace b a p payload render t (S t))
  else (Err (StoreFullError (totalBytes a) d maxStoreBytes), mkctx b a t).
Proof.
  intros P Hp HL. destruct (delta_range b a p payload render P Hp HL) as [[Hd1 Hd2] Hd3].
  pose proof (pre_bytes _ _ P) as Hb. pose proof (p_max _ _ P).
  unfold bindE. rewrite bind_eq.
  rewrite reserve_delta_run by (try done; unfold payload_delta, MinInt64, MaxInt64 in *; lia).
  fold (payload_delta b p payload render). cbv zeta.
  destruct (Z.leb_spec (totalBytes a + payload_delta b p payload render) (ceiling a)); [|done].
  cbn [fst snd]. destruct (index_ptr (p_wf _ _ P) p Hp) as (i & Hi & ->).
  rewrite bind_now, bind_eq, (replace_run i p); [done|done|apply P|].
  by apply in_range_after with a.
Qed.

Lemma updateByID_run id payload pre b a t : buf_pre b a →
  lengths_ok payload (render_of pre payload) →
  updateByID id payload pre (mkctx b a t) =
  if detached b then (Err ScopeDetachedError, mkctx b a t)
  else match byID b !! id with
  | None => (Ok 0, mkctx b a t)
  | Some p =>
      let d := payload_delta b p payload (render_of pre payload) in
      if totalBytes a + d <=? ceiling a
      then (Ok 1, after_replace b a p payload (render_of pre payload) t (S t))
      else (Err (StoreFullError (totalBytes a) d maxStoreBytes), mkctx b a t)
  end.
Proof.
  intros P HL. unfold updateByID. rewrite bind_get_buf. destruct (detached b); [done|].
  destruct (byID b !! id) as [p|] eqn:E; [|done].
  apply (w_byID _ (p_wf _ _ P)) in E as (Hp & _ & _). by apply update_tail_run.
Qed.

(** Post-update size, as updateBySeq and updateByUUID measure it. *)
Definition updated_size (b : scopeBuffer) (p : nat) (payload render : slice) : Z :=
  approxItemSize (update_candidate (deref b p) payload render).

Lemma updated_size_eq b p payload ts render :
  updated_size b p payload render = approxItemSize (replace_fields payload ts render (deref b p)).
Proof. unfold updated_size. rewrite !approxItemSize_eq. reflexivity. Qed.

Definition update_at (b : scopeBuffer) (a : acct) (p : nat) (payload render : slice) (t : nat)
    : result error Z * ctx :=
  let maxB := maxItemBytesFor (Scope (deref b p)) in
  let size := updated_size b p payload render in
  let d := payload_delta b p payload render in
  if maxB <? size then (Err (ErrInvalidInput (too_large_reason size maxB)), mkctx b a t)
  else if totalBytes a + d <=? ceiling a
  then (Ok 1, after_replace b a p payload render t (S t))
  else (Err (StoreFullError (totalBytes a) d maxStoreBytes), mkctx b a t).

Lemma updateBySeq_run seq payload pre b a t : buf_pre b a →
  lengths_ok payload (render_of pre payload) →
  updateBySeq seq payload pre (mkctx b a t) =
  if detached b then (Err ScopeDetachedError, mkctx b a t)
  else match bySeq b !! seq with
  | None => (Ok 0, mkctx b a t)
  | Some p => update_at b a p payload (render_of pre payload) t
  end.
Proof.
  intros P HL. unfold updateBySeq, update_at. rewrite bind_get_buf. destruct (detached b); [done|].
  destruct (bySeq b !! seq) as [p|] eqn:E; [|done].
  apply (w_bySeq _ (p_wf _ _ P)) in E as (Hp & <-). rewrite (p_att _ _ P). cbn [andb].
  fold (updated_size b p payload (render_of pre payload)).
  destruct (_ <? _); [done|]. by apply update_tail_run.
Qed.

Lemma updateByUUID_run u payload pre b a t : buf_pre b a →
  lengths_ok payload (render_of pre payload) →
  updateByUUID u payload pre (mkctx b a t) =
  if detached b then (Err ScopeDetachedError, mkctx b a t)
  else match byUUID b !! u with
  | None => (Ok 0, mkctx b a t)
  | Some p => update_at b a p payload (render_of pre payload) t
  end.
Proof.
  intros P HL. unfold updateByUUID, update_at. rewrite bind_get_buf. destruct (detached b); [done|].
  destruct (byUUID b !! u) as [p|] eqn:E; [|done].
  apply (w_byUUID _ (p_wf _ _ P)) in E as (Hp & _ & _). rewrite (p_att _ _ P). cbn [andb].
  fold (updated_size b p payload (render_of pre payload)).
  destruct (_ <? _); [done|]. by apply update_tail_run.
Qed.

(** ** upsertByID, on every branch *)
Lemma upsertByID_run item b a t : buf_pre b a → lastSeq b < MaxUint64 →
  lengths_ok (Payload item) (render_of (renderBytes item) (Payload item)) →
  let u := minted t in
  let now := clk_micro (t + 3) in
  let it := stamped item now u in
  let size := approxItemSize it in
  let render := render_of (renderBytes item) (Payload item) in
  upsertByID item (mkctx b a t) =
  if detached b then (Err ScopeDetachedError, mkctx b a (t + 3))
  else match byID b !! ID item with
  | Some p =>
      let d := payload_delta b p (Payload item) render in
      if totalBytes a + d <=? ceiling a
      then (Ok (replace_fields (Payload item) now render (deref b p), false),
            after_replace b a p (Payload item) render (t + 3) (t + 4))
      else (Err (StoreFullError (totalBytes a) d maxStoreBytes), mkctx b a (t + 4))
  | None =>
      if itemCapExceeded b (Z.of_nat (length (items b)) + 1)
      then (Err (ScopeFullError (Z.of_nat (length (items b))) (maxItems b)), mkctx b a (t + 4))
      else if buf_maxItemBytes b <? size
      then (Err (ErrItemCap size (buf_maxItemBytes b) (Scope item)), mkctx b a (t + 4))
      else if totalBytes a + size <=? maxStoreBytes
      then (Ok (inserted b item now u, true),
            mkctx (set_lastWriteTS now (store_fields it size b))
              (acct_bump now (acct_add size 1 a)) (t + 4))
      else (Err (StoreFullError (totalBytes a) size maxStoreBytes), mkctx b a (t + 4))
  end.
Proof.
  intros P Hs HL. cbv zeta. unfold upsertByID. rewrite bind_mint, bind_get_buf.
  replace (t + 3)%nat with (S (S (S t))) by lia. replace (t + 4)%nat with (S (S (S (S t)))) by lia.
  destruct (detached b); [done|]. rewrite bind_now.
  destruct (byID b !! ID item) as [p|] eqn:E.
  - apply (w_byID _ (p_wf _ _ P)) in E as (Hp & _ & _).
    cbv zeta.
    set (render := render_of (renderBytes item) (Payload item)) in *.
    fold (payload_delta b p (Payload item) render).
    destruct (delta_range b a p (Payload item) render P Hp HL) as [[Hd1 Hd2] Hd3].
    pose proof (pre_bytes _ _ P) as Hb. destruct (pre_totals _ _ P) as (? & ? & ? & _).
    rewrite (i64_id _ Hd3), (p_att _ _ P). cbn [andb].
    set (d := payload_delta b p (Payload item) render) in *. unfold bindE at 1. rewrite bind_eq.
    assert ((if negb (d =? 0)
      then let* r := reserveBytes d in
           let '(ok, current, max) := r in
           if (ok : bool) then ret (Ok tt) else ret (Err (StoreFullError current d max))
      else ret (Ok tt)) (mkctx b a (S (S (S (S t))))) =
      if totalBytes a + d <=? ceiling a
      then (Ok tt, mkctx b (acct_add d 0 a) (S (S (S (S t)))))
      else (Err (StoreFullError (totalBytes a) d maxStoreBytes), mkctx b a (S (S (S (S t)))))) as ->.
    { destruct (Z.eqb_spec d 0) as [->|]; cbn [negb].
      - destruct (Z.leb_spec (totalBytes a + 0) (ceiling a)); [|lia].
        unfold acct_add. rewrite !Z.add_0_r. by destruct a.
      - rewrite bind_eq, reserve_run by (unfold MinInt64, MaxInt64 in *; lia). by destruct (_ <=? _). }
    destruct (Z.leb_spec (totalBytes a + d) (ceiling a)); [|done]. cbn [fst snd].
    destruct (index_ptr (p_wf _ _ P) p Hp) as (i & Hi & ->).
    rewrite (list_lookup_total_correct _ _ _ Hi). unfold write_item.
    rewrite !bind_modify_buf. change (bytes (set_heap ?h b)) with (bytes b).
    rewrite i64_id by (by apply in_range_after with a).
    rewrite bind_eq, bump_run. cbn [fst snd]. rewrite bind_get_buf.
    unfold after_replace, replaced. fold render. fold d. unfold ret. f_equal. do 3 f_equal.
    unfold deref. cbn. by rewrite lookup_total_insert_eq.
  - destruct (itemCapExceeded _ _); [done|]. unfold bindE. rewrite bind_eq, insert_run by done.
    cbv zeta. destruct (_ <? _); [done|]. by destruct (_ <=? _).
Qed.
End Spec.
