(* ===== verification/BufferRead.v ===== *)
(** * buffer_read.go: windows and lookups

  The reads copy items out of the arena and materialise counters at the
  boundary. Their specifications are list functions of the scope's content. *)
From S2P Require Import Prelude GoStd Uuid Types Buffer BufferInv BufferSpec.

#[export] Instance inhabited_counterCell : Inhabited counterCell := populate (mkcounterCell 0 0).

(** buffer_counter.go: the bare integer of a cell. *)
Definition renderCounterPayload (cell : counterCell) : string := FormatInt (cell_value cell).

Definition materialised (cell : counterCell) (item : Item) : Item := Eval fields in
  item <| Payload := Some (renderCounterPayload cell) |> <| Ts := cell_ts cell |>.

Definition materialiseCounter (b : scopeBuffer) (item : Item) : Item :=
  match counter item with
  | None => item
  | Some c => materialised (cells b !!! c) item
  end.
Definition materialiseCountersInPlace (b : scopeBuffer) (l : list Item) : list Item :=
  (λ item, match counter item with Some _ => materialiseCounter b item | None => item end) <$> l.

(** [items[start:end]] as a fresh value slice. *)
Definition slice_items (b : scopeBuffer) (start end_ : Z) : list Item :=
  deref b <$> take (Z.to_nat (end_ - start)) (drop (Z.to_nat start) (items b)).

Definition tailOffset (b : scopeBuffer) (limit offset : Z) : list Item * bool :=
  let n := Z.of_nat (length (items b)) in
  if (limit <=? 0) || (offset <? 0) then ([], false)
  else if n <=? offset then ([], false)
  else
    let end_ := n - offset in
    let start := end_ - limit in
    let hasMore := 0 <? start in
    let start := if start <? 0 then 0 else start in
    if end_ <=? start then ([], false)
    else (materialiseCountersInPlace b (slice_items b start end_), hasMore).

Definition sinceSeq (b : scopeBuffer) (afterSeq limit : Z) : list Item * bool :=
  let n := Z.of_nat (length (items b)) in
  if limit <=? 0 then ([], false)
  else if n =? 0 then ([], false)
  else
    let idx := Z.of_nat (sort_Search (length (items b)) (λ i, afterSeq <? seq_at b i)) in
    if n <=? idx then ([], false)
    else
      let available := n - idx in
      let '(take_, hasMore) := if limit <? available then (limit, true) else (available, false) in
      (materialiseCountersInPlace b (slice_items b idx (idx + take_)), hasMore).

Definition getByID (b : scopeBuffer) (id : string) : option Item :=
  match byID b !! id with
  | Some p => Some (materialiseCounter b (deref b p))
  | None => None
  end.
Definition getBySeq (b : scopeBuffer) (seq : Z) : option Item :=
  match bySeq b !! seq with
  | Some p => Some (materialiseCounter b (deref b p))
  | None => None
  end.
Definition getByUUID (b : scopeBuffer) (u : UUID) : option Item :=
  match byUUID b !! u with
  | Some p => Some (materialiseCounter b (deref b p))
  | None => None
  end.

(** ** The wire items of a scope *)

(** What a reader sees of an abstract item, the internal pointer aside. *)
Definition wire (e : aitem) : Item :=
  match e.2 with
  | Some cell => materialised cell e.1
  | None => e.1
  end.
Definition wire_items (b : scopeBuffer) : list Item := wire <$> view b.

Lemma materialise_wire b p : buf_wf b → p ∈ items b →
  no_pointer (materialiseCounter b (deref b p)) = wire (view_item b p).
Proof.
  intros W Hp. unfold materialiseCounter, wire, view_item. cbn [snd fst].
  destruct (counter (deref b p)) as [c|] eqn:Hc; [|done]. cbn.
  destruct (w_cells _ W p c Hp Hc) as (cell & Hcell & _).
  by rewrite (lookup_total_correct _ _ _ Hcell), Hcell.
Qed.

Lemma mat_eq b it :
  match counter it with Some _ => materialiseCounter b it | None => it end = materialiseCounter b it.
Proof. unfold materialiseCounter. by destruct (counter it). Qed.

Lemma slice_wire b start end_ : buf_wf b →
  no_pointer <$> materialiseCountersInPlace b (slice_items b start end_) =
  take (Z.to_nat (end_ - start)) (drop (Z.to_nat start) (wire_items b)).
Proof.
  intros W. unfold materialiseCountersInPlace, slice_items, wire_items, view.
  rewrite <- !list_fmap_compose, <- fmap_drop, <- fmap_take.
  apply list_fmap_ext. intros i p Hp. cbn. rewrite mat_eq. apply materialise_wire; [done|].
  by eapply subseteq_drop, subseteq_take, list_elem_of_lookup_2.
Qed.

Lemma wire_items_length b : length (wire_items b) = length (items b).
Proof. unfold wire_items, view. by rewrite !length_fmap. Qed.

Lemma wire_Seq b p : Seq (wire (view_item b p)) = Seq (deref b p).
Proof. unfold wire, view_item. cbn. by destruct (_ ≫= _). Qed.
Lemma wire_ID b p : ID (wire (view_item b p)) = ID (deref b p).
Proof. unfold wire, view_item. cbn. by destruct (_ ≫= _). Qed.
Lemma wire_Uuid b p : Uuid (wire (view_item b p)) = Uuid (deref b p).
Proof. unfold wire, view_item. cbn. by destruct (_ ≫= _). Qed.

Lemma wire_items_lookup b i p :
  items b !! i = Some p → wire_items b !! i = Some (wire (view_item b p)).
Proof. intros Hi. unfold wire_items, view. by rewrite !list_lookup_fmap, Hi. Qed.

Lemma wire_items_elem b p : p ∈ items b → wire (view_item b p) ∈ wire_items b.
Proof.
  intros [i Hi]%list_elem_of_lookup. eapply list_elem_of_lookup_2. by apply wire_items_lookup.
Qed.

Lemma wire_items_inv b it :
  it ∈ wire_items b → ∃ p, p ∈ items b ∧ it = wire (view_item b p).
Proof.
  intros (e & -> & He)%list_elem_of_fmap. apply list_elem_of_fmap in He as (p & -> & Hp).
  by exists p.
Qed.

Lemma wire_seqs b : Seq <$> wire_items b = seqs b.
Proof.
  unfold wire_items, view, seqs. rewrite <- !list_fmap_compose.
  apply list_fmap_ext. intros i p _. apply wire_Seq.
Qed.

(** ** /tail *)
Definition tail_window (l : list Item) (limit offset : Z) : list Item :=
  let w := take (length l - Z.to_nat offset) l in
  drop (length w - Z.to_nat limit) w.

Lemma tailOffset_window b limit offset : buf_wf b → 0 < limit → 0 ≤ offset →
  no_pointer <$> (tailOffset b limit offset).1 = tail_window (wire_items b) limit offset ∧
  (tailOffset b limit offset).2 = (limit + offset <? Z.of_nat (length (items b))).
Proof.
  intros W Hl Ho. unfold tailOffset, tail_window. cbv zeta.
  rewrite wire_items_length. set (n := length (items b)).
  destruct (Z.leb_spec limit 0); [lia|]. destruct (Z.ltb_spec offset 0); [lia|]. cbn [orb].
  destruct (Z.leb_spec (Z.of_nat n) offset).
  { replace (n - Z.to_nat offset)%nat with 0%nat by lia. rewrite take_0.
    split; [done|]. symmetry. apply Z.ltb_ge. lia. }
  rewrite length_take, wire_items_length. fold n.
  replace (n - Z.to_nat offset)%nat with (Z.to_nat (Z.of_nat n - offset)) by lia.
  destruct (Z.ltb_spec (Z.of_nat n - offset - limit) 0).
  - destruct (Z.leb_spec (Z.of_nat n - offset) 0); [lia|]. cbn [fst snd]. rewrite slice_wire by done.
    split.
    + rewrite Z.sub_0_r. change (Z.to_nat 0) with 0%nat. rewrite drop_0.
      replace (_ - Z.to_nat limit)%nat with 0%nat by lia. by rewrite drop_0.
    + rewrite (proj2 (Z.ltb_ge 0 _)) by lia. symmetry. apply Z.ltb_ge. lia.
  - destruct (Z.leb_spec (Z.of_nat n - offset) (Z.of_nat n - offset - limit)); [lia|].
    cbn [fst snd]. rewrite slice_wire by done. split.
    + rewrite skipn_firstn_comm. f_equal; [lia|f_equal; lia].
    + destruct (Z.ltb_spec 0 (Z.of_nat n - offset - limit)),
        (Z.ltb_spec (limit + offset) (Z.of_nat n)); lia || done.
Qed.

(** Two neighbouring pages make up the window of both. *)
Lemma tail_window_app l k1 k2 o : 0 ≤ k1 → 0 ≤ k2 → 0 ≤ o →
  tail_window l k2 (o + k1) ++ tail_window l k1 o = tail_window l (k1 + k2) o.
Proof.
  intros H1 H2 H3. unfold tail_window. rewrite !length_take.
  set (n := length l). rewrite !Nat.min_l by lia.
  rewrite !skipn_firstn_comm.
  replace (Z.to_nat (o + k1)) with (Z.to_nat o + Z.to_nat k1)%nat by lia.
  replace (Z.to_nat (k1 + k2)) with (Z.to_nat k1 + Z.to_nat k2)%nat by lia.
  generalize (Z.to_nat o) (Z.to_nat k1) (Z.to_nat k2). intros a x y. clear H1 H2 H3.
  apply list_eq. intros i.
  destruct (decide (i < n - (a + x) - (n - (a + x) - y))%nat) as [Hi|Hi].
  - rewrite lookup_app_l by (rewrite length_take, length_drop; fold n; lia).
    rewrite !lookup_take_lt, !lookup_drop by lia. f_equal. lia.
  - rewrite lookup_app_r by (rewrite length_take, length_drop; fold n; lia).
    rewrite length_take, length_drop. fold n.
    destruct (decide (i < n - a - (n - a - (x + y)))%nat) as [Hj|Hj].
    + rewrite !lookup_take_lt, !lookup_drop by lia. f_equal. lia.
    + rewrite !lookup_take_ge by lia. done.
Qed.

(** ** /head *)
Lemma filter_after l (s : Z) k :
  (∀ i it, l !! i = Some it → (i < k)%nat → ¬ s < Seq it) →
  (∀ i it, l !! i = Some it → (k ≤ i)%nat → s < Seq it) →
  filter (λ it, s < Seq it) l = drop k l.
Proof.
  revert k. induction l as [|x l IH]; intros k H1 H2; [by rewrite drop_nil|].
  rewrite filter_cons. destruct k as [|k].
  - rewrite decide_True by (apply (H2 0%nat); [done|lia]). cbn [drop]. f_equal.
    rewrite (IH 0%nat); [by rewrite drop_0|intros; lia|].
    intros i it Hi _. apply (H2 (S i)); [done|lia].
  - rewrite decide_False by (apply (H1 0%nat); [done|lia]). cbn [drop]. apply IH.
    + intros i it Hi Hk. apply (H1 (S i)); [done|lia].
    + intros i it Hi Hk. apply (H2 (S i)); [done|lia].
Qed.

Lemma since_cut b s : buf_wf b →
  let idx := sort_Search (length (items b)) (λ i, s <? seq_at b i) in
  (idx ≤ length (items b))%nat ∧ filter (λ it, s < Seq it) (wire_items b) = drop idx (wire_items b).
Proof.
  intros W. cbv zeta. destruct (search_cut W (λ x, s <? x)) as (H1 & H2 & H3).
  { intros x y ? ?%Z.ltb_lt. apply Z.ltb_lt. lia. }
  split; [done|]. apply filter_after; intros i it Hi Hk.
  - destruct (lookup_lt_is_Some_2 (items b) i) as [p Hp]; [lia|].
    pose proof (wire_items_lookup _ _ _ Hp). simplify_eq. rewrite wire_Seq.
    specialize (H2 i p Hp Hk). apply Z.ltb_ge in H2. lia.
  - destruct (items b !! i) as [p|] eqn:Hp.
    2:{ apply lookup_lt_Some in Hi. apply lookup_ge_None_1 in Hp. rewrite wire_items_length in Hi. lia. }
    pose proof (wire_items_lookup _ _ _ Hp). simplify_eq. rewrite wire_Seq.
    by apply Z.ltb_lt, (H3 i p).
Qed.

Lemma sinceSeq_window b after limit : buf_wf b → 0 < limit →
  let rest := filter (λ it, after < Seq it) (wire_items b) in
  no_pointer <$> (sinceSeq b after limit).1 = take (Z.to_nat limit) rest ∧
  (sinceSeq b after limit).2 = (limit <? Z.of_nat (length rest)).
Proof.
  intros W Hl. cbv zeta. unfold sinceSeq. cbv zeta.
  destruct (since_cut b after W) as (H1 & ->). cbv zeta in H1.
  rewrite length_drop, wire_items_length.
  set (n := length (items b)) in *. set (idx := sort_Search _ _) in *.
  destruct (Z.leb_spec limit 0); [lia|].
  destruct (Z.eqb_spec (Z.of_nat n) 0).
  { cbn [fst snd]. rewrite drop_ge by (rewrite wire_items_length; fold n; lia).
    split; [by destruct (Z.to_nat limit)|]. symmetry. apply Z.ltb_ge. lia. }
  destruct (Z.leb_spec (Z.of_nat n) (Z.of_nat idx)).
  { cbn [fst snd]. rewrite drop_ge by (rewrite wire_items_length; fold n; lia).
    split; [by destruct (Z.to_nat limit)|]. symmetry. apply Z.ltb_ge. lia. }
  destruct (Z.ltb_spec limit (Z.of_nat n - Z.of_nat idx)); cbn [fst snd]; rewrite slice_wire by done;
    rewrite Nat2Z.id; (split; [|symmetry; (apply Z.ltb_lt || apply Z.ltb_ge); lia]).
  - f_equal. lia.
  - rewrite !take_ge; [done|..]; rewrite length_drop, wire_items_length; fold n; lia.
Qed.

(** ** Lookups *)
Lemma getByID_spec b id it : buf_wf b →
  no_pointer <$> getByID b id = Some it ↔ it ∈ wire_items b ∧ ID it = id ∧ id ≠ ""%string.
Proof.
  intros W. unfold getByID. split.
  - destruct (byID b !! id) as [p|] eqn:E; [|done]. apply (w_byID _ W) in E as (Hp & Hi & ?).
    cbn. rewrite materialise_wire by done. intros [= <-]. rewrite wire_ID.
    split; [by apply wire_items_elem|done].
  - intros ((p & Hp & ->)%wire_items_inv & Hi & ?). rewrite wire_ID in Hi.
    rewrite (proj2 (w_byID _ W id p)) by done. cbn. by rewrite materialise_wire.
Qed.

Lemma getBySeq_spec b s it : buf_wf b →
  no_pointer <$> getBySeq b s = Some it ↔ it ∈ wire_items b ∧ Seq it = s.
Proof.
  intros W. unfold getBySeq. split.
  - destruct (bySeq b !! s) as [p|] eqn:E; [|done]. apply (w_bySeq _ W) in E as (Hp & Hi).
    cbn. rewrite materialise_wire by done. intros [= <-]. rewrite wire_Seq.
    split; [by apply wire_items_elem|done].
  - intros ((p & Hp & ->)%wire_items_inv & Hi). rewrite wire_Seq in Hi.
    rewrite (proj2 (w_bySeq _ W s p)) by done. cbn. by rewrite materialise_wire.
Qed.

Lemma getByUUID_spec b u it : buf_wf b → uuid_ok b → IsZero u = false →
  no_pointer <$> getByUUID b u = Some it ↔ it ∈ wire_items b ∧ Uuid it = u.
Proof.
  intros W HU Hz. unfold getByUUID. split.
  - destruct (byUUID b !! u) as [p|] eqn:E; [|done]. apply (w_byUUID _ W) in E as (Hp & Hi & _).
    cbn. rewrite materialise_wire by done. intros [= <-]. rewrite wire_Uuid.
    split; [by apply wire_items_elem|done].
  - intros ((p & Hp & ->)%wire_items_inv & Hi). rewrite wire_Uuid in Hi. subst u.
    rewrite (HU p Hp Hz). cbn. by rewrite materialise_wire.
Qed.

(** The cursor loop of a head reader: asking again after the last seq of a full
    page yields the next items, none skipped, none repeated. *)
Lemma head_cursor l after k last :
  StronglySorted Z.lt (Seq <$> l) →
  let rest := filter (λ it, after < Seq it) l in
  rest !! k = Some last → filter (λ it, Seq last < Seq it) l = drop (S k) rest.
Proof.
  intros Hs rest Hk.
  assert (filter (λ it, Seq last < Seq it) l = filter (λ it, Seq last < Seq it) rest) as ->.
  { unfold rest. rewrite list_filter_filter. apply list_filter_iff. intros it.
    assert (after < Seq last).
    { apply list_elem_of_lookup_2, list_elem_of_filter in Hk. apply Hk. }
    split; [lia|tauto]. }
  assert (StronglySorted Z.lt (Seq <$> rest)) as Hr.
  { eapply sorted_sublist, Hs. apply fmap_sublist, sublist_filter. }
  apply filter_after; intros i it Hi Hik.
  - destruct (decide (i = k)) as [->|]; [simplify_eq; lia|].
    pose proof (sorted_lookup (Seq <$> rest) i k (Seq it) (Seq last) Hr) as Hlt.
    rewrite !list_lookup_fmap, Hi, Hk in Hlt. specialize (Hlt eq_refl eq_refl ltac:(lia)). lia.
  - pose proof (sorted_lookup (Seq <$> rest) k i (Seq last) (Seq it) Hr) as Hlt.
    rewrite !list_lookup_fmap, Hi, Hk in Hlt. specialize (Hlt eq_refl eq_refl ltac:(lia)). lia.
Qed.
