(* ===== verification/BufferDelete.v ===== *)
(** * buffer_delete.go: single deletes and the prefix drain *)
From S2P Require Import Prelude GoStd Uuid Types Buffer BufferInv BufferSpec.

Definition shrinkMinCap : nat := 1024.
Definition shrinkSparseRatio : nat := 4.

(** The tail shift: [copy(items[i:], items[i+1:])] and the reslice; the
    capacity is unchanged. *)
Definition cut_item (i : nat) (b : scopeBuffer) : scopeBuffer := Eval fields in
  let removed := deref b (items b !!! i) in
  b <| items := delete i (items b) |>
    <| bySeq := delete (Seq removed) (bySeq b) |>
    <| byID := if bool_decide (ID removed = "") then byID b else delete (ID removed) (byID b) |>
    <| idKeyBytes := if bool_decide (ID removed = "") then idKeyBytes b
                     else i64 (idKeyBytes b - slen (ID removed)) |>
    <| byUUID := if IsZero (Uuid removed) then byUUID b else delete (Uuid removed) (byUUID b) |>
    <| bytes := i64 (bytes b - approxItemSize removed) |>.

Definition resetIfEmptyLocked (b : scopeBuffer) : scopeBuffer := Eval fields in
  if negb (length (items b) =? 0)%nat then b
  else b <| items := [] |> <| itemsCap := 0%nat |> <| bySeq := ∅ |> <| byID := ∅ |>
         <| byUUID := ∅ |> <| idKeyBytes := 0 |>.

(** The rebuild of the three maps from the surviving items. *)
Definition rebuild_step (b : scopeBuffer)
    (m : gmap Z nat * gmap string nat * gmap UUID nat) (p : nat) :=
  let '(newBySeq, newByID, newByUUID) := m in
  (<[Seq (deref b p) := p]> newBySeq,
   if bool_decide (ID (deref b p) = "") then newByID else <[ID (deref b p) := p]> newByID,
   if IsZero (Uuid (deref b p)) then newByUUID else <[Uuid (deref b p) := p]> newByUUID).
Definition rebuilt_maps (b : scopeBuffer) : gmap Z nat * gmap string nat * gmap UUID nat :=
  foldl (rebuild_step b) (∅, ∅, ∅) (items b).

Definition set_maps (m : gmap Z nat * gmap string nat * gmap UUID nat) (b : scopeBuffer)
    : scopeBuffer := Eval fields in
  b <| itemsCap := length (items b) |> <| bySeq := m.1.1 |> <| byID := m.1.2 |>
    <| byUUID := m.2 |>.
Definition shrinkIfSparseLocked (b : scopeBuffer) : scopeBuffer :=
  if (itemsCap b <=? shrinkMinCap)%nat then b
  else if (itemsCap b <=? length (items b) * shrinkSparseRatio)%nat then b
  else set_maps (rebuilt_maps b) b.

Section BufferDelete.
Context `{Env} `{Caps}.

Definition deleteIndexLocked (i : nat) : M unit :=
  let* b := get_buf in
  let removedSize := approxItemSize (deref b (items b !!! i)) in
  modify_buf (cut_item i) ;;;
  let* now := nowUnixMicro in
  (if attached b then
     add_totalBytes (- removedSize) ;;;
     add_totalItems (- 1) ;;;
     bumpLastWriteTS now
   else ret tt) ;;;
  modify_buf (set_lastWriteTS now) ;;;
  modify_buf resetIfEmptyLocked ;;;
  modify_buf shrinkIfSparseLocked.

Definition deleteByID (id : string) : M (result error Z) :=
  let* b := get_buf in
  if detached b then ret (Err ScopeDetachedError)
  else match byID b !! id with
  | None => ret (Ok 0)
  | Some p =>
      match indexBySeqLocked b (Seq (deref b p)) with
      | None => ret (Ok 0)
      | Some i => deleteIndexLocked i ;;; ret (Ok 1)
      end
  end.

Definition deleteBySeq (seq : Z) : M (result error Z) :=
  let* b := get_buf in
  if detached b then ret (Err ScopeDetachedError)
  else match bySeq b !! seq with
  | None => ret (Ok 0)
  | Some _ =>
      match indexBySeqLocked b seq with
      | None => ret (Ok 0)
      | Some i => deleteIndexLocked i ;;; ret (Ok 1)
      end
  end.

Definition deleteByUUID (u : UUID) : M (result error Z) :=
  let* b := get_buf in
  if detached b then ret (Err ScopeDetachedError)
  else match byUUID b !! u with
  | None => ret (Ok 0)
  | Some p =>
      match indexBySeqLocked b (Seq (deref b p)) with
      | None => ret (Ok 0)
      | Some i => deleteIndexLocked i ;;; ret (Ok 1)
      end
  end.

(** The loop over the removed prefix: freed sizes and index deletions. *)
Definition drain_step (b : scopeBuffer)
    (acc : Z * Z * (gmap Z nat * gmap string nat * gmap UUID nat)) (p : nat) :=
  let '(freedBytes, freedIDKeyBytes, (mSeq, mID, mUUID)) := acc in
  let removed := deref b p in
  (i64 (freedBytes + approxItemSize removed),
   if bool_decide (ID removed = "") then freedIDKeyBytes
   else i64 (freedIDKeyBytes + slen (ID removed)),
   (delete (Seq removed) mSeq,
    if bool_decide (ID removed = "") then mID else delete (ID removed) mID,
    if IsZero (Uuid removed) then mUUID else delete (Uuid removed) mUUID)).

Definition drained (idx : nat) (freed : Z) (freedID : Z)
    (m : gmap Z nat * gmap string nat * gmap UUID nat) (b : scopeBuffer) : scopeBuffer :=
  Eval fields in
  b <| bySeq := m.1.1 |> <| byID := m.1.2 |> <| byUUID := m.2 |>
    <| items := drop idx (items b) |> <| itemsCap := (length (items b) - idx)%nat |>
    <| bytes := i64 (bytes b - freed) |> <| idKeyBytes := i64 (idKeyBytes b - freedID) |>.

Definition deleteUpToSeqLocked (maxSeq : Z) : M Z :=
  let* b := get_buf in
  let idx := sort_Search (length (items b)) (λ i, maxSeq <? seq_at b i) in
  if (idx =? 0)%nat then ret 0
  else
    let '(freedBytes, freedIDKeyBytes, m) :=
      foldl (drain_step b) (0, 0, (bySeq b, byID b, byUUID b)) (take idx (items b)) in
    modify_buf (drained idx freedBytes freedIDKeyBytes m) ;;;
    let* now := nowUnixMicro in
    (if attached b then
       add_totalBytes (- freedBytes) ;;;
       add_totalItems (- Z.of_nat idx) ;;;
       bumpLastWriteTS now
     else ret tt) ;;;
    modify_buf (set_lastWriteTS now) ;;;
    modify_buf resetIfEmptyLocked ;;;
    ret (Z.of_nat idx).

Definition deleteUpToSeq (maxSeq : Z) : M (result error Z) :=
  let* b := get_buf in
  if detached b then ret (Err ScopeDetachedError)
  else let* n := deleteUpToSeqLocked maxSeq in ret (Ok n).

Definition deleteUpToUUID (u : UUID) : M (result error Z) :=
  let* b := get_buf in
  if detached b then ret (Err ScopeDetachedError)
  else match byUUID b !! u with
  | None => ret (Ok 0)
  | Some p => let* n := deleteUpToSeqLocked (Seq (deref b p)) in ret (Ok n)
  end.
End BufferDelete.
