(* ===== verification/BufferDeleteSpec.v ===== *)
(** * What the deletes do *)
From S2P Require Import Prelude GoStd Uuid Types Buffer BufferInv BufferSpec BufferDelete.

(** ** Removing one position *)
Section cut.
Context {b : scopeBuffer} (W : buf_wf b).

Lemma items_split i p : items b !! i = Some p →
  ∃ l1 l2, items b = l1 ++ p :: l2 ∧ length l1 = i ∧ delete i (items b) = l1 ++ l2.
Proof.
  intros Hi. exists (take i (items b)), (drop (S i) (items b)).
  rewrite (take_drop_middle _ _ _ Hi). split; [done|].
  pose proof (lookup_lt_Some _ _ _ Hi). split; [rewrite length_take; lia|].
  by rewrite delete_take_drop.
Qed.

Lemma elem_of_cut i p q : items b !! i = Some p →
  q ∈ delete i (items b) ↔ q ∈ items b ∧ q ≠ p.
Proof.
  intros Hi. pose proof (wf_nodup W) as Hnd.
  destruct (items_split i p Hi) as (l1 & l2 & E & _ & ->). rewrite E in Hnd |- *.
  apply NoDup_app in Hnd as (_ & Hd1 & Hd2). apply NoDup_cons in Hd2 as [Hd2 _].
  rewrite !elem_of_app, elem_of_cons. split.
  - intros [Hq|Hq]; (split; [tauto|]); intros ->; [|done]. apply (Hd1 p Hq). by left.
  - tauto.
Qed.

Lemma wf_cut i p : items b !! i = Some p → bytes b ≤ MaxInt64 → buf_wf (cut_item i b).
Proof.
  intros Hi Hmax. pose proof (list_elem_of_lookup_2 _ _ _ Hi) as Hp.
  pose proof (wf_size_le W p Hp) as Hs. pose proof (approxItemSize_pos (deref b p)).
  pose proof (elem_of_cut i p) as Hcut. specialize (λ q, Hcut q Hi).
  apply (wf_restrict b); try reflexivity; try done;
    unfold cut_item; cbn [items bySeq byID byUUID bytes];
    rewrite ?(list_lookup_total_correct _ _ _ Hi).
  - apply sublist_delete.
  - intros s q. rewrite Hcut, lookup_delete_Some, (w_bySeq _ W). split.
    + intros (Hne & Hq & Hqs). split; [done|]. split; [done|]. congruence.
    + intros ((Hq & Hqs) & _ & Hne). split; [|done]. intros E. apply Hne.
      apply (wf_seq_inj W); [done..|]. congruence.
  - intros id q. rewrite Hcut. case_bool_decide as Hid.
    + rewrite (w_byID _ W). split; [|tauto]. intros (Hq & Hqi & Hn). split; [done|].
      split; [done|]. congruence.
    + rewrite lookup_delete_Some, (w_byID _ W). split.
      * intros (Hne & Hq & Hqi & Hn). split; [done|]. split; [done|]. congruence.
      * intros ((Hq & Hqi & Hn) & _ & Hne). split; [|done]. intros E. apply Hne.
        assert (byID b !! id = Some q) as H1 by (by apply (w_byID _ W)).
        assert (byID b !! id = Some p) as H2 by (apply (w_byID _ W); by rewrite E). congruence.
  - intros u q. rewrite Hcut. intros Hu.
    assert (byUUID b !! u = Some q ∧ q ≠ p) as [Hu' Hne].
    { destruct (IsZero (Uuid (deref b p))) eqn:Hz.
      - split; [done|]. intros ->. apply (w_byUUID _ W) in Hu as (_ & Hu & Hz'). congruence.
      - apply lookup_delete_Some in Hu as [Hne Hu]. split; [done|]. intros ->.
        apply (w_byUUID _ W) in Hu as (_ & Hu & _). congruence. }
    apply (w_byUUID _ W) in Hu' as (? & ? & ?). done.
  - rewrite i64_id by (unfold size_of in Hs; unfold in_i64, MinInt64, MaxInt64 in *; lia).
    destruct (items_split i p Hi) as (l1 & l2 & E & _ & ->).
    rewrite (w_bytes _ W), E, !zsum_app. cbn [zsum]. unfold size_of. lia.
Qed.

Lemma view_cut i : view (cut_item i b) = delete i (view b).
Proof.
  rewrite (view_restrict b) by reflexivity. unfold view. cbn [cut_item items].
  rewrite !delete_take_drop, fmap_app, fmap_take, fmap_drop. done.
Qed.
End cut.

(** ** Reset and shrink only drop capacity *)
Lemma reset_items b : items (resetIfEmptyLocked b) = items b.
Proof. unfold resetIfEmptyLocked. by destruct (items b) eqn:E; cbn. Qed.

Lemma wf_reset b : buf_wf b → buf_wf (resetIfEmptyLocked b).
Proof.
  intros W. unfold resetIfEmptyLocked. destruct (items b) as [|x l] eqn:E; cbn [length Nat.eqb negb]; [|done].
  assert (∀ p, p ∉ items b) as Hno by (intros p; rewrite E; apply not_elem_of_nil).
  apply (wf_restrict b); try reflexivity; try done; cbn [items bySeq byID byUUID bytes].
  - apply sublist_nil_l.
  - intros s p. rewrite lookup_empty. set_solver.
  - intros s p. rewrite lookup_empty. set_solver.
  - by rewrite (w_bytes _ W), E.
Qed.

(** The rebuilt indexes, by induction over the items. *)
Lemma rebuilt_spec b : buf_wf b →
  let m := rebuilt_maps b in
  (∀ s p, m.1.1 !! s = Some p ↔ p ∈ items b ∧ Seq (deref b p) = s) ∧
  (∀ id p, m.1.2 !! id = Some p ↔ p ∈ items b ∧ ID (deref b p) = id ∧ id ≠ ""%string) ∧
  (∀ u p, m.2 !! u = Some p → p ∈ items b ∧ Uuid (deref b p) = u ∧ IsZero u = false).
Proof.
  intros W. cbv zeta. unfold rebuilt_maps.
  assert (∀ l, l `sublist_of` items b → (∀ p, p ∈ l → p ∈ items b) →
    let m := foldl (rebuild_step b) (∅, ∅, ∅) l in
    (∀ s p, m.1.1 !! s = Some p ↔ p ∈ l ∧ Seq (deref b p) = s) ∧
    (∀ id p, m.1.2 !! id = Some p ↔ p ∈ l ∧ ID (deref b p) = id ∧ id ≠ ""%string) ∧
    (∀ u p, m.2 !! u = Some p → p ∈ l ∧ Uuid (deref b p) = u ∧ IsZero u = false)) as Hl;
    [|by apply Hl].
  intros l Hsub Hin. assert (NoDup l) as Hnd by (exact (sublist_NoDup _ _ (wf_nodup W) Hsub)).
  clear Hsub. induction l as [|x l IH] using rev_ind.
  { cbn. split; [|split].
    - intros s p. rewrite lookup_empty. set_solver.
    - intros s p. rewrite lookup_empty. set_solver.
    - intros u p. by rewrite lookup_empty. }
  apply NoDup_app in Hnd as (Hnd & Hx & _).
  assert (x ∈ items b) as Hxi by (apply Hin; set_solver).
  assert (∀ p, p ∈ l → p ∈ items b ∧ p ≠ x) as Hpl.
  { intros p Hp. split; [apply Hin; set_solver|]. intros ->. apply (Hx x Hp). by left. }
  destruct IH as (IH1 & IH2 & IH3); [set_solver|done|].
  rewrite foldl_app. cbn [foldl].
  destruct (foldl (rebuild_step b) (∅, ∅, ∅) l) as [[m1 m2] m3]. cbn in IH1, IH2, IH3 |- *.
  split; [|split].
  - intros s p. rewrite lookup_insert_Some, IH1, elem_of_app, list_elem_of_singleton. split.
    + intros [[<- <-]|(Hne & Hp & Hs)]; auto.
    + intros [[Hp| ->] Hs]; [|by left]. right. split; [|done]. intros E.
      destruct (Hpl p Hp) as [Hpi Hpx]. apply Hpx. apply (wf_seq_inj W); [done..|]. congruence.
  - intros id p. rewrite elem_of_app, list_elem_of_singleton. case_bool_decide as Hid.
    + rewrite IH2. split; [tauto|]. intros ([Hp| ->] & E & Hn); [done|]. congruence.
    + rewrite lookup_insert_Some, IH2. split.
      * intros [[<- <-]|(Hne & Hp & Hs & ?)]; auto.
      * intros ([Hp| ->] & Hs & Hn); [|by left]. right. split; [|done]. intros E.
        destruct (Hpl p Hp) as [Hpi Hpx]. apply Hpx.
        assert (byID b !! id = Some p) by (by apply (w_byID _ W)).
        assert (byID b !! id = Some x) by (by apply (w_byID _ W)). congruence.
  - intros u p. rewrite elem_of_app, list_elem_of_singleton.
    destruct (IsZero (Uuid (deref b x))) eqn:Hz.
    + intros Hp%IH3. naive_solver.
    + rewrite lookup_insert_Some. intros [[<- <-]|[_ Hp%IH3]]; [auto|naive_solver].
Qed.

Lemma shrink_items b : items (shrinkIfSparseLocked b) = items b.
Proof. unfold shrinkIfSparseLocked. do 2 (case_match; [done|]). done. Qed.

Lemma wf_shrink b : buf_wf b → buf_wf (shrinkIfSparseLocked b).
Proof.
  intros W. unfold shrinkIfSparseLocked. do 2 (case_match; [done|]).
  destruct (rebuilt_spec b W) as (R1 & R2 & R3).
  apply (wf_restrict b); try reflexivity; try done; unfold set_maps; cbn [items bySeq byID byUUID bytes].
  - intros s p. rewrite R1, (w_bySeq _ W). tauto.
  - intros id p. rewrite R2, (w_byID _ W). tauto.
  - apply (w_bytes _ W).
Qed.

Lemma rebuilt_uuid b p : p ∈ items b → IsZero (Uuid (deref b p)) = false →
  is_Some ((rebuilt_maps b).2 !! Uuid (deref b p)).
Proof.
  unfold rebuilt_maps. induction (items b) as [|x l IH] using rev_ind; [set_solver|].
  rewrite foldl_app. cbn [foldl]. destruct (foldl (rebuild_step b) (∅, ∅, ∅) l) as [[m1 m2] m3].
  cbn in *. rewrite elem_of_app, list_elem_of_singleton. intros Hp Hz.
  destruct (IsZero (Uuid (deref b x))) eqn:Hzx.
  - destruct Hp as [Hp| ->]; [by apply IH|congruence].
  - destruct (decide (Uuid (deref b x) = Uuid (deref b p))) as [->|Hne].
    + rewrite lookup_insert_eq. by eexists.
    + rewrite lookup_insert_ne by done. destruct Hp as [Hp| ->]; [by apply IH|done].
Qed.

Lemma map_eq_some {K A} `{Countable K} (m1 m2 : gmap K A) :
  (∀ k x, m1 !! k = Some x ↔ m2 !! k = Some x) → m1 = m2.
Proof. intros E. apply map_eq. intros k. apply option_eq. intros x. apply E. Qed.

(** Nothing an operation can observe changes when the indexes are rebuilt. *)
Lemma shrink_same b : buf_wf b → uuid_ok b →
  let b' := shrinkIfSparseLocked b in
  heap b' = heap b ∧ cells b' = cells b ∧ items b' = items b ∧
  bySeq b' = bySeq b ∧ byID b' = byID b ∧ byUUID b' = byUUID b ∧
  bytes b' = bytes b ∧ idKeyBytes b' = idKeyBytes b ∧ lastSeq b' = lastSeq b.
Proof.
  intros W U. cbv zeta. unfold shrinkIfSparseLocked. do 2 (case_match; [auto 10|]).
  destruct (rebuilt_spec b W) as (R1 & R2 & R3). unfold set_maps.
  cbn [heap cells items bySeq byID byUUID bytes idKeyBytes lastSeq].
  do 3 (split; [done|]). split; [|split; [|split; [|done]]]; apply map_eq_some.
  - intros s p. by rewrite R1, (w_bySeq _ W).
  - intros id p. by rewrite R2, (w_byID _ W).
  - intros u p. split.
    + intros (Hp & <- & Hz)%R3. by apply U.
    + intros Hu. destruct (w_byUUID _ W u p Hu) as (Hp & <- & Hz).
      destruct (rebuilt_uuid b p Hp Hz) as [q Hq]. rewrite Hq.
      apply R3 in Hq as (Hqi & Hqu & Hqz). rewrite <- Hqu in Hu, Hqz.
      rewrite (U q Hqi Hqz) in Hu. congruence.
Qed.

Lemma reset_index b : uuid_ok b → uuid_ok (resetIfEmptyLocked b).
Proof. unfold resetIfEmptyLocked. case_match; [done|]. intros U p Hp. by apply elem_of_nil in Hp. Qed.
Lemma tidy_index b : buf_wf b → uuid_ok b → uuid_ok (shrinkIfSparseLocked (resetIfEmptyLocked b)).
Proof.
  intros W%wf_reset U%reset_index. destruct (shrink_same _ W U) as (Eh & _ & Ei & _ & _ & Eu & _).
  intros p. unfold deref. rewrite Ei, Eu, Eh. apply U.
Qed.
(** Taking an item away takes its uuid away, and no other item's. *)
Lemma index_less b u p q : uuid_ok b → p ∈ items b → byUUID b !! u = Some q → q ≠ p →
  (if IsZero (Uuid (deref b p)) then byUUID b else delete (Uuid (deref b p)) (byUUID b)) !! u = Some q.
Proof.
  intros U Hp Hu Hne. destruct (IsZero _) eqn:Hz; [done|]. rewrite lookup_delete_ne; [done|].
  intros <-. rewrite (U p Hp Hz) in Hu. congruence.
Qed.
Lemma cut_index b i p now : buf_wf b → items b !! i = Some p → uuid_ok b →
  uuid_ok (set_lastWriteTS now (cut_item i b)).
Proof.
  intros W Hi U. apply (index_subset b); [done| | |done]; cbn;
    setoid_rewrite (elem_of_cut W i p _ Hi); [by intros q []|].
  intros u q [_ Hne] Hu. rewrite (list_lookup_total_correct _ _ _ Hi).
  apply index_less; [done| |done..]. by eapply list_elem_of_lookup_2.
Qed.
Lemma drain_index b l u q : uuid_ok b → (∀ p, p ∈ l → p ∈ items b) → byUUID b !! u = Some q → q ∉ l →
  (foldl (drain_step b) (0, 0, (bySeq b, byID b, byUUID b)) l).2.2 !! u = Some q.
Proof.
  intros U Hin Hu. induction l as [|x l IH] using rev_ind; [done|].
  intros Hq. rewrite foldl_app. cbn [foldl]. ospecialize (IH _ _); [set_solver|set_solver|].
  destruct (foldl (drain_step b) _ l) as [[f g] [[m1 m2] m3]]. cbn in *.
  destruct (IsZero _) eqn:Hz; [done|]. rewrite lookup_delete_ne; [done|].
  intros <-. rewrite (U x) in Hu by (done || apply Hin; set_solver). apply Hq. set_solver.
Qed.

Section Spec.
Context `{Env} `{Caps}.

(** ** deleteIndexLocked *)
Definition after_cut (i : nat) (now : Z) (b : scopeBuffer) : scopeBuffer :=
  shrinkIfSparseLocked (resetIfEmptyLocked (set_lastWriteTS now (cut_item i b))).

Lemma deleteIndex_run i p b a t : buf_pre b a → items b !! i = Some p →
  deleteIndexLocked i (mkctx b a t) =
  (tt, mkctx (after_cut i (clk_micro t) b)
         (acct_bump (clk_micro t) (acct_add (- size_of b p) (-1) a)) (S t)).
Proof.
  intros P Hi. pose proof (list_elem_of_lookup_2 _ _ _ Hi) as Hp.
  pose proof (wf_size_le (p_wf _ _ P) p Hp) as Hs. pose proof (approxItemSize_pos (deref b p)) as Hpos.
  pose proof (pre_bytes _ _ P).
  pose proof (wf_bytes_nonneg (p_wf _ _ P)). apply lookup_lt_Some in Hi as Hlen.
  pose proof (p_items _ _ P). pose proof (p_top _ _ P). pose proof (p_max _ _ P).
  pose proof (p_rest _ _ P). fold (size_of b p) in Hpos.
  unfold deleteIndexLocked. rewrite bind_get_buf, (list_lookup_total_correct _ _ _ Hi).
  fold (size_of b p). rewrite bind_modify_buf, bind_now, (p_att _ _ P). cbv iota.
  rewrite bind_assoc, bind_eq.
  rewrite add_bytes_run by (unfold in_i64, MinInt64 in *; unfold MaxInt64 in *; lia).
  cbn [fst snd]. rewrite bind_assoc, bind_eq.
  rewrite add_items_run by (unfold acct_add, in_i64, MinInt64 in *; unfold MaxInt64 in *; cbn; lia).
  cbn [fst snd]. rewrite bind_eq, bump_run. cbn [fst snd]. rewrite !bind_modify_buf.
  unfold modify_buf, acct_add. cbn. by rewrite !Z.add_0_r.
Qed.

Lemma static_reset b : let b' := resetIfEmptyLocked b in
  attached b' = attached b ∧ detached b' = detached b ∧ maxItems b' = maxItems b ∧
  buf_maxItemBytes b' = buf_maxItemBytes b ∧ createdTS b' = createdTS b ∧ lastSeq b' = lastSeq b ∧
  heap b' = heap b ∧ cells b' = cells b ∧ bytes b' = bytes b ∧ lastWriteTS b' = lastWriteTS b ∧
  firstUUID b' = firstUUID b ∧ lastUUID b' = lastUUID b.
Proof. unfold resetIfEmptyLocked. case_match; cbn; auto 15. Qed.
Lemma static_shrink b : let b' := shrinkIfSparseLocked b in
  attached b' = attached b ∧ detached b' = detached b ∧ maxItems b' = maxItems b ∧
  buf_maxItemBytes b' = buf_maxItemBytes b ∧ createdTS b' = createdTS b ∧ lastSeq b' = lastSeq b ∧
  heap b' = heap b ∧ cells b' = cells b ∧ bytes b' = bytes b ∧ lastWriteTS b' = lastWriteTS b ∧
  firstUUID b' = firstUUID b ∧ lastUUID b' = lastUUID b.
Proof. unfold shrinkIfSparseLocked. do 2 (case_match; [auto 15|]). cbn. auto 15. Qed.

(** What reset and shrink keep of a buffer that stays well-formed. *)
Lemma tidy_effect b : buf_wf b →
  let b' := shrinkIfSparseLocked (resetIfEmptyLocked b) in
  buf_wf b' ∧ view b' = view b ∧ items b' = items b.
Proof.
  intros W b'. assert (items b' = items b) as Hit by (unfold b'; by rewrite shrink_items, reset_items).
  split; [by apply wf_shrink, wf_reset|]. split; [|done].
  destruct (static_shrink (resetIfEmptyLocked b)) as (_ & _ & _ & _ & _ & _ & Eh & Ec & _).
  destruct (static_reset b) as (_ & _ & _ & _ & _ & _ & Eh' & Ec' & _).
  apply view_frame; [by rewrite <- Eh', <- Eh|by rewrite <- Ec', <- Ec|done].
Qed.

Lemma delete_effect i p now b a : buf_pre b a → items b !! i = Some p →
  let b' := after_cut i now b in
  bstep b a b' (acct_bump now (acct_add (- size_of b p) (-1) a)) ∧
  view b' = delete i (view b) ∧ lastSeq b' = lastSeq b.
Proof.
  intros P Hi b'. pose proof (p_wf _ _ P) as W. pose proof (list_elem_of_lookup_2 _ _ _ Hi) as Hp.
  pose proof (wf_size_le W p Hp) as Hs. pose proof (pre_bytes _ _ P).
  pose proof (approxItemSize_pos (deref b p)) as Hpos. fold (size_of b p) in Hpos.
  pose proof (p_top _ _ P). pose proof (p_max _ _ P).
  set (c := set_lastWriteTS now (cut_item i b)).
  assert (buf_wf c) as Wc.
  { eapply wf_frame; [apply (wf_cut W i p Hi); lia|reflexivity..]. }
  destruct (tidy_effect c Wc) as (Wb & Vb & Ib). 
  change (shrinkIfSparseLocked (resetIfEmptyLocked c)) with b' in Wb, Vb, Ib.
  destruct (static_shrink (resetIfEmptyLocked c)) as (S1 & S2 & S3 & S4 & S5 & S6 & _ & _ & S7 & _).
  destruct (static_reset c) as (R1 & R2 & R3 & R4 & R5 & R6 & _ & _ & R7 & _).
  assert (bytes c = bytes b - size_of b p) as Ebc.
  { unfold c. cbn. rewrite (list_lookup_total_correct _ _ _ Hi). fold (size_of b p).
    apply i64_id. unfold in_i64, MinInt64, MaxInt64 in *. lia. }
  assert (length (items c) = length (items b) - 1)%nat as Elen.
  { unfold c. cbn. apply length_delete. by rewrite Hi. }
  apply lookup_lt_Some in Hi as Hlt.
  split; [constructor|split].
  - done.
  - intros U _. apply (tidy_index c Wc). eapply (cut_index b); done.
  - unfold b', after_cut. fold c. rewrite S7, R7, Ebc. cbn. lia.
  - rewrite Ib, Elen. cbn. lia.
  - cbn. lia.
  - done.
  - done.
  - cbn. lia.
  - unfold b', after_cut. fold c. by rewrite S1, R1.
  - unfold b', after_cut. fold c. by rewrite S2, R2.
  - unfold b', after_cut. fold c. by rewrite S3, R3.
  - unfold b', after_cut. fold c. by rewrite S4, R4.
  - unfold b', after_cut. fold c. by rewrite S5, R5.
  - rewrite Ib, Elen. lia.
  - rewrite Vb. unfold c. rewrite <- view_cut. by apply view_frame.
  - unfold b', after_cut. fold c. by rewrite S6, R6.
Qed.

(** ** deleteByID, deleteBySeq, deleteByUUID *)
Definition deleted_at (b : scopeBuffer) (a : acct) (p i : nat) (t : nat) : result error Z * ctx :=
  (Ok 1, mkctx (after_cut i (clk_micro t) b)
           (acct_bump (clk_micro t) (acct_add (- size_of b p) (-1) a)) (S t)).

Lemma delete_tail_run p b a t : buf_pre b a → p ∈ items b →
  ∃ i, items b !! i = Some p ∧
  (match indexBySeqLocked b (Seq (deref b p)) with
   | None => ret (Ok 0)
   | Some i => deleteIndexLocked i ;;; ret (Ok 1)
   end : M (result error Z)) (mkctx b a t) = deleted_at b a p i t.
Proof.
  intros P Hp. destruct (index_ptr (p_wf _ _ P) p Hp) as (i & Hi & ->).
  exists i. split; [done|]. by rewrite bind_eq, (deleteIndex_run i p).
Qed.

(** Every address form: 409 on a detached buffer, 0 on a miss, else the item
    that is addressed goes. *)
Definition delete_outcome (found : option nat) (b : scopeBuffer) (a : acct) (t : nat)
    (r : result error Z * ctx) : Prop :=
  if detached b then r = (Err ScopeDetachedError, mkctx b a t)
  else match found with
  | None => r = (Ok 0, mkctx b a t)
  | Some p => ∃ i, items b !! i = Some p ∧ r = deleted_at b a p i t
  end.

Lemma deleteByID_run id b a t : buf_pre b a →
  delete_outcome (byID b !! id) b a t (deleteByID id (mkctx b a t)).
Proof.
  intros P. unfold delete_outcome, deleteByID. rewrite bind_get_buf.
  destruct (detached b); [done|]. destruct (byID b !! id) as [p|] eqn:E; [|done].
  apply (w_byID _ (p_wf _ _ P)) in E as (Hp & _). by apply delete_tail_run.
Qed.
Lemma deleteBySeq_run s b a t : buf_pre b a →
  delete_outcome (bySeq b !! s) b a t (deleteBySeq s (mkctx b a t)).
Proof.
  intros P. unfold delete_outcome, deleteBySeq. rewrite bind_get_buf.
  destruct (detached b); [done|]. destruct (bySeq b !! s) as [p|] eqn:E; [|done].
  apply (w_bySeq _ (p_wf _ _ P)) in E as (Hp & <-). by apply delete_tail_run.
Qed.
Lemma deleteByUUID_run u b a t : buf_pre b a →
  delete_outcome (byUUID b !! u) b a t (deleteByUUID u (mkctx b a t)).
Proof.
  intros P. unfold delete_outcome, deleteByUUID. rewrite bind_get_buf.
  destruct (detached b); [done|]. destruct (byUUID b !! u) as [p|] eqn:E; [|done].
  apply (w_byUUID _ (p_wf _ _ P)) in E as (Hp & _). by apply delete_tail_run.
Qed.

(** ** The prefix drain *)
Lemma drain_maps b l : buf_wf b → NoDup l → (∀ p, p ∈ l → p ∈ items b) → bytes b ≤ MaxInt64 →
  zsum (size_of b) l ≤ bytes b →
  let r := foldl (drain_step b) (0, 0, (bySeq b, byID b, byUUID b)) l in
  r.1.1 = zsum (size_of b) l ∧ r.1.2 = zsum (λ p, slen (ID (deref b p))) l ∧
  (∀ s q, r.2.1.1 !! s = Some q ↔ bySeq b !! s = Some q ∧ q ∉ l) ∧
  (∀ id q, r.2.1.2 !! id = Some q ↔ byID b !! id = Some q ∧ q ∉ l) ∧
  (∀ u q, r.2.2 !! u = Some q → byUUID b !! u = Some q ∧ q ∉ l).
Proof.
  intros W Hnd Hin Hmax Hsum. cbv zeta. induction l as [|x l IH] using rev_ind.
  { cbn. split; [done|]. split; [done|]. set_solver. }
  apply NoDup_app in Hnd as (Hnd & Hx & _).
  assert (x ∈ items b) as Hxi by (apply Hin; set_solver).
  assert (∀ q, ¬ q ∈ l ++ [x] ↔ ¬ q ∈ l ∧ q ≠ x) as Hmem by set_solver.
  rewrite zsum_app in Hsum. cbn [zsum] in Hsum.
  assert (0 ≤ zsum (size_of b) l) as Hnn.
  { apply zsum_nonneg. intros p _. pose proof (approxItemSize_pos (deref b p)). unfold size_of. lia. }
  pose proof (approxItemSize_pos (deref b x)) as Hpx. fold (size_of b x) in Hpx.
  destruct IH as (I1 & I2 & I3 & I4 & I5); [done|set_solver|lia|].
  rewrite foldl_app. cbn [foldl].
  destruct (foldl (drain_step b) _ l) as [[f g] [[m1 m2] m3]]. cbn [fst snd] in *.
  unfold drain_step. cbn [fst snd]. rewrite !zsum_app. cbn [zsum].
  assert (0 ≤ zsum (λ p, slen (ID (deref b p))) l ≤ zsum (size_of b) l) as Hg.
  { split; [apply zsum_nonneg; intros; apply slen_nonneg|]. apply zsum_le. intros p _.
    unfold size_of. rewrite approxItemSize_eq. pose proof (slen_nonneg (Scope (deref b p))).
    pose proof (blen_nonneg (Payload (deref b p))). pose proof (blen_nonneg (renderBytes (deref b p))).
    destruct (IsZero _), (counter _); lia. }
  assert (slen (ID (deref b x)) ≤ size_of b x) as Hidx.
  { unfold size_of. rewrite approxItemSize_eq. pose proof (slen_nonneg (Scope (deref b x))).
    pose proof (blen_nonneg (Payload (deref b x))). pose proof (blen_nonneg (renderBytes (deref b x))).
    destruct (IsZero _), (counter _); lia. }
  pose proof (slen_nonneg (ID (deref b x))).
  split; [|split; [|split; [|split]]].
  - rewrite I1, i64_id; [fold (size_of b x); lia|].
    fold (size_of b x). unfold in_i64, MinInt64 in *. unfold MaxInt64 in *. lia.
  - case_bool_decide as Hid; [rewrite Hid; rewrite slen_empty; lia|].
    rewrite I2, i64_id; [lia|]. unfold in_i64, MinInt64 in *. unfold MaxInt64 in *. lia.
  - intros s q. rewrite lookup_delete_Some, I3, Hmem. split.
    + intros (Hne & Hq & Hql). split; [done|]. split; [done|]. intros ->.
      apply (w_bySeq _ W) in Hq as [_ ?]. congruence.
    + intros (Hq & Hql & Hqx). split; [|done]. intros E. apply Hqx.
      apply (w_bySeq _ W) in Hq as [Hqi Hqs]. apply (wf_seq_inj W); [done..|congruence].
  - intros id q. rewrite Hmem. case_bool_decide as Hid.
    + rewrite I4. split; [|tauto]. intros [Hq Hql]. split; [done|]. split; [done|]. intros ->.
      apply (w_byID _ W) in Hq as (_ & ? & ?). congruence.
    + rewrite lookup_delete_Some, I4. split.
      * intros (Hne & Hq & Hql). split; [done|]. split; [done|]. intros ->.
        apply (w_byID _ W) in Hq as (_ & ? & _). congruence.
      * intros (Hq & Hql & Hqx). split; [|done]. intros E. apply Hqx.
        assert (byID b !! id = Some x) by (apply (w_byID _ W); subst id; done). congruence.
  - intros u q. rewrite Hmem. destruct (IsZero (Uuid (deref b x))) eqn:Hz.
    + intros [Hq Hql]%I5. split; [done|]. split; [done|]. intros ->.
      apply (w_byUUID _ W) in Hq as (_ & ? & ?). congruence.
    + rewrite lookup_delete_Some. intros (Hne & [Hq Hql]%I5). split; [done|]. split; [done|].
      intros ->. apply (w_byUUID _ W) in Hq as (_ & ? & _). congruence.
Qed.

(** The cut: how many items have a seq of at most [maxSeq]. *)
Definition cut_at (b : scopeBuffer) (maxSeq : Z) : nat :=
  sort_Search (length (items b)) (λ i, maxSeq <? seq_at b i).

Definition after_drain (idx : nat) (now : Z) (b : scopeBuffer) : scopeBuffer :=
  let r := foldl (drain_step b) (0, 0, (bySeq b, byID b, byUUID b)) (take idx (items b)) in
  resetIfEmptyLocked (set_lastWriteTS now (drained idx r.1.1 r.1.2 r.2 b)).

Lemma drain_sum b idx : buf_wf b →
  bytes b = zsum (size_of b) (take idx (items b)) + zsum (size_of b) (drop idx (items b)) ∧
  48 * Z.of_nat (length (take idx (items b))) ≤ zsum (size_of b) (take idx (items b)) ∧
  48 * Z.of_nat (length (drop idx (items b))) ≤ zsum (size_of b) (drop idx (items b)).
Proof.
  intros W. rewrite <- zsum_app, take_drop, <- !(zsum_const 48).
  split; [apply (w_bytes _ W)|]. split; apply zsum_le; intros; apply approxItemSize_pos.
Qed.

Lemma deleteUpToSeqLocked_run maxSeq b a t : buf_pre b a →
  let idx := cut_at b maxSeq in
  deleteUpToSeqLocked maxSeq (mkctx b a t) =
  if (idx =? 0)%nat then (0, mkctx b a t)
  else (Z.of_nat idx,
        mkctx (after_drain idx (clk_micro t) b)
          (acct_bump (clk_micro t)
            (acct_add (- zsum (size_of b) (take idx (items b))) (- Z.of_nat idx) a)) (S t)).
Proof.
  intros P idx. pose proof (p_wf _ _ P) as W. unfold deleteUpToSeqLocked. rewrite bind_get_buf.
  fold (cut_at b maxSeq). fold idx. destruct (idx =? 0)%nat; [done|].
  pose proof (pre_bytes _ _ P). pose proof (p_top _ _ P). pose proof (p_max _ _ P).
  pose proof (p_items _ _ P). pose proof (p_rest _ _ P).
  destruct (drain_sum b idx W) as (Es & Hs1 & Hs2). pose proof (wf_bytes_nonneg W).
  assert (idx ≤ length (items b))%nat as Hidx.
  { destruct (search_cut W (λ x, maxSeq <? x)) as [? _]; [|done].
    intros x y ? ?%Z.ltb_lt. apply Z.ltb_lt. lia. }
  clearbody idx.
  destruct (drain_maps b (take idx (items b)) W) as (E1 & _); [|apply subseteq_take|lia|lia|].
  { eapply sublist_NoDup; [exact (wf_nodup W)|apply sublist_take]. }
  unfold after_drain. cbv zeta in E1 |- *.
  destruct (foldl (drain_step b) _ _) as [[f g] m]. cbn [fst snd] in *. subst f.
  rewrite bind_modify_buf, bind_now, (p_att _ _ P). cbv iota. rewrite bind_assoc, bind_eq.
  rewrite length_take in Hs1.
  rewrite add_bytes_run by (unfold in_i64, MinInt64 in *; unfold MaxInt64 in *; lia).
  cbn [fst snd]. rewrite bind_assoc, bind_eq.
  rewrite add_items_run by (unfold acct_add, in_i64, MinInt64 in *; unfold MaxInt64 in *; cbn; lia).
  cbn [fst snd]. rewrite bind_eq, bump_run. cbn [fst snd]. rewrite !bind_modify_buf.
  unfold acct_add, ret. cbn. by rewrite !Z.add_0_r.
Qed.

Lemma cut_split b maxSeq : buf_wf b →
  (cut_at b maxSeq ≤ length (items b))%nat ∧
  (∀ i p, items b !! i = Some p → (i < cut_at b maxSeq)%nat → Seq (deref b p) ≤ maxSeq) ∧
  (∀ i p, items b !! i = Some p → (cut_at b maxSeq ≤ i)%nat → maxSeq < Seq (deref b p)).
Proof.
  intros W. destruct (search_cut W (λ x, maxSeq <? x)) as (H1 & H2 & H3).
  { intros x y ? ?%Z.ltb_lt. apply Z.ltb_lt. lia. }
  split; [done|]. split; intros i p Hi Hk.
  - apply Z.ltb_ge. by apply (H2 i p).
  - apply Z.ltb_lt. by apply (H3 i p).
Qed.

(** The surviving content is what the comparison with [maxSeq] keeps. *)
Lemma view_keep b maxSeq : buf_wf b →
  drop (cut_at b maxSeq) (view b) = filter (λ e : aitem, maxSeq < Seq e.1) (view b) ∧
  take (cut_at b maxSeq) (view b) = filter (λ e : aitem, Seq e.1 ≤ maxSeq) (view b).
Proof.
  intros W. destruct (cut_split b maxSeq W) as (H1 & H2 & H3).
  set (k := cut_at b maxSeq) in *. clearbody k.
  assert (∀ i e, view b !! i = Some e → (i < k)%nat → Seq e.1 ≤ maxSeq) as H2'.
  { intros i e He Hk. unfold view in He. rewrite list_lookup_fmap in He.
    destruct (items b !! i) as [p|] eqn:Hp; [|done]. cbn in He. simplify_eq. by apply (H2 i p). }
  assert (∀ i e, view b !! i = Some e → (k ≤ i)%nat → maxSeq < Seq e.1) as H3'.
  { intros i e He Hk. unfold view in He. rewrite list_lookup_fmap in He.
    destruct (items b !! i) as [p|] eqn:Hp; [|done]. cbn in He. simplify_eq. by apply (H3 i p). }
  clear H1 H2 H3. revert k H2' H3'. generalize (view b) as l.
  induction l as [|e l IH]; intros k H2 H3; [by rewrite drop_nil, take_nil|].
  rewrite !filter_cons. destruct k as [|k].
  - pose proof (H3 0%nat e eq_refl ltac:(lia)). rewrite decide_True, decide_False by lia.
    destruct (IH 0%nat) as [E1 E2]; [intros; lia|intros i x Hi _; apply (H3 (S i)); [done|lia]|].
    rewrite drop_0 in E1. cbn [drop take]. split; [by f_equal|]. by rewrite take_0 in E2.
  - pose proof (H2 0%nat e eq_refl ltac:(lia)). rewrite decide_False, decide_True by lia.
    destruct (IH k) as [E1 E2];
      [intros i x Hi Hk; apply (H2 (S i)); [done|lia]|intros i x Hi Hk; apply (H3 (S i)); [done|lia]|].
    cbn [drop take]. split; [done|by f_equal].
Qed.

Lemma drain_effect idx now b a : buf_pre b a → (idx ≤ length (items b))%nat →
  let b' := after_drain idx now b in
  bstep b a b' (acct_bump now
    (acct_add (- zsum (size_of b) (take idx (items b))) (- Z.of_nat idx) a)) ∧
  view b' = drop idx (view b) ∧ lastSeq b' = lastSeq b.
Proof.
  intros P Hidx b'. pose proof (p_wf _ _ P) as W.
  pose proof (pre_bytes _ _ P). pose proof (p_top _ _ P). pose proof (p_max _ _ P).
  destruct (drain_sum b idx W) as (Es & Hs1 & Hs2).
  destruct (drain_maps b (take idx (items b)) W) as (E1 & E2 & E3 & E4 & E5);
    [eapply sublist_NoDup; [exact (wf_nodup W)|apply sublist_take]|apply subseteq_take|lia|lia|].
  assert (∀ q, q ∈ drop idx (items b) ↔ q ∈ items b ∧ ¬ q ∈ take idx (items b)) as Hmem.
  { intros q. pose proof (wf_nodup W) as Hnd. rewrite <- (take_drop idx (items b)) in Hnd.
    apply NoDup_app in Hnd as (_ & Hd & _).
    rewrite <- (take_drop idx (items b)) at 2. rewrite elem_of_app. naive_solver. }
  pose proof (λ u q U, drain_index b (take idx (items b)) u q U (subseteq_take _ _)) as E6.
  unfold after_drain in b'. cbv zeta in E1, E2, E3, E4, E5.
  destruct (foldl (drain_step b) _ _) as [[f g] m]. cbn [fst snd] in *. subst f.
  set (c := set_lastWriteTS now (drained idx (zsum (size_of b) (take idx (items b))) g m b)) in *.
  assert (bytes c = zsum (size_of b) (drop idx (items b))) as Ebc.
  { unfold c. cbn. rewrite i64_id; [lia|]. unfold in_i64, MinInt64 in *. unfold MaxInt64 in *. lia. }
  assert (buf_wf c) as Wc.
  { apply (wf_restrict b); try reflexivity; try done; unfold c; cbn [items bySeq byID byUUID set_lastWriteTS drained].
    - apply sublist_drop.
    - intros s q. rewrite E3, Hmem. split; [|tauto]. intros [Hq ?]. split; [done|].
      split; [|done]. by apply (w_bySeq _ W) in Hq as [? _].
    - intros id q. rewrite E4, Hmem. split; [|tauto]. intros [Hq ?]. split; [done|].
      split; [|done]. by apply (w_byID _ W) in Hq as [? _].
    - intros u q [Hq Hql]%E5. rewrite Hmem. apply (w_byUUID _ W) in Hq as (? & ? & ?). done. }
  destruct (static_reset c) as (R1 & R2 & R3 & R4 & R5 & R6 & Rh & Rc & R7 & _).
  assert (items b' = drop idx (items b)) as Ei by (unfold b'; by rewrite reset_items).
  assert (length (items b') = length (items b) - idx)%nat as El by (rewrite Ei; apply length_drop).
  split; [constructor|split].
  - by apply wf_reset.
  - intros U _. apply reset_index, (index_subset b); [done| | |done]; unfold c; cbn.
    + intros q Hq. by apply Hmem.
    + intros u q Hq Hu. apply E6; [done..|]. by apply Hmem.
  - unfold b'. rewrite R7, Ebc. cbn. lia.
  - rewrite El. cbn. lia.
  - cbn. lia.
  - done.
  - done.
  - cbn. lia.
  - unfold b'. by rewrite R1.
  - unfold b'. by rewrite R2.
  - unfold b'. by rewrite R3.
  - unfold b'. by rewrite R4.
  - unfold b'. by rewrite R5.
  - rewrite El. lia.
  - rewrite (view_restrict b b') by (unfold b'; by rewrite ?Rh, ?Rc).
    rewrite Ei, fmap_drop. done.
  - unfold b'. by rewrite R6.
Qed.
End Spec.
