(* ===== verification/BufferCounter.v ===== *)
(** * buffer_counter.go: /counter_add

  The fast path runs on an existing cell under the read lock; the slow path
  promotes an item or creates one. Each compare-and-swap loop is one step here:
  in an atomic step the swap succeeds at once (Interleave.v runs the loop
  against concurrent increments). *)
From S2P Require Import Prelude GoStd Uuid Types Buffer BufferInv BufferSpec BufferWrite BufferRead.

Section BufferCounter.
Context `{Env} `{Caps}.

Definition counter_exceeds (v : Z) : bool := (MaxCounterValue <? v) || (v <? - MaxCounterValue).

(** The CAS-max of the cell's timestamp. *)
Definition cas_max_ts (nowUs : Z) (cell : counterCell) : counterCell :=
  if nowUs <=? cell_ts cell then cell else mkcounterCell (cell_value cell) nowUs.

Definition set_cell (c : nat) (cell : counterCell) (b : scopeBuffer) : scopeBuffer := Eval fields in
  b <| cells := <[c := cell]> (cells b) |>.

Definition atomicCounterAdd (c : nat) (by_ : Z) : M (result error Z) :=
  let* b := get_buf in
  let cell := cells b !!! c in
  let cur := cell_value cell in
  let next := i64 (cur + by_) in
  if counter_exceeds next then ret (Err (CounterOverflowError cur by_))
  else
    let* nowUs := nowUnixMicro in
    modify_buf (set_cell c (cas_max_ts nowUs (mkcounterCell next (cell_ts cell)))) ;;;
    ret (Ok next).

Definition not_number : error :=
  CounterPayloadError "the existing item's payload is not a JSON number".
Definition not_integer : error :=
  CounterPayloadError "the existing item's payload is not an integer".
Definition out_of_range : error :=
  CounterPayloadError "the existing counter value is outside the allowed range of ±(2^53-1)".

Definition parseCounterValue (payload : slice) : result error Z :=
  match json_number_of (default "" payload) with
  | None => Err not_number
  | Some num =>
      match ParseInt num with
      | None => Err not_integer
      | Some v => if counter_exceeds v then Err out_of_range else Ok v
      end
  end.

(** counterAddSlow, promote branch: a cell pre-loaded with the new value. *)
Definition promoted_item (existing : Item) (cell : nat) : Item := Eval fields in
  existing <| counter := Some cell |> <| Payload := None |> <| renderBytes := None |>.
Definition new_cell (cell : counterCell) : M nat :=
  let* b := get_buf in
  modify_buf (λ b, alloc_cell b cell) ;;;
  ret (nextp b).

Definition counterAddSlow_promote (p : nat) (by_ : Z) : M (result error (Z * bool)) :=
  let* b := get_buf in
  let existing := deref b p in
  match parseCounterValue (Payload existing) with
  | Err e => ret (Err e)
  | Ok current =>
      let newValue := i64 (current + by_) in
      if counter_exceeds newValue then ret (Err (CounterOverflowError current by_))
      else match indexBySeqLocked b (Seq existing) with
      | None => ret (Ok (0, false))
      | Some i =>
          let oldSize := approxItemSize existing in
          let* nowUs := nowUnixMicro in
          let* cell := new_cell (mkcounterCell newValue nowUs) in
          let promoted := promoted_item existing cell in
          let newSize := approxItemSize promoted in
          let delta := i64 (newSize - oldSize) in
          let? _ := (if attached b && negb (delta =? 0) then
                       let* r := reserveBytes delta in
                       let '(ok, total, max) := r in
                       if (ok : bool) then ret (Ok tt)
                       else ret (Err (StoreFullError total delta max))
                     else ret (Ok tt)) in
          write_item (items b !!! i) (λ _, promoted) ;;;
          modify_buf (λ b, set_bytes (i64 (bytes b + delta)) b) ;;;
          ret (Ok (newValue, false))
      end
  end.

(** counterAddSlow, create branch, from [b.lastSeq++] to [b.bytes += size]. *)
Definition create_fields (id : string) (item : Item) (size : Z) (b : scopeBuffer) : scopeBuffer :=
  Eval fields in
  let stored := nextp b in
  let item := item <| Seq := u64 (lastSeq b + 1) |> in
  b <| lastSeq := u64 (lastSeq b + 1) |>
    <| heap := <[stored := item]> (heap b) |>
    <| nextp := S stored |>
    <| items := items b ++ [stored] |>
    <| itemsCap := append_cap b |>
    <| bySeq := <[Seq item := stored]> (bySeq b) |>
    <| byID := <[id := stored]> (byID b) |>
    <| idKeyBytes := i64 (idKeyBytes b + slen id) |>
    <| byUUID := if IsZero (Uuid item) then byUUID b else <[Uuid item := stored]> (byUUID b) |>
    <| firstUUID := if IsZero (Uuid item) then firstUUID b
                    else if IsZero (firstUUID b) then Uuid item else firstUUID b |>
    <| lastUUID := if IsZero (Uuid item) then lastUUID b else Uuid item |>
    <| bytes := i64 (bytes b + size) |>.

Definition counter_item (scope id : string) (nowUs : Z) (u : UUID) (cell : nat) : Item :=
  mkItem scope id 0 nowUs u None None (Some cell).

Definition counterAddSlow_create (scope id : string) (by_ : Z) (mintedUUID : UUID)
    : M (result error (Z * bool)) :=
  let* b := get_buf in
  if itemCapExceeded b (Z.of_nat (length (items b)) + 1) then
    ret (Err (ScopeFullError (Z.of_nat (length (items b))) (maxItems b)))
  else
    let* nowUs := nowUnixMicro in
    let* cell := new_cell (mkcounterCell by_ nowUs) in
    let item := counter_item scope id nowUs (if attached b then mintedUUID else zeroUUID) cell in
    let size := approxItemSize item in
    let? _ := (if attached b then
                 let* r := reserveBytes size in
                 let '(ok, total, max) := r in
                 if (ok : bool) then ret (Ok tt) else ret (Err (StoreFullError total size max))
               else ret (Ok tt)) in
    modify_buf (create_fields id item size) ;;;
    (if attached b then add_totalItems 1 else ret tt) ;;;
    ret (Ok (by_, true)).

Definition counterAddSlow (scope id : string) (by_ : Z) : M (result error (Z * bool)) :=
  let* mintedUUID := mintUUID in
  let* b := get_buf in
  if detached b then ret (Err ScopeDetachedError)
  else match byID b !! id with
  | Some p =>
      match counter (deref b p) with
      | Some c => let? value := atomicCounterAdd c by_ in ret (Ok (value, false))
      | None => counterAddSlow_promote p by_
      end
  | None => counterAddSlow_create scope id by_ mintedUUID
  end.

(** The fast path: [Some] when the item already has a cell. *)
Definition counterAdd (scope id : string) (by_ : Z) : M (result error (Z * bool)) :=
  let* b := get_buf in
  let fast := if detached b then None
              else match byID b !! id with
                   | Some p => counter (deref b p)
                   | None => None
                   end in
  match fast with
  | Some c => let? value := atomicCounterAdd c by_ in ret (Ok (value, false))
  | None => counterAddSlow scope id by_
  end.
End BufferCounter.
