(* ===== verification/BufferCounterSpec.v ===== *)
(** * What counter_add does

  The value of a counter is read off the scope's content ([counter_value]); an
  addition moves it by the amount asked for, within the range, and changes
  nothing else of the content. *)
From S2P Require Import Prelude GoStd Uuid Types Buffer BufferInv BufferSpec BufferWrite.
From S2P Require Import BufferWriteSpec BufferRead BufferCounter.

Section Spec.
Context `{Env} `{Caps}.

(** The integer an item holds for counter_add: its cell, or its payload. *)
Definition counter_value (e : aitem) : result error Z :=
  match e.2 with
  | Some cell => Ok (cell_value cell)
  | None => parseCounterValue (Payload e.1)
  end.

Definition in_counter (v : Z) : Prop := - MaxCounterValue ≤ v ≤ MaxCounterValue.

Lemma counter_exceeds_spec v : counter_exceeds v = false ↔ in_counter v.
Proof. unfold counter_exceeds, in_counter. rewrite orb_false_iff, !Z.ltb_ge. lia. Qed.

Lemma counter_sum cur by_ : in_counter cur → in_counter by_ → i64 (cur + by_) = cur + by_.
Proof.
  unfold in_counter. change MaxCounterValue with 9007199254740991. intros.
  apply i64_id. unfold in_i64, MinInt64, MaxInt64. lia.
Qed.

Lemma parseCounterValue_range p v : parseCounterValue p = Ok v → in_counter v.
Proof.
  unfold parseCounterValue. destruct (json_number_of _); [|done]. destruct (ParseInt _); [|done].
  destruct (counter_exceeds _) eqn:E; [done|]. intros [= <-]. by apply counter_exceeds_spec.
Qed.

(** ** A write to a cell *)
Lemma wf_set_cell b c cell : buf_wf b → is_Some (cells b !! c) → cell_ok cell →
  buf_wf (set_cell c cell b).
Proof.
  intros W Hc Hok. destruct W. constructor; cbn; try assumption.
  - intros p Hp. destruct (w_fresh p Hp) as [? E]. split; [done|].
    rewrite lookup_insert_ne; [done|]. intros ->. rewrite E in Hc. by destruct Hc.
  - intros p c' Hp Hpc. destruct (decide (c = c')) as [<-|].
    + exists cell. by rewrite lookup_insert_eq.
    + rewrite lookup_insert_ne by done. by eapply w_cells.
Qed.

Lemma view_set_cell b i p c cell : buf_wf b → items b !! i = Some p →
  counter (deref b p) = Some c →
  view (set_cell c cell b) = <[i := (no_pointer (deref b p), Some cell)]> (view b).
Proof.
  intros W Hi Hc. apply list_eq. intros j. unfold view. cbn [set_cell items].
  destruct (decide (i = j)) as [<-|Hne].
  - rewrite list_lookup_insert_eq by (rewrite length_fmap; by eapply lookup_lt_Some).
    rewrite list_lookup_fmap, Hi. cbn. unfold view_item.
    change (deref (set_cell c cell b) p) with (deref b p). rewrite Hc. cbn.
    by rewrite lookup_insert_eq.
  - rewrite list_lookup_insert_ne, !list_lookup_fmap by done.
    destruct (items b !! j) as [q|] eqn:Hj; [|done]. cbn. unfold view_item.
    change (deref (set_cell c cell b) q) with (deref b q). f_equal. f_equal.
    destruct (counter (deref b q)) as [c'|] eqn:Hq; [|done]. cbn.
    rewrite lookup_insert_ne; [done|]. intros <-. apply Hne.
    eapply (NoDup_lookup (items b)); [exact (wf_nodup W)|done|].
    rewrite Hj. f_equal. eapply (w_cellinj _ W); eauto using list_elem_of_lookup_2.
Qed.

Lemma bstep_cell b a b' : buf_pre b a → buf_wf b' → index_kept b b' → bytes b' = bytes b →
  length (items b') = length (items b) → attached b' = attached b → detached b' = detached b →
  maxItems b' = maxItems b → buf_maxItemBytes b' = buf_maxItemBytes b →
  createdTS b' = createdTS b → bstep b a b' a.
Proof.
  intros [] W K Eb El. intros. constructor; try done; try lia.
Qed.

(** ** The found-cell path: fast path and slow path alike *)
Definition bumped (cell : counterCell) (by_ now : Z) : counterCell :=
  mkcounterCell (cell_value cell + by_) (Z.max (cell_ts cell) now).

Lemma cas_max_ts_eq v ts now : cas_max_ts now (mkcounterCell v ts) = mkcounterCell v (Z.max ts now).
Proof. unfold cas_max_ts. cbn. ztests; f_equal; lia. Qed.

Lemma atomicCounterAdd_run c by_ cell b a t :
  cells b !! c = Some cell → cell_ok cell → in_counter by_ →
  atomicCounterAdd c by_ (mkctx b a t) =
  if counter_exceeds (cell_value cell + by_)
  then (Err (CounterOverflowError (cell_value cell) by_), mkctx b a t)
  else (Ok (cell_value cell + by_),
        mkctx (set_cell c (bumped cell by_ (clk_micro t)) b) a (S t)).
Proof.
  intros Hc Hok Hby. unfold atomicCounterAdd. rewrite bind_get_buf.
  rewrite (lookup_total_correct _ _ _ Hc), counter_sum by done.
  destruct (counter_exceeds _); [done|]. rewrite bind_now, bind_modify_buf, cas_max_ts_eq. done.
Qed.

Lemma bumped_effect i p c by_ now cell b a : buf_pre b a → items b !! i = Some p →
  counter (deref b p) = Some c → cells b !! c = Some cell →
  counter_exceeds (cell_value cell + by_) = false →
  let b' := set_cell c (bumped cell by_ now) b in
  bstep b a b' a ∧ lastSeq b' = lastSeq b ∧
  view b' = <[i := (no_pointer (deref b p), Some (bumped cell by_ now))]> (view b).
Proof.
  intros P Hi Hc Hcell Hex b'. pose proof (p_wf _ _ P) as W. split; [|split; [done|]].
  - apply bstep_cell; try done; [|by apply kept_keys]. apply wf_set_cell; [done|by eexists|].
    by apply counter_exceeds_spec in Hex.
  - by apply view_set_cell.
Qed.

(** ** Promotion of an ordinary item *)
Lemma promote_size it c : counter it = None →
  approxItemSize (promoted_item it c) - approxItemSize it
  = counterCellOverhead - payloadAndRenderBytes it.
Proof.
  intros Hc. rewrite !approxItemSize_eq. unfold promoted_item, payloadAndRenderBytes, counterCellOverhead.
  cbn. rewrite Hc. lia.
Qed.

Definition promote_delta (b : scopeBuffer) (p : nat) : Z :=
  counterCellOverhead - payloadAndRenderBytes (deref b p).
Definition promoted_at (b : scopeBuffer) (p : nat) (v now : Z) : scopeBuffer :=
  set_bytes (bytes b + promote_delta b p)
    (set_heap (<[p := promoted_item (deref b p) (nextp b)]> (heap b))
      (alloc_cell b (mkcounterCell v now))).

Definition promote_outcome (b : scopeBuffer) (a : acct) (p : nat) (by_ : Z) (t : nat)
    : result error (Z * bool) * ctx :=
  match parseCounterValue (Payload (deref b p)) with
  | Err e => (Err e, mkctx b a t)
  | Ok cur =>
      if counter_exceeds (cur + by_) then (Err (CounterOverflowError cur by_), mkctx b a t)
      else
        let now := clk_micro t in
        let d := promote_delta b p in
        if totalBytes a + d <=? ceiling a
        then (Ok (cur + by_, false),
              mkctx (promoted_at b p (cur + by_) now) (acct_add d 0 a) (S t))
        else (Err (StoreFullError (totalBytes a) d maxStoreBytes),
              mkctx (alloc_cell b (mkcounterCell (cur + by_) now)) a (S t))
  end.

Lemma promote_delta_range b a p : buf_pre b a → p ∈ items b →
  - bytes b ≤ promote_delta b p ≤ counterCellOverhead.
Proof.
  intros P Hp. pose proof (wf_size_le (p_wf _ _ P) p Hp) as Hs.
  pose proof (payload_bytes_le (deref b p)) as Hx.
  unfold promote_delta, size_of, counterCellOverhead in *. lia.
Qed.

Lemma promote_run p by_ b a t : buf_pre b a → p ∈ items b → counter (deref b p) = None →
  in_counter by_ →
  counterAddSlow_promote p by_ (mkctx b a t) = promote_outcome b a p by_ t.
Proof.
  intros P Hp Hc Hby. unfold counterAddSlow_promote, promote_outcome. rewrite bind_get_buf.
  destruct (parseCounterValue _) as [cur|e] eqn:Ep; [|done].
  rewrite counter_sum by eauto using parseCounterValue_range.
  destruct (counter_exceeds _); [done|].
  destruct (index_ptr (p_wf _ _ P) p Hp) as (i & Hi & ->).
  cbv zeta. rewrite bind_now. unfold new_cell. rewrite bind_assoc, bind_get_buf, bind_assoc,
    bind_modify_buf, bind_ret, promote_size by done. fold (promote_delta b p).
  pose proof (promote_delta_range b a p P Hp) as Hd. pose proof (pre_bytes _ _ P).
  destruct (pre_totals _ _ P) as (? & ? & ? & ? & ?).
  unfold counterCellOverhead in Hd.
  assert (in_i64 (promote_delta b p)) as Hdi
    by (unfold in_i64, MinInt64 in *; unfold MaxInt64 in *; lia).
  rewrite (i64_id _ Hdi), (p_att _ _ P). cbn [andb].
  set (d := promote_delta b p) in *. set (b1 := alloc_cell b _).
  unfold bindE. rewrite bind_eq.
  assert ((if negb (d =? 0)
    then let* r := reserveBytes d in
         let '(ok, total, max) := r in
         if (ok : bool) then ret (Ok tt) else ret (Err (StoreFullError total d max))
    else ret (Ok tt)) (mkctx b1 a (S t)) =
    if totalBytes a + d <=? ceiling a
    then (Ok tt, mkctx b1 (acct_add d 0 a) (S t))
    else (Err (StoreFullError (totalBytes a) d maxStoreBytes), mkctx b1 a (S t))) as ->.
  { destruct (Z.eqb_spec d 0) as [->|]; cbn [negb].
    - destruct (Z.leb_spec (totalBytes a + 0) (ceiling a)); [|lia].
      unfold acct_add. rewrite !Z.add_0_r. by destruct a.
    - rewrite bind_eq, reserve_run by (unfold MinInt64, MaxInt64 in *; lia). by destruct (_ <=? _). }
  destruct (Z.leb_spec (totalBytes a + d) (ceiling a)); [|done]. cbn [fst snd].
  rewrite (list_lookup_total_correct _ _ _ Hi). unfold write_item. rewrite !bind_modify_buf.
  change (bytes (set_heap _ b1)) with (bytes b).
  rewrite (i64_id (bytes b + d)) by (unfold in_i64, MinInt64 in *; unfold MaxInt64 in *; lia). done.
Qed.

Lemma promote_effect i p v now b a : buf_pre b a → items b !! i = Some p →
  counter (deref b p) = None → in_counter v →
  totalBytes a + promote_delta b p ≤ ceiling a →
  let b' := promoted_at b p v now in
  bstep b a b' (acct_add (promote_delta b p) 0 a) ∧ lastSeq b' = lastSeq b ∧
  view b' = <[i := (no_pointer (promoted_item (deref b p) 0), Some (mkcounterCell v now))]> (view b).
Proof.
  intros P Hi Hc Hv Hfit b'. pose proof (p_wf _ _ P) as W.
  pose proof (list_elem_of_lookup_2 _ _ _ Hi) as Hp.
  set (cell := mkcounterCell v now). set (b1 := alloc_cell b cell).
  set (it := promoted_item (deref b p) (nextp b)).
  assert (buf_wf b1) as W1 by (by apply wf_alloc_cell).
  assert (buf_wf (set_ptr b1 p it)) as W2.
  { apply wf_set; [done..|]. cbn. intros c [= <-]. split.
    - exists cell. split; [by rewrite lookup_insert_eq|done].
    - intros q Hq _. exact (alloc_cell_unused b q W Hq). }
  assert (bytes (set_ptr b1 p it) = bytes b') as Eb.
  { cbn. unfold size_of. change (deref b1 p) with (deref b p). unfold it.
    by rewrite promote_size. }
  pose proof (promote_delta_range b a p P Hp). pose proof (pre_bytes _ _ P).
  destruct (pre_totals _ _ P) as (? & ? & ? & ? & ?).
  split; [constructor|split].
  - eapply wf_frame; [exact W2|..]; try reflexivity. by rewrite Eb.
  - apply kept_keys; [done..|]. intros q _. change (deref b' q) with (deref (set_ptr b1 p it) q).
    destruct (decide (q = p)) as [->|]; [by rewrite deref_set_eq|by rewrite deref_set_ne].
  - cbn. lia.
  - cbn. lia.
  - cbn. lia.
  - done.
  - done.
  - cbn. lia.
  - done.
  - done.
  - done.
  - done.
  - done.
  - cbn. lia.
  - done.
  - rewrite (view_frame (set_ptr b1 p it) b') by reflexivity.
    rewrite (view_set b1 i p it W1 Hi). unfold b1. rewrite view_alloc_cell by done.
    f_equal. unfold it. cbn. by rewrite lookup_insert_eq.
Qed.

(** ** Creation *)
Definition created (b : scopeBuffer) (scope id : string) (by_ now : Z) (u : UUID) : scopeBuffer :=
  let item := counter_item scope id now u (nextp b) in
  create_fields id item (approxItemSize item) (alloc_cell b (mkcounterCell by_ now)).

Definition create_outcome (b : scopeBuffer) (a : acct) (scope id : string) (by_ : Z) (u : UUID)
    (t : nat) : result error (Z * bool) * ctx :=
  if itemCapExceeded b (Z.of_nat (length (items b)) + 1)
  then (Err (ScopeFullError (Z.of_nat (length (items b))) (maxItems b)), mkctx b a t)
  else
    let now := clk_micro t in
    let size := approxItemSize (counter_item scope id now u (nextp b)) in
    if totalBytes a + size <=? maxStoreBytes
    then (Ok (by_, true), mkctx (created b scope id by_ now u) (acct_add size 1 a) (S t))
    else (Err (StoreFullError (totalBytes a) size maxStoreBytes),
          mkctx (alloc_cell b (mkcounterCell by_ now)) a (S t)).

Lemma create_run scope id by_ u b a t : buf_pre b a →
  counterAddSlow_create scope id by_ u (mkctx b a t) = create_outcome b a scope id by_ u t.
Proof.
  intros P. unfold counterAddSlow_create, create_outcome. rewrite bind_get_buf.
  destruct (itemCapExceeded _ _); [done|]. rewrite bind_now. unfold new_cell.
  rewrite bind_assoc, bind_get_buf, bind_assoc, bind_modify_buf, bind_ret, (p_att _ _ P).
  destruct (pre_totals _ _ P) as (? & ? & ? & ? & ?).
  pose proof (approxItemSize_pos (counter_item scope id (clk_micro t) u (nextp b))) as Hpos.
  set (sz := approxItemSize _) in *. unfold bindE. rewrite bind_assoc, bind_eq, reserve_grow by lia.
  destruct (Z.leb_spec (totalBytes a + sz) maxStoreBytes); [|done]. cbn [fst snd].
  rewrite bind_ret, bind_modify_buf, bind_eq.
  rewrite add_items_run by (unfold in_i64, MinInt64, MaxInt64, acct_add in *; cbn; lia).
  unfold acct_add. cbn. by rewrite !Z.add_0_r.
Qed.

(** A new counter is a push on a buffer with one more cell. *)
Definition counter_it (b : scopeBuffer) (scope id : string) (now : Z) (u : UUID) : Item :=
  mkItem scope id (lastSeq b + 1) now u None None None.

Lemma created_push b scope id by_ now u : lastSeq b < MaxUint64 → 0 ≤ lastSeq b →
  id ≠ ""%string →
  let it := counter_item scope id now u (nextp b) in
  in_i64 (bytes b + approxItemSize it) →
  let b' := created b scope id by_ now u in
  let q := push (alloc_cell b (mkcounterCell by_ now)) (with_seq (lastSeq b + 1) it) in
  heap b' = heap q ∧ cells b' = cells q ∧ nextp b' = nextp q ∧ items b' = items q ∧
  byID b' = byID q ∧ bySeq b' = bySeq q ∧ byUUID b' = byUUID q ∧ lastSeq b' = lastSeq q ∧
  bytes b' = bytes q.
Proof.
  intros H1 H2 Hid it H3. cbn.
  rewrite (u64_id (lastSeq b + 1)) by (unfold in_u64, MaxUint64 in *; lia).
  rewrite bool_decide_false by done.
  fold it. rewrite i64_id by done. auto 10.
Qed.

Lemma create_effect scope id by_ now u b a size : buf_pre b a → lastSeq b < MaxUint64 →
  size = approxItemSize (counter_item scope id now u (nextp b)) →
  id ≠ ""%string → byID b !! id = None → in_counter by_ →
  maxItems b ≤ 0 ∨ Z.of_nat (length (items b)) + 1 ≤ maxItems b →
  totalBytes a + size ≤ maxStoreBytes →
  let b' := created b scope id by_ now u in
  bstep b a b' (acct_add size 1 a) ∧ lastSeq b' = lastSeq b + 1 ∧
  view b' = view b ++ [(counter_it b scope id now u, Some (mkcounterCell by_ now))].
Proof.
  intros P Hs Hsize Hid Hfree Hby Hcap Hfit b'. pose proof (p_wf _ _ P) as W.
  pose proof (w_last _ W) as Hl. pose proof (pre_bytes _ _ P).
  destruct (pre_totals _ _ P) as (? & ? & ? & ? & ?).
  set (it := counter_item scope id now u (nextp b)) in *.
  pose proof (approxItemSize_pos it) as Hpos. rewrite <- Hsize in Hpos.
  set (cell := mkcounterCell by_ now). set (b1 := alloc_cell b cell).
  assert (buf_wf b1) as W1 by (by apply wf_alloc_cell).
  destruct (created_push b scope id by_ now u) as (E1 & E2 & E3 & E4 & E5 & E6 & E7 & E8 & E9);
    [lia|lia|done|fold it; rewrite <- Hsize; unfold in_i64, MinInt64, MaxInt64 in *; lia|].
  fold it cell b1 in E1, E2, E3, E4, E5, E6, E7, E8, E9.
  change (created b scope id by_ now u) with b' in E1, E2, E3, E4, E5, E6, E7, E8, E9.
  assert (buf_wf (push b1 (with_seq (lastSeq b + 1) it))) as W2.
  { apply wf_push; [done|reflexivity|cbn; lia|done|]. cbn. intros c [= <-]. split.
    - exists cell. split; [by rewrite lookup_insert_eq|done].
    - intros q Hq. exact (alloc_cell_unused b q W Hq). }
  assert (length (items b') = S (length (items b))) as El
    by (rewrite E4; cbn; rewrite length_app; cbn; lia).
  split; [constructor|split].
  - eapply wf_frame; [exact W2|..]; assumption.
  - eapply (kept_push b); [|exact E1|exact E4|exact E7]. intros Hin.
    destruct (w_heap _ W _ Hin) as [x Hx]. destruct (w_fresh _ W (S (nextp b))) as [E _]; [lia|].
    change (nextp b1) with (S (nextp b)) in Hx. by rewrite E in Hx.
  - rewrite E9. change (bytes (push b1 ?x)) with (bytes b + approxItemSize x).
    rewrite with_seq_size, <- Hsize. cbn. lia.
  - rewrite El. cbn. lia.
  - cbn. lia.
  - done.
  - done.
  - cbn. lia.
  - done.
  - done.
  - done.
  - done.
  - done.
  - rewrite El. lia.
  - done.
  - rewrite (view_frame (push b1 (with_seq (lastSeq b + 1) it)) b') by assumption.
    rewrite view_push by done. unfold b1. rewrite view_alloc_cell by done. do 3 f_equal.
    cbn. by rewrite lookup_insert_eq.
Qed.

(** ** counterAdd on every branch *)
Definition found_outcome (b : scopeBuffer) (a : acct) (c : nat) (by_ : Z) (t : nat)
    : result error (Z * bool) * ctx :=
  let cell := cells b !!! c in
  if counter_exceeds (cell_value cell + by_)
  then (Err (CounterOverflowError (cell_value cell) by_), mkctx b a t)
  else (Ok (cell_value cell + by_, false),
        mkctx (set_cell c (bumped cell by_ (clk_micro t)) b) a (S t)).

Lemma found_run p c by_ b a t : buf_wf b → p ∈ items b → counter (deref b p) = Some c →
  in_counter by_ →
  (let? value := atomicCounterAdd c by_ in ret (Ok (value, false))) (mkctx b a t)
  = found_outcome b a c by_ t.
Proof.
  intros W Hp Hc Hby. destruct (w_cells _ W p c Hp Hc) as (cell & Hcell & Hok).
  unfold bindE. rewrite bind_eq, (atomicCounterAdd_run c by_ cell) by done.
  unfold found_outcome. rewrite (lookup_total_correct _ _ _ Hcell). by destruct (counter_exceeds _).
Qed.

Definition slow_outcome (b : scopeBuffer) (a : acct) (scope id : string) (by_ : Z) (t : nat)
    : result error (Z * bool) * ctx :=
  if detached b then (Err ScopeDetachedError, mkctx b a (t + 3))
  else match byID b !! id with
  | Some p =>
      match counter (deref b p) with
      | Some c => found_outcome b a c by_ (t + 3)
      | None => promote_outcome b a p by_ (t + 3)
      end
  | None => create_outcome b a scope id by_ (minted t) (t + 3)
  end.

Lemma counterAddSlow_run scope id by_ b a t : buf_pre b a → in_counter by_ →
  counterAddSlow scope id by_ (mkctx b a t) = slow_outcome b a scope id by_ t.
Proof.
  intros P Hby. unfold counterAddSlow, slow_outcome. rewrite bind_mint, bind_get_buf.
  replace (t + 3)%nat with (S (S (S t))) by lia.
  destruct (detached b); [done|]. destruct (byID b !! id) as [p|] eqn:E.
  - apply (w_byID _ (p_wf _ _ P)) in E as (Hp & _).
    destruct (counter (deref b p)) as [c|] eqn:Hc.
    + by apply (found_run p); [apply P|..].
    + by apply promote_run.
  - by apply create_run.
Qed.

Definition fast_outcome (b : scopeBuffer) (a : acct) (scope id : string) (by_ : Z) (t : nat)
    : result error (Z * bool) * ctx :=
  match (if detached b then None else byID b !! id ≫= λ p, counter (deref b p)) with
  | Some c => found_outcome b a c by_ t
  | None => slow_outcome b a scope id by_ t
  end.

Lemma counterAdd_run scope id by_ b a t : buf_pre b a → in_counter by_ →
  counterAdd scope id by_ (mkctx b a t) = fast_outcome b a scope id by_ t.
Proof.
  intros P Hby. unfold counterAdd, fast_outcome. rewrite bind_get_buf.
  destruct (detached b) eqn:Ed; [by apply counterAddSlow_run|].
  destruct (byID b !! id) as [p|] eqn:E; cbn; [|by apply counterAddSlow_run].
  apply (w_byID _ (p_wf _ _ P)) in E as (Hp & _).
  destruct (counter (deref b p)) as [c|] eqn:Hc; [|by apply counterAddSlow_run].
  by apply (found_run p); [apply P|..].
Qed.

(** ** The contract: the buffer's, and the arithmetic *)
Definition same_key (e e' : aitem) : Prop :=
  Scope e'.1 = Scope e.1 ∧ ID e'.1 = ID e.1 ∧ Seq e'.1 = Seq e.1 ∧ Uuid e'.1 = Uuid e.1.

Definition counter_post (b : scopeBuffer) (a : acct) (scope id : string) (by_ : Z)
    (r : result error (Z * bool)) (b' : scopeBuffer) (a' : acct) : Prop :=
  bstep b a b' a' ∧
  match r with
  | Err _ => view b' = view b ∧ a' = a ∧ lastSeq b' = lastSeq b
  | Ok (v, false) => lastSeq b' = lastSeq b ∧
      ∃ i e e' cur, view b !! i = Some e ∧ ID e.1 = id ∧ counter_value e = Ok cur ∧
        v = cur + by_ ∧ in_counter v ∧
        view b' = <[i := e']> (view b) ∧ counter_value e' = Ok v ∧ same_key e e'
  | Ok (v, true) => lastSeq b' = lastSeq b + 1 ∧ v = by_ ∧ (∀ e, e ∈ view b → ID e.1 ≠ id) ∧
      ∃ e', view b' = view b ++ [e'] ∧ counter_value e' = Ok by_ ∧
        Scope e'.1 = scope ∧ ID e'.1 = id ∧ Seq e'.1 = lastSeq b + 1
  end.

Definition outcome_post b a scope id by_ (r : result error (Z * bool) * ctx) : Prop :=
  counter_post b a scope id by_ r.1 (c_buf r.2) (c_acct r.2).

Lemma post_same b a scope id by_ e : buf_pre b a → counter_post b a scope id by_ (Err e) b a.
Proof. intros P. split; [by apply bstep_refl|done]. Qed.
Lemma post_cell b a scope id by_ e cell : buf_pre b a →
  counter_post b a scope id by_ (Err e) (alloc_cell b cell) a.
Proof.
  intros P. split; [apply bstep_cell; try done; [apply wf_alloc_cell, P|by apply kept_keys]|].
  split; [|done]. apply view_alloc_cell, P.
Qed.

Lemma view_lookup b i p : items b !! i = Some p → view b !! i = Some (view_item b p).
Proof. intros Hi. unfold view. by rewrite list_lookup_fmap, Hi. Qed.

Lemma view_no_id b id : buf_wf b → id ≠ ""%string → byID b !! id = None →
  ∀ e, e ∈ view b → ID e.1 ≠ id.
Proof.
  intros W Hid Hn e (p & -> & Hp)%list_elem_of_fmap Hx. cbn in Hx.
  assert (byID b !! id = Some p) by (by apply (w_byID _ W)). congruence.
Qed.

Lemma found_post p c scope id by_ b a t : buf_pre b a → byID b !! id = Some p →
  counter (deref b p) = Some c → outcome_post b a scope id by_ (found_outcome b a c by_ t).
Proof.
  intros P E Hc. pose proof (p_wf _ _ P) as W. apply (w_byID _ W) in E as (Hp & HI & _).
  destruct (w_cells _ W p c Hp Hc) as (cell & Hcell & _).
  apply list_elem_of_lookup in Hp as [i Hi].
  unfold outcome_post, found_outcome. rewrite (lookup_total_correct _ _ _ Hcell).
  destruct (counter_exceeds _) eqn:Hex; cbn; [by apply post_same|].
  destruct (bumped_effect i p c by_ (clk_micro t) cell b a P Hi Hc Hcell Hex) as (B & L & V).
  split; [done|]. split; [done|].
  exists i, (view_item b p), (no_pointer (deref b p), Some (bumped cell by_ (clk_micro t))),
    (cell_value cell).
  split; [by apply view_lookup|]. split; [done|]. split.
  { unfold counter_value, view_item. cbn. by rewrite Hc; cbn; rewrite Hcell. }
  split; [done|]. split; [by apply counter_exceeds_spec|]. done.
Qed.

Lemma promote_post p scope id by_ b a t : buf_pre b a → byID b !! id = Some p →
  counter (deref b p) = None → outcome_post b a scope id by_ (promote_outcome b a p by_ t).
Proof.
  intros P E Hc. pose proof (p_wf _ _ P) as W. apply (w_byID _ W) in E as (Hp & HI & _).
  apply list_elem_of_lookup in Hp as [i Hi].
  unfold outcome_post, promote_outcome.
  destruct (parseCounterValue _) as [cur|e] eqn:Ep; cbn; [|by apply post_same].
  destruct (counter_exceeds (cur + by_)) eqn:Hex; cbn; [by apply post_same|].
  apply counter_exceeds_spec in Hex.
  destruct (Z.leb_spec (totalBytes a + promote_delta b p) (ceiling a)); cbn; [|by apply post_cell].
  destruct (promote_effect i p (cur + by_) (clk_micro t) b a P Hi Hc Hex) as (B & L & V); [done|].
  split; [done|]. split; [done|]. eexists i, (view_item b p), _, cur.
  split; [by apply view_lookup|]. split; [done|]. split.
  { unfold counter_value, view_item. cbn. by rewrite Hc. }
  split; [done|]. split; [done|]. split; [exact V|]. done.
Qed.

Lemma create_post scope id by_ u b a t : buf_pre b a → lastSeq b < MaxUint64 →
  id ≠ ""%string → in_counter by_ → byID b !! id = None →
  outcome_post b a scope id by_ (create_outcome b a scope id by_ u t).
Proof.
  intros P Hs Hid Hby E. unfold outcome_post, create_outcome.
  destruct (itemCapExceeded _ _) eqn:Hcap; cbn; [by apply post_same|].
  apply cap_not_exceeded in Hcap.
  destruct (Z.leb_spec (totalBytes a + approxItemSize (counter_item scope id (clk_micro t) u (nextp b)))
    maxStoreBytes) as [Hfit|]; cbn; [|by apply post_cell].
  destruct (create_effect scope id by_ (clk_micro t) u b a _ P Hs eq_refl Hid E Hby Hcap Hfit)
    as (B & L & V).
  split; [done|]. split; [done|]. split; [done|]. split; [by apply (view_no_id b); [apply P|..]|].
  eexists. split; [exact V|]. done.
Qed.

Lemma slow_post scope id by_ b a t : buf_pre b a → lastSeq b < MaxUint64 →
  id ≠ ""%string → in_counter by_ → outcome_post b a scope id by_ (slow_outcome b a scope id by_ t).
Proof.
  intros P Hs Hid Hby. unfold slow_outcome. destruct (detached b); [by apply post_same|].
  destruct (byID b !! id) as [p|] eqn:E; [|by apply create_post].
  destruct (counter (deref b p)) as [c|] eqn:Hc; [by eapply found_post|by apply promote_post].
Qed.

Lemma fast_post scope id by_ b a t : buf_pre b a → lastSeq b < MaxUint64 →
  id ≠ ""%string → in_counter by_ → outcome_post b a scope id by_ (fast_outcome b a scope id by_ t).
Proof.
  intros P Hs Hid Hby. unfold fast_outcome.
  destruct (detached b); [by apply slow_post|].
  destruct (byID b !! id) as [p|] eqn:E; cbn; [|by apply slow_post].
  destruct (counter (deref b p)) as [c|] eqn:Hc; [by eapply found_post|by apply slow_post].
Qed.

Lemma counterAdd_post scope id by_ b a t : buf_pre b a → lastSeq b < MaxUint64 →
  id ≠ ""%string → in_counter by_ →
  outcome_post b a scope id by_ (counterAdd scope id by_ (mkctx b a t)).
Proof. intros P Hs Hid Hby. rewrite counterAdd_run by done. by apply fast_post. Qed.
End Spec.
