(* ===== verification/BufferReplace.v ===== *)
(** * buffer_replace.go: build a replacement off the buffer, then swap it in

  A [scopeReplacement] carries its own arena of items; the commit makes it the
  buffer's arena, since nothing keeps a pointer into the old one. *)
From S2P Require Import Prelude GoStd Uuid Types Buffer BufferInv BufferSpec BufferWrite.

Record scopeReplacement := mkReplacement {
  r_heap : gmap nat Item;
  r_items : list nat;
  r_byID : gmap string nat;
  r_bySeq : gmap Z nat;
  r_byUUID : gmap UUID nat;
  r_lastSeq : Z;
  r_firstUUID : UUID;
  r_lastUUID : UUID;
  r_idKeyBytes : Z;
}.
Definition r_deref (r : scopeReplacement) (p : nat) : Item := r_heap r !!! p.
Definition empty_replacement : scopeReplacement := mkReplacement ∅ [] ∅ ∅ ∅ 0 zeroUUID zeroUUID 0.

Definition with_key (seq now : Z) (item : Item) : Item := Eval fields in
  item <| counter := None |> <| Seq := seq |> <| Ts := now |>.

Definition dup_id_in_batch (id : string) : error :=
  ErrText ("duplicate 'id' value within scope: '" +:+ id +:+ "'").
Definition dup_uuid_in_batch (u : UUID) : error :=
  ErrText ("duplicate 'uuid' value within scope: '" +:+ formatUUID u +:+ "'").

Section BufferReplace.
Context `{Env} `{Caps}.

(** [newUUIDv7()] without a buffer in hand. *)
Definition newUUID_at : ST nat UUID := λ t,
  (newUUIDv7 (u64 (clk_milli t)) (rnd (S t)) (rnd (S (S t))), S (S (S t))).
Definition now_at : ST nat Z := λ t, (clk_micro t, S t).

(** The item one source item becomes: seq, ts, uuid and render bytes. *)
Definition build_item (mint : bool) (nowUs seq : Z) (src : Item) : ST nat Item :=
  let item := with_key seq nowUs src in
  let* item := (if IsZero (Uuid item) && mint
                then let* u := newUUID_at in ret (with_uuid u item) else ret item) in
  ret (with_render item).

Record build_state := mkbuild {
  bs_seen : gset string; bs_seq : Z; bs_heap : gmap nat Item; bs_built : list nat;
  bs_bySeq : gmap Z nat }.

(** The first loop of buildReplacementState. *)
Fixpoint build_loop (mint : bool) (nowUs : Z) (items : list Item) (s : build_state)
    : ST nat (result error build_state) :=
  match items with
  | [] => ret (Ok s)
  | src :: items =>
      if negb (bool_decide (ID src = "")) && bool_decide (ID src ∈ bs_seen s)
      then ret (Err (dup_id_in_batch (ID src)))
      else
        let seen := if bool_decide (ID src = "") then bs_seen s else {[ID src]} ∪ bs_seen s in
        let seq := u64 (bs_seq s + 1) in
        let* item := build_item mint nowUs seq src in
        let stored := length (bs_built s) in
        build_loop mint nowUs items
          (mkbuild seen seq (<[stored := item]> (bs_heap s)) (bs_built s ++ [stored])
             (<[Seq item := stored]> (bs_bySeq s)))
  end.

(** The second and third loops: byID with its key bytes, byUUID with the
    duplicate check. *)
Definition byID_step (heap : gmap nat Item) (acc : gmap string nat * Z) (p : nat) :=
  let item : Item := heap !!! p in
  if bool_decide (ID item = "") then acc
  else (<[ID item := p]> acc.1, i64 (acc.2 + slen (ID item))).
Fixpoint byUUID_loop (heap : gmap nat Item) (l : list nat) (m : gmap UUID nat)
    : result error (gmap UUID nat) :=
  match l with
  | [] => Ok m
  | p :: l =>
      let item : Item := heap !!! p in
      if IsZero (Uuid item) then byUUID_loop heap l m
      else if bool_decide (is_Some (m !! Uuid item)) then Err (dup_uuid_in_batch (Uuid item))
      else byUUID_loop heap l (<[Uuid item := p]> m)
  end.

Definition buildReplacementState (items : list Item) (mint : bool)
    : ST nat (result error scopeReplacement) :=
  if (length items =? 0)%nat then ret (Ok empty_replacement)
  else
    let* nowUs := now_at in
    let? s := build_loop mint nowUs items (mkbuild ∅ 0 ∅ [] ∅) in
    let built := bs_built s in
    let heap := bs_heap s in
    let '(byID, idKeyBytes) := foldl (byID_step heap) (∅, 0) built in
    match byUUID_loop heap built ∅ with
    | Err e => ret (Err e)
    | Ok byUUID =>
        ret (Ok (mkReplacement heap built byID (bs_bySeq s) byUUID (bs_seq s)
          (Uuid (heap !!! (built !!! 0%nat))) (Uuid (heap !!! (built !!! (length built - 1)%nat)))
          idKeyBytes))
    end.

Definition sumItemBytes (r : scopeReplacement) : Z :=
  foldl (λ n p, i64 (n + approxItemSize (r_deref r p))) 0 (r_items r).

(** The swap both commits end with. *)
Definition adopt (r : scopeReplacement) (newBytes now : Z) (b : scopeBuffer) : scopeBuffer :=
  Eval fields in
  b <| bytes := newBytes |> <| idKeyBytes := r_idKeyBytes r |>
    <| heap := r_heap r |> <| cells := ∅ |> <| nextp := length (r_items r) |>
    <| items := r_items r |> <| itemsCap := length (r_items r) |>
    <| byID := r_byID r |> <| bySeq := r_bySeq r |> <| byUUID := r_byUUID r |>
    <| lastSeq := r_lastSeq r |> <| firstUUID := r_firstUUID r |> <| lastUUID := r_lastUUID r |>
    <| lastWriteTS := now |>.

Definition commitReplacement (r : scopeReplacement) (newBytes : Z) : M unit :=
  let* b := get_buf in
  let* now := nowUnixMicro in
  (if attached b then
     add_totalBytes (i64 (newBytes - bytes b)) ;;;
     add_totalItems (Z.of_nat (length (r_items r)) - Z.of_nat (length (items b))) ;;;
     bumpLastWriteTS now
   else ret tt) ;;;
  modify_buf (adopt r newBytes now).

Definition commitReplacementPreReserved (r : scopeReplacement) (newBytes oldSnapshot : Z) : M unit :=
  let* b := get_buf in
  let* now := nowUnixMicro in
  (if attached b then
     let drift := i64 (bytes b - oldSnapshot) in
     (if negb (drift =? 0) then add_totalBytes (i64 (- drift)) ;;; ret tt else ret tt) ;;;
     add_totalItems (Z.of_nat (length (r_items r)) - Z.of_nat (length (items b))) ;;;
     bumpLastWriteTS now
   else ret tt) ;;;
  modify_buf (adopt r newBytes now).

Definition in_buffer {A} (m : ST nat A) : M A := λ c,
  let '(x, t) := m (c_tick c) in (x, mkctx (c_buf c) (c_acct c) t).

Definition replaceAll (l : list Item) : M (result error (list Item)) :=
  let* b := get_buf in
  if itemCapExceeded b (Z.of_nat (length l)) then
    ret (Err (ScopeFullError (Z.of_nat (length l)) (maxItems b)))
  else
    let? r := in_buffer (buildReplacementState l (attached b)) in
    let newBytes := sumItemBytes r in
    commitReplacement r newBytes ;;;
    let* b := get_buf in
    ret (Ok (deref b <$> items b)).
End BufferReplace.
