(* ===== verification/BufferReplaceSpec.v ===== *)
(** * What a replacement contains, and what its commit does to the buffer *)
From S2P Require Import Prelude GoStd Uuid Types Buffer BufferInv BufferSpec BufferWrite.
From S2P Require Import BufferWriteSpec BufferReplace.

Section Spec.
Context `{Env} `{Caps}.

(** The keys of a list of items that take part in a uniqueness check. *)
Definition ids (l : list Item) : list string := filter (λ s, s ≠ ""%string) (ID <$> l).
Definition uuids (l : list Item) : list UUID := filter (λ u, IsZero u = false) (Uuid <$> l).

Lemma ids_app l1 l2 : ids (l1 ++ l2) = ids l1 ++ ids l2.
Proof. unfold ids. by rewrite fmap_app, filter_app. Qed.
Lemma ids_cons it l :
  ids (it :: l) = (if decide (ID it = "") then [] else [ID it]) ++ ids l.
Proof.
  unfold ids. change (ID <$> it :: l) with (ID it :: (ID <$> l)). rewrite filter_cons.
  destruct (decide (ID it = "")); [by rewrite decide_False by auto|by rewrite decide_True by done].
Qed.
Lemma uuids_app l1 l2 : uuids (l1 ++ l2) = uuids l1 ++ uuids l2.
Proof. unfold uuids. by rewrite fmap_app, filter_app. Qed.

(** The items a batch becomes: dense seqs from [seq + 1], one timestamp, a
    minted uuid where the source has none. *)
Fixpoint built_items (mint : bool) (now seq : Z) (l : list Item) (t : nat) : list Item * nat :=
  match l with
  | [] => ([], t)
  | src :: l =>
      let '(it, t) := build_item mint now (seq + 1) src t in
      let '(rest, t) := built_items mint now (seq + 1) l t in
      (it :: rest, t)
  end.

Lemma build_item_fields mint now seq src t :
  let it := (build_item mint now seq src t).1 in
  Scope it = Scope src ∧ ID it = ID src ∧ Seq it = seq ∧ Ts it = now ∧ Payload it = Payload src ∧
  counter it = None ∧ (IsZero (Uuid src) = false → Uuid it = Uuid src) ∧
  renderBytes it = render_of (renderBytes src) (Payload src).
Proof.
  unfold build_item, with_key, with_render, with_uuid, newUUID_at, bind, ret.
  destruct src as [? ? ? ? u ? [] ?]; cbn -[IsZero]; destruct (IsZero u), mint; cbn; repeat split; done.
Qed.

Lemma built_items_ids mint now seq l t : ID <$> (built_items mint now seq l t).1 = ID <$> l.
Proof.
  revert seq t. induction l as [|src l IH]; intros seq t; [done|]. cbn.
  pose proof (build_item_fields mint now (seq + 1) src t) as (_ & E & _).
  destruct (build_item _ _ _ _ _) as [it t1]. cbn in E. specialize (IH (seq + 1) t1).
  destruct (built_items _ _ _ _ _). cbn in *. by rewrite E, IH.
Qed.

Lemma built_items_lookup mint now seq l t i it :
  (built_items mint now seq l t).1 !! i = Some it →
  ∃ src, l !! i = Some src ∧ Seq it = seq + 1 + Z.of_nat i ∧ counter it = None ∧ Ts it = now ∧
    Scope it = Scope src ∧ ID it = ID src ∧ Payload it = Payload src ∧
    renderBytes it = render_of (renderBytes src) (Payload src) ∧
    (IsZero (Uuid src) = false → Uuid it = Uuid src).
Proof.
  revert seq t i. induction l as [|src l IH]; intros seq t i; [done|]. cbn.
  pose proof (build_item_fields mint now (seq + 1) src t) as E.
  destruct (build_item _ _ _ _ _) as [it0 t1]. cbn in E. specialize (IH (seq + 1) t1).
  destruct (built_items _ _ _ _ _) as [rest t2]. cbn in *. destruct i as [|i]; cbn.
  - intros [= <-]. exists src. destruct E as (? & ? & ? & ? & ? & ? & ? & ?).
    split; [done|]. split; [lia|]. auto 10.
  - intros Hi. destruct (IH i Hi) as (src' & ? & E1 & ?). exists src'. split; [done|].
    split; [lia|done].
Qed.

Lemma built_items_length mint now seq l t : length (built_items mint now seq l t).1 = length l.
Proof.
  pose proof (f_equal length (built_items_ids mint now seq l t)) as E.
  by rewrite !length_fmap in E.
Qed.

(** ** The first loop *)
Record loop_inv (s : build_state) (l : list Item) : Prop := {
  li_seq : bs_seq s = Z.of_nat (length l);
  li_built : bs_built s = seq 0 (length l);
  li_heap : ∀ i, bs_heap s !! i = l !! i;
  li_bySeq : ∀ k p, bs_bySeq s !! k = Some p ↔ (p < length l)%nat ∧ k = Z.of_nat p + 1;
  li_seen : ∀ id, id ∈ bs_seen s ↔ id ∈ ids l;
}.

Lemma loop_push s l it src : loop_inv s l → ID it = ID src → Seq it = Z.of_nat (length l) + 1 →
  loop_inv (mkbuild (if bool_decide (ID src = "") then bs_seen s else {[ID src]} ∪ bs_seen s)
    (Z.of_nat (length l) + 1)
    (<[length (bs_built s) := it]> (bs_heap s)) (bs_built s ++ [length (bs_built s)])
    (<[Seq it := length (bs_built s)]> (bs_bySeq s))) (l ++ [it]).
Proof.
  intros [Is Ib Ih Iq In] HI HS.
  assert (length (bs_built s) = length l) as El by (rewrite Ib; apply length_seq).
  constructor; cbn [bs_seq bs_built bs_heap bs_bySeq bs_seen]; rewrite ?length_app, ?El; cbn.
  - lia.
  - rewrite Ib, Nat.add_1_r, seq_S. done.
  - intros i. rewrite lookup_app. destruct (decide (i = length l)) as [->|Hne].
    + rewrite lookup_insert_eq. rewrite lookup_ge_None_2 by done. by rewrite Nat.sub_diag.
    + rewrite lookup_insert_ne, Ih by done. destruct (l !! i) eqn:E; [done|].
      apply lookup_ge_None in E. destruct (i - length l)%nat eqn:Ei; [lia|]. done.
  - intros k p. rewrite lookup_insert_Some, Iq, HS. split; [|intros [? ?]].
    + intros [[<- <-]|(? & ? & ->)]; [split; lia|split; lia].
    + destruct (decide (p = length l)) as [->|]; [left; split; lia|right; split; [lia|split; lia]].
  - intros id. rewrite ids_app, ids_cons, HI, app_nil_r, elem_of_app, <- In. case_bool_decide as E.
    + rewrite decide_True by done. set_solver.
    + rewrite decide_False by done. set_solver.
Qed.

Lemma build_loop_spec mint now l s done_ t : loop_inv s done_ → NoDup (ids done_) →
  Z.of_nat (length done_ + length l) ≤ MaxUint64 →
  let '(r, t') := build_loop mint now l s t in
  match r with
  | Ok s' => NoDup (ids done_ ++ ids l) ∧
      let b := built_items mint now (Z.of_nat (length done_)) l t in
      loop_inv s' (done_ ++ b.1) ∧ t' = b.2
  | Err e => ¬ NoDup (ids done_ ++ ids l)
  end.
Proof.
  revert s done_ t. induction l as [|src l IH]; intros s done_ t I Hnd Hlen.
  { cbn. rewrite !app_nil_r. done. }
  cbn [build_loop].
  pose proof (ids_cons src l) as Eids.
  destruct (negb (bool_decide (ID src = "")) && bool_decide (ID src ∈ bs_seen s)) eqn:Edup.
  - apply andb_true_iff in Edup as [E1 E2]. apply negb_true_iff, bool_decide_eq_false in E1.
    apply bool_decide_eq_true, (li_seen _ _ I) in E2. change (¬ NoDup (ids done_ ++ ids (src :: l))).
    rewrite Eids, decide_False by done. intros Hn. rewrite app_assoc in Hn. apply NoDup_app in Hn as (Hn & _).
    apply NoDup_app in Hn as (_ & Hn & _). apply (Hn _ E2). set_solver.
  - rewrite (li_seq _ _ I). cbn in Hlen.
    rewrite u64_id by (unfold in_u64, MaxUint64 in *; lia).
    pose proof (build_item_fields mint now (Z.of_nat (length done_) + 1) src t) as (_ & EI & ES & _).
    unfold bind at 1. cbn [built_items].
    destruct (build_item _ _ _ _ _) as [it t1] eqn:Eit. cbn [fst] in EI, ES.
    pose proof (loop_push s done_ it src I EI ES) as I'.
    assert (NoDup (ids (done_ ++ [it]))) as Hnd'.
    { rewrite ids_app, ids_cons, EI, app_nil_r.
      destruct (decide (ID src = "")) as [|Hne]; [by rewrite app_nil_r|].
      apply NoDup_app. split; [done|]. split; [|apply NoDup_singleton].
      intros x Hx ->%list_elem_of_singleton. apply andb_false_iff in Edup as [E|E].
      - apply negb_false_iff, bool_decide_eq_true in E. done.
      - apply bool_decide_eq_false in E. apply E. by apply (li_seen _ _ I). }
    specialize (IH _ (done_ ++ [it]) t1 I' Hnd'). rewrite length_app in IH. cbn [length] in IH.
    replace (Z.of_nat (length done_ + 1)) with (Z.of_nat (length done_) + 1) in IH by lia.
    destruct (build_loop _ _ l _ t1) as [r t'].
    assert (ids (done_ ++ [it]) ++ ids l = ids done_ ++ ids (src :: l)) as Ecat.
    { by rewrite ids_app, Eids, <- app_assoc, ids_cons, EI, app_nil_r. }
    rewrite Ecat in IH. destruct (built_items mint now _ l t1) as [rest t2] eqn:Eb.
    specialize (IH ltac:(lia)). destruct r as [s'|e]; [|done].
    destruct IH as (? & IH & ->). cbn [fst snd] in *. split; [done|]. split; [|done].
    by rewrite <- app_assoc in IH.
Qed.

(** ** The index loops *)
Lemma byID_fold heap l m0 n0 : NoDup l →
  (∀ p q, p ∈ l → q ∈ l → ID (heap !!! p : Item) = ID (heap !!! q) → ID (heap !!! p) ≠ ""%string → p = q) →
  (∀ k, is_Some (m0 !! k) → ∀ p, p ∈ l → ID (heap !!! p) ≠ k) →
  0 ≤ n0 → n0 + zsum (λ p, slen (ID (heap !!! p))) l ≤ MaxInt64 →
  let r := foldl (byID_step heap) (m0, n0) l in
  r.2 = n0 + zsum (λ p, slen (ID (heap !!! p))) l ∧
  ∀ id p, r.1 !! id = Some p ↔
    m0 !! id = Some p ∨ p ∈ l ∧ ID (heap !!! p) = id ∧ id ≠ ""%string.
Proof.
  revert m0 n0. induction l as [|q l IH]; intros m0 n0 Hnd Hinj Hm Hn Hs; cbn [foldl zsum].
  { cbn in *. split; [lia|]. set_solver. }
  cbn [zsum] in Hs. apply NoDup_cons in Hnd as [Hq Hnd].
  pose proof (slen_nonneg (ID (heap !!! q))).
  assert (0 ≤ zsum (λ p, slen (ID (heap !!! p))) l) by (apply zsum_nonneg; intros; apply slen_nonneg).
  cbv zeta.
  change (byID_step heap (m0, n0) q) with (if bool_decide (ID (heap !!! q) = "") then (m0, n0)
    else (<[ID (heap !!! q) := q]> m0, i64 (n0 + slen (ID (heap !!! q))))).
  case_bool_decide as E.
  - destruct (IH m0 n0) as [I1 I2]; [done|set_solver|set_solver|lia|lia|].
    split; [rewrite E; cbn in *; rewrite slen_empty; lia|]. intros id p. rewrite I2. split.
    + set_solver.
    + intros [?|(Hp & ? & ?)]; [by left|]. apply elem_of_cons in Hp as [->|Hp]; [congruence|].
      right. done.
  - rewrite i64_id by (unfold in_i64, MinInt64 in *; unfold MaxInt64 in *; lia).
    destruct (IH (<[ID (heap !!! q) := q]> m0) (n0 + slen (ID (heap !!! q)))) as [I1 I2];
      [done|set_solver| |lia|lia|].
    { intros k [x Hx] p Hp <-. rewrite lookup_insert_Some in Hx. destruct Hx as [[Hx _]|[_ Hx]].
      - apply Hq. rewrite (Hinj q p); [done|set_solver|set_solver|done|done].
      - eapply Hm; [by eexists|by right|done]. }
    split; [lia|]. intros id p. rewrite I2, lookup_insert_Some. split.
    + intros [[[<- <-]|[? ?]]|(? & ? & ?)]; [right; set_solver|by left|right; set_solver].
    + intros [Hx|(Hp & Hpi & Hne)].
      * left. right. split; [|done]. intros E'. eapply (Hm id); [by eexists|by left|done].
      * apply elem_of_cons in Hp as [->|Hp]; [by left; left|by right].
Qed.

Lemma byUUID_loop_spec heap l m0 :
  NoDup l →
  match byUUID_loop heap l m0 with
  | Ok m => NoDup (filter (λ u, IsZero u = false) ((λ p, Uuid (heap !!! p : Item)) <$> l)) ∧
      ∀ u p, m !! u = Some p ↔
        m0 !! u = Some p ∨ p ∈ l ∧ Uuid (heap !!! p) = u ∧ IsZero u = false
  | Err _ =>
      ¬ (NoDup (filter (λ u, IsZero u = false) ((λ p, Uuid (heap !!! p : Item)) <$> l)) ∧
         ∀ p, p ∈ l → IsZero (Uuid (heap !!! p)) = false → m0 !! Uuid (heap !!! p) = None)
  end.
Proof.
  revert m0. induction l as [|q l IH]; intros m0 Hnd; cbn [byUUID_loop fmap list_fmap].
  { split; [constructor|]. set_solver. }
  apply NoDup_cons in Hnd as [Hq Hnd]. rewrite filter_cons.
  destruct (IsZero (Uuid (heap !!! q))) eqn:Ez.
  - rewrite decide_False by done. specialize (IH m0 Hnd). destruct (byUUID_loop _ _ _).
    + destruct IH as [? I2]. split; [done|]. intros u p. rewrite I2. split; [set_solver|].
      intros [?|(Hp & ? & ?)]; [by left|]. apply elem_of_cons in Hp as [->|Hp]; [congruence|by right].
    + intros [? Hx]. apply IH. split; [done|]. intros. apply Hx; [by right|done].
  - rewrite decide_True by done. case_bool_decide as Es.
    + intros [_ Hx]. rewrite Hx in Es; [by destruct Es|by left|done].
    + specialize (IH (<[Uuid (heap !!! q) := q]> m0) Hnd).
      destruct (m0 !! Uuid (heap !!! q)) eqn:Em0; [by destruct Es|].
      destruct (byUUID_loop _ _ _) as [m|e].
      * destruct IH as [I1 I2]. assert (¬ Uuid (heap !!! q) ∈
          filter (λ u, IsZero u = false) ((λ p, Uuid (heap !!! p : Item)) <$> l)) as Hnin.
        { intros (_ & (p & Ep & Hp)%list_elem_of_fmap)%list_elem_of_filter.
          assert (m !! Uuid (heap !!! q) = Some q) as M1 by (apply I2; left; by rewrite lookup_insert_eq).
          assert (m !! Uuid (heap !!! q) = Some p) as M2 by (apply I2; right; by rewrite Ep in *).
          assert (p = q) as -> by congruence. done. }
        split; [by apply NoDup_cons|]. intros u p. rewrite I2, lookup_insert_Some. split.
        -- intros [[[<- <-]|[? ?]]|?]; [right; set_solver|by left|right; set_solver].
        -- intros [Hx|(Hp & Hpu & ?)]; [left; right; split; [congruence|done]|].
           apply elem_of_cons in Hp as [->|Hp]; [by left; left|by right].
      * intros [[Hnin ?]%NoDup_cons Hx]. apply IH. split; [done|]. intros p Hp Hz.
        rewrite lookup_insert_ne; [apply Hx; [by right|done]|]. intros E. apply Hnin.
        apply list_elem_of_filter. split; [by rewrite E|]. apply list_elem_of_fmap.
        exists p. by rewrite E.
Qed.

(** ** The built replacement *)
Record repl_ok (r : scopeReplacement) (l : list Item) : Prop := {
  rk_items : r_items r = seq 0 (length l);
  rk_heap : ∀ i, r_heap r !! i = l !! i;
  rk_byID : ∀ id p, r_byID r !! id = Some p ↔
    p ∈ r_items r ∧ ID (r_deref r p) = id ∧ id ≠ ""%string;
  rk_bySeq : ∀ s p, r_bySeq r !! s = Some p ↔ p ∈ r_items r ∧ Seq (r_deref r p) = s;
  rk_byUUID : ∀ u p, r_byUUID r !! u = Some p ↔
    p ∈ r_items r ∧ Uuid (r_deref r p) = u ∧ IsZero u = false;
  rk_last : r_lastSeq r = Z.of_nat (length l);
  rk_idkey : r_idKeyBytes r = zsum (λ it, slen (ID it)) l;
  rk_key : ∀ i it, l !! i = Some it → Seq it = Z.of_nat i + 1 ∧ counter it = None;
  rk_span : r_firstUUID r = from_option Uuid zeroUUID (head l) ∧
            r_lastUUID r = from_option Uuid zeroUUID (last l);
}.

Lemma lookup_seq0 n i : (i < n)%nat → seq 0 n !! i = Some i.
Proof. intros. rewrite lookup_seq. auto. Qed.

Lemma heap_map (h : gmap nat Item) (l : list Item) {A} (f : Item → A) :
  (∀ i, h !! i = l !! i) → (λ p, f (h !!! p)) <$> seq 0 (length l) = f <$> l.
Proof.
  intros Hh. apply list_eq. intros i. rewrite !list_lookup_fmap.
  destruct (decide (i < length l)%nat) as [Hi|Hi].
  - rewrite lookup_seq0 by done. destruct (lookup_lt_is_Some_2 l i Hi) as [it Hit].
    rewrite Hit. cbn. f_equal. f_equal. apply lookup_total_correct. by rewrite Hh.
  - rewrite !lookup_ge_None_2 by (rewrite ?length_seq; lia). done.
Qed.

Lemma heap_sum (h : gmap nat Item) (l : list Item) (f : Item → Z) :
  (∀ i, h !! i = l !! i) → zsum (λ p, f (h !!! p)) (seq 0 (length l)) = zsum f l.
Proof.
  intros Hh. pose proof (heap_map h l f Hh) as E.
  rewrite <- (zsum_map (λ z, z) (λ p, f (h !!! p))), E, zsum_map. done.
Qed.

Lemma heap_lookup (h : gmap nat Item) (l : list Item) p : (∀ i, h !! i = l !! i) →
  p ∈ seq 0 (length l) → l !! p = Some (h !!! p).
Proof.
  intros Hh Hp. apply elem_of_seq in Hp. destruct (lookup_lt_is_Some_2 l p) as [it Hit]; [lia|].
  rewrite Hit. f_equal. symmetry. apply lookup_total_correct. by rewrite Hh.
Qed.

Lemma NoDup_filter_inj {A B} (f : A → B) (P : B → Prop) `{!∀ x, Decision (P x)} (l : list A) i j x y :
  NoDup (filter P (f <$> l)) → l !! i = Some x → l !! j = Some y → f x = f y → P (f x) → i = j.
Proof.
  revert i j. induction l as [|z l IH]; intros i j Hnd Hi Hj E HP; [done|].
  rewrite fmap_cons, filter_cons in Hnd.
  assert (NoDup (filter P (f <$> l))) as Hnd' by (destruct (decide _); [by apply NoDup_cons in Hnd as [_ ?]|done]).
  destruct i as [|i], j as [|j]; cbn in Hi, Hj; simplify_eq; [done| | |f_equal; by eapply IH].
  - exfalso. rewrite decide_True in Hnd by done. apply NoDup_cons in Hnd as [Hn _]. apply Hn.
    apply list_elem_of_filter. split; [done|]. rewrite E. apply list_elem_of_fmap.
    exists y. split; [done|]. by eapply list_elem_of_lookup_2.
  - exfalso. rewrite decide_True in Hnd by (by rewrite <- E). apply NoDup_cons in Hnd as [Hn _].
    apply Hn. apply list_elem_of_filter. split; [by rewrite <- E|]. rewrite <- E.
    apply list_elem_of_fmap. exists x. split; [done|]. by eapply list_elem_of_lookup_2.
Qed.

(** The batch a run builds. *)
Definition batch_items (mint : bool) (l : list Item) (t : nat) : list Item * nat :=
  built_items mint (clk_micro t) 0 l (S t).

(** Ids and sizes of a batch held in memory fit Go's integers. *)
Definition batch_fits (l : list Item) : Prop := zsum approxItemSize l ≤ MaxInt64.

Lemma fits_length l : batch_fits l → Z.of_nat (length l) ≤ MaxInt64 ∧
  0 ≤ zsum (λ it, slen (ID it)) l ≤ MaxInt64.
Proof.
  unfold batch_fits. intros Hs.
  assert (48 * Z.of_nat (length l) ≤ zsum approxItemSize l).
  { rewrite <- (zsum_const 48). apply zsum_le. intros. apply approxItemSize_pos. }
  assert (zsum (λ it, slen (ID it)) l ≤ zsum approxItemSize l).
  { apply zsum_le. intros it _. rewrite approxItemSize_eq. pose proof (slen_nonneg (Scope it)).
    pose proof (blen_nonneg (Payload it)). pose proof (blen_nonneg (renderBytes it)).
    destruct (IsZero _), (counter it); lia. }
  split; [lia|]. split; [apply zsum_nonneg; intros; apply slen_nonneg|lia].
Qed.

Lemma buildReplacementState_spec mint l t : l ≠ [] → batch_fits (batch_items mint l t).1 →
  let '(r, t') := buildReplacementState l mint t in
  let b := batch_items mint l t in
  match r with
  | Ok r => NoDup (ids l) ∧ NoDup (uuids b.1) ∧ repl_ok r b.1 ∧ t' = b.2
  | Err _ => ¬ (NoDup (ids l) ∧ NoDup (uuids b.1))
  end.
Proof.
  intros Hne Hfit. unfold buildReplacementState.
  destruct (Nat.eqb_spec (length l) 0) as [E|_]; [by destruct l|].
  unfold bindE, bind, now_at, ret. cbn [fst snd].
  assert (loop_inv (mkbuild ∅ 0 ∅ [] ∅) []) as I0.
  { constructor; cbn; intros; rewrite ?lookup_empty; try done; [|set_solver].
    split; [done|]. intros []. lia. }
  destruct (fits_length _ Hfit) as [Hlen Hidb].
  pose proof (build_loop_spec mint (clk_micro t) l _ [] (S t) I0 (NoDup_nil_2)) as HL.
  unfold batch_items in *. rewrite built_items_length in Hlen. cbn [length Nat.add app Z.of_nat] in HL.
  specialize (HL ltac:(unfold MaxInt64, MaxUint64 in *; lia)).
  pose proof (built_items_ids mint (clk_micro t) 0 l (S t)) as Eids.
  pose proof (built_items_length mint (clk_micro t) 0 l (S t)) as Elen.
  pose proof (λ i it, built_items_lookup mint (clk_micro t) 0 l (S t) i it) as Elook.
  destruct (build_loop _ _ _ _ _) as [[s|e] t1]; [|naive_solver].
  destruct (built_items _ _ _ _ _) as [bl t2]. cbn [fst snd] in *.
  destruct HL as (Hids & I & ->). cbn in Hids.
  destruct I as [Is Ib Ih Iq _]. rewrite Ib.
  assert (∀ p, p ∈ seq 0 (length bl) → bl !! p = Some (bs_heap s !!! p)) as Hlk
    by (intros; by apply heap_lookup).
  destruct (byID_fold (bs_heap s) (seq 0 (length bl)) ∅ 0) as [F1 F2];
    [apply NoDup_seq| |intros k [? Hk]; by rewrite lookup_empty in Hk|lia|rewrite (heap_sum _ bl (λ it, slen (ID it))) by done; lia|].
  { intros p q Hp Hq E Hnz. apply (NoDup_filter_inj ID (λ x, x ≠ ""%string) bl p q
      (bs_heap s !!! p) (bs_heap s !!! q)); auto. by rewrite Eids. }
  destruct (foldl _ _ _) as [mID kb]. cbn [fst snd] in F1, F2.
  rewrite (heap_sum _ bl (λ it, slen (ID it))) in F1 by done.
  pose proof (byUUID_loop_spec (bs_heap s) (seq 0 (length bl)) ∅ (NoDup_seq _ _)) as HU.
  rewrite (heap_map _ bl Uuid) in HU by done. fold (uuids bl) in HU.
  destruct (byUUID_loop _ _ _) as [mU|e].
  2:{ intros [_ Hn]. apply HU. split; [done|]. intros. by rewrite lookup_empty. }
  destruct HU as [Hu1 Hu2]. split; [done|]. split; [done|]. split; [|done].
  assert (∃ x bl', bl = x :: bl') as (x & bl' & Ebl).
  { destruct bl; [by destruct l|eauto]. }
  constructor; cbn; try done.
  - intros id p. rewrite F2, lookup_empty. naive_solver.
  - intros k p. rewrite Iq, elem_of_seq. split.
    + intros [Hp ->]. split; [lia|]. unfold r_deref. cbn.
      destruct (Elook p (bs_heap s !!! p)) as (_ & _ & E & _); [apply Hlk, elem_of_seq; lia|]. lia.
    + unfold r_deref. cbn. intros [Hp <-]. split; [lia|].
      destruct (Elook p (bs_heap s !!! p)) as (_ & _ & E & _); [apply Hlk, elem_of_seq; lia|]. lia.
  - intros u p. rewrite Hu2, lookup_empty. naive_solver.
  - intros i it Hi. destruct (Elook i it Hi) as (_ & _ & ? & ? & _). split; [lia|done].
  - split.
    + rewrite (list_lookup_total_correct _ _ 0%nat) by (apply lookup_seq0; rewrite Ebl; cbn; lia).
      rewrite (lookup_total_correct _ _ x) by (by rewrite Ih, Ebl). by rewrite Ebl.
    + rewrite length_seq.
      rewrite (list_lookup_total_correct _ _ (length bl - 1)%nat)
        by (apply lookup_seq0; rewrite Ebl; cbn; lia).
      rewrite last_lookup. replace (length bl - 1)%nat with (pred (length bl)) by lia.
      destruct (lookup_lt_is_Some_2 bl (pred (length bl))) as [y Hy]; [rewrite Ebl; cbn; lia|].
      rewrite Hy. cbn. f_equal. apply lookup_total_correct. by rewrite Ih.
Qed.

Lemma empty_repl_ok : repl_ok empty_replacement [].
Proof. constructor; cbn; try done; set_solver. Qed.

Lemma sumItemBytes_spec r l : repl_ok r l → batch_fits l →
  sumItemBytes r = zsum approxItemSize l.
Proof.
  intros R Hfit. unfold sumItemBytes. rewrite (rk_items _ _ R).
  rewrite <- (heap_sum (r_heap r) l approxItemSize (rk_heap _ _ R)).
  unfold batch_fits in Hfit. rewrite <- (heap_sum (r_heap r) l) in Hfit by apply R.
  generalize dependent (seq 0 (length l)). intros ps.
  assert (∀ n, 0 ≤ n → n + zsum (λ p, approxItemSize (r_heap r !!! p)) ps ≤ MaxInt64 →
    foldl (λ n p, i64 (n + approxItemSize (r_deref r p))) n ps
    = n + zsum (λ p, approxItemSize (r_heap r !!! p)) ps) as Hg.
  { induction ps as [|p ps IH]; intros n Hn Hm; cbn [foldl zsum] in *; [lia|].
    pose proof (approxItemSize_pos (r_heap r !!! p)).
    assert (0 ≤ zsum (λ p, approxItemSize (r_heap r !!! p)) ps).
    { apply zsum_nonneg. intros q _. pose proof (approxItemSize_pos (r_heap r !!! q)). lia. }
    unfold r_deref at 2. rewrite i64_id by (unfold in_i64, MinInt64 in *; unfold MaxInt64 in *; lia).
    rewrite IH; lia. }
  intros Hfit. rewrite Hg; lia.
Qed.

Lemma seqZ_sorted m n : StronglySorted Z.lt (seqZ m n).
Proof.
  unfold seqZ. generalize (Z.to_nat n). intros k.
  assert (∀ a, StronglySorted Z.lt ((λ i : nat, Z.add (Z.of_nat i) m) <$> seq a k)) as G; [|apply (G 0%nat)].
  induction k as [|k IH]; intros a; cbn; [constructor|]. constructor; [apply IH|].
  apply Forall_forall. intros x (y & -> & Hy)%list_elem_of_fmap. apply elem_of_seq in Hy. lia.
Qed.

(** ** The buffer after the swap *)
Definition fresh_content (l : list Item) : list aitem := (λ it, (it, None)) <$> l.

Lemma adopt_deref r n now b p : deref (adopt r n now b) p = r_deref r p.
Proof. reflexivity. Qed.

Lemma adopt_wf r l n now b : repl_ok r l → batch_fits l → n = zsum approxItemSize l →
  let b' := adopt r n now b in
  buf_wf b' ∧ uuid_ok b' ∧ idkey_ok b' ∧ view b' = fresh_content l ∧
  lastSeq b' = Z.of_nat (length l).
Proof.
  intros R Hfit -> b'. destruct (fits_length _ Hfit) as [Hlen _].
  assert (∀ p, p ∈ items b' → l !! p = Some (deref b' p)) as Hlk.
  { intros p Hp. unfold b' in Hp. cbn in Hp. rewrite (rk_items _ _ R) in Hp.
    apply heap_lookup; [apply R|done]. }
  assert (items b' = seq 0 (length l)) as Ei by apply R.
  assert (∀ {A} (f : Item → A), (λ p, f (deref b' p)) <$> items b' = f <$> l) as Emap.
  { intros A f. rewrite Ei. apply heap_map, R. }
  split; [constructor|split; [|split; [|split]]].
  - unfold seqs. rewrite Emap.
    assert (Seq <$> l = seqZ 1 (Z.of_nat (length l))) as ->.
    { apply list_eq. intros i. rewrite list_lookup_fmap.
      destruct (l !! i) as [it|] eqn:E; cbn.
      - destruct (rk_key _ _ R i it E) as [-> _]. symmetry. apply lookup_seqZ.
        apply lookup_lt_Some in E. lia.
      - symmetry. apply lookup_seqZ_ge. apply lookup_ge_None in E. lia. }
    apply seqZ_sorted.
  - intros p Hp. destruct (rk_key _ _ R p _ (Hlk p Hp)) as [-> _].
    apply Hlk, lookup_lt_Some in Hp. cbn. rewrite (rk_last _ _ R). lia.
  - cbn. rewrite (rk_last _ _ R). unfold MaxInt64, MaxUint64 in *. lia.
  - intros p Hp. cbn. rewrite (rk_heap _ _ R). rewrite Hlk by done. by eexists.
  - intros p Hp. cbn in *. split; [|done]. rewrite (rk_heap _ _ R).
    rewrite (rk_items _ _ R), length_seq in Hp. by apply lookup_ge_None_2.
  - apply R.
  - apply R.
  - intros u p Hp. by apply (rk_byUUID _ _ R) in Hp.
  - cbn. rewrite (rk_items _ _ R). symmetry. apply heap_sum, R.
  - intros p c Hp Hc. destruct (rk_key _ _ R p _ (Hlk p Hp)) as [_ E]. congruence.
  - intros p q c Hp _ Hc. destruct (rk_key _ _ R p _ (Hlk p Hp)) as [_ E]. congruence.
  - intros p Hp Hz. by apply (rk_byUUID _ _ R).
  - unfold idkey_ok. cbn. rewrite (rk_idkey _ _ R), (rk_items _ _ R). symmetry.
    apply (heap_sum (r_heap r) l (λ it, slen (ID it))), R.
  - unfold view, fresh_content. rewrite <- (Emap _ (λ it, (it, None))).
    apply list_fmap_ext. intros i p Hp%list_elem_of_lookup_2.
    destruct (rk_key _ _ R p _ (Hlk p Hp)) as [_ E]. unfold view_item. rewrite E. cbn. f_equal.
    unfold no_pointer. rewrite <- E. by destruct (deref b' p).
  - apply R.
Qed.

(** ** The two commits *)
Lemma items_run n b a t : attached b = true → in_i64 n → in_i64 (totalItems a + n) →
  ∀ now (k : M unit),
  ((add_totalItems n ;;; bumpLastWriteTS now) ;;; k) (mkctx b a t)
  = k (mkctx b (acct_bump now (acct_add 0 n a)) t).
Proof.
  intros Hatt Hn Hsum now k. rewrite bind_assoc, bind_eq, add_items_run by done.
  cbn [fst snd]. by rewrite bind_eq, bump_run.
Qed.

Definition item_delta (r : scopeReplacement) (b : scopeBuffer) : Z :=
  Z.of_nat (length (r_items r)) - Z.of_nat (length (items b)).

Lemma acct_add_add d1 i1 d2 i2 a :
  acct_add d2 i2 (acct_add d1 i1 a) = acct_add (d1 + d2) (i1 + i2) a.
Proof. unfold acct_add. cbn. f_equal; lia. Qed.

Lemma commitReplacement_run r n b a t : attached b = true →
  in_i64 (n - bytes b) → in_i64 (totalBytes a + (n - bytes b)) →
  in_i64 (item_delta r b) → in_i64 (totalItems a + item_delta r b) →
  commitReplacement r n (mkctx b a t) =
  (tt, mkctx (adopt r n (clk_micro t) b)
         (acct_bump (clk_micro t) (acct_add (n - bytes b) (item_delta r b) a)) (S t)).
Proof.
  intros Hatt H1 H2 H3 H4. unfold commitReplacement.
  rewrite bind_get_buf, bind_now, Hatt, (i64_id (n - bytes b)), bind_assoc, bind_eq, add_bytes_run by done.
  cbn [fst snd]. rewrite items_run by (try done; cbn; by rewrite ?Z.add_0_r). rewrite acct_add_add, Z.add_0_r, Z.add_0_l.
  done.
Qed.

Lemma commitPreReserved_run r n old b a t : attached b = true →
  in_i64 (bytes b - old) → in_i64 (old - bytes b) → in_i64 (totalBytes a + (old - bytes b)) →
  in_i64 (item_delta r b) → in_i64 (totalItems a + item_delta r b) →
  commitReplacementPreReserved r n old (mkctx b a t) =
  (tt, mkctx (adopt r n (clk_micro t) b)
         (acct_bump (clk_micro t) (acct_add (old - bytes b) (item_delta r b) a)) (S t)).
Proof.
  intros Hatt Hd0 H1 H2 H3 H4. unfold commitReplacementPreReserved.
  rewrite bind_get_buf, bind_now, Hatt, (i64_id (bytes b - old)) by done. cbv zeta.
  replace (- (bytes b - old)) with (old - bytes b) by lia. rewrite (i64_id (old - bytes b)) by done.
  rewrite bind_assoc, bind_eq.
  assert ((if negb (bytes b - old =? 0) then add_totalBytes (old - bytes b) ;;; ret tt else ret tt)
    (mkctx b a (S t)) = (tt, mkctx b (acct_add (old - bytes b) 0 a) (S t))) as ->.
  { destruct (Z.eqb_spec (bytes b - old) 0) as [E|E]; cbn [negb].
    - replace (old - bytes b) with 0 by lia. unfold acct_add. rewrite !Z.add_0_r. by destruct a.
    - by rewrite bind_eq, add_bytes_run. }
  cbn [fst snd]. rewrite items_run by (try done; cbn; by rewrite ?Z.add_0_r). rewrite acct_add_add, Z.add_0_r, Z.add_0_l.
  done.
Qed.
End Spec.
