(* ===== verification/BufferTheorems.v ===== *)
(** * The scope buffer: what its methods promise

  One theorem per method family, stated on the abstract content [view]: the
  items oldest first, each with the state of its counter cell. *)
From S2P Require Import Prelude GoStd Uuid Types Buffer BufferInv BufferSpec BufferWrite.
From S2P Require Import BufferWriteSpec BufferRead BufferDelete BufferDeleteSpec BufferCounter.
From S2P Require Import BufferCounterSpec BufferReplace BufferReplaceSpec.

(** ** The three address forms *)
Inductive address :=
| AtID (id : string)
| AtSeq (seq : Z)
| AtUUID (u : UUID).

Definition addressed (ad : address) (e : aitem) : Prop :=
  match ad with
  | AtID id => ID e.1 = id ∧ id ≠ ""%string
  | AtSeq s => Seq e.1 = s
  | AtUUID u => Uuid e.1 = u ∧ IsZero u = false
  end.

(** A uuid address is exact while every stored uuid is indexed. *)
Definition address_ok (ad : address) (b : scopeBuffer) : Prop :=
  match ad with AtUUID _ => uuid_ok b | _ => True end.

Definition index_of (ad : address) (b : scopeBuffer) : option nat :=
  match ad with
  | AtID id => byID b !! id
  | AtSeq s => bySeq b !! s
  | AtUUID u => byUUID b !! u
  end.

Lemma index_hit_view ad b p : buf_wf b → index_of ad b = Some p →
  p ∈ items b ∧ addressed ad (view_item b p).
Proof.
  intros W. destruct ad as [id|s|u]; cbn.
  - intros (Hp & ? & ?)%(w_byID _ W). done.
  - intros (Hp & ?)%(w_bySeq _ W). done.
  - intros (Hp & ? & ?)%(w_byUUID _ W). done.
Qed.

Lemma index_miss_view ad b : buf_wf b → address_ok ad b → index_of ad b = None →
  ∀ e, e ∈ view b → ¬ addressed ad e.
Proof.
  intros W A Hn e (p & -> & Hp)%list_elem_of_fmap Ha. destruct ad as [id|s|u]; cbn in *.
  - destruct Ha. assert (byID b !! id = Some p) by (by apply (w_byID _ W)). congruence.
  - assert (bySeq b !! s = Some p) by (by apply (w_bySeq _ W)). congruence.
  - destruct Ha as [<- Hz]. rewrite (A p Hp Hz) in Hn. done.
Qed.

Lemma view_at b i p : items b !! i = Some p → view b !! i = Some (view_item b p).
Proof. intros Hi. unfold view. by rewrite list_lookup_fmap, Hi. Qed.

Section Methods.
Context `{EV : Env} `{CP : Caps}.

Definition update_by (ad : address) (payload pre : slice) : M (result error Z) :=
  match ad with
  | AtID id => updateByID id payload pre
  | AtSeq s => updateBySeq s payload pre
  | AtUUID u => updateByUUID u payload pre
  end.
Definition delete_by (ad : address) : M (result error Z) :=
  match ad with
  | AtID id => deleteByID id
  | AtSeq s => deleteBySeq s
  | AtUUID u => deleteByUUID u
  end.
Definition drain_by (ad : address) : M (result error Z) :=
  match ad with
  | AtUUID u => deleteUpToUUID u
  | AtSeq s => deleteUpToSeq s
  | AtID _ => ret (Ok 0)
  end.

Definition unchanged (b : scopeBuffer) (a : acct) (c : ctx) : Prop := c_buf c = b ∧ c_acct c = a.

(** Why a new item is refused. *)
Definition insert_refused (b : scopeBuffer) (a : acct) (it : Item) (e : error) : Prop :=
  let size := approxItemSize it in
  let n := Z.of_nat (length (items b)) in
  e = ScopeFullError n (maxItems b) ∧ 0 < maxItems b ≤ n ∨
  e = ErrItemCap size (buf_maxItemBytes b) (Scope it) ∧ buf_maxItemBytes b < size ∨
  e = StoreFullError (totalBytes a) size maxStoreBytes ∧ maxStoreBytes < totalBytes a + size.

Lemma not_dup b id :
  negb (bool_decide (id = "")) && bool_decide (is_Some (byID b !! id)) = false → id_free b id.
Proof.
  intros Hdup Hne. rewrite bool_decide_false in Hdup by done.
  apply bool_decide_eq_false in Hdup. by apply eq_None_not_Some.
Qed.

Definition append_ok (item : Item) (b : scopeBuffer) (a : acct) (t : nat) (r : result error Item) (c : ctx)
    : Prop :=
  let it := stamped item (clk_micro (t + 3)) (minted t) in
  match r with
  | Ok it' =>
      it' = with_seq (lastSeq b + 1) it ∧
      Scope it' = Scope item ∧ ID it' = ID item ∧ Payload it' = Payload item ∧
      Ts it' = clk_micro (t + 3) ∧
      Uuid it' = (if IsZero (Uuid item) then minted t else Uuid item) ∧
      view (c_buf c) = view b ++ [(it', None)] ∧ lastSeq (c_buf c) = lastSeq b + 1 ∧
      (ID item ≠ ""%string → ∀ e, e ∈ view b → ID e.1 ≠ ID item) ∧
      bytes (c_buf c) = bytes b + approxItemSize it' ∧
      totalBytes (c_acct c) = totalBytes a + approxItemSize it' ∧
      totalItems (c_acct c) = totalItems a + 1 ∧
      bstep b a (c_buf c) (c_acct c)
  | Err e => unchanged b a c ∧
      (insert_refused b a it e ∨
       e = dup_id_error ∧ ∃ e', e' ∈ view b ∧ ID e'.1 = ID item ∧ ID item ≠ ""%string)
  end.

Lemma append_post item b a t : buf_pre b a → detached b = false → lastSeq b < MaxUint64 →
  let '(r, c) := appendItem item (mkctx b a t) in append_ok item b a t r c.
Proof.
  intros P Hd Hl. rewrite appendItem_run by done. unfold append_ok. cbv zeta. rewrite Hd.
  set (it := stamped item (clk_micro (t + 3)) (minted t)).
  destruct (stamped_fields item (clk_micro (t + 3)) (minted t)) as (F1 & F2 & _ & F4 & F5 & _ & F7 & _).
  fold it in F1, F2, F4, F5, F7.
  destruct (itemCapExceeded _ _) eqn:Hc.
  { split; [done|]. left. left. split; [done|]. unfold itemCapExceeded in Hc.
    rewrite andb_true_iff, !Z.ltb_lt in Hc. lia. }
  apply cap_not_exceeded in Hc. destruct (negb _ && _) eqn:Hdup.
  { split; [done|]. right. split; [done|]. apply andb_true_iff in Hdup as [H1 H2].
    apply negb_true_iff, bool_decide_eq_false in H1. apply bool_decide_eq_true in H2 as [p Hp].
    apply (w_byID _ (p_wf _ _ P)) in Hp as (Hp & Hi & _). exists (view_item b p).
    split; [by apply list_elem_of_fmap_2|done]. }
  destruct (Z.ltb_spec (buf_maxItemBytes b) (approxItemSize it)).
  { split; [done|]. left. right. left. by rewrite F1. }
  destruct (Z.leb_spec (totalBytes a + approxItemSize it) maxStoreBytes) as [Hfit|].
  2:{ split; [done|]. left. right. right. split; [done|lia]. }
  destruct (insert_effect item (clk_micro (t + 3)) (minted t) b a _ _ _ eq_refl eq_refl eq_refl P Hl)
    as (B & V & L); [by eapply not_dup|done..|].
  split; [done|]. do 5 (split; [done|]). cbn [c_buf c_acct].
  split; [exact V|]. split; [exact L|]. split.
  { intros Hne. apply (view_no_id b); [apply P|done|]. exact (not_dup b (ID item) Hdup Hne). }
  pose proof (bs_bytes _ _ _ _ B) as Bb. cbn in Bb.
  unfold inserted. fold it. rewrite with_seq_size. fold it in Bb.
  split; [cbn; lia|]. split; [done|]. by split.
Qed.

(** AppendItem on a live buffer either stores the item as the newest one,
    with the next seq, the cache's own timestamp, the client's uuid or a freshly
    minted v7 one, its id not yet in the scope, and exactly its accounted size
    added to both byte counters; or it refuses for one of the four documented
    reasons and changes nothing. *)
Theorem append_correct item b a t :
  buf_pre b a → detached b = false → lastSeq b < MaxUint64 →
  let '(r, c) := appendItem item (mkctx b a t) in append_ok item b a t r c.
Proof. apply append_post. Qed.

Definition upsert_ok (item : Item) (b : scopeBuffer) (a : acct) (t : nat)
    (r : result error (Item * bool)) (c : ctx) : Prop :=
  match r with
  | Ok (it', created) =>
      bstep b a (c_buf c) (c_acct c) ∧ ID it' = ID item ∧ Payload it' = Payload item ∧
      Ts it' = clk_micro (t + 3) ∧
      if (created : bool)
      then (∀ e, e ∈ view b → ID e.1 ≠ ID item) ∧ Seq it' = lastSeq b + 1 ∧
           lastSeq (c_buf c) = lastSeq b + 1 ∧ view (c_buf c) = view b ++ [(it', None)]
      else ∃ i e, view b !! i = Some e ∧ ID e.1 = ID item ∧ Seq it' = Seq e.1 ∧ Uuid it' = Uuid e.1 ∧
           Scope it' = Scope e.1 ∧ lastSeq (c_buf c) = lastSeq b ∧
           view (c_buf c) = <[i := (it', None)]> (view b)
  | Err e => unchanged b a c ∧
      (insert_refused b a (stamped item (clk_micro (t + 3)) (minted t)) e ∨
       ∃ d, e = StoreFullError (totalBytes a) d maxStoreBytes ∧ maxStoreBytes < totalBytes a + d)
  end.

Lemma upsert_post item b a t :
  buf_pre b a → detached b = false → lastSeq b < MaxUint64 → ID item ≠ ""%string →
  lengths_ok (Payload item) (render_of (renderBytes item) (Payload item)) →
  let '(r, c) := upsertByID item (mkctx b a t) in upsert_ok item b a t r c.
Proof.
  intros P Hd Hl Hid HL. rewrite upsertByID_run by done. unfold upsert_ok. cbv zeta. rewrite Hd.
  destruct (byID b !! ID item) as [p|] eqn:E.
  - apply (w_byID _ (p_wf _ _ P)) in E as (Hp & Hi & _).
    apply list_elem_of_lookup in Hp as [i Hpi].
    destruct (Z.leb_spec (totalBytes a + payload_delta b p (Payload item)
      (render_of (renderBytes item) (Payload item))) (ceiling a)) as [Hfit|].
    2:{ split; [done|]. right. eexists. split; [done|lia]. }
    destruct (replace_effect b a i p (Payload item) (clk_micro (t + 3)) _ P Hpi HL Hfit) as [B V].
    split; [exact B|]. split; [exact Hi|]. do 2 (split; [done|]).
    exists i, (view_item b p). split; [by apply view_at|]. split; [done|].
    do 3 (split; [done|]). split; [done|exact V].
  - destruct (itemCapExceeded _ _) eqn:Hc.
    { split; [done|]. left. left. split; [done|]. unfold itemCapExceeded in Hc.
      rewrite andb_true_iff, !Z.ltb_lt in Hc. lia. }
    apply cap_not_exceeded in Hc.
    set (it := stamped item (clk_micro (t + 3)) (minted t)) in *.
    destruct (stamped_fields item (clk_micro (t + 3)) (minted t)) as (F1 & F2 & _ & F4 & F5 & _).
    fold it in F1, F2, F4, F5.
    destruct (Z.ltb_spec (buf_maxItemBytes b) (approxItemSize it)).
    { split; [done|]. left. right. left. by rewrite F1. }
    destruct (Z.leb_spec (totalBytes a + approxItemSize it) maxStoreBytes) as [Hfit|].
    2:{ split; [done|]. left. right. right. split; [done|lia]. }
    destruct (insert_effect item (clk_micro (t + 3)) (minted t) b a _ _ _ eq_refl eq_refl eq_refl P Hl)
      as (B & V & L); [by intros _|done..|].
    split; [exact B|]. do 3 (split; [done|]). split; [|split; [done|by split]].
    apply (view_no_id b); [apply P|done..].
Qed.

(** upsertByID replaces the item that has the id in place (same seq, uuid
    and position; new payload and timestamp) or, when no item has it, stores a
    new one; on an error nothing changes. *)
Theorem upsert_correct item b a t :
  buf_pre b a → detached b = false → lastSeq b < MaxUint64 → ID item ≠ ""%string →
  lengths_ok (Payload item) (render_of (renderBytes item) (Payload item)) →
  let '(r, c) := upsertByID item (mkctx b a t) in upsert_ok item b a t r c.
Proof. apply upsert_post. Qed.

Definition update_hit (ad : address) (payload render : slice) (ts : Z) (b : scopeBuffer) (a : acct)
    (c : ctx) : Prop :=
  bstep b a (c_buf c) (c_acct c) ∧ lastSeq (c_buf c) = lastSeq b ∧
  ∃ i e e', view b !! i = Some e ∧ addressed ad e ∧ view (c_buf c) = <[i := (e', None)]> (view b) ∧
    Scope e' = Scope e.1 ∧ ID e' = ID e.1 ∧ Seq e' = Seq e.1 ∧ Uuid e' = Uuid e.1 ∧
    Payload e' = payload ∧ renderBytes e' = render ∧ Ts e' = ts.

Lemma after_replace_hit ad b a p payload render t t' : buf_pre b a → index_of ad b = Some p →
  lengths_ok payload render → totalBytes a + payload_delta b p payload render ≤ ceiling a →
  update_hit ad payload render (clk_micro t) b a (after_replace b a p payload render t t').
Proof.
  intros P E HL Hfit. destruct (index_hit_view ad b p (p_wf _ _ P) E) as [Hp Ha].
  apply list_elem_of_lookup in Hp as [i Hi].
  destruct (replace_effect b a i p payload (clk_micro t) render P Hi HL Hfit) as [B V].
  split; [exact B|]. split; [done|].
  exists i, (view_item b p), (no_pointer (replace_fields payload (clk_micro t) render (deref b p))).
  split; [by apply view_at|]. split; [done|]. split; [exact V|]. done.
Qed.

Definition update_error (b : scopeBuffer) (a : acct) (e : error) : Prop :=
  (∃ d, e = StoreFullError (totalBytes a) d maxStoreBytes ∧ maxStoreBytes < totalBytes a + d) ∨
  (∃ p, p ∈ items b ∧ ∃ size, e = ErrInvalidInput (too_large_reason size (maxItemBytesFor (Scope (deref b p)))) ∧
     maxItemBytesFor (Scope (deref b p)) < size).

Definition update_ok (ad : address) (payload pre : slice) (b : scopeBuffer) (a : acct) (t : nat)
    (r : result error Z) (c : ctx) : Prop :=
  match r with
  | Ok n => n = 1 ∧ update_hit ad payload (render_of pre payload) (clk_micro t) b a c ∨
      n = 0 ∧ unchanged b a c ∧ (address_ok ad b → ∀ e, e ∈ view b → ¬ addressed ad e)
  | Err e => unchanged b a c ∧ update_error b a e
  end.

Lemma update_post ad payload pre b a t :
  buf_pre b a → detached b = false → lengths_ok payload (render_of pre payload) →
  let '(r, c) := update_by ad payload pre (mkctx b a t) in update_ok ad payload pre b a t r c.
Proof.
  intros P Hd HL. pose proof (p_wf _ _ P) as W.
  pose proof (index_hit_view ad b) as Hhit. pose proof (λ A, index_miss_view ad b W A) as Hmiss.
  pose proof (λ p, after_replace_hit ad b a p payload (render_of pre payload) t (S t) P) as Hrep.
  assert (∀ p, index_of ad b = Some p →
    let '(r, c) := update_at b a p payload (render_of pre payload) t in
    update_ok ad payload pre b a t r c) as Hat.
  { intros p E. destruct (Hhit p W E) as [Hp _]. unfold update_at, update_ok.
    destruct (Z.ltb_spec (maxItemBytesFor (Scope (deref b p)))
      (updated_size b p payload (render_of pre payload))) as [Hsz|].
    { split; [done|]. right. exists p. split; [done|]. by eexists. }
    destruct (Z.leb_spec (totalBytes a + payload_delta b p payload (render_of pre payload)) (ceiling a)).
    - left. split; [done|]. by apply Hrep.
    - split; [done|]. left. eexists. split; [done|lia]. }
  unfold update_ok in *. destruct ad as [id|sq|u]; cbn [update_by index_of] in *.
  - rewrite updateByID_run, Hd by done. destruct (byID b !! id) as [p|]; [|right; split; [done|by split; [|intros; apply Hmiss]]]. cbv zeta.
    destruct (Z.leb_spec (totalBytes a + payload_delta b p payload (render_of pre payload)) (ceiling a)).
    + left. split; [done|]. by apply Hrep.
    + split; [done|]. left. eexists. split; [done|lia].
  - rewrite updateBySeq_run, Hd by done. destruct (bySeq b !! sq) as [p|]; [by apply Hat|right; split; [done|by split; [|intros; apply Hmiss]]].
  - rewrite updateByUUID_run, Hd by done. destruct (byUUID b !! u) as [p|]; [by apply Hat|right; split; [done|by split; [|intros; apply Hmiss]]].
Qed.

(** The three updates replace the payload of exactly the item addressed,
    keeping its scope, id, seq, uuid and position and dropping any counter
    cell; a miss changes nothing and means no item has the address (a uuid
    address, while every stored uuid is indexed); an error changes nothing. *)
Theorem update_correct ad payload pre b a t :
  buf_pre b a → detached b = false → lengths_ok payload (render_of pre payload) →
  let '(r, c) := update_by ad payload pre (mkctx b a t) in update_ok ad payload pre b a t r c.
Proof. apply update_post. Qed.

Definition delete_ok (ad : address) (b : scopeBuffer) (a : acct) (r : result error Z) (c : ctx) : Prop :=
  bstep b a (c_buf c) (c_acct c) ∧ lastSeq (c_buf c) = lastSeq b ∧
  (r = Ok 1 ∧ (∃ i p, items b !! i = Some p ∧ addressed ad (view_item b p) ∧
      view (c_buf c) = delete i (view b) ∧
      totalBytes (c_acct c) = totalBytes a - size_of b p ∧
      totalItems (c_acct c) = totalItems a - 1) ∨
   r = Ok 0 ∧ unchanged b a c ∧ (address_ok ad b → ∀ e, e ∈ view b → ¬ addressed ad e)).

Lemma delete_post ad b a t : buf_pre b a → detached b = false →
  let '(r, c) := delete_by ad (mkctx b a t) in delete_ok ad b a r c.
Proof.
  intros P Hd. unfold delete_ok. pose proof (p_wf _ _ P) as W.
  assert (delete_outcome (index_of ad b) b a t (delete_by ad (mkctx b a t))) as D.
  { destruct ad; [by apply deleteByID_run|by apply deleteBySeq_run|by apply deleteByUUID_run]. }
  unfold delete_outcome in D. rewrite Hd in D.
  destruct (index_of ad b) as [p|] eqn:E.
  - destruct D as (i & Hi & ->). destruct (index_hit_view ad b p W E) as [_ Ha].
    destruct (delete_effect i p (clk_micro t) b a P Hi) as (B & V & L).
    unfold deleted_at. split; [exact B|]. split; [exact L|]. left. split; [done|].
    exists i, p. do 3 (split; [done|]). split; cbn; lia.
  - rewrite D. split; [by apply bstep_refl|]. split; [done|]. right.
    split; [done|]. split; [done|]. intros A. by apply index_miss_view.
Qed.

(** A delete removes exactly the item addressed, releases its accounted
    size and nothing else, and keeps the seq cursor; a miss changes nothing and
    means no item has the address (a uuid address, while every stored uuid is
    indexed). *)
Theorem delete_correct ad b a t : buf_pre b a → detached b = false →
  let '(r, c) := delete_by ad (mkctx b a t) in delete_ok ad b a r c.
Proof. apply delete_post. Qed.

Definition drain_ok (bound : option Z) (b : scopeBuffer) (a : acct) (r : result error Z) (c : ctx) : Prop :=
  bstep b a (c_buf c) (c_acct c) ∧ lastSeq (c_buf c) = lastSeq b ∧
  match bound with
  | Some s =>
      r = Ok (Z.of_nat (length (filter (λ e : aitem, Seq e.1 ≤ s) (view b)))) ∧
      view (c_buf c) = filter (λ e : aitem, s < Seq e.1) (view b)
  | None => r = Ok 0 ∧ unchanged b a c
  end.

Definition drain_bound (ad : address) (b : scopeBuffer) : option Z :=
  match ad with
  | AtSeq s => Some s
  | AtUUID u => (λ p, Seq (deref b p)) <$> byUUID b !! u
  | AtID _ => None
  end.

Lemma drain_post ad b a t : buf_pre b a → detached b = false →
  let '(r, c) := drain_by ad (mkctx b a t) in drain_ok (drain_bound ad b) b a r c.
Proof.
  intros P Hd. unfold drain_ok. pose proof (p_wf _ _ P) as W.
  assert (∀ s, let '(n, c) := deleteUpToSeqLocked s (mkctx b a t) in
    bstep b a (c_buf c) (c_acct c) ∧ lastSeq (c_buf c) = lastSeq b ∧
    n = Z.of_nat (length (filter (λ e : aitem, Seq e.1 ≤ s) (view b))) ∧
    view (c_buf c) = filter (λ e : aitem, s < Seq e.1) (view b)) as HD.
  { intros s. rewrite deleteUpToSeqLocked_run by done. cbv zeta.
    destruct (cut_split b s W) as (Hc & _). destruct (view_keep b s W) as [<- <-].
    assert (length (view b) = length (items b)) as El by (unfold view; by rewrite length_fmap).
    rewrite length_take, El, Nat.min_l by done.
    destruct (Nat.eqb_spec (cut_at b s) 0) as [->|Hne].
    - split; [by apply bstep_refl|]. by rewrite drop_0.
    - destruct (drain_effect (cut_at b s) (clk_micro t) b a P Hc) as (B & V & L).
      split; [exact B|]. split; [exact L|]. by split. }
  assert (∀ s, deleteUpToSeq s (mkctx b a t) =
    let '(n, c) := deleteUpToSeqLocked s (mkctx b a t) in (Ok n, c)) as Hrun.
  { intros s. unfold deleteUpToSeq. rewrite bind_get_buf, Hd. unfold bind, ret.
    by destruct (deleteUpToSeqLocked _ _). }
  destruct ad as [id|s|u]; cbn [drain_by drain_bound].
  - split; [by apply bstep_refl|]. done.
  - rewrite Hrun. specialize (HD s). destruct (deleteUpToSeqLocked _ _) as [n c].
    destruct HD as (B & L & -> & V). by split.
  - unfold deleteUpToUUID. rewrite bind_get_buf, Hd.
    destruct (byUUID b !! u) as [p|]; cbn [fmap option_fmap option_map].
    + specialize (HD (Seq (deref b p))). unfold bind, ret.
      destruct (deleteUpToSeqLocked _ _) as [n c]. destruct HD as (B & L & -> & V). by split.
    + split; [by apply bstep_refl|]. by split.
Qed.

(** Delete_up_to drains exactly the items whose seq does not exceed the
    boundary (given as a seq, or as the uuid of a stored item), keeps the order
    of the others and the seq cursor, and reports how many it drained. *)
Theorem drain_correct ad b a t : buf_pre b a → detached b = false →
  let '(r, c) := drain_by ad (mkctx b a t) in drain_ok (drain_bound ad b) b a r c.
Proof. apply drain_post. Qed.

(** Counter_add returns the old value plus [by], always within the counter
    range, and stores it: in the cell, by promoting an integer item to a cell,
    or in a new item when the id is free. Nothing else of the content changes;
    on an error nothing does. *)
Theorem counterAdd_correct scope id by_ b a t :
  buf_pre b a → lastSeq b < MaxUint64 → id ≠ ""%string → in_counter by_ →
  let '(r, c) := counterAdd scope id by_ (mkctx b a t) in
  counter_post b a scope id by_ r (c_buf c) (c_acct c).
Proof.
  intros P Hl Hid Hby. pose proof (counterAdd_post scope id by_ b a t P Hl Hid Hby) as HP.
  unfold outcome_post in HP. by destruct (counterAdd _ _ _ _).
Qed.

Definition refused {A} (b : scopeBuffer) (a : acct) (r : result error A * ctx) : Prop :=
  r.1 = Err ScopeDetachedError ∧ unchanged b a r.2.

(** A write through a pointer to a detached buffer is refused and changes
    neither the buffer nor the counters, whichever method it is. *)
Theorem detached_refuses item id by_ ad payload pre maxSeq u b a t : detached b = true →
  let c := mkctx b a t in
  refused b a (appendItem item c) ∧ refused b a (upsertByID item c) ∧
  refused b a (update_by ad payload pre c) ∧ refused b a (counterAdd (Scope item) id by_ c) ∧
  refused b a (delete_by ad c) ∧ refused b a (deleteUpToSeq maxSeq c) ∧
  refused b a (deleteUpToUUID u c).
Proof.
  intros Hd. cbv zeta. unfold appendItem, upsertByID, counterAdd, counterAddSlow, deleteUpToSeq,
    deleteUpToUUID, refused, unchanged.
  destruct ad; cbn [update_by delete_by];
    unfold updateByID, updateBySeq, updateByUUID, deleteByID, deleteBySeq, deleteByUUID;
    do 2 (rewrite ?bind_mint, ?bind_get_buf, ?Hd; cbv beta iota zeta); by repeat split.
Qed.

(** /tail returns the newest [limit] items behind [offset], oldest first,
    counters materialised, and reports whether older ones remain; neighbouring
    pages concatenate to the window of both, so paging skips and repeats
    nothing. *)
Theorem tail_correct b limit offset limit2 : buf_wf b → 0 < limit → 0 ≤ offset → 0 < limit2 →
  let page l o := no_pointer <$> (tailOffset b l o).1 in
  page limit offset = tail_window (wire_items b) limit offset ∧
  (tailOffset b limit offset).2 = (limit + offset <? Z.of_nat (length (items b))) ∧
  page limit2 (offset + limit) ++ page limit offset = page (limit + limit2) offset.
Proof.
  intros W Hl Ho Hl2. cbv zeta.
  destruct (tailOffset_window b limit offset W Hl Ho) as [E1 E2].
  split; [exact E1|]. split; [exact E2|]. rewrite E1.
  rewrite (proj1 (tailOffset_window b limit2 (offset + limit) W Hl2 ltac:(lia))).
  rewrite (proj1 (tailOffset_window b (limit + limit2) offset W ltac:(lia) Ho)).
  apply tail_window_app; lia.
Qed.

(** /head returns the oldest [limit] items with a seq after the cursor and
    says whether more follow; asking again after the last seq returned yields
    exactly the items that come next. *)
Theorem head_correct b after limit last : buf_wf b → 0 < limit →
  let rest := filter (λ it, after < Seq it) (wire_items b) in
  no_pointer <$> (sinceSeq b after limit).1 = take (Z.to_nat limit) rest ∧
  (sinceSeq b after limit).2 = (limit <? Z.of_nat (length rest)) ∧
  (rest !! pred (Z.to_nat limit) = Some last →
   no_pointer <$> (sinceSeq b (Seq last) limit).1 = take (Z.to_nat limit) (drop (Z.to_nat limit) rest)).
Proof.
  intros W Hl. cbv zeta. destruct (sinceSeq_window b after limit W Hl) as [E1 E2].
  split; [exact E1|]. split; [exact E2|]. intros Hlast.
  rewrite (proj1 (sinceSeq_window b (Seq last) limit W Hl)). f_equal.
  rewrite (head_cursor (wire_items b) after (pred (Z.to_nat limit)) last);
    [f_equal; lia| |exact Hlast].
  rewrite wire_seqs. apply (w_sorted _ W).
Qed.

(** A lookup finds an item exactly when one with that address is stored,
    and then returns it with its counter materialised. *)
Theorem get_correct b id s u it : buf_wf b → uuid_ok b → IsZero u = false →
  (no_pointer <$> getByID b id = Some it ↔ it ∈ wire_items b ∧ ID it = id ∧ id ≠ ""%string) ∧
  (no_pointer <$> getBySeq b s = Some it ↔ it ∈ wire_items b ∧ Seq it = s) ∧
  (no_pointer <$> getByUUID b u = Some it ↔ it ∈ wire_items b ∧ Uuid it = u).
Proof.
  intros W U Hz. split; [by apply getByID_spec|]. split; [by apply getBySeq_spec|].
  by apply getByUUID_spec.
Qed.

(** Rebuilding the indexes of a sparse buffer is invisible: every index
    answers as before, and items, cells, byte counts and the cursor stay. *)
Theorem shrink_invisible b : buf_wf b → uuid_ok b →
  let b' := shrinkIfSparseLocked b in
  buf_wf b' ∧ uuid_ok b' ∧ view b' = view b ∧
  bySeq b' = bySeq b ∧ byID b' = byID b ∧ byUUID b' = byUUID b ∧
  bytes b' = bytes b ∧ idKeyBytes b' = idKeyBytes b ∧ lastSeq b' = lastSeq b ∧
  (itemsCap b' ≤ Nat.max (itemsCap b) (length (items b)))%nat.
Proof.
  intros W U b'. destruct (shrink_same b W U) as (Eh & Ec & Ei & E1 & E2 & E3 & E4 & E5 & E6).
  split; [by apply wf_shrink|]. split.
  { intros p. unfold b'. rewrite Ei, E3. unfold deref. rewrite Eh. apply U. }
  split; [by apply view_frame|]. do 6 (split; [done|]).
  unfold b', shrinkIfSparseLocked. do 2 (case_match; [lia|]). cbn. lia.
Qed.

(** A /warm or /rebuild batch is accepted for a scope exactly when its
    non-empty ids and its uuids are distinct; the replacement then holds the
    batch in order with dense seqs from 1, one timestamp, each uuid adopted or
    minted, and, once swapped in, forms a well-formed buffer whose indexes, key
    bytes and byte count are exact. *)
Theorem replacement_correct l t now b : l ≠ [] → batch_fits (batch_items true l t).1 →
  let '(r, t') := buildReplacementState l true t in
  let l' := (batch_items true l t).1 in
  (NoDup (ids l) ∧ NoDup (uuids l') ↔ is_ok r = true) ∧
  match r with
  | Ok r =>
      length l' = length l ∧
      (∀ i it, l' !! i = Some it → ∃ src, l !! i = Some src ∧ Seq it = Z.of_nat i + 1 ∧
         Ts it = clk_micro t ∧ Scope it = Scope src ∧ ID it = ID src ∧ Payload it = Payload src ∧
         (IsZero (Uuid src) = false → Uuid it = Uuid src)) ∧
      let b' := adopt r (sumItemBytes r) now b in
      buf_wf b' ∧ uuid_ok b' ∧ idkey_ok b' ∧ view b' = fresh_content l' ∧
      lastSeq b' = Z.of_nat (length l) ∧ bytes b' = zsum approxItemSize l'
  | Err _ => True
  end.
Proof.
  intros Hne Hfit. pose proof (buildReplacementState_spec true l t Hne Hfit) as HB.
  pose proof (built_items_length true (clk_micro t) 0 l (S t)) as Elen.
  pose proof (λ i it, built_items_lookup true (clk_micro t) 0 l (S t) i it) as Elook.
  destruct (buildReplacementState _ _ _) as [[r|e] t']; cbv zeta.
  - destruct HB as (H1 & H2 & R & _). split; [by split|]. split; [exact Elen|]. split.
    { intros i it Hi. destruct (Elook i it Hi) as (src & ? & ? & ? & ? & ? & ? & ? & ? & ?).
      exists src. split; [done|]. split; [lia|]. auto 10. }
    rewrite (sumItemBytes_spec r _ R Hfit).
    destruct (adopt_wf r _ _ now b R Hfit eq_refl) as (W & U & K & V & L).
    do 4 (split; [done|]). split; [|done]. rewrite L. f_equal. exact Elen.
  - split; [|done]. split; [done|]. by intros ?.
Qed.
End Methods.
