(* ===== verification/Clock.v ===== *)
(** * No buffer method turns the clock back

  One environment reading advances the clock by one; every method is a
  composition of primitives that leave it or advance it. *)
From S2P Require Import Prelude GoStd Uuid Types Buffer BufferWrite BufferRead BufferDelete.
From S2P Require Import BufferCounter BufferReplace.

Section Clock.
Context `{Env} `{Caps}.

Lemma mono_tick : mono c_tick tick.
Proof. intros c. cbn. lia. Qed.
Lemma mono_modify_buf f : mono c_tick (modify_buf f).
Proof. by intros c. Qed.
Lemma mono_modify_acct f : mono c_tick (modify_acct f).
Proof. by intros c. Qed.
Lemma mono_get_buf : mono c_tick get_buf.
Proof. apply mono_gets. Qed.
Lemma mono_get_acct : mono c_tick get_acct.
Proof. apply mono_gets. Qed.
#[local] Hint Resolve mono_tick mono_modify_buf mono_modify_acct mono_get_buf mono_get_acct : clock.

Lemma mono_nowUnixMicro : mono c_tick nowUnixMicro.
Proof. unfold nowUnixMicro. clock. Qed.
Lemma mono_mintUUID : mono c_tick mintUUID.
Proof. unfold mintUUID. clock. Qed.
Lemma mono_add_totalBytes d : mono c_tick (add_totalBytes d).
Proof. unfold add_totalBytes. clock. Qed.
Lemma mono_add_totalItems d : mono c_tick (add_totalItems d).
Proof. unfold add_totalItems. clock. Qed.
Lemma mono_bumpLastWriteTS t : mono c_tick (bumpLastWriteTS t).
Proof. unfold bumpLastWriteTS. clock. Qed.
#[local] Hint Resolve mono_nowUnixMicro mono_mintUUID mono_add_totalBytes mono_add_totalItems
  mono_bumpLastWriteTS : clock.
Lemma mono_reserveBytes d : mono c_tick (reserveBytes d).
Proof. unfold reserveBytes. clock. Qed.
Lemma mono_write_item p f : mono c_tick (write_item p f).
Proof. unfold write_item. clock. Qed.
#[local] Hint Resolve mono_reserveBytes mono_write_item : clock.
Lemma mono_reservePayloadDelta o n : mono c_tick (reservePayloadDeltaLocked o n).
Proof. unfold reservePayloadDeltaLocked. clock. Qed.
Lemma mono_replaceItem i p t r d : mono c_tick (replaceItemAtIndexLocked i p t r d).
Proof. unfold replaceItemAtIndexLocked. clock. Qed.
Lemma mono_insertNewItem it t u : mono c_tick (insertNewItemLocked it t u).
Proof. unfold insertNewItemLocked. clock. Qed.
#[local] Hint Resolve mono_reservePayloadDelta mono_replaceItem mono_insertNewItem : clock.

Lemma mono_appendItem it : mono c_tick (appendItem it).
Proof. unfold appendItem. clock. Qed.
Lemma mono_upsertByID it : mono c_tick (upsertByID it).
Proof. unfold upsertByID. clock. Qed.
Lemma mono_updateByID id p r : mono c_tick (updateByID id p r).
Proof. unfold updateByID. clock. Qed.
Lemma mono_updateBySeq s p r : mono c_tick (updateBySeq s p r).
Proof. unfold updateBySeq. clock. Qed.
Lemma mono_updateByUUID u p r : mono c_tick (updateByUUID u p r).
Proof. unfold updateByUUID. clock. Qed.

Lemma mono_deleteIndex i : mono c_tick (deleteIndexLocked i).
Proof. unfold deleteIndexLocked. clock. Qed.
Lemma mono_drain s : mono c_tick (deleteUpToSeqLocked s).
Proof. unfold deleteUpToSeqLocked. clock. Qed.
#[local] Hint Resolve mono_deleteIndex mono_drain : clock.
Lemma mono_deleteByID id : mono c_tick (deleteByID id).
Proof. unfold deleteByID. clock. Qed.
Lemma mono_deleteBySeq s : mono c_tick (deleteBySeq s).
Proof. unfold deleteBySeq. clock. Qed.
Lemma mono_deleteByUUID u : mono c_tick (deleteByUUID u).
Proof. unfold deleteByUUID. clock. Qed.
Lemma mono_deleteUpToSeq s : mono c_tick (deleteUpToSeq s).
Proof. unfold deleteUpToSeq. clock. Qed.
Lemma mono_deleteUpToUUID u : mono c_tick (deleteUpToUUID u).
Proof. unfold deleteUpToUUID. clock. Qed.

Lemma mono_atomicCounterAdd c n : mono c_tick (atomicCounterAdd c n).
Proof. unfold atomicCounterAdd. clock. Qed.
Lemma mono_new_cell c : mono c_tick (new_cell c).
Proof. unfold new_cell. clock. Qed.
#[local] Hint Resolve mono_atomicCounterAdd mono_new_cell : clock.
Lemma mono_promote p n : mono c_tick (counterAddSlow_promote p n).
Proof. unfold counterAddSlow_promote. clock. Qed.
Lemma mono_create k id n u : mono c_tick (counterAddSlow_create k id n u).
Proof. unfold counterAddSlow_create. clock. Qed.
#[local] Hint Resolve mono_promote mono_create : clock.
Lemma mono_counterAddSlow k id n : mono c_tick (counterAddSlow k id n).
Proof. unfold counterAddSlow. clock. Qed.
#[local] Hint Resolve mono_counterAddSlow : clock.
Lemma mono_counterAdd k id n : mono c_tick (counterAdd k id n).
Proof. unfold counterAdd. clock. Qed.

Lemma mono_newUUID_at : mono id newUUID_at.
Proof. intros t. cbn. lia. Qed.
Lemma mono_now_at : mono id now_at.
Proof. intros t. cbn. lia. Qed.
#[local] Hint Resolve mono_newUUID_at mono_now_at : clock.
Lemma mono_build_item m now s src : mono id (build_item m now s src).
Proof. unfold build_item. clock. Qed.
#[local] Hint Resolve mono_build_item : clock.
Lemma mono_build_loop m now l s : mono id (build_loop m now l s).
Proof. revert s. induction l as [|x l IH]; intros s; cbn [build_loop]; clock. Qed.
#[local] Hint Resolve mono_build_loop : clock.
Lemma mono_buildReplacementState l m : mono id (buildReplacementState l m).
Proof. unfold buildReplacementState. clock. Qed.
Lemma mono_commitPreReserved r n o : mono c_tick (commitReplacementPreReserved r n o).
Proof. unfold commitReplacementPreReserved. clock. Qed.
End Clock.

#[export] Hint Resolve mono_nowUnixMicro mono_add_totalBytes mono_add_totalItems
  mono_bumpLastWriteTS mono_reserveBytes mono_appendItem mono_upsertByID mono_updateByID
  mono_updateBySeq mono_updateByUUID mono_deleteByID mono_deleteBySeq mono_deleteByUUID
  mono_deleteUpToSeq mono_deleteUpToUUID mono_counterAddSlow mono_counterAdd
  mono_buildReplacementState mono_commitPreReserved : clock.
