(* ===== verification/Store.v ===== *)
(** * store.go: the sharded scope map, admission control, lookups

  The store owns an arena of buffers: a pointer kept by a writer stays valid
  after the scope is unlinked, as in Go. Each definition is one locked section
  (or a composition of them), so its steps may be interleaved with those of
  other goroutines. *)
From S2P Require Import Prelude GoStd Uuid Types Buffer BufferRead.

#[export] Instance inhabited_scopeBuffer : Inhabited scopeBuffer := populate (newscopeBuffer 0 0).

(** [maphash.String] under the per-process seed. *)
Class ScopeHash := scope_hash : string → Z.

Definition numShards : nat := 32.
Definition shardMask : Z := 31.

(** A subscriber's channel has one slot; [panicked] records a send on, or a
    second close of, a closed channel. *)
Record chan := mkchan { pending : bool; closed : bool; panicked : bool }.
#[export] Instance inhabited_chan : Inhabited chan := populate (mkchan false false false).

Record store := mkstore {
  bufs : gmap nat scopeBuffer;
  nextb : nat;
  shards : list (gmap string nat);
  s_acct : acct;
  s_tick : nat;
  subscribers : gmap string nat;
  chans : gmap nat chan;
}.
#[export] Instance eta_store : Eta store := λ s,
  mkstore (bufs s) (nextb s) (shards s) (s_acct s) (s_tick s) (subscribers s) (chans s).
Definition SM (A : Type) : Type := ST store A.

Definition set_bufs (m : gmap nat scopeBuffer) (s : store) : store := s <| bufs := m |>.
Definition set_shards (l : list (gmap string nat)) (s : store) : store := s <| shards := l |>.
Definition set_acct (a : acct) (s : store) : store := s <| s_acct := a |>.
Definition buf_at (s : store) (p : nat) : scopeBuffer := bufs s !!! p.

(** Run a method of the buffer at [p]; run a store method that touches only
    the counters and the clock. *)
Definition with_buf {A} (p : nat) (m : M A) : SM A := λ s,
  let '(x, c) := m (mkctx (buf_at s p) (s_acct s) (s_tick s)) in
  (x, s <| bufs := <[p := c_buf c]> (bufs s) |> <| s_acct := c_acct c |> <| s_tick := c_tick c |>).
Definition on_counters {A} (m : M A) : SM A := λ s,
  let '(x, c) := m (mkctx inhabitant (s_acct s) (s_tick s)) in
  (x, s <| s_acct := c_acct c |> <| s_tick := c_tick c |>).
Definition modify_buf_at (p : nat) (f : scopeBuffer → scopeBuffer) : SM unit :=
  modify (λ s, set_bufs (<[p := f (buf_at s p)]> (bufs s)) s).
Definition modify_counters (f : acct → acct) : SM unit := modify (λ s, set_acct (f (s_acct s)) s).

(** Buffer fields assigned by the store. *)
Definition bind_store (maxB : Z) (b : scopeBuffer) : scopeBuffer := Eval fields in
  b <| attached := true |> <| buf_maxItemBytes := maxB |>.
Definition detach (b : scopeBuffer) : scopeBuffer := Eval fields in
  b <| detached := true |> <| attached := false |>.
Definition set_reserved_fields (maxI maxB ts : Z) (b : scopeBuffer) : scopeBuffer := Eval fields in
  b <| maxItems := maxI |> <| buf_maxItemBytes := maxB |> <| lastWriteTS := ts |>.
Definition set_scopeCount (n : Z) (a : acct) : acct := Eval fields in a <| scopeCount := n |>.
Definition add_drop (a : acct) : acct := Eval fields in
  a <| eventsDropsTotal := i64 (eventsDropsTotal a + 1) |>.

Section Store.
Context `{Env} `{Caps} `{ScopeHash}.

Definition shardIdxFor (scope : string) : nat := Z.to_nat (Z.land (scope_hash scope) shardMask).
Definition shardFor (s : store) (scope : string) : gmap string nat := shards s !!! shardIdxFor scope.
Definition getScope (s : store) (scope : string) : option nat := shardFor s scope !! scope.

Definition put_scope (scope : string) (p : nat) : SM unit :=
  modify (λ s, set_shards (<[shardIdxFor scope := <[scope := p]> (shardFor s scope)]> (shards s)) s).
Definition drop_scope (scope : string) : SM unit :=
  modify (λ s, set_shards (<[shardIdxFor scope := delete scope (shardFor s scope)]> (shards s)) s).

(** The unique shards of a set of names, in ascending order. *)
Definition shardsForScopes (scopes : list string) : list nat :=
  filter (λ i, i ∈ (shardIdxFor <$> scopes)) (seq 0 numShards).

Definition now : SM Z := on_counters nowUnixMicro.
Definition alloc (b : scopeBuffer) : SM nat := λ s,
  (nextb s, s <| bufs := <[nextb s := b]> (bufs s) |> <| nextb := S (nextb s) |>).

Definition store_newscopeBuffer : SM nat :=
  let* t := now in
  alloc (bind_store maxItemBytes (newscopeBuffer defaultMaxItems t)).

Definition add_scopeCount (d : Z) : SM unit :=
  modify_counters (λ a, set_scopeCount (i64 (scopeCount a + d)) a).

(** The body both initialisers run for one missing reserved name. *)
Definition init_reserved (name : string) (ts : store → Z) : SM unit :=
  let* s := get in
  match getScope s name with
  | Some _ => ret tt
  | None =>
      let* p := store_newscopeBuffer in
      let* s := get in
      modify_buf_at p (set_reserved_fields (maxItemsFor name) (maxItemBytesFor name) (ts s)) ;;;
      put_scope name p ;;;
      on_counters (add_totalBytes scopeBufferOverhead) ;;;
      add_scopeCount 1
  end.
Fixpoint init_each (names : list string) (ts : store → Z) : SM unit :=
  match names with
  | [] => ret tt
  | name :: names => init_reserved name ts ;;; init_each names ts
  end.
Definition initReservedScopes : SM unit := init_each reservedScopeNames (λ _, 0).
Definition initReservedScopesLocked : SM unit :=
  init_each reservedScopeNames (λ s, store_lastWriteTS (s_acct s)).

Definition emptyStore : store :=
  mkstore ∅ 0 (replicate numShards ∅) (mkacct 0 0 0 0 0) 0 ∅ ∅.
Definition newStore : store := (initReservedScopes emptyStore).2.

(** The second half of getOrCreateScopeTrackingCreated, under the shard lock. *)
Definition create_locked (scope : string) (preBuf : nat) : SM (result error (nat * bool)) :=
  let* s := get in
  match getScope s scope with
  | Some existing => ret (Ok (existing, false))
  | None =>
      let* r := on_counters (reserveBytes scopeBufferOverhead) in
      let '(ok, current, max) := r in
      if negb (ok : bool) then ret (Err (StoreFullError current scopeBufferOverhead max))
      else
        put_scope scope preBuf ;;;
        add_scopeCount 1 ;;;
        ret (Ok (preBuf, true))
  end.
Definition getOrCreateScopeTrackingCreated (scope : string) : SM (result error (nat * bool)) :=
  if bool_decide (scope = "") then ret (Err (ErrText "the 'scope' field is required"))
  else
    let* s := get in
    match getScope s scope with
    | Some buf => ret (Ok (buf, false))
    | None =>
        let* preBuf := store_newscopeBuffer in
        create_locked scope preBuf
    end.
Definition getOrCreateScope (scope : string) : SM (result error nat) :=
  let? r := getOrCreateScopeTrackingCreated scope in ret (Ok r.1).

Definition cleanupIfEmptyAndUnused (scope : string) (buf : nat) : SM unit :=
  let* s := get in
  if negb (bool_decide (getScope s scope = Some buf)) then ret tt
  else if negb (length (items (buf_at s buf)) =? 0)%nat then ret tt
  else
    drop_scope scope ;;;
    on_counters (add_totalBytes (- scopeBufferOverhead)) ;;;
    add_scopeCount (-1) ;;;
    modify_buf_at buf detach.

Definition ensureScope (scope : string) : SM (option nat) :=
  let* s := get in
  match getScope s scope with
  | Some buf => ret (Some buf)
  | None =>
      let* r := on_counters (reserveBytes scopeBufferOverhead) in
      if negb r.1.1 then ret None
      else
        let* buf := store_newscopeBuffer in
        put_scope scope buf ;;;
        add_scopeCount 1 ;;;
        let* s := get in
        on_counters (bumpLastWriteTS (lastWriteTS (buf_at s buf))) ;;;
        ret (Some buf)
  end.

(** The closure deleteScope runs under the shard lock and [buf.mu]. *)
Definition deleteScope_locked (scope : string) : SM (Z * bool) :=
  let* s := get in
  match getScope s scope with
  | None => ret (0, false)
  | Some buf =>
      let itemCount := Z.of_nat (length (items (buf_at s buf))) in
      let scopeBytes := bytes (buf_at s buf) in
      drop_scope scope ;;;
      on_counters (add_totalBytes (- (i64 (scopeBytes + scopeBufferOverhead)))) ;;;
      on_counters (add_totalItems (- itemCount)) ;;;
      add_scopeCount (-1) ;;;
      let* t := now in
      on_counters (bumpLastWriteTS t) ;;;
      modify_buf_at buf detach ;;;
      ret (itemCount, true)
  end.

(** ** Statistics *)
Record reservedScopeEntry := mkreservedScopeEntry {
  rse_Scope : string; rse_ItemCount : Z; rse_LastSeq : Z; rse_ApproxScopeMB : MB;
  rse_CreatedTS : Z; rse_LastWriteTS : Z }.
Record storeStats := mkstoreStats {
  ss_Scopes : Z; ss_Items : Z; ss_ApproxStoreMB : MB; ss_LastWriteTS : Z;
  ss_EventsDropsTotal : Z; ss_ReservedScopes : list reservedScopeEntry }.

Definition reservedScopeStats (s : store) : list reservedScopeEntry :=
  omap (λ name, (λ p,
    let st := buf_stats (buf_at s p) in
    mkreservedScopeEntry name (st_ItemCount st) (st_LastSeq st) (st_ApproxScopeMB st)
      (st_CreatedTS st) (st_LastWriteTS st)) <$> getScope s name) reservedScopeNames.
Definition stats (s : store) : storeStats :=
  mkstoreStats (scopeCount (s_acct s)) (totalItems (s_acct s)) (totalBytes (s_acct s))
    (store_lastWriteTS (s_acct s)) (eventsDropsTotal (s_acct s)) (reservedScopeStats s).

(** Every mapped scope; later shards win, but no name is in two shards. *)
Definition listScopes (s : store) : gmap string nat := foldl (λ acc m, m ∪ acc) ∅ (shards s).
End Store.

(** ** newStore's derived caps *)
Definition caps_of (c : Config) : Caps :=
  let c := WithDefaults c in
  let biggestUserCap := Config_MaxItemBytes c in
  let biggestUserCap := if biggestUserCap <? Inbox_MaxItemBytes (Inbox c)
                        then Inbox_MaxItemBytes (Inbox c) else biggestUserCap in
  {| defaultMaxItems := Config_ScopeMaxItems c;
     maxStoreBytes := Config_MaxStoreBytes c;
     maxItemBytes := Config_MaxItemBytes c;
     eventsMaxItemBytes := addClampedInt64 biggestUserCap eventsItemEnvelopeOverhead;
     inboxMaxItems := Inbox_MaxItems (Inbox c);
     inboxMaxItemBytes := Inbox_MaxItemBytes (Inbox c);
     eventsMode := Mode (Events c) |}.
