(* ===== verification/StoreInv.v ===== *)
(** * The store's invariant

  [BufferOp] is the interface the store needs from a buffer method: on an
  attached buffer it honours [bstep] and keeps the scope's identity; on a
  detached one it does nothing and reports it. [store_inv] ties the sharded
  map, the buffers and the atomic counters together. *)
From S2P Require Import Prelude GoStd Uuid Types Buffer BufferInv BufferSpec BufferRead Store.

(** ** Sums over a map *)
Definition msum (f : string → nat → Z) (m : gmap string nat) : Z :=
  zsum (λ e, f e.1 e.2) (map_to_list m).

Lemma msum_empty f : msum f ∅ = 0.
Proof. unfold msum. by rewrite map_to_list_empty. Qed.
Lemma msum_insert f m k p : m !! k = None → msum f (<[k := p]> m) = f k p + msum f m.
Proof. intros Hk. unfold msum. rewrite (zsum_perm _ _ _ (map_to_list_insert m k p Hk)). done. Qed.
Lemma msum_delete f m k p : m !! k = Some p → msum f (delete k m) = msum f m - f k p.
Proof.
  intros Hk. unfold msum. rewrite <- (zsum_perm _ _ _ (map_to_list_delete m k p Hk)).
  cbn. lia.
Qed.
Lemma msum_ext f g m : (∀ k p, m !! k = Some p → f k p = g k p) → msum f m = msum g m.
Proof.
  intros Hfg. apply zsum_ext. intros [k p] Hin%elem_of_map_to_list. by apply Hfg.
Qed.
Lemma msum_upd f g m k p : m !! k = Some p →
  (∀ k' p', m !! k' = Some p' → k' ≠ k → g k' p' = f k' p') →
  msum g m = msum f m + (g k p - f k p).
Proof.
  intros Hk Hg. rewrite <- (insert_delete_id m k p Hk).
  rewrite !msum_insert by apply lookup_delete_eq.
  rewrite (msum_ext g f (delete k m)); [lia|]. intros k' p' [? ?]%lookup_delete_Some. by apply Hg.
Qed.
Lemma msum_elem f m k p : m !! k = Some p → (∀ k p, 0 ≤ f k p) → f k p ≤ msum f m.
Proof.
  intros Hk Hf. apply (zsum_elem (λ e, f e.1 e.2) _ (k, p)); [intros; apply Hf|].
  by apply elem_of_map_to_list.
Qed.
Lemma msum_nonneg f m : (∀ k p, 0 ≤ f k p) → 0 ≤ msum f m.
Proof. intros Hf. apply zsum_nonneg. intros; apply Hf. Qed.
Lemma msum_le f g m : (∀ k p, m !! k = Some p → f k p ≤ g k p) → msum f m ≤ msum g m.
Proof.
  intros Hfg. apply zsum_le. intros [k p] Hin%elem_of_map_to_list. by apply Hfg.
Qed.

Lemma foldl_union_lookup (l : list (gmap string nat)) acc k p :
  (∀ m m' q q', m ∈ l → m' ∈ l → m !! k = Some q → m' !! k = Some q' → q = q') →
  foldl (λ acc m, m ∪ acc) acc l !! k = Some p ↔
    (∃ m, m ∈ l ∧ m !! k = Some p) ∨ (∀ m, m ∈ l → m !! k = None) ∧ acc !! k = Some p.
Proof.
  revert acc. induction l as [|m l IH]; intros acc Hu; cbn [foldl].
  { split; [intros ?; right; set_solver|]. intros [(m & [] % elem_of_nil & _)|[_ ?]]; done. }
  rewrite IH by (intros; eapply Hu; try done; by right). rewrite lookup_union_Some_raw. split.
  - intros [(m' & ? & ?)|[Hn [?|[? ?]]]].
    + left. exists m'. split; [by right|done].
    + left. exists m. split; [by left|done].
    + right. split; [|done]. intros m' [->|?]%elem_of_cons; [done|by apply Hn].
  - intros [(m' & [->|?]%elem_of_cons & Hp)|[Hn ?]].
    + destruct (decide (Exists (λ m', is_Some (m' !! k)) l))
        as [(m' & Hm' & [q Hq])%Exists_exists|Hno].
      * left. exists m'. split; [done|]. rewrite Hq. f_equal.
        eapply (Hu m' m); try done; [by right|by left].
      * right. split; [|by left]. intros m' Hm'. apply eq_None_not_Some. intros ?. apply Hno, Exists_exists. eauto.
    + left. eauto.
    + right. split; [intros; apply Hn; by right|]. right. split; [|done]. apply Hn. by left.
Qed.

Section Inv.
Context `{Env} `{Caps} `{ScopeHash}.

(** ** The interface of a buffer method *)
Definition unchanged_while_detached {A} (m : M (result error A)) : Prop :=
  ∀ b a t, attached b = false → detached b = true →
    ∃ t', m (mkctx b a t) = (Err ScopeDetachedError, mkctx b a t') ∧ (t ≤ t')%nat.

Record op_effect (k : string) (b : scopeBuffer) (a : acct) (t : nat) (c : ctx) : Prop := {
  oe_step : bstep b a (c_buf c) (c_acct c);
  oe_scope : scope_ok k (c_buf c);
  oe_tick : (t ≤ c_tick c)%nat;
  oe_seq : lastSeq b ≤ lastSeq (c_buf c) ≤ lastSeq b + Z.of_nat (c_tick c - t);
}.

Class BufferOp (k : string) {A} (m : M (result error A)) : Prop := {
  bo_live : ∀ b a t, buf_pre b a → detached b = false → scope_ok k b → lastSeq b < MaxUint64 →
    op_effect k b a t (m (mkctx b a t)).2;
  bo_dead : unchanged_while_detached m;
  bo_clock : mono c_tick m;
}.

(** ** The scope map *)
Definition scopes (s : store) : gmap string nat := listScopes s.

Definition placed (s : store) : Prop :=
  length (shards s) = numShards ∧
  ∀ i m k, shards s !! i = Some m → is_Some (m !! k) → shardIdxFor k = i.

Lemma shardIdxFor_lt k : (shardIdxFor k < numShards)%nat.
Proof.
  unfold shardIdxFor, numShards. change shardMask with (Z.ones 5). rewrite Z.land_ones by lia.
  pose proof (Z.mod_pos_bound (scope_hash k) (2 ^ 5) ltac:(lia)). lia.
Qed.

Lemma shard_lookup s k : placed s → shards s !! shardIdxFor k = Some (shardFor s k).
Proof.
  intros [Hl _]. destruct (lookup_lt_is_Some_2 (shards s) (shardIdxFor k)) as [m Hm].
  { rewrite Hl. apply shardIdxFor_lt. }
  rewrite Hm. f_equal. symmetry. by apply list_lookup_total_correct.
Qed.

Lemma scopes_lookup s k : placed s → scopes s !! k = getScope s k.
Proof.
  intros P. pose proof (shard_lookup s k P) as Hk. destruct P as [_ P]. apply option_eq. intros p.
  unfold scopes, listScopes. rewrite foldl_union_lookup.
  - split.
    + intros [(m & [i Hi]%list_elem_of_lookup & Hp)|[_ Hx]]; [|by rewrite lookup_empty in Hx].
      assert (shardIdxFor k = i) as <- by (eapply P; [done|by eexists]).
      unfold getScope. congruence.
    + intros Hp. left. exists (shardFor s k). split; [|done]. by eapply list_elem_of_lookup_2.
  - intros m m' q q' [i Hi]%list_elem_of_lookup [j Hj]%list_elem_of_lookup Hq Hq'.
    assert (shardIdxFor k = i) as <- by (eapply P; [done|by eexists]).
    assert (shardIdxFor k = j) as <- by (eapply P; [done|by eexists]). congruence.
Qed.

Lemma shard_put s k f : placed s → (∀ k', is_Some (f (shardFor s k) !! k') →
    k' = k ∨ is_Some (shardFor s k !! k')) →
  let s' := set_shards (<[shardIdxFor k := f (shardFor s k)]> (shards s)) s in
  placed s' ∧ (∀ k', getScope s' k' =
    if decide (shardIdxFor k' = shardIdxFor k) then f (shardFor s k) !! k' else getScope s k').
Proof.
  intros P Hf s'. pose proof (shard_lookup s k P) as Hk. split.
  - split; [cbn; rewrite length_insert; apply P|]. cbn. intros i m k' Hi Hs.
    destruct (decide (shardIdxFor k = i)) as [<-|Hne].
    + rewrite list_lookup_insert_eq in Hi by (by eapply lookup_lt_Some). simplify_eq.
      destruct (Hf k' Hs) as [->|?]; [done|]. by eapply P.
    + rewrite list_lookup_insert_ne in Hi by done. by eapply P.
  - intros k'. unfold getScope, shardFor. cbn. case_decide as E.
    + rewrite E, list_lookup_total_insert_eq by (by eapply lookup_lt_Some). done.
    + by rewrite list_lookup_total_insert_ne by done.
Qed.

Lemma put_scope_spec s k p : placed s →
  let s' := ((put_scope k p) s).2 in
  placed s' ∧ scopes s' = <[k := p]> (scopes s).
Proof.
  intros P s'. destruct (shard_put s k (λ m, <[k := p]> m) P) as [P' G].
  { intros k' [x Hx]. rewrite lookup_insert_Some in Hx. destruct Hx as [[<- _]|[_ Hx]]; [by left|].
    right. by eexists. }
  split; [done|]. apply map_eq. intros k'. rewrite scopes_lookup by done.
  change (getScope s' k' = <[k:=p]> (scopes s) !! k'). unfold s', put_scope, modify. cbn [snd].
  rewrite G. destruct (decide (k = k')) as [<-|Hne].
  - by rewrite decide_True, !lookup_insert_eq by done.
  - rewrite !lookup_insert_ne, scopes_lookup by done. case_decide as E; [|done].
    unfold getScope, shardFor. by rewrite E.
Qed.

Lemma drop_scope_spec s k : placed s →
  let s' := ((drop_scope k) s).2 in
  placed s' ∧ scopes s' = delete k (scopes s).
Proof.
  intros P s'. destruct (shard_put s k (λ m, delete k m) P) as [P' G].
  { intros k' [x [_ Hx]%lookup_delete_Some]. right. by eexists. }
  split; [done|]. apply map_eq. intros k'. rewrite scopes_lookup by done.
  change (getScope s' k' = delete k (scopes s) !! k'). unfold s', drop_scope, modify. cbn [snd].
  rewrite G. destruct (decide (k = k')) as [<-|Hne].
  - by rewrite decide_True, !lookup_delete_eq by done.
  - rewrite !lookup_delete_ne, scopes_lookup by done. case_decide as E; [|done].
    unfold getScope, shardFor. by rewrite E.
Qed.

Lemma placed_shards s s' : shards s' = shards s →
  (placed s → placed s') ∧ scopes s' = scopes s ∧ (∀ k, getScope s' k = getScope s k).
Proof.
  intros E. unfold placed, scopes, listScopes, getScope, shardFor. rewrite E. done.
Qed.

(** ** The invariant *)
Class CapsOk : Prop := {
  co_max : maxStoreBytes ≤ MaxInt64;
  co_min : reservedScopesOverhead ≤ maxStoreBytes;
  co_items : 0 < defaultMaxItems;
  co_item : maxItemBytes ≤ MaxInt64;
}.

Record live_buf (k : string) (tick : nat) (b : scopeBuffer) : Prop := {
  lb_wf : buf_wf b;
  lb_att : attached b = true;
  lb_det : detached b = false;
  lb_scope : scope_ok k b;
  lb_maxItems : maxItems b = maxItemsFor k;
  lb_maxBytes : buf_maxItemBytes b = maxItemBytesFor k;
  lb_count : maxItems b ≤ 0 ∨ Z.of_nat (length (items b)) ≤ maxItems b;
  lb_seq : lastSeq b ≤ Z.of_nat tick + MaxInt64;
}.

Definition charge (s : store) (p : nat) : Z := bytes (buf_at s p) + scopeBufferOverhead.
Definition count (s : store) (p : nat) : Z := Z.of_nat (length (items (buf_at s p))).

Record store_inv_on (R : list string) (s : store) : Prop := {
  si_placed : placed s;
  si_live : ∀ k p, scopes s !! k = Some p → live_buf k (s_tick s) (buf_at s p) ∧ (p < nextb s)%nat;
  si_inj : ∀ k k' p, scopes s !! k = Some p → scopes s !! k' = Some p → k = k';
  si_bytes : totalBytes (s_acct s) = msum (λ _ p, charge s p) (scopes s);
  si_items : totalItems (s_acct s) = msum (λ _ p, count s p) (scopes s);
  si_count : scopeCount (s_acct s) = Z.of_nat (size (scopes s));
  si_cap : totalBytes (s_acct s) ≤ maxStoreBytes;
  si_reserved : ∀ k, k ∈ R → is_Some (scopes s !! k);
}.
#[global] Arguments si_placed {R} s.
#[global] Arguments si_live {R} s.
#[global] Arguments si_inj {R} s.
#[global] Arguments si_bytes {R} s.
#[global] Arguments si_items {R} s.
#[global] Arguments si_count {R} s.
#[global] Arguments si_cap {R} s.
#[global] Arguments si_reserved {R} s.

(** Every scope the cache reserves is present. *)
Definition store_inv : store → Prop := store_inv_on reservedScopeNames.

(** Fewer than 2^63 clock and random readings so far: no seq has wrapped. *)
Definition young (s : store) : Prop := Z.of_nat (s_tick s) ≤ MaxInt64.

(** A writer that looked [k] up may hold [p]: still the scope's buffer, or
    detached for ever. No section of the store invalidates such a pointer. *)
Definition gone (b : scopeBuffer) : Prop := attached b = false ∧ detached b = true.
Definition published (s : store) (k : string) (p : nat) : Prop :=
  scopes s !! k = Some p ∨ (p < nextb s)%nat ∧ gone (buf_at s p) ∧ ∀ k', scopes s !! k' ≠ Some p.
Definition extends (s s' : store) : Prop := ∀ k p, published s k p → published s' k p.
#[export] Instance extends_preorder : PreOrder extends.
Proof. split; [by intros s k p|]. intros s1 s2 s3 E1 E2 k p Hp. by apply E2, E1. Qed.

Context `{!CapsOk}.

(** While bulk writes have reserved and not yet committed, the byte counter
    runs ahead of the buffers by [db] (behind them when they shrink the store)
    and the scope counter behind the map by [dc]; the rest of the invariant
    holds. *)
Record store_core (db dc : Z) (R : list string) (s : store) : Prop := {
  sk_placed : placed s;
  sk_live : ∀ k p, scopes s !! k = Some p → live_buf k (s_tick s) (buf_at s p) ∧ (p < nextb s)%nat;
  sk_inj : ∀ k k' p, scopes s !! k = Some p → scopes s !! k' = Some p → k = k';
  sk_bytes : totalBytes (s_acct s) = msum (λ _ p, charge s p) (scopes s) + db;
  sk_items : totalItems (s_acct s) = msum (λ _ p, count s p) (scopes s);
  sk_count : scopeCount (s_acct s) = Z.of_nat (size (scopes s)) - dc;
  sk_reserved : ∀ k, k ∈ R → is_Some (scopes s !! k);
}.

Lemma inv_core R s : store_inv_on R s ↔ store_core 0 0 R s ∧ totalBytes (s_acct s) ≤ maxStoreBytes.
Proof.
  split; [intros []|intros [[] ?]]; [split; [|done]|]; constructor; try done; lia.
Qed.

(** The counters are far enough from the ends of int64 for one more section. *)
Record tame (db dc : Z) (s : store) : Prop := {
  tm_top : totalBytes (s_acct s) ≤ MaxInt64;
  tm_real : totalBytes (s_acct s) - db ≤ MaxInt64;
  tm_low : maxStoreBytes - MaxInt64 ≤ db;
  tm_scopes : 0 ≤ dc ∧ 2 * dc ≤ MaxInt64;
}.

Lemma inv_tame {R} s : store_inv_on R s → tame 0 0 s.
Proof. intros I. pose proof (si_cap _ I). pose proof co_max. constructor; unfold MaxInt64 in *; lia. Qed.

Lemma core_pre {R} db dc s k p : store_core db dc R s → tame db dc s → scopes s !! k = Some p →
  buf_pre (buf_at s p) (s_acct s).
Proof.
  intros I T Hk. destruct (sk_live _ _ _ _ I k p Hk) as [L _].
  pose proof (wf_bytes_nonneg (lb_wf _ _ _ L)) as Hb.
  assert (∀ (_ : string) p, 0 ≤ count s p) as Hc by (intros; unfold count; lia).
  pose proof (msum_elem (λ _ p, count s p) _ k p Hk Hc) as H3. rewrite <- (sk_items _ _ _ _ I) in H3.
  assert (∀ l : list (string * nat), (∀ e, e ∈ l → scopes s !! e.1 = Some e.2) →
      0 ≤ zsum (λ e, charge s e.2) l ∧
      48 * zsum (λ e, count s e.2) l ≤ zsum (λ e, charge s e.2) l) as G.
  { induction l as [|e l IH]; intros He; cbn [zsum]; [lia|].
    destruct (IH (λ x Hx, He x (list_elem_of_further _ _ _ Hx))) as [IH1 IH2].
    destruct (sk_live _ _ _ _ I e.1 e.2) as [Le _]; [apply He; by left|].
    pose proof (wf_bytes_nonneg (lb_wf _ _ _ Le)).
    unfold count at 1, charge at 1 3, scopeBufferOverhead. lia. }
  assert (0 ≤ msum (λ _ p, charge s p) (delete k (scopes s)) ∧
    48 * msum (λ _ p, count s p) (delete k (scopes s)) ≤
    msum (λ _ p, charge s p) (delete k (scopes s))) as [Hr Hle].
  { apply G. intros [k' p'] Hin%elem_of_map_to_list. by apply lookup_delete_Some in Hin as [_ ?]. }
  pose proof (msum_delete (λ _ p, charge s p) _ k p Hk) as E1.
  pose proof (msum_delete (λ _ p, count s p) _ k p Hk) as E2.
  pose proof (sk_bytes _ _ _ _ I). pose proof (sk_items _ _ _ _ I). destruct T. pose proof co_max.
  pose proof co_min. change reservedScopesOverhead with 2048 in *.
  cbv beta in E1, E2.
  assert (charge s p = bytes (buf_at s p) + 1024) as Ec by done.
  assert (count s p = Z.of_nat (length (items (buf_at s p)))) as En by done.
  constructor; [apply L|apply L|exact H3|lia..].
Qed.

Lemma live_pre {R} s k p : store_inv_on R s → scopes s !! k = Some p → buf_pre (buf_at s p) (s_acct s).
Proof. intros I. pose proof (inv_tame s I) as T. apply inv_core in I as [C _]. by eapply (core_pre 0 0). Qed.

Lemma core_seq {R} db dc s k p : store_core db dc R s → young s → scopes s !! k = Some p →
  lastSeq (buf_at s p) < MaxUint64.
Proof.
  intros I Y Hk. destruct (sk_live _ _ _ _ I k p Hk) as [L _]. pose proof (lb_seq _ _ _ L).
  unfold young, MaxUint64, MaxInt64 in *. lia.
Qed.
Lemma live_seq {R} s k p : store_inv_on R s → young s → scopes s !! k = Some p →
  lastSeq (buf_at s p) < MaxUint64.
Proof. intros [C _]%inv_core. by eapply (core_seq 0 0). Qed.

Lemma live_mono k t t' b : live_buf k t b → (t ≤ t')%nat → live_buf k t' b.
Proof. intros [] ?. constructor; try done. lia. Qed.

(** A live buffer after an operation of its interface. *)
Lemma live_step k b a t c : live_buf k t b → op_effect k b a t c → live_buf k (c_tick c) (c_buf c).
Proof.
  intros L [B S T Q]. destruct L, B. constructor; try done; try congruence.
  - destruct bs_count as [?|Hn]; [left; congruence|].
    rewrite bs_maxItems. destruct lb_count0; [by left|right; lia].
  - lia.
Qed.

(** One buffer replaced, the counters moved with it. *)
Lemma core_upd {R} db dc s k p b' a' t' : store_core db dc R s → scopes s !! k = Some p →
  (s_tick s ≤ t')%nat → live_buf k t' b' →
  totalItems a' - totalItems (s_acct s)
    = Z.of_nat (length (items b')) - Z.of_nat (length (items (buf_at s p))) →
  scopeCount a' = scopeCount (s_acct s) →
  let s' := mkstore (<[p := b']> (bufs s)) (nextb s) (shards s) a' t' (subscribers s) (chans s) in
  store_core (db + (totalBytes a' - totalBytes (s_acct s)) - (bytes b' - bytes (buf_at s p))) dc R s'.
Proof.
  intros I Hk Ht L Hi Hsc s'. destruct (placed_shards s s' eq_refl) as (HP & HS & HG).
  assert (buf_at s' p = b') as Ep by (unfold buf_at; cbn; apply lookup_total_insert_eq).
  assert (∀ q, q ≠ p → buf_at s' q = buf_at s q) as Eq
    by (intros; unfold buf_at; cbn; by apply lookup_total_insert_ne).
  assert (∀ k' p', scopes s !! k' = Some p' → k' ≠ k → p' ≠ p) as Hne.
  { intros k' p' Hk' Hn ->. apply Hn. by eapply sk_inj. }
  constructor; rewrite ?HS.
  - apply HP, I.
  - intros k' p' Hk'. destruct (sk_live _ _ _ _ I k' p' Hk') as [L' ?]. split; [|done].
    destruct (decide (p' = p)) as [->|Hn].
    + rewrite Ep. assert (k' = k) as -> by (by eapply sk_inj). done.
    + rewrite Eq by done. by eapply live_mono.
  - apply (sk_inj _ _ _ _ I).
  - rewrite (msum_upd (λ _ q, charge s q) _ _ k p Hk).
    + pose proof (sk_bytes _ _ _ _ I). unfold charge in *. rewrite Ep. cbn. lia.
    + intros k' p' Hk' Hn. unfold charge. rewrite Eq; [done|]. by eapply Hne.
  - rewrite (msum_upd (λ _ q, count s q) _ _ k p Hk).
    + rewrite <- (sk_items _ _ _ _ I). unfold count. rewrite Ep. cbn. lia.
    + intros k' p' Hk' Hn. unfold count. rewrite Eq; [done|]. by eapply Hne.
  - cbn. rewrite Hsc. apply I.
  - apply I.
Qed.

Lemma inv_upd {R} s k p b' a' t' : store_inv_on R s → scopes s !! k = Some p →
  (s_tick s ≤ t')%nat → live_buf k t' b' →
  totalBytes a' - totalBytes (s_acct s) = bytes b' - bytes (buf_at s p) →
  totalItems a' - totalItems (s_acct s)
    = Z.of_nat (length (items b')) - Z.of_nat (length (items (buf_at s p))) →
  totalBytes a' ≤ maxStoreBytes → scopeCount a' = scopeCount (s_acct s) →
  let s' := mkstore (<[p := b']> (bufs s)) (nextb s) (shards s) a' t' (subscribers s) (chans s) in
  store_inv_on R s'.
Proof.
  intros [I _]%inv_core Hk Ht L Hb Hi Hcap Hsc s'. apply inv_core. split; [|done].
  pose proof (core_upd 0 0 s k p b' a' t' I Hk Ht L Hi Hsc) as I'. cbv zeta in I'.
  rewrite Hb in I'. replace (0 + _ - _) with 0 in I' by lia. exact I'.
Qed.

(** Counters and clock only. *)
Lemma core_acct {R} db dc s a' t' : store_core db dc R s → (s_tick s ≤ t')%nat →
  totalBytes a' = totalBytes (s_acct s) → totalItems a' = totalItems (s_acct s) →
  scopeCount a' = scopeCount (s_acct s) →
  store_core db dc R (mkstore (bufs s) (nextb s) (shards s) a' t' (subscribers s) (chans s)).
Proof.
  intros I Ht Hb Hi Hc. destruct (placed_shards s (mkstore (bufs s) (nextb s) (shards s) a' t'
    (subscribers s) (chans s)) eq_refl) as (HP & HS & HG).
  constructor; rewrite ?HS; cbn [s_acct s_tick nextb].
  - apply HP, I.
  - intros k p Hk. destruct (sk_live _ _ _ _ I k p Hk). split; [|done]. by eapply live_mono.
  - apply I.
  - rewrite Hb. apply I.
  - rewrite Hi. apply I.
  - rewrite Hc. apply I.
  - apply I.
Qed.

Lemma store_eta s : s = mkstore (bufs s) (nextb s) (shards s) (s_acct s) (s_tick s)
  (subscribers s) (chans s).
Proof. by destruct s. Qed.

(** A buffer method run through any published pointer keeps the invariant. *)
Lemma with_buf_core {A} {R} db dc k p (m : M (result error A)) s : BufferOp k m → store_core db dc R s →
  tame db dc s → young s → scopes s !! k = Some p →
  let s' := (with_buf p m s).2 in
  store_core db dc R s' ∧ scopes s' = scopes s ∧ totalBytes (s_acct s') ≤ ceiling (s_acct s).
Proof.
  intros O I T Y Hk. pose proof (core_pre _ _ s k p I T Hk) as P.
  destruct (sk_live _ _ _ _ I k p Hk) as [L _].
  pose proof (bo_live _ _ (s_tick s) P (lb_det _ _ _ L) (lb_scope _ _ _ L)
    (core_seq _ _ s k p I Y Hk)) as E'. unfold with_buf.
  destruct (m _) as [x c]. cbn in *.
  pose proof (live_step k _ _ _ c L E') as L'. destruct E' as [B _ Ht _]. destruct B.
  pose proof (core_upd db dc s k p (c_buf c) (c_acct c) (c_tick c) I Hk Ht L' bs_items bs_scopes) as C.
  cbv zeta in C. rewrite bs_bytes in C.
  split; [|split; [by apply placed_shards|done]].
  replace (db + _ - _) with db in C by lia. exact C.
Qed.

Lemma with_buf_live {A} k p (m : M (result error A)) s : BufferOp k m → store_inv s → young s →
  scopes s !! k = Some p → store_inv (with_buf p m s).2 ∧ scopes (with_buf p m s).2 = scopes s.
Proof.
  intros O I Y Hk. pose proof (inv_tame s I) as T. apply inv_core in I as [C Hcap].
  destruct (with_buf_core 0 0 k p m s O C T Y Hk) as (C' & HS & Hc). split; [|done].
  apply inv_core. split; [done|lia].
Qed.

Lemma gone_run {A} k p (m : M (result error A)) s : BufferOp k m → gone (buf_at s p) →
  ∃ t', with_buf p m s = (Err ScopeDetachedError,
    mkstore (<[p := buf_at s p]> (bufs s)) (nextb s) (shards s) (s_acct s) t' (subscribers s) (chans s)) ∧
    (s_tick s ≤ t')%nat.
Proof.
  intros O [Ha Hd]. destruct (bo_dead _ (s_acct s) (s_tick s) Ha Hd) as (t' & E & Ht).
  exists t'. split; [|done]. unfold with_buf. by rewrite E.
Qed.
Lemma put_back s p t q : buf_at (mkstore (<[p := buf_at s p]> (bufs s)) (nextb s) (shards s) (s_acct s) t
  (subscribers s) (chans s)) q = buf_at s q.
Proof.
  unfold buf_at at 1. cbn. destruct (decide (p = q)) as [<-|].
  - apply lookup_total_insert_eq.
  - by apply lookup_total_insert_ne.
Qed.

Lemma with_buf_gone {A} k p (m : M (result error A)) s : BufferOp k m → gone (buf_at s p) →
  let r := with_buf p m s in
  r.1 = Err ScopeDetachedError ∧ scopes r.2 = scopes s ∧
  s_acct r.2 = s_acct s ∧ (∀ q, buf_at r.2 q = buf_at s q).
Proof.
  intros O G r. destruct (gone_run k p m s O G) as (t' & E & _). unfold r. rewrite E. cbn.
  split; [done|]. split; [by apply placed_shards|]. split; [done|]. intros q. apply put_back.
Qed.
End Inv.
