(* ===== verification/BufferOps.v ===== *)
(** * Every buffer method implements the store's interface *)
From S2P Require Import Prelude GoStd Uuid Types Buffer BufferInv BufferSpec BufferWrite.
From S2P Require Import BufferWriteSpec BufferRead BufferDelete BufferDeleteSpec BufferCounter.
From S2P Require Import BufferCounterSpec Clock Store StoreInv.

Lemma scope_view k b : scope_ok k b ↔ Forall (λ e : aitem, Scope e.1 = k) (view b).
Proof.
  unfold scope_ok, view. rewrite Forall_fmap, Forall_forall. done.
Qed.

Section Ops.
Context `{Env} `{Caps} `{ScopeHash}.

Lemma effect_refl k b a t t' : buf_pre b a → scope_ok k b → (t ≤ t')%nat →
  op_effect k b a t (mkctx b a t').
Proof. intros P S T. constructor; cbn; [by apply bstep_refl|done..|lia]. Qed.

Lemma effect_same k b a t b' a' t' : scope_ok k b → bstep b a b' a' →
  Forall (λ e : aitem, Scope e.1 = k) (view b') → (t ≤ t')%nat → lastSeq b' = lastSeq b →
  op_effect k b a t (mkctx b' a' t').
Proof. intros S B V T L. constructor; cbn; [done|by apply scope_view|done|lia]. Qed.

Lemma effect_push k b a t b' a' t' : scope_ok k b → bstep b a b' a' →
  Forall (λ e : aitem, Scope e.1 = k) (view b') → (t < t')%nat → lastSeq b' = lastSeq b + 1 →
  op_effect k b a t (mkctx b' a' t').
Proof. intros S B V T L. constructor; cbn; [done|by apply scope_view|lia|lia]. Qed.

Lemma dead_run {A} (m : M (result error A)) :
  (∀ b a t, detached b = true → ∃ n, m (mkctx b a t) = (Err ScopeDetachedError, mkctx b a (t + n))) →
  unchanged_while_detached m.
Proof.
  intros Hm b a t _ Hd. destruct (Hm b a t Hd) as [n E]. exists (t + n)%nat. split; [done|lia].
Qed.

Ltac dead n := apply dead_run; intros b a t Hd; exists n;
  rewrite ?bind_mint, ?bind_get_buf, Hd; cbn; by rewrite ?Nat.add_0_r, ?Nat.add_succ_r, ?Nat.add_0_r.

(** ** Writes *)
#[export] Instance appendItem_op k item : TCEq (Scope item) k → BufferOp k (appendItem item).
Proof.
  intros Hk%TCEq_eq. split; [|unfold appendItem; dead 3%nat|auto with clock].
  intros b a t P Hd Hs Hl. rewrite appendItem_run by done. cbv zeta. rewrite Hd.
  destruct (itemCapExceeded _ _) eqn:Hc; [apply effect_refl; (done || lia)|].
  apply cap_not_exceeded in Hc.
  destruct (_ && _) eqn:Hdup; [apply effect_refl; (done || lia)|].
  destruct (_ <? _); [apply effect_refl; (done || lia)|].
  destruct (Z.leb_spec (totalBytes a + approxItemSize (stamped item (clk_micro (t + 3)) (minted t)))
    maxStoreBytes) as [Hfit|]; [|apply effect_refl; (done || lia)].
  destruct (insert_effect item (clk_micro (t + 3)) (minted t) b a _ _ _ eq_refl eq_refl eq_refl P Hl)
    as (B & V & L); [|done..|].
  { intros Hne. rewrite bool_decide_false in Hdup by done. cbn in Hdup.
    apply bool_decide_eq_false in Hdup. by apply eq_None_not_Some. }
  cbn [snd]. apply effect_push; try done; [|lia]. rewrite V. apply Forall_app. split; [by apply scope_view|].
  apply Forall_singleton. destruct (stamped_fields item (clk_micro (t + 3)) (minted t)) as (E & _).
  exact (eq_trans E Hk).
Qed.

Lemma after_replace_op k b a p payload render t t' t0 : buf_pre b a → scope_ok k b →
  p ∈ items b → lengths_ok payload render → (t0 ≤ t')%nat →
  totalBytes a + payload_delta b p payload render ≤ ceiling a →
  op_effect k b a t0 (after_replace b a p payload render t t').
Proof.
  intros P Hs Hp HL Ht Hfit. destruct (proj1 (list_elem_of_lookup _ _) Hp) as [i Hi].
  destruct (replace_effect b a i p payload (clk_micro t) render P Hi HL Hfit) as [B V].
  apply effect_same; try done. rewrite V.
  apply Forall_insert; [by apply scope_view|]. exact (Hs p Hp).
Qed.

Lemma update_at_op k b a p payload render t : buf_pre b a → scope_ok k b → p ∈ items b →
  lengths_ok payload render → op_effect k b a t (update_at b a p payload render t).2.
Proof.
  intros P Hs Hp HL. unfold update_at. destruct (_ <? _); [by apply effect_refl|].
  destruct (Z.leb_spec (totalBytes a + payload_delta b p payload render) (ceiling a));
    [|by apply effect_refl]. apply after_replace_op; try done. lia.
Qed.

Lemma updateByID_op k id payload pre : lengths_ok payload (render_of pre payload) →
  BufferOp k (updateByID id payload pre).
Proof.
  intros HL. split; [|unfold updateByID; dead 0%nat|auto with clock].
  intros b a t P Hd Hs Hl. rewrite updateByID_run, Hd by done.
  destruct (byID b !! id) as [p|] eqn:E; [|by apply effect_refl].
  apply (w_byID _ (p_wf _ _ P)) in E as (Hp & _). cbv zeta.
  destruct (Z.leb_spec (totalBytes a + payload_delta b p payload (render_of pre payload)) (ceiling a));
    [|by apply effect_refl]. apply after_replace_op; try done. lia.
Qed.
Lemma updateBySeq_op k s payload pre : lengths_ok payload (render_of pre payload) →
  BufferOp k (updateBySeq s payload pre).
Proof.
  intros HL. split; [|unfold updateBySeq; dead 0%nat|auto with clock].
  intros b a t P Hd Hs Hl. rewrite updateBySeq_run, Hd by done.
  destruct (bySeq b !! s) as [p|] eqn:E; [|by apply effect_refl].
  apply (w_bySeq _ (p_wf _ _ P)) in E as (Hp & _). by apply update_at_op.
Qed.
Lemma updateByUUID_op k u payload pre : lengths_ok payload (render_of pre payload) →
  BufferOp k (updateByUUID u payload pre).
Proof.
  intros HL. split; [|unfold updateByUUID; dead 0%nat|auto with clock].
  intros b a t P Hd Hs Hl. rewrite updateByUUID_run, Hd by done.
  destruct (byUUID b !! u) as [p|] eqn:E; [|by apply effect_refl].
  apply (w_byUUID _ (p_wf _ _ P)) in E as (Hp & _). by apply update_at_op.
Qed.

Lemma upsertByID_op k item : Scope item = k →
  lengths_ok (Payload item) (render_of (renderBytes item) (Payload item)) →
  BufferOp k (upsertByID item).
Proof.
  intros Hk HL. split; [|unfold upsertByID; dead 3%nat|auto with clock].
  intros b a t P Hd Hs Hl. rewrite upsertByID_run by done. cbv zeta. rewrite Hd.
  destruct (byID b !! ID item) as [p|] eqn:E.
  - apply (w_byID _ (p_wf _ _ P)) in E as (Hp & _).
    destruct (Z.leb_spec (totalBytes a + payload_delta b p (Payload item)
      (render_of (renderBytes item) (Payload item))) (ceiling a)); [|apply effect_refl; (done || lia)].
    apply after_replace_op; (done || lia).
  - destruct (itemCapExceeded _ _) eqn:Hc; [apply effect_refl; (done || lia)|].
    apply cap_not_exceeded in Hc. destruct (_ <? _); [apply effect_refl; (done || lia)|].
    destruct (Z.leb_spec (totalBytes a + approxItemSize (stamped item (clk_micro (t + 3)) (minted t)))
      maxStoreBytes) as [Hfit|]; [|apply effect_refl; (done || lia)].
    destruct (insert_effect item (clk_micro (t + 3)) (minted t) b a _ _ _ eq_refl eq_refl eq_refl P Hl)
      as (B & V & L); [by intros _|done..|].
    apply effect_push; try done; [|lia]. rewrite V. apply Forall_app. split; [by apply scope_view|].
    apply Forall_singleton. destruct (stamped_fields item (clk_micro (t + 3)) (minted t)) as (E' & _).
    exact (eq_trans E' Hk).
Qed.

(** ** counter_add *)
Lemma found_tick b a c by_ t : (t ≤ c_tick (found_outcome b a c by_ t).2)%nat.
Proof. unfold found_outcome. destruct (counter_exceeds _); cbn; lia. Qed.
Lemma promote_tick b a p by_ t : (t ≤ c_tick (promote_outcome b a p by_ t).2)%nat.
Proof.
  unfold promote_outcome. destruct (parseCounterValue _); [|done]. destruct (counter_exceeds _); [done|].
  destruct (_ <=? _); cbn; lia.
Qed.
Lemma create_tick b a k id by_ u t : (t ≤ c_tick (create_outcome b a k id by_ u t).2)%nat.
Proof. unfold create_outcome. destruct (itemCapExceeded _ _); [done|]. destruct (_ <=? _); cbn; lia. Qed.

Lemma slow_tick b a k id by_ t : (t < c_tick (slow_outcome b a k id by_ t).2)%nat.
Proof.
  unfold slow_outcome. destruct (detached b); [cbn; lia|].
  destruct (byID b !! id) as [p|]; [destruct (counter (deref b p)) as [c|]|].
  - pose proof (found_tick b a c by_ (t + 3)). lia.
  - pose proof (promote_tick b a p by_ (t + 3)). lia.
  - pose proof (create_tick b a k id by_ (minted t) (t + 3)). lia.
Qed.

Lemma post_effect k id by_ b a t (r : result error (Z * bool) * ctx) : buf_pre b a → scope_ok k b →
  outcome_post b a k id by_ r → (t ≤ c_tick r.2)%nat →
  (lastSeq (c_buf r.2) = lastSeq b ∨ (t < c_tick r.2)%nat) → op_effect k b a t r.2.
Proof.
  intros P Hs [B R] Ht Hq. apply scope_view in Hs as HV. destruct r as [r [b' a' t']]. cbn in *.
  destruct r as [[v []]|e].
  - destruct R as (L & _ & _ & e' & V & _ & Es & _). apply effect_push; try done; [|lia].
    rewrite V. apply Forall_app. split; [done|]. by apply Forall_singleton.
  - destruct R as (L & i & e & e' & cur & Hi & _ & _ & _ & _ & V & _ & K). apply effect_same; try done.
    rewrite V. apply Forall_insert; [done|]. destruct K as [-> _]. exact (Forall_lookup_1 _ _ _ _ HV Hi).
  - destruct R as (V & _ & L). apply effect_same; try done. by rewrite V.
Qed.

Lemma counterAddSlow_op k id by_ : id ≠ ""%string → in_counter by_ →
  BufferOp k (counterAddSlow k id by_).
Proof.
  intros Hid Hby. split; [|unfold counterAddSlow; dead 3%nat|auto with clock].
  intros b a t P Hd Hs Hl. rewrite counterAddSlow_run by done.
  pose proof (slow_tick b a k id by_ t). eapply post_effect; [done..|by apply slow_post|lia|by right].
Qed.

Lemma counterAdd_op k id by_ : id ≠ ""%string → in_counter by_ → BufferOp k (counterAdd k id by_).
Proof.
  intros Hid Hby. split; [| |auto with clock].
  - intros b a t P Hd Hs Hl. rewrite counterAdd_run by done.
    pose proof (fast_post k id by_ b a t P Hl Hid Hby) as HP. revert HP. unfold fast_outcome.
    pose proof (slow_tick b a k id by_ t). rewrite Hd.
    destruct (byID b !! id ≫= _) as [c|]; cbn.
    + intros HP. pose proof (found_tick b a c by_ t). eapply post_effect; try done.
      unfold found_outcome. destruct (counter_exceeds _); by left.
    + intros HP. eapply post_effect; try done; [lia|by right].
  - apply dead_run. intros b a t Hd. exists 3%nat. unfold counterAdd. rewrite bind_get_buf, Hd.
    unfold counterAddSlow. rewrite bind_mint, bind_get_buf, Hd. cbn.
    by rewrite ?Nat.add_succ_r, ?Nat.add_0_r.
Qed.

(** ** Deletes *)
Lemma Forall_delete {A} (P : A → Prop) (l : list A) i : Forall P l → Forall P (delete i l).
Proof.
  intros Hl. rewrite Forall_forall in *. intros x Hx. apply Hl.
  eapply elem_of_submseteq; [done|]. apply submseteq_delete.
Qed.

Lemma deleted_op k b a t found (r : result error Z * ctx) : buf_pre b a → detached b = false →
  scope_ok k b → delete_outcome found b a t r → op_effect k b a t r.2.
Proof.
  intros P Hd Hs. unfold delete_outcome. rewrite Hd. destruct found as [p|].
  - intros (i & Hi & ->). unfold deleted_at. cbn [snd].
    destruct (delete_effect i p (clk_micro t) b a P Hi) as (B & V & L).
    apply effect_same; try done; [|lia]. rewrite V. by apply Forall_delete, scope_view.
  - intros ->. by apply effect_refl.
Qed.

#[export] Instance deleteByID_op k id : BufferOp k (deleteByID id).
Proof.
  split; [|unfold deleteByID; dead 0%nat|auto with clock].
  intros b a t P Hd Hs Hl. eapply deleted_op; try done. by apply deleteByID_run.
Qed.
#[export] Instance deleteBySeq_op k s : BufferOp k (deleteBySeq s).
Proof.
  split; [|unfold deleteBySeq; dead 0%nat|auto with clock].
  intros b a t P Hd Hs Hl. eapply deleted_op; try done. by apply deleteBySeq_run.
Qed.
#[export] Instance deleteByUUID_op k u : BufferOp k (deleteByUUID u).
Proof.
  split; [|unfold deleteByUUID; dead 0%nat|auto with clock].
  intros b a t P Hd Hs Hl. eapply deleted_op; try done. by apply deleteByUUID_run.
Qed.

Lemma drain_op k b a t s : buf_pre b a → scope_ok k b →
  op_effect k b a t (deleteUpToSeqLocked s (mkctx b a t)).2.
Proof.
  intros P Hs. rewrite deleteUpToSeqLocked_run by done. cbv zeta.
  destruct (_ =? 0)%nat; [by apply effect_refl|]. cbn [snd].
  destruct (cut_split b s (p_wf _ _ P)) as [Hc _].
  destruct (drain_effect (cut_at b s) (clk_micro t) b a P Hc) as (B & V & L).
  apply effect_same; try done; [|lia]. rewrite V. by apply Forall_drop, scope_view.
Qed.

#[export] Instance deleteUpToSeq_op k s : BufferOp k (deleteUpToSeq s).
Proof.
  split; [|unfold deleteUpToSeq; dead 0%nat|auto with clock].
  intros b a t P Hd Hs Hl. unfold deleteUpToSeq. rewrite bind_get_buf, Hd.
  pose proof (drain_op k b a t s P Hs). unfold bind, ret. by destruct (deleteUpToSeqLocked _ _).
Qed.
#[export] Instance deleteUpToUUID_op k u : BufferOp k (deleteUpToUUID u).
Proof.
  split; [|unfold deleteUpToUUID; dead 0%nat|auto with clock].
  intros b a t P Hd Hs Hl. unfold deleteUpToUUID. rewrite bind_get_buf, Hd.
  destruct (byUUID b !! u) as [p|]; [|by apply effect_refl].
  pose proof (drain_op k b a t (Seq (deref b p)) P Hs). unfold bind, ret.
  by destruct (deleteUpToSeqLocked _ _).
Qed.
End Ops.
