(* ===== verification/StoreSpec.v ===== *)
(** * The store's sections keep its invariant

  Creating a scope, rolling it back, unlinking it. Each lemma also says which
  pointers stay valid: a published pointer is live or detached for ever. *)
From S2P Require Import Prelude GoStd Uuid Types Buffer BufferInv BufferSpec BufferRead Store.
From S2P Require Import StoreInv.

(** Reduce the projections of a store built by the lemmas below. *)
Ltac store_fields := cbn [bufs nextb shards s_acct s_tick subscribers chans].

(** A store whose counters run ahead of its content. *)
Abbreviation ahead db dc := (store_core db dc reservedScopeNames).

Section Spec.
Context `{EV : Env} `{CP : Caps} `{SH : ScopeHash} `{CO : !CapsOk}.

(** ** Running the store's primitives *)
Lemma bind_get {A} (k : store → SM A) s : bind get k s = k s s.
Proof. reflexivity. Qed.
Lemma bind_counters {A B} (m : M A) (k : A → SM B) s x b a t :
  m (mkctx inhabitant (s_acct s) (s_tick s)) = (x, mkctx b a t) →
  bind (on_counters m) k s =
  k x (mkstore (bufs s) (nextb s) (shards s) a t (subscribers s) (chans s)).
Proof. intros E. unfold bind, on_counters. by rewrite E. Qed.
Lemma bind_now_s {A} (k : Z → SM A) s : bind now k s =
  k (clk_micro (s_tick s))
    (mkstore (bufs s) (nextb s) (shards s) (s_acct s) (S (s_tick s)) (subscribers s) (chans s)).
Proof. reflexivity. Qed.
Lemma bind_drop {A} k (c : unit → SM A) s : bind (drop_scope k) c s =
  c tt (mkstore (bufs s) (nextb s) (<[shardIdxFor k := delete k (shardFor s k)]> (shards s))
    (s_acct s) (s_tick s) (subscribers s) (chans s)).
Proof. reflexivity. Qed.
Lemma bind_put {A} k p (c : unit → SM A) s : bind (put_scope k p) c s =
  c tt (mkstore (bufs s) (nextb s) (<[shardIdxFor k := <[k := p]> (shardFor s k)]> (shards s))
    (s_acct s) (s_tick s) (subscribers s) (chans s)).
Proof. reflexivity. Qed.
Lemma bind_scopeCount {A} d (c : unit → SM A) s : in_i64 (scopeCount (s_acct s) + d) →
  bind (add_scopeCount d) c s =
  c tt (mkstore (bufs s) (nextb s) (shards s)
    (set_scopeCount (scopeCount (s_acct s) + d) (s_acct s)) (s_tick s) (subscribers s) (chans s)).
Proof.
  intros Hd. unfold bind, add_scopeCount, modify_counters, modify, set_acct. cbn. by rewrite i64_id.
Qed.
Lemma bind_buf_at {A} p f (c : unit → SM A) s : bind (modify_buf_at p f) c s =
  c tt (mkstore (<[p := f (buf_at s p)]> (bufs s)) (nextb s) (shards s)
    (s_acct s) (s_tick s) (subscribers s) (chans s)).
Proof. reflexivity. Qed.

(** ** Three ways the scope map may change *)
Lemma core_frame {R} db dc s s' : store_core db dc R s → placed s' → scopes s' = scopes s →
  (s_tick s ≤ s_tick s')%nat → (nextb s ≤ nextb s')%nat →
  (∀ k p, scopes s !! k = Some p → buf_at s' p = buf_at s p) →
  totalBytes (s_acct s') = totalBytes (s_acct s) →
  totalItems (s_acct s') = totalItems (s_acct s) →
  scopeCount (s_acct s') = scopeCount (s_acct s) → store_core db dc R s'.
Proof.
  intros I P HS Ht Hn Hb H1 H2 H3. constructor; rewrite ?HS.
  - done.
  - intros k p Hk. rewrite (Hb k p Hk). destruct (sk_live _ _ _ _ I k p Hk).
    split; [by eapply live_mono|lia].
  - apply I.
  - rewrite H1, (sk_bytes _ _ _ _ I). f_equal. apply msum_ext. intros k p Hk. unfold charge. by rewrite (Hb k p).
  - rewrite H2, (sk_items _ _ _ _ I). apply msum_ext. intros k p Hk. unfold count. by rewrite (Hb k p).
  - rewrite H3. apply I.
  - apply I.
Qed.
Lemma inv_frame {R} s s' : store_inv_on R s → placed s' → scopes s' = scopes s →
  (s_tick s ≤ s_tick s')%nat → (nextb s ≤ nextb s')%nat →
  (∀ k p, scopes s !! k = Some p → buf_at s' p = buf_at s p) →
  totalBytes (s_acct s') = totalBytes (s_acct s) →
  totalItems (s_acct s') = totalItems (s_acct s) →
  scopeCount (s_acct s') = scopeCount (s_acct s) → store_inv_on R s'.
Proof.
  intros [C Hcap]%inv_core P HS Ht Hn Hb H1 H2 H3. apply inv_core. split; [|lia].
  by apply (core_frame 0 0 s).
Qed.

Lemma core_add {R} db dc s k p s' : store_core db dc R s → scopes s !! k = None → placed s' →
  scopes s' = <[k := p]> (scopes s) → (s_tick s ≤ s_tick s')%nat → (nextb s ≤ nextb s')%nat →
  (nextb s ≤ p < nextb s')%nat →
  (∀ k p, scopes s !! k = Some p → buf_at s' p = buf_at s p) →
  live_buf k (s_tick s') (buf_at s' p) →
  totalItems (s_acct s') = totalItems (s_acct s) + count s' p →
  store_core (db + (totalBytes (s_acct s') - totalBytes (s_acct s)) - charge s' p)
    (dc + 1 - (scopeCount (s_acct s') - scopeCount (s_acct s))) (k :: R) s'.
Proof.
  intros I Hk P HS Ht Hn Hp Hb L H2. constructor; rewrite ?HS.
  - done.
  - intros k' p' [[<- <-]|[Hne Hk']]%lookup_insert_Some; [split; [done|lia]|].
    rewrite (Hb k' p' Hk'). destruct (sk_live _ _ _ _ I k' p' Hk'). split; [by eapply live_mono|lia].
  - intros k1 k2 q [[<- <-]|[Hne1 Hk1]]%lookup_insert_Some [[<- Hq]|[Hne2 Hk2]]%lookup_insert_Some;
      try done.
    + destruct (sk_live _ _ _ _ I _ _ Hk2). lia.
    + subst q. destruct (sk_live _ _ _ _ I _ _ Hk1). lia.
    + by eapply sk_inj.
  - rewrite msum_insert by done. pose proof (sk_bytes _ _ _ _ I).
    rewrite (msum_ext (λ _ q, charge s' q) (λ _ q, charge s q)); [lia|].
    intros k' q Hq. unfold charge. by rewrite (Hb k' q).
  - rewrite msum_insert, H2, (sk_items _ _ _ _ I) by done.
    rewrite (msum_ext (λ _ q, count s' q) (λ _ q, count s q)); [cbn; lia|].
    intros k' q Hq. unfold count. by rewrite (Hb k' q).
  - pose proof (sk_count _ _ _ _ I). rewrite map_size_insert_None by done. lia.
  - intros k' [->|Hr]%elem_of_cons; [exists p; by rewrite lookup_insert_eq|].
    destruct (sk_reserved _ _ _ _ I k' Hr) as [q Hq].
    destruct (decide (k = k')) as [->|]; [congruence|]. exists q. by rewrite lookup_insert_ne.
Qed.

Lemma inv_add {R} s k p s' : store_inv_on R s → scopes s !! k = None → placed s' →
  scopes s' = <[k := p]> (scopes s) → (s_tick s ≤ s_tick s')%nat → (nextb s ≤ nextb s')%nat →
  (nextb s ≤ p < nextb s')%nat →
  (∀ k p, scopes s !! k = Some p → buf_at s' p = buf_at s p) →
  live_buf k (s_tick s') (buf_at s' p) → items (buf_at s' p) = [] → bytes (buf_at s' p) = 0 →
  totalBytes (s_acct s') = totalBytes (s_acct s) + scopeBufferOverhead →
  totalItems (s_acct s') = totalItems (s_acct s) →
  scopeCount (s_acct s') = scopeCount (s_acct s) + 1 →
  totalBytes (s_acct s') ≤ maxStoreBytes → store_inv_on (k :: R) s'.
Proof.
  intros [I _]%inv_core Hk P HS Ht Hn Hp Hb L Hi0 Hb0 H1 H2 H3 H4.
  apply inv_core. split; [|done].
  pose proof (core_add 0 0 s k p s' I Hk P HS Ht Hn Hp Hb L) as I'.
  unfold charge, count in I'. rewrite Hi0, Hb0, H1, H3 in I'. cbn [length Z.of_nat] in I'.
  specialize (I' ltac:(lia)). replace (0 + _ - _) with 0 in I' by lia.
  replace (0 + 1 - _) with 0 in I' by lia. exact I'.
Qed.

Lemma core_weaken {R R'} db dc s : store_core db dc R s → R' ⊆ R → store_core db dc R' s.
Proof. intros [] HR. constructor; try done. auto. Qed.
Lemma inv_weaken R R' s : store_inv_on R s → R' ⊆ R → store_inv_on R' s.
Proof. intros [] HR. constructor; try done. auto. Qed.

Lemma reserved_elem k : isReservedScope k = true ↔ k ∈ reservedScopeNames.
Proof. rewrite isReservedScope_spec. unfold reservedScopeNames. set_solver. Qed.

Lemma core_remove {R} db dc s k p s' : store_core db dc R s → scopes s !! k = Some p → k ∉ R →
  placed s' → scopes s' = delete k (scopes s) → (s_tick s ≤ s_tick s')%nat →
  (nextb s ≤ nextb s')%nat →
  (∀ k' q, scopes s !! k' = Some q → k' ≠ k → buf_at s' q = buf_at s q) →
  totalBytes (s_acct s') = totalBytes (s_acct s) - charge s p →
  totalItems (s_acct s') = totalItems (s_acct s) - count s p →
  scopeCount (s_acct s') = scopeCount (s_acct s) - 1 → store_core db dc R s'.
Proof.
  intros I Hk Hr P HS Ht Hn Hb H1 H2 H3. constructor; rewrite ?HS.
  - done.
  - intros k' p' [Hne Hk']%lookup_delete_Some. rewrite (Hb k' p') by auto.
    destruct (sk_live _ _ _ _ I k' p' Hk'). split; [by eapply live_mono|lia].
  - intros k1 k2 q [_ Hk1]%lookup_delete_Some [_ Hk2]%lookup_delete_Some. by eapply sk_inj.
  - rewrite (msum_ext (λ _ q, charge s' q) (λ _ q, charge s q)).
    + rewrite (msum_delete (λ _ q, charge s q) _ k p Hk), H1, (sk_bytes _ _ _ _ I). cbv beta. lia.
    + intros k' q [Hne Hq]%lookup_delete_Some. unfold charge. by rewrite (Hb k' q) by auto.
  - rewrite H2, (sk_items _ _ _ _ I), <- (msum_delete (λ _ q, count s q) _ k p Hk).
    apply msum_ext. intros k' q [Hne Hq]%lookup_delete_Some. unfold count. by rewrite (Hb k' q) by auto.
  - rewrite H3, (sk_count _ _ _ _ I), map_size_delete_Some by (by eexists).
    assert (size (scopes s) ≠ 0%nat); [|lia]. intros E%map_size_empty_inv. by rewrite E in Hk.
  - intros k' Hk'. destruct (sk_reserved _ _ _ _ I k' Hk') as [q Hq]. exists q.
    rewrite lookup_delete_ne; [done|]. by intros <-.
Qed.

(** What the counters may be: the items and scopes really held cost that much. *)
Lemma core_total {R} db dc s : store_core db dc R s →
  0 ≤ totalItems (s_acct s) ∧ 0 ≤ scopeCount (s_acct s) + dc ∧
  48 * totalItems (s_acct s) + 1024 * (scopeCount (s_acct s) + dc) ≤ totalBytes (s_acct s) - db.
Proof.
  intros I.
  assert (∀ l : list (string * nat), (∀ e, e ∈ l → scopes s !! e.1 = Some e.2) →
    48 * zsum (λ e, count s e.2) l + 1024 * Z.of_nat (length l) ≤ zsum (λ e, charge s e.2) l ∧
    0 ≤ zsum (λ e, count s e.2) l) as G.
  { induction l as [|e l IH]; intros He; cbn [zsum length]; [lia|].
    destruct (IH (λ x Hx, He x (list_elem_of_further _ _ _ Hx))) as [IH1 IH2].
    destruct (sk_live _ _ _ _ I e.1 e.2) as [Le _]; [apply He; by left|].
    pose proof (wf_bytes_nonneg (lb_wf _ _ _ Le)). unfold count at 1 3, charge at 1, scopeBufferOverhead. lia. }
  destruct (G (map_to_list (scopes s))) as [G1 G2].
  { intros [k q]. by rewrite elem_of_map_to_list. }
  rewrite length_map_to_list in G1. fold (msum (λ _ p, count s p) (scopes s)) in G1, G2.
  fold (msum (λ _ p, charge s p) (scopes s)) in G1.
  pose proof (sk_items _ _ _ _ I). pose proof (sk_bytes _ _ _ _ I). pose proof (sk_count _ _ _ _ I). lia.
Qed.

Lemma total_range {R} s : store_inv_on R s → 0 ≤ totalBytes (s_acct s) ≤ MaxInt64 ∧
  0 ≤ totalItems (s_acct s) ≤ MaxInt64 ∧ 0 ≤ scopeCount (s_acct s) ≤ MaxInt64.
Proof.
  intros I. pose proof (si_cap _ I). pose proof co_max. apply inv_core in I as [C _].
  pose proof (core_total 0 0 s C). lia.
Qed.

Lemma count_small {R} s : store_inv_on R s → 1024 * scopeCount (s_acct s) ≤ totalBytes (s_acct s).
Proof. intros [C _]%inv_core. pose proof (core_total 0 0 s C). lia. Qed.

(** Every counter of a tame store, and its neighbours, are machine numbers. *)
Lemma core_counters {R} db dc s : store_core db dc R s → tame db dc s →
  maxStoreBytes - MaxInt64 ≤ totalBytes (s_acct s) ≤ MaxInt64 ∧
  0 ≤ totalItems (s_acct s) ∧ 48 * totalItems (s_acct s) ≤ MaxInt64 ∧
  - MaxInt64 ≤ 2 * scopeCount (s_acct s) ∧ 1024 * scopeCount (s_acct s) ≤ MaxInt64 ∧
  0 ≤ maxStoreBytes ≤ MaxInt64.
Proof.
  intros C [? ? ? ?]. pose proof (core_total _ _ s C). pose proof co_max. pose proof co_min.
  change reservedScopesOverhead with 2048 in *. lia.
Qed.

(** ** A buffer before it is published *)
Definition newborn (maxI maxB now : Z) : scopeBuffer := bind_store maxB (newscopeBuffer maxI now).

Lemma newborn_wf maxI maxB now : buf_wf (newborn maxI maxB now).
Proof.
  constructor; cbn; try done; try set_solver; try (by intros; rewrite ?lookup_empty).
  - constructor.
Qed.

Lemma newborn_live k tick now : isReservedScope k = false →
  live_buf k tick (newborn defaultMaxItems maxItemBytes now).
Proof.
  intros Hr. assert (k ≠ EventsScopeName ∧ k ≠ InboxScopeName) as [Hk1 Hk2].
  { split; intros ->; by vm_compute in Hr. }
  constructor; cbn; try done.
  - apply newborn_wf.
  - set_solver.
  - unfold maxItemsFor. by rewrite !bool_decide_false.
  - unfold maxItemBytesFor. by rewrite !bool_decide_false.
  - pose proof co_items. lia.
  - unfold MaxInt64. lia.
Qed.

Lemma new_run s : store_newscopeBuffer s = (nextb s,
  mkstore (<[nextb s := newborn defaultMaxItems maxItemBytes (clk_micro (s_tick s))]> (bufs s))
    (S (nextb s)) (shards s) (s_acct s) (S (s_tick s)) (subscribers s) (chans s)).
Proof. reflexivity. Qed.

(** ** Pointers *)
Lemma published_frame s s' : (nextb s ≤ nextb s')%nat → scopes s' = scopes s →
  (∀ q, (q < nextb s)%nat → buf_at s' q = buf_at s q) →
  extends s s'.
Proof.
  intros Hn HS Hb k p [Hk|(Hp & Hg & Hk)]; unfold published; rewrite HS; [by left|].
  right. rewrite Hb by done. split; [lia|done].
Qed.

(** ** getOrCreateScopeTrackingCreated *)
Lemma create_locked_run k p s : placed s →
  maxStoreBytes - MaxInt64 ≤ totalBytes (s_acct s) ≤ MaxInt64 → 0 ≤ maxStoreBytes ≤ MaxInt64 →
  in_i64 (scopeCount (s_acct s) + 1) →
  create_locked k p s =
  match scopes s !! k with
  | Some existing => (Ok (existing, false), s)
  | None =>
      if totalBytes (s_acct s) + scopeBufferOverhead <=? maxStoreBytes
      then (Ok (p, true),
        set_shards (<[shardIdxFor k := <[k := p]> (shardFor s k)]> (shards s))
          (set_acct (set_scopeCount (scopeCount (s_acct s) + 1)
            (acct_add scopeBufferOverhead 0 (s_acct s))) s))
      else (Err (StoreFullError (totalBytes (s_acct s)) scopeBufferOverhead maxStoreBytes), s)
  end.
Proof.
  intros P H1 H2 H3. unfold create_locked. rewrite scopes_lookup by done.
  unfold bind at 1. cbn [get]. destruct (getScope s k) as [existing|]; [done|].
  unfold on_counters. unfold bind at 1.
  rewrite reserve_grow by (done || lia).
  destruct (_ <=? _); cbn.
  - unfold put_scope, add_scopeCount, modify_counters, modify, ret, bind. cbn.
    rewrite i64_id by done. by destruct s.
  - by destruct s.
Qed.

(** What a failed operation may leave behind: the clock, and garbage in the
    arena that no pointer reaches. *)
Record same_content (s s' : store) : Prop := {
  sc_shards : shards s' = shards s;
  sc_acct : s_acct s' = s_acct s;
  sc_subs : subscribers s' = subscribers s;
  sc_chans : chans s' = chans s;
  sc_bufs : ∀ p, (p < nextb s)%nat → buf_at s' p = buf_at s p;
  sc_next : (nextb s ≤ nextb s')%nat;
  sc_tick : (s_tick s ≤ s_tick s')%nat;
}.

Lemma same_refl s : same_content s s.
Proof. by constructor. Qed.
Lemma same_trans s1 s2 s3 : same_content s1 s2 → same_content s2 s3 → same_content s1 s3.
Proof.
  intros [] []. constructor; try congruence; try lia. intros p Hp.
  rewrite sc_bufs1 by lia. by apply sc_bufs0.
Qed.

Lemma same_core {R} db dc s s' : store_core db dc R s → same_content s s' →
  store_core db dc R s' ∧ scopes s' = scopes s ∧ extends s s'.
Proof.
  intros I C. destruct (placed_shards s s' (sc_shards _ _ C)) as (HP & HS & _).
  split; [|split; [done|]].
  - apply (core_frame _ _ s); try done; try apply C; try (rewrite (sc_acct _ _ C); done).
    + apply HP, I.
    + intros k p Hk. apply (sc_bufs _ _ C). by eapply sk_live.
  - apply published_frame; [apply C|done|apply C].
Qed.
Lemma same_inv s s' : store_inv s → same_content s s' →
  store_inv s' ∧ scopes s' = scopes s ∧ extends s s'.
Proof.
  intros [I Hcap]%inv_core C. destruct (same_core 0 0 s s' I C) as (I' & HS & X).
  split; [|by split]. apply inv_core. by rewrite (sc_acct _ _ C).
Qed.
Lemma same_tame db dc s s' : same_content s s' → tame db dc s → tame db dc s'.
Proof. intros C []. constructor; by rewrite ?(sc_acct _ _ C). Qed.

Lemma put_shards_spec s k p a : placed s →
  let s' := set_shards (<[shardIdxFor k := <[k := p]> (shardFor s k)]> (shards s)) (set_acct a s) in
  placed s' ∧ scopes s' = <[k := p]> (scopes s).
Proof.
  intros P. destruct (put_scope_spec s k p P) as [P' E].
  destruct (placed_shards ((put_scope k p s).2)
    (set_shards (<[shardIdxFor k := <[k := p]> (shardFor s k)]> (shards s)) (set_acct a s)) eq_refl)
    as (HP & HS & _). split; [by apply HP|]. by rewrite HS.
Qed.

(** The slow path: allocate, then insert under the shard lock unless another
    caller did. *)
Definition slow_create (k : string) : SM (result error (nat * bool)) :=
  let* preBuf := store_newscopeBuffer in create_locked k preBuf.

Record created_scope (k : string) (p : nat) (s s' : store) : Prop := {
  cs_none : scopes s !! k = None;
  cs_ptr : p = nextb s;
  cs_scopes : scopes s' = <[k := p]> (scopes s);
  cs_buf : buf_at s' p = newborn defaultMaxItems maxItemBytes (clk_micro (s_tick s));
  cs_acct : s_acct s' = set_scopeCount (scopeCount (s_acct s) + 1)
              (acct_add scopeBufferOverhead 0 (s_acct s));
  cs_rest : ∀ q, (q < nextb s)%nat → buf_at s' q = buf_at s q;
  cs_next : (nextb s < nextb s')%nat;
  cs_tick : (s_tick s ≤ s_tick s')%nat;
  cs_subs : subscribers s' = subscribers s ∧ chans s' = chans s;
  cs_shards : shards s' = <[shardIdxFor k := <[k := p]> (shardFor s k)]> (shards s);
}.

Definition create_outcome_ok (k : string) (s : store) (r : result error (nat * bool) * store) : Prop :=
  match r.1 with
  | Ok (p, false) => scopes s !! k = Some p ∧ same_content s r.2
  | Ok (p, true) => created_scope k p s r.2
  | Err e => scopes s !! k = None ∧ same_content s r.2 ∧
      e = StoreFullError (totalBytes (s_acct s)) scopeBufferOverhead maxStoreBytes ∧
      maxStoreBytes < totalBytes (s_acct s) + scopeBufferOverhead
  end.

Lemma created_core db dc k p s s' : ahead db dc s → placed s' → isReservedScope k = false →
  created_scope k p s s' → ahead db dc s' ∧ extends s s'.
Proof.
  intros I P Hr C. destruct C. subst p. split.
  - apply (core_weaken (R := k :: reservedScopeNames)); [|set_solver].
    pose proof (core_add db dc s k (nextb s) s' I) as I'.
    unfold charge, count in I'. rewrite cs_buf0, cs_acct0 in I'. cbn in I'.
    replace (db + _ - _) with db in I' by lia. replace (dc + 1 - _) with dc in I' by lia.
    apply I'; try done; try lia.
    + intros k' q Hq. apply cs_rest0. by eapply sk_live.
    + by apply newborn_live.
  - intros k' q [Hk'|(Hq & Hg & Hno)]; unfold published; rewrite cs_scopes0.
    + left. rewrite lookup_insert_ne; [done|]. intros <-. congruence.
    + right. rewrite cs_rest0 by done. split; [lia|]. split; [done|].
      intros k2 [[_ E]|[_ Hk']]%lookup_insert_Some; [lia|by apply (Hno k2)].
Qed.

Lemma core_not_reserved db dc s k : ahead db dc s → scopes s !! k = None → isReservedScope k = false.
Proof.
  intros I Hk. destruct (isReservedScope k) eqn:E; [|done].
  apply reserved_elem in E. destruct (sk_reserved _ _ _ _ I k E). congruence.
Qed.
Lemma not_reserved s k : store_inv s → scopes s !! k = None → isReservedScope k = false.
Proof. intros [C _]%inv_core. by eapply core_not_reserved. Qed.

Lemma slow_create_core db dc k s : ahead db dc s → tame db dc s →
  let r := slow_create k s in
  create_outcome_ok k s r ∧ ahead db dc r.2 ∧ extends s r.2 ∧
  totalBytes (s_acct r.2) ≤ ceiling (s_acct s).
Proof.
  intros I T. destruct (core_counters _ _ s I T) as (H1 & _ & _ & H2 & H3 & H4).
  set (s1 := (store_newscopeBuffer s).2).
  assert (slow_create k s = create_locked k (nextb s) s1) as -> by reflexivity. cbv zeta.
  assert (same_content s s1) as C1.
  { constructor; try done; cbn; try lia. intros p Hp. unfold buf_at. cbn.
    apply lookup_total_insert_ne. lia. }
  destruct (same_core _ _ s s1 I C1) as (I1 & S1 & P1).
  rewrite create_locked_run; [|apply I1|done|done|].
  2:{ cbn. unfold in_i64, MinInt64 in *. unfold MaxInt64 in *. lia. }
  rewrite S1. destruct (scopes s !! k) as [existing|] eqn:Hk.
  { split; [by split|]. split; [exact I1|]. split; [exact P1|cbn; lia]. }
  change (s_acct s1) with (s_acct s).
  destruct (Z.leb_spec (totalBytes (s_acct s) + scopeBufferOverhead) maxStoreBytes) as [Hfit|Hfull].
  2:{ split; [|split; [exact I1|split; [exact P1|cbn; lia]]].
      split; [done|]. split; [done|]. split; [done|lia]. }
  set (a := set_scopeCount _ _).
  destruct (put_shards_spec s1 k (nextb s) a (sk_placed _ _ _ _ I1)) as [P2 S2]. rewrite S1 in S2.
  set (s2 := set_shards _ (set_acct a s1)) in *.
  assert (created_scope k (nextb s) s s2) as C2.
  { constructor; try done; cbn; try lia.
    - unfold buf_at. cbn. apply lookup_total_insert_eq.
    - intros q Hq. unfold buf_at. cbn. apply lookup_total_insert_ne. lia. }
  destruct (created_core _ _ k (nextb s) s s2 I P2) as [I2 X2]; [by eapply core_not_reserved|done|].
  split; [done|]. split; [done|]. split; [done|]. cbn. lia.
Qed.

Lemma slow_create_spec k s : store_inv s →
  let r := slow_create k s in
  create_outcome_ok k s r ∧ store_inv r.2 ∧ extends s r.2.
Proof.
  intros I r. pose proof (inv_tame s I) as T. apply inv_core in I as [C Hcap].
  destruct (slow_create_core 0 0 k s C T) as (O & C' & X & Hc). split; [done|]. split; [|done].
  apply inv_core. split; [done|]. fold r in Hc. lia.
Qed.

Lemma getOrCreate_run k s : placed s → k ≠ ""%string →
  getOrCreateScopeTrackingCreated k s =
  match scopes s !! k with Some p => (Ok (p, false), s) | None => slow_create k s end.
Proof.
  intros P Hk. unfold getOrCreateScopeTrackingCreated. rewrite bool_decide_false by done.
  unfold bind at 1. cbn [get]. rewrite <- scopes_lookup by done. by destruct (scopes s !! k).
Qed.

Lemma getOrCreate_spec k s : store_inv s → k ≠ ""%string →
  let r := getOrCreateScopeTrackingCreated k s in
  create_outcome_ok k s r ∧ store_inv r.2 ∧ extends s r.2.
Proof.
  intros I Hk. rewrite getOrCreate_run by (done || apply I).
  destruct (scopes s !! k) as [p|] eqn:E; [|by apply slow_create_spec].
  split; [split; [done|apply same_refl]|]. by split.
Qed.

(** ** Unlinking a scope *)
Record unlinked (k : string) (p : nat) (s s' : store) : Prop := {
  ul_some : scopes s !! k = Some p;
  ul_scopes : scopes s' = delete k (scopes s);
  ul_buf : buf_at s' p = detach (buf_at s p);
  ul_rest : ∀ q, q ≠ p → buf_at s' q = buf_at s q;
  ul_bytes : totalBytes (s_acct s') = totalBytes (s_acct s) - charge s p;
  ul_items : totalItems (s_acct s') = totalItems (s_acct s) - count s p;
  ul_count : scopeCount (s_acct s') = scopeCount (s_acct s) - 1;
  ul_ts : store_lastWriteTS (s_acct s) ≤ store_lastWriteTS (s_acct s');
  ul_drops : eventsDropsTotal (s_acct s') = eventsDropsTotal (s_acct s);
  ul_next : nextb s' = nextb s;
  ul_tick : (s_tick s ≤ s_tick s')%nat;
  ul_subs : subscribers s' = subscribers s ∧ chans s' = chans s;
  ul_shards : shards s' = <[shardIdxFor k := delete k (shardFor s k)]> (shards s);
}.

Lemma unlinked_core db dc k p s s' : ahead db dc s → isReservedScope k = false → placed s' →
  unlinked k p s s' → ahead db dc s' ∧ extends s s'.
Proof.
  intros I Hr P [E ES Eb Er E1 E2 E3 _ _ En Et _ _]. split.
  - apply (core_remove _ _ s k p); try done; [|by rewrite En|].
    + intros Hk%reserved_elem. congruence.
    + intros k' q Hq Hne. apply Er. intros ->. apply Hne. by eapply sk_inj.
  - intros k' q [Hk'|(Hq & Hg & Hno)].
    + destruct (decide (k' = k)) as [->|Hne].
      * right. assert (q = p) as -> by congruence. rewrite En, Eb.
        split; [by eapply sk_live|]. split; [done|]. intros k2 Hk2. rewrite ES in Hk2.
        apply lookup_delete_Some in Hk2 as [Hn Hk2]. apply Hn. by eapply sk_inj.
      * left. rewrite ES. by rewrite lookup_delete_ne.
    + right. rewrite En, Er by (intros ->; by apply (Hno k)). split; [done|]. split; [done|].
      intros k2 Hk2. rewrite ES in Hk2. apply lookup_delete_Some in Hk2 as [_ Hk2]. by apply (Hno k2).
Qed.
Lemma core_charge {R} db dc s k p : store_core db dc R s → scopes s !! k = Some p →
  scopeBufferOverhead ≤ charge s p.
Proof.
  intros I Hk. destruct (sk_live _ _ _ _ I k p Hk) as [L _]. pose proof (wf_bytes_nonneg (lb_wf _ _ _ L)).
  unfold charge. lia.
Qed.
Lemma core_ge {R} db dc s k p : store_core db dc R s → scopes s !! k = Some p →
  0 ≤ bytes (buf_at s p) ∧ 0 ≤ count s p ≤ totalItems (s_acct s) ∧
  scopeBufferOverhead ≤ charge s p ≤ totalBytes (s_acct s) - db.
Proof.
  intros I Hk. pose proof (core_charge _ _ s k p I Hk) as Hc.
  destruct (sk_live _ _ _ _ I k p Hk) as [L _]. pose proof (wf_bytes_nonneg (lb_wf _ _ _ L)).
  split; [lia|].
  assert (∀ q, 0 ≤ count s q) as Hn by (intros; unfold count; lia).
  pose proof (msum_elem (λ _ q, count s q) (scopes s) k p Hk (λ _ q, Hn q)) as Hi.
  rewrite <- (sk_items _ _ _ _ I) in Hi. split; [by split|]. split; [done|].
  rewrite (sk_bytes _ _ _ _ I), <- (insert_delete_id _ _ _ Hk), msum_insert by apply lookup_delete_eq.
  assert (0 ≤ msum (λ _ q, charge s q) (delete k (scopes s))); [|lia].
  apply zsum_nonneg. intros [k' q] [_ Hq]%elem_of_map_to_list%lookup_delete_Some.
  pose proof (core_charge _ _ s k' q I Hq). unfold scopeBufferOverhead in *. cbn [snd]. lia.
Qed.
Lemma unlinked_inv k p s s' : store_inv s → isReservedScope k = false → placed s' →
  unlinked k p s s' → store_inv s' ∧ extends s s'.
Proof.
  intros [I Hcap]%inv_core Hr P U. destruct (unlinked_core 0 0 k p s s' I Hr P U) as [I' X].
  split; [|done]. apply inv_core. split; [done|]. rewrite (ul_bytes _ _ _ _ U).
  pose proof (core_charge 0 0 s k p I (ul_some _ _ _ _ U)). unfold scopeBufferOverhead in *. lia.
Qed.

Lemma drop_shards_spec s k bs n a t : placed s →
  let s' := mkstore bs n (<[shardIdxFor k := delete k (shardFor s k)]> (shards s)) a t
              (subscribers s) (chans s) in
  placed s' ∧ scopes s' = delete k (scopes s).
Proof.
  intros P s'. destruct (drop_scope_spec s k P) as [P' E].
  destruct (placed_shards ((drop_scope k s).2) s' eq_refl) as (HP & HS & _).
  split; [by apply HP|]. by rewrite HS.
Qed.

Lemma dropped_at s p : buf_at (mkstore (<[p := detach (buf_at s p)]> (bufs s)) (nextb s) (shards s)
    (s_acct s) (s_tick s) (subscribers s) (chans s)) p = detach (buf_at s p).
Proof. unfold buf_at. cbn. apply lookup_total_insert_eq. Qed.

Definition unlink_state (k : string) (p : nat) (a : acct) (t : nat) (s : store) : store :=
  mkstore (<[p := detach (buf_at s p)]> (bufs s)) (nextb s)
    (<[shardIdxFor k := delete k (shardFor s k)]> (shards s)) a t (subscribers s) (chans s).

Lemma unlink_state_ok k p a t s : placed s → scopes s !! k = Some p →
  totalBytes a = totalBytes (s_acct s) - charge s p →
  totalItems a = totalItems (s_acct s) - count s p →
  scopeCount a = scopeCount (s_acct s) - 1 →
  store_lastWriteTS (s_acct s) ≤ store_lastWriteTS a →
  eventsDropsTotal a = eventsDropsTotal (s_acct s) → (s_tick s ≤ t)%nat →
  placed (unlink_state k p a t s) ∧ unlinked k p s (unlink_state k p a t s).
Proof.
  intros P Hk. intros. destruct (drop_shards_spec s k
    (<[p := detach (buf_at s p)]> (bufs s)) (nextb s) a t P) as [P' E].
  split; [done|]. constructor; try done.
  - unfold buf_at at 1. cbn. apply lookup_total_insert_eq.
  - intros q Hq. unfold buf_at at 1. cbn. by apply lookup_total_insert_ne.
Qed.

Definition cleanup_acct (a : acct) : acct :=
  set_scopeCount (scopeCount a - 1) (acct_add (- scopeBufferOverhead) 0 a).

Lemma cleanup_run db dc k p s : ahead db dc s → tame db dc s →
  cleanupIfEmptyAndUnused k p s =
  (tt, if bool_decide (scopes s !! k = Some p) && (length (items (buf_at s p)) =? 0)%nat
       then unlink_state k p (cleanup_acct (s_acct s)) (s_tick s) s else s).
Proof.
  intros I T. unfold cleanupIfEmptyAndUnused, bind at 1. cbn [get].
  rewrite <- scopes_lookup by apply I.
  destruct (bool_decide _) eqn:Hk; [|done]. apply bool_decide_eq_true in Hk.
  destruct (length (items (buf_at s p)) =? 0)%nat eqn:Hz; [|done]. cbn [negb andb].
  pose proof (core_ge _ _ s k p I Hk) as (_ & _ & Hc). pose proof (core_counters _ _ s I T).
  destruct T.
  rewrite bind_drop. erewrite bind_counters by (apply add_bytes_run;
    cbn; unfold scopeBufferOverhead, in_i64, MinInt64 in *; unfold MaxInt64 in *; lia).
  rewrite bind_scopeCount by (unfold in_i64, MinInt64 in *; unfold MaxInt64 in *; cbn; lia).
  reflexivity.
Qed.

Lemma cleanup_core db dc k p s : ahead db dc s → tame db dc s → isReservedScope k = false →
  let s' := (cleanupIfEmptyAndUnused k p s).2 in
  (s' = s ∨ unlinked k p s s') ∧ ahead db dc s' ∧ extends s s'.
Proof.
  intros I T Hr. cbv zeta. rewrite (cleanup_run _ _ _ _ _ I T). cbn [snd].
  destruct (bool_decide _ && _) eqn:E; [|split; [by left|by split]].
  apply andb_true_iff in E as [Hk%bool_decide_eq_true Hz%Nat.eqb_eq].
  pose proof (sk_live _ _ _ _ I k p Hk) as [L _].
  assert (items (buf_at s p) = []) as Ei by (by destruct (items _)).
  assert (bytes (buf_at s p) = 0) as Eb by (by rewrite (w_bytes _ (lb_wf _ _ _ L)), Ei).
  destruct (unlink_state_ok k p (cleanup_acct (s_acct s)) (s_tick s) s (sk_placed _ _ _ _ I) Hk)
    as [P U]; try done.
  - unfold charge. rewrite Eb. cbn. unfold scopeBufferOverhead. lia.
  - unfold count. rewrite Ei. cbn. lia.
  - split; [by right|]. by apply (unlinked_core _ _ k p).
Qed.
Lemma cleanup_spec k p s : store_inv s → isReservedScope k = false →
  let s' := (cleanupIfEmptyAndUnused k p s).2 in
  (s' = s ∨ unlinked k p s s') ∧ store_inv s' ∧ extends s s'.
Proof.
  intros I Hr s'. pose proof (inv_tame s I) as T. pose proof I as [C Hcap]%inv_core.
  destruct (cleanup_core 0 0 k p s C T Hr) as (U & C' & X). fold s' in U, C', X.
  split; [done|]. split; [|done].
  apply inv_core. split; [done|]. destruct U as [E|U]; [by rewrite E|].
  rewrite (ul_bytes _ _ _ _ U). pose proof (core_charge 0 0 s k p C (ul_some _ _ _ _ U)).
  unfold scopeBufferOverhead in *. lia.
Qed.

(** ** Rollback of a freshly created scope *)
Lemma rollback k p s s1 s2 : store_inv s → created_scope k p s s1 → store_inv s2 →
  shards s2 = shards s1 → s_acct s2 = s_acct s1 → subscribers s2 = subscribers s1 →
  chans s2 = chans s1 → nextb s2 = nextb s1 → (s_tick s1 ≤ s_tick s2)%nat →
  (∀ q, q ≠ p → buf_at s2 q = buf_at s1 q) → items (buf_at s2 p) = [] →
  same_content s (cleanupIfEmptyAndUnused k p s2).2.
Proof.
  intros I C I2 Esh Ea Es Ec En Et Eb Ei. pose proof I2 as [C2 _]%inv_core.
  rewrite (cleanup_run 0 0 k p s2 C2 (inv_tame s2 I2)). cbn [snd].
  destruct (placed_shards s1 s2 Esh) as (_ & ES & _).
  rewrite ES, (cs_scopes _ _ _ _ C), lookup_insert_eq, Ei, bool_decide_true by done. cbn [andb length].
  destruct C. subst p.
  assert (shardFor s2 k = <[k := nextb s]> (shardFor s k)) as Ef.
  { unfold shardFor. rewrite Esh, cs_shards0.
    apply list_lookup_total_insert_eq. rewrite (proj1 (si_placed _ I)). apply shardIdxFor_lt. }
  constructor; cbn.
  - rewrite Ef, Esh, cs_shards0, list_insert_insert_eq, delete_insert_id.
    + apply list_insert_id. apply shard_lookup, I.
    + change (getScope s k = None). rewrite <- scopes_lookup; [done|apply I].
  - rewrite Ea, cs_acct0. unfold cleanup_acct, acct_add, set_scopeCount.
    destruct (s_acct s). cbn. f_equal; lia.
  - rewrite Es. apply cs_subs0.
  - rewrite Ec. apply cs_subs0.
  - intros q Hq. unfold buf_at at 1. cbn. rewrite lookup_total_insert_ne by lia.
    fold (buf_at s2 q). rewrite Eb by lia. by apply cs_rest0.
  - lia.
  - lia.
Qed.

(** ** deleteScope, the locked part *)
Lemma totals_ge {R} s k p : store_inv_on R s → scopes s !! k = Some p →
  0 ≤ bytes (buf_at s p) ∧ 0 ≤ count s p ≤ totalItems (s_acct s) ∧
  scopeBufferOverhead ≤ charge s p ≤ totalBytes (s_acct s).
Proof. intros [C _]%inv_core Hk. pose proof (core_ge 0 0 s k p C Hk). lia. Qed.

Definition delete_acct (s : store) (p : nat) : acct :=
  acct_bump (clk_micro (s_tick s))
    (set_scopeCount (scopeCount (s_acct s) - 1) (acct_add (- charge s p) (- count s p) (s_acct s))).

Lemma deleteScope_locked_run db dc k s : ahead db dc s → tame db dc s →
  deleteScope_locked k s =
  match scopes s !! k with
  | None => ((0, false), s)
  | Some p => ((count s p, true), unlink_state k p (delete_acct s p) (S (s_tick s)) s)
  end.
Proof.
  intros I T. unfold deleteScope_locked, bind at 1. cbn [get].
  rewrite <- scopes_lookup by apply I. destruct (scopes s !! k) as [p|] eqn:Hk; [|done].
  pose proof (core_counters _ _ s I T). pose proof (core_ge _ _ s k p I Hk) as (Hb & Hc & Hch).
  destruct T. fold (count s p). unfold charge, scopeBufferOverhead in Hch.
  rewrite (i64_id (bytes (buf_at s p) + scopeBufferOverhead))
    by (unfold scopeBufferOverhead, in_i64, MinInt64 in *; unfold MaxInt64 in *; lia).
  fold (charge s p).
  rewrite bind_drop. erewrite bind_counters by (apply add_bytes_run;
    cbn; unfold charge, scopeBufferOverhead, in_i64, MinInt64 in *; unfold MaxInt64 in *; lia).
  store_fields.
  erewrite bind_counters by (apply add_items_run; unfold in_i64, MinInt64 in *;
    unfold MaxInt64 in *; cbn; lia).
  store_fields.
  rewrite bind_scopeCount by (unfold in_i64, MinInt64 in *; unfold MaxInt64 in *; cbn; lia).
  store_fields. rewrite bind_now_s. store_fields. erewrite bind_counters by apply bump_run.
  store_fields. rewrite bind_buf_at. store_fields.
  unfold ret, unlink_state, delete_acct, buf_at. store_fields.
  unfold acct_bump, acct_add, set_scopeCount. cbn [totalBytes totalItems scopeCount
    store_lastWriteTS eventsDropsTotal]. by rewrite !Z.add_0_r.
Qed.

Lemma deleteScope_locked_core db dc k s : ahead db dc s → tame db dc s → isReservedScope k = false →
  let r := deleteScope_locked k s in
  match scopes s !! k with
  | None => r = ((0, false), s)
  | Some p => r.1 = (count s p, true) ∧ unlinked k p s r.2
  end ∧ ahead db dc r.2 ∧ extends s r.2.
Proof.
  intros I T Hr. rewrite (deleteScope_locked_run _ _ _ _ I T). cbv zeta.
  destruct (scopes s !! k) as [p|] eqn:Hk; [|by split].
  destruct (unlink_state_ok k p (delete_acct s p) (S (s_tick s)) s (sk_placed _ _ _ _ I) Hk) as [P U];
    try (cbn; lia).
  split; [by split|]. by apply (unlinked_core _ _ k p).
Qed.
Lemma deleteScope_locked_spec k s : store_inv s → isReservedScope k = false →
  let r := deleteScope_locked k s in
  match scopes s !! k with
  | None => r = ((0, false), s)
  | Some p => r.1 = (count s p, true) ∧ unlinked k p s r.2
  end ∧ store_inv r.2 ∧ extends s r.2.
Proof.
  intros I Hr r. pose proof (inv_tame s I) as T. pose proof I as [C Hcap]%inv_core.
  destruct (deleteScope_locked_core 0 0 k s C T Hr) as (O & C' & X). fold r in O, C', X.
  split; [done|]. split; [|done]. apply inv_core. split; [done|].
  destruct (scopes s !! k) as [p|] eqn:Hk; [|by rewrite O]. destruct O as [_ U].
  rewrite (ul_bytes _ _ _ _ U). pose proof (core_charge 0 0 s k p C Hk).
  unfold scopeBufferOverhead in *. lia.
Qed.

(** ** The reserved scopes *)
Definition reserved_buf (name : string) (now ts : Z) : scopeBuffer :=
  set_reserved_fields (maxItemsFor name) (maxItemBytesFor name) ts
    (newborn defaultMaxItems maxItemBytes now).

Lemma reserved_live name now ts tick : live_buf name tick (reserved_buf name now ts).
Proof.
  constructor; cbn; try done; try set_solver.
  - apply (wf_frame (newborn defaultMaxItems maxItemBytes now)); [apply newborn_wf|reflexivity..].
  - lia.
  - unfold MaxInt64. lia.
Qed.

(** What initialising the names of [R] adds to a store that has none of them. *)
Record initialised (R : list string) (s s' : store) : Prop := {
  in_scopes : ∀ k p, scopes s' !! k = Some p ↔
    scopes s !! k = Some p ∨ k ∈ R ∧ scopes s' !! k = Some p ∧ (nextb s ≤ p)%nat;
  in_bufs : ∀ k p, k ∈ R → scopes s' !! k = Some p →
    ∃ t ts, buf_at s' p = reserved_buf k t ts;
  in_old : ∀ p, (p < nextb s)%nat → buf_at s' p = buf_at s p;
  in_next : (nextb s ≤ nextb s')%nat;
  in_tick : (s_tick s ≤ s_tick s')%nat;
  in_bytes : totalBytes (s_acct s')
    = totalBytes (s_acct s) + scopeBufferOverhead * Z.of_nat (length R);
  in_items : totalItems (s_acct s') = totalItems (s_acct s);
  in_ts : store_lastWriteTS (s_acct s') = store_lastWriteTS (s_acct s);
  in_drops : eventsDropsTotal (s_acct s') = eventsDropsTotal (s_acct s);
  in_subs : subscribers s' = subscribers s ∧ chans s' = chans s;
}.

Definition init_state (name : string) (ts : store → Z) (s : store) : store :=
  let s1 := (store_newscopeBuffer s).2 in
  mkstore (<[nextb s := set_reserved_fields (maxItemsFor name) (maxItemBytesFor name) (ts s1)
               (buf_at s1 (nextb s))]> (bufs s1)) (nextb s1)
    (<[shardIdxFor name := <[name := nextb s]> (shardFor s name)]> (shards s))
    (set_scopeCount (scopeCount (s_acct s) + 1) (acct_add scopeBufferOverhead 0 (s_acct s)))
    (s_tick s1) (subscribers s) (chans s).

Lemma init_reserved_run {R} name ts s : store_inv_on R s → scopes s !! name = None →
  totalBytes (s_acct s) + scopeBufferOverhead ≤ MaxInt64 →
  init_reserved name ts s = (tt, init_state name ts s).
Proof.
  intros I Hn Hfit. destruct (total_range s I) as (H1 & H2 & H3). pose proof (count_small s I).
  unfold init_reserved. rewrite bind_get, <- scopes_lookup, Hn by apply I.
  unfold bind at 1. rewrite new_run, bind_get, bind_buf_at, bind_put.
  erewrite bind_counters by (apply add_bytes_run; cbn; unfold scopeBufferOverhead, in_i64, MinInt64 in *;
    unfold MaxInt64 in *; lia).
  unfold add_scopeCount, modify_counters, modify, set_acct. cbn.
  rewrite i64_id by (unfold in_i64, MinInt64 in *; unfold MaxInt64 in *; lia). done.
Qed.

Lemma init_reserved_spec {R} name ts s : store_inv_on R s → scopes s !! name = None →
  totalBytes (s_acct s) + scopeBufferOverhead ≤ maxStoreBytes →
  let s' := (init_reserved name ts s).2 in
  store_inv_on (name :: R) s' ∧ initialised [name] s s' ∧
  scopes s' = <[name := nextb s]> (scopes s).
Proof.
  intros I Hn Hfit. pose proof co_max. rewrite (init_reserved_run name ts s I Hn) by lia.
  cbv zeta. cbn [snd].
  set (s2 := init_state name ts s). unfold scopeBufferOverhead in *.
  destruct (put_scope_spec s name (nextb s) (si_placed _ I)) as [P' E'].
  destruct (placed_shards ((put_scope name (nextb s) s).2) s2 eq_refl) as (HP & HS & _).
  rewrite E' in HS. apply HP in P'. clear HP E'.
  assert (buf_at s2 (nextb s) = reserved_buf name (clk_micro (s_tick s))
    (ts (mkstore (<[nextb s := newborn defaultMaxItems maxItemBytes (clk_micro (s_tick s))]> (bufs s))
      (S (nextb s)) (shards s) (s_acct s) (S (s_tick s)) (subscribers s) (chans s)))) as Eb.
  { unfold buf_at. cbn. rewrite lookup_total_insert_eq. unfold buf_at. cbn.
    by rewrite lookup_total_insert_eq. }
  assert (∀ q, (q < nextb s)%nat → buf_at s2 q = buf_at s q) as Eo.
  { intros q Hq. unfold buf_at. cbn. by rewrite !lookup_total_insert_ne by lia. }
  split; [|split; [|done]].
  - apply (inv_add s name (nextb s)); try done; try (cbn; lia).
    + intros k q Hq. apply Eo. by eapply si_live.
    + rewrite Eb. apply reserved_live.
    + by rewrite Eb.
    + by rewrite Eb.
  - constructor; try done; try (cbn; lia).
    + intros k q. rewrite HS, lookup_insert_Some. split.
      * intros [[<- <-]|[? ?]]; [right; set_solver by lia|by left].
      * intros [Hq|(Hk & Hq & _)]; [|done]. right. split; [|done]. intros ->. congruence.
    + intros k q ->%list_elem_of_singleton. rewrite HS, lookup_insert_eq. intros [= <-]. eauto.
Qed.

Lemma init_all_spec ts s : store_inv_on [] s →
  (∀ k, isReservedScope k = true → scopes s !! k = None) →
  totalBytes (s_acct s) + reservedScopesOverhead ≤ maxStoreBytes →
  let s' := (init_each reservedScopeNames ts s).2 in
  store_inv s' ∧ initialised reservedScopeNames s s'.
Proof.
  intros I Hn Hfit. change reservedScopesOverhead with 2048 in Hfit. cbv zeta.
  unfold reservedScopeNames. cbn [init_each].
  set (s1 := (init_reserved EventsScopeName ts s).2).
  set (s2 := (init_reserved InboxScopeName ts s1).2).
  assert ((init_reserved EventsScopeName ts ;;; init_reserved InboxScopeName ts ;;; ret tt) s
    = (tt, s2)) as ->.
  { rewrite !bind_eq. done. }
  cbn [snd].
  destruct (init_reserved_spec EventsScopeName ts s I) as (I1 & N1 & E1);
    [by apply Hn|unfold scopeBufferOverhead; lia|]. fold s1 in I1, N1, E1.
  destruct (init_reserved_spec InboxScopeName ts s1 I1) as (I2 & N2 & E2).
  { rewrite E1, lookup_insert_ne by done. by apply Hn. }
  { rewrite (in_bytes _ _ _ N1). unfold scopeBufferOverhead. cbn [length]. lia. }
  fold s2 in I2, N2, E2. split; [eapply inv_weaken; [exact I2|unfold reservedScopeNames; set_solver]|].
  pose proof (in_next _ _ _ N1). pose proof (in_next _ _ _ N2).
  constructor.
  - intros k p. split.
    + rewrite E2, E1, !lookup_insert_Some. intros [[<- <-]|[? [[<- <-]|[? ?]]]].
      * right. split; [set_solver|]. split; [by left|lia].
      * right. split; [set_solver|]. split; [right; split; [done|by left]|lia].
      * by left.
    + intros [Hk|(_ & ? & _)]; [|done]. rewrite E2, E1, !lookup_insert_ne; [done|..];
        intros <-; rewrite Hn in Hk; done.
  - intros k p Hk Hp. destruct (decide (k = InboxScopeName)) as [->|Hne].
    + apply (in_bufs _ _ _ N2); [set_solver|done].
    + assert (k = EventsScopeName) as -> by set_solver.
      rewrite E2, lookup_insert_ne in Hp by done.
      assert (p < nextb s1)%nat by (by eapply si_live). rewrite (in_old _ _ _ N2) by done.
      apply (in_bufs _ _ _ N1); [set_solver|done].
  - intros p Hp. rewrite (in_old _ _ _ N2) by lia. by apply (in_old _ _ _ N1).
  - lia.
  - pose proof (in_tick _ _ _ N1). pose proof (in_tick _ _ _ N2). lia.
  - rewrite (in_bytes _ _ _ N2), (in_bytes _ _ _ N1). cbn [length]. lia.
  - by rewrite (in_items _ _ _ N2), (in_items _ _ _ N1).
  - by rewrite (in_ts _ _ _ N2), (in_ts _ _ _ N1).
  - by rewrite (in_drops _ _ _ N2), (in_drops _ _ _ N1).
  - destruct (in_subs _ _ _ N2), (in_subs _ _ _ N1). split; congruence.
Qed.

(** A store with no scopes at all. *)
Lemma blank_inv bs n a t sb ch : totalBytes a = 0 → totalItems a = 0 → scopeCount a = 0 →
  let s := mkstore bs n (replicate numShards ∅) a t sb ch in
  store_inv_on [] s ∧ scopes s = ∅.
Proof.
  intros H1 H2 H3 s. assert (placed s) as P.
  { split; [apply length_replicate|]. intros i m k [-> _]%lookup_replicate [x Hx].
    by rewrite lookup_empty in Hx. }
  assert (scopes s = ∅) as E.
  { apply map_eq. intros k. rewrite scopes_lookup, lookup_empty by done. unfold getScope, shardFor. cbn [shards s].
    rewrite (list_lookup_total_correct _ _ ∅); [apply lookup_empty|].
    apply lookup_replicate_2, shardIdxFor_lt. }
  split; [|done]. constructor; rewrite ?E.
  - done.
  - intros k p. by rewrite lookup_empty.
  - intros k k' p. by rewrite lookup_empty.
  - rewrite msum_empty. done.
  - rewrite msum_empty. done.
  - rewrite map_size_empty. done.
  - cbn. rewrite H1. pose proof co_min. change reservedScopesOverhead with 2048 in *. lia.
  - set_solver.
Qed.

(** A new store: nothing but the reserved scopes. *)
Lemma newStore_spec : store_inv newStore ∧ initialised reservedScopeNames emptyStore newStore ∧
  scopes emptyStore = ∅.
Proof.
  destruct (blank_inv ∅ 0 (mkacct 0 0 0 0 0) 0 ∅ ∅) as [I E]; [done..|].
  assert (scopes emptyStore = ∅) as E0 by exact E.
  destruct (init_all_spec (λ _, 0) emptyStore I) as [I' N].
  - intros k _. by rewrite E0, lookup_empty.
  - cbn. pose proof co_min. lia.
  - done.
Qed.
Lemma newStore_inv : store_inv newStore.
Proof. apply newStore_spec. Qed.
Lemma newStore_subs : subscribers newStore = ∅ ∧ chans newStore = ∅.
Proof. apply (in_subs _ _ _ (proj1 (proj2 newStore_spec))). Qed.
End Spec.
