(* ===== verification/Events.v ===== *)
(** * events.go, subscribe.go, and the append path of store.go

  A write event is appended to [_events] through the same append that emits
  events; the recursion guard stops it after one level. [appendOneTrusted]
  recurses with fuel, and two levels are always enough (EventsSpec.v). *)
From S2P Require Import Prelude GoStd Uuid Types Validation Buffer BufferWrite BufferRead Store.

Record writeEvent := mkwriteEvent {
  Op : string;
  ev_Scope : string;
  ev_ID : string;
  ev_Seq : Z;
  ev_Ts : Z;
  ev_UUID : string;
  ev_Payload : slice;
  By : option Z;
  MaxSeq : Z;
}.

(** [jsonMarshal] of a writeEvent. *)
Class EventMarshal := jsonMarshal_event : writeEvent → option string.

Definition strip_payload (e : writeEvent) : writeEvent :=
  mkwriteEvent (Op e) (ev_Scope e) (ev_ID e) (ev_Seq e) (ev_Ts e) (ev_UUID e) None (By e) (MaxSeq e).

Section Events.
Context `{Env} `{Caps} `{ScopeHash} `{EventMarshal}.

(** ** subscribe.go *)
Inductive subscribe_error := ErrInvalidSubscribeScope | ErrAlreadySubscribed.

Definition set_chans (m : gmap nat chan) (s : store) : store := s <| chans := m |>.
Definition set_subscribers (m : gmap string nat) (s : store) : store := s <| subscribers := m |>.

(** [make(chan struct{}, 1)]: a channel identity not used before. *)
Definition fresh_chan (s : store) : nat := fresh (dom (chans s)).

Definition Subscribe (scope : string) : SM (result subscribe_error nat) :=
  if negb (isReservedScope scope) then ret (Err ErrInvalidSubscribeScope)
  else
    let* s := get in
    if bool_decide (is_Some (subscribers s !! scope)) then ret (Err ErrAlreadySubscribed)
    else
      let ch := fresh_chan s in
      modify (set_chans (<[ch := mkchan false false false]> (chans s))) ;;;
      modify (set_subscribers (<[scope := ch]> (subscribers s))) ;;;
      ret (Ok ch).

Definition close_chan (c : chan) : chan := mkchan (pending c) true (panicked c || closed c).
Definition send_chan (c : chan) : chan := mkchan true (closed c) (panicked c || closed c).

Definition unsubscribe (scope : string) : SM unit :=
  let* s := get in
  match subscribers s !! scope with
  | None => ret tt
  | Some ch =>
      modify (set_subscribers (delete scope (subscribers s))) ;;;
      modify (λ s, set_chans (<[ch := close_chan (chans s !!! ch)]> (chans s)) s)
  end.

(** The non-blocking send: dropped when the slot is full (a closed channel is
    never full to a sender: the send panics). *)
Definition notifySubscriber (scope : string) : SM unit :=
  let* s := get in
  match subscribers s !! scope with
  | None => ret tt
  | Some ch =>
      let c := chans s !!! ch in
      if pending c && negb (closed c) then ret tt
      else modify (set_chans (<[ch := send_chan c]> (chans s)))
  end.

(** One iteration of the subscriber's [for range ch]: a wake-up, the exit, or
    (None) the goroutine stays blocked. *)
Definition receive (ch : nat) : SM (option bool) :=
  let* s := get in
  let c := chans s !!! ch in
  if pending c then
    modify (set_chans (<[ch := mkchan false (closed c) (panicked c)]> (chans s))) ;;;
    ret (Some true)
  else if closed c then ret (Some false) else ret None.

(** ** events.go *)
Definition eventsEnabled (scope : string) : bool :=
  negb (eventsMode =? EventsModeOff) && negb (bool_decide (scope = EventsScopeName)).

Definition event_item (body : string) : Item :=
  mkItem EventsScopeName "" 0 0 zeroUUID (Some body) None None.
Definition count_drop : SM unit := modify_counters add_drop.

(** emitEvent, with the append it recurses into. *)
Definition emitEvent_with (append : Item → SM (result error Item)) (evt : writeEvent) : SM unit :=
  let evt := if eventsMode =? EventsModeNotify then strip_payload evt else evt in
  match jsonMarshal_event evt with
  | None => count_drop
  | Some body =>
      let* r := append (event_item body) in
      match r with Ok _ => ret tt | Err _ => count_drop end
  end.

Definition append_event (scope id : string) (seq ts : Z) (uuid : string) (payload : slice) : writeEvent :=
  mkwriteEvent "append" scope id seq ts uuid payload None 0.
Definition emitAppendEvent_with (append : Item → SM (result error Item)) (scope id : string)
    (seq ts : Z) (uuid : string) (payload : slice) : SM unit :=
  if negb (eventsEnabled scope) then ret tt
  else emitEvent_with append (append_event scope id seq ts uuid payload).

(** ** store.go: appendOneTrusted *)
Fixpoint appendOneTrusted_fuel (out_of_fuel : SM (result error Item)) (fuel : nat) (item : Item)
    : SM (result error Item) :=
  match fuel with
  | O => out_of_fuel
  | S fuel =>
      let? r := getOrCreateScopeTrackingCreated (Scope item) in
      let '(buf, created) := r in
      let* res := with_buf buf (appendItem item) in
      match res with
      | Err e =>
          (if (created : bool) then cleanupIfEmptyAndUnused (Scope item) buf else ret tt) ;;;
          ret (Err e)
      | Ok result =>
          emitAppendEvent_with (appendOneTrusted_fuel out_of_fuel fuel) (Scope result) (ID result)
            (Seq result) (Ts result) (wireUUID (Uuid result)) (Payload result) ;;;
          (if isReservedScope (Scope result) then notifySubscriber (Scope result) else ret tt) ;;;
          ret (Ok result)
      end
  end.
Definition unreachable : SM (result error Item) := ret (Err (ErrText "unreachable")).
Definition appendOneTrusted : Item → SM (result error Item) := appendOneTrusted_fuel unreachable 2.
Definition emitEvent : writeEvent → SM unit := emitEvent_with appendOneTrusted.

Definition appendOne (item : Item) : SM (result error Item) :=
  match validateWriteItem item "/append" (maxItemBytesFor (Scope item)) with
  | Err e => ret (Err e)
  | Ok item => appendOneTrusted item
  end.

Definition gated (scope : string) (evt : writeEvent) : SM unit :=
  if negb (eventsEnabled scope) then ret tt else emitEvent evt.

Definition emitUpsertEvent (scope id : string) (seq ts : Z) (uuid : string) (payload : slice) : SM unit :=
  gated scope (mkwriteEvent "upsert" scope id seq ts uuid payload None 0).
Definition emitUpdateEvent (scope id : string) (seq : Z) (uuid : string) (payload : slice) : SM unit :=
  gated scope (mkwriteEvent "update" scope id seq 0 uuid payload None 0).
Definition emitCounterAddEvent (scope id : string) (by_ : Z) : SM unit :=
  gated scope (mkwriteEvent "counter_add" scope id 0 0 "" None (Some by_) 0).
Definition emitDeleteEvent (scope id : string) (seq : Z) (uuid : string) : SM unit :=
  gated scope (mkwriteEvent "delete" scope id seq 0 uuid None None 0).
Definition emitDeleteUpToEvent (scope : string) (maxSeq : Z) (uuid : string) : SM unit :=
  gated scope (mkwriteEvent "delete_up_to" scope "" 0 0 uuid None None maxSeq).
Definition emitWarmEvent : SM unit :=
  if eventsMode =? EventsModeOff then ret tt
  else
    let* t := now in
    emitEvent (mkwriteEvent "warm" "" "" 0 t "" None None 0).
Definition emitDeleteScopeEvent (scope : string) : SM unit :=
  if negb (eventsEnabled scope) then ret tt
  else
    let* t := now in
    emitEvent (mkwriteEvent "delete_scope" scope "" 0 t "" None None 0).
End Events.
