(* ===== verification/StoreOps.v ===== *)
(** * store.go: the single-item operations and the reads *)
From S2P Require Import Prelude GoStd Uuid Types Wire Validation Buffer BufferWrite BufferRead.
From S2P Require Import BufferDelete BufferCounter Store Events.

Section StoreOps.
Context `{Env} `{Caps} `{ScopeHash} `{EventMarshal}.

(** The result of the buffer method; on an error the freshly created scope is
    rolled back. *)
Definition or_cleanup {A} (scope : string) (buf : nat) (created : bool)
    (m : M (result error A)) (k : A → SM (result error A)) : SM (result error A) :=
  let* res := with_buf buf m in
  match res with
  | Err e =>
      (if created then cleanupIfEmptyAndUnused scope buf else ret tt) ;;;
      ret (Err e)
  | Ok a => k a
  end.

Definition upsertOne (item : Item) : SM (result error (Item * bool)) :=
  match validateUpsertItem item maxItemBytes with
  | Err e => ret (Err e)
  | Ok item =>
      let? r := getOrCreateScopeTrackingCreated (Scope item) in
      let '(buf, scopeCreated) := r in
      or_cleanup (Scope item) buf scopeCreated (upsertByID item) (λ res,
        let result := res.1 in
        emitUpsertEvent (Scope result) (ID result) (Seq result) (Ts result)
          (wireUUID (Uuid result)) (Payload result) ;;;
        ret (Ok res))
  end.

Definition counterAddOne (scope id : string) (by_ : Z) : SM (result error (Z * bool)) :=
  match validateCounterAddRequest (mkcounterAddRequest scope id (Some by_)) (maxItemBytesFor scope) with
  | Err e => ret (Err e)
  | Ok _ =>
      let? r := getOrCreateScopeTrackingCreated scope in
      let '(buf, scopeCreated) := r in
      or_cleanup scope buf scopeCreated (counterAdd scope id by_) (λ res,
        (if scopeCreated then let* t := now in on_counters (bumpLastWriteTS t) else ret tt) ;;;
        emitCounterAddEvent scope id by_ ;;;
        ret (Ok res))
  end.

(** updateOne's choice of address: id, then uuid, then seq. *)
Definition update_target (item : Item) : M (result error Z) :=
  if negb (bool_decide (ID item = "")) then updateByID (ID item) (Payload item) (renderBytes item)
  else if negb (IsZero (Uuid item)) then updateByUUID (Uuid item) (Payload item) (renderBytes item)
  else updateBySeq (Seq item) (Payload item) (renderBytes item).

Definition updateOne (item : Item) : SM (result error Z) :=
  match validateUpdateItem item maxItemBytes with
  | Err e => ret (Err e)
  | Ok item =>
      let* s := get in
      match getScope s (Scope item) with
      | None => ret (Ok 0)
      | Some buf =>
          let? updated := with_buf buf (update_target item) in
          (if 0 <? updated
           then emitUpdateEvent (Scope item) (ID item) (Seq item) (wireUUID (Uuid item)) (Payload item)
           else ret tt) ;;;
          ret (Ok updated)
      end
  end.

Definition parsed_uuid (uuid : string) : UUID := default zeroUUID (parseUUIDv7 uuid).
Definition delete_target (id : string) (seq : Z) (uuid : string) : M (result error Z) :=
  if negb (bool_decide (id = "")) then deleteByID id
  else if negb (bool_decide (uuid = "")) then deleteByUUID (parsed_uuid uuid)
  else deleteBySeq seq.

Definition deleteOne (scope id : string) (seq : Z) (uuid : string) : SM (result error Z) :=
  match validateDeleteRequest (mkdeleteRequest scope id seq uuid) with
  | Err e => ret (Err e)
  | Ok _ =>
      let* s := get in
      match getScope s scope with
      | None => ret (Ok 0)
      | Some buf =>
          let? deleted := with_buf buf (delete_target id seq uuid) in
          (if 0 <? deleted then emitDeleteEvent scope id seq uuid else ret tt) ;;;
          ret (Ok deleted)
      end
  end.

Definition drain_target (maxSeq : Z) (uuid : string) : M (result error Z) :=
  if negb (bool_decide (uuid = "")) then deleteUpToUUID (parsed_uuid uuid)
  else deleteUpToSeq maxSeq.

Definition deleteUpTo (scope : string) (maxSeq : Z) (uuid : string) : SM (result error Z) :=
  match validateDeleteUpToRequest (mkdeleteUpToRequest scope maxSeq uuid) with
  | Err e => ret (Err e)
  | Ok _ =>
      let* s := get in
      match getScope s scope with
      | None => ret (Ok 0)
      | Some buf =>
          let? deleted := with_buf buf (drain_target maxSeq uuid) in
          (if 0 <? deleted then emitDeleteUpToEvent scope maxSeq uuid else ret tt) ;;;
          ret (Ok deleted)
      end
  end.

Definition deleteScope (scope : string) : SM (result error (Z * bool)) :=
  match validateDeleteScopeRequest (mkdeleteScopeRequest scope) with
  | Err e => ret (Err e)
  | Ok _ =>
      let* r := deleteScope_locked scope in
      let '(itemCount, ok) := r in
      if negb (ok : bool) then ret (Ok (itemCount, false))
      else
        emitDeleteScopeEvent scope ;;;
        ret (Ok (itemCount, true))
  end.

(** ** Reads *)
Definition record_read (buf : nat) : SM unit :=
  let* t := now in modify_buf_at buf (recordRead t).

Definition window (scope : string) (w : scopeBuffer → list Item * bool) : SM (list Item * bool * bool) :=
  let* s := get in
  match getScope s scope with
  | None => ret ([], false, false)
  | Some buf =>
      let '(items, truncated) := w (buf_at s buf) in
      (if (0 <? length items)%nat then record_read buf else ret tt) ;;;
      ret (items, truncated, true)
  end.
Definition head (scope : string) (afterSeq limit : Z) : SM (list Item * bool * bool) :=
  window scope (λ b, sinceSeq b afterSeq limit).
Definition tail (scope : string) (limit offset : Z) : SM (list Item * bool * bool) :=
  window scope (λ b, tailOffset b limit offset).

Definition lookup_item (b : scopeBuffer) (id : string) (seq : Z) (uuid : string) : option Item :=
  if negb (bool_decide (id = "")) then getByID b id
  else if negb (bool_decide (uuid = ""))
  then match parseUUIDv7 uuid with Some u => getByUUID b u | None => None end
  else getBySeq b seq.

Definition get_item (scope id : string) (seq : Z) (uuid : string) : SM (option Item) :=
  let* s := get in
  match getScope s scope with
  | None => ret None
  | Some buf =>
      match lookup_item (buf_at s buf) id seq uuid with
      | None => ret None
      | Some item => record_read buf ;;; ret (Some item)
      end
  end.
Definition render (scope id : string) (seq : Z) (uuid : string) : SM (option slice) :=
  let* r := get_item scope id seq uuid in
  ret ((λ item, match renderBytes item with Some r => Some r | None => Payload item end) <$> r).

(** ** /scopelist *)
Definition name_le (x y : string * nat) : Prop := String.leb x.1 y.1 = true.
#[export] Instance name_le_dec x y : Decision (name_le x y).
Proof. unfold name_le. apply _. Defined.

Definition list_match (prefix after : string) (e : string * nat) : bool :=
  (bool_decide (prefix = "") || String.prefix prefix e.1)
  && (bool_decide (after = "") || negb (String.leb e.1 after)).

Definition list_entry (s : store) (e : string * nat) : scopeListEntry :=
  let st := buf_stats (buf_at s e.2) in
  mkscopeListEntry e.1 (st_ItemCount st) (st_LastSeq st) (st_FirstUUID st) (st_LastUUID st)
    (st_ApproxScopeMB st) (st_CreatedTS st) (st_LastWriteTS st) (st_LastAccessTS st)
    (st_ReadCountTotal st).

Definition scopeList (s : store) (prefix after : string) (limit : Z) : list scopeListEntry * bool :=
  if limit <=? 0 then ([], false)
  else
    let refs := filter (λ e, list_match prefix after e = true) (concat (map_to_list <$> shards s)) in
    let refs := merge_sort name_le refs in
    let truncated := limit <? Z.of_nat (length refs) in
    let refs := if truncated then take (Z.to_nat limit) refs else refs in
    (list_entry s <$> refs, truncated).
End StoreOps.
