(* ===== verification/Bulk.v ===== *)
(** * bulk.go: wipe, replaceScopes (/warm), rebuildAll (/rebuild)

  [map[string][]Item] is an association list: one order in which Go may range
  over it. Phase 1 of a bulk write is a function of the input and the clock;
  the locked phase is one atomic section. *)
From S2P Require Import Prelude GoStd Uuid Types Validation Buffer BufferReplace Store Events.

Definition batch : Type := list (string * list Item).

Record plan := mkplan {
  p_scope : string;
  p_replacement : scopeReplacement;
  p_newBytes : Z;
  p_oldBytes : Z;
}.

(** rebuildAll's direct initialisation of an unshared buffer. *)
Definition fill_unshared (r : scopeReplacement) (n : Z) (b : scopeBuffer) : scopeBuffer :=
  Eval fields in
  b <| heap := r_heap r |> <| nextp := length (r_items r) |>
    <| items := r_items r |> <| itemsCap := length (r_items r) |>
    <| byID := r_byID r |> <| bySeq := r_bySeq r |> <| byUUID := r_byUUID r |>
    <| lastSeq := r_lastSeq r |> <| firstUUID := r_firstUUID r |> <| lastUUID := r_lastUUID r |>
    <| bytes := n |>.

Definition reset_counters (bytes_ items_ scopes_ : Z) (a : acct) : acct := Eval fields in
  a <| totalBytes := bytes_ |> <| totalItems := items_ |> <| scopeCount := scopes_ |>.

Section Bulk.
Context `{Env} `{Caps} `{ScopeHash} `{EventMarshal}.

Definition on_tick {A} (m : ST nat A) : SM A := λ s,
  let '(x, t) := m (s_tick s) in (x, s <| s_tick := t |>).

(** Lock every mapped buffer in turn and unlink it from the store. *)
Definition mapped (s : store) : list nat := concat ((λ m, (map_to_list m).*2) <$> shards s).
Definition detach_all : SM unit :=
  modify (λ s, set_bufs (foldl (λ m p, <[p := detach (m !!! p)]> m) (bufs s) (mapped s)) s).

Definition wipe : SM (Z * Z * Z) :=
  let* s := get in
  let scopeCount := zsum (λ m, Z.of_nat (size m)) (shards s) in
  let totalItems := zsum (λ p, Z.of_nat (length (items (buf_at s p)))) (mapped s) in
  detach_all ;;;
  let freedBytes := totalBytes (s_acct s) in
  modify_counters (reset_counters 0 0 0) ;;;
  let* t := now in
  on_counters (bumpLastWriteTS t) ;;;
  modify (set_shards (replicate numShards ∅)) ;;;
  initReservedScopesLocked ;;;
  ret (scopeCount, totalItems, freedBytes).

(** The per-item loop of both bulk writes; the items are validated in place. *)
Fixpoint check_items (endpoint scope : string) (i : Z) (items : list Item) : result error (list Item) :=
  match items with
  | [] => Ok []
  | it :: items =>
      match validateWriteItem it endpoint maxItemBytes with
      | Err e => Err (ErrBatchItem scope i e)
      | Ok it =>
          if negb (bool_decide (Scope it = scope)) then Err (ErrScopeMismatch scope i (Scope it))
          else match check_items endpoint scope (i + 1) items with
               | Err e => Err e
               | Ok items => Ok (it :: items)
               end
      end
  end.

(** What precedes the capacity check for one entry of the batch. *)
Definition check_entry (endpoint reserved_msg scope : string) (items : list Item)
    : result error (list Item) :=
  match wrapValidation (validateScope scope endpoint) with
  | Err e => Err e
  | Ok _ =>
      if isReservedScope scope then
        Err (ErrInvalidInput ("scope '" +:+ scope +:+ "' is reserved and cannot " +:+ reserved_msg))
      else check_items endpoint scope 0 items
  end.

Definition build_error (scope : string) (e : error) : error :=
  match e with
  | ErrText msg => ErrInvalidInput ("scope '" +:+ scope +:+ "': " +:+ msg)
  | e => e
  end.

(** ** replaceScopes *)
Fixpoint warm_phase1 (grouped : batch) (plans : list plan) (offenders : list ScopeCapacityOffender)
    : ST nat (result error (list plan)) :=
  match grouped with
  | [] => ret (match offenders with [] => Ok plans | _ => Err (ScopeCapacityError offenders) end)
  | (scope, items) :: grouped =>
      match check_entry "/warm" "be the target of /warm" scope items with
      | Err e => ret (Err e)
      | Ok items =>
          let n := Z.of_nat (length items) in
          if defaultMaxItems <? n
          then warm_phase1 grouped plans (offenders ++ [mkOffender scope n defaultMaxItems])
          else
            let* r := buildReplacementState items true in
            match r with
            | Err e => ret (Err (build_error scope e))
            | Ok r => warm_phase1 grouped (plans ++ [mkplan scope r (sumItemBytes r) 0]) offenders
            end
      end
  end.

(** Phase 1.5: the snapshots and the net delta. *)
Definition snapshot (s : store) (acc : list plan * Z) (p : plan) : list plan * Z :=
  let '(plans, totalDelta) := acc in
  let '(old, totalDelta) :=
    match getScope s (p_scope p) with
    | Some buf => (bytes (buf_at s buf), totalDelta)
    | None => (0, i64 (totalDelta + scopeBufferOverhead))
    end in
  (plans ++ [mkplan (p_scope p) (p_replacement p) (p_newBytes p) old],
   i64 (totalDelta + i64 (p_newBytes p - old))).

(** Phase 2. *)
Definition commit_plan (p : plan) : SM Z :=
  let* s := get in
  let* r := (match getScope s (p_scope p) with
             | Some buf => ret (buf, 0)
             | None =>
                 let* buf := store_newscopeBuffer in
                 put_scope (p_scope p) buf ;;;
                 ret (buf, 1)
             end) in
  let '(buf, new) := r in
  with_buf buf (commitReplacementPreReserved (p_replacement p) (p_newBytes p) (p_oldBytes p)) ;;;
  ret new.
Fixpoint commit_plans (plans : list plan) : SM Z :=
  match plans with
  | [] => ret 0
  | p :: plans =>
      let* n := commit_plan p in
      let* m := commit_plans plans in
      ret (n + m)
  end.

Definition replaceScopes_locked (plans : list plan) : SM (result error Z) :=
  let* s := get in
  let '(plans, totalDelta) := foldl (snapshot s) ([], 0) plans in
  let* r := on_counters (reserveBytes totalDelta) in
  let '(ok, current, max) := r in
  if negb (ok : bool) then ret (Err (StoreFullError current totalDelta max))
  else
    let* newScopes := commit_plans plans in
    (if 0 <? newScopes then add_scopeCount newScopes else ret tt) ;;;
    ret (Ok (Z.of_nat (length plans))).

Definition replaceScopes (grouped : batch) : SM (result error Z) :=
  let? plans := on_tick (warm_phase1 grouped [] []) in
  let? n := replaceScopes_locked plans in
  (if 0 <? n then emitWarmEvent else ret tt) ;;;
  ret (Ok n).

(** ** rebuildAll *)
Record rebuild_state := mkrebuild {
  rb_maps : list (gmap string nat);
  rb_scopes : Z;
  rb_items : Z;
  rb_bytes : Z;
  rb_offenders : list ScopeCapacityOffender;
}.

Fixpoint rebuild_phase1 (grouped : batch) (st : rebuild_state) : SM (result error rebuild_state) :=
  match grouped with
  | [] => ret (Ok st)
  | (scope, items) :: grouped =>
      match check_entry "/rebuild" "appear in /rebuild input" scope items with
      | Err e => ret (Err e)
      | Ok items =>
          let n := Z.of_nat (length items) in
          if defaultMaxItems <? n
          then rebuild_phase1 grouped
                 (mkrebuild (rb_maps st) (rb_scopes st) (rb_items st) (rb_bytes st)
                    (rb_offenders st ++ [mkOffender scope n defaultMaxItems]))
          else
            let* r := on_tick (buildReplacementState items true) in
            match r with
            | Err e => ret (Err (build_error scope e))
            | Ok r =>
                let* buf := store_newscopeBuffer in
                modify_buf_at buf (fill_unshared r (sumItemBytes r)) ;;;
                let i := shardIdxFor scope in
                rebuild_phase1 grouped
                  (mkrebuild (<[i := <[scope := buf]> (rb_maps st !!! i)]> (rb_maps st))
                     (rb_scopes st + 1)
                     (rb_items st + Z.of_nat (length (r_items r)))
                     (i64 (i64 (rb_bytes st + sumItemBytes r) + scopeBufferOverhead))
                     (rb_offenders st))
            end
      end
  end.

(** Phase 2, under every shard lock. *)
Definition rebuild_phase2 (st : rebuild_state) : SM unit :=
  detach_all ;;;
  modify (set_shards (rb_maps st)) ;;;
  modify_counters (reset_counters (rb_bytes st) (rb_items st) (rb_scopes st)) ;;;
  let* t := now in
  on_counters (bumpLastWriteTS t) ;;;
  initReservedScopesLocked.

Definition rebuildAll (grouped : batch) : SM (result error (Z * Z)) :=
  let? st := rebuild_phase1 grouped (mkrebuild (replicate numShards ∅) 0 0 0 []) in
  if negb (length (rb_offenders st) =? 0)%nat then ret (Err (ScopeCapacityError (rb_offenders st)))
  else if maxStoreBytes <? i64 (rb_bytes st + reservedScopesOverhead)
  then ret (Err (StoreFullError 0 (i64 (rb_bytes st + reservedScopesOverhead)) maxStoreBytes))
  else
    rebuild_phase2 st ;;;
    ret (Ok (rb_scopes st, rb_items st)).
End Bulk.
