(* ===== verification/BulkSpec.v ===== *)
(** * Wipe and the bulk writes keep the store's invariant

  Detaching every buffer and starting from an empty map (wipe, /rebuild), and
  the commit loop of /warm under its shard locks. *)
From S2P Require Import Prelude GoStd Uuid Types Validation Buffer BufferInv BufferSpec.
From S2P Require Import BufferWrite BufferWriteSpec BufferRead BufferReplace BufferReplaceSpec.
From S2P Require Import Clock Store StoreInv StoreSpec Events Bulk.

Section Bulk.
Context `{EV : Env} `{CP : Caps} `{SH : ScopeHash} `{EM : EventMarshal} `{CO : !CapsOk}.

(** ** Every shard together *)
Lemma concat_elem {A} (x : A) ls : x ∈ concat ls ↔ ∃ l, l ∈ ls ∧ x ∈ l.
Proof.
  rewrite list_elem_of_In, in_concat. split; intros (l & H1 & H2); exists l;
    rewrite ?list_elem_of_In in *; by rewrite <- ?list_elem_of_In in *.
Qed.

Lemma concat_maps_NoDup (ms : list (gmap string nat)) :
  (∀ i j m m' k, ms !! i = Some m → ms !! j = Some m' → is_Some (m !! k) → is_Some (m' !! k) → i = j) →
  NoDup (concat (map_to_list <$> ms)).
Proof.
  induction ms as [|m ms IH]; intros Hu; [constructor|]. cbn. apply NoDup_app.
  split; [apply NoDup_map_to_list|]. split.
  - intros [k p] Hm%elem_of_map_to_list (l & (m' & -> & Hm')%list_elem_of_fmap & Hp)%concat_elem.
    apply elem_of_map_to_list in Hp. apply list_elem_of_lookup in Hm' as [j Hj].
    by specialize (Hu 0%nat (S j) m m' k eq_refl Hj ltac:(by eexists) ltac:(by eexists)).
  - apply IH. intros i j m1 m2 k H1 H2 H3 H4. by specialize (Hu (S i) (S j) m1 m2 k H1 H2 H3 H4) as [= ->].
Qed.

Lemma shards_perm s : placed s → concat (map_to_list <$> shards s) ≡ₚ map_to_list (scopes s).
Proof.
  intros P. apply NoDup_Permutation; [|apply NoDup_map_to_list|].
  - apply concat_maps_NoDup. intros i j m m' k Hi Hj Hm Hm'.
    rewrite <- (proj2 P i m k Hi Hm). by eapply P.
  - intros [k p]. rewrite concat_elem, elem_of_map_to_list, scopes_lookup by done. split.
    + intros (l & (m & -> & [i Hi]%list_elem_of_lookup)%list_elem_of_fmap & Hp%elem_of_map_to_list).
      unfold getScope, shardFor. rewrite (proj2 P i m k) by (done || by eexists).
      by rewrite (list_lookup_total_correct _ _ _ Hi).
    + intros Hp. exists (map_to_list (shardFor s k)). split; [|by apply elem_of_map_to_list].
      apply list_elem_of_fmap_2. eapply list_elem_of_lookup_2. by apply shard_lookup.
Qed.

Lemma mapped_concat s : mapped s = (concat (map_to_list <$> shards s)).*2.
Proof.
  unfold mapped. induction (shards s) as [|m l IH]; [done|]. cbn. rewrite fmap_app. by f_equal.
Qed.
Lemma mapped_elem s p : placed s → p ∈ mapped s ↔ ∃ k, scopes s !! k = Some p.
Proof.
  intros P. rewrite mapped_concat, (shards_perm s P), list_elem_of_fmap. split.
  - intros ([k q] & -> & Hq%elem_of_map_to_list). eauto.
  - intros [k Hk]. exists (k, p). split; [done|]. by apply elem_of_map_to_list.
Qed.
Lemma mapped_sum s f : placed s → zsum f (mapped s) = msum (λ _ p, f p) (scopes s).
Proof. intros P. rewrite mapped_concat, zsum_map. unfold msum. by apply zsum_perm, shards_perm. Qed.
Lemma shards_size s : placed s →
  zsum (λ m : gmap string nat, Z.of_nat (size m)) (shards s) = Z.of_nat (size (scopes s)).
Proof.
  intros P. rewrite <- (length_map_to_list (scopes s)), <- (shards_perm s P).
  induction (shards s) as [|m l IH]; [done|]. cbn. rewrite length_app, length_map_to_list, IH. lia.
Qed.

(** ** Detaching every mapped buffer *)
Lemma detach_idem b : detach (detach b) = detach b.
Proof. done. Qed.
Lemma detach_fold (l : list nat) (m : gmap nat scopeBuffer) q :
  foldl (λ m p, <[p := detach (m !!! p)]> m) m l !!! q
  = if decide (q ∈ l) then detach (m !!! q) else m !!! q.
Proof.
  revert m. induction l as [|p l IH]; intros m; cbn [foldl]; [done|]. rewrite IH.
  destruct (decide (q = p)) as [->|Hne].
  - rewrite lookup_total_insert_eq, (decide_True (P := p ∈ p :: l)) by (by left).
    by destruct (decide (p ∈ l)); rewrite ?detach_idem.
  - rewrite lookup_total_insert_ne by done. destruct (decide (q ∈ l)) as [Hq|Hq].
    + by rewrite (decide_True (P := q ∈ p :: l)) by (by right).
    + rewrite (decide_False (P := q ∈ p :: l)); [done|]. by intros [->|?]%elem_of_cons.
Qed.

Definition detached_bufs (s : store) : gmap nat scopeBuffer :=
  foldl (λ m p, <[p := detach (m !!! p)]> m) (bufs s) (mapped s).

Lemma detached_at s p : placed s → detached_bufs s !!! p =
  if decide (p ∈ mapped s) then detach (buf_at s p) else buf_at s p.
Proof. intros P. apply detach_fold. Qed.

(** Once every mapped buffer is detached and no old pointer is mapped again,
    every pointer a goroutine holds is dead. *)
Lemma extends_cut s s' : placed s → (nextb s ≤ nextb s')%nat →
  (∀ p, (p < nextb s)%nat → (∃ k, published s k p) → buf_at s' p = detached_bufs s !!! p) →
  (∀ k, is_Some (scopes s !! k) → ∃ p, scopes s !! k = Some p ∧ (p < nextb s)%nat) →
  (∀ k p, scopes s' !! k = Some p → ∀ k', ¬ published s k' p) → extends s s'.
Proof.
  intros P Hn Hb Hlt Hnew k p Hp. right.
  assert (p < nextb s)%nat as Hpn.
  { destruct Hp as [Hk|(? & _)]; [|done]. destruct (Hlt k) as (p' & ? & ?); [by eexists|congruence]. }
  split; [lia|]. split.
  - rewrite Hb by eauto. rewrite detached_at by done. case_decide as Hm; [done|].
    destruct Hp as [Hk|(_ & Hg & _)]; [|done]. exfalso. apply Hm, mapped_elem; eauto.
  - intros k' Hk'. by apply (Hnew k' p Hk' k).
Qed.

(** ** wipe *)
Definition wiped (s : store) : store :=
  mkstore (detached_bufs s) (nextb s) (replicate numShards ∅)
    (acct_bump (clk_micro (s_tick s)) (reset_counters 0 0 0 (s_acct s))) (S (s_tick s))
    (subscribers s) (chans s).

Lemma wipe_run s : wipe s =
  ((zsum (λ m, Z.of_nat (size m)) (shards s), zsum (count s) (mapped s), totalBytes (s_acct s)),
   (initReservedScopesLocked (wiped s)).2).
Proof.
  unfold wipe. rewrite bind_get. unfold bind at 1, detach_all, modify at 1.
  unfold bind at 1, modify_counters, modify at 1. rewrite bind_now_s.
  erewrite bind_counters by apply bump_run. unfold bind at 1, modify at 1.
  unfold bind, ret. by destruct (initReservedScopesLocked _).
Qed.

(** What wipe promises: the totals it reports are those of the store it
    emptied; only the reserved scopes are left, new and empty; every pointer
    taken before is dead. *)
Record wipe_post (s : store) (r : Z * Z * Z) (s' : store) : Prop := {
  wp_report : r = (scopeCount (s_acct s), totalItems (s_acct s), totalBytes (s_acct s));
  wp_inv : store_inv s';
  wp_scopes : ∀ k, is_Some (scopes s' !! k) ↔ isReservedScope k = true;
  wp_empty : ∀ k p, scopes s' !! k = Some p → view (buf_at s' p) = [];
  wp_bytes : totalBytes (s_acct s') = reservedScopesOverhead;
  wp_items : totalItems (s_acct s') = 0;
  wp_subs : subscribers s' = subscribers s ∧ chans s' = chans s;
  wp_ptrs : extends s s';
  wp_dead : ∀ k p, published s k p → gone (buf_at s' p);
}.

Lemma init_scopes R s s' k : initialised R s s' → scopes s = ∅ → store_inv_on R s' →
  is_Some (scopes s' !! k) ↔ k ∈ R.
Proof.
  intros N E I. split; [|apply (si_reserved _ I)].
  intros [p Hp]. apply (in_scopes _ _ _ N) in Hp. rewrite E, lookup_empty in Hp. naive_solver.
Qed.

Lemma wipe_core s : ahead 0 0 s → wipe_post s (wipe s).1 (wipe s).2.
Proof.
  intros I. rewrite wipe_run. cbn [fst snd].
  destruct (blank_inv (detached_bufs s) (nextb s)
    (acct_bump (clk_micro (s_tick s)) (reset_counters 0 0 0 (s_acct s))) (S (s_tick s))
    (subscribers s) (chans s)) as [I1 E1]; [done..|]. fold (wiped s) in I1, E1.
  destruct (init_all_spec (λ s, store_lastWriteTS (s_acct s)) (wiped s) I1) as [I2 N].
  { intros k _. by rewrite E1, lookup_empty. }
  { cbn. pose proof co_min. lia. }
  fold initReservedScopesLocked in I2, N. set (s2 := (initReservedScopesLocked (wiped s)).2) in *.
  assert (∀ k p, scopes s2 !! k = Some p → (nextb s ≤ p)%nat) as Hnew.
  { intros k p Hp. apply (in_scopes _ _ _ N) in Hp. rewrite E1, lookup_empty in Hp. naive_solver. }
  assert (∀ p, (p < nextb s)%nat → buf_at s2 p = detached_bufs s !!! p) as Hold
    by (intros p Hp; apply (in_old _ _ _ N p Hp)).
  assert (∀ k p, published s k p → (p < nextb s)%nat) as Hlt.
  { intros k p [Hk|[? _]]; [by eapply (sk_live _ _ _ _ I)|done]. }
  assert (extends s s2) as X.
  { apply extends_cut; [apply I|apply N|auto| |].
    - intros k [p Hp]. exists p. split; [done|]. by eapply (sk_live _ _ _ _ I).
    - intros k p Hp k' Hk'. specialize (Hnew k p Hp). specialize (Hlt k' p Hk'). lia. }
  constructor; try done.
  - rewrite shards_size, mapped_sum by apply I. rewrite (sk_count _ _ _ _ I), (sk_items _ _ _ _ I), Z.sub_0_r. done.
  - intros k. rewrite reserved_elem. by eapply init_scopes.
  - intros k p Hp. assert (k ∈ reservedScopeNames) as Hk by (by eapply init_scopes; eauto).
    destruct (in_bufs _ _ _ N k p Hk Hp) as (t & ts & ->). done.
  - rewrite (in_bytes _ _ _ N). done.
  - rewrite (in_items _ _ _ N). done.
  - apply N.
  - intros k p Hp. destruct (X k p Hp) as [Hk|(_ & ? & _)]; [|done].
    specialize (Hnew k p Hk). specialize (Hlt k p Hp). lia.
Qed.

Lemma wipe_spec s : store_inv s → wipe_post s (wipe s).1 (wipe s).2.
Proof. intros [C _]%inv_core. by apply wipe_core. Qed.

(** ** One entry of a batch *)
Lemma check_items_spec endpoint scope i items items' :
  check_items endpoint scope i items = Ok items' ↔
  items' = fillRenderBytes <$> items ∧
  Forall (λ it, validateWriteItem it endpoint maxItemBytes = Ok (fillRenderBytes it) ∧
                Scope it = scope) items.
Proof.
  revert i items'. induction items as [|it items IH]; intros i items'; cbn [check_items fmap list_fmap].
  { split; [intros [= <-]; by split; constructor|]. by intros [-> _]. }
  rewrite Forall_cons. destruct (validateWriteItem it endpoint maxItemBytes) as [it'|e] eqn:E.
  2:{ split; [done|]. by intros (_ & [? _] & _). }
  assert (it' = fillRenderBytes it) as -> by (by apply validateWriteItem_spec in E; naive_solver).
  pose proof (fillRenderBytes_fields it) as (-> & _).
  case_bool_decide as Hs; cbn [negb]; [|split; [done|]; by intros (_ & [_ ?] & _)].
  specialize (IH (i + 1)). destruct (check_items _ _ _ items) as [l|e].
  - split; [intros [= <-]|intros (-> & _ & HF)].
    + destruct (proj1 (IH l) eq_refl) as [-> HF]. done.
    + f_equal. destruct (proj1 (IH l) eq_refl) as [-> _]. done.
  - split; [done|]. intros (-> & _ & HF). by specialize (proj2 (IH _) (conj eq_refl HF)).
Qed.

Lemma check_entry_spec endpoint msg scope items items' :
  check_entry endpoint msg scope items = Ok items' ↔
  validateScope scope endpoint = Ok tt ∧ isReservedScope scope = false ∧
  items' = fillRenderBytes <$> items ∧
  Forall (λ it, validateWriteItem it endpoint maxItemBytes = Ok (fillRenderBytes it) ∧
                Scope it = scope) items.
Proof.
  unfold check_entry. destruct (wrapValidation (validateScope scope endpoint)) as [[]|e] eqn:E.
  - apply wrapValidation_ok in E. rewrite E.
    destruct (isReservedScope scope); [split; [done|]; naive_solver|].
    rewrite check_items_spec. naive_solver.
  - split; [done|]. intros (Hv & _). by rewrite Hv in E.
Qed.

(** An upper bound of the stored size of a source item. *)
Definition built_size (src : Item) : Z :=
  84 + slen (Scope src) + slen (ID src) + blen (Payload src)
  + blen (render_of (renderBytes src) (Payload src)).

Lemma render_of_fill it :
  render_of (renderBytes (fillRenderBytes it)) (Payload (fillRenderBytes it))
  = render_of (renderBytes it) (Payload it).
Proof.
  unfold fillRenderBytes, render_of. destruct it as [? ? ? ? ? ? [] ?]; cbn; [done|].
  by destruct (precomputeRenderBytes _).
Qed.
Lemma built_size_fill it : built_size (fillRenderBytes it) = built_size it.
Proof.
  unfold built_size. rewrite render_of_fill.
  by destruct (fillRenderBytes_fields it) as (-> & -> & _ & _ & _ & -> & _).
Qed.
Lemma built_size_pos it : 84 ≤ built_size it.
Proof.
  unfold built_size. pose proof (slen_nonneg (Scope it)). pose proof (slen_nonneg (ID it)).
  pose proof (blen_nonneg (Payload it)). pose proof (blen_nonneg (render_of (renderBytes it) (Payload it))).
  lia.
Qed.

(** The items a replacement was built from. *)
Definition built_from (l l' : list Item) : Prop :=
  length l' = length l ∧
  ∀ i it, l' !! i = Some it → ∃ src, l !! i = Some src ∧ Seq it = Z.of_nat i + 1 ∧
    counter it = None ∧ Scope it = Scope src ∧ ID it = ID src ∧ Payload it = Payload src ∧
    renderBytes it = render_of (renderBytes src) (Payload src) ∧
    (IsZero (Uuid src) = false → Uuid it = Uuid src).

Lemma built_from_size l l' : built_from l l' → zsum approxItemSize l' ≤ zsum built_size l.
Proof.
  revert l. induction l' as [|it l' IH] using rev_ind; intros l [Hlen Hf].
  { cbn. apply zsum_nonneg. intros x _. pose proof (built_size_pos x). lia. }
  rewrite length_app in Hlen. cbn in Hlen.
  destruct (Hf (length l') it) as (src & Hsrc & _ & Hc & E1 & E2 & E3 & E4 & _).
  { rewrite lookup_app_r, Nat.sub_diag by done. done. }
  destruct l as [|x l0 _] using rev_ind; [done|].
  rewrite length_app in Hlen. cbn in Hlen.
  rewrite lookup_app_r in Hsrc by lia. replace (length l' - length l0)%nat with 0%nat in Hsrc by lia.
  injection Hsrc as ->.
  assert (zsum approxItemSize l' ≤ zsum built_size l0).
  { apply IH. split; [lia|]. intros i it0 Hi. pose proof (lookup_lt_Some _ _ _ Hi).
    destruct (Hf i it0) as (src0 & Hs0 & Hr); [by rewrite lookup_app_l|].
    exists src0. rewrite lookup_app_l in Hs0; [done|]. rewrite Nat.add_cancel_r in Hlen. by rewrite <- Hlen. }
  rewrite !zsum_app. cbn [zsum]. rewrite approxItemSize_eq, Hc, E1, E2, E3, E4. unfold built_size at 2.
  destruct (IsZero (Uuid it)); lia.
Qed.

Lemma build_ok l t r t' : buildReplacementState l true t = (Ok r, t') →
  zsum built_size l ≤ MaxInt64 →
  ∃ l', built_from l l' ∧ repl_ok r l' ∧ batch_fits l' ∧ (t ≤ t')%nat.
Proof.
  intros E Hfit. assert (t ≤ t')%nat as Ht.
  { pose proof (mono_buildReplacementState l true t) as M. by rewrite E in M. }
  destruct (decide (l = [])) as [->|Hne].
  { cbn in E. injection E as <- <-. exists []. split; [by split|]. split; [apply empty_repl_ok|].
    split; [|done]. unfold batch_fits, MaxInt64. cbn [zsum]. lia. }
  assert (built_from l (batch_items true l t).1) as Hb.
  { unfold batch_items. split; [by rewrite built_items_length|]. intros i it Hi.
    destruct (built_items_lookup _ _ _ _ _ _ _ Hi) as (src & ? & ? & ? & _ & ? & ? & ? & ? & ?).
    exists src. split; [done|]. split; [lia|]. auto 10. }
  assert (batch_fits (batch_items true l t).1) as Hf.
  { unfold batch_fits. pose proof (built_from_size _ _ Hb). lia. }
  pose proof (buildReplacementState_spec true l t Hne Hf) as HB. rewrite E in HB. cbv zeta in HB.
  destruct HB as (_ & _ & R & _). eauto.
Qed.
End Bulk.
