(* ===== verification/RebuildSpec.v ===== *)
(** * /rebuild: staging off the store, then the swap under every lock *)
From S2P Require Import Prelude GoStd Uuid Types Validation Buffer BufferInv BufferSpec.
From S2P Require Import BufferWrite BufferWriteSpec BufferRead BufferReplace BufferReplaceSpec.
From S2P Require Import Clock Store StoreInv StoreSpec Events Bulk BulkSpec.

Section Rebuild.
Context `{EV : Env} `{CP : Caps} `{SH : ScopeHash} `{EM : EventMarshal} `{CO : !CapsOk}.

(** The store the staged maps would make, over the same arena. *)
Definition staged_view (st : rebuild_state) (s : store) : store :=
  mkstore (bufs s) (nextb s) (rb_maps st) (mkacct (rb_bytes st) (rb_items st) (rb_scopes st) 0 0)
    (s_tick s) ∅ ∅.
Definition staged_scopes (st : rebuild_state) (s : store) : gmap string nat :=
  scopes (staged_view st s).

(** Phase 1's state: exact counters, user scopes only, and buffers that no
    other goroutine can reach. *)
Record staged (st : rebuild_state) (s : store) : Prop := {
  sg_core : store_core 0 0 [] (staged_view st s);
  sg_user : ∀ k p, staged_scopes st s !! k = Some p → isReservedScope k = false;
  sg_private : ∀ k p, staged_scopes st s !! k = Some p → ∀ k', ¬ published s k' p;
  sg_index : ∀ k p, staged_scopes st s !! k = Some p → uuid_ok (buf_at s p);
}.

Lemma filled_live k r l' t tick : isReservedScope k = false → repl_ok r l' → batch_fits l' →
  (∀ it, it ∈ l' → Scope it = k) → Z.of_nat (length l') ≤ defaultMaxItems →
  let b := fill_unshared r (zsum approxItemSize l') (newborn defaultMaxItems maxItemBytes t) in
  live_buf k tick b ∧ view b = fresh_content l' ∧ bytes b = zsum approxItemSize l' ∧
  length (items b) = length l' ∧ uuid_ok b.
Proof.
  intros Hr R Hfit Hs Hn b. destruct (newborn_live k tick t Hr) as [_ Ha Hd _ HmI HmB _ _].
  destruct (adopt_wf r l' _ 0 (newborn defaultMaxItems maxItemBytes t) R Hfit eq_refl)
    as (W & U & _ & V & L).
  set (b0 := adopt _ _ _ _) in *.
  assert (items b = items b0) as Ei by done.
  assert (length (items b) = length l') as El.
  { change (items b) with (r_items r). by rewrite (rk_items _ _ R), length_seq. }
  assert (buf_wf b) as Wb by (apply (wf_frame b0); done).
  split; [|split; [|split; [done|split; [done|exact U]]]].
  - constructor; try done.
    + intros p Hp. apply Hs. change (items b) with (r_items r) in Hp. rewrite (rk_items _ _ R) in Hp.
      change (deref b p) with (r_heap r !!! p). eapply list_elem_of_lookup_2, heap_lookup; [apply R|done].
    + right. rewrite El. exact Hn.
    + change (lastSeq b) with (lastSeq b0). rewrite L. destruct (fits_length _ Hfit). lia.
  - rewrite <- V. by apply view_frame.
Qed.

(** Staging one scope. *)
Definition stage_state (k : string) (r : scopeReplacement) (st : rebuild_state) (s : store) : store :=
  mkstore (<[nextb s := fill_unshared r (sumItemBytes r)
               (newborn defaultMaxItems maxItemBytes (clk_micro (s_tick s)))]> (bufs s))
    (S (nextb s)) (shards s) (s_acct s) (S (s_tick s)) (subscribers s) (chans s).
Definition stage_next (k : string) (r : scopeReplacement) (st : rebuild_state) (s : store) : rebuild_state :=
  let i := shardIdxFor k in
  mkrebuild (<[i := <[k := nextb s]> (rb_maps st !!! i)]> (rb_maps st))
    (rb_scopes st + 1) (rb_items st + Z.of_nat (length (r_items r)))
    (i64 (i64 (rb_bytes st + sumItemBytes r) + scopeBufferOverhead)) (rb_offenders st).

Lemma stage_run k r st s {A} (c : rebuild_state → SM A) :
  (let* buf := store_newscopeBuffer in
   modify_buf_at buf (fill_unshared r (sumItemBytes r)) ;;;
   let i := shardIdxFor k in
   c (mkrebuild (<[i := <[k := buf]> (rb_maps st !!! i)]> (rb_maps st))
        (rb_scopes st + 1) (rb_items st + Z.of_nat (length (r_items r)))
        (i64 (i64 (rb_bytes st + sumItemBytes r) + scopeBufferOverhead)) (rb_offenders st))) s
  = c (stage_next k r st s) (stage_state k r st s).
Proof.
  unfold bind at 1. rewrite new_run, bind_buf_at. unfold stage_state, buf_at. store_fields.
  by rewrite lookup_total_insert_eq, insert_insert_eq.
Qed.

Lemma stage_state_at k r st s q : q ≠ nextb s → buf_at (stage_state k r st s) q = buf_at s q.
Proof. intros. unfold buf_at. cbn. by apply lookup_total_insert_ne. Qed.
Lemma stage_state_new k r st s : buf_at (stage_state k r st s) (nextb s) =
  fill_unshared r (sumItemBytes r) (newborn defaultMaxItems maxItemBytes (clk_micro (s_tick s))).
Proof. unfold buf_at. cbn. by rewrite lookup_total_insert_eq. Qed.
Lemma stage_same k r st s : same_content s (stage_state k r st s).
Proof.
  constructor; try done; try (cbn; lia). intros p Hp. apply stage_state_at. lia.
Qed.

Lemma private_same s s' k p : store_inv s → same_content s s' → detached (buf_at s' p) = false →
  ¬ published s k p → ¬ published s' k p.
Proof.
  intros I C Hd Hp. destruct (same_inv s s' I C) as (_ & HS & _). unfold published. rewrite HS.
  intros [Hk|(_ & [_ Hg] & _)]; [|congruence]. apply Hp. by left.
Qed.
Lemma fresh_private s k : store_inv s → ¬ published s k (nextb s).
Proof. intros I [Hk|[Hn _]]; [|lia]. destruct (si_live _ I k _ Hk). lia. Qed.

Lemma stage_ok k r l' st s : store_inv s → staged st s → staged_scopes st s !! k = None →
  isReservedScope k = false → repl_ok r l' → batch_fits l' → (∀ it, it ∈ l' → Scope it = k) →
  Z.of_nat (length l') ≤ defaultMaxItems → 0 ≤ rb_bytes st →
  rb_bytes st + zsum approxItemSize l' + scopeBufferOverhead ≤ MaxInt64 →
  let s' := stage_state k r st s in let st' := stage_next k r st s in
  staged st' s' ∧ staged_scopes st' s' = <[k := nextb s]> (staged_scopes st s) ∧
  view (buf_at s' (nextb s)) = fresh_content l' ∧
  rb_bytes st' = rb_bytes st + (zsum approxItemSize l' + scopeBufferOverhead).
Proof.
  intros I G Hk Hr R Hfit Hs Hn H0 Hmax s' st'. destruct G as [C U Pv X].
  destruct (filled_live k r l' (clk_micro (s_tick s)) (S (s_tick s)) Hr R Hfit Hs Hn)
    as (L & V & B & N & IX).
  assert (0 ≤ zsum approxItemSize l').
  { apply zsum_nonneg. intros x _. pose proof (approxItemSize_pos x). lia. }
  assert (sumItemBytes r = zsum approxItemSize l') as Esum by (by apply sumItemBytes_spec).
  assert (rb_bytes st' = rb_bytes st + (zsum approxItemSize l' + scopeBufferOverhead)) as Eb.
  { unfold st', stage_next. cbn. rewrite Esum. unfold scopeBufferOverhead in *.
    rewrite !i64_id; unfold in_i64, MinInt64 in *; unfold MaxInt64 in *; try lia.
    rewrite i64_id; unfold in_i64, MinInt64 in *; unfold MaxInt64 in *; lia. }
  assert (buf_at s' (nextb s) = fill_unshared r (zsum approxItemSize l')
    (newborn defaultMaxItems maxItemBytes (clk_micro (s_tick s)))) as En
    by (unfold s'; by rewrite stage_state_new, Esum).
  destruct (put_scope_spec (staged_view st s) k (nextb s) (sk_placed _ _ _ _ C)) as [P' E'].
  destruct (placed_shards ((put_scope k (nextb s) (staged_view st s)).2) (staged_view st' s') eq_refl)
    as (HP & HS & _). rewrite E' in HS. apply HP in P'. clear HP E'.
  assert (count (staged_view st' s') (nextb s) = Z.of_nat (length l')) as Ec.
  { unfold count. change (buf_at (staged_view st' s') (nextb s)) with (buf_at s' (nextb s)).
    by rewrite En, N. }
  assert (Z.of_nat (length (r_items r)) = Z.of_nat (length l')) as Er
    by (by rewrite (rk_items _ _ R), length_seq).
  pose proof (core_add 0 0 (staged_view st s) k (nextb s) (staged_view st' s') C Hk P' HS
    ltac:(cbn; lia) ltac:(cbn; lia) ltac:(cbn; lia)) as C'.
  assert (staged st' s') as G'.
  { assert (store_core 0 0 [] (staged_view st' s')) as Cn.
    { ospecialize (C' _ _ _).
      - intros k' p Hk'. change (buf_at s' p = buf_at s p). apply stage_state_at. destruct (sk_live _ _ _ _ C k' p Hk') as [_ Hlt].
        cbn in Hlt. lia.
      - cbn [s_tick staged_view]. change (buf_at (staged_view st' s') (nextb s)) with (buf_at s' (nextb s)).
        by rewrite En.
      - rewrite Ec, <- Er. done.
      - unfold charge in C'. change (buf_at (staged_view st' s') (nextb s)) with (buf_at s' (nextb s)) in C'.
        rewrite En, B in C'. cbn [totalBytes s_acct staged_view scopeCount] in C'. rewrite Eb in C'.
        replace (0 + _ - _) with 0 in C' by lia.
        replace (0 + 1 - _) with 0 in C' by (unfold st', stage_next; cbn; lia).
        destruct C'. constructor; try done. by intros k' Hk'%elem_of_nil. }
    constructor; [done| | |].
    - intros k' p. unfold staged_scopes. rewrite HS, lookup_insert_Some.
      intros [[<- _]|[_ Hk']]; [done|by eapply U].
    - intros k' p Hk' k2. apply (private_same s); [done|apply stage_same| |].
      + by apply (sk_live _ _ _ _ Cn k' p).
      + unfold staged_scopes in Hk'. rewrite HS, lookup_insert_Some in Hk'.
        destruct Hk' as [[_ <-]|[Hne Hk']]; [by apply fresh_private|by eapply Pv].
    - intros k' p. unfold staged_scopes. rewrite HS, lookup_insert_Some.
      intros [[_ <-]|[_ Hk']]; [by rewrite En|].
      destruct (sk_live _ _ _ _ C k' p Hk') as [_ Hlt]. cbn in Hlt.
      unfold s'. rewrite stage_state_at by lia. by eapply X. }
  split; [done|]. split; [exact HS|]. split; [by rewrite En|done].
Qed.

(** ** Phase 1 *)
Definition at_tick (t : nat) (s : store) : store :=
  mkstore (bufs s) (nextb s) (shards s) (s_acct s) t (subscribers s) (chans s).

Lemma at_tick_same t s : (s_tick s ≤ t)%nat → same_content s (at_tick t s).
Proof. by constructor. Qed.
Lemma staged_tick st s t : store_inv s → staged st s → (s_tick s ≤ t)%nat → staged st (at_tick t s).
Proof.
  intros I [C U Pv X] Ht. constructor; [|done| |exact X].
  - destruct C as [? HL]. constructor; try done. intros k p Hk. destruct (HL k p Hk). split; [|done].
    by eapply live_mono.
  - intros k p Hk k'. apply (private_same s); [done|by apply at_tick_same| |by eapply Pv].
    by apply (sk_live _ _ _ _ C k p).
Qed.

Lemma bind_on_tick {A B} (m : ST nat A) (k : A → SM B) s x t : m (s_tick s) = (x, t) →
  bind (on_tick m) k s = k x (at_tick t s).
Proof. intros E. unfold bind, on_tick. by rewrite E. Qed.

Definition batch_weight (g : batch) : Z := zsum (λ e, scopeBufferOverhead + zsum built_size e.2) g.

Lemma batch_weight_nonneg g : 0 ≤ batch_weight g.
Proof.
  apply zsum_nonneg. intros e _. unfold scopeBufferOverhead.
  assert (0 ≤ zsum built_size e.2); [|lia]. apply zsum_nonneg. intros x _. pose proof (built_size_pos x). lia.
Qed.

Lemma built_from_fill l l' : built_from (fillRenderBytes <$> l) l' → built_from l l'.
Proof.
  intros [Hlen Hf]. rewrite length_fmap in Hlen. split; [done|]. intros i it Hi.
  destruct (Hf i it Hi) as (src' & Hs & ? & ? & E1 & E2 & E3 & E4 & E5).
  rewrite list_lookup_fmap in Hs. destruct (l !! i) as [src|]; [|done]. injection Hs as <-.
  destruct (fillRenderBytes_fields src) as (F1 & F2 & _ & _ & F5 & F6 & _).
  exists src. rewrite render_of_fill in E4. rewrite F1 in E1. rewrite F2 in E2. rewrite F5 in E5.
  rewrite F6 in E3. auto 10.
Qed.

Lemma built_from_scope k l l' : built_from l l' → Forall (λ it, Scope it = k) l →
  ∀ it, it ∈ l' → Scope it = k.
Proof.
  intros [_ Hf] HF it [i Hi]%list_elem_of_lookup.
  destruct (Hf i it Hi) as (src & Hs & _ & _ & -> & _). exact (Forall_lookup_1 _ _ _ _ HF Hs).
Qed.

(** One entry of the batch with nothing staged yet for its scope. *)
Record entry_accepted (endpoint : string) (e : string * list Item) : Prop := {
  ea_scope : validateScope e.1 endpoint = Ok tt;
  ea_user : isReservedScope e.1 = false;
  ea_items : Forall (λ it, validateWriteItem it endpoint maxItemBytes = Ok (fillRenderBytes it) ∧
                           Scope it = e.1) e.2;
  ea_count : Z.of_nat (length e.2) ≤ defaultMaxItems;
}.

(** What phase 1 has staged for the entries of [g]. *)
Record staged_for (g : batch) (st : rebuild_state) (s : store) (st' : rebuild_state) (s' : store)
    : Prop := {
  sf_keep : ∀ k p, staged_scopes st s !! k = Some p →
    staged_scopes st' s' !! k = Some p ∧ buf_at s' p = buf_at s p;
  sf_only : ∀ k p, staged_scopes st' s' !! k = Some p → staged_scopes st s !! k = Some p ∨ k ∈ g.*1;
  sf_new : ∀ k l, (k, l) ∈ g → entry_accepted "/rebuild" (k, l) ∧
    ∃ p l', staged_scopes st' s' !! k = Some p ∧ built_from l l' ∧
      view (buf_at s' p) = fresh_content l';
  sf_scopes : rb_scopes st' = rb_scopes st + Z.of_nat (length g);
  sf_items : rb_items st' = rb_items st + zsum (λ e, Z.of_nat (length e.2)) g;
}.

Lemma staged_for_nil st s : staged_for [] st s st s.
Proof. constructor; try done; cbn; auto; try lia. intros k l []%elem_of_nil. Qed.

Lemma staged_for_cons k l g st s st1 s1 st2 s2 p l' :
  staged_scopes st1 s1 = <[k := p]> (staged_scopes st s) → staged_scopes st s !! k = None →
  (∀ q k', staged_scopes st s !! k' = Some q → buf_at s1 q = buf_at s q) →
  entry_accepted "/rebuild" (k, l) → built_from l l' → view (buf_at s1 p) = fresh_content l' →
  rb_scopes st1 = rb_scopes st + 1 → rb_items st1 = rb_items st + Z.of_nat (length l) →
  staged_for g st1 s1 st2 s2 → staged_for ((k, l) :: g) st s st2 s2.
Proof.
  intros E1 Hk Hold Ha Hb Hv Hsc Hit [K O N S T]. constructor.
  - intros k' q Hq. destruct (K k' q) as [K1 K2].
    { rewrite E1, lookup_insert_ne; [done|]. intros ->. congruence. }
    split; [done|]. rewrite K2. by eapply Hold.
  - intros k' q Hq. cbn. destruct (O k' q Hq) as [Hq'|Hin]; [|right; by right].
    rewrite E1, lookup_insert_Some in Hq'. destruct Hq' as [[-> _]|[_ ?]]; [right; by left|by left].
  - intros k' m [[= -> ->]|Hin]%elem_of_cons; [|by apply N]. split; [done|].
    destruct (K k p) as [K1 K2]; [by rewrite E1, lookup_insert_eq|].
    exists p, l'. rewrite K2. done.
  - rewrite S, Hsc. cbn [length]. lia.
  - rewrite T, Hit. cbn [zsum snd]. lia.
Qed.

Lemma rebuild_phase1_spec g st s : store_inv s → staged st s → NoDup g.*1 →
  (∀ k, k ∈ g.*1 → staged_scopes st s !! k = None) → 0 ≤ rb_bytes st →
  rb_bytes st + batch_weight g ≤ MaxInt64 →
  let '(r, s') := rebuild_phase1 g st s in
  same_content s s' ∧
  match r with
  | Err _ => True
  | Ok st' => staged st' s' ∧ 0 ≤ rb_bytes st' ≤ rb_bytes st + batch_weight g ∧
      (rb_offenders st' = [] → rb_offenders st = [] ∧ staged_for g st s st' s')
  end.
Proof.
  revert st s. induction g as [|[k l] g IH]; intros st s I G Hnd Hfree H0 Hmax.
  { cbn. split; [apply same_refl|]. split; [done|]. split; [lia|]. intros. split; [done|apply staged_for_nil]. }
  pose proof (batch_weight_nonneg g) as Hw. cbn [rebuild_phase1].
  change (batch_weight ((k, l) :: g)) with (scopeBufferOverhead + zsum built_size l + batch_weight g) in *.
  assert (scopeBufferOverhead = 1024) as Eo by done.
  assert (0 ≤ zsum built_size l) as Hl by (apply zsum_nonneg; intros x _; pose proof (built_size_pos x); lia).
  rewrite fmap_cons in Hnd, Hfree. apply NoDup_cons in Hnd as [Hk Hnd].
  destruct (check_entry _ _ k l) as [l1|e] eqn:Ec; [|by split; [apply same_refl|]].
  apply check_entry_spec in Ec as (Hv & Hr & -> & HF). rewrite length_fmap.
  destruct (Z.ltb_spec defaultMaxItems (Z.of_nat (length l))) as [Hbig|Hn].
  { set (st0 := mkrebuild _ _ _ _ _). assert (rb_bytes st0 = rb_bytes st) as E0 by done.
    specialize (IH st0 s I). destruct G as [C U Pv X].
    ospecialize (IH _ Hnd _ H0 _); [by constructor|intros; apply Hfree; by right|cbn; lia|].
    destruct (rebuild_phase1 g st0 s) as [[st'|e] s']; [|done]. destruct IH as (? & ? & ? & Ho).
    split; [done|]. split; [done|]. split; [rewrite E0 in *; lia|]. intros E. exfalso.
    destruct (Ho E) as [E' _]. cbn in E'. by destruct (rb_offenders st). }
  destruct (buildReplacementState (fillRenderBytes <$> l) true (s_tick s)) as [r t] eqn:Eb.
  erewrite bind_on_tick by exact Eb.
  assert (s_tick s ≤ t)%nat as Ht.
  { pose proof (mono_buildReplacementState (fillRenderBytes <$> l) true (s_tick s)) as M. by rewrite Eb in M. }
  set (s1 := at_tick t s). pose proof (at_tick_same t s Ht) as C1. fold s1 in C1.
  destruct r as [r|e]; [|by split].
  destruct (same_inv s s1 I C1) as (I1 & _ & _). pose proof (staged_tick st s t I G Ht) as G1. fold s1 in G1.
  destruct (build_ok _ _ _ _ Eb) as (l' & Hbf & R & Hfit & _).
  { rewrite zsum_map, (zsum_ext (λ x, built_size (fillRenderBytes x)) built_size) by (intros; apply built_size_fill). lia. }
  pose proof (built_from_size _ _ Hbf) as Hsz.
  rewrite zsum_map, (zsum_ext (λ x, built_size (fillRenderBytes x)) built_size) in Hsz by (intros; apply built_size_fill).
  apply built_from_fill in Hbf.
  assert (∀ it, it ∈ l' → Scope it = k) as Hsc.
  { eapply built_from_scope; [done|]. eapply Forall_impl; [exact HF|]. by intros x [_ ?]. }
  rewrite stage_run. assert (0 ≤ zsum approxItemSize l') as Hl'.
  { apply zsum_nonneg. intros x _. pose proof (approxItemSize_pos x). lia. }
  destruct (stage_ok k r l' st s1 I1 G1) as (G2 & E2 & V2 & B2); try done.
  { apply Hfree. by left. }
  { by rewrite (proj1 Hbf). }
  { lia. }
  set (st2 := stage_next k r st s1) in *. set (s2 := stage_state k r st s1) in *.
  pose proof (stage_same k r st s1) as C2. fold s2 in C2.
  destruct (same_inv s1 s2 I1 C2) as (I2 & _ & _).
  specialize (IH st2 s2 I2 G2 Hnd).
  ospecialize (IH _ _ _); [|lia|lia|].
  { intros k' Hk'. rewrite E2, lookup_insert_ne by (intros ->; done). apply Hfree. by right. }
  destruct (rebuild_phase1 g st2 s2) as [rr s3]. destruct IH as [C3 IH].
  split; [eapply same_trans; [exact C1|]; by eapply same_trans|].
  destruct rr as [st3|e]; [|done]. destruct IH as (G3 & B3 & O3). split; [done|]. split; [lia|].
  intros Hoff. destruct (O3 Hoff) as [Eo2 F3]. split; [exact Eo2|].
  eapply (staged_for_cons k l g st s st2 s2); try done.
  - apply Hfree. by left.
  - intros q k' Hq. unfold s2. rewrite stage_state_at; [done|].
    destruct (sk_live _ _ _ _ (sg_core _ _ G) k' q Hq) as [_ Hlt]. cbn in Hlt. cbn. lia.
  - unfold st2, stage_next. cbn. by rewrite (rk_items _ _ R), length_seq, (proj1 Hbf).
Qed.

(** ** Phase 2 *)
Definition rebuilt (st : rebuild_state) (s : store) : store :=
  mkstore (detached_bufs s) (nextb s) (rb_maps st)
    (acct_bump (clk_micro (s_tick s)) (reset_counters (rb_bytes st) (rb_items st) (rb_scopes st) (s_acct s)))
    (S (s_tick s)) (subscribers s) (chans s).

Lemma rebuild_phase2_run st s :
  rebuild_phase2 st s = (tt, (initReservedScopesLocked (rebuilt st s)).2).
Proof.
  unfold rebuild_phase2. unfold bind at 1, detach_all, modify at 1.
  unfold bind at 1, modify at 1. unfold bind at 1, modify_counters, modify at 1.
  rewrite bind_now_s. erewrite bind_counters by apply bump_run.
  by destruct (initReservedScopesLocked _) as [[] ?].
Qed.

Record rebuild_post (st : rebuild_state) (s s' : store) : Prop := {
  rp_inv : store_inv s';
  rp_user : ∀ k, isReservedScope k = false → scopes s' !! k = staged_scopes st s !! k;
  rp_bufs : ∀ k p, staged_scopes st s !! k = Some p → buf_at s' p = buf_at s p;
  rp_reserved : ∀ k p, isReservedScope k = true → scopes s' !! k = Some p → view (buf_at s' p) = [];
  rp_items : totalItems (s_acct s') = rb_items st;
  rp_bytes : totalBytes (s_acct s') = rb_bytes st + reservedScopesOverhead;
  rp_subs : subscribers s' = subscribers s ∧ chans s' = chans s;
  rp_ptrs : extends s s';
  rp_dead : ∀ k p, published s k p → gone (buf_at s' p);
}.

Lemma rebuilt_inv st s : ahead 0 0 s → staged st s → rb_bytes st ≤ maxStoreBytes →
  store_inv_on [] (rebuilt st s) ∧ scopes (rebuilt st s) = staged_scopes st s ∧
  ∀ k p, staged_scopes st s !! k = Some p → buf_at (rebuilt st s) p = buf_at s p.
Proof.
  intros I [C U Pv _] Hcap.
  assert (∀ k p, staged_scopes st s !! k = Some p → buf_at (rebuilt st s) p = buf_at s p) as Hb.
  { intros k p Hk. change (detached_bufs s !!! p = buf_at s p). rewrite detached_at by apply I.
    rewrite decide_False; [done|]. intros (k' & Hk')%mapped_elem; [|apply I].
    apply (Pv k p Hk k'). by left. }
  destruct (placed_shards (staged_view st s) (rebuilt st s) eq_refl) as (HP & HS & _).
  split; [|by split].
  apply (inv_frame (staged_view st s)); try done; try (cbn; lia).
  - apply inv_core. by split.
  - apply HP, C.
Qed.

Lemma rebuild_phase2_core st s : ahead 0 0 s → staged st s →
  rb_bytes st + reservedScopesOverhead ≤ maxStoreBytes →
  rebuild_post st s (rebuild_phase2 st s).2.
Proof.
  intros I G Hcap. rewrite rebuild_phase2_run. cbn [snd].
  change reservedScopesOverhead with 2048 in Hcap.
  destruct (rebuilt_inv st s I G) as (I1 & E1 & B1); [lia|].
  destruct (init_all_spec (λ s, store_lastWriteTS (s_acct s)) (rebuilt st s) I1) as [I2 N].
  { intros k Hk. rewrite E1. destruct (staged_scopes st s !! k) as [p|] eqn:E; [|done].
    apply (sg_user _ _ G) in E. congruence. }
  { cbn. change reservedScopesOverhead with 2048. lia. }
  fold initReservedScopesLocked in I2, N. set (s2 := (initReservedScopesLocked (rebuilt st s)).2) in *.
  assert (∀ k p, scopes s2 !! k = Some p → staged_scopes st s !! k = Some p ∨
    k ∈ reservedScopeNames ∧ (nextb s ≤ p)%nat) as Hnew.
  { intros k p Hp. pose proof Hp as Hp2. apply (in_scopes _ _ _ N) in Hp2. rewrite E1 in Hp2.
    destruct Hp2 as [?|(? & _ & ?)]; [by left|by right]. }
  assert (∀ p, (p < nextb s)%nat → buf_at s2 p = detached_bufs s !!! p) as Hold
    by (intros p Hp; apply (in_old _ _ _ N p Hp)).
  assert (∀ k p, published s k p → (p < nextb s)%nat) as Hlt.
  { intros k p [Hk|[? _]]; [by eapply (sk_live _ _ _ _ I)|done]. }
  assert (∀ k p, scopes s2 !! k = Some p → ∀ k', ¬ published s k' p) as Hpriv.
  { intros k p Hp k' Hk'. destruct (Hnew k p Hp) as [Hs|[_ Hge]]; [by apply (sg_private _ _ G k p Hs k')|].
    specialize (Hlt k' p Hk'). lia. }
  assert (extends s s2) as X.
  { apply extends_cut; [apply I|apply N|auto| |exact Hpriv].
    intros k [p Hp]. exists p. split; [done|]. by eapply (sk_live _ _ _ _ I). }
  constructor; try done.
  - intros k Hk. apply option_eq. intros p. split.
    + intros Hp. destruct (Hnew k p Hp) as [?|[Hr _]]; [done|]. apply reserved_elem in Hr. congruence.
    + intros Hp. apply (in_scopes _ _ _ N). left. by rewrite E1.
  - intros k p Hk. rewrite <- (B1 k p Hk). apply (in_old _ _ _ N).
    destruct (sk_live _ _ _ _ (sg_core _ _ G) k p Hk) as [_ Hx]. exact Hx.
  - intros k p Hk Hp. apply reserved_elem in Hk. destruct (in_bufs _ _ _ N k p Hk Hp) as (t & ts & ->). done.
  - rewrite (in_items _ _ _ N). done.
  - rewrite (in_bytes _ _ _ N). done.
  - apply N.
  - intros k p Hp. destruct (X k p Hp) as [Hk|(_ & ? & _)]; [|done]. by destruct (Hpriv k p Hk k).
Qed.

Lemma rebuild_phase2_spec st s : store_inv s → staged st s →
  rb_bytes st + reservedScopesOverhead ≤ maxStoreBytes →
  rebuild_post st s (rebuild_phase2 st s).2.
Proof. intros [C _]%inv_core. by apply rebuild_phase2_core. Qed.

(** ** rebuildAll *)
Lemma staged_empty s : store_inv s → staged (mkrebuild (replicate numShards ∅) 0 0 0 []) s ∧
  staged_scopes (mkrebuild (replicate numShards ∅) 0 0 0 []) s = ∅.
Proof.
  intros I. destruct (blank_inv (bufs s) (nextb s) (mkacct 0 0 0 0 0) (s_tick s) ∅ ∅) as [I0 E0]; [done..|].
  change (mkstore _ _ _ _ _ _ _) with (staged_view (mkrebuild (replicate numShards ∅) 0 0 0 []) s) in I0, E0.
  split; [|exact E0]. apply inv_core in I0 as [I0 _].
  constructor; [done|..]; intros k p; unfold staged_scopes; by rewrite E0, lookup_empty.
Qed.

(** The new content of the store: every entry of the batch, nothing else. *)
Record rebuilt_from (g : batch) (s s' : store) : Prop := {
  rf_inv : store_inv s';
  rf_ptrs : extends s s';
  rf_entry : ∀ k l, (k, l) ∈ g → entry_accepted "/rebuild" (k, l) ∧
    ∃ p l', scopes s' !! k = Some p ∧ built_from l l' ∧ view (buf_at s' p) = fresh_content l';
  rf_only : ∀ k p, scopes s' !! k = Some p → k ∈ g.*1 ∨ isReservedScope k = true ∧ view (buf_at s' p) = [];
  rf_dead : ∀ k p, published s k p → gone (buf_at s' p);
  rf_subs : subscribers s' = subscribers s ∧ chans s' = chans s;
  rf_items : totalItems (s_acct s') = zsum (λ e, Z.of_nat (length e.2)) g;
}.

Lemma rebuildAll_spec g s : store_inv s → NoDup g.*1 → batch_weight g + reservedScopesOverhead ≤ MaxInt64 →
  let '(r, s') := rebuildAll g s in
  match r with
  | Err _ => same_content s s'
  | Ok (n, m) => n = Z.of_nat (length g) ∧ m = zsum (λ e, Z.of_nat (length e.2)) g ∧ rebuilt_from g s s'
  end.
Proof.
  intros I Hnd Hmax. destruct (staged_empty s I) as [G0 E0]. change reservedScopesOverhead with 2048 in Hmax.
  set (st0 := mkrebuild _ _ _ _ _) in *.
  pose proof (rebuild_phase1_spec g st0 s I G0 Hnd) as HP. ospecialize (HP _ _ _); [|done|cbn; lia|].
  { intros k _. by rewrite E0, lookup_empty. }
  unfold rebuildAll. fold st0. unfold bindE, bind.
  destruct (rebuild_phase1 g st0 s) as [[st|e] s1]; [|by destruct HP].
  destruct HP as (C & G & Hb & Ho). destruct (Nat.eqb_spec (length (rb_offenders st)) 0) as [Hz|_]; [|done].
  apply nil_length_inv in Hz. destruct (Ho Hz) as [_ F]. cbn [negb].
  change reservedScopesOverhead with 2048. change (rb_bytes st0) with 0 in Hb.
  rewrite i64_id by (unfold in_i64, MinInt64; lia).
  destruct (Z.ltb_spec maxStoreBytes (rb_bytes st + 2048)) as [|Hfit]; [done|].
  destruct (same_inv s s1 I C) as (I1 & ES & X1).
  pose proof (rebuild_phase2_spec st s1 I1 G Hfit) as P2. rewrite rebuild_phase2_run in P2 |- *.
  cbn [snd] in P2. set (s2 := (initReservedScopesLocked (rebuilt st s1)).2) in *. unfold ret.
  destruct P2. destruct F as [_ O N S T]. split; [exact S|]. split; [exact T|]. constructor; try done.
  - by transitivity s1.
  - intros k l Hin. destruct (N k l Hin) as [Ha (p & l' & Hp & Hb' & Hv)]. split; [done|].
    exists p, l'. rewrite rp_user0, (rp_bufs0 k p Hp) by apply Ha. done.
  - intros k p Hp. destruct (isReservedScope k) eqn:Er; [right; eauto|].
    rewrite rp_user0 in Hp by done. destruct (O k p Hp) as [Hx|?]; [|by left].
    by rewrite E0, lookup_empty in Hx.
  - intros k p Hp. eapply rp_dead0. by apply X1.
  - destruct (sc_subs _ _ C), (sc_chans _ _ C). split; apply rp_subs0.
  - rewrite rp_items0, T. done.
Qed.
End Rebuild.
