(* ===== verification/WarmSpec.v ===== *)
(** * /warm: snapshots, one reservation, one commit per scope *)
From S2P Require Import Prelude GoStd Uuid Types Validation Buffer BufferInv BufferSpec.
From S2P Require Import BufferWrite BufferWriteSpec BufferRead BufferReplace BufferReplaceSpec.
From S2P Require Import Clock Store StoreInv StoreSpec Events Bulk BulkSpec RebuildSpec.

Section Warm.
Context `{EV : Env} `{CP : Caps} `{SH : ScopeHash} `{EM : EventMarshal} `{CO : !CapsOk}.

(** ** Phase 1 *)
Record plan_for (e : string * list Item) (l' : list Item) (p : plan) : Prop := {
  pf_scope : p_scope p = e.1;
  pf_entry : entry_accepted "/warm" e;
  pf_built : built_from e.2 l';
  pf_repl : repl_ok (p_replacement p) l';
  pf_fits : batch_fits l';
  pf_new : p_newBytes p = zsum approxItemSize l';
}.

Lemma warm_phase1_spec g plans off t : batch_weight g ≤ MaxInt64 →
  let '(r, t') := warm_phase1 g plans off t in
  (t ≤ t')%nat ∧
  match r with
  | Err _ => True
  | Ok plans' => off = [] ∧ ∃ ps, plans' = plans ++ ps ∧ Forall2 (λ e p, ∃ l', plan_for e l' p) g ps
  end.
Proof.
  revert plans off t. induction g as [|[k l] g IH]; intros plans off t Hmax; cbn [warm_phase1].
  { split; [done|]. destruct off; [|done]. cbn. split; [done|]. exists []. by rewrite app_nil_r. }
  pose proof (batch_weight_nonneg g) as Hw.
  change (batch_weight ((k, l) :: g)) with (scopeBufferOverhead + zsum built_size l + batch_weight g) in Hmax.
  assert (scopeBufferOverhead = 1024) as Eo by done.
  assert (0 ≤ zsum built_size l) as Hl by (apply zsum_nonneg; intros x _; pose proof (built_size_pos x); lia).
  destruct (check_entry _ _ k l) as [l1|e] eqn:Ec; [|done].
  apply check_entry_spec in Ec as (Hv & Hr & -> & HF). rewrite length_fmap.
  destruct (Z.ltb_spec defaultMaxItems (Z.of_nat (length l))) as [Hbig|Hn].
  { specialize (IH plans (off ++ [mkOffender k (Z.of_nat (length l)) defaultMaxItems]) t ltac:(lia)).
    destruct (warm_phase1 g _ _ t) as [[ps|e] t']; [|done]. destruct IH as (_ & E & _). by destruct off. }
  unfold bind. destruct (buildReplacementState _ true t) as [r t1] eqn:Eb.
  assert (t ≤ t1)%nat as Ht.
  { pose proof (mono_buildReplacementState (fillRenderBytes <$> l) true t) as M. by rewrite Eb in M. }
  destruct r as [r|e]; [|done].
  destruct (build_ok _ _ _ _ Eb) as (l' & Hbf & R & Hfit & _).
  { rewrite zsum_map, (zsum_ext (λ x, built_size (fillRenderBytes x)) built_size)
      by (intros; apply built_size_fill). lia. }
  apply built_from_fill in Hbf.
  specialize (IH (plans ++ [mkplan k r (sumItemBytes r) 0]) off t1 ltac:(lia)).
  destruct (warm_phase1 g _ _ t1) as [rr t2]. destruct IH as [Ht2 IH]. split; [lia|].
  destruct rr as [ps|e]; [|done]. destruct IH as (-> & ps' & -> & HF2). split; [done|].
  exists (mkplan k r (sumItemBytes r) 0 :: ps'). split; [by rewrite <- app_assoc|].
  constructor; [|done]. exists l'. constructor; try done. cbn. by apply sumItemBytes_spec.
Qed.

(** ** The snapshots *)
Definition old_bytes (s : store) (k : string) : Z :=
  match scopes s !! k with Some q => bytes (buf_at s q) | None => 0 end.
Definition new_cost (s : store) (k : string) : Z :=
  match scopes s !! k with Some _ => 0 | None => scopeBufferOverhead end.
(** What one plan adds to the store's byte count. *)
Definition growth (s : store) (p : plan) : Z :=
  p_newBytes p - old_bytes s (p_scope p) + new_cost s (p_scope p).
Definition with_old (s : store) (p : plan) : plan :=
  mkplan (p_scope p) (p_replacement p) (p_newBytes p) (old_bytes s (p_scope p)).

Lemma snapshot_spec s plans acc d : placed s → 0 ≤ d + 2 ^ 63 →
  (∀ k, 0 ≤ old_bytes s k ≤ MaxInt64) → Forall (λ p, 0 ≤ p_newBytes p ≤ MaxInt64) plans →
  - 2 ^ 63 ≤ d - zsum (λ p, old_bytes s (p_scope p)) plans →
  d + zsum (λ p, p_newBytes p + scopeBufferOverhead) plans < 2 ^ 63 →
  foldl (snapshot s) (acc, d) plans = (acc ++ (with_old s <$> plans), d + zsum (growth s) plans).
Proof.
  intros P. revert acc d. induction plans as [|p plans IH]; intros acc d Hd Ho Hn H1 H2; cbn [foldl zsum fmap list_fmap].
  { by rewrite app_nil_r, Z.add_0_r. }
  apply Forall_cons in Hn as [Hp Hn]. cbn [zsum] in H1, H2.
  assert (scopeBufferOverhead = 1024) as Eo by done.
  assert (0 ≤ zsum (λ p, old_bytes s (p_scope p)) plans) by (apply zsum_nonneg; intros; apply Ho).
  assert (0 ≤ zsum (λ p, p_newBytes p + scopeBufferOverhead) plans).
  { apply zsum_nonneg. intros q Hq. rewrite Forall_forall in Hn. specialize (Hn q Hq). lia. }
  pose proof (Ho (p_scope p)).
  assert (snapshot s (acc, d) p = (acc ++ [with_old s p], d + growth s p)) as ->.
  { unfold snapshot, with_old, growth, old_bytes, new_cost in *. rewrite <- scopes_lookup by done.
    unfold MaxInt64 in *.
    destruct (scopes s !! p_scope p) as [q|]; f_equal.
    - rewrite (i64_id (p_newBytes p - _)), i64_id by (unfold in_i64, MinInt64, MaxInt64; lia). lia.
    - rewrite (i64_id (d + scopeBufferOverhead)), (i64_id (p_newBytes p - _)), i64_id
        by (unfold in_i64, MinInt64, MaxInt64; lia). lia. }
  assert (- old_bytes s (p_scope p) ≤ growth s p ≤ p_newBytes p + scopeBufferOverhead).
  { unfold growth, new_cost. destruct (scopes s !! p_scope p); lia. }
  rewrite IH by (done || lia). by rewrite <- app_assoc, Z.add_assoc.
Qed.

(** Distinct scopes: their old contents are part of the store's total. *)
Lemma sub_sum f (m : gmap string nat) ks : NoDup ks →
  (∀ k p, m !! k = Some p → 0 ≤ f k p) →
  zsum (λ k, match m !! k with Some p => f k p | None => 0 end) ks ≤ msum f m.
Proof.
  intros Hnd. revert m. induction Hnd as [|k ks Hk Hnd IH]; intros m Hf; cbn [zsum].
  { apply zsum_nonneg. intros [k p] Hp%elem_of_map_to_list. by apply Hf. }
  specialize (IH (delete k m)). rewrite (zsum_ext _ (λ k', match delete k m !! k' with
    Some p => f k' p | None => 0 end) ks).
  2:{ intros k' Hk'. rewrite lookup_delete_ne; [done|]. by intros <-. }
  ospecialize (IH _); [intros k' p [_ ?]%lookup_delete_Some; by apply Hf|].
  destruct (m !! k) as [p|] eqn:E; [|by rewrite delete_id in * by done].
  rewrite (msum_delete f m k p E) in IH. lia.
Qed.

(** ** One commit *)
Lemma core_bytes_pos {R} db dc s k p : store_core db dc R s → scopes s !! k = Some p → 0 ≤ bytes (buf_at s p).
Proof.
  intros I Hk. destruct (sk_live _ _ _ _ I k p Hk) as [L _]. pose proof (wf_bytes_nonneg (lb_wf _ _ _ L)). lia.
Qed.

Lemma core_range {R} db dc s : store_core db dc R s →
  0 ≤ totalItems (s_acct s) ∧ 48 * totalItems (s_acct s) ≤ totalBytes (s_acct s) - db ∧
  0 ≤ totalBytes (s_acct s) - db ∧
  ∀ k p, scopes s !! k = Some p → count s p ≤ totalItems (s_acct s) ∧
    0 ≤ bytes (buf_at s p) ≤ totalBytes (s_acct s) - db.
Proof.
  intros I. rewrite (sk_items _ _ _ _ I), (sk_bytes _ _ _ _ I).
  assert (∀ k p, scopes s !! k = Some p → 48 * count s p ≤ charge s p) as H1.
  { intros k p Hk. destruct (sk_live _ _ _ _ I k p Hk) as [L _].
    pose proof (wf_bytes_nonneg (lb_wf _ _ _ L)). unfold charge, count, scopeBufferOverhead. lia. }
  assert (∀ (_ : string) p, 0 ≤ count s p) as H2 by (intros; unfold count; lia).
  pose proof (msum_nonneg (λ _ p, count s p) (scopes s) H2).
  pose proof (msum_le (λ _ p, 48 * count s p) (λ _ p, charge s p) (scopes s) H1) as H3.
  assert (msum (λ _ p, 48 * count s p) (scopes s) = 48 * msum (λ _ p, count s p) (scopes s)) as E.
  { unfold msum. induction (map_to_list (scopes s)) as [|e l IH]; cbn [zsum]; lia. }
  split; [done|]. split; [lia|]. split; [lia|]. intros k p Hk.
  split; [exact (msum_elem (λ _ p, count s p) _ k p Hk H2)|].
  pose proof (core_bytes_pos _ _ s k p I Hk). split; [done|].
  pose proof (sub_sum (λ _ p, charge s p) (scopes s) [k] (NoDup_singleton k)) as HS.
  cbn [zsum] in HS. rewrite Hk in HS.
  assert (charge s p = bytes (buf_at s p) + 1024) as Ec by done.
  ospecialize (HS _); [|lia]. intros k' p' Hk'. specialize (H1 k' p' Hk'). specialize (H2 k' p'). lia.
Qed.

Lemma adopt_live k t t' r l' n now b : live_buf k t b → isReservedScope k = false → repl_ok r l' →
  batch_fits l' → n = zsum approxItemSize l' → (∀ it, it ∈ l' → Scope it = k) →
  Z.of_nat (length l') ≤ defaultMaxItems → live_buf k t' (adopt r n now b).
Proof.
  intros L Hr R Hfit Hn Hs Hc. destruct (adopt_wf r l' n now b R Hfit Hn) as (W & _ & _ & _ & E).
  destruct L. constructor; try done.
  - intros p Hp. change (items (adopt r n now b)) with (r_items r) in Hp. rewrite (rk_items _ _ R) in Hp.
    apply Hs. change (deref (adopt r n now b) p) with (r_heap r !!! p).
    eapply list_elem_of_lookup_2, heap_lookup; [apply R|done].
  - right. change (items (adopt r n now b)) with (r_items r). change (maxItems (adopt r n now b)) with (maxItems b).
    rewrite (rk_items _ _ R), length_seq, lb_maxItems. unfold maxItemsFor.
    rewrite !bool_decide_false; [done|..]; intros ->; by vm_compute in Hr.
  - rewrite E. destruct (fits_length _ Hfit). lia.
Qed.

(** Committing into the buffer [q] that [k] maps to. *)
Lemma commit_core {R} db dc s k q r l' n old : store_core db dc R s → scopes s !! k = Some q →
  isReservedScope k = false → repl_ok r l' → batch_fits l' → n = zsum approxItemSize l' →
  (∀ it, it ∈ l' → Scope it = k) → Z.of_nat (length l') ≤ defaultMaxItems →
  let b := buf_at s q in let now := clk_micro (s_tick s) in
  in_i64 (bytes b - old) → in_i64 (old - bytes b) → in_i64 (totalBytes (s_acct s) + (old - bytes b)) →
  totalBytes (s_acct s) - db ≤ 8 * MaxInt64 →
  let s' := mkstore (<[q := adopt r n now b]> (bufs s)) (nextb s) (shards s)
    (acct_bump now (acct_add (old - bytes b) (item_delta r b) (s_acct s))) (S (s_tick s))
    (subscribers s) (chans s) in
  with_buf q (commitReplacementPreReserved r n old) s = (tt, s') ∧
  store_core (db - (n - old)) dc R s'.
Proof.
  intros I Hk Hr Rk Hfit Hn Hs Hc b now H1 H2 H3 Hreal s'. destruct (sk_live _ _ _ _ I k q Hk) as [L _].
  destruct (core_range _ _ _ I) as (T0 & T1 & T2 & T3). destruct (T3 k q Hk) as [T4 T5].
  assert (48 * Z.of_nat (length l') ≤ MaxInt64) as Hlen.
  { assert (48 * Z.of_nat (length l') ≤ zsum approxItemSize l'); [|unfold batch_fits in Hfit; lia].
    rewrite <- (zsum_const 48). apply zsum_le. intros. apply approxItemSize_pos. }
  assert (item_delta r b = Z.of_nat (length l') - count s q) as Ed.
  { unfold item_delta, count. by rewrite (rk_items _ _ Rk), length_seq. }
  assert (0 ≤ count s q) by (unfold count; lia).
  split.
  - unfold with_buf. fold b. rewrite commitPreReserved_run.
    + done.
    + apply L.
    + done.
    + done.
    + done.
    + rewrite Ed. unfold in_i64, MinInt64 in *. unfold MaxInt64 in *. lia.
    + rewrite Ed. unfold in_i64, MinInt64 in *. unfold MaxInt64 in *. lia.
  - pose proof (core_upd db dc s k q (adopt r n now b)
      (acct_bump now (acct_add (old - bytes b) (item_delta r b) (s_acct s))) (S (s_tick s)) I Hk) as C.
    ospecialize (C _ _ _ _); [lia|by eapply adopt_live| |done|].
    { change (items (adopt r n now b)) with (r_items r). fold b. cbn. unfold item_delta. lia. }
    cbn [bytes adopt totalBytes acct_bump acct_add] in C. fold b in C |- *.
    replace (db - (n - old)) with
      (db + (totalBytes (s_acct s) + (old - bytes b) - totalBytes (s_acct s)) - (n - bytes b)) by lia. exact C.
Qed.

(** What other writers have added to the plan's scope since its snapshot, and
    what the store still owes the plan: reserved and not yet in a buffer. *)
Definition drift (s : store) (p : plan) : Z := old_bytes s (p_scope p) - p_oldBytes p.
Definition owed (s : store) (p : plan) : Z :=
  p_newBytes p - p_oldBytes p + new_cost s (p_scope p).

(** The numbers of one commit fit. *)
Record commit_fits (db : Z) (s : store) (p : plan) : Prop := {
  cf_drift : in_i64 (drift s p);
  cf_undo : in_i64 (- drift s p);
  cf_total : in_i64 (totalBytes (s_acct s) - drift s p);
  cf_real : totalBytes (s_acct s) - db + scopeBufferOverhead ≤ 8 * MaxInt64;
}.

(** The store after a plan: one scope holds its new content, the byte counter
    has given back the drift [d] and nothing more (the growth was reserved),
    nothing else has changed. *)
Record committed (k : string) (l' : list Item) (d : Z) (s s' : store) : Prop := {
  cm_scope : ∃ q, scopes s' = <[k := q]> (scopes s) ∧
    (scopes s !! k = Some q ∨ scopes s !! k = None ∧ q = nextb s) ∧
    view (buf_at s' q) = fresh_content l' ∧
    ∀ q', q' ≠ q → (q' < nextb s)%nat → buf_at s' q' = buf_at s q';
  cm_bytes : totalBytes (s_acct s') = totalBytes (s_acct s) - d;
  cm_count : scopeCount (s_acct s') = scopeCount (s_acct s);
  cm_subs : subscribers s' = subscribers s ∧ chans s' = chans s;
  cm_next : (nextb s ≤ nextb s')%nat;
  cm_tick : (s_tick s ≤ s_tick s')%nat;
  cm_index : ∀ q, scopes s' !! k = Some q → uuid_ok (buf_at s' q);
}.

Lemma commit_plan_run p s : placed s → commit_plan p s =
  match scopes s !! p_scope p with
  | Some q => (0, (with_buf q (commitReplacementPreReserved (p_replacement p) (p_newBytes p) (p_oldBytes p)) s).2)
  | None => (1, (with_buf (nextb s)
      (commitReplacementPreReserved (p_replacement p) (p_newBytes p) (p_oldBytes p))
      (set_shards (<[shardIdxFor (p_scope p) := <[p_scope p := nextb s]> (shardFor s (p_scope p))]> (shards s))
        (store_newscopeBuffer s).2)).2)
  end.
Proof.
  intros P. unfold commit_plan. rewrite bind_get, <- scopes_lookup by done.
  destruct (scopes s !! p_scope p) as [q|]; [by rewrite bind_ret, bind_eq|].
  unfold bind at 1. unfold bind at 1. rewrite new_run. unfold bind at 1. unfold put_scope, modify at 1.
  cbn [fst snd]. unfold ret at 1. by rewrite bind_eq.
Qed.

Lemma commit_plan_spec {R} db dc s p e l' : store_core db dc R s → plan_for e l' p →
  commit_fits db s p →
  let '(n, s') := commit_plan p s in
  store_core (db - owed s p) (dc + n) R s' ∧ committed e.1 l' (drift s p) s s' ∧
  (n = 0 ∨ n = 1).
Proof.
  intros I [Ek [_ Hr HF Hc] Hb Rk Hfit Hn] [F1 F2 F3 F4].
  assert (scopeBufferOverhead = 1024) as Eov by done. rewrite commit_plan_run by apply I.
  assert (∀ it, it ∈ l' → Scope it = e.1) as Hs.
  { eapply built_from_scope; [done|]. eapply Forall_impl; [exact HF|]. by intros x [_ ?]. }
  rewrite <- (proj1 Hb) in Hc. unfold drift, owed, old_bytes, new_cost in *. rewrite Ek in *.
  assert (∀ now b, view (adopt (p_replacement p) (p_newBytes p) now b) = fresh_content l') as Hview
    by (intros; by apply (adopt_wf (p_replacement p) l' (p_newBytes p))).
  assert (∀ now b, uuid_ok (adopt (p_replacement p) (p_newBytes p) now b)) as Huuid
    by (intros; by apply (adopt_wf (p_replacement p) l' (p_newBytes p))).
  destruct (scopes s !! e.1) as [q|] eqn:Hk.
  - destruct (commit_core db dc s e.1 q (p_replacement p) l' (p_newBytes p) (p_oldBytes p) (R := R))
      as [E C]; try done; try lia.
    { by replace (p_oldBytes p - _) with (- (bytes (buf_at s q) - p_oldBytes p)) by lia. }
    { by replace (totalBytes (s_acct s) + _) with (totalBytes (s_acct s) - (bytes (buf_at s q) - p_oldBytes p)) by lia. }
    rewrite E. cbn [snd]. split; [|split; [|by left]].
    + by rewrite !Z.add_0_r.
    + set (s2 := mkstore _ _ _ _ _ _ _).
      destruct (placed_shards s s2 eq_refl) as (_ & HS & _).
      constructor; try done; [|cbn; lia..|].
      2:{ intros q' Hq'. rewrite HS, Hk in Hq'. injection Hq' as <-. unfold buf_at at 1. cbn.
          rewrite lookup_total_insert_eq. apply Huuid. }
      exists q. split; [by rewrite HS, insert_id|]. split; [by left|]. split.
      * unfold buf_at at 1. cbn. rewrite lookup_total_insert_eq. apply Hview.
      * intros q' Hq _. unfold buf_at at 1. cbn. by apply lookup_total_insert_ne.
  - set (s1 := set_shards _ _).
    destruct (put_shards_spec (store_newscopeBuffer s).2 e.1 (nextb s) (s_acct s)) as [P1 S1]; [apply I|].
    change (set_shards _ _) with s1 in P1, S1. change (scopes (store_newscopeBuffer s).2) with (scopes s) in S1.
    assert (buf_at s1 (nextb s) = newborn defaultMaxItems maxItemBytes (clk_micro (s_tick s))) as En
      by (unfold buf_at; cbn; by rewrite lookup_total_insert_eq).
    assert (∀ q, (q < nextb s)%nat → buf_at s1 q = buf_at s q) as Eo.
    { intros q Hq. unfold buf_at. cbn. apply lookup_total_insert_ne. lia. }
    pose proof (core_add db dc s e.1 (nextb s) s1 I Hk P1 S1 ltac:(cbn; lia) ltac:(cbn; lia) ltac:(cbn; lia)) as C1.
    ospecialize (C1 _ _ _).
    { intros k q Hq. apply Eo. by eapply (sk_live _ _ _ _ I). }
    { rewrite En. by apply newborn_live. }
    { unfold count. rewrite En. cbn. lia. }
    unfold charge in C1. rewrite En in C1. change (s_acct s1) with (s_acct s) in C1.
    change (bytes (newborn _ _ _)) with 0 in C1.
    assert (bytes (buf_at s1 (nextb s)) = 0) as Ez by (by rewrite En).
    destruct (commit_core (db - scopeBufferOverhead) (dc + 1) s1 e.1 (nextb s) (p_replacement p) l'
      (p_newBytes p) (p_oldBytes p) (R := e.1 :: R)) as [E C]; rewrite ?Ez; try done.
    + replace (db - scopeBufferOverhead) with (db + (totalBytes (s_acct s) - totalBytes (s_acct s)) -
        (0 + scopeBufferOverhead)) by lia.
      replace (dc + 1) with (dc + 1 - (scopeCount (s_acct s) - scopeCount (s_acct s))) by lia. exact C1.
    + by rewrite S1, lookup_insert_eq.
    + by replace (p_oldBytes p - 0) with (- (0 - p_oldBytes p)) by lia.
    + change (s_acct s1) with (s_acct s).
      by replace (totalBytes (s_acct s) + _) with (totalBytes (s_acct s) - (0 - p_oldBytes p)) by lia.
    + change (s_acct s1) with (s_acct s). lia.
    + rewrite E, Ez. cbn [snd]. rewrite Ez in C. split; [|split; [|by right]].
      { replace (db - (p_newBytes p - p_oldBytes p + scopeBufferOverhead))
          with (db - scopeBufferOverhead - (p_newBytes p - p_oldBytes p)) by lia.
        eapply core_weaken; [exact C|set_solver]. }
      set (s2 := mkstore _ _ _ _ _ _ _).
      destruct (placed_shards s1 s2 eq_refl) as (_ & HS & _).
      constructor; try done; [|cbn; lia..|].
      2:{ intros q'. rewrite HS, S1, lookup_insert_eq. intros [= <-]. unfold buf_at at 1. cbn.
          rewrite lookup_total_insert_eq. apply Huuid. }
      exists (nextb s). split; [by rewrite HS|]. split; [by right|]. split.
      * unfold buf_at at 1. cbn. rewrite lookup_total_insert_eq. apply Hview.
      * intros q' Hq Hlt. unfold buf_at at 1. cbn. rewrite lookup_total_insert_ne by done. by apply Eo.
Qed.

Lemma committed_other {R} db dc k l' d s s' : store_core db dc R s → committed k l' d s s' → ∀ k', k' ≠ k →
  scopes s' !! k' = scopes s !! k' ∧ (∀ q, scopes s !! k' = Some q → buf_at s' q = buf_at s q) ∧
  old_bytes s' k' = old_bytes s k' ∧ new_cost s' k' = new_cost s k'.
Proof.
  intros I [(q & HS & Hq & _ & Hb) _ _ _ _ _ _] k' Hne.
  assert (scopes s' !! k' = scopes s !! k') as E by (by rewrite HS, lookup_insert_ne).
  assert (∀ q', scopes s !! k' = Some q' → buf_at s' q' = buf_at s q') as B.
  { intros q' Hq'. destruct (sk_live _ _ _ _ I k' q' Hq') as [_ Hlt]. apply Hb; [|done]. intros ->.
    destruct Hq as [Hq|[_ ->]]; [|lia]. apply Hne. by eapply (sk_inj _ _ _ _ I). }
  split; [done|]. split; [done|]. unfold old_bytes, new_cost. rewrite E.
  destruct (scopes s !! k') as [q'|] eqn:Ek; [|done]. by rewrite (B q').
Qed.

Lemma committed_extends {R} db dc k l' d s s' : store_core db dc R s → committed k l' d s s' → extends s s'.
Proof.
  intros I [(q & HS & Hq & _ & Hb) _ _ _ Hn _] k2 q2 [Hk|(Hlt & Hg & Hno)]; unfold published; rewrite HS.
  - left. destruct (decide (k = k2)) as [->|Hne]; [|by rewrite lookup_insert_ne].
    rewrite lookup_insert_eq. destruct Hq as [Hq|[Hq _]]; congruence.
  - assert (q2 ≠ q) as Hne by (intros ->; destruct Hq as [Hq|[_ ->]]; [by apply (Hno k)|lia]).
    right. rewrite Hb by done. split; [lia|]. split; [done|].
    intros k' [[_ E]|[_ E]]%lookup_insert_Some; [done|by apply (Hno k')].
Qed.

(** What a successful /warm leaves: the scopes of the batch hold its items,
    every other scope is as it was. *)
Record warm_post (g : batch) (s s' : store) : Prop := {
  wm_entry : ∀ k l, (k, l) ∈ g → entry_accepted "/warm" (k, l) ∧
    ∃ q l', scopes s' !! k = Some q ∧ built_from l l' ∧ view (buf_at s' q) = fresh_content l';
  wm_other : ∀ k, k ∉ g.*1 →
    scopes s' !! k = scopes s !! k ∧ ∀ q, scopes s !! k = Some q → buf_at s' q = buf_at s q;
  wm_keep : ∀ k q, scopes s !! k = Some q → scopes s' !! k = Some q;
  wm_subs : subscribers s' = subscribers s ∧ chans s' = chans s;
  wm_ptrs : extends s s';
  wm_tick : (s_tick s ≤ s_tick s')%nat;
}.

Lemma warm_post_cons {R} db dc k l l' d g s s1 s2 : store_core db dc R s → committed k l' d s s1 →
  entry_accepted "/warm" (k, l) → built_from l l' → k ∉ g.*1 → warm_post g s1 s2 →
  warm_post ((k, l) :: g) s s2.
Proof.
  intros I C Ha Hb Hk [E O K Sb X T]. pose proof (committed_extends _ _ _ _ _ _ _ I C) as X1.
  pose proof (committed_other _ _ _ _ _ _ _ I C) as Hoth.
  destruct (cm_scope _ _ _ _ _ C) as (q & HS & Hq & Hv & Hbq). constructor.
  - intros k' m [[= -> ->]|Hin]%elem_of_cons; [|by apply E]. split; [done|].
    destruct (O k Hk) as [O1 O2]. rewrite HS, lookup_insert_eq in O1.
    exists q, l'. rewrite O2 by (by rewrite HS, lookup_insert_eq). done.
  - intros k' Hk'. cbn in Hk'. apply not_elem_of_cons in Hk' as [Hne Hk'].
    destruct (O k' Hk') as [O1 O2]. destruct (Hoth k' Hne) as (H1 & H2 & _). split; [congruence|].
    intros q' Hq'. rewrite O2 by congruence. by apply H2.
  - intros k' q' Hq'. apply K. destruct (decide (k' = k)) as [->|Hne].
    + rewrite HS, lookup_insert_eq. destruct Hq as [Hq|[Hq _]]; congruence.
    + destruct (Hoth k' Hne) as (-> & _). done.
  - destruct Sb, (cm_subs _ _ _ _ _ C). split; congruence.
  - by transitivity s1.
  - pose proof (cm_tick _ _ _ _ _ C). lia.
Qed.

Lemma warm_post_nil s : warm_post [] s s.
Proof. constructor; try done. intros k l []%elem_of_nil. Qed.

(** A batch whose commits follow with nothing in between. *)
Record commits_ready (db dc : Z) (R : list string) (s : store) (g : batch) (ps : list plan) : Prop := {
  cr_core : store_core db dc R s;
  cr_plans : Forall2 (λ e p, ∃ l', plan_for e l' p) g ps;
  cr_scopes : NoDup g.*1;
  cr_old : Forall (λ p, p_oldBytes p = old_bytes s (p_scope p)) ps;
  cr_total : in_i64 (totalBytes (s_acct s));
  cr_real : totalBytes (s_acct s) - db + zsum (λ p, p_newBytes p + scopeBufferOverhead) ps ≤ 8 * MaxInt64;
}.

Lemma plans_weight g plans : Forall2 (λ e p, ∃ l', plan_for e l' p) g plans →
  zsum (λ p, p_newBytes p + scopeBufferOverhead) plans ≤ batch_weight g ∧
  Forall (λ p, 0 ≤ p_newBytes p ≤ batch_weight g) plans ∧ p_scope <$> plans = g.*1.
Proof.
  induction 1 as [|e p g plans [l' Hp] HF (IH1 & IH2 & IH3)]; [by split; [|split]|].
  change (batch_weight (e :: g)) with (scopeBufferOverhead + zsum built_size e.2 + batch_weight g).
  cbn [zsum fmap list_fmap]. assert (scopeBufferOverhead = 1024) as Eov by done.
  pose proof (built_from_size _ _ (pf_built _ _ _ Hp)). pose proof (pf_new _ _ _ Hp).
  pose proof (batch_weight_nonneg g).
  assert (0 ≤ zsum approxItemSize l') by (apply zsum_nonneg; intros x _; pose proof (approxItemSize_pos x); lia).
  split; [lia|]. split; [|by rewrite IH3, (pf_scope _ _ _ Hp)]. constructor; [lia|].
  eapply Forall_impl; [exact IH2|]. cbn. intros x ?. lia.
Qed.

Lemma commits_ready_head {R} db dc s e g p ps : commits_ready db dc R s (e :: g) (p :: ps) →
  ∃ l', plan_for e l' p ∧ commit_fits db s p ∧ drift s p = 0 ∧ owed s p = growth s p ∧
    growth s p ≤ p_newBytes p + scopeBufferOverhead ∧
    0 ≤ zsum (λ p, p_newBytes p + scopeBufferOverhead) ps.
Proof.
  intros [I HF _ Hold Hi64 Hreal]. apply Forall2_cons in HF as [[l' Hp] HF].
  apply Forall_cons in Hold as [Ho _]. exists l'. cbn [zsum] in Hreal.
  destruct (plans_weight _ _ HF) as (_ & Hpos & _).
  assert (scopeBufferOverhead = 1024) as Eov by done.
  assert (0 ≤ p_newBytes p) as Hnp.
  { rewrite (pf_new _ _ _ Hp). apply zsum_nonneg. intros x _. pose proof (approxItemSize_pos x). lia. }
  assert (0 ≤ zsum (λ p, p_newBytes p + scopeBufferOverhead) ps) as Hrest.
  { apply zsum_nonneg. intros p' Hp'. rewrite Forall_forall in Hpos. specialize (Hpos p' Hp'). lia. }
  assert (drift s p = 0) as Hd by (unfold drift; lia).
  split; [done|]. split; [constructor; rewrite ?Hd, ?Z.sub_0_r; [by vm_compute..|done|lia]|].
  split; [done|]. split; [unfold owed, growth; by rewrite Ho|]. split; [|done].
  unfold growth. assert (0 ≤ old_bytes s (p_scope p)).
  { unfold old_bytes. destruct (scopes s !! p_scope p) as [q|] eqn:Eq; [|done]. by eapply core_bytes_pos. }
  unfold new_cost. destruct (scopes s !! p_scope p); lia.
Qed.

Lemma commits_ready_step {R} db dc s e g p ps : commits_ready db dc R s (e :: g) (p :: ps) →
  let '(n, s1) := commit_plan p s in
  commits_ready (db - growth s p) (dc + n) R s1 g ps ∧ (∃ l', plan_for e l' p ∧ committed e.1 l' 0 s s1) ∧
  (n = 0 ∨ n = 1) ∧ zsum (growth s1) ps = zsum (growth s) ps.
Proof.
  intros H. destruct (commits_ready_head _ _ _ _ _ _ _ H) as (l' & Hp & Hfits & Hd & Eg0 & Hg & Hrest).
  destruct H as [I HF Hnd Hold Hi64 Hreal]. apply Forall2_cons in HF as [_ HF].
  rewrite fmap_cons in Hnd. apply NoDup_cons in Hnd as [Hk Hnd]. apply Forall_cons in Hold as [_ Hold].
  pose proof (commit_plan_spec db dc s p e l' I Hp Hfits) as HC. rewrite Hd, Eg0 in HC.
  destruct (commit_plan p s) as [n s1]. destruct HC as (I1 & C & Hn). cbn [zsum] in Hreal.
  assert (∀ p', p' ∈ ps → p_scope p' ≠ e.1) as Hne.
  { intros p' Hp' E. apply Hk. destruct (plans_weight _ _ HF) as (_ & _ & <-). rewrite <- E.
    by apply list_elem_of_fmap_2. }
  split; [|split; [by exists l'|split; [done|]]].
  - constructor; try done.
    + rewrite Forall_forall in *. intros p' Hp'. rewrite (Hold p' Hp').
      by destruct (committed_other _ _ _ _ _ _ _ I C _ (Hne p' Hp')) as (_ & _ & -> & _).
    + by rewrite (cm_bytes _ _ _ _ _ C), Z.sub_0_r.
    + rewrite (cm_bytes _ _ _ _ _ C), Z.sub_0_r. lia.
  - apply zsum_ext. intros p' Hp'. unfold growth.
    destruct (committed_other _ _ _ _ _ _ _ I C _ (Hne p' Hp')) as (_ & _ & -> & ->). done.
Qed.

Lemma commit_plans_spec {R} db dc s g plans : commits_ready db dc R s g plans →
  let '(n, s') := commit_plans plans s in
  store_core (db - zsum (growth s) plans) (dc + n) R s' ∧ 0 ≤ n ≤ Z.of_nat (length plans) ∧
  totalBytes (s_acct s') = totalBytes (s_acct s) ∧ scopeCount (s_acct s') = scopeCount (s_acct s) ∧
  warm_post g s s'.
Proof.
  revert g db dc s. induction plans as [|p plans IH]; intros g db dc s H; cbn [commit_plans zsum].
  { destruct H as [I HF _ _ _ _]. apply Forall2_nil_inv_r in HF as ->. cbn.
    rewrite Z.sub_0_r, Z.add_0_r. split; [done|]. split; [lia|]. split; [done|]. split; [done|].
    apply warm_post_nil. }
  destruct (Forall2_cons_inv_r _ _ _ _ (cr_plans _ _ _ _ _ _ H)) as (e & g' & _ & HF & ->).
  pose proof (commits_ready_step _ _ _ _ _ _ _ H) as HS. unfold bind.
  destruct (commit_plan p s) as [n s1]. destruct HS as (H1 & (l' & Hp & C) & Hn & Eg).
  specialize (IH g' _ _ s1 H1). destruct (commit_plans plans s1) as [m s2].
  destruct IH as (I2 & Hm & T1 & T2 & W). unfold ret. rewrite Eg in I2.
  pose proof (cm_bytes _ _ _ _ _ C) as Eb. split; [|split; [|split; [|split]]].
  - replace (db - (growth s p + zsum (growth s) plans)) with (db - growth s p - zsum (growth s) plans) by lia.
    replace (dc + (n + m)) with (dc + n + m) by lia. exact I2.
  - cbn [length]. lia.
  - lia.
  - by rewrite T2, (cm_count _ _ _ _ _ C).
  - destruct e as [k l]. pose proof (cr_scopes _ _ _ _ _ _ H) as Hnd. cbn in Hnd.
    apply NoDup_cons in Hnd as [Hk _].
    eapply (warm_post_cons _ _ k l l'); try done; [apply H|apply Hp|apply Hp].
Qed.

(** ** The locked phase *)
Lemma plan_for_old s e l' p : plan_for e l' p → plan_for e l' (with_old s p).
Proof. by intros []. Qed.

Lemma growth_bounds s p : 0 ≤ p_newBytes p → 0 ≤ old_bytes s (p_scope p) →
  - old_bytes s (p_scope p) ≤ growth s p ≤ p_newBytes p + scopeBufferOverhead.
Proof.
  unfold growth, new_cost, scopeBufferOverhead. intros. destruct (scopes s !! p_scope p); lia.
Qed.

Lemma reserve_store d s : maxStoreBytes - MaxInt64 ≤ totalBytes (s_acct s) ≤ MaxInt64 →
  MinInt64 ≤ totalBytes (s_acct s) + d →
  on_counters (reserveBytes d) s =
  if totalBytes (s_acct s) + d <=? ceiling (s_acct s)
  then ((true, totalBytes (s_acct s) + d, maxStoreBytes), set_acct (acct_add d 0 (s_acct s)) s)
  else ((false, totalBytes (s_acct s), maxStoreBytes), s).
Proof.
  intros H1 H2. pose proof co_max. pose proof co_min. change reservedScopesOverhead with 2048 in *.
  unfold on_counters. rewrite reserve_run by lia. destruct (_ <=? _); [done|]. by destruct s.
Qed.

Lemma bind_reserve {A} d (k : bool * Z * Z → SM A) s : 0 ≤ totalBytes (s_acct s) →
  totalBytes (s_acct s) ≤ maxStoreBytes → - totalBytes (s_acct s) ≤ d →
  bind (on_counters (reserveBytes d)) k s =
  if totalBytes (s_acct s) + d <=? maxStoreBytes
  then k (true, totalBytes (s_acct s) + d, maxStoreBytes) (set_acct (acct_add d 0 (s_acct s)) s)
  else k (false, totalBytes (s_acct s), maxStoreBytes) s.
Proof.
  intros H1 H2 H3. pose proof co_max. unfold bind.
  rewrite reserve_store by (unfold MinInt64, MaxInt64 in *; lia). rewrite Z.max_l by done.
  by destruct (_ <=? _).
Qed.

(** Alone, the snapshots see what the commits replace. *)
Lemma locked_start s g plans : store_inv s →
  Forall2 (λ e p, ∃ l', plan_for e l' p) g plans → NoDup g.*1 → batch_weight g ≤ MaxInt64 →
  let d := zsum (growth s) plans in let ps := with_old s <$> plans in
  let s0 := set_acct (acct_add d 0 (s_acct s)) s in
  foldl (snapshot s) ([], 0) plans = (ps, d) ∧ - totalBytes (s_acct s) ≤ d ∧
  zsum (growth s0) ps = d ∧
  (totalBytes (s_acct s) + d ≤ maxStoreBytes → commits_ready d 0 reservedScopeNames s0 g ps).
Proof.
  intros I HF Hnd Hmax. destruct (plans_weight g plans HF) as (Hw1 & Hw2 & Hw3).
  destruct (total_range s I) as (T1 & T2 & T3). pose proof co_max. pose proof (si_cap _ I).
  assert (∀ k, 0 ≤ old_bytes s k ≤ MaxInt64) as Hold.
  { intros k. unfold old_bytes. destruct (scopes s !! k) as [q|] eqn:Eq; [|unfold MaxInt64; lia].
    destruct (totals_ge s k q I Eq) as (? & _ & ?). unfold charge, scopeBufferOverhead in *. lia. }
  assert (zsum (λ p, old_bytes s (p_scope p)) plans ≤ totalBytes (s_acct s)) as Hsum.
  { rewrite <- (zsum_map (old_bytes s) p_scope), Hw3, (si_bytes _ I). unfold old_bytes.
    assert (∀ k p, scopes s !! k = Some p → 0 ≤ bytes (buf_at s p)) as Hb.
    { intros k p Hk. by destruct (totals_ge s k p I Hk). }
    etransitivity; [exact (sub_sum (λ _ p, bytes (buf_at s p)) _ _ Hnd Hb)|].
    apply msum_le. intros k p Hk. unfold charge, scopeBufferOverhead. lia. }
  assert (- zsum (λ p, old_bytes s (p_scope p)) plans ≤ zsum (growth s) plans ≤
    zsum (λ p, p_newBytes p + scopeBufferOverhead) plans) as Hg.
  { clear - Hold Hw2. induction plans as [|p plans IH]; cbn [zsum]; [lia|].
    apply Forall_cons in Hw2 as [Hp Hw2]. specialize (IH Hw2). specialize (Hold (p_scope p)).
    pose proof (growth_bounds s p ltac:(lia) ltac:(lia)). lia. }
  cbv zeta. set (d := zsum (growth s) plans) in *. split; [|split; [lia|split]].
  - rewrite (snapshot_spec s plans [] 0); try done; [apply I|..].
    + eapply Forall_impl; [exact Hw2|]. cbn. intros x ?. lia.
    + unfold MaxInt64 in *. lia.
    + unfold MaxInt64 in *. lia.
  - rewrite zsum_map. by apply zsum_ext.
  - intros Hfit. constructor; [| |done|apply Forall_fmap; by apply Forall_true| |].
    + apply inv_core in I as [C _]. destruct C as [C1 C2 C3 C4 C5 C6 C7]. constructor; try done.
      * change (totalBytes (s_acct s) + d = msum (λ _ p, charge s p) (scopes s) + d). lia.
      * change (totalItems (s_acct s) + 0 = msum (λ _ p, count s p) (scopes s)). lia.
    + apply Forall2_fmap_r. eapply Forall2_impl; [exact HF|]. intros e p [l' Hp]. exists l'.
      by apply plan_for_old.
    + cbn. unfold in_i64, MinInt64. lia.
    + rewrite zsum_map. rewrite (zsum_ext _ (λ p, p_newBytes p + scopeBufferOverhead)) by done. cbn.
      unfold MaxInt64 in *. lia.
Qed.

Lemma count_new n s : 0 ≤ n → in_i64 (scopeCount (s_acct s) + n) →
  (if 0 <? n then add_scopeCount n else ret tt) s =
  (tt, set_acct (set_scopeCount (scopeCount (s_acct s) + n) (s_acct s)) s).
Proof.
  intros Hn Hi. destruct (Z.ltb_spec 0 n).
  - unfold add_scopeCount, modify_counters, modify. cbn. by rewrite i64_id.
  - replace (scopeCount (s_acct s) + n) with (scopeCount (s_acct s)) by lia.
    destruct s as [? ? ? [] ? ? ?]. done.
Qed.

Lemma replaceScopes_locked_spec s g plans : store_inv s →
  Forall2 (λ e p, ∃ l', plan_for e l' p) g plans → NoDup g.*1 → batch_weight g ≤ MaxInt64 →
  let '(r, s') := replaceScopes_locked plans s in
  let d := zsum (growth s) plans in
  match r with
  | Err e => s' = s ∧ maxStoreBytes < totalBytes (s_acct s) + d ∧
      e = StoreFullError (totalBytes (s_acct s)) d maxStoreBytes
  | Ok n => n = Z.of_nat (length g) ∧ store_inv s' ∧
      totalBytes (s_acct s') = totalBytes (s_acct s) + d ∧ warm_post g s s'
  end.
Proof.
  intros I HF Hnd Hmax. destruct (locked_start s g plans I HF Hnd Hmax) as (ES & Hlo & Eg & HR).
  destruct (plans_weight g plans HF) as (Hw1 & Hw2 & _). destruct (total_range s I) as (T1 & T2 & T3).
  pose proof (si_cap _ I). unfold replaceScopes_locked. rewrite bind_get, ES. cbv zeta in HR, Eg.
  set (d := zsum (growth s) plans) in *. rewrite bind_reserve by lia.
  destruct (Z.leb_spec (totalBytes (s_acct s) + d) maxStoreBytes) as [Hfit|Hfull]; cbn [negb].
  2:{ cbn. split; [done|]. split; [done|]. done. }
  set (s0 := set_acct (acct_add d 0 (s_acct s)) s) in *.
  pose proof (commit_plans_spec d 0 s0 g (with_old s <$> plans) (HR Hfit)) as HC.
  unfold bind at 1. destruct (commit_plans (with_old s <$> plans) s0) as [n s1].
  rewrite Eg, Z.sub_diag, Z.add_0_l, length_fmap in HC. destruct HC as (C1 & Hn & Tb & Ts & W).
  pose proof (Forall2_length _ _ _ HF) as Hlen.
  assert (warm_post g s s1) as W' by (by destruct W).
  assert (1024 * Z.of_nat (length plans) ≤ zsum (λ p, p_newBytes p + scopeBufferOverhead) plans) as Hl.
  { rewrite <- (zsum_const 1024). apply zsum_le. intros p Hp. rewrite Forall_forall in Hw2.
    specialize (Hw2 p Hp). unfold scopeBufferOverhead. lia. }
  pose proof (count_small s I). change (scopeCount (s_acct s0)) with (scopeCount (s_acct s)) in Ts.
  pose proof (count_new n s1 ltac:(lia) ltac:(unfold in_i64, MinInt64 in *; unfold MaxInt64 in *; lia)) as E2.
  rewrite (bind_run _ _ _ _ _ E2). unfold ret. split; [by rewrite length_fmap, Hlen|].
  split; [apply inv_core; split; [|cbn in *; lia]|].
  - destruct C1 as [? ? ? ? ? C6 ?]. constructor; try done.
    change (scopeCount (s_acct s1) + n = Z.of_nat (size (scopes s1)) - 0). lia.
  - split; [cbn; rewrite Tb; done|]. by destruct W'.
Qed.
End Warm.
