(* ===== verification/StoreClock.v ===== *)
(** * No store operation turns the clock back *)
From S2P Require Import Prelude GoStd Uuid Types Validation Wire Buffer BufferWrite BufferRead.
From S2P Require Import BufferDelete BufferCounter BufferReplace Clock Store Events StoreOps Bulk.

Section StoreClock.
Context `{EV : Env} `{CP : Caps} `{SH : ScopeHash} `{EM : EventMarshal}.

Lemma mono_with_buf {A} p (m : M A) : mono c_tick m → mono s_tick (with_buf p m).
Proof.
  intros Hm s. unfold with_buf. specialize (Hm (mkctx (buf_at s p) (s_acct s) (s_tick s))).
  by destruct (m _).
Qed.
Lemma mono_on_counters {A} (m : M A) : mono c_tick m → mono s_tick (on_counters m).
Proof.
  intros Hm s. unfold on_counters. specialize (Hm (mkctx inhabitant (s_acct s) (s_tick s))).
  by destruct (m _).
Qed.
Lemma mono_on_tick {A} (m : ST nat A) : mono id m → mono s_tick (on_tick m).
Proof. intros Hm s. unfold on_tick. specialize (Hm (s_tick s)). by destruct (m _). Qed.
Lemma mono_modify_buf_at p f : mono s_tick (modify_buf_at p f).
Proof. unfold modify_buf_at. clock. Qed.
Lemma mono_modify_counters f : mono s_tick (modify_counters f).
Proof. unfold modify_counters. clock. Qed.
Lemma mono_put_scope k p : mono s_tick (put_scope k p).
Proof. unfold put_scope. clock. Qed.
Lemma mono_drop_scope k : mono s_tick (drop_scope k).
Proof. unfold drop_scope. clock. Qed.
Lemma mono_alloc b : mono s_tick (alloc b).
Proof. by intros s. Qed.
#[local] Hint Resolve mono_with_buf mono_on_counters mono_on_tick mono_modify_buf_at mono_modify_counters
  mono_put_scope mono_drop_scope mono_alloc : clock.
Lemma mono_now : mono s_tick now.
Proof. unfold now. clock. Qed.
#[local] Hint Resolve mono_now : clock.
Lemma mono_newscope : mono s_tick store_newscopeBuffer.
Proof. unfold store_newscopeBuffer. clock. Qed.
Lemma mono_add_scopeCount d : mono s_tick (add_scopeCount d).
Proof. unfold add_scopeCount. clock. Qed.
#[local] Hint Resolve mono_newscope mono_add_scopeCount : clock.
Lemma mono_create_locked k p : mono s_tick (create_locked k p).
Proof. unfold create_locked. clock. Qed.
#[local] Hint Resolve mono_create_locked : clock.
Lemma mono_getOrCreate k : mono s_tick (getOrCreateScopeTrackingCreated k).
Proof. unfold getOrCreateScopeTrackingCreated. clock. Qed.
Lemma mono_cleanup k p : mono s_tick (cleanupIfEmptyAndUnused k p).
Proof. unfold cleanupIfEmptyAndUnused. clock. Qed.
Lemma mono_deleteScope_locked k : mono s_tick (deleteScope_locked k).
Proof. unfold deleteScope_locked. clock. Qed.
Lemma mono_init_reserved k f : mono s_tick (init_reserved k f).
Proof. unfold init_reserved. clock. Qed.
#[local] Hint Resolve mono_getOrCreate mono_cleanup mono_deleteScope_locked mono_init_reserved : clock.
Lemma mono_init_each l f : mono s_tick (init_each l f).
Proof. induction l; cbn [init_each]; clock. Qed.
#[local] Hint Resolve mono_init_each : clock.

(** ** Events *)
Lemma mono_notify k : mono s_tick (notifySubscriber k).
Proof. unfold notifySubscriber. clock. Qed.
Lemma mono_subscribe k : mono s_tick (Subscribe k).
Proof. unfold Subscribe. clock. Qed.
Lemma mono_unsubscribe k : mono s_tick (unsubscribe k).
Proof. unfold unsubscribe. clock. Qed.
Lemma mono_count_drop : mono s_tick count_drop.
Proof. unfold count_drop. clock. Qed.
#[local] Hint Resolve mono_notify mono_count_drop : clock.
Lemma mono_emit_with f e : (∀ it, mono s_tick (f it)) → mono s_tick (emitEvent_with f e).
Proof. intros Hf. unfold emitEvent_with. clock. Qed.
#[local] Hint Resolve mono_emit_with : clock.
Lemma mono_append_fuel stuck n it : mono s_tick stuck → mono s_tick (appendOneTrusted_fuel stuck n it).
Proof.
  intros Hs. revert it. induction n as [|n IH]; intros it; cbn [appendOneTrusted_fuel]; [done|].
  unfold emitAppendEvent_with. clock.
Qed.
Lemma mono_appendOneTrusted it : mono s_tick (appendOneTrusted it).
Proof. apply mono_append_fuel. unfold unreachable. clock. Qed.
#[local] Hint Resolve mono_appendOneTrusted : clock.
Lemma mono_emit e : mono s_tick (emitEvent e).
Proof. unfold emitEvent. clock. Qed.
#[local] Hint Resolve mono_emit : clock.
Lemma mono_gated k e : mono s_tick (gated k e).
Proof. unfold gated. clock. Qed.
#[local] Hint Resolve mono_gated : clock.
Lemma mono_emitWarm : mono s_tick emitWarmEvent.
Proof. unfold emitWarmEvent. clock. Qed.
Lemma mono_emitDeleteScope k : mono s_tick (emitDeleteScopeEvent k).
Proof. unfold emitDeleteScopeEvent. clock. Qed.
#[local] Hint Resolve mono_emitWarm mono_emitDeleteScope : clock.

(** ** Bulk writes *)
Lemma mono_initLocked : mono s_tick initReservedScopesLocked.
Proof. unfold initReservedScopesLocked. clock. Qed.
Lemma mono_detach_all : mono s_tick detach_all.
Proof. unfold detach_all. clock. Qed.
#[local] Hint Resolve mono_initLocked mono_detach_all : clock.
Lemma mono_wipe : mono s_tick wipe.
Proof. unfold wipe. clock. Qed.
Lemma mono_warm_phase1 g ps off : mono id (warm_phase1 g ps off).
Proof. revert ps off. induction g as [|[k l] g IH]; intros ps off; cbn [warm_phase1]; clock. Qed.
Lemma mono_commit_plan p : mono s_tick (commit_plan p).
Proof. unfold commit_plan. clock. Qed.
#[local] Hint Resolve mono_warm_phase1 mono_commit_plan : clock.
Lemma mono_commit_plans ps : mono s_tick (commit_plans ps).
Proof. induction ps; cbn [commit_plans]; clock. Qed.
#[local] Hint Resolve mono_commit_plans : clock.
Lemma mono_replaceScopes_locked ps : mono s_tick (replaceScopes_locked ps).
Proof.
  unfold replaceScopes_locked. apply mono_bind; [clock|]. intros s.
  destruct (foldl _ _ _) as [ps' d]. clock.
Qed.
Lemma mono_rebuild_phase1 g st : mono s_tick (rebuild_phase1 g st).
Proof. revert st. induction g as [|[k l] g IH]; intros st; cbn [rebuild_phase1]; clock. Qed.
Lemma mono_rebuild_phase2 st : mono s_tick (rebuild_phase2 st).
Proof. unfold rebuild_phase2. clock. Qed.
#[local] Hint Resolve mono_replaceScopes_locked mono_rebuild_phase1 mono_rebuild_phase2 : clock.
Lemma mono_replaceScopes g : mono s_tick (replaceScopes g).
Proof. unfold replaceScopes. clock. Qed.
Lemma mono_rebuildAll g : mono s_tick (rebuildAll g).
Proof. unfold rebuildAll. clock. Qed.
End StoreClock.

#[export] Hint Resolve mono_with_buf mono_on_counters mono_on_tick mono_modify_buf_at
  mono_modify_counters mono_now mono_newscope mono_create_locked mono_getOrCreate mono_cleanup
  mono_deleteScope_locked mono_notify mono_subscribe mono_unsubscribe mono_count_drop
  mono_emit_with mono_append_fuel mono_appendOneTrusted mono_emit mono_gated mono_emitWarm
  mono_emitDeleteScope mono_wipe mono_warm_phase1 mono_replaceScopes_locked
  mono_rebuild_phase1 mono_rebuild_phase2 mono_replaceScopes mono_rebuildAll : clock.
