(* ===== verification/Steps.v ===== *)
(** * The store as a transition system

  [section L] is one atomic section of any goroutine but a /warm's own: a
  buffer method under its mutex through a pointer looked up earlier, a
  shard-locked section, a wipe, the swap of a /rebuild. [L] are the scopes
  whose shards a /warm in flight has locked: nobody else changes their entry in
  the scope map. Flights.v adds the sections of the /warm calls themselves.

  [sstep] is the coarser relation of one /warm at a time that nobody's section
  falls into: its locked phase is one step. Every run of every operation by
  itself is a sequence of such steps ([traced]). *)
From S2P Require Import Prelude GoStd Uuid Types Wire Validation Buffer BufferInv BufferSpec.
From S2P Require Import BufferWrite BufferWriteSpec BufferRead BufferDelete BufferCounter.
From S2P Require Import BufferReplace Clock Store StoreInv BufferOps StoreSpec Events StoreOps.
From S2P Require Import Bulk BulkSpec RebuildSpec WarmSpec StoreClock.

Section Steps.
Context `{EV : Env} `{CP : Caps} `{SH : ScopeHash} `{EM : EventMarshal}.

Definition set_table (sb : gmap string nat) (ch : gmap nat chan) (s : store) : store :=
  mkstore (bufs s) (nextb s) (shards s) (s_acct s) (s_tick s) sb ch.

(** The sections under the subscriber registry's lock. *)
Inductive table_op : store → store → Prop :=
| tb_subscribe k s : table_op s (Subscribe k s).2
| tb_unsubscribe k s : table_op s (unsubscribe k s).2
| tb_notify k s : table_op s (notifySubscriber k s).2.

Inductive section (L : list string) : store → store → Prop :=
| sc_private s s' : same_content s s' → section L s s'
| sc_buf k p {A} (m : M (result error A)) s :
    BufferOp k m → published s k p → section L s (with_buf p m s).2
| sc_read k p t s : published s k p → section L s (modify_buf_at p (recordRead t) s).2
| sc_create k s : k ≠ ""%string → k ∉ L → section L s (slow_create k s).2
| sc_cleanup k p s : isReservedScope k = false → k ∉ L → section L s (cleanupIfEmptyAndUnused k p s).2
| sc_unlink k s : isReservedScope k = false → k ∉ L → section L s (deleteScope_locked k s).2
| sc_wipe s : L = [] → section L s (wipe s).2
| sc_rebuild st s : L = [] → staged st s → rb_bytes st + reservedScopesOverhead ≤ maxStoreBytes →
    section L s (rebuild_phase2 st s).2
| sc_counters s a' : totalBytes a' = totalBytes (s_acct s) → totalItems a' = totalItems (s_acct s) →
    scopeCount a' = scopeCount (s_acct s) → section L s (set_acct a' s)
| sc_table s s' : table_op s s' → section L s s'.

Inductive sstep : store → store → Prop :=
| st_section s s' : section [] s s' → sstep s s'
| st_warm g plans s : Forall2 (λ e p, ∃ l', plan_for e l' p) g plans → NoDup g.*1 →
    batch_weight g ≤ MaxInt64 → sstep s (replaceScopes_locked plans s).2.

Ltac as_table s :=
  first [by eexists _, _ | exists (subscribers s), (chans s); by destruct s].
Lemma table_set s s' : table_op s s' → ∃ sb ch, s' = set_table sb ch s.
Proof.
  destruct 1 as [k s|k s|k s].
  - unfold Subscribe. destruct (negb _); [|unfold bind at 1, get at 1; cbv beta iota;
      destruct (bool_decide _)]; as_table s.
  - unfold unsubscribe, bind at 1, get at 1. cbv beta iota. destruct (subscribers s !! k); as_table s.
  - unfold notifySubscriber, bind at 1, get at 1. cbv beta iota.
    destruct (subscribers s !! k); [destruct (_ && _)|]; as_table s.
Qed.

Lemma section_tick L s s' : section L s s' → (s_tick s ≤ s_tick s')%nat.
Proof.
  destruct 1 as [s s' C|k p A m s O _|k p t s _|k s _ _|k p s _ _|k s _ _|s _|st s _ _ _| |s s' Ht]; try done.
  - apply C.
  - apply mono_with_buf, O.
  - unfold slow_create. apply mono_bind; [auto with clock|]. intros; auto with clock.
  - apply mono_cleanup.
  - apply mono_deleteScope_locked.
  - apply mono_wipe.
  - apply mono_rebuild_phase2.
  - destruct (table_set s s' Ht) as (sb & ch & ->). done.
Qed.
Lemma sstep_tick s s' : sstep s s' → (s_tick s ≤ s_tick s')%nat.
Proof. destruct 1 as [s s' S|g plans s _ _ _]; [by eapply section_tick|apply mono_replaceScopes_locked]. Qed.
Lemma steps_tick s s' : rtc sstep s s' → (s_tick s ≤ s_tick s')%nat.
Proof. induction 1 as [|s1 s2 s3 H1 _ IH]; [done|]. apply sstep_tick in H1. lia. Qed.

Lemma young_before s s' : (s_tick s ≤ s_tick s')%nat → young s' → young s.
Proof. unfold young. lia. Qed.

Context `{CO : !CapsOk}.

Lemma buf_frame s p f : (∀ b, detached (f b) = detached b ∧ attached (f b) = attached b) →
  let s' := (modify_buf_at p f s).2 in
  scopes s' = scopes s ∧ extends s s'.
Proof.
  intros Hf s'. destruct (placed_shards s s' eq_refl) as (_ & HS & _). split; [done|].
  intros k q [Hk|(Hlt & [Ha Hd] & Hno)]; unfold published; rewrite HS; [by left|]. right.
  split; [done|]. split; [|done]. unfold s', modify_buf_at, modify, set_bufs, buf_at. cbn.
  destruct (decide (q = p)) as [->|Hne].
  - rewrite lookup_total_insert_eq. destruct (Hf (bufs s !!! p)) as [E1 E2].
    unfold gone, buf_at in *. by rewrite E1, E2.
  - by rewrite lookup_total_insert_ne.
Qed.

Lemma read_live k t b now : live_buf k t b → live_buf k t (recordRead now b).
Proof. intros []. constructor; try done. apply (wf_frame b); done. Qed.

Lemma read_step db dc k p t s : ahead db dc s → published s k p →
  let s' := (modify_buf_at p (recordRead t) s).2 in ahead db dc s' ∧ extends s s'.
Proof.
  intros I Hp s'. destruct (buf_frame s p (recordRead t)) as [HS X]; [done|]. split; [|exact X].
  destruct (placed_shards s s' eq_refl) as (HP & _ & _).
  destruct Hp as [Hk|(_ & _ & Hno)].
  - destruct (sk_live _ _ _ _ I k p Hk) as [L _].
    pose proof (core_upd db dc s k p (recordRead t (buf_at s p)) (s_acct s) (s_tick s) I Hk) as I'.
    ospecialize (I' _ _ _ _); [done|by apply read_live|cbn; lia|done|].
    change (bytes (recordRead t (buf_at s p))) with (bytes (buf_at s p)) in I'.
    replace (db + _ - _) with db in I' by lia. exact I'.
  - apply (core_frame _ _ s); try done; [by apply HP, I|]. intros k' q Hq. unfold s', buf_at. cbn.
    apply lookup_total_insert_ne. intros <-. by apply (Hno k').
Qed.

Lemma buf_step db dc k p {A} (m : M (result error A)) s : BufferOp k m → ahead db dc s → tame db dc s →
  young s → published s k p →
  let s' := (with_buf p m s).2 in
  ahead db dc s' ∧ extends s s' ∧ scopes s' = scopes s ∧ totalBytes (s_acct s') ≤ ceiling (s_acct s).
Proof.
  intros O I T Y [Hk|(Hlt & Hg & Hno)] s'.
  - destruct (with_buf_core _ _ k p m s O I T Y Hk) as (I' & HS & Hc). fold s' in I', HS, Hc.
    split; [done|]. split; [|done].
    intros k2 q [Hq|(Hl & Hgq & Hn)]; unfold published; rewrite HS; [by left|]. right.
    assert (buf_at s' q = buf_at s q) as ->.
    { unfold s', with_buf. destruct (m _). cbn. unfold buf_at. cbn. apply lookup_total_insert_ne.
      intros <-. by apply (Hn k). }
    split; [|by split]. unfold s', with_buf. by destruct (m _).
  - destruct (gone_run k p m s O Hg) as (t' & E & Ht). unfold s'. rewrite E. cbn [snd].
    set (s1 := mkstore _ _ _ _ _ _ _). destruct (placed_shards s s1 eq_refl) as (HP & HS & _).
    split; [|split; [|split; [done|cbn; lia]]].
    + apply (core_frame _ _ s); try done; [by apply HP, I|]. intros. apply put_back.
    + apply published_frame; [done|done|]. intros. apply put_back.
Qed.

(** What a section of somebody else leaves a /warm in flight: the accounting
    with its reservation, every pointer, the locked entries of the scope map,
    and a byte counter that has not passed the cap. *)
Record section_post (L : list string) (db dc : Z) (s s' : store) : Prop := {
  sp_core : ahead db dc s';
  sp_ptrs : extends s s';
  sp_locked : ∀ k, k ∈ L → scopes s' !! k = scopes s !! k;
  sp_ceiling : totalBytes (s_acct s') ≤ ceiling (s_acct s);
}.

Lemma same_post L db dc s s' : ahead db dc s → same_content s s' → section_post L db dc s s'.
Proof.
  intros I C. destruct (same_core _ _ s s' I C) as (? & HS & ?). constructor; try done.
  - by intros; rewrite HS.
  - rewrite (sc_acct _ _ C). lia.
Qed.
Lemma unlinked_post L db dc k p s s' : ahead db dc s → unlinked k p s s' → k ∉ L →
  ahead db dc s' → extends s s' → section_post L db dc s s'.
Proof.
  intros I U Hk I' X. constructor; try done.
  - intros k' Hk'. rewrite (ul_scopes _ _ _ _ U), lookup_delete_ne; [done|]. by intros <-.
  - rewrite (ul_bytes _ _ _ _ U). pose proof (core_charge _ _ s k p I (ul_some _ _ _ _ U)).
    unfold scopeBufferOverhead in *. lia.
Qed.
Lemma frame_post L db dc s s' : ahead db dc s → shards s' = shards s → bufs s' = bufs s →
  nextb s' = nextb s → s_tick s' = s_tick s → totalBytes (s_acct s') = totalBytes (s_acct s) →
  totalItems (s_acct s') = totalItems (s_acct s) → scopeCount (s_acct s') = scopeCount (s_acct s) →
  section_post L db dc s s'.
Proof.
  intros I Es Eb En Et E1 E2 E3. destruct (placed_shards s s' Es) as (HP & HS & _).
  assert (∀ q, buf_at s' q = buf_at s q) as B by (intros; unfold buf_at; by rewrite Eb).
  constructor; [|apply published_frame; [lia|done|done]|by intros; rewrite HS|lia].
  apply (core_frame _ _ s); try done; [by apply HP, I|lia..].
Qed.

Lemma section_core L db dc s s' : ahead db dc s → tame db dc s → young s →
  (L = [] → db = 0 ∧ dc = 0) → section L s s' → section_post L db dc s s'.
Proof.
  intros I T Y HL. destruct 1 as [s s' C|k p A m s O Hp|k p t s Hp|k s Hk Hn|k p s Hr Hn|k s Hr Hn|s E
    |st s E G Hfit|s a' E1 E2 E3|s s' HT].
  - by apply same_post.
  - destruct (buf_step _ _ k p m s O I T Y Hp) as (? & ? & HS & ?). constructor; try done.
    by intros; rewrite HS.
  - destruct (read_step _ _ k p t s I Hp) as [? ?]. constructor; try done. cbn. lia.
  - destruct (slow_create_core _ _ k s I T) as (O & I' & X & Hc). unfold create_outcome_ok in O.
    destruct (slow_create k s) as [[[p []]|e] s1]; cbn in *.
    + constructor; try done. intros k' Hk'. rewrite (cs_scopes _ _ _ _ O), lookup_insert_ne; [done|].
      by intros <-.
    + apply same_post; [done|apply O]. + apply same_post; [done|apply O].
  - destruct (cleanup_core _ _ k p s I T Hr) as ([-> | U] & I' & X); [by apply same_post, same_refl|].
    by eapply unlinked_post.
  - destruct (deleteScope_locked_core _ _ k s I T Hr) as (O & I' & X).
    destruct (scopes s !! k) as [p|]; [|rewrite O; by apply same_post, same_refl].
    by eapply unlinked_post; [|apply O|..].
  - subst L. destruct (HL eq_refl) as [-> ->]. pose proof (wipe_core s I) as W.
    constructor; [apply inv_core, W|apply W|by intros ? ?%elem_of_nil|].
    rewrite (wp_bytes _ _ _ W). pose proof co_min. lia.
  - subst L. destruct (HL eq_refl) as [-> ->]. pose proof (rebuild_phase2_core st s I G Hfit) as R.
    constructor; [apply inv_core, R|apply R|by intros ? ?%elem_of_nil|].
    rewrite (rp_bytes _ _ _ R). lia.
  - by apply frame_post.
  - destruct (table_set s s' HT) as (sb & ch & ->). by apply frame_post.
Qed.

(** The invariant is inductive, and no step invalidates a pointer. *)
Lemma section_ok s s' : store_inv s → young s → section [] s s' → store_inv s' ∧ extends s s'.
Proof.
  intros I Y S. pose proof (inv_tame s I) as T. apply inv_core in I as [C Hcap].
  destruct (section_core [] 0 0 s s' C T Y) as [C' X _ Hc]; [done|done|]. split; [|done].
  apply inv_core. split; [done|lia].
Qed.
Lemma sstep_ok s s' : store_inv s → young s → sstep s s' → store_inv s' ∧ extends s s'.
Proof.
  intros I Y. destruct 1 as [s s' S|g plans s HF Hnd Hw]; [by apply section_ok|].
  pose proof (replaceScopes_locked_spec s g plans I HF Hnd Hw) as HR.
  destruct (replaceScopes_locked plans s) as [[n|e] s']; cbn.
  - destruct HR as (_ & ? & _ & []). done.
  - destruct HR as (-> & _). done.
Qed.

Lemma steps_ok s s' : store_inv s → rtc sstep s s' → young s' → store_inv s' ∧ extends s s'.
Proof.
  intros I Hs. revert I. induction Hs as [|s1 s2 s3 H1 H2 IH]; intros I Y; [by split|].
  pose proof (steps_tick _ _ H2). pose proof (sstep_tick _ _ H1).
  destruct (sstep_ok s1 s2 I) as [I2 X2]; [unfold young in *; lia|done|].
  destruct (IH I2 Y) as [I3 X3]. split; [done|]. by transitivity s2.
Qed.

(** ** Computations made of steps *)
Record traced {A} (P : store → Prop) (m : SM A) (Q : A → store → Prop) : Prop := {
  tr_clock : mono s_tick m;
  tr_run : ∀ s, store_inv s → P s → young (m s).2 → rtc sstep s (m s).2 ∧ Q (m s).1 (m s).2;
}.

Lemma traced_ret {A} P (a : A) (Q : A → store → Prop) : (∀ s, P s → Q a s) → traced P (ret a) Q.
Proof. intros HQ. split; [apply mono_ret|]. intros s _ Hp _. cbn. split; [done|by apply HQ]. Qed.

Lemma traced_bind {A B} P (m : SM A) (k : A → SM B) Q R :
  traced P m Q → (∀ a, traced (Q a) (k a) R) → traced P (bind m k) R.
Proof.
  intros [C1 T1] Hk. split; [apply mono_bind; [done|intros; apply Hk]|]. intros s I HP.
  unfold bind. specialize (T1 s I HP). pose proof (C1 s) as Ht. destruct (m s) as [a s1]. cbn in *.
  destruct (Hk a) as [C2 T2]. intros Y. pose proof (C2 s1) as Ht1.
  destruct T1 as [S1 Q1]; [by eapply young_before|].
  destruct (steps_ok s s1 I S1) as [I1 _]; [by eapply young_before|].
  destruct (T2 s1 I1 Q1 Y) as [S2 R2]. split; [by etransitivity|done].
Qed.

Lemma traced_bindE {A B} P (m : SM (result error A)) (k : A → SM (result error B)) Q
    (R : result error B → store → Prop) :
  traced P m Q → (∀ e s, Q (Err e) s → R (Err e) s) → (∀ a, traced (Q (Ok a)) (k a) R) →
  traced P (bindE m k) R.
Proof.
  intros Hm He Hk. apply (traced_bind P m _ Q); [done|]. intros [a|e]; [apply Hk|].
  apply traced_ret. apply He.
Qed.

Lemma traced_weaken {A} (P P' : store → Prop) (m : SM A) (Q Q' : A → store → Prop) :
  traced P m Q → (∀ s, P' s → P s) → (∀ a s, Q a s → Q' a s) → traced P' m Q'.
Proof.
  intros [C T] HP HQ. split; [done|]. intros s I Hp Y. destruct (T s I (HP s Hp) Y). auto.
Qed.

Lemma traced_get P : traced P get (λ s0 s, s0 = s ∧ P s).
Proof. split; [apply mono_get|]. intros s _ Hp _. cbn. done. Qed.

(** One atomic section. *)
Lemma traced_step {A} (P : store → Prop) (m : SM A) (Q : A → store → Prop) : mono s_tick m →
  (∀ s, store_inv s → P s → sstep s (m s).2) →
  (∀ s, store_inv s → P s → young s → Q (m s).1 (m s).2) → traced P m Q.
Proof.
  intros C S HQ. split; [done|]. intros s I Hp Y. split; [by apply rtc_once, S|].
  apply HQ; [done|done|]. eapply young_before; [apply C|done].
Qed.
End Steps.

Definition anything {A} : A → store → Prop := λ _ _, True.
Definition always : store → Prop := λ _, True.
Abbreviation runs_steps m := (traced always m anything).
