(* ===== verification/SubscribeSpec.v ===== *)
(** * subscribe.go: the registry of subscribers and its channels

  At most one live subscription per reserved scope, every registered channel
  open, and no send on or double close of a closed channel, under any
  interleaving of the store's sections. *)
From S2P Require Import Prelude GoStd Uuid Types Wire Validation Buffer BufferInv BufferSpec.
From S2P Require Import BufferRead Clock Store StoreInv BufferOps StoreSpec Events StoreOps.
From S2P Require Import Bulk BulkSpec RebuildSpec WarmSpec StoreClock Steps.

Record chans_ok (s : store) : Prop := {
  ch_open : ∀ k ch, subscribers s !! k = Some ch →
    isReservedScope k = true ∧ ∃ c, chans s !! ch = Some c ∧ closed c = false;
  ch_inj : ∀ k1 k2 ch, subscribers s !! k1 = Some ch → subscribers s !! k2 = Some ch → k1 = k2;
  ch_calm : ∀ ch c, chans s !! ch = Some c → panicked c = false;
}.

(** A reading subscriber never goes past a pending wake-up. *)
Definition woken (s : store) (k : string) : Prop :=
  ∀ ch, subscribers s !! k = Some ch → pending (chans s !!! ch) = true.

Section Subscribe.
Context `{EV : Env} `{CP : Caps} `{SH : ScopeHash} `{EM : EventMarshal}.

Lemma fresh_chan_free s : chans s !! fresh_chan s = None.
Proof. apply not_elem_of_dom. unfold fresh_chan. apply is_fresh. Qed.

Lemma subscribe_run k s : Subscribe k s =
  if negb (isReservedScope k) then (Err ErrInvalidSubscribeScope, s)
  else match subscribers s !! k with
  | Some _ => (Err ErrAlreadySubscribed, s)
  | None => (Ok (fresh_chan s), set_table (<[k := fresh_chan s]> (subscribers s))
      (<[fresh_chan s := mkchan false false false]> (chans s)) s)
  end.
Proof.
  unfold Subscribe. destruct (negb _); [done|]. rewrite bind_eq. cbn [fst snd get].
  destruct (subscribers s !! k); [by rewrite bool_decide_true by (by eexists)|].
  by rewrite bool_decide_false by (by intros [? ?]).
Qed.

Lemma subscribe_ok k s : chans_ok s → chans_ok (Subscribe k s).2.
Proof.
  intros C. rewrite subscribe_run. destruct (isReservedScope k) eqn:Hr; cbn [negb]; [|done].
  destruct (subscribers s !! k) eqn:Hk; [done|]. cbn [snd]. pose proof (fresh_chan_free s) as Hf.
  assert (∀ k' ch, subscribers s !! k' = Some ch → ch ≠ fresh_chan s) as Hne.
  { intros k' ch Hc ->. destruct (ch_open _ C k' _ Hc) as (_ & c & Hx & _). congruence. }
  destruct C as [Co Ci Cc]. constructor; cbn.
  - intros k' ch [[<- <-]|[Hn Hc]]%lookup_insert_Some.
    + split; [done|]. eexists. by rewrite lookup_insert_eq.
    + rewrite lookup_insert_ne by (symmetry; by eapply Hne). by apply Co.
  - intros k1 k2 ch [[<- <-]|[H1 E1]]%lookup_insert_Some [[<- E]|[H2 E2]]%lookup_insert_Some; [done|..].
    + by destruct (Hne k2 _ E2). + subst. by destruct (Hne k1 _ E1). + by eapply Ci.
  - intros ch c [[_ <-]|[_ Hc]]%lookup_insert_Some; [done|by eapply Cc].
Qed.

Lemma unsubscribe_run k s : unsubscribe k s =
  match subscribers s !! k with
  | None => (tt, s)
  | Some ch => (tt, set_table (delete k (subscribers s)) (<[ch := close_chan (chans s !!! ch)]> (chans s)) s)
  end.
Proof. unfold unsubscribe. rewrite bind_eq. cbn [fst snd get]. by destruct (subscribers s !! k). Qed.

Lemma unsubscribe_ok k s : chans_ok s → chans_ok (unsubscribe k s).2.
Proof.
  intros C. rewrite unsubscribe_run. destruct (subscribers s !! k) as [ch|] eqn:Hk; [|done].
  destruct (ch_open _ C k ch Hk) as (_ & c & Hc & Ho). destruct C as [Co Ci Cc]. cbn [snd].
  rewrite (lookup_total_correct _ _ _ Hc). constructor; cbn.
  - intros k' ch' [Hn Hk']%lookup_delete_Some. rewrite lookup_insert_ne by (intros ->; eauto).
    by apply Co.
  - intros k1 k2 ch' [_ H1]%lookup_delete_Some [_ H2]%lookup_delete_Some. by eapply Ci.
  - intros ch' c' [[_ <-]|[_ Hc']]%lookup_insert_Some; [|by eapply Cc]. cbn. rewrite Ho, (Cc ch c Hc). done.
Qed.

Lemma notify_run k s : notifySubscriber k s =
  match subscribers s !! k with
  | None => (tt, s)
  | Some ch =>
      let c := chans s !!! ch in
      if pending c && negb (closed c) then (tt, s)
      else (tt, set_table (subscribers s) (<[ch := send_chan c]> (chans s)) s)
  end.
Proof.
  unfold notifySubscriber. rewrite bind_eq. cbn [fst snd get]. destruct (subscribers s !! k); [|done].
  cbv zeta. by destruct (_ && _).
Qed.

Lemma notify_ok k s : chans_ok s → chans_ok (notifySubscriber k s).2 ∧ woken (notifySubscriber k s).2 k.
Proof.
  intros C. rewrite notify_run. unfold woken.
  destruct (subscribers s !! k) as [ch|] eqn:Hk; [|cbn; split; [done|congruence]].
  destruct (ch_open _ C k ch Hk) as (_ & c & Hc & Ho). cbv zeta. rewrite (lookup_total_correct _ _ _ Hc), Ho.
  destruct (pending c) eqn:Hp; cbn [andb negb snd].
  { split; [done|]. intros ch' Hk'. simplify_eq. by rewrite (lookup_total_correct _ _ _ Hc). }
  split.
  - destruct C as [Co Ci Cc]. constructor; cbn; [|by apply Ci|].
    + intros k' ch' Hk'. destruct (Co k' ch' Hk') as [Hr (c' & Hc' & Ho')]. split; [done|].
      destruct (decide (ch' = ch)) as [->|Hne]; [rewrite lookup_insert_eq|rewrite lookup_insert_ne by done].
      * by eexists. * by eexists.
    + intros ch' c' [[_ <-]|[_ Hc']]%lookup_insert_Some; [|by eapply Cc]. cbn. by rewrite Ho, (Cc ch c Hc).
  - intros ch' Hk'. cbn in *. simplify_eq. by rewrite lookup_total_insert_eq.
Qed.

(** The receiver: a wake-up, then blocked until the next send; the exit only
    once the channel is closed and drained. *)
Definition receive_ok (ch : nat) (s : store) (o : option bool * store) : Prop :=
  let c := chans s !!! ch in
  match o with
  | (Some true, s') => pending c = true ∧ chans s' = <[ch := mkchan false (closed c) (panicked c)]> (chans s)
      ∧ subscribers s' = subscribers s
  | (Some false, s') => pending c = false ∧ closed c = true ∧ s' = s
  | (None, s') => pending c = false ∧ closed c = false ∧ s' = s
  end.
Lemma receive_spec ch s : receive_ok ch s (receive ch s).
Proof.
  unfold receive, receive_ok. rewrite bind_eq. cbn [fst snd get]. cbv zeta.
  destruct (pending _); [by split|]. by destruct (closed _).
Qed.

Lemma table_ok s s' : chans_ok s → table_op s s' → chans_ok s'.
Proof. intros C. destruct 1; [by apply subscribe_ok|by apply unsubscribe_ok|by apply notify_ok]. Qed.

Lemma chans_frame s s' : subscribers s' = subscribers s → chans s' = chans s → chans_ok s → chans_ok s'.
Proof. intros E1 E2 [Co Ci Cc]. constructor; rewrite ?E1, ?E2; done. Qed.

(** A second call of an old unsubscribe closure, after somebody else has
    subscribed, ends the new subscription. *)
Lemma stale_unsubscribe k s ch : isReservedScope k = true → subscribers s !! k = None →
  let s1 := (Subscribe k s).2 in
  (Subscribe k s).1 = Ok ch →
  subscribers (unsubscribe k s1).2 !! k = None ∧ closed (chans (unsubscribe k s1).2 !!! ch) = true.
Proof.
  intros Hr Hk. rewrite subscribe_run, Hr, Hk. cbv zeta. cbn [negb fst snd]. intros [= <-].
  rewrite unsubscribe_run. cbn [subscribers set_table]. rewrite lookup_insert_eq.
  cbn. by rewrite lookup_delete_eq, lookup_total_insert_eq.
Qed.

Context `{CO : !CapsOk}.

Lemma section_subs L db dc s s' : ahead db dc s → tame db dc s → (L = [] → db = 0 ∧ dc = 0) →
  section L s s' → table_op s s' ∨ subscribers s' = subscribers s ∧ chans s' = chans s.
Proof.
  intros I T HL. destruct 1 as [s s' C|k p A m s O Hp|k p t s Hp|k s Hk _|k p s Hr _|k s Hr _|s E
    |st s E G Hfit|s a' E1 E2 E3|s s' HT]; [right..|by left].
  - split; apply C.
  - unfold with_buf. by destruct (m _).
  - done.
  - destruct (slow_create_core _ _ k s I T) as (O & _).
    destruct (slow_create k s) as [[[p []]|e] s1]; cbn in *.
    + apply O. + destruct O as [_ C]. split; apply C. + destruct O as (_ & C & _). split; apply C.
  - destruct (cleanup_core _ _ k p s I T Hr) as ([-> | U] & _); [done|apply U].
  - destruct (deleteScope_locked_core _ _ k s I T Hr) as (O & _).
    destruct (scopes s !! k); [by apply O|by rewrite O].
  - destruct (HL E) as [-> ->]. apply (wipe_core s I).
  - destruct (HL E) as [-> ->]. pose proof (rebuild_phase2_core st s I G Hfit) as H. by apply H.
  - done.
Qed.
Lemma sstep_subs s s' : store_inv s → young s → sstep s s' →
  table_op s s' ∨ subscribers s' = subscribers s ∧ chans s' = chans s.
Proof.
  intros I Y. destruct 1 as [s s' S|g plans s HF Hnd Hw].
  - pose proof (inv_tame s I) as T. apply inv_core in I as [C _]. by apply (section_subs [] 0 0).
  - right. pose proof (replaceScopes_locked_spec s g plans I HF Hnd Hw) as H.
    destruct (replaceScopes_locked plans s) as [[n|e] s2]; [by apply H|]. by destruct H as (-> & _).
Qed.

Lemma steps_chans s s' : store_inv s → chans_ok s → rtc sstep s s' → young s' → chans_ok s'.
Proof.
  intros I C. induction 1 as [|s1 s2 s3 H1 H2 IH]; [done|]. intros Y. pose proof (steps_tick _ _ H2).
  pose proof (sstep_tick _ _ H1). assert (young s1) as Y1 by (unfold young in *; lia).
  destruct (sstep_ok s1 s2 I Y1 H1) as [I2 _]. apply IH; [done| |done].
  destruct (sstep_subs s1 s2 I Y1 H1) as [T|[E1 E2]]; [by eapply table_ok|by eapply chans_frame].
Qed.
Lemma newStore_chans : chans_ok newStore.
Proof. destruct newStore_subs as [E1 E2]. constructor; by rewrite ?E1, ?E2. Qed.
End Subscribe.
