(* ===== verification/OpsSteps.v ===== *)
(** * Every operation of the store is a sequence of atomic sections *)
From S2P Require Import Prelude GoStd Uuid Types Wire Validation Buffer BufferInv BufferSpec.
From S2P Require Import BufferWrite BufferWriteSpec BufferRead BufferDelete BufferCounter.
From S2P Require Import BufferCounterSpec BufferReplace Clock Store StoreInv BufferOps StoreSpec.
From S2P Require Import Events StoreOps Bulk BulkSpec RebuildSpec WarmSpec StoreClock Steps.

Section Ops.
Context `{EV : Env} `{CP : Caps} `{SH : ScopeHash} `{EM : EventMarshal} `{CO : !CapsOk}.

Lemma steps_ret {A} (a : A) P : traced P (ret a) anything.
Proof. by apply traced_ret. Qed.
Lemma steps_bind {A B} (m : SM A) (k : A → SM B) P :
  traced P m anything → (∀ a, runs_steps (k a)) → traced P (bind m k) anything.
Proof.
  intros Hm Hk. eapply traced_bind; [exact Hm|]. intros a. eapply traced_weaken; [apply Hk|done|done].
Qed.
Lemma steps_bindE {A B} (m : SM (result error A)) (k : A → SM (result error B)) P :
  traced P m anything → (∀ a, runs_steps (k a)) → traced P (bindE m k) anything.
Proof. intros Hm Hk. apply steps_bind; [done|]. intros [a|e]; [apply Hk|apply steps_ret]. Qed.
Lemma steps_any {A} P (m : SM A) : runs_steps m → traced P m anything.
Proof. intros Hm. by eapply traced_weaken. Qed.
Lemma steps_if {A} (b : bool) P (m1 m2 : SM A) :
  traced P m1 anything → traced P m2 anything → traced P (if b then m1 else m2) anything.
Proof. by destruct b. Qed.

(** ** Sections *)
Lemma steps_buf k p {A} (m : M (result error A)) : BufferOp k m →
  traced (λ s, published s k p) (with_buf p m) anything.
Proof.
  intros O. apply traced_step; [apply mono_with_buf, O| |done]. intros s _ Hp. by eapply st_section, sc_buf.
Qed.
Lemma steps_counters {A} (m : M A) : mono c_tick m →
  (∀ c, c_buf (m c).2 = c_buf c ∧ totalBytes (c_acct (m c).2) = totalBytes (c_acct c) ∧
        totalItems (c_acct (m c).2) = totalItems (c_acct c) ∧
        scopeCount (c_acct (m c).2) = scopeCount (c_acct c)) →
  runs_steps (on_counters m).
Proof.
  intros C Hm. split; [by apply mono_on_counters|]. intros s _ _ _. split; [|done].
  unfold on_counters. destruct (Hm (mkctx inhabitant (s_acct s) (s_tick s))) as (_ & E1 & E2 & E3).
  pose proof (C (mkctx inhabitant (s_acct s) (s_tick s))) as Ht.
  destruct (m _) as [x [b a t]]. cbn in *.
  eapply rtc_l; [by apply st_section, (sc_counters _ s a)|]. apply rtc_once, st_section, sc_private. by constructor.
Qed.
Lemma steps_now : runs_steps now.
Proof. apply steps_counters; [auto with clock|done]. Qed.
Lemma steps_bump t : runs_steps (on_counters (bumpLastWriteTS t)).
Proof.
  apply steps_counters; [auto with clock|]. intros [b a n]. unfold bumpLastWriteTS, modify_acct. cbn.
  by destruct (_ <=? _).
Qed.
Lemma steps_drop : runs_steps count_drop.
Proof.
  apply traced_step; [auto with clock| |done]. intros s _ _.
  by apply st_section, (sc_counters _ s (add_drop (s_acct s))).
Qed.
Lemma steps_table {A} (m : SM A) : mono s_tick m → (∀ s, table_op s (m s).2) → runs_steps m.
Proof. intros C Hm. apply traced_step; [done| |done]. intros s _ _. apply st_section, sc_table, Hm. Qed.
Lemma steps_notify k : runs_steps (notifySubscriber k).
Proof. apply steps_table; [auto with clock|apply tb_notify]. Qed.
Lemma steps_subscribe k : runs_steps (Subscribe k).
Proof. apply steps_table; [auto with clock|apply tb_subscribe]. Qed.
Lemma steps_unsubscribe k : runs_steps (unsubscribe k).
Proof. apply steps_table; [auto with clock|apply tb_unsubscribe]. Qed.

Definition looked_up (k : string) (r : result error (nat * bool)) (s : store) : Prop :=
  match r with
  | Ok (p, created) => published s k p ∧ ((created : bool) = true → isReservedScope k = false)
  | Err _ => True
  end.

Lemma steps_getOrCreate k : traced always (getOrCreateScopeTrackingCreated k) (looked_up k).
Proof.
  split; [auto with clock|]. intros s I _ _. destruct (decide (k = ""%string)) as [->|Hk].
  { cbn. done. }
  split.
  - rewrite getOrCreate_run by (done || apply I). destruct (scopes s !! k); [done|].
    apply rtc_once, st_section, sc_create; [done|set_solver].
  - destruct (getOrCreate_spec k s I Hk) as (O & I' & X). revert O I' X.
    destruct (getOrCreateScopeTrackingCreated k s) as [[[p []]|e] s']; cbn; [| |done].
    + intros C _ _. split; [left; by rewrite (cs_scopes _ _ _ _ C), lookup_insert_eq|].
      intros _. eapply not_reserved; [exact I|apply C].
    + intros [Hp C] _ _. split; [|done]. left. by destruct (same_inv s s' I C) as (_ & -> & _).
Qed.

Lemma steps_cleanup k p : isReservedScope k = false → runs_steps (cleanupIfEmptyAndUnused k p).
Proof. intros Hr. apply traced_step; [auto with clock| |done]. intros. apply st_section, sc_cleanup; [done|set_solver]. Qed.
Lemma steps_unlink k : isReservedScope k = false → runs_steps (deleteScope_locked k).
Proof. intros Hr. apply traced_step; [auto with clock| |done]. intros. apply st_section, sc_unlink; [done|set_solver]. Qed.

(** Look the scope up for writing, run the method, roll a new scope back on an error. *)
Lemma steps_or_cleanup k {A} p created (m : M (result error A)) (c : A → SM (result error A)) :
  BufferOp k m → (∀ a, runs_steps (c a)) →
  traced (looked_up k (Ok (p, created))) (or_cleanup k p created m c) anything.
Proof.
  intros O Hc. unfold or_cleanup. destruct (decide (created = true → isReservedScope k = false)) as [Hr|Hr].
  - apply steps_bind; [eapply traced_weaken; [by apply (steps_buf k)|by intros s [? _]|done]|].
    intros [a|e]; [apply Hc|]. apply steps_bind; [|intros; apply steps_ret].
    destruct created; [by apply steps_cleanup, Hr|apply steps_ret].
  - split; [|by intros s _ [_ ?]]. apply mono_bind; [apply mono_with_buf, O|]. intros [a|e]; [apply Hc|].
    apply mono_bind; [|intros; apply mono_ret]. destruct created; auto with clock.
Qed.

Lemma steps_lookup k {A} p (m : M (result error A)) : BufferOp k m →
  traced (λ s, getScope s k = Some p) (with_buf p m) anything.
Proof.
  intros O. apply traced_step; [apply mono_with_buf, O| |done]. intros s I Hp. eapply st_section, sc_buf; [done|].
  left. by rewrite scopes_lookup by apply I.
Qed.
(** [get] followed by a lookup in the state read. *)
Lemma steps_get {A} (f : store → SM A) : (∀ s0, traced (λ s, s0 = s) (f s0) anything) →
  runs_steps (bind get f).
Proof.
  intros Hf. eapply traced_bind; [apply traced_get|]. intros s0. eapply traced_weaken; [apply Hf| |done].
  by intros s [-> _].
Qed.

(** ** The append and its event *)
Lemma steps_append_fuel stuck n it : runs_steps stuck → runs_steps (appendOneTrusted_fuel stuck n it).
Proof.
  intros Hs. revert it. induction n as [|n IH]; intros it; cbn [appendOneTrusted_fuel]; [done|].
  eapply traced_bindE; [apply (steps_getOrCreate (Scope it))|done|]. intros [p created].
  apply (steps_or_cleanup (Scope it) p created (appendItem it)); [by apply appendItem_op|].
  intros r. apply steps_bind.
  - unfold emitAppendEvent_with. apply steps_if; [apply steps_ret|]. unfold emitEvent_with.
    destruct (jsonMarshal_event _); [|apply steps_drop]. apply steps_bind; [apply IH|].
    intros [?|?]; [apply steps_ret|apply steps_drop].
  - intros _. apply steps_bind; [|intros; apply steps_ret].
    apply steps_if; [apply steps_notify|apply steps_ret].
Qed.
Lemma steps_appendOneTrusted it : runs_steps (appendOneTrusted it).
Proof. apply steps_append_fuel, steps_ret. Qed.
Lemma steps_emit e : runs_steps (emitEvent e).
Proof.
  unfold emitEvent, emitEvent_with. destruct (jsonMarshal_event _); [|apply steps_drop].
  apply steps_bind; [apply steps_appendOneTrusted|]. intros [?|?]; [apply steps_ret|apply steps_drop].
Qed.
Lemma steps_gated k e : runs_steps (gated k e).
Proof. unfold gated. apply steps_if; [apply steps_ret|apply steps_emit]. Qed.
Lemma steps_emitWarm : runs_steps emitWarmEvent.
Proof.
  unfold emitWarmEvent. apply steps_if; [apply steps_ret|].
  apply steps_bind; [apply steps_now|intros; apply steps_emit].
Qed.
Lemma steps_emitDeleteScope k : runs_steps (emitDeleteScopeEvent k).
Proof.
  unfold emitDeleteScopeEvent. apply steps_if; [apply steps_ret|].
  apply steps_bind; [apply steps_now|intros; apply steps_emit].
Qed.

(** ** The single-item operations *)
Lemma steps_appendOne it : runs_steps (appendOne it).
Proof.
  unfold appendOne. destruct (validateWriteItem _ _ _); [apply steps_appendOneTrusted|apply steps_ret].
Qed.

(** Items decoded from a request carry no counter cell. *)
Definition client_item (it : Item) : Prop := counter it = None.

Lemma render_fixed it :
  render_of (renderBytes (fillRenderBytes it)) (Payload (fillRenderBytes it)) = renderBytes (fillRenderBytes it).
Proof.
  unfold fillRenderBytes, render_of. destruct it as [? ? ? ? ? p [] ?]; cbn; [done|].
  by destruct (precomputeRenderBytes p).
Qed.
Lemma fill_lengths it : client_item it → approxItemSize (fillRenderBytes it) ≤ maxItemBytes →
  lengths_ok (Payload (fillRenderBytes it))
    (render_of (renderBytes (fillRenderBytes it)) (Payload (fillRenderBytes it))).
Proof.
  intros Hc Hs. rewrite render_fixed. unfold lengths_ok. pose proof co_item.
  rewrite approxItemSize_eq in Hs. destruct (fillRenderBytes_fields it) as (_ & _ & _ & _ & _ & _ & Ec).
  rewrite Ec, Hc in Hs. pose proof (slen_nonneg (Scope (fillRenderBytes it))).
  pose proof (slen_nonneg (ID (fillRenderBytes it))). destruct (IsZero _); lia.
Qed.

Lemma steps_upsertOne it : client_item it → runs_steps (upsertOne it).
Proof.
  intros Hc. unfold upsertOne. destruct (validateUpsertItem _ _) as [it'|e] eqn:E; [|apply steps_ret].
  apply validateUpsertItem_spec in E as (_ & _ & _ & _ & _ & _ & _ & -> & Hs).
  assert (approxItemSize (fillRenderBytes it) ≤ maxItemBytes) as Hs'.
  { destruct (IsZero _); unfold uuidStringLen in Hs; lia. }
  eapply traced_bindE; [apply steps_getOrCreate|done|]. intros [p created].
  apply steps_or_cleanup; [by apply upsertByID_op, fill_lengths|]. intros r.
  apply steps_bind; [apply steps_gated|intros; apply steps_ret].
Qed.

Lemma steps_counterAddOne k id n : runs_steps (counterAddOne k id n).
Proof.
  unfold counterAddOne. destruct (validateCounterAddRequest _ _) as [v|e] eqn:E; [|apply steps_ret].
  apply validateCounterAddRequest_spec in E as (_ & _ & [Hid _] & [= <-] & _ & Hn & _).
  eapply traced_bindE; [apply steps_getOrCreate|done|]. intros [p created].
  apply steps_or_cleanup; [by apply counterAdd_op|]. intros r. apply steps_bind.
  - apply steps_if; [|apply steps_ret]. apply steps_bind; [apply steps_now|intros; apply steps_bump].
  - intros _. apply steps_bind; [apply steps_gated|intros; apply steps_ret].
Qed.

(** The four operations on an existing scope share their shape. *)
Lemma steps_on_scope k {A} (m : M (result error A)) (d : result error A) (c : A → SM (result error A)) :
  BufferOp k m → (∀ a, runs_steps (c a)) →
  runs_steps (let* s := get in
    match getScope s k with
    | None => ret d
    | Some buf => let? a := with_buf buf m in c a
    end).
Proof.
  intros O Hc. apply steps_get. intros s0. destruct (getScope s0 k) as [p|] eqn:E; [|apply steps_ret].
  eapply traced_weaken; [apply steps_bindE; [by apply (steps_lookup k p)|exact Hc]| |done].
  by intros s <-.
Qed.

Lemma steps_updateOne it : client_item it → runs_steps (updateOne it).
Proof.
  intros Hc. unfold updateOne. destruct (validateUpdateItem _ _) as [it'|e] eqn:E; [|apply steps_ret].
  apply validateUpdateItem_spec in E as (_ & _ & _ & _ & _ & -> & Hs).
  assert (approxItemSize (fillRenderBytes it) ≤ maxItemBytes) as Hs'.
  { destruct (IsZero _); unfold uuidStringLen in Hs; lia. }
  apply steps_on_scope.
  - pose proof (fill_lengths it Hc Hs'). unfold update_target.
    destruct (negb _); [by apply updateByID_op|]. destruct (negb _); [by apply updateByUUID_op|].
    by apply updateBySeq_op.
  - intros n. apply steps_bind; [|intros; apply steps_ret]. apply steps_if; [apply steps_gated|apply steps_ret].
Qed.

Lemma delete_target_op k id n u : BufferOp k (delete_target id n u).
Proof. unfold delete_target. destruct (negb _); [apply _|]. destruct (negb _); apply _. Qed.
Lemma drain_target_op k n u : BufferOp k (drain_target n u).
Proof. unfold drain_target. destruct (negb _); apply _. Qed.

Lemma steps_deleteOne k id n u : runs_steps (deleteOne k id n u).
Proof.
  unfold deleteOne. destruct (validateDeleteRequest _); [|apply steps_ret].
  apply steps_on_scope; [apply delete_target_op|]. intros m.
  apply steps_bind; [|intros; apply steps_ret]. apply steps_if; [apply steps_gated|apply steps_ret].
Qed.
Lemma steps_deleteUpTo k n u : runs_steps (deleteUpTo k n u).
Proof.
  unfold deleteUpTo. destruct (validateDeleteUpToRequest _); [|apply steps_ret].
  apply steps_on_scope; [apply drain_target_op|]. intros m.
  apply steps_bind; [|intros; apply steps_ret]. apply steps_if; [apply steps_gated|apply steps_ret].
Qed.
Lemma steps_deleteScope k : runs_steps (deleteScope k).
Proof.
  unfold deleteScope. destruct (validateDeleteScopeRequest _) as [[]|e] eqn:E; [|apply steps_ret].
  unfold validateDeleteScopeRequest in E. rewrite wrapValidation_ok, check_ok, guard_ok in E.
  destruct E as [_ Hr]. apply steps_bind; [by apply steps_unlink|]. intros [n ok].
  apply steps_if; [apply steps_ret|]. apply steps_bind; [apply steps_emitDeleteScope|intros; apply steps_ret].
Qed.

(** ** Reads *)
Lemma traced_keep {A} (m : SM A) k p : runs_steps m →
  traced (λ s, published s k p) m (λ _ s, published s k p).
Proof.
  intros [C T]. split; [done|]. intros s I Hp Y. destruct (T s I Logic.I Y) as [S _].
  split; [done|]. by apply (steps_ok s _ I S Y).
Qed.
Lemma steps_record_read k p : traced (λ s, published s k p) (record_read p) anything.
Proof.
  unfold record_read. eapply traced_bind; [apply (traced_keep _ k p), steps_now|]. intros t. cbn beta.
  apply traced_step; [auto with clock| |done]. intros s _ Hp. by apply st_section, (sc_read _ k).
Qed.
Lemma steps_window k w : runs_steps (window k w).
Proof.
  unfold window. apply steps_get. intros s0. destruct (getScope s0 k) as [p|] eqn:E; [|apply steps_ret].
  destruct (w (buf_at s0 p)) as [l tr]. apply steps_bind; [|intros; apply steps_ret].
  apply steps_if; [|apply steps_ret]. split; [apply steps_record_read; exact k|].
  intros s I <- Y. apply (tr_run _ _ _ (steps_record_read k p)); [done| |done].
  left. by rewrite scopes_lookup by apply I.
Qed.
Lemma steps_get_item k id n u : runs_steps (get_item k id n u).
Proof.
  unfold get_item. apply steps_get. intros s0. destruct (getScope s0 k) as [p|] eqn:E; [|apply steps_ret].
  destruct (lookup_item _ _ _ _); [|apply steps_ret]. apply steps_bind; [|intros; apply steps_ret].
  split; [apply steps_record_read; exact k|].
  intros s I <- Y. apply (tr_run _ _ _ (steps_record_read k p)); [done| |done].
  left. by rewrite scopes_lookup by apply I.
Qed.
Lemma steps_render k id n u : runs_steps (render k id n u).
Proof. unfold render. apply steps_bind; [apply steps_get_item|intros; apply steps_ret]. Qed.

(** ** Bulk writes *)
Definition batch_ok (g : batch) : Prop :=
  NoDup g.*1 ∧ batch_weight g + reservedScopesOverhead ≤ MaxInt64.

Lemma steps_wipe : runs_steps wipe.
Proof. apply traced_step; [auto with clock| |done]. intros. by apply st_section, sc_wipe. Qed.

Lemma steps_replaceScopes g : batch_ok g → runs_steps (replaceScopes g).
Proof.
  intros [Hnd Hw]. change reservedScopesOverhead with 2048 in Hw.
  assert (batch_weight g ≤ MaxInt64) as Hwg by (clear -Hw; lia). unfold replaceScopes.
  eapply (traced_bindE _ _ _ (λ r _, match r with
    | Ok ps => Forall2 (λ e p, ∃ l', plan_for e l' p) g ps | Err _ => True end)); [|done|].
  - split; [auto with clock|]. intros s _ _ _. unfold on_tick.
    pose proof (warm_phase1_spec g [] [] (s_tick s) Hwg) as HP.
    destruct (warm_phase1 g [] [] (s_tick s)) as [r t]. destruct HP as [Ht HP]. cbn. split.
    + apply rtc_once, st_section, sc_private. by constructor.
    + destruct r as [ps|]; [|done]. by destruct HP as (_ & ps' & -> & HF).
  - intros plans. cbn beta. apply steps_bindE.
    + apply traced_step; [auto with clock| |done]. intros s _ HF. by apply (st_warm g).
    + intros n. apply steps_bind; [apply steps_if; [apply steps_emitWarm|apply steps_ret]|].
      intros; apply steps_ret.
Qed.

Lemma steps_rebuildAll g : batch_ok g → runs_steps (rebuildAll g).
Proof.
  intros [Hnd Hw]. change reservedScopesOverhead with 2048 in Hw. unfold rebuildAll.
  set (st0 := mkrebuild _ _ _ _ _).
  eapply (traced_bindE _ _ _ (λ r s, match r with
    | Ok st => staged st s ∧ 0 ≤ rb_bytes st ≤ batch_weight g | Err _ => True end)); [|done|].
  - split; [auto with clock|]. intros s I _ _. destruct (staged_empty s I) as [G0 E0].
    pose proof (rebuild_phase1_spec g st0 s I G0 Hnd) as HP. ospecialize (HP _ _ _); [|done|cbn; lia|].
    { intros k _. unfold st0. by rewrite E0, lookup_empty. }
    destruct (rebuild_phase1 g st0 s) as [r s1]. destruct HP as [C HP]. cbn. split.
    + by apply rtc_once, st_section, sc_private.
    + destruct r as [st|]; [|done]. destruct HP as (? & Hb & _). change (rb_bytes st0) with 0 in Hb. done.
  - intros st. cbn beta. destruct (negb _); [apply steps_ret|].
    destruct (Z.ltb_spec maxStoreBytes (i64 (rb_bytes st + reservedScopesOverhead))) as [|Hfit]; [apply steps_ret|].
    apply steps_bind; [|intros; apply steps_ret]. apply traced_step; [auto with clock| |done].
    intros s _ [G Hb]. apply st_section, sc_rebuild; [done|done|]. change reservedScopesOverhead with 2048 in *.
    rewrite i64_id in Hfit; [done|]. unfold in_i64, MinInt64. lia.
Qed.

(** ** A call of the store's interface *)
Inductive call :=
| CAppend (it : Item) | CUpsert (it : Item) | CUpdate (it : Item)
| CCounterAdd (scope id : string) (n : Z)
| CDelete (scope id : string) (seq : Z) (uuid : string)
| CDeleteUpTo (scope : string) (maxSeq : Z) (uuid : string)
| CDeleteScope (scope : string)
| CHead (scope : string) (after limit : Z) | CTail (scope : string) (limit offset : Z)
| CGet (scope id : string) (seq : Z) (uuid : string)
| CRender (scope id : string) (seq : Z) (uuid : string)
| CWarm (g : batch) | CRebuild (g : batch) | CWipe
| CSubscribe (scope : string) | CUnsubscribe (scope : string).

(** What a call returns, and its run. *)
Definition answer (c : call) : Type :=
  match c with
  | CAppend _ => result error Item
  | CUpsert _ => result error (Item * bool)
  | CUpdate _ | CDelete _ _ _ _ | CDeleteUpTo _ _ _ | CWarm _ => result error Z
  | CCounterAdd _ _ _ | CDeleteScope _ => result error (Z * bool)
  | CHead _ _ _ | CTail _ _ _ => list Item * bool * bool
  | CGet _ _ _ _ => option Item
  | CRender _ _ _ _ => option slice
  | CRebuild _ => result error (Z * Z)
  | CWipe => Z * Z * Z
  | CSubscribe _ => result subscribe_error nat
  | CUnsubscribe _ => unit
  end.
Definition perform (c : call) : SM (answer c) :=
  match c with
  | CAppend it => appendOne it
  | CUpsert it => upsertOne it
  | CUpdate it => updateOne it
  | CCounterAdd k id n => counterAddOne k id n
  | CDelete k id n u => deleteOne k id n u
  | CDeleteUpTo k n u => deleteUpTo k n u
  | CDeleteScope k => deleteScope k
  | CHead k a l => StoreOps.head k a l
  | CTail k l o => StoreOps.tail k l o
  | CGet k id n u => get_item k id n u
  | CRender k id n u => render k id n u
  | CWarm g => replaceScopes g
  | CRebuild g => rebuildAll g
  | CWipe => wipe
  | CSubscribe k => Subscribe k
  | CUnsubscribe k => unsubscribe k
  end.
Definition run_call (c : call) : SM unit := perform c ;;; ret tt.

(** What a decoded request satisfies by construction: no internal cell in an
    item, a Go map of scopes whose bytes fit in memory. *)
Definition call_ok (c : call) : Prop :=
  match c with
  | CUpsert it | CUpdate it => client_item it
  | CWarm g | CRebuild g => batch_ok g
  | _ => True
  end.

Fixpoint run_calls (cs : list call) : SM unit :=
  match cs with
  | [] => ret tt
  | c :: cs => run_call c ;;; run_calls cs
  end.

Lemma steps_perform c : call_ok c → runs_steps (perform c).
Proof.
  destruct c; cbn [perform call_ok]; intros Hok.
  - apply steps_appendOne.
  - by apply steps_upsertOne.
  - by apply steps_updateOne.
  - apply steps_counterAddOne.
  - apply steps_deleteOne.
  - apply steps_deleteUpTo.
  - apply steps_deleteScope.
  - apply steps_window.
  - apply steps_window.
  - apply steps_get_item.
  - apply steps_render.
  - by apply steps_replaceScopes.
  - by apply steps_rebuildAll.
  - apply steps_wipe.
  - apply steps_subscribe.
  - apply steps_unsubscribe.
Qed.
Lemma steps_call c : call_ok c → runs_steps (run_call c).
Proof. intros Hc. apply steps_bind; [by apply steps_perform|intros; apply steps_ret]. Qed.
Lemma call_state c s : (run_call c s).2 = (perform c s).2.
Proof. unfold run_call. by rewrite bind_eq. Qed.

Lemma steps_calls cs : Forall call_ok cs → runs_steps (run_calls cs).
Proof.
  induction 1 as [|c cs Hc _ IH]; [apply steps_ret|]. apply steps_bind; [by apply steps_call|done].
Qed.
End Ops.
