(* ===== verification/EventsSpec.v ===== *)
(** * Appends at the store: the event recursion, failures, and what an event touches *)
From S2P Require Import Prelude GoStd Uuid Types Wire Validation Buffer BufferInv BufferSpec.
From S2P Require Import BufferWrite BufferWriteSpec BufferRead BufferCounter BufferCounterSpec.
From S2P Require Import Clock Store StoreInv BufferOps StoreSpec Events StoreOps StoreClock Steps.
From S2P Require Import OpsSteps.

Section Fuel.
Context `{EV : Env} `{CP : Caps} `{SH : ScopeHash} `{EM : EventMarshal}.

(** ** The recursion guard *)
Lemma insert_scope item now u : yields (insertNewItemLocked item now u) (λ r, Scope r = Scope item).
Proof.
  assert (Scope (with_render (with_ts now item)) = Scope item) as E1
    by (unfold with_render, with_ts; destruct item as [? ? ? ? ? ? [] ?]; done).
  unfold insertNewItemLocked. apply yields_bind. intros b.
  set (it := if attached b && _ then _ else _).
  assert (Scope it = Scope item) as E2 by (unfold it; by destruct (_ && _)). clearbody it.
  apply yields_bindE. intros _. apply yields_bind. intros _. apply yields_bind. intros _.
  apply yields_bind. intros _. by apply yields_ok.
Qed.

Lemma append_scope item : yields (appendItem item) (λ r, Scope r = Scope item).
Proof.
  unfold appendItem. apply yields_bind. intros u. apply yields_bind. intros b.
  destruct (detached b); [apply yields_err|]. destruct (itemCapExceeded _ _); [apply yields_err|].
  destruct (_ && _); [apply yields_err|]. apply yields_bind. intros t. apply insert_scope.
Qed.

Lemma with_buf_scope p item s r s' : with_buf p (appendItem item) s = (Ok r, s') → Scope r = Scope item.
Proof.
  unfold with_buf. pose proof (append_scope item (mkctx (buf_at s p) (s_acct s) (s_tick s))) as Y.
  destruct (appendItem item _) as [x c]. by intros [= -> _].
Qed.

(** An item of the event scope is appended without a further event. *)
Lemma fuel_event stuck1 stuck2 n m it s : Scope it = EventsScopeName →
  appendOneTrusted_fuel stuck1 (S n) it s = appendOneTrusted_fuel stuck2 (S m) it s.
Proof.
  intros Hs. cbn [appendOneTrusted_fuel]. apply bind_ext. intros [[p created]|e] s1 _; [|done].
  apply bind_ext. intros [r|e] s2 Eb; [|done]. apply with_buf_scope in Eb. unfold emitAppendEvent_with.
  assert (eventsEnabled (Scope r) = false) as ->; [|done].
  unfold eventsEnabled. rewrite Eb, Hs, bool_decide_true by done. by rewrite andb_false_r.
Qed.

Lemma fuel_any stuck1 stuck2 n m it s :
  appendOneTrusted_fuel stuck1 (S (S n)) it s = appendOneTrusted_fuel stuck2 (S (S m)) it s.
Proof.
  remember (S n) as n1 eqn:E1. remember (S m) as m1 eqn:E2. cbn [appendOneTrusted_fuel]. subst.
  apply bind_ext. intros [[p created]|e] s1 _; [|done]. apply bind_ext. intros [r|e] s2 _; [|done].
  apply bind_ext_l. unfold emitAppendEvent_with. destruct (negb _); [done|]. unfold emitEvent_with.
  destruct (jsonMarshal_event _) as [body|]; [|done]. apply bind_ext_l.
  by apply (fuel_event stuck1 stuck2 n m (event_item body)).
Qed.
End Fuel.

Section NoTrace.
Context `{EV : Env} `{CP : Caps} `{SH : ScopeHash} `{EM : EventMarshal} `{CO : !CapsOk}.

(** ** A failed write leaves no trace *)
Class FailClean (k : string) {A} (m : M (result error A)) : Prop :=
  fail_clean : ∀ b a t, buf_pre b a → detached b = false → scope_ok k b → lastSeq b < MaxUint64 →
    match m (mkctx b a t) with
    | (Err _, c) => c_acct c = a ∧ view (c_buf c) = view b ∧ lastSeq (c_buf c) = lastSeq b
    | _ => True
    end.

#[export] Instance append_fail_clean k it : FailClean k (appendItem it).
Proof.
  intros b a t P Hd _ Hl. rewrite appendItem_run by done. cbv zeta. rewrite Hd.
  destruct (itemCapExceeded _ _); [done|]. destruct (_ && _); [done|]. destruct (_ <? _); [done|].
  by destruct (_ <=? _).
Qed.

Lemma upsert_fail_clean k it : lengths_ok (Payload it) (render_of (renderBytes it) (Payload it)) →
  FailClean k (upsertByID it).
Proof.
  intros HL b a t P Hd _ Hl. rewrite upsertByID_run by done. cbv zeta. rewrite Hd.
  destruct (byID b !! ID it) as [p|]; [destruct (_ <=? _); done|].
  destruct (itemCapExceeded _ _); [done|]. destruct (_ <? _); [done|]. by destruct (_ <=? _).
Qed.

Lemma counter_fail_clean k id n : id ≠ ""%string → in_counter n → FailClean k (counterAdd k id n).
Proof.
  intros Hid Hn b a t P Hd _ Hl. rewrite counterAdd_run by done.
  pose proof (fast_post k id n b a t P Hl Hid Hn) as HP. revert HP.
  destruct (fast_outcome _ _ _ _ _ _) as [[[v []]|e] c]; [done|done|]. intros [_ (V & A & L)]. done.
Qed.

(** Nothing a reader or a later write can tell apart. *)
Record no_trace (s s' : store) : Prop := {
  nt_shards : shards s' = shards s;
  nt_acct : s_acct s' = s_acct s;
  nt_subs : subscribers s' = subscribers s ∧ chans s' = chans s;
  nt_view : ∀ p, (p < nextb s)%nat → view (buf_at s' p) = view (buf_at s p) ∧
    lastSeq (buf_at s' p) = lastSeq (buf_at s p);
}.
Lemma same_no_trace s s' : same_content s s' → no_trace s s'.
Proof.
  intros C. constructor; try apply C; [split; apply C|]. intros p Hp. by rewrite (sc_bufs _ _ C).
Qed.

Lemma with_buf_frame p {A} (m : M A) s : let s' := (with_buf p m s).2 in
  shards s' = shards s ∧ subscribers s' = subscribers s ∧ chans s' = chans s ∧ nextb s' = nextb s ∧
  ∀ q, q ≠ p → buf_at s' q = buf_at s q.
Proof.
  cbv zeta. unfold with_buf. destruct (m _) as [x c]. cbn. do 4 (split; [done|]).
  intros q Hq. unfold buf_at. cbn. by apply lookup_total_insert_ne.
Qed.

Lemma with_buf_fail k p {A} (m : M (result error A)) s : FailClean k m → store_inv s → young s →
  scopes s !! k = Some p → ∀ e s', with_buf p m s = (Err e, s') →
  s_acct s' = s_acct s ∧ view (buf_at s' p) = view (buf_at s p) ∧ lastSeq (buf_at s' p) = lastSeq (buf_at s p).
Proof.
  intros F I Y Hk e s'. destruct (si_live _ I k p Hk) as [L _]. unfold with_buf.
  pose proof (F (buf_at s p) (s_acct s) (s_tick s) (live_pre s k p I Hk) (lb_det _ _ _ L)
    (lb_scope _ _ _ L) (live_seq s k p I Y Hk)) as HF.
  destruct (m _) as [x c]. intros [= -> <-]. cbn. unfold buf_at at 1 3. cbn.
  by rewrite lookup_total_insert_eq.
Qed.

Lemma failed_write k {A} (m : M (result error A)) (c : bool → A → SM (result error A)) s e s' :
  BufferOp k m → FailClean k m → (∀ b a s, is_ok (c b a s).1 = true) → k ≠ ""%string →
  store_inv s → young s' →
  (∀ b a, mono s_tick (c b a)) →
  (let? r := getOrCreateScopeTrackingCreated k in
   let '(p, created) := r in or_cleanup k p created m (c created)) s = (Err e, s') →
  no_trace s s'.
Proof.
  intros O F Hc Hk I Y Hmono. unfold bindE, bind.
  destruct (getOrCreate_spec k s I Hk) as (Oc & I1 & _). revert Oc I1.
  destruct (getOrCreateScopeTrackingCreated k s) as [[[p created]|e1] s1] eqn:Eg; cbn [fst snd].
  2:{ intros (_ & C & _) _ [= _ <-]. by apply same_no_trace. }
  intros Oc I1. unfold or_cleanup, bind. pose proof (with_buf_frame p m s1) as Fr.
  pose proof (mono_with_buf p m (bo_clock (BufferOp := O)) s1) as Ht.
  destruct (with_buf p m s1) as [[a|e2] s2] eqn:Eb; cbn [fst snd] in Fr, Ht.
  { intros E. exfalso. specialize (Hc created a s2). by rewrite E in Hc. }
  intros E. assert (s_tick s2 ≤ s_tick s')%nat as Ht2.
  { destruct created; cbv iota in E; [|by injection E as _ <-].
    pose proof (mono_cleanup k p s2) as Hm. destruct (cleanupIfEmptyAndUnused k p s2). injection E as _ <-. done. }
  assert (young s1) as Y1 by (unfold young in *; lia).
  assert (scopes s1 !! k = Some p) as Hp.
  { destruct created; cbn in Oc.
    - by rewrite (cs_scopes _ _ _ _ Oc), lookup_insert_eq.
    - destruct Oc as [Hp C]. by destruct (same_inv s s1 I C) as (_ & -> & _). }
  destruct (with_buf_fail k p m s1 F I1 Y1 Hp e2 s2 Eb) as (Ea & Ev & El).
  destruct Fr as (F1 & F2 & F3 & F4 & F5).
  destruct created; cbv iota in E; cbn in Oc.
  - assert (cleanupIfEmptyAndUnused k p s2 = (tt, s')) as Ec
      by (destruct (cleanupIfEmptyAndUnused k p s2) as [[] ?]; by injection E as _ <-).
    apply same_no_trace. replace s' with ((cleanupIfEmptyAndUnused k p s2).2) by (by rewrite Ec).
    eapply (rollback k p s s1 s2); try done.
    + destruct (with_buf_live k p m s1 O I1 Y1 Hp) as [I2 _]. by rewrite Eb in I2.
    + unfold view in Ev. rewrite (cs_buf _ _ _ _ Oc) in Ev. by apply fmap_nil_inv in Ev.
  - injection E as _ <-. destruct Oc as [_ C]. constructor.
    + rewrite F1. apply C.
    + rewrite Ea. apply C.
    + rewrite F2, F3. split; apply C.
    + intros q Hq. destruct (decide (q = p)) as [->|Hne].
      * rewrite Ev, El. by rewrite (sc_bufs _ _ C).
      * rewrite F5 by done. by rewrite (sc_bufs _ _ C).
Qed.
End NoTrace.
