(* ===== verification/Refine.v ===== *)
(** * The store refines a map from scopes to item lists

  [content] is the abstract store: the items of every scope, oldest first.
  Each operation is a relation on the list of one scope ([Edits]); the store
  applies it to that scope and leaves the others alone, apart from the event
  scope, where it may log the write. *)
From S2P Require Import Prelude GoStd Uuid Types Wire Validation Buffer BufferInv BufferSpec.
From S2P Require Import BufferWrite BufferWriteSpec BufferRead BufferDelete BufferDeleteSpec.
From S2P Require Import BufferCounter BufferCounterSpec BufferReplaceSpec BufferTheorems.
From S2P Require Import Clock Store StoreInv BufferOps StoreSpec Events StoreOps StoreClock Steps.
From S2P Require Import Bulk BulkSpec RebuildSpec WarmSpec OpsSteps EventsSpec.

(** The abstract store: the items of each scope, oldest first. *)
Definition astore : Type := string → option (list aitem).

Section Content.
Context `{EV : Env} `{CP : Caps} `{SH : ScopeHash} `{EM : EventMarshal} `{CO : !CapsOk}.

Definition content (s : store) : astore := λ k,
  (λ p, view (buf_at s p)) <$> scopes s !! k.

(** ** What logging a write may touch *)
Record only_events (s s' : store) : Prop := {
  oev_inv : store_inv s';
  oev_scopes : scopes s' = scopes s;
  oev_bufs : ∀ k p, k ≠ EventsScopeName → scopes s !! k = Some p → buf_at s' p = buf_at s p;
  oev_subs : subscribers s' = subscribers s;
}.
Lemma only_events_content s s' k : only_events s s' → k ≠ EventsScopeName → content s' k = content s k.
Proof.
  intros O Hk. unfold content. rewrite (oev_scopes _ _ O). destruct (scopes s !! k) as [p|] eqn:E; [|done].
  cbn. by rewrite (oev_bufs _ _ O k p).
Qed.
Lemma only_events_refl s : store_inv s → only_events s s.
Proof. by constructor. Qed.
Lemma only_events_trans s1 s2 s3 : only_events s1 s2 → only_events s2 s3 → only_events s1 s3.
Proof.
  intros [I1 S1 B1 T1] [I2 S2 B2 T2]. constructor; try done; try congruence. intros k p Hk Hp.
  rewrite (B2 k) by (done || by rewrite S1). by apply (B1 k).
Qed.

(** Computations that only log. *)
Record quiet {A} (m : SM A) : Prop := {
  q_clock : mono s_tick m;
  q_run : ∀ s, store_inv s → young (m s).2 → only_events s (m s).2;
}.
Lemma quiet_ret {A} (a : A) : quiet (ret a).
Proof. split; [apply mono_ret|]. intros s I _. by apply only_events_refl. Qed.
Lemma quiet_bind {A B} (m : SM A) (k : A → SM B) : quiet m → (∀ a, quiet (k a)) → quiet (bind m k).
Proof.
  intros [C1 Q1] Hk. split; [apply mono_bind; [done|intros; apply Hk]|]. intros s I. unfold bind.
  specialize (Q1 s I). destruct (m s) as [a s1]. cbn in *. destruct (Hk a) as [C2 Q2].
  intros Y. specialize (C2 s1). assert (young s1) as Y1 by (unfold young in *; lia).
  specialize (Q1 Y1). eapply only_events_trans; [exact Q1|]. apply Q2; [apply Q1|done].
Qed.
Lemma quiet_if {A} (b : bool) (m1 m2 : SM A) : quiet m1 → quiet m2 → quiet (if b then m1 else m2).
Proof. by destruct b. Qed.

(** A traced computation whose buffers do not change is quiet. *)
Lemma quiet_frame {A} (m : SM A) : runs_steps m →
  (∀ s, shards (m s).2 = shards s ∧ bufs (m s).2 = bufs s ∧ subscribers (m s).2 = subscribers s) → quiet m.
Proof.
  intros [C T] Hm. split; [done|]. intros s I Y. destruct (T s I Logic.I Y) as [S _].
  destruct (steps_ok s _ I S Y) as [I' _]. destruct (Hm s) as (E1 & E2 & E3).
  destruct (placed_shards s (m s).2 E1) as (_ & HS & _).
  constructor; try done. intros k p _ _. unfold buf_at. by rewrite E2.
Qed.
Lemma quiet_now : quiet now.
Proof. apply quiet_frame; [apply steps_now|done]. Qed.
Lemma quiet_bump t : quiet (on_counters (bumpLastWriteTS t)).
Proof. apply quiet_frame; [apply steps_bump|done]. Qed.
Lemma quiet_drop : quiet count_drop.
Proof. apply quiet_frame; [apply steps_drop|done]. Qed.
Lemma quiet_notify k : quiet (notifySubscriber k).
Proof.
  apply quiet_frame; [apply steps_notify|]. intros s. unfold notifySubscriber. rewrite bind_get.
  destruct (subscribers s !! k); [destruct (_ && _)|]; done.
Qed.

Lemma events_mapped s : store_inv s → ∃ p, scopes s !! EventsScopeName = Some p.
Proof. intros I. destruct (si_reserved _ I EventsScopeName) as [p Hp]; [by left|eauto]. Qed.

Lemma event_append_run stuck body s p : store_inv s → scopes s !! EventsScopeName = Some p →
  appendOneTrusted_fuel stuck 1 (event_item body) s =
  (let* res := with_buf p (appendItem (event_item body)) in
   match res with
   | Err e => ret (Err e)
   | Ok r =>
       (if isReservedScope (Scope r) then notifySubscriber (Scope r) else ret tt) ;;; ret (Ok r)
   end) s.
Proof.
  intros I Hp. cbn [appendOneTrusted_fuel]. change (Scope (event_item body)) with EventsScopeName.
  unfold bindE. rewrite (bind_run _ _ s (Ok (p, false)) s).
  2:{ rewrite getOrCreate_run by (done || apply I). by rewrite Hp. }
  apply bind_ext. intros [r|e] s1 Eb; [|done]. apply with_buf_scope in Eb. unfold emitAppendEvent_with.
  assert (eventsEnabled (Scope r) = false) as ->; [|done].
  unfold eventsEnabled. rewrite Eb. change (Scope (event_item body)) with EventsScopeName.
  rewrite bool_decide_true by done. by rewrite andb_false_r.
Qed.

Lemma quiet_event_append stuck body : mono s_tick stuck →
  quiet (appendOneTrusted_fuel stuck 1 (event_item body)).
Proof.
  intros Hst. split; [by apply mono_append_fuel|]. intros s I Y.
  destruct (events_mapped s I) as [p Hp].
  rewrite (event_append_run stuck body s p I Hp) in Y |- *.
  set (m := with_buf p (appendItem (event_item body))) in *. pose proof (with_buf_frame p (appendItem (event_item body)) s) as F.
  fold m in F. unfold bind in Y |- *. destruct (m s) as [r s1] eqn:Em. cbn [snd] in F.
  destruct F as (F1 & F2 & F3 & F4 & F5). destruct (placed_shards s s1 F1) as (_ & HS & _).
  set (k2 := match r with Ok _ => _ | Err _ => _ end) in *.
  assert (quiet k2) as [C2 Q2].
  { unfold k2. destruct r as [r|e]; [|apply quiet_ret]. apply quiet_bind; [|intros; apply quiet_ret].
    apply quiet_if; [apply quiet_notify|apply quiet_ret]. }
  pose proof (C2 s1) as Ht. assert (young s1) as Y1 by (unfold young in *; lia).
  pose proof (mono_with_buf p _ (mono_appendItem (event_item body)) s) as Ht0. fold m in Ht0.
  rewrite Em in Ht0. cbn in Ht0.
  assert (only_events s s1) as O1.
  { assert (young s) as Y0 by (unfold young in *; lia).
    destruct (with_buf_live EventsScopeName p (appendItem (event_item body)) s _ I Y0 Hp)
      as [I1 _]. fold m in I1. rewrite Em in I1.
    constructor; try done. intros k q Hk Hq. apply F5. intros ->. apply Hk.
    exact (si_inj _ I _ _ _ Hq Hp). }
  eapply only_events_trans; [exact O1|]. apply Q2; [apply O1|exact Y].
Qed.

Lemma quiet_emit_fuel stuck n e : mono s_tick stuck → quiet (emitEvent_with (appendOneTrusted_fuel stuck (S n)) e).
Proof.
  intros Hst. unfold emitEvent_with. destruct (jsonMarshal_event _) as [body|]; [|apply quiet_drop].
  apply quiet_bind; [|intros [?|?]; [apply quiet_ret|apply quiet_drop]].
  destruct (quiet_event_append stuck body Hst) as [_ Q].
  split; [by apply mono_append_fuel|]. intros s.
  rewrite (fuel_event stuck stuck n 0 (event_item body)) by done. apply Q.
Qed.
Lemma quiet_emit e : quiet (emitEvent e).
Proof. apply quiet_emit_fuel. apply mono_ret. Qed.
Lemma quiet_gated k e : quiet (gated k e).
Proof. unfold gated. apply quiet_if; [apply quiet_ret|apply quiet_emit]. Qed.
Lemma quiet_emitWarm : quiet emitWarmEvent.
Proof.
  unfold emitWarmEvent. apply quiet_if; [apply quiet_ret|]. apply quiet_bind; [apply quiet_now|].
  intros; apply quiet_emit.
Qed.
Lemma quiet_emitDeleteScope k : quiet (emitDeleteScopeEvent k).
Proof.
  unfold emitDeleteScopeEvent. apply quiet_if; [apply quiet_ret|]. apply quiet_bind; [apply quiet_now|].
  intros; apply quiet_emit.
Qed.

(** Every uuid stored in the scope is in its index, so a lookup by uuid that
    misses means there is no such item. *)
Definition uuids_indexed (s : store) (k : string) : Prop :=
  ∀ p, scopes s !! k = Some p → uuid_ok (buf_at s p).

(** ** One scope edited *)
(** On the buffers that are [ok]. *)
Class Edits (k : string) {A} (ok : scopeBuffer → Prop) (m : M (result error A))
    (R : list aitem → A → list aitem → Prop) : Prop :=
  edits : ∀ b a t, buf_pre b a → detached b = false → scope_ok k b → lastSeq b < MaxUint64 → ok b →
    match m (mkctx b a t) with (Ok x, c) => R (view b) x (view (c_buf c)) | _ => True end.

Record edited (k : string) {A} (R : list aitem → A → list aitem → Prop) (s : store) (x : A) (s' : store)
    : Prop := {
  ed_inv : store_inv s';
  ed_scope : ∃ l', content s' k = Some l' ∧ R (default [] (content s k)) x l';
  ed_other : ∀ k', k' ≠ k → k' ≠ EventsScopeName → content s' k' = content s k';
}.

Lemma edit_mapped k ok p {A} (m : M (result error A)) R s x s' : Edits k ok m R → BufferOp k m →
  store_inv s → young s → scopes s !! k = Some p → ok (buf_at s p) → with_buf p m s = (Ok x, s') →
  edited k R s x s' ∧ scopes s' = scopes s.
Proof.
  intros E O I Y Hk Hok Em. destruct (with_buf_live k p m s O I Y Hk) as [I' HS].
  pose proof (with_buf_frame p m s) as F. destruct (si_live _ I k p Hk) as [L _].
  pose proof (edits (Edits := E) (buf_at s p) (s_acct s) (s_tick s) (live_pre s k p I Hk) (lb_det _ _ _ L)
    (lb_scope _ _ _ L) (live_seq s k p I Y Hk) Hok) as HE.
  rewrite Em in I', HS, F. cbn in I', HS, F. destruct F as (_ & _ & _ & _ & F).
  split; [constructor; [done| |]|done].
  - exists (view (buf_at s' p)). unfold content. rewrite HS, Hk. cbn. split; [done|].
    unfold with_buf in Em. destruct (m _) as [y c]. injection Em as -> <-. unfold buf_at at 2. cbn.
    by rewrite lookup_total_insert_eq.
  - intros k' Hne _. unfold content. rewrite HS. destruct (scopes s !! k') as [q|] eqn:Hq; [|done]. cbn.
    rewrite F; [done|]. intros ->. apply Hne. exact (si_inj _ I _ _ _ Hq Hk).
Qed.

Lemma edited_after k {A} (R : list aitem → A → list aitem → Prop) s x s1 s2 : k ≠ EventsScopeName →
  edited k R s x s1 → only_events s1 s2 → edited k R s x s2.
Proof.
  intros Hk [I (l' & Hl & HR) Ho] O. constructor; [apply O| |].
  - exists l'. split; [|done]. by rewrite (only_events_content s1 s2).
  - intros k' H1 H2. rewrite (only_events_content s1 s2) by done. by apply Ho.
Qed.

Lemma created_content k p s s1 : store_inv s → created_scope k p s s1 →
  content s1 k = Some [] ∧ content s k = None ∧ ∀ k', k' ≠ k → content s1 k' = content s k'.
Proof.
  intros I C. unfold content. rewrite (cs_scopes _ _ _ _ C), lookup_insert_eq, (cs_none _ _ _ _ C). cbn.
  rewrite (cs_buf _ _ _ _ C). split; [done|]. split; [done|]. intros k' Hne.
  rewrite lookup_insert_ne by done. destruct (scopes s !! k') as [q|] eqn:Hq; [|done]. cbn.
  rewrite (cs_rest _ _ _ _ C); [done|]. by eapply (si_live _ I).
Qed.
Lemma same_content_content s s1 : store_inv s → same_content s s1 → ∀ k, content s1 k = content s k.
Proof.
  intros I C k. unfold content. destruct (same_inv s s1 I C) as (_ & -> & _).
  destruct (scopes s !! k) as [q|] eqn:Hq; [|done]. cbn. rewrite (sc_bufs _ _ C); [done|].
  by eapply (si_live _ I).
Qed.

(** What follows a successful method: it logs, and hands its result on. *)
Record logged (k : string) {A} (c : A → SM (result error A)) : Prop := {
  lg_quiet : ∀ a, quiet (c a);
  lg_result : ∀ a s, (c a s).1 = Ok a;
  lg_self : k = EventsScopeName → ∀ a s, (c a s).2 = s;
}.
Lemma logged_then k {A} (post : A → SM unit) : (∀ a, quiet (post a)) →
  (k = EventsScopeName → ∀ a s, (post a s).2 = s) → logged k (λ a, post a ;;; ret (Ok a)).
Proof.
  intros Hq Hs. split; [intros a; apply quiet_bind; [done|intros; apply quiet_ret]|..].
  - intros a s. by rewrite bind_eq.
  - intros Hk a s. rewrite bind_eq. by apply Hs.
Qed.
Lemma gated_self k e s : k = EventsScopeName → (gated k e s).2 = s.
Proof. intros ->. unfold gated, eventsEnabled. rewrite bool_decide_true by done. by rewrite andb_false_r. Qed.

(** What a write does, seen from outside: its edit, or nothing at all. *)
Definition written (k : string) {A} (R : list aitem → A → list aitem → Prop) (s : store)
    (o : result error A * store) : Prop :=
  match o with
  | (Ok x, s') => edited k R s x s'
  | (Err _, s') => no_trace s s'
  end.
Definition written_in (k : string) {A} (d : A) (R : list aitem → A → list aitem → Prop) (s : store)
    (o : result error A * store) : Prop :=
  match content s k with
  | None => o = (Ok d, s) ∨ ∃ e, o = (Err e, s)
  | Some _ => written k R s o
  end.

(** A buffer method that implements an edit of its scope's list. *)
Definition any_buffer : scopeBuffer → Prop := λ _, True.
Record implements (k : string) {A} (ok : scopeBuffer → Prop) (m : M (result error A))
    (R : list aitem → A → list aitem → Prop) : Prop := {
  im_op : BufferOp k m;
  im_edits : Edits k ok m R;
  im_fail : FailClean k m;
}.

Lemma logged_edit k ok p {A} (m : M (result error A)) R c s : implements k ok m R → logged k c →
  store_inv s → scopes s !! k = Some p → ok (buf_at s p) →
  let o := (let? a := with_buf p m in c a) s in
  young o.2 → match o with (Ok x, s') => edited k R s x s' | _ => True end.
Proof.
  intros [O E F] [Hq Hr Hs] I Hp Hok o Y. pose proof (mono_with_buf p m (bo_clock (BufferOp := O)) s) as Ht.
  subst o. unfold bindE, bind in Y |- *. destruct (with_buf p m s) as [[a|e2] s2] eqn:Eb; cbn [fst snd] in Ht; [|done].
  pose proof (q_clock _ (Hq a) s2) as Ht2. pose proof (q_run _ (Hq a) s2) as Hq2. specialize (Hr a s2).
  assert (k = EventsScopeName → (c a s2).2 = s2) as Hs2 by auto.
  destruct (c a s2) as [r s']. cbn in Ht2, Hq2, Hr, Y, Hs2. subst r.
  assert (young s) as Y1 by (unfold young in *; lia).
  destruct (edit_mapped k ok p m R s a s2 E O I Y1 Hp Hok Eb) as [Ed _].
  destruct (decide (k = EventsScopeName)) as [He|He]; [by rewrite (Hs2 He)|].
  apply (edited_after k R s a s2 s'); [done|done|]. apply Hq2; [apply Ed|done].
Qed.

(** A write that creates its scope on demand, then logs. *)
Lemma written_new k {A} (m : M (result error A)) R c s : implements k any_buffer m R →
  (∀ b, logged k (c b)) → k ≠ ""%string → store_inv s →
  let o := (let? r := getOrCreateScopeTrackingCreated k in
            let '(p, created) := r in or_cleanup k p created m (c created)) s in
  young o.2 → written k R s o.
Proof.
  intros Hm Hc Hk I o Y. pose proof Hm as [O E F]. destruct o as [[x|e] s'] eqn:Eo; subst o; cbn [written].
  2:{ eapply (failed_write k m c); try done; [|intros b a; apply Hc]. intros b a s0.
      by rewrite (lg_result _ _ (Hc b)). }
  unfold bindE, bind at 1 in Eo. destruct (getOrCreate_spec k s I Hk) as (Oc & I1 & _). revert Oc I1.
  destruct (getOrCreateScopeTrackingCreated k s) as [[[p created]|e1] s1] eqn:Eg; cbn [fst snd]; [|done].
  intros Oc I1.
  assert (scopes s1 !! k = Some p ∧ default [] (content s1 k) = default [] (content s k) ∧
    ∀ k', k' ≠ k → content s1 k' = content s k') as (Hp & E1 & E2).
  { destruct created; cbn in Oc.
    - destruct (created_content k p s s1 I Oc) as (-> & -> & H). split; [|done].
      by rewrite (cs_scopes _ _ _ _ Oc), lookup_insert_eq.
    - destruct Oc as [Hp C]. pose proof (same_content_content s s1 I C) as H. rewrite !H.
      split; [|done]. by destruct (same_inv s s1 I C) as (_ & -> & _). }
  assert ((let? a := with_buf p m in c created a) s1 = (Ok x, s')) as Er.
  { unfold or_cleanup, bind in Eo. unfold bindE, bind.
    destruct (with_buf p m s1) as [[a|e2] s2]; [done|]. destruct created; [|done].
    by destruct (cleanupIfEmptyAndUnused k p s2). }
  pose proof (logged_edit k _ p m R (c created) s1 Hm (Hc created) I1 Hp Logic.I) as HL. cbv zeta in HL. rewrite Er in HL.
  destruct (HL Y) as [I2 HR Ho]. constructor; [done|by rewrite <- E1|].
  intros k' H1 H2. rewrite Ho by done. by apply E2.
Qed.

(** An operation on an existing scope, which logs when it changed something. *)
Lemma written_old k ok {A} (m : M (result error A)) R (d : A) c s : implements k ok m R → logged k c →
  (∀ p, scopes s !! k = Some p → ok (buf_at s p)) → store_inv s →
  let o := (let* s := get in
            match getScope s k with
            | None => ret (Ok d)
            | Some buf => let? a := with_buf buf m in c a
            end) s in
  young o.2 → written_in k d R s o.
Proof.
  intros Hm Hc Hok I. cbv zeta. rewrite bind_get, <- scopes_lookup by apply I.
  unfold written_in, content. destruct (scopes s !! k) as [p|] eqn:Hp; [|by left]. cbn.
  intros Y. pose proof (logged_edit k ok p m R c s Hm Hc I Hp (Hok p eq_refl) Y) as HL. revert Y HL.
  pose proof (mono_with_buf p m (bo_clock (BufferOp := im_op _ _ _ _ Hm)) s) as Ht.
  pose proof (with_buf_frame p m s) as Fr. unfold bindE, bind.
  destruct (with_buf p m s) as [[a|e] s2] eqn:Eb; cbn [snd] in Ht, Fr.
  - pose proof (lg_result _ _ Hc a s2) as Hr. destruct (c a s2) as [r s']. cbn in Hr. by subst r.
  - unfold ret. cbn. intros Y _.
    assert (young s) as Y1 by (unfold young in *; lia).
    destruct (with_buf_fail k p m s (im_fail _ _ _ _ Hm) I Y1 Hp e s2 Eb) as (Ea & Ev & El).
    destruct Fr as (F1 & F2 & F3 & F4 & F5). constructor; try done. intros q Hq.
    destruct (decide (q = p)) as [->|Hne]; [done|]. by rewrite F5.
Qed.
End Content.
