(* ===== verification/Flights.v ===== *)
(** * /warm calls in flight

  bulk.go's replaceScopes holds the shard locks of its scopes from the
  snapshots to the last commit, but it takes each buffer's mutex only for one
  snapshot or one commit: writers that looked a buffer up earlier run in
  between. A [flight] is such a call; [fly] is its next section; [wstep] lets
  any number of flights and any section of other goroutines take turns. *)
From S2P Require Import Prelude GoStd Uuid Types Wire Validation Buffer BufferInv BufferSpec.
From S2P Require Import BufferWrite BufferWriteSpec BufferRead BufferDelete BufferDeleteSpec.
From S2P Require Import BufferCounter BufferCounterSpec BufferReplace BufferReplaceSpec.
From S2P Require Import Clock Store StoreInv BufferOps StoreSpec Events StoreOps StoreClock Bulk.
From S2P Require Import BulkSpec RebuildSpec WarmSpec Steps SubscribeSpec OpsSteps EventsSpec Refine.

(** Where the call is: snapshots left, taken and their net delta; commits left,
    scopes created so far and the number it will report; the result. *)
Inductive phase :=
| Snapping (todo acc : list plan) (delta : Z)
| Committing (todo : list plan) (newScopes total : Z)
| Unlocking (r : result error Z).
Record flight := mkflight { f_batch : batch; f_phase : phase }.

(** [c_over] is a ghost: the bytes that writers through older pointers freed in
    a scope between its snapshot and its commit. *)
Record conf := mkconf { c_store : store; c_flights : list flight; c_over : Z }.

Definition idle (s : store) : conf := mkconf s [] 0.

(** The scopes whose shards the flights have locked. *)
Definition locked (fl : list flight) : list string := concat ((λ f, (f_batch f).*1) <$> fl).

Section Flights.
Context `{EV : Env} `{CP : Caps} `{SH : ScopeHash} `{EM : EventMarshal}.

(** The next section of the call. *)
Definition fly (ph : phase) : SM phase :=
  match ph with
  | Snapping (p :: todo) acc delta =>
      let* s := get in
      let '(acc, delta) := snapshot s (acc, delta) p in
      ret (Snapping todo acc delta)
  | Snapping [] acc delta =>
      let* r := on_counters (reserveBytes delta) in
      let '(ok, current, max) := r in
      if negb (ok : bool) then ret (Unlocking (Err (StoreFullError current delta max)))
      else ret (Committing acc 0 (Z.of_nat (length acc)))
  | Committing (p :: todo) newScopes total =>
      let* n := commit_plan p in
      ret (Committing todo (newScopes + n) total)
  | Committing [] newScopes total =>
      (if 0 <? newScopes then add_scopeCount newScopes else ret tt) ;;;
      ret (Unlocking (Ok total))
  | Unlocking r => ret (Unlocking r)
  end.
Definition freed (ph : phase) (s : store) : Z :=
  match ph with Committing (p :: _) _ _ => Z.max 0 (- drift s p) | _ => 0 end.

Definition plans_for (g : batch) (ps : list plan) : Prop := Forall2 (λ e p, ∃ l', plan_for e l' p) g ps.

Lemma mono_fly ph : mono s_tick (fly ph).
Proof.
  destruct ph as [[|p todo] acc d|[|p todo] n t|r]; cbn [fly].
  - apply mono_bind; [apply mono_on_counters, mono_reserveBytes|]. intros [[[] ?] ?]; apply mono_ret.
  - intros s. unfold bind, get, ret. by destruct (snapshot s (acc, d) p).
  - apply mono_bind; [|intros; apply mono_ret]. destruct (0 <? n); [apply mono_add_scopeCount|apply mono_ret].
  - apply mono_bind; [apply mono_commit_plan|intros; apply mono_ret].
  - apply mono_ret.
Qed.

Inductive wstep : conf → conf → Prop :=
| ws_section s s' fl o : section (locked fl) s s' → wstep (mkconf s fl o) (mkconf s' fl o)
| ws_lock s fl o g plans : plans_for g plans → NoDup (g.*1 ++ locked fl) →
    wstep (mkconf s fl o) (mkconf s (mkflight g (Snapping plans [] 0) :: fl) o)
| ws_fly s l1 g ph l2 o :
    wstep (mkconf s (l1 ++ mkflight g ph :: l2) o)
      (mkconf (fly ph s).2 (l1 ++ mkflight g (fly ph s).1 :: l2) (o + freed ph s))
| ws_unlock s l1 g r l2 o :
    wstep (mkconf s (l1 ++ mkflight g (Unlocking r) :: l2) o) (mkconf s (l1 ++ l2) o).

(** ** The locked phase is a flight by itself *)
Fixpoint fly_on (n : nat) (ph : phase) : SM phase :=
  match n with
  | O => ret ph
  | S n => let* ph := fly ph in fly_on n ph
  end.

Lemma fly_on_add n m ph s : fly_on (n + m) ph s = (let* ph := fly_on n ph in fly_on m ph) s.
Proof.
  revert ph s. induction n as [|n IH]; intros ph s; [done|]. cbn [Nat.add fly_on]. unfold bind.
  destruct (fly ph s) as [ph1 s1]. by rewrite IH.
Qed.
Lemma snapping_run todo acc d s : fly_on (length todo) (Snapping todo acc d) s =
  let '(acc', d') := foldl (snapshot s) (acc, d) todo in (Snapping [] acc' d', s).
Proof.
  revert acc d. induction todo as [|p todo IH]; intros acc d; [done|].
  cbn [length fly_on fly foldl]. unfold bind, get, gets, ret. cbn beta iota.
  destruct (snapshot s (acc, d) p) as [acc1 d1]. apply IH.
Qed.
Lemma committing_run todo n t s : fly_on (length todo) (Committing todo n t) s =
  let '(m, s') := commit_plans todo s in (Committing [] (n + m) t, s').
Proof.
  revert n s. induction todo as [|p todo IH]; intros n s; cbn [length fly_on fly commit_plans].
  { unfold ret. by rewrite Z.add_0_r. }
  unfold bind, ret. destruct (commit_plan p s) as [m1 s1]. rewrite IH.
  destruct (commit_plans todo s1) as [m2 s2]. by rewrite Z.add_assoc.
Qed.

Definition landed (ph : phase) : result error Z :=
  match ph with Unlocking r => r | _ => Ok 0 end.
Lemma locked_is_flight plans s : replaceScopes_locked plans s =
  let '(ph, s') := fly_on (length plans + (1 + (length plans + 1))) (Snapping plans [] 0) s in
  (landed ph, s').
Proof.
  rewrite fly_on_add. unfold bind at 1. rewrite snapping_run. unfold replaceScopes_locked.
  unfold bind at 1, get, gets. cbn beta iota.
  destruct (foldl (snapshot s) ([], 0) plans) as [acc d] eqn:E.
  assert (length acc = length plans) as El.
  { assert (∀ l acc d, length (foldl (snapshot s) (acc, d) l).1 = (length acc + length l)%nat) as H.
    { clear. induction l as [|p l IH]; intros acc d; cbn [foldl length]; [cbn; lia|].
      destruct (snapshot s (acc, d) p) as [acc1 d1] eqn:E1. rewrite IH.
      unfold snapshot in E1. destruct (getScope s (p_scope p)); injection E1 as <- _;
        rewrite length_app; cbn; lia. }
    specialize (H plans [] 0). by rewrite E in H. }
  change (1 + (length plans + 1))%nat with (S (length plans + 1)). cbn [fly_on fly].
  unfold bind. destruct (on_counters (reserveBytes d) s) as [[[[] cur] max] s1]; cbn [negb].
  - cbn [ret]. rewrite fly_on_add. unfold bind. rewrite <- El, committing_run.
    destruct (commit_plans acc s1) as [m s2]. rewrite Z.add_0_l. cbn [fly_on fly]. unfold bind, ret.
    destruct (0 <? m); [destruct (add_scopeCount m s2)|]; done.
  - unfold ret. clear. induction (length plans + 1)%nat as [|n IH]; [done|]. exact IH.
Qed.

(** ** A call alone *)
Context `{CO : !CapsOk}.

Lemma fly_once s g ph o ph' s' : fly ph s = (ph', s') → freed ph s = 0 →
  wstep (mkconf s [mkflight g ph] o) (mkconf s' [mkflight g ph'] o).
Proof.
  intros E F. pose proof (ws_fly s [] g ph [] o) as H. rewrite E, F, Z.add_0_r in H. exact H.
Qed.

Lemma alone_snapshots s g todo acc d o : let '(acc', d') := foldl (snapshot s) (acc, d) todo in
  rtc wstep (mkconf s [mkflight g (Snapping todo acc d)] o) (mkconf s [mkflight g (Snapping [] acc' d')] o).
Proof.
  revert acc d. induction todo as [|p todo IH]; intros acc d; cbn [foldl]; [done|].
  destruct (snapshot s (acc, d) p) as [acc1 d1] eqn:E. specialize (IH acc1 d1).
  destruct (foldl (snapshot s) (acc1, d1) todo) as [acc2 d2]. eapply rtc_l; [|exact IH].
  apply fly_once; [|done]. cbn [fly]. unfold bind, get. by rewrite E.
Qed.

(** Nobody else writes between its snapshots and its commits, so no commit
    finds bytes freed. *)
Lemma alone_commits {R} db dc s g g0 ps n t o : commits_ready db dc R s g ps →
  let '(m, s') := commit_plans ps s in
  rtc wstep (mkconf s [mkflight g0 (Committing ps n t)] o)
    (mkconf s' [mkflight g0 (Committing [] (n + m) t)] o).
Proof.
  revert g db dc s n. induction ps as [|p ps IH]; intros g db dc s n H; cbn [commit_plans].
  { cbn. by rewrite Z.add_0_r. }
  destruct (Forall2_cons_inv_r _ _ _ _ (cr_plans _ _ _ _ _ _ H)) as (e & g' & _ & HF & ->).
  destruct (commits_ready_head _ _ _ _ _ _ _ H) as (_ & _ & _ & Hd & _).
  pose proof (commits_ready_step _ _ _ _ _ _ _ H) as HS. unfold bind.
  destruct (commit_plan p s) as [n1 s1] eqn:E1. destruct HS as (H1 & _).
  specialize (IH g' _ _ s1 (n + n1) H1). destruct (commit_plans ps s1) as [m s2]. unfold ret.
  replace (n + (n1 + m)) with (n + n1 + m) by lia. eapply rtc_l; [|exact IH].
  apply fly_once; cbn [fly freed]; [unfold bind; by rewrite E1|by rewrite Hd].
Qed.

Lemma warm_alone s g plans : store_inv s → plans_for g plans → NoDup g.*1 → batch_weight g ≤ MaxInt64 →
  rtc wstep (idle s) (idle (replaceScopes_locked plans s).2).
Proof.
  intros I HF Hnd Hw. destruct (locked_start s g plans I HF Hnd Hw) as (ES & Hlo & _ & HR).
  cbv zeta in HR. set (d := zsum (growth s) plans) in *. set (ps := with_old s <$> plans) in *.
  eapply rtc_l.
  { apply (ws_lock s [] 0 g plans); [done|]. by rewrite app_nil_r. }
  pose proof (alone_snapshots s g plans [] 0 0) as S1. rewrite ES in S1. etransitivity; [exact S1|].
  destruct (total_range s I) as (T1 & _). pose proof (si_cap _ I). pose proof co_max.
  unfold replaceScopes_locked. rewrite bind_get, ES, bind_reserve by lia.
  assert (MinInt64 ≤ totalBytes (s_acct s) + d) as Hd by (unfold MinInt64; lia).
  assert (maxStoreBytes - MaxInt64 ≤ totalBytes (s_acct s) ≤ MaxInt64) as Ht by lia.
  pose proof (reserve_store d s Ht Hd) as Er.
  rewrite Z.max_l in Er by done.
  destruct (Z.leb_spec (totalBytes (s_acct s) + d) maxStoreBytes) as [Hfit|Hfull]; cbn [negb].
  - eapply rtc_l; [apply fly_once; [|done]; cbn [fly]; unfold bind; by rewrite Er|]. cbn [negb].
    pose proof (alone_commits d 0 _ g g ps 0 (Z.of_nat (length ps)) 0 (HR Hfit)) as S2.
    unfold bind at 1. destruct (commit_plans ps _) as [n s1]. rewrite Z.add_0_l in S2.
    etransitivity; [exact S2|].
    destruct ((if 0 <? n then add_scopeCount n else ret tt) s1) as [u s2] eqn:Ec.
    rewrite (bind_run _ _ _ _ _ Ec). cbn [snd ret].
    eapply rtc_l; [|apply rtc_once, (ws_unlock s2 [] g (Ok (Z.of_nat (length ps))) [] 0)].
    apply fly_once; [|done]. cbn [fly]. by rewrite (bind_run _ _ _ _ _ Ec).
  - eapply rtc_l; [apply fly_once; [|done]; cbn [fly]; unfold bind; by rewrite Er|]. cbn [negb snd ret].
    apply rtc_once. exact (ws_unlock s [] g _ [] 0).
Qed.

(** A run of the coarse relation is one of the fine one. *)
Lemma sstep_wsteps s s' : store_inv s → sstep s s' → rtc wstep (idle s) (idle s').
Proof.
  intros I. destruct 1 as [s s' S|g plans s HF Hnd Hw]; [|by eapply warm_alone].
  apply rtc_once. by apply (ws_section s s' [] 0).
Qed.
Lemma steps_wsteps s s' : store_inv s → rtc sstep s s' → young s' → rtc wstep (idle s) (idle s').
Proof.
  intros I Hs. revert I. induction Hs as [|s1 s2 s3 H1 H2 IH]; intros I Y; [done|].
  pose proof (steps_tick _ _ H2). pose proof (sstep_tick _ _ H1).
  destruct (sstep_ok s1 s2 I) as [I2 _]; [unfold young in *; lia|done|].
  etransitivity; [by apply sstep_wsteps|by apply IH].
Qed.
End Flights.
