(* ===== verification/FlightsSpec.v ===== *)
(** * The accounting of the store while /warm calls are in flight

  What each flight has reserved and not committed is what the byte counter runs
  ahead of the buffers by; the commit gives back exactly what other writers
  changed since the snapshot. Every section keeps this, whoever runs it. *)
From S2P Require Import Prelude GoStd Uuid Types Wire Validation Buffer BufferInv BufferSpec.
From S2P Require Import BufferWrite BufferWriteSpec BufferRead BufferDelete BufferDeleteSpec.
From S2P Require Import BufferCounter BufferCounterSpec BufferReplace BufferReplaceSpec.
From S2P Require Import Clock Store StoreInv BufferOps StoreSpec Events StoreOps StoreClock Bulk.
From S2P Require Import BulkSpec RebuildSpec WarmSpec Steps SubscribeSpec OpsSteps EventsSpec Refine Flights.

Section Spec.
Context `{EV : Env} `{CP : Caps} `{SH : ScopeHash} `{EM : EventMarshal}.

(** ** The invariant *)
Definition mapped_all (s : store) (g : batch) : Prop := ∀ k, k ∈ g.*1 → is_Some (scopes s !! k).
Definition phase_ok (s : store) (g : batch) (ph : phase) : Prop :=
  match ph with
  | Snapping todo acc delta => ∃ g1 g2, g = g1 ++ g2 ∧ plans_for g1 acc ∧ plans_for g2 todo ∧
      Forall (λ p, 0 ≤ p_oldBytes p) acc ∧ delta = zsum (owed s) acc
  | Committing todo n total => ∃ g1 g2, g = g1 ++ g2 ∧ plans_for g2 todo ∧
      Forall (λ p, 0 ≤ p_oldBytes p) todo ∧ mapped_all s g1 ∧
      0 ≤ n ≤ Z.of_nat (length g1) ∧ total = Z.of_nat (length g)
  | Unlocking (Ok total) => total = Z.of_nat (length g) ∧ mapped_all s g
  | Unlocking (Err _) => True
  end.

(** What the counters run ahead by, and the bytes of the snapshots, per phase. *)
Definition phase_db (s : store) (ph : phase) : Z :=
  match ph with Committing todo _ _ => zsum (owed s) todo | _ => 0 end.
Definition phase_dc (ph : phase) : Z := match ph with Committing _ n _ => n | _ => 0 end.
Definition snap_bytes (ph : phase) : Z :=
  match ph with
  | Snapping _ ps _ | Committing ps _ _ => zsum p_oldBytes ps
  | Unlocking _ => 0
  end.
Definition flights_db (s : store) (fl : list flight) : Z := zsum (λ f, phase_db s (f_phase f)) fl.
Definition flights_dc (fl : list flight) : Z := zsum (λ f, phase_dc (f_phase f)) fl.

(** The bytes the store holds, and what the calls in flight hold besides. *)
Definition held (s : store) : Z := msum (λ _ p, charge s p) (scopes s).
Definition luggage (fl : list flight) : Z :=
  zsum (λ f, batch_weight (f_batch f) + snap_bytes (f_phase f)) fl.
Definition roomy (c : conf) : Prop :=
  held (c_store c) + luggage (c_flights c) ≤ MaxInt64 - maxStoreBytes.

Record conf_ok (c : conf) : Prop := {
  ck_core : ahead (flights_db (c_store c) (c_flights c)) (flights_dc (c_flights c)) (c_store c);
  ck_locks : NoDup (locked (c_flights c));
  ck_flights : Forall (λ f, phase_ok (c_store c) (f_batch f) (f_phase f)) (c_flights c);
  ck_over : 0 ≤ c_over c;
  ck_cap : totalBytes (s_acct (c_store c)) ≤ maxStoreBytes + c_over c;
}.

Context `{CO : !CapsOk}.

(** ** Somebody else's step leaves a flight alone *)
Lemma plans_scopes g ps : plans_for g ps → p_scope <$> ps = g.*1.
Proof. intros H. by apply plans_weight. Qed.
Lemma plan_named g ps p : plans_for g ps → p ∈ ps → p_scope p ∈ g.*1.
Proof. intros H Hp. rewrite <- (plans_scopes g ps H). by apply list_elem_of_fmap_2. Qed.

Lemma owed_stable s s' g ps : plans_for g ps → (∀ k, k ∈ g.*1 → scopes s' !! k = scopes s !! k) →
  zsum (owed s') ps = zsum (owed s) ps.
Proof.
  intros HF Hk. apply zsum_ext. intros p Hp. unfold owed, new_cost. by rewrite (Hk _ (plan_named g ps p HF Hp)).
Qed.
Lemma mapped_stable s s' g : mapped_all s g → (∀ k, k ∈ g.*1 → scopes s' !! k = scopes s !! k) → mapped_all s' g.
Proof. intros M Hk k Hin. rewrite Hk by done. by apply M. Qed.

Lemma phase_stable s s' g ph : (∀ k, k ∈ g.*1 → scopes s' !! k = scopes s !! k) →
  phase_ok s g ph → phase_ok s' g ph ∧ phase_db s' ph = phase_db s ph.
Proof.
  intros Hk. destruct ph as [todo acc d|todo n t|[t|e]]; cbn.
  - intros (g1 & g2 & -> & F1 & F2 & Ho & ->). rewrite fmap_app in Hk.
    split; [|done]. exists g1, g2. do 4 (split; [done|]). symmetry. eapply owed_stable; [done|]. set_solver.
  - intros (g1 & g2 & -> & F2 & Ho & M & Hn). rewrite fmap_app in Hk. split.
    + exists g1, g2. split; [done|]. split; [done|]. split; [done|]. split; [|done].
      eapply mapped_stable; [done|]. set_solver.
    + eapply owed_stable; [done|]. set_solver.
  - intros [Ht M]. split; [|done]. split; [done|]. by eapply mapped_stable.
  - done.
Qed.

Lemma flights_stable s s' fl : (∀ k, k ∈ locked fl → scopes s' !! k = scopes s !! k) →
  Forall (λ f, phase_ok s (f_batch f) (f_phase f)) fl →
  Forall (λ f, phase_ok s' (f_batch f) (f_phase f)) fl ∧ flights_db s' fl = flights_db s fl.
Proof.
  intros Hk HF. induction HF as [|[g ph] fl Hf HF IH]; [done|].
  unfold locked in Hk. cbn in Hk. destruct IH as [IH1 IH2].
  { intros k Hin. apply Hk. apply elem_of_app. by right. }
  destruct (phase_stable s s' g ph) as [H1 H2]; [|done|].
  { intros k Hin. apply Hk. apply elem_of_app. by left. }
  split; [by constructor|]. unfold flights_db in *. cbn [zsum f_phase]. lia.
Qed.

(** ** The counters stay machine numbers *)
Lemma plan_sizes g ps : plans_for g ps → Forall (λ p, 0 ≤ p_newBytes p) ps.
Proof. intros H. destruct (plans_weight g ps H) as (_ & HF & _). eapply Forall_impl; [exact HF|]. cbn. lia. Qed.

Lemma owed_bounds s g ps : plans_for g ps → Forall (λ p, 0 ≤ p_oldBytes p) ps →
  - zsum p_oldBytes ps ≤ zsum (owed s) ps ≤ batch_weight g ∧ 0 ≤ zsum p_oldBytes ps.
Proof.
  intros HF Ho. destruct (plans_weight g ps HF) as (Hw & _ & _). pose proof (plan_sizes g ps HF) as Hn.
  assert (- zsum p_oldBytes ps ≤ zsum (owed s) ps ≤ zsum (λ p, p_newBytes p + scopeBufferOverhead) ps ∧
    0 ≤ zsum p_oldBytes ps); [|lia].
  clear HF Hw. induction ps as [|p ps IH]; cbn [zsum]; [lia|].
  apply Forall_cons in Ho as [Hp Ho]. apply Forall_cons in Hn as [Hq Hn]. specialize (IH Ho Hn).
  assert (p_newBytes p - p_oldBytes p ≤ owed s p ≤ p_newBytes p - p_oldBytes p + scopeBufferOverhead); [|lia].
  unfold owed, new_cost, scopeBufferOverhead. destruct (scopes s !! p_scope p); lia.
Qed.
Lemma batch_weight_app g1 g2 : batch_weight (g1 ++ g2) = batch_weight g1 + batch_weight g2.
Proof. unfold batch_weight. by rewrite zsum_app. Qed.
Lemma batch_length g : 1024 * Z.of_nat (length g) ≤ batch_weight g.
Proof.
  induction g as [|e g IH]; [done|].
  change (batch_weight (e :: g)) with (scopeBufferOverhead + zsum built_size e.2 + batch_weight g).
  assert (0 ≤ zsum built_size e.2) by (apply zsum_nonneg; intros x _; pose proof (built_size_pos x); lia).
  cbn [length]. unfold scopeBufferOverhead in *. lia.
Qed.

Lemma phase_bounds s g ph : phase_ok s g ph →
  - snap_bytes ph ≤ phase_db s ph ≤ batch_weight g ∧ 0 ≤ snap_bytes ph ∧
  0 ≤ phase_dc ph ∧ 1024 * phase_dc ph ≤ batch_weight g.
Proof.
  pose proof (batch_weight_nonneg g) as Hg. destruct ph as [todo acc d|todo n t|[t|e]]; cbn.
  - intros (g1 & g2 & -> & F1 & F2 & Ho & ->). destruct (owed_bounds s g1 acc F1 Ho). lia.
  - intros (g1 & g2 & -> & F2 & Ho & M & Hn & _). destruct (owed_bounds s g2 todo F2 Ho).
    rewrite batch_weight_app. pose proof (batch_length g1). pose proof (batch_weight_nonneg g2). lia.
  - lia.
  - lia.
Qed.
Lemma flights_bounds s fl : Forall (λ f, phase_ok s (f_batch f) (f_phase f)) fl →
  flights_db s fl ≤ luggage fl ∧ - luggage fl ≤ flights_db s fl ∧
  0 ≤ flights_dc fl ∧ 1024 * flights_dc fl ≤ luggage fl ∧ 0 ≤ luggage fl.
Proof.
  unfold flights_db, flights_dc, luggage. induction 1 as [|[g ph] fl Hf HF IH]; cbn [zsum]; [lia|].
  pose proof (phase_bounds s g ph Hf). pose proof (batch_weight_nonneg g). cbn [f_phase f_batch]. lia.
Qed.

Lemma held_eq {R} db dc s : store_core db dc R s → held s = totalBytes (s_acct s) - db ∧ 0 ≤ held s.
Proof.
  intros C. pose proof (sk_bytes _ _ _ _ C) as E. fold (held s) in E. pose proof (core_total _ _ s C). lia.
Qed.
Lemma conf_tame c : conf_ok c → roomy c →
  tame (flights_db (c_store c) (c_flights c)) (flights_dc (c_flights c)) (c_store c).
Proof.
  intros [C _ F _ _] R. unfold roomy in R. destruct (held_eq _ _ _ C).
  pose proof (flights_bounds _ _ F). pose proof co_max. pose proof co_min.
  change reservedScopesOverhead with 2048 in *. constructor; lia.
Qed.

(** With no scope locked nothing is reserved. *)
Lemma unlocked s fl : Forall (λ f, phase_ok s (f_batch f) (f_phase f)) fl → locked fl = [] →
  flights_db s fl = 0 ∧ flights_dc fl = 0.
Proof.
  unfold flights_db, flights_dc. induction 1 as [|[g ph] fl Hf HF IH]; [done|].
  unfold locked. cbn [fmap list_fmap concat f_batch]. intros [E1 E2]%app_nil. destruct (IH E2) as [I1 I2].
  apply fmap_nil_inv in E1. subst g. cbn [zsum f_phase]. rewrite I1, I2. destruct ph as [todo acc d|todo n t|r]; cbn in *; [done| |done].
  destruct Hf as (g1 & g2 & E & F2 & _ & _ & Hn & _). symmetry in E. apply app_nil in E as [-> ->].
  apply Forall2_nil_inv_l in F2 as ->. cbn in *. lia.
Qed.
(** ** What a section of a flight does *)
(** In exact numbers: nothing wraps, the reservation is for the growth the
    snapshots saw, a commit replaces one scope and settles with the byte counter
    what other writers changed there since, a refusal changes nothing. *)
Definition flown (s : store) (g : batch) (ph : phase) (o : phase * store) : Prop :=
  let '(ph', s') := o in
  let T := totalBytes (s_acct s) in
  match ph with
  | Snapping (p :: todo) acc d => s' = s ∧ ph' = Snapping todo (acc ++ [with_old s p]) (d + growth s p)
  | Snapping [] acc d =>
      if T + d <=? ceiling (s_acct s)
      then ph' = Committing acc 0 (Z.of_nat (length g)) ∧ s' = set_acct (acct_add d 0 (s_acct s)) s
      else ph' = Unlocking (Err (StoreFullError T d maxStoreBytes)) ∧ s' = s
  | Committing (p :: todo) n t => ∃ l l', (p_scope p, l) ∈ g ∧ entry_accepted "/warm" (p_scope p, l) ∧
      built_from l l' ∧ content s' (p_scope p) = Some (fresh_content l') ∧
      (∀ k, k ≠ p_scope p → content s' k = content s k) ∧
      totalBytes (s_acct s') = T - drift s p ∧
      ph' = Committing todo (n + match scopes s !! p_scope p with Some _ => 0 | None => 1 end) t
  | Committing [] n t => ph' = Unlocking (Ok (Z.of_nat (length g))) ∧ mapped_all s g ∧
      s' = set_acct (set_scopeCount (scopeCount (s_acct s) + n) (s_acct s)) s
  | Unlocking r => ph' = Unlocking r ∧ s' = s
  end.

(** Every stored uuid is in its scope's index. *)
Definition indexed (s : store) : Prop := ∀ k, uuids_indexed s k.

Record rides (s s' : store) : Prop := {
  rd_ptrs : extends s s';
  rd_subs : subscribers s' = subscribers s;
  rd_chans : chans s' = chans s;
  rd_tick : (s_tick s ≤ s_tick s')%nat;
  rd_index : indexed s → indexed s';
}.
Definition fly_post (s : store) (g : batch) (ph : phase) (fl : list flight) (o : Z) : Prop :=
  let '(ph', s') := fly ph s in
  flown s g ph (ph', s') ∧ conf_ok (mkconf s' (mkflight g ph' :: fl) (o + freed ph s)) ∧ rides s s'.

Lemma rides_refl s : rides s s.
Proof. by constructor. Qed.

(** The flights in any order. *)
Lemma conf_perm s fl fl' o : fl ≡ₚ fl' → conf_ok (mkconf s fl o) → conf_ok (mkconf s fl' o).
Proof.
  intros E [C L F O T]. cbn in *. constructor; cbn; try done.
  - unfold flights_db, flights_dc in *. rewrite <- (zsum_perm (λ f, phase_db s (f_phase f)) _ _ E),
      <- (zsum_perm (λ f, phase_dc (f_phase f)) _ _ E). exact C.
  - eapply NoDup_Permutation_proper; [|exact L]. unfold locked. symmetry. clear -E. induction E.
    + done. + cbn. by f_equiv. + cbn. rewrite !app_assoc. f_equiv. apply Permutation_app_comm. + by etransitivity.
  - by rewrite <- E.
Qed.
Lemma roomy_perm s fl fl' o o' : fl ≡ₚ fl' → roomy (mkconf s fl o) → roomy (mkconf s fl' o').
Proof. unfold roomy, luggage. cbn. intros E. by rewrite (zsum_perm _ _ _ E). Qed.
(** ** The sections of a flight, one by one *)
Section Fly.
Variables (s : store) (g : batch) (ph : phase) (fl : list flight) (o : Z).
Hypothesis HC : conf_ok (mkconf s (mkflight g ph :: fl) o).
Hypothesis HR : roomy (mkconf s (mkflight g ph :: fl) o).

Lemma fly_core : ahead (phase_db s ph + flights_db s fl) (phase_dc ph + flights_dc fl) s.
Proof. exact (ck_core _ HC). Qed.
Lemma fly_phase : phase_ok s g ph.
Proof. pose proof (ck_flights _ HC) as F. by apply Forall_cons in F as [? _]. Qed.
Lemma fly_rest : Forall (λ f, phase_ok s (f_batch f) (f_phase f)) fl.
Proof. pose proof (ck_flights _ HC) as F. by apply Forall_cons in F as [_ ?]. Qed.
Lemma fly_locks : NoDup g.*1 ∧ (∀ k, k ∈ locked fl → k ∉ g.*1) ∧ NoDup (locked fl).
Proof.
  pose proof (ck_locks _ HC) as L. unfold locked in *. cbn in L. apply NoDup_app in L as (? & Hd & ?).
  split; [done|]. split; [|done]. intros k Hk Hg. by apply (Hd k).
Qed.

Lemma fly_numbers :
  totalBytes (s_acct s) = held s + phase_db s ph + flights_db s fl ∧ 0 ≤ held s ∧
  held s + batch_weight g + snap_bytes ph + luggage fl ≤ MaxInt64 - maxStoreBytes ∧
  - luggage fl ≤ flights_db s fl ≤ luggage fl ∧ 0 ≤ luggage fl ∧
  - snap_bytes ph ≤ phase_db s ph ≤ batch_weight g ∧ 0 ≤ snap_bytes ph ∧
  2048 ≤ maxStoreBytes ≤ MaxInt64 ∧ totalBytes (s_acct s) ≤ maxStoreBytes + o ∧ 0 ≤ o.
Proof.
  destruct (held_eq _ _ _ fly_core). pose proof (flights_bounds _ _ fly_rest).
  pose proof (phase_bounds _ _ _ fly_phase). pose proof HR as R.
  change (held s + (batch_weight g + snap_bytes ph + luggage fl) ≤ MaxInt64 - maxStoreBytes) in R.
  pose proof co_max. pose proof co_min.
  change reservedScopesOverhead with 2048 in *.
  pose proof (ck_cap _ HC) as Hcap. pose proof (ck_over _ HC) as Ho. cbn in Hcap, Ho. lia.
Qed.

Lemma old_held k : 0 ≤ old_bytes s k ≤ held s.
Proof.
  destruct (held_eq _ _ _ fly_core) as [E H0]. unfold old_bytes. destruct (scopes s !! k) as [q|] eqn:Hq; [|lia].
  destruct (core_ge _ _ s k q fly_core Hq) as (? & _ & Hc).
  assert (charge s q = bytes (buf_at s q) + 1024) by done. lia.
Qed.

(** The rest of the flights, and the locks, after the flight's own section. *)
Lemma fly_done ph' s' : (∀ k, k ∉ g.*1 → scopes s' !! k = scopes s !! k) →
  ahead (phase_db s' ph' + flights_db s fl) (phase_dc ph' + flights_dc fl) s' → phase_ok s' g ph' →
  totalBytes (s_acct s') ≤ maxStoreBytes + (o + freed ph s) →
  conf_ok (mkconf s' (mkflight g ph' :: fl) (o + freed ph s)).
Proof.
  intros Hk C P T. destruct fly_locks as (_ & Hd & _).
  destruct (flights_stable s s' fl) as [F E]; [|apply fly_rest|].
  { intros k Hin. by apply Hk, Hd. }
  constructor; cbn; try done.
  - unfold flights_db, flights_dc. cbn [zsum f_phase]. fold (flights_db s' fl) (flights_dc fl). by rewrite E.
  - apply (ck_locks _ HC).
  - by constructor.
  - pose proof (ck_over _ HC). unfold freed. cbn in *. destruct ph as [| [|] |]; lia.
Qed.
End Fly.

Lemma plans_cons_inv g p ps : plans_for g (p :: ps) →
  ∃ e g' l', g = e :: g' ∧ plan_for e l' p ∧ plans_for g' ps.
Proof. intros H. apply Forall2_cons_inv_r in H as (e & g' & [l' Hp] & HF & ->). eauto 10. Qed.

Lemma fly_snapshot s g p todo acc d fl o : conf_ok (mkconf s (mkflight g (Snapping (p :: todo) acc d) :: fl) o) →
  roomy (mkconf s (mkflight g (Snapping (p :: todo) acc d) :: fl) o) →
  fly_post s g (Snapping (p :: todo) acc d) fl o.
Proof.
  intros HC HR. pose proof (fly_numbers _ _ _ _ _ HC HR) as N. cbn [snap_bytes phase_db] in N.
  destruct (fly_phase _ _ _ _ _ HC) as (g1 & g2 & -> & F1 & F2 & Ho & Hd).
  destruct (plans_cons_inv _ _ _ F2) as (e & g' & l' & -> & Hp & F2').
  destruct (owed_bounds s g1 acc F1 Ho) as [Hb Hs]. rewrite batch_weight_app in N.
  destruct (plans_weight _ _ F2) as (Hw & HF & _). cbn [zsum] in Hw. apply Forall_cons in HF as [Hn _].
  assert (0 ≤ zsum (λ p, p_newBytes p + scopeBufferOverhead) todo) as Ht.
  { apply zsum_nonneg. intros q Hq. pose proof (plan_sizes _ _ F2') as Hpos. rewrite Forall_forall in Hpos.
    specialize (Hpos q Hq). unfold scopeBufferOverhead. lia. }
  pose proof (batch_weight_nonneg g1). pose proof (fly_core _ _ _ _ _ HC) as C.
  pose proof (snapshot_spec s [p] acc d (sk_placed _ _ _ _ C)) as HS. cbn [foldl zsum fmap list_fmap] in HS.
  assert (∀ k, 0 ≤ old_bytes s k ≤ held s) as Hold by (intros; by eapply old_held).
  pose proof (Hold (p_scope p)). unfold MaxInt64 in *.
  rewrite Z.add_0_r in HS. ospecialize (HS _ _ _ _ _).
  { lia. } { intros k. specialize (Hold k). lia. } { constructor; [lia|constructor]. }
  { lia. } { unfold scopeBufferOverhead in *. lia. }
  unfold fly_post. cbn [fly]. unfold bind, get, ret. rewrite HS. rewrite Z.add_0_r.
  split; [by split|]. split; [|apply rides_refl].
  apply fly_done; [done|done|done| | |].
  - exact (fly_core _ _ _ _ _ HC).
  - cbn. exists (g1 ++ [e]), g'. split; [by rewrite <- app_assoc|]. split.
    { apply Forall2_app; [done|]. constructor; [|constructor]. exists l'. by apply plan_for_old. }
    split; [done|]. split.
    { apply Forall_app. split; [done|]. constructor; [cbn; lia|constructor]. }
    rewrite zsum_app. cbn [zsum]. unfold owed at 2, growth. cbn. lia.
  - cbn. lia.
Qed.

Lemma fly_reserve s g acc d fl o : conf_ok (mkconf s (mkflight g (Snapping [] acc d) :: fl) o) →
  roomy (mkconf s (mkflight g (Snapping [] acc d) :: fl) o) →
  fly_post s g (Snapping [] acc d) fl o.
Proof.
  intros HC HR. pose proof (fly_numbers _ _ _ _ _ HC HR) as N. cbn [snap_bytes phase_db] in N.
  destruct (fly_phase _ _ _ _ _ HC) as (g1 & g2 & -> & F1 & F2 & Ho & Hd).
  apply Forall2_nil_inv_r in F2 as ->. rewrite app_nil_r in *.
  destruct (owed_bounds s g1 acc F1 Ho) as [Hb Hs]. pose proof (fly_core _ _ _ _ _ HC) as C.
  pose proof (Forall2_length _ _ _ F1) as Hlen.
  unfold fly_post. cbn [fly]. unfold bind.
  rewrite reserve_store by (unfold MinInt64, MaxInt64 in *; lia). unfold flown.
  destruct (Z.leb_spec (totalBytes (s_acct s) + d) (ceiling (s_acct s))) as [Hfit|Hfull]; cbn [negb]; unfold ret.
  - split; [by rewrite Hlen|]. split; [|constructor; [by apply published_frame|done..]].
    apply fly_done; [done|done|done| | |].
    + cbn [phase_db phase_dc] in *. replace (zsum (owed _) acc) with d by done.
      destruct C as [C1 C2 C3 C4 C5 C6 C7]. constructor; try done.
      * change (totalBytes (s_acct s) + d = msum (λ _ p, charge s p) (scopes s) + (d + flights_db s fl)). lia.
      * change (totalItems (s_acct s) + 0 = msum (λ _ p, count s p) (scopes s)). lia.
    + cbn. exists [], g1. split; [done|]. split; [done|]. split; [done|].
      split; [by intros k ?%elem_of_nil|]. cbn. split; [lia|]. by rewrite Hlen.
    + cbn. lia.
  - split; [by split|]. split; [|apply rides_refl]. apply fly_done; [done|done|done|exact C|done|]. cbn. lia.
Qed.
Lemma fly_commit s g p todo n t fl o : conf_ok (mkconf s (mkflight g (Committing (p :: todo) n t) :: fl) o) →
  roomy (mkconf s (mkflight g (Committing (p :: todo) n t) :: fl) o) →
  fly_post s g (Committing (p :: todo) n t) fl o.
Proof.
  intros HC HR. pose proof (fly_numbers _ _ _ _ _ HC HR) as N. cbn [snap_bytes phase_db zsum] in N.
  destruct (fly_phase _ _ _ _ _ HC) as (g1 & g2 & -> & F2 & Ho & M & Hn & Ht).
  destruct (fly_locks _ _ _ _ _ HC) as (Hnd & _).
  destruct (plans_cons_inv _ _ _ F2) as (e & g' & l' & -> & Hp & F2').
  apply Forall_cons in Ho as [Hop Ho]. pose proof (owed_bounds s g' todo F2' Ho) as Hb.
  pose proof (fly_core _ _ _ _ _ HC) as C. pose proof (old_held _ _ _ _ _ HC (p_scope p)) as Hold.
  pose proof (batch_weight_nonneg (g1 ++ e :: g')).
  assert (commit_fits (phase_db s (Committing (p :: todo) n t) + flights_db s fl) s p) as Hfits.
  { constructor; unfold drift, in_i64, MinInt64, MaxInt64, scopeBufferOverhead in *; cbn [phase_db zsum]; lia. }
  pose proof (commit_plan_spec _ _ s p e l' C Hp Hfits) as HP.
  pose proof (commit_plan_run p s (sk_placed _ _ _ _ C)) as Er.
  pose proof (mono_commit_plan p s) as Hmono.
  unfold fly_post. cbn [fly]. unfold bind, ret. destruct (commit_plan p s) as [m s'] eqn:Em.
  destruct HP as (C' & D & Hm). cbn [snd] in Hmono.
  assert (m = match scopes s !! p_scope p with Some _ => 0 | None => 1 end) as Hm'.
  { destruct (scopes s !! p_scope p); by injection Er. }
  pose proof (committed_other _ _ _ _ _ _ _ C D) as Hoth.
  assert (p_scope p = e.1) as Ep by apply Hp.
  assert (∀ k, k ≠ e.1 → scopes s' !! k = scopes s !! k) as Hsc by (intros k Hk; by apply Hoth).
  rewrite fmap_app, fmap_cons in Hnd. apply NoDup_app in Hnd as (_ & Hd & Hnd).
  apply NoDup_cons in Hnd as [He _].
  assert (∀ k, k ∈ g'.*1 → k ≠ e.1) as Hg' by (intros k Hk ->; done).
  assert (is_Some (scopes s' !! e.1)) as Hmap.
  { destruct (cm_scope _ _ _ _ _ D) as (q & -> & _). rewrite lookup_insert_eq. by eexists. }
  split; [|split].
  - exists e.2, l'. rewrite Ep. split; [apply elem_of_app; right; destruct e; left|].
    split; [destruct e; apply Hp|]. split; [apply Hp|]. split; [|split; [|split]].
    + destruct (cm_scope _ _ _ _ _ D) as (q & HS & _ & V & _). unfold content.
      by rewrite HS, lookup_insert_eq, <- V.
    + intros k Hk. unfold content. destruct (Hoth k Hk) as (-> & Hbuf & _).
      destruct (scopes s !! k) as [q|] eqn:Hq; [|done]. cbn. by rewrite Hbuf.
    + rewrite (cm_bytes _ _ _ _ _ D). done.
    + by rewrite <- Ep, Hm'.
  - apply fly_done; [done|done| | | |].
    + intros k Hk. apply Hsc. intros ->. apply Hk. rewrite fmap_app, fmap_cons. set_solver.
    + cbn [phase_db phase_dc zsum] in *. rewrite (owed_stable s s' g' todo F2')
        by (intros k Hk; by apply Hsc, Hg').
      replace (zsum (owed s) todo + flights_db s fl) with
        (owed s p + zsum (owed s) todo + flights_db s fl - owed s p) by lia.
      replace (n + m + flights_dc fl) with (n + flights_dc fl + m) by lia. exact C'.
    + cbn. exists (g1 ++ [e]), g'. split; [by rewrite <- app_assoc|]. split; [done|]. split; [done|].
      split; [|rewrite length_app; cbn; lia].
      intros k. rewrite fmap_app. intros [Hk|Hk]%elem_of_app.
      * rewrite Hsc; [by apply M|]. intros ->. apply (Hd e.1); [done|left].
      * apply list_elem_of_singleton in Hk as ->. exact Hmap.
    + rewrite (cm_bytes _ _ _ _ _ D). cbn [freed]. lia.
  - constructor; [by eapply committed_extends|apply D|apply D|done|]. intros X k q Hq.
    destruct (decide (k = e.1)) as [->|Hne]; [by apply (cm_index _ _ _ _ _ D)|].
    destruct (Hoth k Hne) as (Ek & Hbuf & _). rewrite Ek in Hq. rewrite (Hbuf q Hq). by apply (X k).
Qed.

Lemma fly_finish s g n t fl o : conf_ok (mkconf s (mkflight g (Committing [] n t) :: fl) o) →
  roomy (mkconf s (mkflight g (Committing [] n t) :: fl) o) →
  fly_post s g (Committing [] n t) fl o.
Proof.
  intros HC HR. pose proof (fly_numbers _ _ _ _ _ HC HR) as N.
  destruct (fly_phase _ _ _ _ _ HC) as (g1 & g2 & -> & F2 & _ & M & Hn & Ht).
  apply Forall2_nil_inv_r in F2 as ->. rewrite app_nil_r in *.
  pose proof (fly_core _ _ _ _ _ HC) as C.
  pose proof (core_counters _ _ s C (conf_tame _ HC HR)) as K.
  pose proof (flights_bounds _ _ (fly_rest _ _ _ _ _ HC)) as B. pose proof (batch_length g1).
  pose proof (count_new n s ltac:(lia) ltac:(unfold in_i64, MinInt64, MaxInt64 in *; lia)) as E.
  unfold fly_post. cbn [fly]. rewrite (bind_run _ _ _ _ _ E). unfold ret.
  split; [by subst t|]. split; [|constructor; [by apply published_frame|done..]].
  apply fly_done; [done|done|done| | |].
  - cbn [phase_db phase_dc zsum] in *. destruct C as [C1 C2 C3 C4 C5 C6 C7]. constructor; try done.
    change (scopeCount (s_acct s) + n = Z.of_nat (size (scopes s)) - (0 + flights_dc fl)). lia.
  - by split.
  - cbn. lia.
Qed.

(** Every section of a flight is exact and keeps the accounting. *)
Lemma fly_ok s g ph fl o : conf_ok (mkconf s (mkflight g ph :: fl) o) →
  roomy (mkconf s (mkflight g ph :: fl) o) → fly_post s g ph fl o.
Proof.
  intros HC HR. destruct ph as [[|p todo] acc d|[|p todo] n t|r].
  - by apply fly_reserve.
  - by apply fly_snapshot.
  - by apply fly_finish.
  - by apply fly_commit.
  - unfold fly_post. cbn. rewrite Z.add_0_r. split; [by split|]. split; [done|apply rides_refl].
Qed.

(** ** The whole machine *)
Lemma wstep_tick c c' : wstep c c' → (s_tick (c_store c) ≤ s_tick (c_store c'))%nat.
Proof.
  destruct 1 as [s s' fl o S|s fl o g ps _ _|s l1 g ph l2 o|s l1 g r l2 o]; cbn; [by eapply section_tick|done| |done].
  apply mono_fly.
Qed.

Lemma wstep_ok c c' : conf_ok c → roomy c → young (c_store c) → wstep c c' →
  conf_ok c' ∧ extends (c_store c) (c_store c').
Proof.
  intros HC HR Y. destruct 1 as [s s' fl o S|s fl o g ps HF Hnd|s l1 g ph l2 o|s l1 g r l2 o]; cbn in *.
  - destruct (section_core (locked fl) _ _ s s' (ck_core _ HC) (conf_tame _ HC HR) Y) as [C X Hk T]; [|done|].
    { intros HL. apply (unlocked s fl); [apply HC|done]. }
    split; [|done]. destruct (flights_stable s s' fl Hk (ck_flights _ HC)) as [F E].
    constructor; cbn [c_store c_flights c_over]; [rewrite E; exact C|apply HC|done|apply HC|].
    pose proof (ck_cap _ HC). pose proof (ck_over _ HC). cbn in *. lia.
  - split; [|by intros k p]. destruct HC as [C L F O T]. constructor; cbn in *; try done.
    constructor; [|done]. cbn. exists [], g. split; [done|]. split; [constructor|]. split; [done|].
    split; [constructor|done].
  - pose proof (fly_ok s g ph (l1 ++ l2) o) as HP. ospecialize (HP _ _).
    { eapply conf_perm; [|exact HC]. by rewrite <- Permutation_middle. }
    { eapply roomy_perm; [|exact HR]. by rewrite <- Permutation_middle. }
    unfold fly_post in HP. destruct (fly ph s) as [ph' s']. destruct HP as (_ & H & R).
    split; [|apply R]. eapply conf_perm; [|exact H]. cbn. by rewrite <- Permutation_middle.
  - split; [|by intros k p].
    assert (conf_ok (mkconf s (mkflight g (Unlocking r) :: l1 ++ l2) o)) as [C L F O T].
    { eapply conf_perm; [|exact HC]. by rewrite <- Permutation_middle. }
    cbn in *. constructor; cbn; try done.
    + unfold locked in L. cbn in L. by apply NoDup_app in L as (_ & _ & ?).
    + by apply Forall_cons in F as [_ ?].
Qed.

Lemma wstep_chans c c' : conf_ok c → roomy c → wstep c c' → chans_ok (c_store c) → chans_ok (c_store c').
Proof.
  intros HC HR. destruct 1 as [s s' fl o S|s fl o g ps HF Hnd|s l1 g ph l2 o|s l1 g r l2 o]; cbn in *; try done.
  - intros HX. destruct (section_subs (locked fl) _ _ s s' (ck_core _ HC) (conf_tame _ HC HR)) as [T|[E1 E2]];
      [|done|by eapply table_ok|by eapply chans_frame].
    intros HL. apply (unlocked s fl); [apply HC|done].
  - pose proof (fly_ok s g ph (l1 ++ l2) o) as HP. ospecialize (HP _ _).
    { eapply conf_perm; [|exact HC]. by rewrite <- Permutation_middle. }
    { eapply roomy_perm; [|exact HR]. by rewrite <- Permutation_middle. }
    unfold fly_post in HP. destruct (fly ph s) as [ph' s']. destruct HP as (_ & _ & R).
    apply chans_frame; apply R.
Qed.

(** Steps of a machine whose memory holds what it holds. *)
Definition rstep (c c' : conf) : Prop := roomy c ∧ wstep c c'.
Lemma rsteps_tick c c' : rtc rstep c c' → (s_tick (c_store c) ≤ s_tick (c_store c'))%nat.
Proof. induction 1 as [|c1 c2 c3 [_ H1] _ IH]; [done|]. apply wstep_tick in H1. lia. Qed.
Lemma rsteps_ok c c' : conf_ok c → chans_ok (c_store c) → rtc rstep c c' → young (c_store c') →
  conf_ok c' ∧ chans_ok (c_store c') ∧ extends (c_store c) (c_store c').
Proof.
  intros HC HX Hs. revert HC HX. induction Hs as [|c1 c2 c3 [R H1] H2 IH]; intros HC HX Y; [done|].
  pose proof (rsteps_tick _ _ H2). pose proof (wstep_tick _ _ H1).
  destruct (wstep_ok c1 c2 HC R) as [C2 X2]; [unfold young in *; lia|done|].
  destruct (IH C2 (wstep_chans _ _ HC R H1 HX) Y) as (C3 & X3 & E3).
  split; [done|]. split; [done|]. by transitivity (c_store c2).
Qed.

(** Nothing in flight: the plain invariant. *)
Lemma idle_ok s : store_inv s ↔ conf_ok (idle s).
Proof.
  unfold idle. split.
  - intros [C T]%inv_core. constructor; cbn; [exact C|apply NoDup_nil_2|constructor|done|lia].
  - intros [C _ _ _ T]. cbn in T. apply inv_core. split; [exact C|lia].
Qed.

(** ** The uuid index *)
Definition distinct_scopes (s : store) : Prop :=
  ∀ k p, scopes s !! k = Some p → distinct_uuids (view (buf_at s p)).

Lemma no_items_index b : view b = [] → uuid_ok b.
Proof. intros E%fmap_nil_inv p. rewrite E. by intros ?%elem_of_nil. Qed.
Lemma index_frame s s' : (∀ k p, scopes s' !! k = Some p →
    scopes s !! k = Some p ∧ buf_at s' p = buf_at s p ∨ view (buf_at s' p) = []) →
  indexed s → indexed s'.
Proof.
  intros H X k p Hp. destruct (H k p Hp) as [[Hk ->]|E]; [by apply (X k)|by apply no_items_index].
Qed.
Lemma unlinked_index k p s s' {R} db dc : store_core db dc R s → unlinked k p s s' → indexed s → indexed s'.
Proof.
  intros I U. apply index_frame. intros k' q. rewrite (ul_scopes _ _ _ _ U), lookup_delete_Some.
  intros [Hne Hq]. left. split; [done|]. apply (ul_rest _ _ _ _ U). intros ->. apply Hne.
  exact (sk_inj _ _ _ _ I _ _ _ (ul_some _ _ _ _ U) Hq).
Qed.
Lemma same_index s s' {R} db dc : store_core db dc R s → same_content s s' → indexed s → indexed s'.
Proof.
  intros I C. destruct (same_core _ _ s s' I C) as (_ & HS & _). apply index_frame. intros k p. rewrite HS.
  intros Hp. left. split; [done|]. apply (sc_bufs _ _ C). by eapply (sk_live _ _ _ _ I).
Qed.
Lemma buf_index {R} db dc k p {A} (m : M (result error A)) s : BufferOp k m → store_core db dc R s →
  tame db dc s → young s → published s k p →
  let s' := (with_buf p m s).2 in indexed s → distinct_scopes s' → indexed s'.
Proof.
  intros O I T Y [Hk|(_ & Hg & Hno)] s'.
  - destruct (with_buf_core db dc k p m s O I T Y Hk) as (_ & HS & _). fold s' in HS.
    destruct (sk_live _ _ _ _ I k p Hk) as [L _].
    pose proof (bo_live (BufferOp := O) _ _ (s_tick s) (core_pre _ _ s k p I T Hk) (lb_det _ _ _ L)
      (lb_scope _ _ _ L) (core_seq _ _ s k p I Y Hk)) as E.
    pose proof (with_buf_frame p m s) as (_ & _ & _ & _ & F). fold s' in F.
    intros X D k' q. rewrite HS. intros Hq. destruct (decide (q = p)) as [->|Hne]; [|rewrite F by done; by apply (X k')].
    specialize (D k' p). rewrite HS in D. specialize (D Hq). revert D. unfold s', with_buf.
    destruct (m _) as [x c]. cbn in E |- *. unfold buf_at. cbn. rewrite lookup_total_insert_eq.
    apply (bs_index _ _ _ _ (oe_step _ _ _ _ _ E)). by apply (X k').
  - destruct (gone_run k p m s O Hg) as (t' & E & _). unfold s'. rewrite E. cbn [snd]. intros X _.
    revert X. apply index_frame. intros k' q Hq. left. split; [exact Hq|]. apply put_back.
Qed.

Lemma section_indexed L db dc s s' : ahead db dc s → tame db dc s → young s → (L = [] → db = 0 ∧ dc = 0) →
  section L s s' → indexed s → distinct_scopes s' → indexed s'.
Proof.
  intros I T Y HL. destruct 1 as [s s' C|k p A m s O Hp|k p t s Hp|k s Hk Hn|k p s Hr Hn|k s Hr Hn|s E
    |st s E G Hfit|s a' E1 E2 E3|s s' HT]; intros X D.
  - by eapply same_index.
  - by eapply buf_index.
  - intros k' q Hq. specialize (X k' q Hq). unfold buf_at. cbn.
    destruct (decide (q = p)) as [->|Hne]; [by rewrite lookup_total_insert_eq|by rewrite lookup_total_insert_ne].
  - destruct (slow_create_core _ _ k s I T) as (O & _). unfold create_outcome_ok in O.
    destruct (slow_create k s) as [[[p []]|e] s1]; cbn in *;
      [|by eapply same_index; [|apply O|]|by eapply same_index; [|apply O|]].
    revert X. apply index_frame. intros k' q. rewrite (cs_scopes _ _ _ _ O), lookup_insert_Some.
    intros [[_ <-]|[_ Hq]]; [right; by rewrite (cs_buf _ _ _ _ O)|left].
    split; [done|]. apply (cs_rest _ _ _ _ O). by eapply (sk_live _ _ _ _ I).
  - destruct (cleanup_core _ _ k p s I T Hr) as ([-> | U] & _); [done|by eapply unlinked_index].
  - destruct (deleteScope_locked_core _ _ k s I T Hr) as (O & _).
    destruct (scopes s !! k) as [p|]; [|by rewrite O]. by eapply unlinked_index; [|apply O|].
  - destruct (HL E) as [-> ->]. pose proof (wipe_core s I) as W. revert X. apply index_frame.
    intros k p Hp. right. by eapply (wp_empty _ _ _ W).
  - destruct (HL E) as [-> ->]. pose proof (rebuild_phase2_core st s I G Hfit) as W.
    intros k p Hp. destruct (isReservedScope k) eqn:Hr; [by eapply no_items_index, (rp_reserved _ _ _ W)|].
    rewrite (rp_user _ _ _ W k Hr) in Hp. rewrite (rp_bufs _ _ _ W k p Hp). by eapply (sg_index _ _ G).
  - done.
  - by destruct (table_set s s' HT) as (sb & ch & ->).
Qed.

Lemma wstep_indexed c c' : conf_ok c → roomy c → young (c_store c) → wstep c c' →
  indexed (c_store c) → distinct_scopes (c_store c') → indexed (c_store c').
Proof.
  intros HC HR Y. destruct 1 as [s s' fl o S|s fl o g ps HF Hnd|s l1 g ph l2 o|s l1 g r l2 o]; cbn in *; try done.
  - apply (section_indexed (locked fl) _ _ s s' (ck_core _ HC) (conf_tame _ HC HR) Y); [|done].
    intros HL. apply (unlocked s fl); [apply HC|done].
  - pose proof (fly_ok s g ph (l1 ++ l2) o) as HP. ospecialize (HP _ _).
    { eapply conf_perm; [|exact HC]. by rewrite <- Permutation_middle. }
    { eapply roomy_perm; [|exact HR]. by rewrite <- Permutation_middle. }
    unfold fly_post in HP. destruct (fly ph s) as [ph' s']. destruct HP as (_ & _ & R).
    intros X _. by apply R.
Qed.

Lemma newStore_indexed : indexed newStore.
Proof.
  intros k p Hp. destruct newStore_spec as (_ & N & E). pose proof (proj1 (in_scopes _ _ _ N k p) Hp) as [H|[H _]].
  - by rewrite E, lookup_empty in H.
  - destruct (in_bufs _ _ _ N k p H Hp) as (t & ts & ->). by apply no_items_index.
Qed.

(** Runs in which no two items of a scope ever share a uuid. *)
Definition dstep (c c' : conf) : Prop := rstep c c' ∧ distinct_scopes (c_store c').
Lemma dsteps_indexed c c' : conf_ok c → indexed (c_store c) → rtc dstep c c' → young (c_store c') →
  indexed (c_store c').
Proof.
  intros HC X Hs. revert HC X. induction Hs as [|c1 c2 c3 [[R H1] D] H2 IH]; intros HC X Y; [done|].
  assert (s_tick (c_store c2) ≤ s_tick (c_store c3))%nat as Ht.
  { apply rsteps_tick. eapply rtc_subrel; [|exact H2]. by intros ? ? []. }
  pose proof (wstep_tick _ _ H1). assert (young (c_store c1)) as Y1 by (unfold young in *; lia).
  apply IH; [by apply (wstep_ok c1 c2 HC R Y1)|by apply (wstep_indexed c1)|done].
Qed.
End Spec.
