(* ===== verification/RefineOps.v ===== *)
(** * The writes, as edits of one scope's list

  Each single-item write of the store is one relation between the list of its
  scope before and after ([append_rel], ..., [counter_rel]); the store applies
  exactly that relation, or, on an error, leaves no trace. *)
From S2P Require Import Prelude GoStd Uuid Types Wire Validation Buffer BufferInv BufferSpec.
From S2P Require Import BufferWrite BufferWriteSpec BufferRead BufferDelete BufferDeleteSpec.
From S2P Require Import BufferCounter BufferCounterSpec BufferReplaceSpec BufferTheorems.
From S2P Require Import Clock Store StoreInv BufferOps StoreSpec Events StoreOps StoreClock Steps.
From S2P Require Import Bulk BulkSpec RebuildSpec WarmSpec OpsSteps EventsSpec Refine.

(** ** The abstract operations *)

(** A new item goes to the end: the newest seq, an id nobody else has. *)
Record appended (scope id : string) (l : list aitem) (it : Item) : Prop := {
  ap_scope : Scope it = scope;
  ap_id : ID it = id;
  ap_newest : ∀ e, e ∈ l → Seq e.1 < Seq it;
  ap_fresh : id ≠ ""%string → ∀ e, e ∈ l → ID e.1 ≠ id;
}.
Definition append_rel (item : Item) (l : list aitem) (it : Item) (l' : list aitem) : Prop :=
  appended (Scope item) (ID item) l it ∧ Payload it = Payload item ∧ l' = l ++ [(it, None)].

Definition upsert_rel (item : Item) (l : list aitem) (x : Item * bool) (l' : list aitem) : Prop :=
  if x.2 then append_rel item l x.1 l'
  else ∃ i e, l !! i = Some e ∧ ID e.1 = ID item ∧ ID x.1 = ID item ∧ Seq x.1 = Seq e.1 ∧
    Uuid x.1 = Uuid e.1 ∧ Payload x.1 = Payload item ∧ l' = <[i := (x.1, None)]> l.

(** A miss means no item has the address, by uuid as long as every uuid of the
    scope is indexed ([U]). *)
Definition missed (U : Prop) (ad : address) (l : list aitem) : Prop :=
  match ad with AtUUID _ => U | _ => True end → ∀ e, e ∈ l → ¬ addressed ad e.

Definition update_rel (U : Prop) (ad : address) (payload : slice) (l : list aitem) (n : Z) (l' : list aitem) : Prop :=
  n = 0 ∧ l' = l ∧ missed U ad l ∨
  n = 1 ∧ ∃ i e e', l !! i = Some e ∧ addressed ad e ∧ Scope e' = Scope e.1 ∧ ID e' = ID e.1 ∧
    Seq e' = Seq e.1 ∧ Uuid e' = Uuid e.1 ∧ Payload e' = payload ∧ l' = <[i := (e', None)]> l.

Definition delete_rel (U : Prop) (ad : address) (l : list aitem) (n : Z) (l' : list aitem) : Prop :=
  n = 0 ∧ l' = l ∧ missed U ad l ∨
  n = 1 ∧ ∃ i e, l !! i = Some e ∧ addressed ad e ∧ l' = delete i l.

Definition cut_at_seq (s : Z) (l : list aitem) (n : Z) (l' : list aitem) : Prop :=
  n = Z.of_nat (length (filter (λ e : aitem, Seq e.1 ≤ s) l)) ∧ l' = filter (λ e : aitem, s < Seq e.1) l.
Definition drain_rel (U : Prop) (ad : address) (l : list aitem) (n : Z) (l' : list aitem) : Prop :=
  match ad with
  | AtSeq s => cut_at_seq s l n l'
  | _ => n = 0 ∧ l' = l ∧ missed U ad l ∨ ∃ e, e ∈ l ∧ addressed ad e ∧ cut_at_seq (Seq e.1) l n l'
  end.

Definition counter_rel `{Env} (scope id : string) (by_ : Z) (l : list aitem) (x : Z * bool) (l' : list aitem)
    : Prop :=
  if x.2
  then x.1 = by_ ∧ ∃ e', appended scope id l e'.1 ∧ counter_value e' = Ok by_ ∧ l' = l ++ [e']
  else ∃ i e e' cur, l !! i = Some e ∧ ID e.1 = id ∧ counter_value e = Ok cur ∧
    x.1 = cur + by_ ∧ in_counter x.1 ∧ same_key e e' ∧ counter_value e' = Ok x.1 ∧ l' = <[i := e']> l.

Section RefineOps.
Context `{EV : Env} `{CP : Caps} `{SH : ScopeHash} `{EM : EventMarshal} `{CO : !CapsOk}.

(** ** The buffer methods implement them *)
Lemma view_seq b e : buf_wf b → e ∈ view b → Seq e.1 ≤ lastSeq b.
Proof. intros W (p & -> & Hp)%list_elem_of_fmap. by apply (w_range _ W). Qed.

Lemma append_implements it : implements (Scope it) any_buffer (appendItem it) (append_rel it).
Proof.
  constructor; [by apply appendItem_op| |apply _]. intros b a t P Hd _ Hl _.
  pose proof (append_post it b a t P Hd Hl) as H. destruct (appendItem it _) as [[x|e] c]; [|done].
  destruct H as (E & Hs & Hi & Hp & _ & _ & V & _ & Hf & _). split; [|done].
  constructor; [done..| |done]. intros e He%view_seq; [|apply P].
  assert (Seq x = lastSeq b + 1) as -> by (by rewrite E). lia.
Qed.

Lemma upsert_implements it : ID it ≠ ""%string →
  lengths_ok (Payload it) (render_of (renderBytes it) (Payload it)) →
  implements (Scope it) any_buffer (upsertByID it) (upsert_rel it).
Proof.
  intros Hid HL. constructor; [by apply upsertByID_op| |by apply upsert_fail_clean].
  intros b a t P Hd Hs Hl _. pose proof (upsert_post it b a t P Hd Hl Hid HL) as H.
  pose proof (upsertByID_op (Scope it) it eq_refl HL) as O.
  pose proof (bo_live (BufferOp := O) b a t P Hd Hs Hl) as O2.
  destruct (upsertByID it _) as [[[x []]|e] c]; [| |done]; cbn [fst snd] in *; unfold upsert_rel; cbn.
  - destruct H as (_ & Hi & Hp & _ & Hf & Hq & _ & V). split; [|done].
    constructor; [|done| |by intros _].
    + destruct O2 as [_ S' _ _]. assert ((x, None) ∈ view (c_buf c)) as Hx by (rewrite V; set_solver).
      apply list_elem_of_fmap in Hx as (p & Hx & Hin). injection Hx as Hx _. rewrite Hx. cbn.
      by apply S'.
    + intros e He%view_seq; [|apply P]. lia.
  - destruct H as (_ & Hi & Hp & _ & i & e & H1 & H2 & H3 & H4 & H5 & H6 & V). by exists i, e.
Qed.

(** The buffers whose index is complete when [U] holds. *)
Definition indexed_if (U : Prop) : scopeBuffer → Prop := λ b, U → uuid_ok b.
Lemma missed_view U ad b : indexed_if U b → (address_ok ad b → ∀ e, e ∈ view b → ¬ addressed ad e) →
  missed U ad (view b).
Proof. intros Hok H Hu. apply H. destruct ad; [done|done|by apply Hok]. Qed.
Lemma indexed_scope s k p : scopes s !! k = Some p → indexed_if (uuids_indexed s k) (buf_at s p).
Proof. intros Hp U. by apply U. Qed.

Lemma update_implements U k ad payload pre : lengths_ok payload (render_of pre payload) →
  implements k (indexed_if U) (update_by ad payload pre) (update_rel U ad payload).
Proof.
  intros HL. constructor.
  - destruct ad; [by apply updateByID_op|by apply updateBySeq_op|by apply updateByUUID_op].
  - intros b a t P Hd _ _ Hok. pose proof (update_post ad payload pre b a t P Hd HL) as H.
    destruct (update_by _ _ _ _) as [[n|e] c]; [|done].
    destruct H as [[-> H]|(-> & [E _] & H)]; [right|left; rewrite E].
    + destruct H as (_ & _ & i & e & e' & H1 & H2 & H3 & H4 & H5 & H6 & H7 & H8 & _). split; [done|].
      exists i, e, e'. auto 10.
    + split; [done|]. split; [done|]. by apply missed_view.
  - intros b a t P Hd _ _. pose proof (update_post ad payload pre b a t P Hd HL) as H.
    destruct (update_by _ _ _ _) as [[n|e] c]; [done|]. destruct H as [[E1 E2] _]. by rewrite E1, E2.
Qed.

Lemma delete_implements U k ad : implements k (indexed_if U) (delete_by ad) (delete_rel U ad).
Proof.
  constructor.
  - destruct ad; apply _.
  - intros b a t P Hd _ _ Hok. pose proof (delete_post ad b a t P Hd) as H.
    destruct (delete_by _ _) as [r c]. destruct H as (_ & _ & [(-> & i & p & H1 & H2 & V & _)|(-> & [E _] & H)]).
    + right. split; [done|]. exists i, (view_item b p). split; [by apply view_at|done].
    + left. rewrite E. split; [done|]. split; [done|]. by apply missed_view.
  - intros b a t P Hd _ _. pose proof (delete_post ad b a t P Hd) as H.
    destruct (delete_by _ _) as [r c]. by destruct H as (_ & _ & [(-> & _)|(-> & _)]).
Qed.

Lemma drain_implements U k ad : (∀ id, ad ≠ AtID id) →
  implements k (indexed_if U) (drain_by ad) (drain_rel U ad).
Proof.
  intros Had. constructor.
  - destruct ad as [id|s|u]; [by destruct (Had id)|apply _|apply _].
  - intros b a t P Hd _ _ Hok. pose proof (drain_post ad b a t P Hd) as H.
    destruct (drain_by _ _) as [r c]. destruct H as (_ & _ & H). destruct ad as [id|s|u]; cbn in *.
    + by destruct (Had id).
    + by destruct H as (-> & ->).
    + destruct (byUUID b !! u) as [p|] eqn:E; cbn in H.
      2:{ destruct H as (-> & [-> _]). left. split; [done|]. split; [done|]. apply missed_view; [done|].
          intros A. by apply index_miss_view; [apply P|..]. }
      destruct H as (-> & V). right. exists (view_item b p).
      apply (index_hit_view (AtUUID u) b p) in E as [Hp Ha]; [|apply P].
      split; [by apply list_elem_of_fmap_2|]. done.
  - intros b a t P Hd _ _. pose proof (drain_post ad b a t P Hd) as H.
    destruct (drain_by _ _) as [r c]. destruct H as (_ & _ & H).
    destruct (drain_bound ad b); by destruct H as (-> & _).
Qed.

Lemma counter_implements k id n : id ≠ ""%string → in_counter n →
  implements k any_buffer (counterAdd k id n) (counter_rel k id n).
Proof.
  intros Hid Hn. constructor; [by apply counterAdd_op| |by apply counter_fail_clean].
  intros b a t P Hd _ Hl _. pose proof (counterAdd_post k id n b a t P Hl Hid Hn) as H.
  unfold outcome_post in H. destruct (counterAdd _ _ _ _) as [[[v []]|e] c]; [| |done].
  - destruct H as (_ & _ & -> & Hf & e' & V & Hv & H1 & H2 & H3). split; [done|]. exists e'.
    split; [|done]. constructor; [done..| |by intros _]. intros e He%view_seq; [|apply P]. lia.
  - destruct H as (_ & _ & i & e & e' & cur & H1 & H2 & H3 & H4 & H5 & V & H6 & H7).
    exists i, e, e', cur. auto 10.
Qed.

(** ** The addresses a request names *)
Definition request_address (id : string) (seq : Z) (uuid : string) : address :=
  if negb (bool_decide (id = ""%string)) then AtID id
  else if negb (bool_decide (uuid = ""%string)) then AtUUID (parsed_uuid uuid) else AtSeq seq.
Definition item_address (it : Item) : address :=
  if negb (bool_decide (ID it = ""%string)) then AtID (ID it)
  else if negb (IsZero (Uuid it)) then AtUUID (Uuid it) else AtSeq (Seq it).

Lemma delete_target_by id seq uuid : delete_target id seq uuid = delete_by (request_address id seq uuid).
Proof. unfold delete_target, request_address. destruct (negb _); [done|]. by destruct (negb _). Qed.
Lemma drain_target_by seq uuid : drain_target seq uuid = drain_by (request_address "" seq uuid).
Proof. unfold drain_target, request_address. cbn [negb]. by destruct (negb _). Qed.
Lemma update_target_by it : update_target it = update_by (item_address it) (Payload it) (renderBytes it).
Proof. unfold update_target, item_address. destruct (negb _); [done|]. by destruct (negb _). Qed.

(** ** The store applies them *)
Lemma written_refused {A} k (R : list aitem → A → list aitem → Prop) s e : written k R s (Err e, s).
Proof. by constructor. Qed.
Lemma written_in_refused {A} k (d : A) R s e : written_in k d R s (Err e, s).
Proof. unfold written_in. case_match; [apply written_refused|right; by eexists]. Qed.
Lemma not_reserved_ne k : isReservedScope k = false → k ≠ EventsScopeName.
Proof. by intros Hr ->. Qed.

Lemma append_run it s : appendOneTrusted it s =
  (let? r := getOrCreateScopeTrackingCreated (Scope it) in
   let '(p, created) := r in
   or_cleanup (Scope it) p created (appendItem it) (λ r,
     emitAppendEvent_with (appendOneTrusted_fuel unreachable 1) (Scope r) (ID r) (Seq r) (Ts r)
       (wireUUID (Uuid r)) (Payload r) ;;;
     (if isReservedScope (Scope r) then notifySubscriber (Scope r) else ret tt) ;;; ret (Ok r))) s.
Proof. done. Qed.
Lemma logged_append k : k ≠ EventsScopeName → logged k (λ r : Item,
  emitAppendEvent_with (appendOneTrusted_fuel unreachable 1) (Scope r) (ID r) (Seq r) (Ts r)
    (wireUUID (Uuid r)) (Payload r) ;;;
  (if isReservedScope (Scope r) then notifySubscriber (Scope r) else ret tt) ;;; ret (Ok r)).
Proof.
  intros Hk. split; [..|done].
  - intros r. apply quiet_bind.
    { unfold emitAppendEvent_with. apply quiet_if; [apply quiet_ret|]. apply quiet_emit_fuel, mono_ret. }
    intros _. apply quiet_bind; [apply quiet_if; [apply quiet_notify|]; apply quiet_ret|].
    intros; apply quiet_ret.
  - intros r s. by rewrite !bind_eq.
Qed.

(** An update, a delete or a drain logs when it changed something. *)
Lemma logged_change k e : logged k (λ n : Z, (if 0 <? n then gated k e else ret tt) ;;; ret (Ok n)).
Proof.
  apply logged_then; [intros a; apply quiet_if; [apply quiet_gated|apply quiet_ret]|].
  intros Hk a s. destruct (_ <? _); [by apply gated_self|done].
Qed.

Lemma appendOne_edit it s : store_inv s → young (appendOne it s).2 →
  written (Scope it) (append_rel it) s (appendOne it s).
Proof.
  intros I. unfold appendOne. destruct (validateWriteItem _ _ _) as [it'|e] eqn:V;
    [|intros _; apply written_refused].
  apply validateWriteItem_spec in V as ([Hk _] & Hev & _ & _ & _ & _ & _ & -> & _).
  destruct (fillRenderBytes_fields it) as (Es & Ei & _ & _ & _ & Ep & _).
  rewrite append_run. intros Y. assert (Scope it ≠ EventsScopeName) as Hne by (by intros ?; apply Hev).
  rewrite <- Es in Hk, Hne.
  pose proof (written_new _ _ _ _ s (append_implements (fillRenderBytes it))
    (λ _, logged_append _ Hne) Hk I Y) as H.
  unfold append_rel in H |- *. rewrite <- Es, <- Ei, <- Ep. exact H.
Qed.

Lemma upsertOne_edit it s : client_item it → store_inv s → young (upsertOne it s).2 →
  written (Scope it) (upsert_rel it) s (upsertOne it s).
Proof.
  intros Hc I. unfold upsertOne. destruct (validateUpsertItem _ _) as [it'|e] eqn:V;
    [|intros _; apply written_refused].
  apply validateUpsertItem_spec in V as ([Hk _] & Hr & [Hid _] & _ & _ & _ & _ & -> & Hs).
  destruct (fillRenderBytes_fields it) as (Es & Ei & _ & _ & _ & Ep & _).
  assert (approxItemSize (fillRenderBytes it) ≤ maxItemBytes) as Hs'.
  { destruct (IsZero _); unfold uuidStringLen in Hs; lia. }
  intros Y. rewrite <- Ei in Hid. apply not_reserved_ne in Hr. rewrite <- Es in Hk, Hr.
  pose proof (written_new _ _ _ _ s (upsert_implements _ Hid (fill_lengths it Hc Hs'))
    (λ _, logged_then _ _ (λ res, quiet_gated _ _) (λ E, False_ind _ (Hr E))) Hk I Y) as H.
  unfold upsert_rel, append_rel in H |- *. rewrite <- Es, <- Ei, <- Ep. exact H.
Qed.

Lemma counterAddOne_edit k id n s : store_inv s → young (counterAddOne k id n s).2 →
  written k (counter_rel k id n) s (counterAddOne k id n s).
Proof.
  intros I. unfold counterAddOne. destruct (validateCounterAddRequest _ _) as [v|e] eqn:V;
    [|intros _; apply written_refused].
  apply validateCounterAddRequest_spec in V as ([Hk _] & Hr & [Hid _] & [= <-] & _ & Hn & _).
  apply (written_new k _ _ (λ b res, _ ;;; _ ;;; ret (Ok res))); [by apply counter_implements| |done|done].
  intros b. split; [|intros; by rewrite !bind_eq|by intros ->].
  intros a. apply quiet_bind.
  - apply quiet_if; [|apply quiet_ret]. apply quiet_bind; [apply quiet_now|intros; apply quiet_bump].
  - intros _. apply quiet_bind; [apply quiet_gated|intros; apply quiet_ret].
Qed.

Lemma updateOne_edit it s : client_item it → store_inv s → young (updateOne it s).2 →
  written_in (Scope it) 0 (update_rel (uuids_indexed s (Scope it)) (item_address it) (Payload it)) s (updateOne it s).
Proof.
  intros Hc I. unfold updateOne. destruct (validateUpdateItem _ _) as [it'|e] eqn:V;
    [|intros _; apply written_in_refused].
  apply validateUpdateItem_spec in V as (_ & Hr & _ & _ & _ & -> & Hs).
  destruct (fillRenderBytes_fields it) as (Es & Ei & Eq & _ & Eu & Ep & _).
  assert (approxItemSize (fillRenderBytes it) ≤ maxItemBytes) as Hs'.
  { destruct (IsZero _); unfold uuidStringLen in Hs; lia. }
  rewrite update_target_by. unfold item_address. rewrite Es, Ei, Eq, Eu, Ep.
  eapply written_old; [..|apply indexed_scope|done].
  - rewrite <- Ep. apply update_implements. by apply fill_lengths.
  - apply logged_change.
Qed.

Lemma deleteOne_edit k id seq uuid s : store_inv s → young (deleteOne k id seq uuid s).2 →
  written_in k 0 (delete_rel (uuids_indexed s k) (request_address id seq uuid)) s (deleteOne k id seq uuid s).
Proof.
  intros I. unfold deleteOne. destruct (validateDeleteRequest _) as [v|e] eqn:V;
    [|intros _; apply written_in_refused].
  rewrite delete_target_by. eapply written_old; [apply delete_implements|apply logged_change|apply indexed_scope|done].
Qed.

Lemma deleteUpTo_edit k seq uuid s : store_inv s → young (deleteUpTo k seq uuid s).2 →
  written_in k 0 (drain_rel (uuids_indexed s k) (request_address "" seq uuid)) s (deleteUpTo k seq uuid s).
Proof.
  intros I. unfold deleteUpTo. destruct (validateDeleteUpToRequest _) as [v|e] eqn:V;
    [|intros _; apply written_in_refused].
  rewrite drain_target_by. eapply written_old; [apply drain_implements|apply (logged_change k)|apply indexed_scope|done].
  intros id. unfold request_address. rewrite bool_decide_true by done. cbn [negb]. by destruct (negb _).
Qed.
End RefineOps.
