(* ===== verification/RefineBulk.v ===== *)
(** * Scope removal, bulk writes and reads, on the abstract content

  What /delete_scope, /wipe, /warm and /rebuild do to the map from scopes to
  item lists, and what the readers report of it. *)
From S2P Require Import Prelude GoStd Uuid Types Wire Validation Buffer BufferInv BufferSpec.
From S2P Require Import BufferWrite BufferWriteSpec BufferRead BufferDelete BufferDeleteSpec.
From S2P Require Import BufferCounter BufferCounterSpec BufferReplaceSpec BufferTheorems.
From S2P Require Import Clock Store StoreInv BufferOps StoreSpec Events StoreOps StoreClock Steps.
From S2P Require Import Bulk BulkSpec RebuildSpec WarmSpec OpsSteps EventsSpec Refine RefineOps.

Section RefineBulk.
Context `{EV : Env} `{CP : Caps} `{SH : ScopeHash} `{EM : EventMarshal} `{CO : !CapsOk}.

(** ** Removing a scope *)
Definition scope_deleted (k : string) (s : store) (o : result error (Z * bool) * store) : Prop :=
  match o with
  | (Err _, s') => s' = s
  | (Ok (n, ok), s') =>
      isReservedScope k = false ∧
      match content s k with
      | None => n = 0 ∧ ok = false ∧ s' = s
      | Some l => n = Z.of_nat (length l) ∧ ok = true ∧ store_inv s' ∧ content s' k = None ∧
          ∀ k', k' ≠ k → k' ≠ EventsScopeName → content s' k' = content s k'
      end
  end.

Lemma count_view s p : count s p = Z.of_nat (length (view (buf_at s p))).
Proof. unfold count, view. by rewrite length_fmap. Qed.

Lemma unlinked_content k p s s' : store_inv s → scopes s !! k = Some p → unlinked k p s s' →
  content s' k = None ∧ ∀ k', k' ≠ k → content s' k' = content s k'.
Proof.
  intros I Hk U. unfold content. rewrite (ul_scopes _ _ _ _ U), lookup_delete_eq. split; [done|].
  intros k' Hne. rewrite lookup_delete_ne by done. destruct (scopes s !! k') as [q|] eqn:Hq; [|done]. cbn.
  rewrite (ul_rest _ _ _ _ U); [done|]. intros ->. apply Hne. exact (si_inj _ I _ _ _ Hq Hk).
Qed.

Lemma deleteScope_edit k s : store_inv s → young (deleteScope k s).2 → scope_deleted k s (deleteScope k s).
Proof.
  intros I. unfold deleteScope. destruct (validateDeleteScopeRequest _) as [[]|e] eqn:V; [|done].
  assert (isReservedScope k = false) as Hr.
  { unfold validateDeleteScopeRequest in V. rewrite wrapValidation_ok, check_ok, guard_ok in V. apply V. }
  rewrite bind_eq. pose proof (deleteScope_locked_spec k s I Hr) as HD. cbv zeta in HD.
  unfold scope_deleted, content at 1. destruct (scopes s !! k) as [p|] eqn:Hk; cbn [fmap option_fmap option_map].
  - destruct HD as ((E & U) & I2 & _). destruct (deleteScope_locked k s) as [r s2]. cbn [fst snd] in *. subst r.
    cbn [negb]. rewrite bind_eq. cbn [fst snd ret]. intros Y.
    destruct (quiet_emitDeleteScope k) as [_ Q]. specialize (Q s2 I2 Y).
    split; [done|]. split; [apply count_view|]. split; [done|]. split; [apply Q|].
    destruct (unlinked_content k p s s2 I Hk U) as [E1 E2]. split.
    + rewrite (only_events_content s2); [done..|]. by apply not_reserved_ne.
    + intros k' H1 H2. rewrite (only_events_content s2) by done. by apply E2.
  - destruct HD as (-> & _). by cbn.
Qed.

(** ** wipe *)
Lemma wipe_content s k : store_inv s →
  content (wipe s).2 k = if isReservedScope k then Some [] else None.
Proof.
  intros I. destruct (wipe_spec s I) as [_ _ HS HE _ _ _ _ _]. unfold content.
  destruct (isReservedScope k) eqn:Hr.
  - apply HS in Hr as [p Hp]. rewrite Hp. cbn. f_equal. by apply (HE k).
  - destruct (scopes _ !! k) as [p|] eqn:Hp; [|done].
    assert (isReservedScope k = true) by (apply HS; eauto). congruence.
Qed.

(** ** rebuildAll *)
Definition batch_list (g : batch) (k : string) : option (list Item) := (list_to_map g : gmap string _) !! k.

Definition loaded (k : string) (l : list Item) (c : option (list aitem)) : Prop :=
  isReservedScope k = false ∧ ∃ l', built_from l l' ∧ c = Some (fresh_content l').
Definition rebuilt_content (g : batch) (C' : astore) : Prop := ∀ k,
  match batch_list g k with
  | Some l => loaded k l (C' k)
  | None => C' k = if isReservedScope k then Some [] else None
  end.

Lemma batch_list_elem g k l : NoDup g.*1 → batch_list g k = Some l ↔ (k, l) ∈ g.
Proof. intros Hnd. unfold batch_list. by rewrite elem_of_list_to_map. Qed.

Lemma rebuild_content g s n m s' : store_inv s → NoDup g.*1 →
  batch_weight g + reservedScopesOverhead ≤ MaxInt64 → rebuildAll g s = (Ok (n, m), s') →
  rebuilt_content g (content s').
Proof.
  intros I Hnd Hw E k. pose proof (rebuildAll_spec g s I Hnd Hw) as H. rewrite E in H.
  destruct H as (_ & _ & [I' _ HE HO _ _ _]). destruct (batch_list g k) as [l|] eqn:Hl.
  - apply batch_list_elem in Hl; [|done]. destruct (HE k l Hl) as [Ha (p & l' & Hp & Hb & Hv)].
    split; [apply Ha|]. exists l'. split; [done|]. unfold content. rewrite Hp. cbn. by rewrite Hv.
  - unfold content. destruct (scopes s' !! k) as [p|] eqn:Hp; cbn [fmap option_fmap option_map].
    + destruct (HO k p Hp) as [(e & -> & He)%list_elem_of_fmap|[-> ->]]; [|done]. destruct e as [k l].
      apply batch_list_elem in He; [|done]. cbn [fst] in Hl. congruence.
    + destruct (isReservedScope k) eqn:Hr; [|done]. apply reserved_elem in Hr.
      destruct (si_reserved _ I' k Hr) as [q Hq]. congruence.
Qed.

(** ** replaceScopes *)
Definition warmed_content (g : batch) (C C' : astore) : Prop := ∀ k,
  match batch_list g k with
  | Some l => loaded k l (C' k)
  | None => k ≠ EventsScopeName → C' k = C k
  end.

Lemma warm_post_content g s s' k : NoDup g.*1 → warm_post g s s' →
  match batch_list g k with
  | Some l => loaded k l (content s' k)
  | None => content s' k = content s k
  end.
Proof.
  intros Hnd [HE HO _ _ _ _]. destruct (batch_list g k) as [l|] eqn:Hl.
  - apply batch_list_elem in Hl; [|done]. destruct (HE k l Hl) as [Ha (p & l' & Hp & Hb & Hv)].
    split; [apply Ha|]. exists l'. split; [done|]. unfold content. rewrite Hp. cbn. by rewrite Hv.
  - destruct (HO k) as [E1 E2].
    { intros (e & -> & He)%list_elem_of_fmap. destruct e as [k l].
      apply batch_list_elem in He; [|done]. cbn [fst] in Hl. congruence. }
    unfold content. rewrite E1. destruct (scopes s !! k) as [q|] eqn:Hq; [|done]. cbn. by rewrite E2.
Qed.

Definition scopes_replaced (g : batch) (s : store) (o : result error Z * store) : Prop :=
  match o with
  | (Err _, s') => same_content s s'
  | (Ok n, s') => n = Z.of_nat (length g) ∧ store_inv s' ∧ warmed_content g (content s) (content s')
  end.
Lemma replaceScopes_edit g s : store_inv s → batch_ok g → young (replaceScopes g s).2 →
  scopes_replaced g s (replaceScopes g s).
Proof.
  intros I [Hnd Hw]. change reservedScopesOverhead with 2048 in Hw.
  assert (batch_weight g ≤ MaxInt64) as Hwg by (clear -Hw; lia).
  pose proof (warm_phase1_spec g [] [] (s_tick s) Hwg) as HP. unfold replaceScopes, bindE.
  destruct (warm_phase1 g [] [] (s_tick s)) as [r t] eqn:E1. destruct HP as [Ht HP].
  rewrite (bind_on_tick _ _ _ _ _ E1). pose proof (at_tick_same t s Ht) as C.
  destruct (same_inv s _ I C) as (I1 & _ & _). destruct r as [plans|e]; [|done].
  destruct HP as (_ & ps & -> & HF). cbn [app].
  pose proof (replaceScopes_locked_spec (at_tick t s) g ps I1 HF Hnd Hwg) as HL. rewrite !(bind_eq (replaceScopes_locked ps)).
  destruct (replaceScopes_locked ps (at_tick t s)) as [[n|e] s2]; cbn [fst snd];
    [|intros _; destruct HL as (-> & _); exact C].
  destruct HL as (-> & I2 & _ & W). rewrite bind_eq. cbn [fst snd ret]. intros Y.
  set (m := if 0 <? _ then _ else _) in *.
  assert (quiet m) as [_ Q] by (apply quiet_if; [apply quiet_emitWarm|apply quiet_ret]).
  specialize (Q s2 I2 Y). split; [done|]. split; [apply Q|]. intros k.
  pose proof (warm_post_content g (at_tick t s) s2 k Hnd W) as H.
  destruct (batch_list g k) as [l|].
  - destruct H as (Hr & l' & Hb & Hc). split; [done|]. exists l'. split; [done|].
    rewrite (only_events_content s2); [done..|]. apply not_reserved_ne, Hr.
  - intros Hne. rewrite (only_events_content s2) by done. rewrite H. by apply same_content_content.
Qed.

(** ** Reads *)
Definition only_reads (s s' : store) : Prop :=
  shards s' = shards s ∧ subscribers s' = subscribers s ∧ chans s' = chans s ∧
  s_acct s' = s_acct s ∧ ∀ k, content s' k = content s k.
Lemma only_reads_refl s : only_reads s s.
Proof. done. Qed.
Lemma record_read_only p s : placed s → only_reads s (record_read p s).2.
Proof.
  intros P. unfold record_read. rewrite bind_now_s. split; [done|]. do 3 (split; [done|]). intros k.
  unfold content.
  match goal with |- context [scopes ?s'] => assert (scopes s' = scopes s) as -> by done end.
  destruct (scopes s !! k) as [q|]; [|done]. cbn. f_equal. unfold buf_at. cbn.
  destruct (decide (q = p)) as [->|Hne]; [by rewrite lookup_total_insert_eq|by rewrite lookup_total_insert_ne].
Qed.

Definition read_as {A} (k : string) (none : A) (f : list Item → A → Prop) (s : store) (o : A * store)
    : Prop :=
  only_reads s o.2 ∧
  match content s k with
  | None => o = (none, s)
  | Some l => f (wire <$> l) o.1
  end.
Definition page (select : list Item → list Item * bool) (l : list Item) (o : list Item * bool * bool) : Prop :=
  let '(items, truncated, found) := o in
  (no_pointer <$> items, truncated) = select l ∧ found = true.
Definition head_page (after limit : Z) (l : list Item) : list Item * bool :=
  let rest := filter (λ it, after < Seq it) l in
  (take (Z.to_nat limit) rest, limit <? Z.of_nat (length rest)).
Definition tail_page (limit offset : Z) (l : list Item) : list Item * bool :=
  (tail_window l limit offset, limit + offset <? Z.of_nat (length l)).

Lemma window_reads k w select s : store_inv s →
  (∀ b, buf_wf b → (no_pointer <$> (w b).1, (w b).2) = select (wire_items b)) →
  read_as k ([], false, false) (page select) s (window k w s).
Proof.
  intros I Hw. unfold read_as, window. rewrite bind_get, <- scopes_lookup by apply I. unfold content at 1.
  destruct (scopes s !! k) as [p|] eqn:Hk; [|by split]. cbn [fmap option_fmap option_map].
  destruct (si_live _ I k p Hk) as [L _]. specialize (Hw (buf_at s p) (lb_wf _ _ _ L)).
  destruct (w (buf_at s p)) as [l tr]. rewrite bind_eq. cbn [fst snd ret].
  split; [|done]. case_match; [apply record_read_only, I|apply only_reads_refl].
Qed.
Lemma head_reads k after limit s : store_inv s → 0 < limit →
  read_as k ([], false, false) (page (head_page after limit)) s (StoreOps.head k after limit s).
Proof.
  intros I Hl. apply window_reads; [done|]. intros b W. unfold head_page. cbv zeta.
  by destruct (sinceSeq_window b after limit W Hl) as [-> ->].
Qed.
Lemma tail_reads k limit offset s : store_inv s → 0 < limit → 0 ≤ offset →
  read_as k ([], false, false) (page (tail_page limit offset)) s (StoreOps.tail k limit offset s).
Proof.
  intros I Hl Ho. apply window_reads; [done|]. intros b W. unfold tail_page.
  destruct (tailOffset_window b limit offset W Hl Ho) as [-> ->]. unfold wire_items. f_equal.
  unfold view. by rewrite !length_fmap.
Qed.

(** A lookup finds the item with the address; a miss means there is none, by
    uuid as long as every uuid of the scope is indexed ([U]). *)
Definition item_read (U : Prop) (ad : address) (l : list Item) (r : option Item) : Prop :=
  (∀ it, r = Some it → no_pointer it ∈ l ∧ addressed ad (it, None)) ∧
  (r = None → match ad with AtUUID _ => U | _ => True end → ∀ it, it ∈ l → ¬ addressed ad (it, None)).

Lemma addressed_wire ad it : addressed ad (no_pointer it, None) → addressed ad (it, None).
Proof. by destruct ad. Qed.
Lemma lookup_item_read U b id seq uuid : buf_wf b → indexed_if U b →
  item_read U (request_address id seq uuid) (wire_items b) (lookup_item b id seq uuid).
Proof.
  intros W Hok. unfold item_read, lookup_item, request_address.
  case_bool_decide as Hid; cbn [negb]; [case_bool_decide as Hu; cbn [negb]|].
  - split.
    + intros it E. destruct (proj1 (getBySeq_spec b seq (no_pointer it) W)) as [H1 H2]; [by rewrite E|done].
    + intros E _ it Hin Ha. pose proof (proj2 (getBySeq_spec b seq it W) (conj Hin Ha)) as H. by rewrite E in H.
  - unfold parsed_uuid. destruct (parseUUIDv7 uuid) as [u|]; cbn [default].
    2:{ split; [done|]. by intros _ _ it _ [_ ?]. }
    split.
    2:{ intros E HU it Hin [Ha Hz]. cbn in Ha.
        pose proof (proj2 (getByUUID_spec b u it W (Hok HU) Hz) (conj Hin Ha)) as H. by rewrite E in H. }
    unfold getByUUID. intros it. destruct (byUUID b !! u) as [p|] eqn:E; [|done].
    apply (w_byUUID _ W) in E as (Hp & Hu' & Hz). intros [= <-]. rewrite materialise_wire by done.
    split; [by apply wire_items_elem|]. apply (addressed_wire (AtUUID u)).
    rewrite materialise_wire by done. cbn. by rewrite wire_Uuid, Hu'.
  - split.
    + intros it E. destruct (proj1 (getByID_spec b id (no_pointer it) W)) as (H1 & H2 & H3); [by rewrite E|done].
    + intros E _ it Hin [Ha Hn]. pose proof (proj2 (getByID_spec b id it W) (conj Hin (conj Ha Hn))) as H.
      by rewrite E in H.
Qed.
Lemma get_reads k id seq uuid s : store_inv s →
  read_as k None (item_read (uuids_indexed s k) (request_address id seq uuid)) s (get_item k id seq uuid s).
Proof.
  intros I. unfold read_as, get_item. rewrite bind_get, <- scopes_lookup by apply I. unfold content at 1.
  destruct (scopes s !! k) as [p|] eqn:Hk; [|by split]. cbn [fmap option_fmap option_map].
  destruct (si_live _ I k p Hk) as [L _].
  pose proof (lookup_item_read (uuids_indexed s k) (buf_at s p) id seq uuid (lb_wf _ _ _ L)
    (indexed_scope s k p Hk)) as H.
  destruct (lookup_item (buf_at s p) id seq uuid) as [it|]; [|by split].
  rewrite bind_eq. cbn [fst snd ret]. split; [apply record_read_only, I|done].
Qed.

(** /render returns the precomputed bytes of the item /get finds, or its payload. *)
Definition rendered (it : Item) : slice := match renderBytes it with Some r => Some r | None => Payload it end.
Lemma render_run k id seq uuid s : render k id seq uuid s =
  ((rendered <$> (get_item k id seq uuid s).1), (get_item k id seq uuid s).2).
Proof. unfold render. by rewrite bind_eq. Qed.
Definition item_rendered (U : Prop) (ad : address) (l : list Item) (r : option slice) : Prop :=
  ∃ o, item_read U ad l o ∧ r = rendered <$> o.
Lemma render_reads k id seq uuid s : store_inv s →
  read_as k None (item_rendered (uuids_indexed s k) (request_address id seq uuid)) s (render k id seq uuid s).
Proof.
  intros I. destruct (get_reads k id seq uuid s I) as [H1 H2]. rewrite render_run. split; [exact H1|].
  destruct (content s k) as [l|]; [|by rewrite H2]. by eexists.
Qed.
End RefineBulk.
