(* ===== verification/ScopeList.v ===== *)
(** * /scopelist: sorted, filtered, paginated

  [listed] is the reference: the names of the scope map that match, in byte
  order. A page is a prefix of it, and the page after its last name is the next
  stretch. *)
From stdpp Require Import sorting.
From S2P Require Import Prelude GoStd Uuid Types Wire Validation Buffer BufferInv BufferSpec BufferRead.
From S2P Require Import Store StoreInv Events StoreOps Bulk BulkSpec.

Section Sorting.
(** Sorted lists over a total order: what lies beyond an element. *)
Lemma after_element (l : list string) i x : StronglySorted String.le l → NoDup l → l !! i = Some x →
  filter (λ y, negb (String.leb y x) = true) l = drop (S i) l.
Proof.
  intros Hs Hn. revert i. induction Hs as [|a l Hs IH Ha]; intros i Hi; [done|].
  apply NoDup_cons in Hn as [Hna Hn].
  assert (∀ y, y ∈ l → x = a → negb (String.leb y x) = true) as Hlater.
  { intros y Hy ->. rewrite Forall_forall in Ha. specialize (Ha y Hy).
    destruct (String.leb y a) eqn:E; [|done]. exfalso. apply Hna.
    assert (a = y) as ->; [|done]. apply (anti_symm String.le); [done|]. by apply Is_true_true. }
  destruct i as [|i]; cbn in Hi.
  - injection Hi as ->. rewrite filter_cons_False.
    2:{ assert (String.leb x x = true) as -> by (apply Is_true_true, (reflexivity (R := String.le))). done. }
    cbn [drop]. rewrite drop_0. clear IH Hs Ha. induction l as [|y l IH]; [done|].
    rewrite filter_cons_True by (apply Hlater; [by left|done]). f_equal. apply IH.
    + intros ?. apply Hna. by right.
    + by apply NoDup_cons in Hn as [_ ?].
    + intros z Hz. apply Hlater. by right.
  - rewrite filter_cons_False; [cbn [drop]; by apply IH|].
    rewrite Forall_forall in Ha. specialize (Ha x (list_elem_of_lookup_2 _ _ _ Hi)).
    apply Is_true_true in Ha. by rewrite Ha.
Qed.
End Sorting.

Section ScopeList.
Context `{EV : Env} `{SH : ScopeHash}.

Definition name_match (prefix after : string) (k : string) : Prop := list_match prefix after (k, 0%nat) = true.
#[export] Instance name_match_dec prefix after k : Decision (name_match prefix after k).
Proof. unfold name_match. apply _. Defined.

Definition listed (s : store) (prefix after : string) : list string :=
  merge_sort String.le (filter (name_match prefix after) (map_to_list (scopes s)).*1).

Lemma listed_sorted s prefix after : StronglySorted String.le (listed s prefix after).
Proof. apply (StronglySorted_merge_sort _). Qed.
Lemma listed_perm s prefix after :
  listed s prefix after ≡ₚ filter (name_match prefix after) (map_to_list (scopes s)).*1.
Proof. apply merge_sort_Permutation. Qed.
Lemma listed_NoDup s prefix after : NoDup (listed s prefix after).
Proof. rewrite listed_perm. apply NoDup_filter, NoDup_fst_map_to_list. Qed.
Lemma listed_elem s prefix after k :
  k ∈ listed s prefix after ↔ is_Some (scopes s !! k) ∧ name_match prefix after k.
Proof.
  rewrite listed_perm, list_elem_of_filter, list_elem_of_fmap. split.
  - intros [Hm ([k' p] & -> & Hin%elem_of_map_to_list)]. split; [by eexists|done].
  - intros [[p Hp] Hm]. split; [done|]. exists (k, p). split; [done|]. by apply elem_of_map_to_list.
Qed.

#[local] Instance name_le_trans : Transitive name_le.
Proof. intros x y z H1 H2. apply Is_true_true. etransitivity; apply Is_true_true; [exact H1|exact H2]. Qed.
#[local] Instance name_le_total : Total name_le.
Proof. intros x y. destruct (String.leb_total x.1 y.1); [by left|by right]. Qed.

(** The references scopeList sorts, by name. *)
Lemma sorted_refs s prefix after : placed s →
  (merge_sort name_le (filter (λ e, list_match prefix after e = true) (concat (map_to_list <$> shards s)))).*1
  = listed s prefix after.
Proof.
  intros P. set (refs := merge_sort name_le _).
  assert (StronglySorted name_le refs) as Hs by apply (StronglySorted_merge_sort _).
  apply (StronglySorted_unique String.le).
  - induction Hs as [|e l _ IH Hf]; cbn; [constructor|]. constructor; [done|].
    apply Forall_fmap. eapply Forall_impl; [exact Hf|]. intros x. cbn. intros H. by apply Is_true_true.
  - apply listed_sorted.
  - unfold refs. rewrite merge_sort_Permutation, listed_perm, shards_perm by done.
    generalize (map_to_list (scopes s)). intros l. induction l as [|[k p] l IH]; [done|].
    rewrite !filter_cons. cbn [fmap list_fmap fst]. change (list_match prefix after (k, p)) with
      (list_match prefix after (k, 0%nat)).
    destruct (decide (list_match prefix after (k, 0%nat) = true)); rewrite filter_cons;
      destruct (decide (name_match prefix after k)); try done. cbn. by rewrite IH.
Qed.

Lemma list_entry_name s l : sle_Scope <$> (list_entry s <$> l) = l.*1.
Proof. rewrite <- list_fmap_compose. by apply list_fmap_ext. Qed.

Lemma scopeList_page s prefix after limit : placed s → 0 < limit →
  sle_Scope <$> (scopeList s prefix after limit).1 = take (Z.to_nat limit) (listed s prefix after) ∧
  (scopeList s prefix after limit).2 = (limit <? Z.of_nat (length (listed s prefix after))).
Proof.
  intros P Hl. unfold scopeList. destruct (Z.leb_spec limit 0); [lia|]. cbv zeta. cbn [fst snd].
  rewrite list_entry_name. rewrite <- (sorted_refs s prefix after P).
  set (refs := merge_sort name_le _). rewrite length_fmap. split; [|done].
  destruct (Z.ltb_spec limit (Z.of_nat (length refs))); [by rewrite <- fmap_take|].
  rewrite take_ge; [done|]. rewrite length_fmap. lia.
Qed.

Lemma match_after prefix after x : x ≠ ""%string → name_match prefix after x →
  ∀ k, name_match prefix x k ↔ name_match prefix after k ∧ negb (String.leb k x) = true.
Proof.
  unfold name_match, list_match. cbn [fst]. intros Hx. rewrite andb_true_iff. intros [_ Ha] k.
  rewrite (bool_decide_false (x = ""%string)) by done. cbn [orb]. rewrite !andb_true_iff.
  split; [|tauto]. intros [Hp Hk]. split; [|done]. split; [done|].
  destruct (bool_decide (after = ""%string)); [done|]. cbn [orb] in *.
  apply negb_true_iff in Hk, Ha. apply negb_true_iff. destruct (String.leb k after) eqn:E; [|done].
  assert (String.leb k x = true) as Hkx; [|congruence]. apply Is_true_true.
  apply (transitivity (R := String.le) (y := after)); apply Is_true_true; [done|].
  destruct (String.leb_total after x) as [H|H]; [done|congruence].
Qed.

Lemma listed_next s prefix after i x : x ≠ ""%string → listed s prefix after !! i = Some x →
  listed s prefix x = drop (S i) (listed s prefix after).
Proof.
  intros Hx Hi. pose proof (listed_sorted s prefix after) as Hs. pose proof (listed_NoDup s prefix after) as Hn.
  assert (name_match prefix after x) as Hm
    by apply (listed_elem s), (list_elem_of_lookup_2 _ _ _ Hi).
  rewrite <- (after_element _ i x Hs Hn Hi). apply (StronglySorted_unique String.le).
  - apply listed_sorted.
  - clear Hi Hn. induction Hs as [|a l Hs IH Ha]; [constructor|]. rewrite filter_cons.
    case_decide; [|done]. constructor; [done|]. apply Forall_forall. intros y [_ Hy]%list_elem_of_filter.
    rewrite Forall_forall in Ha. by apply Ha.
  - apply NoDup_Permutation; [apply listed_NoDup|by apply NoDup_filter|]. intros k.
    rewrite list_elem_of_filter, !listed_elem, (match_after prefix after x) by done. tauto.
Qed.
End ScopeList.
