(* ===== verification/StoreTheorems.v ===== *)
(** * The store: what its operations promise

  The properties of the store's interface: the accounting under any
  interleaving of sections, pointers that outlive a bulk write, and each operation as a
  change of the abstract content [content s : scope -> list of items]. *)
From S2P Require Import Prelude GoStd Uuid Types Wire Validation Buffer BufferInv BufferSpec.
From S2P Require Import BufferWrite BufferWriteSpec BufferRead BufferDelete BufferDeleteSpec.
From S2P Require Import BufferCounter BufferCounterSpec BufferReplaceSpec BufferTheorems.
From S2P Require Import Clock Store StoreInv BufferOps StoreSpec Events StoreOps StoreClock Steps.
From S2P Require Import SubscribeSpec Bulk BulkSpec RebuildSpec WarmSpec OpsSteps EventsSpec Refine.
From S2P Require Import Flights FlightsSpec RefineOps RefineBulk ScopeList.

Section StoreTheorems.
Context `{EV : Env} `{CP : Caps} `{SH : ScopeHash} `{EM : EventMarshal} `{CO : !CapsOk}.


(** C3: a whole call is a sequence of those sections and nothing else: run by
    itself from a state that satisfies the invariant it reaches its end through
    them, a /warm through its snapshots, its reservation and its commits; it
    keeps the invariant and every published pointer. *)
Theorem call_is_steps c s : call_ok c → store_inv s →
  let s' := (run_call c s).2 in young s' → rtc wstep (idle s) (idle s') ∧ store_inv s' ∧ extends s s'.
Proof.
  intros Hc I s' Y. destruct (tr_run _ _ _ (steps_call c Hc) s I Logic.I Y) as [S _].
  split; [by apply steps_wsteps|]. by apply steps_ok.
Qed.

(** What a method through an old pointer does: it runs on the scope's current
    buffer, or it is refused and changes nothing. *)
Definition current_or_refused {A} (k : string) (p : nat) (m : M (result error A)) (s : store) : Prop :=
  let '(r, s') := with_buf p m s in
  scopes s !! k = Some p ∨
  r = Err ScopeDetachedError ∧ s_acct s' = s_acct s ∧ scopes s' = scopes s ∧
  ∀ q, buf_at s' q = buf_at s q.

(** C4: a buffer pointer obtained from the scope map stays safe whatever
    happens in between, /wipe, /delete_scope and /rebuild included: a write
    through it reaches the buffer its scope still maps to, or is refused with
    ScopeDetachedError and touches neither buffers nor counters. *)
Theorem stale_pointer_safe k p {A} (m : M (result error A)) s s' : BufferOp k m → store_inv s →
  scopes s !! k = Some p → rtc sstep s s' → young s' → current_or_refused k p m s'.
Proof.
  intros O I Hp S Y. destruct (steps_ok s s' I S Y) as [I' X]. unfold current_or_refused.
  destruct (X k p (or_introl Hp)) as [Hk|(_ & Hg & Hno)]; [destruct (with_buf p m s'); by left|].
  destruct (with_buf_gone k p m s' O Hg) as (E1 & E2 & E3 & E4).
  destruct (with_buf p m s') as [r s2]. by right.
Qed.

(** C23: appending logs an event, which is itself an append; the recursion ends
    after one level, so the result does not depend on the fuel once it is two. *)
Theorem event_recursion_ends stuck n it s :
  appendOneTrusted_fuel stuck (S (S n)) it s = appendOneTrusted it s.
Proof. apply fuel_any. Qed.

(** C14: /append puts the validated item, with a seq newer than all others and an
    id nobody has, at the end of its scope, created on demand; other scopes
    except the event log keep their content; a refusal leaves no trace. *)
Theorem appendOne_refines it s : store_inv s → young (appendOne it s).2 →
  written (Scope it) (append_rel it) s (appendOne it s).
Proof. apply appendOne_edit. Qed.

(** C13: /upsert replaces in place the item of its scope that has the id (seq and
    uuid kept), or appends a new one; a refusal leaves no trace. *)
Theorem upsertOne_refines it s : client_item it → store_inv s → young (upsertOne it s).2 →
  written (Scope it) (upsert_rel it) s (upsertOne it s).
Proof. apply upsertOne_edit. Qed.

(** C15: /update replaces the payload of the item addressed and reports 1, or
    changes nothing and reports 0 when no item has the address (by uuid: as long
    as the scope's uuids are indexed, see C1); it never creates a scope; a refusal
    leaves no trace. *)
Theorem updateOne_refines it s : client_item it → store_inv s → young (updateOne it s).2 →
  written_in (Scope it) 0 (update_rel (uuids_indexed s (Scope it)) (item_address it) (Payload it)) s
    (updateOne it s).
Proof. apply updateOne_edit. Qed.

(** C12: /counter_add returns the sum of the stored number and [by], within the
    counter range, and stores it; a free id gets a new counter of value [by]; a
    refusal (overflow, a payload that is no integer, a cap) leaves no trace. *)
Theorem counterAddOne_refines k id n s : store_inv s → young (counterAddOne k id n s).2 →
  written k (counter_rel k id n) s (counterAddOne k id n s).
Proof. apply counterAddOne_edit. Qed.

(** C16: /delete removes exactly the item addressed and reports 1, or reports 0
    and changes nothing when its scope does not exist or no item has the address
    (by uuid: as long as the scope's uuids are indexed, see C1). *)
Theorem deleteOne_refines k id seq uuid s : store_inv s → young (deleteOne k id seq uuid s).2 →
  written_in k 0 (delete_rel (uuids_indexed s k) (request_address id seq uuid)) s (deleteOne k id seq uuid s).
Proof. apply deleteOne_edit. Qed.

(** C17: /delete_up_to removes exactly the items up to the seq given, or up to the
    item with the uuid given, keeps the order of the rest and reports how many;
    with a uuid no item has (as long as the scope's uuids are indexed, see C1) it
    reports 0 and changes nothing. *)
Theorem deleteUpTo_refines k seq uuid s : store_inv s → young (deleteUpTo k seq uuid s).2 →
  written_in k 0 (drain_rel (uuids_indexed s k) (request_address "" seq uuid)) s (deleteUpTo k seq uuid s).
Proof. apply deleteUpTo_edit. Qed.

(** C18: /delete_scope unmaps the scope with all its items and reports their
    number; a reserved scope is refused, a missing one reported. *)
Theorem deleteScope_refines k s : store_inv s → young (deleteScope k s).2 →
  scope_deleted k s (deleteScope k s).
Proof. apply deleteScope_edit. Qed.

(** C19: /wipe reports what the store held and leaves only the reserved scopes,
    empty; the subscriptions survive, every earlier buffer pointer is dead. *)
Theorem wipe_refines s : store_inv s →
  wipe_post s (wipe s).1 (wipe s).2 ∧
  ∀ k, content (wipe s).2 k = if isReservedScope k then Some [] else None.
Proof. intros I. split; [by apply wipe_spec|]. intros k. by apply wipe_content. Qed.

(** C9: /rebuild is all or nothing: when any entry is invalid, over its scope
    cap or the whole over the store cap, the store is as before; otherwise it
    holds exactly the batch, in order with dense seqs, and the empty reserved
    scopes, with exact counters and every earlier pointer dead. *)
Theorem rebuildAll_refines g s : store_inv s → batch_ok g →
  match rebuildAll g s with
  | (Err _, s') => same_content s s'
  | (Ok (n, m), s') => n = Z.of_nat (length g) ∧ m = zsum (λ e, Z.of_nat (length e.2)) g ∧
      rebuilt_from g s s' ∧ rebuilt_content g (content s')
  end.
Proof.
  intros I [Hnd Hw]. pose proof (rebuildAll_spec g s I Hnd Hw) as H.
  destruct (rebuildAll g s) as [[[n m]|e] s'] eqn:E; [|done]. destruct H as (H1 & H2 & H3).
  do 3 (split; [done|]). by eapply rebuild_content.
Qed.

(** C10: /warm is all or nothing: on any error nothing has changed; otherwise
    every scope of the batch holds exactly its items, in order with dense seqs,
    and every other scope except the event log keeps its content. *)
Theorem replaceScopes_refines g s : store_inv s → batch_ok g → young (replaceScopes g s).2 →
  scopes_replaced g s (replaceScopes g s).
Proof. apply replaceScopes_edit. Qed.


(** C20: the readers report the content: /head the oldest items after the cursor,
    /tail the newest behind the offset, each with its truncation flag, /get an
    item that has the address, /render its precomputed bytes or its payload; a
    miss means there is no such item (by uuid: as long as the scope's uuids are
    indexed, see C1); none changes the content or the counters. The limit is
    positive and the offset not negative, as the parameter checks ensure. *)
Theorem reads_refine k after limit offset id seq uuid s : store_inv s → 0 < limit → 0 ≤ offset →
  read_as k ([], false, false) (page (head_page after limit)) s (StoreOps.head k after limit s) ∧
  read_as k ([], false, false) (page (tail_page limit offset)) s (StoreOps.tail k limit offset s) ∧
  let ad := request_address id seq uuid in let U := uuids_indexed s k in
  read_as k None (item_read U ad) s (get_item k id seq uuid s) ∧
  read_as k None (item_rendered U ad) s (render k id seq uuid s).
Proof.
  intros I Hl Ho. split; [by apply head_reads|]. split; [by apply tail_reads|].
  split; [by apply get_reads|by apply render_reads].
Qed.

(** C22: a subscription is granted exactly for a reserved scope nobody subscribes
    to; it keeps the registry sound; a notification leaves a wake-up pending for
    the subscriber, so a write between two drains is never missed. *)
Theorem subscription_life k s : chans_ok s →
  (is_ok (Subscribe k s).1 = true ↔ isReservedScope k = true ∧ subscribers s !! k = None) ∧
  chans_ok (Subscribe k s).2 ∧ chans_ok (unsubscribe k s).2 ∧
  subscribers (unsubscribe k s).2 !! k = None ∧
  chans_ok (notifySubscriber k s).2 ∧ woken (notifySubscriber k s).2 k.
Proof.
  intros C. split.
  { rewrite subscribe_run. destruct (isReservedScope k), (subscribers s !! k); cbn; naive_solver. }
  split; [by apply subscribe_ok|]. split; [by apply unsubscribe_ok|]. split.
  { rewrite unsubscribe_run. destruct (subscribers s !! k) eqn:E; [apply lookup_delete_eq|done]. }
  by apply notify_ok.
Qed.

(** C21: /scopelist lists the names of the scope map that match, each once, in
    byte order, as far as the limit, and flags a longer list; asking again after
    the last name of a full page yields exactly the next names. *)
Theorem scopeList_pages s prefix after limit last : store_inv s → 0 < limit →
  let all := listed s prefix after in
  let names after := sle_Scope <$> (scopeList s prefix after limit).1 in
  StronglySorted String.le all ∧ NoDup all ∧
  (∀ k, k ∈ all ↔ is_Some (scopes s !! k) ∧ name_match prefix after k) ∧
  names after = take (Z.to_nat limit) all ∧
  (scopeList s prefix after limit).2 = (limit <? Z.of_nat (length all)) ∧
  (all !! pred (Z.to_nat limit) = Some last → last ≠ ""%string →
   names last = take (Z.to_nat limit) (drop (Z.to_nat limit) all)).
Proof.
  intros I Hl. cbv zeta. destruct (scopeList_page s prefix after limit (si_placed _ I) Hl) as [E1 E2].
  split; [apply listed_sorted|]. split; [apply listed_NoDup|]. split; [apply listed_elem|].
  split; [done|]. split; [done|]. intros Hlast Hne.
  rewrite (proj1 (scopeList_page s prefix last limit (si_placed _ I) Hl)).
  rewrite (listed_next s prefix after _ last Hne Hlast). do 2 f_equal. lia.
Qed.
End StoreTheorems.
