(* ===== verification/Simulation.v ===== *)
(** * The store simulates its abstract specification

  [spec_call c C a C'] says what the abstract store, a map from scopes to lists
  of items, does on a call: from [C] to [C'], answering [a]. Every execution of
  a list of calls, answers included, is a run of it. The event log's own content
  is left open. *)
From S2P Require Import Prelude GoStd Uuid Types Wire Validation Buffer BufferInv BufferSpec.
From S2P Require Import BufferWrite BufferWriteSpec BufferRead BufferDelete BufferDeleteSpec.
From S2P Require Import BufferCounter BufferCounterSpec BufferReplaceSpec BufferTheorems.
From S2P Require Import Clock Store StoreInv BufferOps StoreSpec Events StoreOps StoreClock Steps.
From S2P Require Import SubscribeSpec Bulk BulkSpec RebuildSpec WarmSpec OpsSteps EventsSpec Refine.
From S2P Require Import Flights FlightsSpec RefineOps RefineBulk.

Definition same_astore (C C' : astore) : Prop := ∀ k, C' k = C k.
Definition others_same (k : string) (C C' : astore) : Prop :=
  ∀ k', k' ≠ k → k' ≠ EventsScopeName → C' k' = C k'.

(** A write: an answer comes with its edit of scope [k], a refusal with no
    change at all. *)
Definition spec_write (k : string) {A} (R : list aitem → A → list aitem → Prop) (C : astore)
    (r : result error A) (C' : astore) : Prop :=
  match r with
  | Ok x => ∃ l', C' k = Some l' ∧ R (default [] (C k)) x l' ∧ others_same k C C'
  | Err _ => same_astore C C'
  end.
(** A write to a scope that has to exist; [d] is the answer when it does not. *)
Definition spec_change (k : string) {A} (d : A) (R : list aitem → A → list aitem → Prop) (C : astore)
    (r : result error A) (C' : astore) : Prop :=
  match C k with
  | Some _ => spec_write k R C r C'
  | None => same_astore C C' ∧ (r = Ok d ∨ is_ok r = false)
  end.
Definition spec_read (k : string) {A} (none : A) (f : list Item → A → Prop) (C : astore) (r : A)
    (C' : astore) : Prop :=
  same_astore C C' ∧ match C k with None => r = none | Some l => f (wire <$> l) r end.

Section Simulation.
Context `{EV : Env} `{CP : Caps} `{SH : ScopeHash} `{EM : EventMarshal} `{CO : !CapsOk}.

(** [U]: every uuid of the store is indexed. *)
Definition spec_call (U : Prop) (c : call) (C : astore) : answer c → astore → Prop :=
  match c with
  | CAppend it => spec_write (Scope it) (append_rel it) C
  | CUpsert it => spec_write (Scope it) (upsert_rel it) C
  | CCounterAdd k id n => spec_write k (counter_rel k id n) C
  | CUpdate it => spec_change (Scope it) 0 (update_rel U (item_address it) (Payload it)) C
  | CDelete k id n u => spec_change k 0 (delete_rel U (request_address id n u)) C
  | CDeleteUpTo k n u => spec_change k 0 (drain_rel U (request_address "" n u)) C
  | CDeleteScope k => λ r C',
      match r, C k with
      | Ok (n, true), Some l => n = Z.of_nat (length l) ∧ isReservedScope k = false ∧ C' k = None ∧
          others_same k C C'
      | Ok (n, false), None => n = 0 ∧ same_astore C C'
      | Ok _, _ => False
      | Err _, _ => same_astore C C'
      end
  | CHead k after limit => λ r C', 0 < limit →
      spec_read k ([], false, false) (page (head_page after limit)) C r C'
  | CTail k limit offset => λ r C', 0 < limit → 0 ≤ offset →
      spec_read k ([], false, false) (page (tail_page limit offset)) C r C'
  | CGet k id n u => spec_read k None (item_read U (request_address id n u)) C
  | CRender k id n u => spec_read k None (item_rendered U (request_address id n u)) C
  | CWarm g => λ r C',
      match r with
      | Ok n => n = Z.of_nat (length g) ∧ warmed_content g C C'
      | Err _ => same_astore C C'
      end
  | CRebuild g => λ r C',
      match r with
      | Ok (n, m) => n = Z.of_nat (length g) ∧ m = zsum (λ e, Z.of_nat (length e.2)) g ∧ rebuilt_content g C'
      | Err _ => same_astore C C'
      end
  | CWipe => λ _ C', ∀ k, C' k = if isReservedScope k then Some [] else None
  | CSubscribe _ | CUnsubscribe _ => λ _ C', same_astore C C'
  end.

(** The calls of a client with their answers, and a run of the specification. *)
Definition event : Type := {c : call & answer c}.
Fixpoint perform_all (cs : list call) : SM (list event) :=
  match cs with
  | [] => ret []
  | c :: cs => let* a := perform c in let* t := perform_all cs in ret (existT c a :: t)
  end.
Fixpoint spec_run (U : Prop) (t : list event) (C C' : astore) : Prop :=
  match t with
  | [] => same_astore C C'
  | existT c a :: t => ∃ C1, spec_call U c C a C1 ∧ spec_run U t C1 C'
  end.
(** Every uuid is indexed before each of the calls. *)
Fixpoint runs_indexed (cs : list call) (s : store) : Prop :=
  match cs with
  | [] => True
  | c :: cs => indexed s ∧ runs_indexed cs (perform c s).2
  end.

Lemma no_trace_content s s' : store_inv s → no_trace s s' → same_astore (content s) (content s').
Proof.
  intros I N k. unfold content. destruct (placed_shards s s' (nt_shards _ _ N)) as (_ & -> & _).
  destruct (scopes s !! k) as [p|] eqn:Hk; [|done]. cbn. f_equal. apply (nt_view _ _ N).
  by eapply (si_live _ I).
Qed.

Lemma written_spec k {A} (R : list aitem → A → list aitem → Prop) s (o : result error A * store) :
  store_inv s → written k R s o → spec_write k R (content s) o.1 (content o.2).
Proof.
  intros I. destruct o as [[x|e] s']; cbn.
  - intros [_ (l' & Hl & HR) Ho]. by exists l'.
  - by apply no_trace_content.
Qed.
Lemma written_in_spec k {A} (d : A) (R : list aitem → A → list aitem → Prop) s (o : result error A * store) :
  store_inv s → written_in k d R s o → spec_change k d R (content s) o.1 (content o.2).
Proof.
  intros I. unfold written_in, spec_change. destruct (content s k) as [l|]; [by apply written_spec|].
  intros [-> | [e ->]]; (split; [done|]); [by left|by right].
Qed.
Lemma read_spec k {A} (none : A) f s (o : A * store) : read_as k none f s o →
  spec_read k none f (content s) o.1 (content o.2).
Proof.
  intros [(_ & _ & _ & _ & H) Hr]. split; [exact H|]. destruct (content s k) as [l|]; [done|]. by rewrite Hr.
Qed.

Lemma table_content s s' : table_op s s' → same_astore (content s) (content s').
Proof. intros T k. destruct (table_set s s' T) as (sb & ch & ->). done. Qed.

Lemma window_content k w s : store_inv s → same_astore (content s) (content (window k w s).2).
Proof.
  intros I. unfold window. rewrite bind_get. destruct (getScope s k) as [p|]; [|done].
  destruct (w (buf_at s p)) as [l tr]. rewrite bind_eq. cbn [snd ret].
  destruct (_ <? _)%nat; [|done]. destruct (record_read_only p s) as (_ & _ & _ & _ & H); [apply I|exact H].
Qed.

Lemma weaker_missed (U V : Prop) ad l : (V → U) → missed U ad l → missed V ad l.
Proof. intros HV H Hv. apply H. destruct ad; auto. Qed.
Lemma weaker_write k {A} (R1 R2 : list aitem → A → list aitem → Prop) C r C' :
  (∀ l x l', R1 l x l' → R2 l x l') → spec_write k R1 C r C' → spec_write k R2 C r C'.
Proof. intros HR. destruct r; [|done]. intros (l' & H1 & H2 & H3). exists l'. auto. Qed.
Lemma weaker_change k {A} (d : A) (R1 R2 : list aitem → A → list aitem → Prop) C r C' :
  (∀ l x l', R1 l x l' → R2 l x l') → spec_change k d R1 C r C' → spec_change k d R2 C r C'.
Proof. intros HR. unfold spec_change. destruct (C k); [by apply weaker_write|done]. Qed.
Lemma weaker_read k {A} (none : A) (f1 f2 : list Item → A → Prop) C r C' :
  (∀ l x, f1 l x → f2 l x) → spec_read k none f1 C r C' → spec_read k none f2 C r C'.
Proof. intros Hf [H1 H2]. split; [done|]. destruct (C k); auto. Qed.
Lemma weaker_item (U V : Prop) ad l r : (V → U) → item_read U ad l r → item_read V ad l r.
Proof. intros HV [H1 H2]. split; [done|]. intros E Hv. apply H2; [done|]. destruct ad; auto. Qed.

Lemma spec_weaken (U V : Prop) c C a C' : (V → U) → spec_call U c C a C' → spec_call V c C a C'.
Proof.
  intros HV. pose proof (weaker_missed U V) as HM. destruct c; cbn [spec_call]; try done.
  - apply weaker_change. unfold update_rel. intros l x l' [(?&?&?)|?]; [left|by right]. auto.
  - apply weaker_change. unfold delete_rel. intros l x l' [(?&?&?)|?]; [left|by right]. auto.
  - apply weaker_change. unfold drain_rel. intros l x l'. case_match; [|done|];
      (intros [(?&?&?)|?]; [left; auto|by right]).
  - apply weaker_read. intros l r. by apply weaker_item.
  - apply weaker_read. intros l r (o & Ho & ->). exists o. split; [by eapply weaker_item|done].
Qed.

Lemma call_spec c s : call_ok c → store_inv s → young (perform c s).2 →
  spec_call (indexed s) c (content s) (perform c s).1 (content (perform c s).2).
Proof.
  intros Hc I. destruct c; cbn [perform]; intros Y; cbn [spec_call].
  - by apply written_spec, appendOne_edit.
  - by apply written_spec, upsertOne_edit.
  - eapply (weaker_change _ _ (update_rel (uuids_indexed s (Scope it)) _ _)); [|by apply written_in_spec, updateOne_edit].
    intros l x l' [(?&?&?)|?]; [left|by right]. split; [done|]. split; [done|]. eapply weaker_missed; [|done]. auto.
  - by apply written_spec, counterAddOne_edit.
  - eapply (weaker_change _ _ (delete_rel (uuids_indexed s scope) _)); [|by apply written_in_spec, deleteOne_edit].
    intros l x l' [(?&?&?)|?]; [left|by right]. split; [done|]. split; [done|]. eapply weaker_missed; [|done]. auto.
  - eapply (weaker_change _ _ (drain_rel (uuids_indexed s scope) _)); [|by apply written_in_spec, deleteUpTo_edit].
    unfold drain_rel. intros l x l'. case_match; [|done|]; (intros [(?&?&?)|?]; [left|by right]);
      (split; [done|]; split; [done|]; eapply weaker_missed; [|done]; auto).
  - pose proof (deleteScope_edit scope s I Y) as H. destruct (deleteScope scope s) as [[[n b]|e] s']; cbn in H |- *.
    + destruct H as [Hr H]. destruct (content s scope).
      * destruct H as (-> & -> & _ & ? & ?). done.
      * by destruct H as (-> & -> & ->).
    + by subst s'.
  - intros Hl. by apply read_spec, head_reads.
  - intros Hl Ho. by apply read_spec, tail_reads.
  - eapply weaker_read; [|by apply read_spec, get_reads]. intros l r. apply weaker_item. auto.
  - eapply weaker_read; [|by apply read_spec, render_reads]. intros l r (o & Ho & ->). exists o.
    split; [eapply weaker_item; [|exact Ho]; auto|done].
  - pose proof (replaceScopes_edit g s I Hc Y) as H. destruct (replaceScopes g s) as [[n|e] s']; cbn in H |- *.
    + by destruct H as (? & _ & ?). + intros k. by apply same_content_content.
  - destruct Hc as [Hnd Hw]. pose proof (rebuildAll_spec g s I Hnd Hw) as H.
    destruct (rebuildAll g s) as [[[n m]|e] s'] eqn:E; cbn in H |- *.
    + destruct H as (? & ? & _). split; [done|]. split; [done|]. by eapply rebuild_content.
    + intros k. by apply same_content_content.
  - intros k. by apply wipe_content.
  - apply table_content, tb_subscribe.
  - apply table_content, tb_unsubscribe.
Qed.

Lemma run_weaken (U V : Prop) t C C' : (V → U) → spec_run U t C C' → spec_run V t C C'.
Proof.
  intros HV. revert C. induction t as [|[c a] t IH]; intros C; [done|]. intros (C1 & H1 & H2).
  exists C1. split; [by eapply spec_weaken|by apply IH].
Qed.
Lemma mono_perform_all cs : Forall call_ok cs → mono s_tick (perform_all cs).
Proof.
  induction 1 as [|c cs Hc _ IH]; [apply mono_ret|]. apply mono_bind; [apply (tr_clock _ _ _ (steps_perform c Hc))|].
  intros a. apply mono_bind; [done|intros; apply mono_ret].
Qed.

(** C2: any sequence of calls by a client, with the answers it gets, is a run of
    the abstract store that maps each scope to its list of items: an answer comes
    with exactly the effect specified for it, a refusal with none, a read reports
    that map (for pages with a positive limit and a non-negative offset), and what
    a call did is what the next one finds. By uuid a miss is exact as long as the
    uuids are indexed. *)
Theorem calls_simulate cs s : Forall call_ok cs → store_inv s → young (perform_all cs s).2 →
  let '(t, s') := perform_all cs s in
  projT1 <$> t = cs ∧ spec_run (runs_indexed cs s) t (content s) (content s').
Proof.
  intros Hcs. revert s. induction Hcs as [|c cs Hc Hcs IH]; intros s I; [done|]. cbn [perform_all].
  unfold bind, ret. pose proof (call_spec c s Hc I) as Ha. pose proof (tr_run _ _ _ (steps_perform c Hc) s I Logic.I) as Hr.
  assert (runs_indexed (c :: cs) s = (indexed s ∧ runs_indexed cs (perform c s).2)) as EU by done.
  destruct (perform c s) as [a s1]. cbn [fst snd] in *. specialize (IH s1).
  assert ((s_tick s1 ≤ s_tick (perform_all cs s1).2)%nat) as Ht by apply mono_perform_all, Hcs.
  destruct (perform_all cs s1) as [t s2]. cbn [snd] in *. intros Y.
  assert (young s1) as Y1 by (unfold young in *; lia). destruct (Hr Y1) as [S _].
  destruct IH as [Et Hrun]; [by apply (steps_ok s)|done|]. split; [by rewrite fmap_cons, Et|].
  rewrite EU. cbn [spec_run]. exists (content s1). split; [eapply spec_weaken; [|by apply Ha]; by intros []|].
  by eapply run_weaken; [|exact Hrun]; intros [].
Qed.
End Simulation.
