(* ===== verification/Handlers.v ===== *)
(** * handlers*.go, response_types.go, api.go: the HTTP layer

  A handler turns a request into a response and a change of the store. The
  JSON codec (a third-party library behind json.go) is a parameter: [Decoders]
  decodes a body read through a cap, [RespMarshal] encodes a response struct.
  [serve] is the routing table of RegisterRoutes. *)
From S2P Require Import Prelude GoStd Uuid Types Wire Validation Buffer BufferRead Store Events.
From S2P Require Import StoreOps Bulk.

(** ** Requests *)
Record http_request := mkrequest {
  Method : string;
  Query : list (string * string);
  Authorization : string;
  ReqBody : string;
}.
(** [url.Values]: [Get] is the first value of the key or "", [Has] its presence. *)
Definition query_find (k : string) (q : list (string * string)) : option (string * string) :=
  find (λ e, bool_decide (e.1 = k)) q.
Definition query_Get (r : http_request) (k : string) : string :=
  match query_find k (Query r) with Some e => e.2 | None => "" end.
Definition query_Has (r : http_request) (k : string) : bool :=
  match query_find k (Query r) with Some _ => true | None => false end.

Inductive decode_error := MaxBytesError (Limit : Z) | InvalidUUIDv7 | SyntaxError.
(** The first [Decode] of a body under a cap, and whether a second one then
    meets the end of the input. *)
Inductive decoded (A : Type) := DecodeErr (e : decode_error) | Decoded (a : A) (eof : bool).
Arguments DecodeErr {A}. Arguments Decoded {A}.
Class Decoders := {
  decode_Item : Z → string → decoded Item;
  decode_items : Z → string → decoded (list Item);
  decode_counter : Z → string → decoded counterAddRequest;
  decode_delete : Z → string → decoded deleteRequest;
  decode_deleteUpTo : Z → string → decoded deleteUpToRequest;
  decode_deleteScope : Z → string → decoded deleteScopeRequest;
}.

Definition decodeBody {A} (dec : Z → string → decoded A) (r : http_request) (max : Z) : result string A :=
  match dec max (ReqBody r) with
  | DecodeErr (MaxBytesError limit) => Err ("the request body exceeds the maximum allowed size of " +:+
      FormatInt limit +:+ " bytes")
  | DecodeErr InvalidUUIDv7 => Err "the 'uuid' field must be a canonical lowercase UUIDv7 string"
  | DecodeErr SyntaxError => Err "the request body must contain valid JSON"
  | Decoded a eof =>
      if negb eof then Err "the request body must contain exactly one JSON value" else Ok a
  end.

(** ** Responses *)
Record writeAck := mkwriteAck {
  ack_Scope : string; ack_ID : option string; ack_Seq : Z; ack_Ts : Z; ack_UUID : string }.
Definition newWriteAck (item : Item) : writeAck :=
  mkwriteAck (Scope item) (if negb (bool_decide (ID item = "")) then Some (ID item) else None)
    (Seq item) (Ts item) (wireUUID (Uuid item)).

(** [err.Error()]: a literal, or the text of an error value, kept as the value. *)
Inductive message := Text (s : string) | Message (e : error).

(** response_types.go, the structs that writeJSONResponse marshals. *)
Inductive resp :=
| AppendResponse (OK Created : bool) (item : writeAck)
| UpsertResponse (OK Created : bool) (item : writeAck)
| UpdateResponse (OK Created : bool) (Count : Z)
| CounterAddResponse (OK Created : bool) (Value : Z)
| DeleteResponse (OK Hit : bool) (Count : Z)
| DeleteScopeResponse (OK Hit : bool) (Count : Z)
| WipeResponse (OK : bool) (Scopes Items : Z) (FreedMB : MB)
| WarmResponse (OK : bool) (Scopes : Z)
| RebuildResponse (OK : bool) (Scopes Items : Z)
| StatsResponse (OK : bool) (st : storeStats)
| ErrorResponse (OK : bool) (Error : message)
| ScopeCapacityErrorResponse (OK : bool) (Error : string) (Scopes : list ScopeCapacityOffender)
| StoreCapacityErrorResponse (OK : bool) (Error : string) (ApproxStoreMB AddedMB MaxStoreMB : MB)
| ResponseTooLargeErrorResponse (OK : bool) (Error : string) (ApproxResponseMB MaxResponseMB : MB).
Class RespMarshal := jsonMarshal_resp : resp → option string.

Record response := mkresponse {
  status : Z;
  miss : bool;
  allow : option string;
  contentType : string;
  body : string;
}.
Definition json_type : string := "application/json; charset=utf-8".
Definition octet_type : string := "application/octet-stream".
Definition text_type : string := "text/plain; charset=utf-8".
Definition StatusOK : Z := 200.
Definition StatusBadRequest : Z := 400.
Definition StatusNotFound : Z := 404.
Definition StatusMethodNotAllowed : Z := 405.
Definition StatusConflict : Z := 409.
Definition StatusInternalServerError : Z := 500.
Definition StatusInsufficientStorage : Z := 507.
Definition MethodGet : string := "GET".
Definition MethodPost : string := "POST".

(** The header map a handler writes before the status: the miss marker. *)
Definition with_miss (m : bool) (r : response) : response :=
  mkresponse (status r) m (allow r) (contentType r) (body r).
Definition with_allow (m : string) (r : response) : response :=
  mkresponse (status r) (miss r) (Some m) (contentType r) (body r).

Section Responses.
Context `{RespMarshal}.

Definition writeJSONResponse (code : Z) (r : resp) : response :=
  match jsonMarshal_resp r with
  | None => mkresponse StatusInternalServerError false None json_type
      (dq "{'ok':false,'error':'internal: response marshal failed'}" +:+ newline)
  | Some body => mkresponse code false None json_type (body +:+ newline)
  end.
Definition badRequest (m : message) : response :=
  writeJSONResponse StatusBadRequest (ErrorResponse false m).
Definition conflict (m : message) : response :=
  writeJSONResponse StatusConflict (ErrorResponse false m).
Definition scopeFull (offenders : list ScopeCapacityOffender) : response :=
  let msg := if (1 <? length offenders)%nat then "multiple scopes are at capacity"
             else "scope is at capacity" in
  writeJSONResponse StatusInsufficientStorage (ScopeCapacityErrorResponse false msg offenders).
Definition storeFull (StoreBytes AddedBytes Cap : Z) : response :=
  writeJSONResponse StatusInsufficientStorage
    (StoreCapacityErrorResponse false "store is at byte capacity" StoreBytes AddedBytes Cap).
Definition responseTooLarge (written cap : Z) : response :=
  writeJSONResponse StatusInsufficientStorage
    (ResponseTooLargeErrorResponse false "the response would exceed the maximum allowed size" written cap).
Definition methodNotAllowed (allowed : string) : response :=
  with_allow allowed (writeJSONResponse StatusMethodNotAllowed
    (ErrorResponse false (Text "the HTTP method is not allowed for this endpoint"))).

(** [errors.As] unwraps the one wrapping error that can carry these. *)
Fixpoint unwrapped (e : error) : error :=
  match e with ErrBatchItem _ _ inner => unwrapped inner | e => e end.

Definition writeStoreCapacityError (err : error) (scopeForSFE : string) : option response :=
  match unwrapped err with
  | ScopeFullError Count Cap => Some (scopeFull [mkOffender scopeForSFE Count Cap])
  | ScopeCapacityError Offenders => Some (scopeFull Offenders)
  | StoreFullError StoreBytes AddedBytes Cap => Some (storeFull StoreBytes AddedBytes Cap)
  | _ => None
  end.
Definition writeMutationError (err : error) (scopeForSFE : string) : response :=
  if is_invalid_input err then badRequest (Message err)
  else match writeStoreCapacityError err scopeForSFE with
       | Some r => r
       | None => conflict (Message err)
       end.
(** The shorter mapping of the delete handlers. *)
Definition writeDeleteError (err : error) : response :=
  if is_invalid_input err then badRequest (Message err) else conflict (Message err).
(** The mapping of handleCounterAdd. *)
Definition writeCounterError (err : error) (origScope : string) : response :=
  if is_invalid_input err then badRequest (Message err)
  else match writeStoreCapacityError err origScope with
       | Some r => r
       | None =>
           match unwrapped err with
           | CounterPayloadError _ => conflict (Message err)
           | CounterOverflowError _ _ => badRequest (Message err)
           | _ => conflict (Message err)
           end
       end.
(** A finished read envelope of handlers_read.go. *)
Definition respond_written (w : written) : response :=
  match w with
  | Written m body => mkresponse StatusOK m None json_type body
  | TooLarge size cap => responseTooLarge size cap
  end.
End Responses.

(** ** The URL query of the reads *)
Record lookupTarget := mklookupTarget {
  lt_Scope : string; lt_ID : string; lt_Seq : Z; lt_UUID : string }.
Definition parseLookupTarget (r : http_request) (endpoint : string) : result string lookupTarget :=
  let scope := query_Get r "scope" in
  let id := query_Get r "id" in
  let seqStr := query_Get r "seq" in
  let uuid := query_Get r "uuid" in
  check (validateScope scope endpoint) (
  let hasID := negb (bool_decide (id = "")) in
  let hasSeq := negb (bool_decide (seqStr = "")) in
  let hasUUID := negb (bool_decide (uuid = "")) in
  let n := foldl (λ n (h : bool), if h then n + 1 else n) 0 [hasID; hasSeq; hasUUID] in
  if negb (n =? 1) then Err "exactly one of 'id', 'seq' or 'uuid' must be provided"
  else if hasID then check (validateID id) (Ok (mklookupTarget scope id 0 ""))
  else if hasUUID then
    if negb (isValidUUIDv7 uuid) then Err "the 'uuid' parameter must be a valid UUIDv7"
    else Ok (mklookupTarget scope "" 0 uuid)
  else match ParseUint seqStr with
       | None => Err "the 'seq' parameter must be a valid unsigned integer"
       | Some seq =>
           if seq =? 0 then Err "the 'seq' parameter must be a positive integer"
           else Ok (mklookupTarget scope "" seq "")
       end).

Record scopeLimit := mkscopeLimit { sl_Scope : string; sl_Limit : Z }.
Definition parseScopeLimit (r : http_request) (endpoint : string) : result string scopeLimit :=
  let scope := query_Get r "scope" in
  check (validateScope scope endpoint)
  (match normalizeLimit (query_Get r "limit") with
   | Err e => Err e
   | Ok limit => Ok (mkscopeLimit scope limit)
   end).

Section Handlers.
Context `{Env} `{Caps} `{ScopeHash} `{EventMarshal} `{Decoders} `{RespMarshal}.

(** api.go: the byte caps NewAPI derives. *)
Definition maxItemBytesAnyScope : Z :=
  let biggest := maxItemBytes in
  let biggest := if biggest <? eventsMaxItemBytes then eventsMaxItemBytes else biggest in
  if biggest <? inboxMaxItemBytes then inboxMaxItemBytes else biggest.
Definition maxBulkBytes : Z := bulkRequestBytesFor maxStoreBytes.
Definition maxSingleBytes : Z := singleRequestBytesFor maxItemBytesAnyScope.
Definition maxResponseBytes : Z := maxStoreBytes.

(** ** handlers_write.go *)
Definition handleAppend (r : http_request) : SM response :=
  if negb (bool_decide (Method r = MethodPost)) then ret (methodNotAllowed MethodPost)
  else match decodeBody decode_Item r maxSingleBytes with
  | Err e => ret (badRequest (Text e))
  | Ok item =>
      let origScope := Scope item in
      let* res := appendOne item in
      ret (match res with
           | Err e => writeMutationError e origScope
           | Ok item => writeJSONResponse StatusOK (AppendResponse true true (newWriteAck item))
           end)
  end.

Definition handleUpsert (r : http_request) : SM response :=
  if negb (bool_decide (Method r = MethodPost)) then ret (methodNotAllowed MethodPost)
  else match decodeBody decode_Item r maxSingleBytes with
  | Err e => ret (badRequest (Text e))
  | Ok item =>
      let origScope := Scope item in
      let* res := upsertOne item in
      ret (match res with
           | Err e => writeMutationError e origScope
           | Ok (result, created) =>
               writeJSONResponse StatusOK (UpsertResponse true created (newWriteAck result))
           end)
  end.

Definition handleCounterAdd (r : http_request) : SM response :=
  if negb (bool_decide (Method r = MethodPost)) then ret (methodNotAllowed MethodPost)
  else match decodeBody decode_counter r maxSingleBytes with
  | Err e => ret (badRequest (Text e))
  | Ok req =>
      match ca_By req with
      | None => ret (badRequest (Text "the 'by' field is required for the '/counter_add' endpoint"))
      | Some by_ =>
          let origScope := ca_Scope req in
          let* res := counterAddOne (ca_Scope req) (ca_ID req) by_ in
          ret (match res with
               | Err e => writeCounterError e origScope
               | Ok (value, created) => writeJSONResponse StatusOK (CounterAddResponse true created value)
               end)
      end
  end.

Definition handleUpdate (r : http_request) : SM response :=
  if negb (bool_decide (Method r = MethodPost)) then ret (methodNotAllowed MethodPost)
  else match decodeBody decode_Item r maxSingleBytes with
  | Err e => ret (badRequest (Text e))
  | Ok item =>
      let* res := updateOne item in
      ret (match res with
           | Err e => writeMutationError e ""
           | Ok updated =>
               with_miss (updated =? 0) (writeJSONResponse StatusOK (UpdateResponse true false updated))
           end)
  end.

(** ** handlers_delete.go *)
Definition handleDelete (r : http_request) : SM response :=
  if negb (bool_decide (Method r = MethodPost)) then ret (methodNotAllowed MethodPost)
  else match decodeBody decode_delete r maxSingleBytes with
  | Err e => ret (badRequest (Text e))
  | Ok req =>
      let* res := deleteOne (del_Scope req) (del_ID req) (del_Seq req) (del_UUID req) in
      ret (match res with
           | Err e => writeDeleteError e
           | Ok deleted =>
               with_miss (deleted =? 0)
                 (writeJSONResponse StatusOK (DeleteResponse true (0 <? deleted) deleted))
           end)
  end.

Definition handleDeleteUpTo (r : http_request) : SM response :=
  if negb (bool_decide (Method r = MethodPost)) then ret (methodNotAllowed MethodPost)
  else match decodeBody decode_deleteUpTo r maxSingleBytes with
  | Err e => ret (badRequest (Text e))
  | Ok req =>
      let* res := deleteUpTo (dut_Scope req) (dut_MaxSeq req) (dut_UUID req) in
      ret (match res with
           | Err e => writeDeleteError e
           | Ok deleted => writeJSONResponse StatusOK (DeleteResponse true (0 <? deleted) deleted)
           end)
  end.

Definition handleDeleteScope (r : http_request) : SM response :=
  if negb (bool_decide (Method r = MethodPost)) then ret (methodNotAllowed MethodPost)
  else match decodeBody decode_deleteScope r maxSingleBytes with
  | Err e => ret (badRequest (Text e))
  | Ok req =>
      let* res := deleteScope (dels_Scope req) in
      ret (match res with
           | Err e => writeDeleteError e
           | Ok (deletedItems, deleted) =>
               writeJSONResponse StatusOK (DeleteScopeResponse true deleted deletedItems)
           end)
  end.

Definition handleWipe (r : http_request) : SM response :=
  if negb (bool_decide (Method r = MethodPost)) then ret (methodNotAllowed MethodPost)
  else
    let* res := wipe in
    let '(deletedScopes, deletedItems, freedBytes) := res in
    ret (writeJSONResponse StatusOK (WipeResponse true deletedScopes deletedItems freedBytes)).

(** ** handlers_bulk.go *)
Definition handleWarm (r : http_request) : SM response :=
  if negb (bool_decide (Method r = MethodPost)) then ret (methodNotAllowed MethodPost)
  else match decodeBody decode_items r maxBulkBytes with
  | Err e => ret (badRequest (Text e))
  | Ok items =>
      let* res := replaceScopes (groupItemsByScope items) in
      ret (match res with
           | Err e => writeMutationError e ""
           | Ok replacedScopes => writeJSONResponse StatusOK (WarmResponse true replacedScopes)
           end)
  end.

Definition handleRebuild (r : http_request) : SM response :=
  if negb (bool_decide (Method r = MethodPost)) then ret (methodNotAllowed MethodPost)
  else match decodeBody decode_items r maxBulkBytes with
  | Err e => ret (badRequest (Text e))
  | Ok items =>
      if (length items =? 0)%nat
      then ret (badRequest (Text "the 'items' array must not be empty for the '/rebuild' endpoint"))
      else
        let* res := rebuildAll (groupItemsByScope items) in
        ret (match res with
             | Err e => writeMutationError e ""
             | Ok (rebuiltScopes, rebuiltItems) =>
                 writeJSONResponse StatusOK (RebuildResponse true rebuiltScopes rebuiltItems)
             end)
  end.

(** ** handlers_read.go *)
Definition handleHead (r : http_request) : SM response :=
  if negb (bool_decide (Method r = MethodGet)) then ret (methodNotAllowed MethodGet)
  else match parseScopeLimit r "/head" with
  | Err e => ret (badRequest (Text e))
  | Ok q =>
      if query_Has r "offset"
      then ret (badRequest (Text "the 'offset' parameter is not supported on /head; use 'after_seq' instead, or call /tail for position-based paging"))
      else
        let raw := query_Get r "after_seq" in
        match (if negb (bool_decide (raw = "")) then ParseUint raw else Some 0) with
        | None => ret (badRequest (Text "the 'after_seq' parameter must be a valid unsigned integer"))
        | Some afterSeq =>
            let* res := StoreOps.head (sl_Scope q) afterSeq (sl_Limit q) in
            let '(items, truncated, found) := res in
            ret (respond_written
              (if negb (found : bool) then writeHeadResponse maxResponseBytes [] false
               else writeHeadResponse maxResponseBytes items truncated))
        end
  end.

Definition handleTail (r : http_request) : SM response :=
  if negb (bool_decide (Method r = MethodGet)) then ret (methodNotAllowed MethodGet)
  else match parseScopeLimit r "/tail" with
  | Err e => ret (badRequest (Text e))
  | Ok q =>
      match normalizeOffset (query_Get r "offset") with
      | Err e => ret (badRequest (Text e))
      | Ok offset =>
          let* res := StoreOps.tail (sl_Scope q) (sl_Limit q) offset in
          let '(items, truncated, found) := res in
          ret (respond_written
            (if negb (found : bool) then writeTailResponse maxResponseBytes [] false offset
             else writeTailResponse maxResponseBytes items truncated offset))
      end
  end.

(** The switch of handleGet and handleRender over the address forms. *)
Definition target_call {A} (get : string → string → Z → string → SM A) (t : lookupTarget) : SM A :=
  if negb (bool_decide (lt_ID t = "")) then get (lt_Scope t) (lt_ID t) 0 ""
  else if negb (bool_decide (lt_UUID t = "")) then get (lt_Scope t) "" 0 (lt_UUID t)
  else get (lt_Scope t) "" (lt_Seq t) "".

Definition handleGet (r : http_request) : SM response :=
  if negb (bool_decide (Method r = MethodGet)) then ret (methodNotAllowed MethodGet)
  else match parseLookupTarget r "/get" with
  | Err e => ret (badRequest (Text e))
  | Ok target =>
      let* item := target_call get_item target in
      ret (respond_written (writeGetResponse item))
  end.

Definition handleRender (r : http_request) : SM response :=
  if negb (bool_decide (Method r = MethodGet)) then ret (methodNotAllowed MethodGet)
  else match parseLookupTarget r "/render" with
  | Err e => ret (badRequest (Text e))
  | Ok target =>
      let* res := target_call render target in
      ret (match res with
           | None => mkresponse StatusNotFound true None octet_type ""
           | Some body => mkresponse StatusOK false None octet_type (default "" body)
           end)
  end.

(** ** handlers_observe.go *)
Definition handleStats (r : http_request) : SM response :=
  if negb (bool_decide (Method r = MethodGet)) then ret (methodNotAllowed MethodGet)
  else
    let* s := get in
    ret (writeJSONResponse StatusOK (StatsResponse true (stats s))).

Definition handleScopeList (r : http_request) : SM response :=
  if negb (bool_decide (Method r = MethodGet)) then ret (methodNotAllowed MethodGet)
  else
    let prefix := query_Get r "prefix" in
    let after := query_Get r "after" in
    match (check (if negb (bool_decide (prefix = "")) then checkKeyField "prefix" prefix MaxScopeBytes
                  else Ok tt)
          (check (if negb (bool_decide (after = "")) then checkKeyField "after" after MaxScopeBytes
                  else Ok tt)
          (normalizeLimit (query_Get r "limit")))) with
    | Err e => ret (badRequest (Text e))
    | Ok limit =>
        let* s := get in
        let '(entries, truncated) := scopeList s prefix after limit in
        ret (respond_written (writeScopeListResponse maxResponseBytes
          (0 <? Z.of_nat (length entries)) (Z.of_nat (length entries)) truncated entries))
    end.

Definition handleHelp (r : http_request) : SM response :=
  ret (if negb (bool_decide (Method r = MethodGet))
       then mkresponse StatusMethodNotAllowed false (Some MethodGet) text_type ("method not allowed" +:+ newline)
       else mkresponse StatusOK false None text_type
         ("scopecache — see instructions at https://github.com/VeloxCoding/scopecache/blob/main/docs/scopecache-core-rfc.md"
          +:+ newline)).

(** ** RegisterRoutes *)
Inductive endpoint :=
| EAppend | EUpdate | EUpsert | ECounterAdd | EDelete | EDeleteUpTo | EHead | ETail | EGet | ERender
| EWipe | EWarm | ERebuild | EDeleteScope | EStats | EScopeList | EHelp.
#[export] Instance endpoint_eq_dec : EqDecision endpoint.
Proof. solve_decision. Defined.

Definition RegisterRoutes (path : string) : option endpoint :=
  snd <$> find (λ e, bool_decide (e.1 = path))
    [("/append", EAppend); ("/update", EUpdate); ("/upsert", EUpsert); ("/counter_add", ECounterAdd);
     ("/delete", EDelete); ("/delete_up_to", EDeleteUpTo); ("/head", EHead); ("/tail", ETail);
     ("/get", EGet); ("/render", ERender); ("/wipe", EWipe); ("/warm", EWarm); ("/rebuild", ERebuild);
     ("/delete_scope", EDeleteScope); ("/stats", EStats); ("/scopelist", EScopeList); ("/help", EHelp)]%string.

Definition serve (e : endpoint) : http_request → SM response :=
  match e with
  | EAppend => handleAppend | EUpdate => handleUpdate | EUpsert => handleUpsert
  | ECounterAdd => handleCounterAdd | EDelete => handleDelete | EDeleteUpTo => handleDeleteUpTo
  | EHead => handleHead | ETail => handleTail | EGet => handleGet | ERender => handleRender
  | EWipe => handleWipe | EWarm => handleWarm | ERebuild => handleRebuild
  | EDeleteScope => handleDeleteScope | EStats => handleStats | EScopeList => handleScopeList
  | EHelp => handleHelp
  end.
End Handlers.
