(* ===== verification/HandlersSpec.v ===== *)
(** * The HTTP contract: status codes, and what a refusal leaves behind *)
From S2P Require Import Prelude GoStd Uuid Types Wire Validation Buffer BufferInv BufferSpec.
From S2P Require Import BufferRead Store StoreInv BufferOps StoreSpec Events StoreOps Steps Bulk.
From S2P Require Import BulkSpec RebuildSpec WarmSpec OpsSteps EventsSpec Refine RefineOps RefineBulk.
From S2P Require Import Simulation Handlers.

(** What the JSON decoder cannot produce: an internal cell (an unexported
    field), or a batch beyond the body it was read from. *)
Class DecodeLaw `{Env} `{Decoders} : Prop := {
  dl_item : ∀ n b it eof, decode_Item n b = Decoded it eof → client_item it;
  dl_items : ∀ n b l eof, decode_items n b = Decoded l eof →
    batch_weight (groupItemsByScope l) + reservedScopesOverhead ≤ MaxInt64;
}.
(** The response structs always marshal. *)
Class MarshalLaw `{RespMarshal} : Prop := marshal_total : ∀ r, is_Some (jsonMarshal_resp r).

(** The method of an endpoint. *)
Definition method_of (e : endpoint) : string :=
  match e with
  | EHead | ETail | EGet | ERender | EStats | EScopeList | EHelp => MethodGet
  | _ => MethodPost
  end.

(** The status of a store error on the write endpoints. *)
Definition is_capacity (e : error) : bool :=
  match unwrapped e with
  | ScopeFullError _ _ | ScopeCapacityError _ | StoreFullError _ _ _ => true
  | _ => false
  end.
Definition is_overflow (e : error) : bool :=
  match unwrapped e with CounterOverflowError _ _ => true | _ => false end.
Definition error_status (e : error) : Z :=
  if is_invalid_input e then StatusBadRequest
  else if is_capacity e then StatusInsufficientStorage else StatusConflict.

Section Spec.
Context `{EV : Env} `{CP : Caps} `{SH : ScopeHash} `{EM : EventMarshal} `{DE : Decoders} `{RM : RespMarshal}.

(** ** A refusal changes nothing *)
Definition settled (s : store) (o : response * store) : Prop :=
  status o.1 = StatusOK ∨ status o.1 = StatusInternalServerError ∨
  same_astore (content s) (content o.2).

Lemma settled_same s r : settled s (ret r s).
Proof. by right; right. Qed.
Lemma json_status c r : status (writeJSONResponse c r) = c ∨
  status (writeJSONResponse c r) = StatusInternalServerError.
Proof. unfold writeJSONResponse. destruct (jsonMarshal_resp r); [by left|by right]. Qed.

(** An operation that changes nothing when it fails. *)
Definition clean {A} (m : SM (result error A)) (s : store) : Prop :=
  match m s with (Err _, s') => same_astore (content s) (content s') | _ => True end.

Lemma settled_op {A} (m : SM (result error A)) (on_err : error → response) (on_ok : A → response) s :
  clean m s → (∀ a, status (on_ok a) = StatusOK ∨ status (on_ok a) = StatusInternalServerError) →
  settled s ((let* res := m in ret (match res with Err e => on_err e | Ok a => on_ok a end)) s).
Proof.
  intros Hc Hok. rewrite bind_eq. unfold clean in Hc. destruct (m s) as [[a|e] s']; cbn; unfold settled; cbn.
  - destruct (Hok a); tauto.
  - by right; right.
Qed.

Lemma written_clean k {A} (R : list aitem → A → list aitem → Prop) (m : SM (result error A)) s :
  store_inv s → written k R s (m s) → clean m s.
Proof.
  intros I. unfold clean, written. destruct (m s) as [[a|e] s']; [done|]. by apply no_trace_content.
Qed.
Lemma written_in_clean k {A} (d : A) R (m : SM (result error A)) s :
  store_inv s → written_in k d R s (m s) → clean m s.
Proof.
  intros I. unfold clean, written_in, written. destruct (content s k).
  - destruct (m s) as [[a|e] s']; [done|]. by apply no_trace_content.
  - intros [-> | [e ->]]; done.
Qed.

Context `{CO : !CapsOk} `{DL : !DecodeLaw}.

Lemma decoded_item r n it : decodeBody decode_Item r n = Ok it → client_item it.
Proof.
  unfold decodeBody. destruct (decode_Item n (ReqBody r)) as [[]|a eof] eqn:E; try done.
  destruct (negb eof); [done|]. intros [= ->]. by eapply dl_item.
Qed.
Lemma decoded_batch r n l : decodeBody decode_items r n = Ok l → batch_ok (groupItemsByScope l).
Proof.
  unfold decodeBody. destruct (decode_items n (ReqBody r)) as [[]|a eof] eqn:E; try done.
  destruct (negb eof); [done|]. intros [= ->]. split; [apply groupItemsByScope_spec|by eapply dl_items].
Qed.

Lemma young_op {A} (m : SM A) (f : A → response) s :
  young ((let* res := m in ret (f res)) s).2 → young (m s).2.
Proof. by rewrite bind_eq. Qed.
Lemma settled_read {A} (m : SM A) (f : A → response) s :
  same_astore (content s) (content (m s).2) → settled s ((let* res := m in ret (f res)) s).
Proof. intros C. rewrite bind_eq. by right; right. Qed.
Lemma get_same k id seq uuid s : store_inv s →
  same_astore (content s) (content (get_item k id seq uuid s).2).
Proof. intros I. by destruct (get_reads k id seq uuid s I) as [(_ & _ & _ & _ & H) _]. Qed.
Lemma target_same {A} (get : string → string → Z → string → SM A) t s :
  (∀ k id seq uuid, same_astore (content s) (content (get k id seq uuid s).2)) →
  same_astore (content s) (content (target_call get t s).2).
Proof. intros H. unfold target_call. destruct (negb _); [done|]. by destruct (negb _). Qed.

Lemma status_miss m r : status (with_miss m r) = status r.
Proof. done. Qed.
Hint Resolve json_status settled_same : core.

Lemma append_settled r s : store_inv s → young (handleAppend r s).2 → settled s (handleAppend r s).
Proof.
  intros I. unfold handleAppend. destruct (negb _); [done|]. destruct (decodeBody _ _ _) as [it|]; [|done].
  intros Y%young_op. apply settled_op; [|done]. eapply written_clean; [done|]. by apply appendOne_edit.
Qed.
Lemma upsert_settled r s : store_inv s → young (handleUpsert r s).2 → settled s (handleUpsert r s).
Proof.
  intros I. unfold handleUpsert. destruct (negb _); [done|].
  destruct (decodeBody _ _ _) as [it|] eqn:D; [|done]. apply decoded_item in D.
  intros Y%young_op. apply (settled_op _ _ (λ p : Item * bool, let '(x, c) := p in _)); [|by intros [x c]].
  eapply written_clean; [done|]. by apply upsertOne_edit.
Qed.
Lemma update_settled r s : store_inv s → young (handleUpdate r s).2 → settled s (handleUpdate r s).
Proof.
  intros I. unfold handleUpdate. destruct (negb _); [done|].
  destruct (decodeBody _ _ _) as [it|] eqn:D; [|done]. apply decoded_item in D.
  intros Y%young_op. apply settled_op; [|intros a; apply json_status].
  eapply (written_in_clean _ 0); [done|]. by apply updateOne_edit.
Qed.
Lemma counter_settled r s : store_inv s → young (handleCounterAdd r s).2 → settled s (handleCounterAdd r s).
Proof.
  intros I. unfold handleCounterAdd. destruct (negb _); [done|].
  destruct (decodeBody _ _ _) as [req|]; [|done]. destruct (ca_By req) as [n|]; [|done].
  intros Y%young_op. apply (settled_op _ _ (λ p : Z * bool, let '(x, c) := p in _)); [|by intros [x c]].
  eapply written_clean; [done|]. by apply counterAddOne_edit.
Qed.
Lemma delete_settled r s : store_inv s → young (handleDelete r s).2 → settled s (handleDelete r s).
Proof.
  intros I. unfold handleDelete. destruct (negb _); [done|].
  destruct (decodeBody _ _ _) as [req|]; [|done].
  intros Y%young_op. apply settled_op; [|intros a; apply json_status].
  eapply (written_in_clean _ 0); [done|]. by apply deleteOne_edit.
Qed.
Lemma drain_settled r s : store_inv s → young (handleDeleteUpTo r s).2 → settled s (handleDeleteUpTo r s).
Proof.
  intros I. unfold handleDeleteUpTo. destruct (negb _); [done|].
  destruct (decodeBody _ _ _) as [req|]; [|done].
  intros Y%young_op. apply settled_op; [|intros a; apply json_status].
  eapply (written_in_clean _ 0); [done|]. by apply deleteUpTo_edit.
Qed.
Lemma deleteScope_settled r s : store_inv s → young (handleDeleteScope r s).2 →
  settled s (handleDeleteScope r s).
Proof.
  intros I. unfold handleDeleteScope. destruct (negb _); [done|].
  destruct (decodeBody _ _ _) as [req|]; [|done].
  intros Y%young_op. apply (settled_op _ _ (λ p : Z * bool, let '(x, c) := p in _)); [|by intros [x c]].
  pose proof (deleteScope_edit (dels_Scope req) s I Y) as H. unfold clean.
  destruct (deleteScope (dels_Scope req) s) as [[[]|e] s']; [done|]. cbn in H. by subst.
Qed.
Lemma warm_settled r s : store_inv s → young (handleWarm r s).2 → settled s (handleWarm r s).
Proof.
  intros I. unfold handleWarm. destruct (negb _); [done|].
  destruct (decodeBody _ _ _) as [l|] eqn:D; [|done]. apply decoded_batch in D.
  intros Y%young_op. apply settled_op; [|done].
  pose proof (replaceScopes_edit _ s I D Y) as H. unfold clean.
  destruct (replaceScopes _ s) as [[n|e] s']; [done|]. intros k. by apply same_content_content.
Qed.
Lemma rebuild_settled r s : store_inv s → settled s (handleRebuild r s).
Proof.
  intros I. unfold handleRebuild. destruct (negb _); [done|].
  destruct (decodeBody _ _ _) as [l|] eqn:D; [|done]. apply decoded_batch in D as [Hn Hw].
  destruct (length l =? 0)%nat; [done|].
  apply (settled_op _ _ (λ p : Z * Z, let '(x, c) := p in _)); [|by intros [x c]].
  pose proof (rebuildAll_spec _ s I Hn Hw) as H. unfold clean.
  destruct (rebuildAll _ s) as [[[]|e] s']; [done|]. intros k. by apply same_content_content.
Qed.
Lemma wipe_settled r s : settled s (handleWipe r s).
Proof.
  unfold handleWipe. destruct (negb _); [done|]. rewrite bind_eq. destruct (wipe s) as [[[n m] f] s'].
  unfold settled. cbn. destruct (json_status StatusOK (WipeResponse true n m f)); tauto.
Qed.
Lemma window_settled {A B C} (m : SM (A * B * C)) (f : A → B → C → response) s :
  same_astore (content s) (content (m s).2) →
  settled s ((let* res := m in let '(x, y, z) := res in ret (f x y z)) s).
Proof. intros H. rewrite bind_eq. destruct (m s) as [[[x y] z] s']. by right; right. Qed.
Lemma head_settled r s : store_inv s → settled s (handleHead r s).
Proof.
  intros I. unfold handleHead. destruct (negb _); [done|]. destruct (parseScopeLimit _ _) as [q|]; [|done].
  destruct (query_Has _ _); [done|]. cbv zeta. destruct (if negb _ then _ else _); [|done].
  apply (window_settled _ (λ _ _ _, _)). by apply window_content.
Qed.
Lemma tail_settled r s : store_inv s → settled s (handleTail r s).
Proof.
  intros I. unfold handleTail. destruct (negb _); [done|]. destruct (parseScopeLimit _ _) as [q|]; [|done].
  destruct (normalizeOffset _); [|done]. apply (window_settled _ (λ _ _ _, _)). by apply window_content.
Qed.
Lemma get_settled r s : store_inv s → settled s (handleGet r s).
Proof.
  intros I. unfold handleGet. destruct (negb _); [done|]. destruct (parseLookupTarget _ _) as [t|]; [|done].
  apply (settled_read _ (λ x, _)), target_same. intros. by apply get_same.
Qed.
Lemma render_settled r s : store_inv s → settled s (handleRender r s).
Proof.
  intros I. unfold handleRender. destruct (negb _); [done|]. destruct (parseLookupTarget _ _) as [t|]; [|done].
  apply (settled_read _ (λ x, _)), target_same. intros. rewrite render_run. by apply get_same.
Qed.
Lemma scopelist_settled r s : settled s (handleScopeList r s).
Proof.
  unfold handleScopeList. destruct (negb _); [done|]. cbv zeta. destruct (check _ _); [|done].
  rewrite bind_eq. cbn [fst snd get]. by destruct (scopeList _ _ _ _).
Qed.

Lemma serve_settled e r s : store_inv s → young (serve e r s).2 → settled s (serve e r s).
Proof.
  intros I. destruct e; cbn [serve].
  - by apply append_settled. - by apply update_settled. - by apply upsert_settled.
  - by apply counter_settled. - by apply delete_settled. - by apply drain_settled.
  - intros _. by apply head_settled. - intros _. by apply tail_settled.
  - intros _. by apply get_settled. - intros _. by apply render_settled.
  - intros _. apply wipe_settled. - by apply warm_settled. - intros _. by apply rebuild_settled.
  - by apply deleteScope_settled.
  - intros _. unfold handleStats. destruct (negb _); [done|]. rewrite bind_eq. done.
  - intros _. apply scopelist_settled.
  - intros _. apply settled_same.
Qed.

End Spec.

(** ** Status codes *)
Section Status.
Context `{EV : Env} `{CP : Caps} `{SH : ScopeHash} `{EM : EventMarshal} `{DE : Decoders} `{RM : RespMarshal}.
Context `{ML : !MarshalLaw}.

Lemma json_ok c r : status (writeJSONResponse c r) = c.
Proof. unfold writeJSONResponse. destruct (marshal_total r) as [b ->]. done. Qed.
Lemma json_allow c r : allow (writeJSONResponse c r) = None.
Proof. unfold writeJSONResponse. by destruct (jsonMarshal_resp r). Qed.

Lemma capacity_status e k r : writeStoreCapacityError e k = Some r →
  is_capacity e = true ∧ status r = StatusInsufficientStorage.
Proof.
  unfold writeStoreCapacityError, is_capacity. destruct (unwrapped e); try done; intros [= <-];
    (split; [done|apply json_ok]).
Qed.
Lemma no_capacity e k : writeStoreCapacityError e k = None → is_capacity e = false.
Proof. unfold writeStoreCapacityError, is_capacity. by destruct (unwrapped e). Qed.

Lemma mutation_status e k : status (writeMutationError e k) = error_status e.
Proof.
  unfold writeMutationError, error_status. destruct (is_invalid_input e); [apply json_ok|].
  destruct (writeStoreCapacityError e k) eqn:E.
  - by apply capacity_status in E as [-> ->].
  - apply no_capacity in E as ->. apply json_ok.
Qed.
Lemma counter_status e k : status (writeCounterError e k) =
  if is_overflow e then StatusBadRequest else error_status e.
Proof.
  unfold writeCounterError, error_status, is_overflow.
  assert (is_invalid_input e = true → is_overflow e = false) as Hio.
  { unfold is_overflow. induction e; cbn; auto. }
  unfold is_overflow in Hio. destruct (is_invalid_input e); [rewrite Hio by done; apply json_ok|].
  destruct (writeStoreCapacityError e k) eqn:E.
  - apply capacity_status in E as [E ->]. rewrite E. unfold is_capacity in E. by destruct (unwrapped e).
  - apply no_capacity in E as ->. destruct (unwrapped e); apply json_ok.
Qed.
Lemma delete_status e : is_capacity e = false → status (writeDeleteError e) = error_status e.
Proof.
  intros Hc. unfold writeDeleteError, error_status. rewrite Hc. destruct (is_invalid_input e); apply json_ok.
Qed.

(** The statuses an endpoint answers a request of its method with. *)
Definition statuses (e : endpoint) : list Z :=
  match e with
  | EStats | EHelp | EWipe => [StatusOK]
  | EGet => [StatusOK; StatusBadRequest]
  | ERender => [StatusOK; StatusBadRequest; StatusNotFound]
  | EHead | ETail | EScopeList => [StatusOK; StatusBadRequest; StatusInsufficientStorage]
  | EDelete | EDeleteUpTo | EDeleteScope => [StatusOK; StatusBadRequest; StatusConflict]
  | _ => [StatusOK; StatusBadRequest; StatusConflict; StatusInsufficientStorage]
  end.

Lemma error_status_in e : error_status e ∈ [StatusOK; StatusBadRequest; StatusConflict; StatusInsufficientStorage].
Proof. unfold error_status. destruct (is_invalid_input e), (is_capacity e); set_solver. Qed.
Lemma delete_status_in e : status (writeDeleteError e) ∈ [StatusOK; StatusBadRequest; StatusConflict].
Proof. unfold writeDeleteError. destruct (is_invalid_input e); unfold badRequest, conflict; rewrite json_ok; set_solver. Qed.
Lemma counter_status_in e k :
  status (writeCounterError e k) ∈ [StatusOK; StatusBadRequest; StatusConflict; StatusInsufficientStorage].
Proof. rewrite counter_status. destruct (is_overflow e); [set_solver|apply error_status_in]. Qed.
Lemma written_status_in w :
  status (respond_written w) ∈ [StatusOK; StatusBadRequest; StatusInsufficientStorage].
Proof. destruct w; cbn [respond_written]; [set_solver|]. unfold responseTooLarge. rewrite json_ok. set_solver. Qed.

(** The status, after the case analysis of a handler's branches. *)
Ltac status_cases :=
  repeat (rewrite ?bind_eq; cbn [fst snd ret get];
    match goal with
    | |- context [match ?d with Ok _ => _ | Err _ => _ end] => destruct d as [?|?] eqn:?
    | |- context [match ?d with Some _ => _ | None => _ end] => destruct d as [?|] eqn:?
    | |- context [let '(_, _) := ?d in _] => destruct d as [? ?] eqn:?
    | |- context [if ?d then _ else _] => destruct d eqn:?
    end);
  unfold badRequest, conflict; rewrite ?bind_eq, ?status_miss, ?json_ok, ?mutation_status; cbn [fst snd ret];
  rewrite ?status_miss, ?json_ok, ?mutation_status;
  first [apply error_status_in|apply delete_status_in|apply counter_status_in|apply written_status_in
        |cbn [status]; set_solver].

Lemma serve_status e r s : Method r = method_of e → status (serve e r s).1 ∈ statuses e.
Proof.
  intros Hm. destruct e; cbn [serve statuses method_of] in *;
  unfold handleAppend, handleUpsert, handleCounterAdd, handleUpdate, handleDelete, handleDeleteUpTo,
    handleDeleteScope, handleWipe, handleWarm, handleRebuild, handleHead, handleTail, handleGet,
    handleRender, handleStats, handleScopeList, handleHelp; rewrite Hm, bool_decide_true by done;
  cbn [negb]; cbv zeta.
  all: status_cases.
Qed.

Lemma wrong_method e r s : Method r ≠ method_of e →
  (serve e r s).2 = s ∧ status (serve e r s).1 = StatusMethodNotAllowed ∧
  allow (serve e r s).1 = Some (method_of e).
Proof.
  intros Hm. destruct e; cbn [serve method_of] in *;
  unfold handleAppend, handleUpsert, handleCounterAdd, handleUpdate, handleDelete, handleDeleteUpTo,
    handleDeleteScope, handleWipe, handleWarm, handleRebuild, handleHead, handleTail, handleGet,
    handleRender, handleStats, handleScopeList, handleHelp; rewrite bool_decide_false by done;
  cbn [negb ret fst snd]; unfold methodNotAllowed; cbn [with_allow status allow]; rewrite ?json_ok; done.
Qed.
End Status.
