(* ===== verification/Gateway.v ===== *)
(** * gateway.go, gateway_clone.go, gateway_registry.go: the in-process API

  Three parts. The copies at the boundary, on an explicit heap of byte arrays,
  since what they are for is aliasing: a payload is there a pointer ([option
  nat], None for nil). The methods, which run a store operation on the copied
  item. The process-wide registry of gateways, slots that are created once and
  only change content. *)
From S2P Require Import Prelude GoStd Uuid Types Validation Buffer Store Events StoreOps Bulk.

(** ** gateway_clone.go: the boundary copies *)
Module Clone.
Abbreviation heap := (gmap nat string).
Definition HM : Type → Type := ST heap.

(** An item as the caller holds it: its own fields, the payload by reference
    (the [Payload] field of [gi] is not used). *)
Record gitem := mkgitem { gi : Item; gi_payload : option nat }.

Definition bytes_at (h : heap) (a : nat) : string := default "" (h !! a).
Definition alloc (s : string) : HM nat := λ h, let a := fresh (dom h) in (a, <[a := s]> h).

(** [make] and [copy]: a new array with the same bytes; nil stays nil. *)
Definition clonePayload (p : option nat) : HM (option nat) :=
  match p with
  | None => ret None
  | Some a =>
      let* h := get in
      let* out := alloc (bytes_at h a) in
      ret (Some out)
  end.

Definition cleared (item : Item) : Item := Eval fields in item <| renderBytes := None |> <| counter := None |>.
Definition cloneItemPayload (item : gitem) : HM gitem :=
  let* p := clonePayload (gi_payload item) in
  ret (mkgitem (cleared (gi item)) p).

(** The loop of cloneItemsPayloads; the slice is rewritten element by element. *)
Fixpoint cloneItemsPayloads (items : list gitem) : HM (list gitem) :=
  match items with
  | [] => ret []
  | item :: items =>
      let* item := cloneItemPayload item in
      let* items := cloneItemsPayloads items in
      ret (item :: items)
  end.
Fixpoint cloneGroupedItemPayloads (grouped : list (string * list gitem)) : HM (list (string * list gitem)) :=
  match grouped with
  | [] => ret []
  | (scope, items) :: grouped =>
      let* cloned := cloneItemsPayloads items in
      let* out := cloneGroupedItemPayloads grouped in
      ret ((scope, cloned) :: out)
  end.

(** What a reader of the heap sees of an item. *)
Definition set_payload (p : slice) (item : Item) : Item := Eval fields in item <| Payload := p |>.
Definition resolve (h : heap) (item : gitem) : Item :=
  set_payload (bytes_at h <$> gi_payload item) (gi item).
End Clone.

(** ** gateway.go: the methods *)
Section Gateway.
Context `{Env} `{Caps} `{ScopeHash} `{EventMarshal}.

(** cloneItemPayload on the item's value. *)
Definition boundary (item : Item) : Item := Clone.cleared item.
Definition boundary_result {B E} (r : result E (Item * B)) : result E (Item * B) :=
  match r with Ok (item, b) => Ok (boundary item, b) | Err e => Err e end.

Definition Gateway_Append (item : Item) : SM (result error Item) :=
  let item := boundary item in
  let* result := appendOne item in
  ret (match result with Ok item => Ok (boundary item) | Err e => Err e end).
Definition Gateway_Upsert (item : Item) : SM (result error (Item * bool)) :=
  let item := boundary item in
  let* result := upsertOne item in
  ret (boundary_result result).
Definition Gateway_Update (item : Item) : SM (result error Z) := updateOne (boundary item).
Definition Gateway_CounterAdd (scope id : string) (by_ : Z) : SM (result error (Z * bool)) :=
  counterAddOne scope id by_.
Definition Gateway_Delete (scope id : string) (seq : Z) (uuid : string) : SM (result error Z) :=
  deleteOne scope id seq uuid.
Definition Gateway_DeleteUpTo (scope : string) (maxSeq : Z) (uuid : string) : SM (result error Z) :=
  deleteUpTo scope maxSeq uuid.
Definition Gateway_DeleteScope (scope : string) : SM (result error (Z * bool)) := deleteScope scope.
Definition Gateway_Wipe : SM (Z * Z * Z) := wipe.

Definition boundary_batch (grouped : batch) : batch :=
  (λ e : string * list Item, (e.1, boundary <$> e.2)) <$> grouped.
Definition Gateway_Warm (grouped : batch) : SM (result error Z) := replaceScopes (boundary_batch grouped).
Definition Gateway_Rebuild (grouped : batch) : SM (result error (Z * Z)) :=
  rebuildAll (boundary_batch grouped).

Definition boundary_window (r : list Item * bool * bool) : list Item * bool * bool :=
  let '(items, truncated, found) := r in (boundary <$> items, truncated, found).
Definition Gateway_Head (scope : string) (afterSeq limit : Z) : SM (list Item * bool * bool) :=
  let* r := StoreOps.head scope afterSeq limit in ret (boundary_window r).
Definition Gateway_Tail (scope : string) (limit offset : Z) : SM (list Item * bool * bool) :=
  let* r := StoreOps.tail scope limit offset in ret (boundary_window r).
Definition Gateway_GetByID (scope id : string) : SM (option Item) :=
  let* r := get_item scope id 0 "" in ret (boundary <$> r).
Definition Gateway_GetBySeq (scope : string) (seq : Z) : SM (option Item) :=
  let* r := get_item scope "" seq "" in ret (boundary <$> r).
Definition Gateway_GetByUUID (scope uuid : string) : SM (option Item) :=
  let* r := get_item scope "" 0 uuid in ret (boundary <$> r).
Definition Gateway_RenderByID (scope id : string) : SM (option slice) := render scope id 0 "".
Definition Gateway_RenderBySeq (scope : string) (seq : Z) : SM (option slice) := render scope "" seq "".
Definition Gateway_RenderByUUID (scope uuid : string) : SM (option slice) := render scope "" 0 uuid.
Definition Gateway_Subscribe (scope : string) : SM (result subscribe_error nat) := Subscribe scope.
Definition Gateway_Stats (s : store) : storeStats := stats s.
Definition Gateway_ScopeList (s : store) := scopeList s.
End Gateway.

(** ** gateway_registry.go

  A gateway is its address. [registrySlots] maps a name to its slot, [slots]
  the slot to the gateway it holds; a slot is never removed. *)
Module Registry.
Record registry := mkregistry {
  registrySlots : gmap string nat;
  slots : gmap nat (option nat);
}.
Definition RM : Type → Type := ST registry.
Definition empty_registry : registry := mkregistry ∅ ∅.

Definition slotForName (name : string) : RM nat := λ g,
  match registrySlots g !! name with
  | Some slot => (slot, g)
  | None =>
      let slot := fresh (dom (slots g)) in
      (slot, mkregistry (<[name := slot]> (registrySlots g)) (<[slot := None]> (slots g)))
  end.
Definition slot_Load (slot : nat) : RM (option nat) := λ g, (default None (slots g !! slot), g).
Definition slot_Store (slot : nat) (gw : option nat) : RM unit := λ g,
  (tt, mkregistry (registrySlots g) (<[slot := gw]> (slots g))).
Definition slot_CompareAndSwap (slot : nat) (old new : option nat) : RM bool := λ g,
  if decide (default None (slots g !! slot) = old)
  then (true, mkregistry (registrySlots g) (<[slot := new]> (slots g))) else (false, g).

Definition RegisterGateway (name : string) (gw : option nat) : RM unit :=
  let* slot := slotForName name in slot_Store slot gw.
Definition LookupGateway (name : string) : RM (option nat) :=
  let* slot := slotForName name in slot_Load slot.
Definition LookupGatewaySlot (name : string) : RM nat := slotForName name.
Definition DeregisterGatewayIf (name : string) (gw : option nat) : RM unit :=
  let* slot := slotForName name in
  let* _ := slot_CompareAndSwap slot gw None in
  ret tt.
End Registry.
