(* ===== verification/GatewaySpec.v ===== *)
(** * The in-process API: isolation of payloads, safety of inputs, the registry *)
From S2P Require Import Prelude GoStd Uuid Types Wire Validation Buffer BufferInv BufferSpec.
From S2P Require Import Store StoreInv BufferOps StoreSpec Events StoreOps Steps Bulk BulkSpec.
From S2P Require Import RebuildSpec WarmSpec OpsSteps Refine Gateway.

(** ** The copies *)
Section CloneSpec.
Import Clone.

(** The copy step: the heap only grows, at addresses that were free. *)
Record copied (h h' : heap) (old new : list nat) : Prop := {
  cp_old : ∀ a, a ∈ dom h → (h' !! a) = (h !! a);
  cp_new : ∀ a, a ∈ new → a ∉ dom h ∧ is_Some (h' !! a);
  cp_nodup : NoDup new;
  cp_len : length new = length old;
  cp_grow : dom h ⊆ dom h';
}.
Definition refs (l : list gitem) : list nat := omap gi_payload l.

Lemma bytes_grow h h' old new a : copied h h' old new → a ∈ dom h → bytes_at h' a = bytes_at h a.
Proof. intros C Ha. unfold bytes_at. by rewrite (cp_old _ _ _ _ C). Qed.
Lemma copied_nil h : copied h h [] [].
Proof. constructor; try done; [by intros a ?%elem_of_nil|constructor]. Qed.
Lemma copied_app h1 h2 h3 o1 n1 o2 n2 : copied h1 h2 o1 n1 → copied h2 h3 o2 n2 →
  copied h1 h3 (o1 ++ o2) (n1 ++ n2).
Proof.
  intros [A1 B1 C1 D1 E1] [A2 B2 C2 D2 E2]. constructor.
  - intros a Ha. rewrite A2 by set_solver. by apply A1.
  - intros a [Ha|Ha]%elem_of_app.
    + destruct (B1 a Ha) as [? Hs]. split; [done|]. rewrite A2; [done|by apply elem_of_dom].
    + destruct (B2 a Ha). split; [set_solver|done].
  - apply NoDup_app. split; [done|]. split; [|done]. intros a H1 H2.
    destruct (B1 a H1) as [_ Hs]. destruct (B2 a H2) as [Hn _]. by apply Hn, elem_of_dom.
  - rewrite !length_app. congruence.
  - set_solver.
Qed.

Definition opt_list {A} (o : option A) : list A := match o with Some a => [a] | None => [] end.

Lemma clonePayload_spec p h : let '(p', h') := clonePayload p h in
  copied h h' (opt_list p) (opt_list p') ∧ bytes_at h' <$> p' = bytes_at h <$> p.
Proof.
  destruct p as [a|]; [|split; [apply copied_nil|done]]. cbn. pose proof (is_fresh (dom h)) as Hf.
  set (b := fresh (dom h)) in *. split.
  - constructor; cbn.
    + intros x Hx. apply lookup_insert_ne. by intros <-.
    + intros x ->%list_elem_of_singleton. split; [done|]. by rewrite lookup_insert_eq.
    + apply NoDup_singleton.
    + done.
    + rewrite dom_insert. set_solver.
  - cbn [fmap option_fmap option_map]. unfold bytes_at. by rewrite lookup_insert_eq.
Qed.

Lemma cloneItem_spec it h : let '(it', h') := cloneItemPayload it h in
  copied h h' (opt_list (gi_payload it)) (opt_list (gi_payload it')) ∧
  resolve h' it' = cleared (resolve h it).
Proof.
  unfold cloneItemPayload, bind. pose proof (clonePayload_spec (gi_payload it) h) as H.
  destruct (clonePayload (gi_payload it) h) as [p' h']. destruct H as [C E]. cbn. split; [exact C|].
  unfold resolve. cbn. rewrite E. by destruct (gi it).
Qed.

Lemma refs_cons it l : refs (it :: l) = opt_list (gi_payload it) ++ refs l.
Proof. unfold refs. cbn. by destruct (gi_payload it). Qed.

(** Every payload the caller passes is an allocated array. *)
Definition valid_refs (h : heap) (l : list gitem) : Prop := ∀ a, a ∈ refs l → a ∈ dom h.
Lemma resolve_grow h h' old new it : copied h h' old new → valid_refs h [it] → resolve h' it = resolve h it.
Proof.
  intros C V. unfold resolve. destruct (gi_payload it) as [a|] eqn:E; [|done]. cbn.
  rewrite (bytes_grow h h' old new a C); [done|]. apply V. unfold refs. cbn. rewrite E. set_solver.
Qed.
Lemma valid_cons h it l : valid_refs h (it :: l) → valid_refs h [it] ∧ valid_refs h l.
Proof. unfold valid_refs. setoid_rewrite refs_cons. cbn. intros H. split; intros a Ha; apply H; set_solver. Qed.

Lemma cloneItems_spec l h : valid_refs h l → let '(l', h') := cloneItemsPayloads l h in
  copied h h' (refs l) (refs l') ∧ resolve h' <$> l' = cleared ∘ resolve h <$> l.
Proof.
  revert h. induction l as [|it l IH]; intros h V; [split; [apply copied_nil|done]|].
  apply valid_cons in V as [V1 V2]. cbn [cloneItemsPayloads]. unfold bind.
  pose proof (cloneItem_spec it h) as H1. destruct (cloneItemPayload it h) as [it' h1]. destruct H1 as [C1 E1].
  specialize (IH h1). destruct (cloneItemsPayloads l h1) as [l' h2].
  destruct IH as [C2 E2]; [intros a Ha; by apply (cp_grow _ _ _ _ C1), V2|]. cbn [ret].
  rewrite !refs_cons. split; [by eapply copied_app|]. cbn. f_equal.
  - rewrite (resolve_grow h1 h2 _ _ it' C2), E1; [done|].
    intros a Ha. rewrite refs_cons, app_nil_r in Ha. destruct (cp_new _ _ _ _ C1 a Ha) as [_ ?].
    by apply elem_of_dom.
  - rewrite E2. apply list_fmap_ext. intros i x Hx. cbn. f_equal. apply (resolve_grow h h1 _ _ x C1).
    intros a Ha. rewrite refs_cons, app_nil_r in Ha. apply V2. unfold refs.
    apply list_elem_of_lookup_2 in Hx. apply list_elem_of_omap. exists x. split; [done|].
    destruct (gi_payload x); cbn in Ha; set_solver.
Qed.

(** A batch is copied as its items in a row. *)
Lemma cloneItems_app l1 l2 h : cloneItemsPayloads (l1 ++ l2) h =
  (let* a := cloneItemsPayloads l1 in let* b := cloneItemsPayloads l2 in ret (a ++ b)) h.
Proof.
  revert h. induction l1 as [|it l1 IH]; intros h; cbn [app cloneItemsPayloads]; unfold bind, ret in *.
  - by destruct (cloneItemsPayloads l2 h).
  - destruct (cloneItemPayload it h) as [it' h1]. rewrite IH.
    destruct (cloneItemsPayloads l1 h1) as [l1' h2]. by destruct (cloneItemsPayloads l2 h2).
Qed.
Lemma cloneGrouped_spec g h : let '(g', h') := cloneGroupedItemPayloads g h in
  g'.*1 = g.*1 ∧ cloneItemsPayloads (concat g.*2) h = (concat g'.*2, h').
Proof.
  revert h. induction g as [|[k l] g IH]; intros h; [done|]. cbn [cloneGroupedItemPayloads].
  change (concat ((k, l) :: g).*2) with (l ++ concat g.*2). rewrite cloneItems_app. unfold bind, ret in *.
  destruct (cloneItemsPayloads l h) as [l' h1]. specialize (IH h1).
  destruct (cloneGroupedItemPayloads g h1) as [g' h2]. destruct IH as [Ek E]. rewrite E.
  split; [|done]. cbn. by f_equal.
Qed.

(** The items and the copies do not share an array. *)
Record isolated (h : heap) (l l' : list gitem) : Prop := {
  is_new : ∀ a, a ∈ dom h → a ∉ refs l';
  is_old : ∀ a, a ∈ refs l' → a ∉ refs l;
}.

(** Writes to arrays of [l] only. *)
Definition write (h : heap) (a : nat) (s : string) : heap := <[a := s]> h.
Lemma write_elsewhere h a s l : a ∉ refs l → resolve (write h a s) <$> l = resolve h <$> l.
Proof.
  intros Ha. apply list_fmap_ext. intros i it Hi. unfold resolve.
  destruct (gi_payload it) as [b|] eqn:E; [|done]. cbn. do 2 f_equal. unfold bytes_at, write.
  rewrite lookup_insert_ne; [done|]. intros <-. apply Ha. apply list_elem_of_omap. exists it. split; [|done].
  by eapply list_elem_of_lookup_2.
Qed.
Lemma copied_apart h h' l l' : valid_refs h l → copied h h' (refs l) (refs l') → isolated h l l'.
Proof.
  intros V C. constructor; intros a Ha Hb; [by destruct (cp_new _ _ _ _ C a Hb)|].
  destruct (cp_new _ _ _ _ C a Ha) as [Hn _]. by apply Hn, V.
Qed.
End CloneSpec.

(** ** The methods *)
Section Methods.
Context `{EV : Env} `{CP : Caps} `{SH : ScopeHash} `{EM : EventMarshal} `{CO : !CapsOk}.

Lemma boundary_client it : client_item (boundary it).
Proof. done. Qed.
Lemma boundary_batch_keys g : (boundary_batch g).*1 = g.*1.
Proof. unfold boundary_batch. rewrite <- list_fmap_compose. by apply list_fmap_ext. Qed.

(** A method that only takes the store's own steps. *)
Definition safe {A} (m : SM A) : Prop := ∀ s, store_inv s → young (m s).2 →
  rtc sstep s (m s).2 ∧ store_inv (m s).2 ∧ extends s (m s).2.
Lemma steps_safe {A} (m : SM A) : runs_steps m → safe m.
Proof.
  intros T s I Y. destruct (tr_run _ _ _ T s I Logic.I Y) as [S _]. split; [done|]. by apply steps_ok.
Qed.
Lemma steps_then {A B} (m : SM A) (f : A → B) : runs_steps m → runs_steps (let* r := m in ret (f r)).
Proof. intros T. apply steps_bind; [done|]. intros. apply steps_ret. Qed.
End Methods.

(** ** The registry *)
Section RegistrySpec.
Import Registry.

Record registry_ok (g : registry) : Prop := {
  rg_slot : ∀ name slot, registrySlots g !! name = Some slot → is_Some (slots g !! slot);
  rg_inj : ∀ n1 n2 slot, registrySlots g !! n1 = Some slot → registrySlots g !! n2 = Some slot → n1 = n2;
}.

(** What a lookup of [name] returns: the content of its slot, if it has one. *)
Definition registered (g : registry) (name : string) : option nat :=
  match registrySlots g !! name with
  | Some slot => default None (slots g !! slot)
  | None => None
  end.

(** The slots of [g] are still those of [g']. *)
Definition keeps_slots (g g' : registry) : Prop :=
  ∀ name slot, registrySlots g !! name = Some slot → registrySlots g' !! name = Some slot.

(** One registry operation: the slots stay, [name] now has [gw], no other name moves. *)
Record assigns (name : string) (gw : option nat) (g g' : registry) : Prop := {
  as_ok : registry_ok g';
  as_slots : keeps_slots g g';
  as_name : registered g' name = gw;
  as_other : ∀ other, other ≠ name → registered g' other = registered g other;
}.

Lemma assigns_same name g : registry_ok g → assigns name (registered g name) g g.
Proof. intros K. constructor; try done. by intros n x. Qed.
Lemma slotForName_spec name g : registry_ok g → let '(slot, g') := slotForName name g in
  assigns name (registered g name) g g' ∧ registrySlots g' !! name = Some slot.
Proof.
  intros K. pose proof K as [S I]. unfold slotForName. destruct (registrySlots g !! name) as [slot|] eqn:E.
  { split; [by apply assigns_same|done]. }
  cbv zeta. pose proof (is_fresh (dom (slots g))) as Hf. set (slot := fresh (dom (slots g))) in *.
  apply not_elem_of_dom in Hf.
  assert (∀ n x, registrySlots g !! n = Some x → x ≠ slot) as Hne.
  { intros n x Hx ->. apply S in Hx as [? Hx]. congruence. }
  split; [|cbn; apply lookup_insert_eq]. constructor.
  - constructor; cbn.
    + intros n x [[<- <-]|[_ Hx]]%lookup_insert_Some; [rewrite lookup_insert_eq; by eexists|].
      rewrite lookup_insert_ne by (symmetry; by eapply Hne). by eapply S.
    + intros n1 n2 x [[<- <-]|[H1 E1]]%lookup_insert_Some [[<- E2]|[H2 E2]]%lookup_insert_Some; [done|..].
      * by destruct (Hne n2 _ E2). * subst. by destruct (Hne n1 _ E1). * by eapply I.
  - intros n x Hx. cbn. rewrite lookup_insert_ne; [done|]. intros <-. congruence.
  - unfold registered. cbn. by rewrite lookup_insert_eq, lookup_insert_eq, E.
  - intros other Ho. unfold registered. cbn. rewrite lookup_insert_ne by done.
    destruct (registrySlots g !! other) as [x|] eqn:Ex; [|done].
    by rewrite lookup_insert_ne by (symmetry; by eapply Hne).
Qed.

Lemma store_slot name slot gw g : registry_ok g → registrySlots g !! name = Some slot →
  assigns name gw g (slot_Store slot gw g).2.
Proof.
  intros [S I] Hs. constructor.
  - constructor; [|by apply I]. cbn. intros n x Hx. destruct (decide (x = slot)) as [->|Hne].
    + rewrite lookup_insert_eq. by eexists. + rewrite lookup_insert_ne by done. by eapply S.
  - by intros n x.
  - unfold registered. cbn. by rewrite Hs, lookup_insert_eq.
  - intros other Ho. unfold registered. cbn. destruct (registrySlots g !! other) as [x|] eqn:Ex; [|done].
    rewrite lookup_insert_ne; [done|]. intros <-. apply Ho. by eapply I.
Qed.
Lemma assigns_trans name gw1 gw2 g1 g2 g3 : assigns name gw1 g1 g2 → assigns name gw2 g2 g3 →
  assigns name gw2 g1 g3.
Proof.
  intros [_ K1 _ O1] [K K2 N2 O2]. constructor; [done| |done|].
  - intros n x Hx. by apply K2, K1.
  - intros other Ho. rewrite O2 by done. by apply O1.
Qed.

Lemma register_spec name gw g : registry_ok g → assigns name gw g (RegisterGateway name gw g).2.
Proof.
  intros K. unfold RegisterGateway, bind. pose proof (slotForName_spec name g K) as H.
  destruct (slotForName name g) as [slot g1]. destruct H as [A Hs].
  eapply assigns_trans; [exact A|]. by apply store_slot; [apply A|].
Qed.
Lemma lookup_spec name g : registry_ok g → (LookupGateway name g).1 = registered g name ∧
  assigns name (registered g name) g (LookupGateway name g).2.
Proof.
  intros K. unfold LookupGateway, bind. pose proof (slotForName_spec name g K) as H.
  destruct (slotForName name g) as [slot g1]. destruct H as [A Hs]. cbn. split; [|done].
  rewrite <- (as_name _ _ _ _ A). unfold registered at 1. by rewrite Hs.
Qed.
Lemma deregister_spec name gw g : registry_ok g →
  assigns name (if decide (registered g name = Some gw) then None else registered g name) g
    (DeregisterGatewayIf name (Some gw) g).2.
Proof.
  intros K. unfold DeregisterGatewayIf, bind. pose proof (slotForName_spec name g K) as H.
  destruct (slotForName name g) as [slot g1]. destruct H as [A Hs].
  assert (default None (slots g1 !! slot) = registered g name) as Er.
  { rewrite <- (as_name _ _ _ _ A). unfold registered at 1. by rewrite Hs. }
  unfold slot_CompareAndSwap. rewrite Er. destruct (decide (registered g name = Some gw)); cbn; [|done].
  eapply assigns_trans; [exact A|]. by apply (store_slot name slot None g1); [apply A|].
Qed.
Lemma empty_ok : registry_ok empty_registry.
Proof. by constructor. Qed.
End RegistrySpec.
