(* ===== verification/Guarded.v ===== *)
(** * addons/guarded/guarded.go: the token-gated /tail

  A client with a registered bearer token reads the scopes under its own
  prefix, [capID token ++ ":"]. The hash (SHA-256 in base64url, Go's crypto
  library) and the JSON encoder are parameters. *)
From S2P Require Import Prelude GoStd Uuid Types Wire Validation Buffer BufferInv BufferSpec BufferRead.
From S2P Require Import Store StoreInv BufferOps StoreSpec Events StoreOps Steps Bulk OpsSteps.
From S2P Require Import EventsSpec Refine RefineOps.
From S2P Require Import BufferTheorems RefineBulk Simulation Handlers Gateway.

(** [base64url(sha256(token))]. *)
Class TokenHash := capID : string → string.
(** 32 bytes in unpadded base64. *)
Class TokenHashLaw `{TokenHash} : Prop := capID_length : ∀ token, slen (capID token) = 43.

Inductive guarded_body :=
| GuardedError (msg : string)
| GuardedTail (hit : bool) (count offset : Z) (truncated : bool) (items : list Item).
Class GuardedMarshal := marshal_guarded : guarded_body → option string.

Definition tokensScope : string := "_tokens".
Definition StatusUnauthorized : Z := 401.

(** [strings.EqualFold] against an ASCII text without k or s, the letters that
    also fold to a non-ASCII one. *)
Definition lower (c : Z) : Z := if (65 <=? c) && (c <=? 90) then c + 32 else c.
Definition EqualFold (s t : string) : bool := bool_decide (lower <$> codes s = lower <$> codes t).

Definition extractBearer (r : http_request) : string :=
  let h := Authorization r in
  let prefix := "Bearer "%string in
  let n := length (codes prefix) in
  if (slen h <=? slen prefix) || negb (EqualFold (of_codes (take n (codes h))) prefix) then ""
  else TrimSpace (of_codes (drop n (codes h))).

Definition parseTailQuery (r : http_request) : result string (string * Z * Z) :=
  let scope := query_Get r "scope" in
  if bool_decide (scope = "") then Err "the 'scope' query parameter is required"
  else
    let raw := query_Get r "limit" in
    let limit := if negb (bool_decide (raw = ""))
                 then match Atoi raw with
                      | Some n => if n <=? 0 then None else Some (if MaxLimit <? n then MaxLimit else n)
                      | None => None
                      end
                 else Some DefaultLimit in
    match limit with
    | None => Err "the 'limit' parameter must be a positive integer"
    | Some limit =>
        let raw := query_Get r "offset" in
        let offset := if negb (bool_decide (raw = ""))
                      then match Atoi raw with
                           | Some n => if n <? 0 then None else Some n
                           | None => None
                           end
                      else Some 0 in
        match offset with
        | None => Err "the 'offset' parameter must be a non-negative integer"
        | Some offset => Ok (scope, limit, offset)
        end
    end.

Definition strip_prefix (prefix : string) (it : Item) : Item := Eval fields in
  if HasPrefix (Scope it) prefix
  then it <| Scope := of_codes (drop (length (codes prefix)) (codes (Scope it))) |> else it.

Section Guarded.
Context `{EV : Env} `{CP : Caps} `{SH : ScopeHash} `{TH : TokenHash} `{GM : GuardedMarshal}.

Definition guarded_writeJSON (code : Z) (b : guarded_body) : response :=
  match marshal_guarded b with
  | None => mkresponse StatusInternalServerError false None json_type
      (dq "{'ok':false,'error':'the response failed to marshal'}" +:+ newline)
  | Some out => mkresponse code false None json_type (out +:+ newline)
  end.
Definition errorJSON (code : Z) (msg : string) : response := guarded_writeJSON code (GuardedError msg).

Definition guarded_handleTail (r : http_request) : SM response :=
  if negb (bool_decide (Method r = MethodGet))
  then ret (with_allow MethodGet (errorJSON StatusMethodNotAllowed
         "the HTTP method is not allowed for this endpoint"))
  else
    let token := extractBearer r in
    if bool_decide (token = "")
    then ret (errorJSON StatusUnauthorized "missing or malformed Authorization header")
    else
      let cid := capID token in
      let* res := Gateway_GetByID tokensScope cid in
      match res with
      | None => ret (errorJSON StatusUnauthorized "invalid or unknown token")
      | Some _ =>
          match parseTailQuery r with
          | Err e => ret (errorJSON StatusBadRequest e)
          | Ok (scope, limit, offset) =>
              let prefix := cid +:+ ":" in
              let* res := Gateway_Tail (prefix +:+ scope) limit offset in
              let '(items, hasMore, found) := res in
              let items := strip_prefix prefix <$> items in
              ret (guarded_writeJSON StatusOK (GuardedTail (found && (0 <? length items)%nat)
                (Z.of_nat (length items)) offset hasMore items))
          end
      end.

(** ** What a client is told *)
Context `{EM : EventMarshal} `{CO : !CapsOk}.

Definition holds_id (C : astore) (k id : string) : Prop :=
  ∃ l e, C k = Some l ∧ e ∈ l ∧ ID e.1 = id.

(** The page of the client's own scope, under the client's own name. *)
Definition set_scope (scope : string) (it : Item) : Item := Eval fields in it <| Scope := scope |>.
Definition client_page (C : astore) (k scope : string) (limit offset : Z) : list Item :=
  match C k with
  | None => []
  | Some l => (λ it, set_scope scope (boundary it)) <$> tail_window (wire <$> l) limit offset
  end.
Definition client_more (C : astore) (k : string) (limit offset : Z) : bool :=
  match C k with None => false | Some l => limit + offset <? Z.of_nat (length l) end.

Lemma parse_range r scope limit offset : parseTailQuery r = Ok (scope, limit, offset) →
  0 < limit ∧ 0 ≤ offset.
Proof.
  unfold parseTailQuery. cbv zeta. intros H. repeat (case_match; simplify_eq);
    rewrite ?Z.leb_gt, ?Z.ltb_ge in *; unfold DefaultLimit, MaxLimit in *; lia.
Qed.

Lemma prefix_app p s : String.prefix p (p +:+ s) = true.
Proof.
  induction p as [|c p IH]; [by destruct s|]. change (String c p +:+ s) with (String c (p +:+ s)).
  cbn. destruct (Ascii.ascii_dec c c); [apply IH|done].
Qed.
Lemma strip_own p scope it : Scope it = p +:+ scope → strip_prefix p it = set_scope scope it.
Proof.
  intros E. unfold strip_prefix, set_scope, HasPrefix. rewrite E, prefix_app, codes_app, drop_app_length.
  by rewrite of_codes_codes.
Qed.

Lemma content_scope s k l e : store_inv s → content s k = Some l → e ∈ l → Scope e.1 = k.
Proof.
  intros I. unfold content. destruct (scopes s !! k) as [p|] eqn:Hp; [|done]. intros [= <-].
  intros (q & -> & Hq)%list_elem_of_fmap. destruct (si_live _ I k p Hp) as [L _].
  by apply (lb_scope _ _ _ L).
Qed.
Lemma wire_scope e : Scope (wire e) = Scope e.1.
Proof. unfold wire. by destruct e.2. Qed.
Lemma boundary_pointer it : boundary (no_pointer it) = boundary it.
Proof. done. Qed.

(** The page Gateway.Tail returns, with the prefix stripped. *)
Lemma own_page s cid scope limit offset : store_inv s → 0 < limit → 0 ≤ offset →
  let k := (cid +:+ ":") +:+ scope in
  let '(items, more, found) := (Gateway_Tail k limit offset s).1 in
  strip_prefix (cid +:+ ":") <$> items = client_page (content s) k scope limit offset ∧
  more = client_more (content s) k limit offset ∧
  (found = true ↔ is_Some (content s k)) ∧
  same_astore (content s) (content (Gateway_Tail k limit offset s).2).
Proof.
  intros I Hl Ho k. unfold Gateway_Tail. rewrite bind_eq. cbn [fst snd ret].
  destruct (tail_reads k limit offset s I Hl Ho) as [(_ & _ & _ & _ & HC) HT].
  unfold client_page, client_more.
  destruct (content s k) as [l|] eqn:El.
  - destruct (StoreOps.tail k limit offset s) as [[[items more] found] s']. cbn [fst snd] in *.
    unfold boundary_window. destruct HT as [HT ->]. unfold tail_page in HT. injection HT as HT ->.
    rewrite length_fmap. split; [|split; [done|split; [|done]]]; [|by split; intros; [eexists|]].
    rewrite <- list_fmap_compose. rewrite <- HT, <- list_fmap_compose. apply list_fmap_ext.
    intros i it Hi. cbn. rewrite boundary_pointer. apply strip_own.
    change (Scope (boundary it)) with (Scope (no_pointer it)).
    assert (no_pointer it ∈ tail_window (wire <$> l) limit offset) as Hin.
    { rewrite <- HT. apply list_elem_of_fmap_2. by eapply list_elem_of_lookup_2. }
    unfold tail_window in Hin. apply subseteq_drop, subseteq_take in Hin.
    apply list_elem_of_fmap in Hin as (e & -> & He). rewrite wire_scope.
    by eapply content_scope.
  - rewrite HT. cbn. split; [done|]. split; [done|]. split; [|done]. split; [done|]. by intros [? ?].
Qed.

Lemma own_token s cid : store_inv s → cid ≠ ""%string → young (Gateway_GetByID tokensScope cid s).2 →
  let '(r, s') := Gateway_GetByID tokensScope cid s in
  (is_Some r ↔ holds_id (content s) tokensScope cid) ∧
  same_astore (content s) (content s') ∧ store_inv s'.
Proof.
  intros I Hc. unfold Gateway_GetByID. rewrite bind_eq. cbn [fst snd ret].
  pose proof (get_reads tokensScope cid 0 "" s I) as HR. intros Y.
  pose proof (steps_get_item tokensScope cid 0 "") as T.
  destruct (tr_run _ _ _ T s I Logic.I Y) as [S _]. destruct (steps_ok s _ I S Y) as [I' _].
  destruct HR as [(_ & _ & _ & _ & HC) HR]. split; [|done]. rewrite fmap_is_Some.
  unfold holds_id. unfold request_address in HR. rewrite bool_decide_false in HR by done. cbn [negb] in HR.
  destruct (content s tokensScope) as [l|].
  - destruct HR as [H1 H2]. split.
    + intros [it Hit]. destruct (H1 it Hit) as [(e & E & He)%list_elem_of_fmap [Hid _]].
      exists l, e. split; [done|]. split; [done|]. cbn in Hid. rewrite <- Hid.
      change (ID it) with (ID (no_pointer it)). rewrite E. unfold wire. by destruct e.2.
    + intros (l' & e & [= <-] & He & Hid). destruct (get_item _ _ _ _ _).1 as [it|]; [by eexists|].
      exfalso. apply (H2 eq_refl Logic.I (wire e)); [by apply list_elem_of_fmap_2|]. split; [|done]. cbn.
      rewrite <- Hid. unfold wire. by destruct e.2.
  - rewrite HR. cbn. split; [by intros [? ?]|]. by intros (l & e & ? & _).
Qed.

Lemma gtail_tick k limit offset s : (s_tick s ≤ s_tick (Gateway_Tail k limit offset s).2)%nat.
Proof.
  unfold Gateway_Tail. rewrite bind_eq. apply (tr_clock _ _ _ (steps_window k (λ b, tailOffset b limit offset))).
Qed.

(** ** The contract *)
Definition guarded_answer (C : astore) (r : http_request) : response :=
  let cid := capID (extractBearer r) in
  match parseTailQuery r with
  | Err e => errorJSON StatusBadRequest e
  | Ok (scope, limit, offset) =>
      let k := (cid +:+ ":") +:+ scope in
      let items := client_page C k scope limit offset in
      guarded_writeJSON StatusOK (GuardedTail (0 <? length items)%nat (Z.of_nat (length items)) offset
        (client_more C k limit offset) items)
  end.

Lemma guarded_spec `{TL : !TokenHashLaw} r s : store_inv s → Method r = MethodGet →
  young (guarded_handleTail r s).2 →
  let '(resp, s') := guarded_handleTail r s in
  let cid := capID (extractBearer r) in
  same_astore (content s) (content s') ∧
  (extractBearer r = ""%string ∨ ¬ holds_id (content s) tokensScope cid →
   ∃ msg, resp = errorJSON StatusUnauthorized msg) ∧
  (extractBearer r ≠ ""%string → holds_id (content s) tokensScope cid → resp = guarded_answer (content s) r).
Proof.
  intros I Hm. unfold guarded_handleTail. rewrite Hm, bool_decide_true by done. cbn [negb].
  case_bool_decide as Ht.
  { intros _. cbn. split; [done|]. split; [by eexists|done]. }
  assert (capID (extractBearer r) ≠ ""%string) as Hc.
  { intros E. pose proof (capID_length (extractBearer r)) as HL. by rewrite E in HL. }
  unfold guarded_answer. set (cid := capID (extractBearer r)) in *. rewrite !(bind_eq (Gateway_GetByID _ _)).
  pose proof (own_token s cid I Hc) as HT. destruct (Gateway_GetByID tokensScope cid s) as [res s1].
  cbn [fst snd] in HT |- *. destruct res as [it|].
  2:{ intros Y. destruct (HT Y) as (HI & HS & _). cbn. split; [done|]. split; [by eexists|].
      intros _ [? ?]%HI. done. }
  destruct (parseTailQuery r) as [[[scope limit] offset]|e] eqn:Eq.
  2:{ intros Y. destruct (HT Y) as (HI & HS & _). cbn. split; [done|]. split; [|done].
      intros [?|H]; [done|]. destruct H. by apply HI. }
  apply parse_range in Eq as [Hl Ho]. rewrite !(bind_eq (Gateway_Tail _ _ _)).
  set (k := (cid +:+ ":") +:+ scope).
  pose proof (gtail_tick k limit offset s1) as Htick.
  pose proof (own_page s1 cid scope limit offset) as HP. fold k in HP. cbv zeta in HP.
  destruct (Gateway_Tail k limit offset s1) as [[[items more] found] s2]. cbn [fst snd ret] in Htick, HP |- *.
  intros Y. assert (young s1) as Y1 by (unfold young in *; lia). destruct (HT Y1) as (HI & HS & I1).
  destruct (HP I1 Hl Ho) as (Hitems & Hmore & Hfound & HS2).
  assert (client_page (content s1) k scope limit offset = client_page (content s) k scope limit offset ∧
    client_more (content s1) k limit offset = client_more (content s) k limit offset) as [E1 E2]
    by (unfold client_page, client_more; by rewrite HS).
  split; [intros k'; by rewrite HS2, HS|]. split.
  { intros [?|H]; [done|]. destruct H. by apply HI. }
  intros _ _. rewrite Hitems, Hmore, E1, E2. do 2 f_equal.
  destruct found; [done|]. cbn [andb]. rewrite <- E1. unfold client_page. symmetry.
  destruct (content s1 k) as [l|] eqn:El; [|done].
  assert (false = true) by (apply Hfound; by eexists). done.
Qed.

(** Two tokens with different hashes never share a scope. *)
Lemma prefix_unambiguous `{TL : !TokenHashLaw} t1 t2 s1 s2 :
  (capID t1 +:+ ":") +:+ s1 = (capID t2 +:+ ":") +:+ s2 → capID t1 = capID t2 ∧ s1 = s2.
Proof.
  intros E. apply (f_equal codes) in E. rewrite !codes_app in E.
  apply app_inj_1 in E as [E E2].
  - apply app_inj_tail in E as [E _]. apply (f_equal of_codes) in E, E2. by rewrite !of_codes_codes in E, E2.
  - rewrite !length_app, !length_codes. pose proof (capID_length t1). pose proof (capID_length t2).
    unfold slen in *. lia.
Qed.
End Guarded.
