(* ===== verification/Adapters.v ===== *)
(** * caddymodule/module.go and cmd/scopecache/main.go: the two adapters

  What stands between an operator and the core: the environment variables of
  the standalone binary and the directives of the Caddy module, each turned
  into a [Config], and the request path of the module with its miss
  fall-through. What they do around the core, from the boot to the shutdown, is
  in Sockets.v, Lifecycle.v and Caddy.v; a directive block is the list of its
  lines. *)
From S2P Require Import Prelude GoStd Uuid Types Wire Validation Buffer BufferInv BufferSpec BufferRead.
From S2P Require Import Store StoreInv BufferOps StoreSpec Events StoreOps Bulk Handlers Gateway Guarded.

(** ** The environment of cmd/scopecache *)
Definition maxEnvConfigMB : Z := Z.shiftr MaxInt64 20.
Definition maxEnvConfigKB : Z := Z.shiftr MaxInt64 10.
Definition time_Second : Z := 1000000000.
Definition maxEnvConfigSec : Z := MaxInt64 / time_Second.
Definition DefaultSocketPath : string := "/run/scopecache.sock".

Section Env.
(** [os.Getenv]: the value, or "". *)
Variable Getenv : string → string.

Definition scopeMaxItemsFromEnv : Z :=
  let raw := Getenv "SCOPECACHE_SCOPE_MAX_ITEMS" in
  if bool_decide (raw = "") then ScopeMaxItems
  else match Atoi raw with
       | None => ScopeMaxItems
       | Some n => if n <=? 0 then ScopeMaxItems else n
       end.
Definition socketPathFromEnv : string :=
  let p := Getenv "SCOPECACHE_SOCKET_PATH" in
  if negb (bool_decide (p = "")) then p else DefaultSocketPath.
Definition maxStoreBytesFromEnv : Z :=
  let raw := Getenv "SCOPECACHE_MAX_STORE_MB" in
  if bool_decide (raw = "") then Z.shiftl MaxStoreMiB 20
  else match Atoi raw with
       | None => Z.shiftl MaxStoreMiB 20
       | Some n =>
           if n <=? 0 then Z.shiftl MaxStoreMiB 20
           else if maxEnvConfigMB <? n then Z.shiftl MaxStoreMiB 20
           else i64 (Z.shiftl n 20)
       end.
Definition maxItemBytesFromEnv : Z :=
  let raw := Getenv "SCOPECACHE_MAX_ITEM_MB" in
  if bool_decide (raw = "") then MaxItemBytes
  else match Atoi raw with
       | None => MaxItemBytes
       | Some n =>
           if n <=? 0 then MaxItemBytes
           else if maxEnvConfigMB <? n then MaxItemBytes
           else i64 (Z.shiftl n 20)
       end.
Definition inboxMaxItemsFromEnv : Z :=
  let raw := Getenv "SCOPECACHE_INBOX_MAX_ITEMS" in
  if bool_decide (raw = "") then 0
  else match Atoi raw with
       | None => 0
       | Some n => if n <=? 0 then 0 else n
       end.
Definition inboxMaxItemBytesFromEnv : Z :=
  let raw := Getenv "SCOPECACHE_INBOX_MAX_ITEM_KB" in
  if bool_decide (raw = "") then 0
  else match Atoi raw with
       | None => 0
       | Some n =>
           if n <=? 0 then 0
           else if maxEnvConfigKB <? n then 0
           else i64 (Z.shiftl n 10)
       end.
Definition subscriberCommandFromEnv : string := Getenv "SCOPECACHE_SUBSCRIBER_COMMAND".
Definition initCommandFromEnv : string := Getenv "SCOPECACHE_INIT_COMMAND".
(** A [time.Duration] in nanoseconds. *)
Definition initTimeoutFromEnv : Z :=
  let raw := Getenv "SCOPECACHE_INIT_TIMEOUT_SEC" in
  if bool_decide (raw = "") then 0
  else match Atoi raw with
       | None => 0
       | Some n =>
           if n <? 0 then 0
           else if maxEnvConfigSec <? n then 0
           else i64 (n * time_Second)
       end.
Definition eventsModeFromEnv : EventsMode :=
  match ParseEventsMode (Getenv "SCOPECACHE_EVENTS_MODE") with
  | Ok mode => mode
  | Err _ => EventsModeOff
  end.

(** The configuration main builds. *)
Definition main_config : Config :=
  WithDefaults (mkConfig scopeMaxItemsFromEnv maxStoreBytesFromEnv maxItemBytesFromEnv
    (mkEventsConfig eventsModeFromEnv) (mkInboxConfig inboxMaxItemsFromEnv inboxMaxItemBytesFromEnv)).
End Env.

(** ** The Caddy module's configuration *)
Record Handler := mkHandler {
  h_ScopeMaxItems : Z;
  h_MaxStoreMB : Z;
  h_MaxItemMB : Z;
  h_InboxMaxItems : Z;
  h_InboxMaxItemKB : Z;
  h_EventsMode : string;
  h_SubscriberCommand : string;
  h_InitCommand : string;
  h_InitTimeoutSec : Z;
  h_MissFallthrough : bool;
}.
#[export] Instance eta_Handler : Eta Handler := λ h,
  mkHandler (h_ScopeMaxItems h) (h_MaxStoreMB h) (h_MaxItemMB h) (h_InboxMaxItems h)
    (h_InboxMaxItemKB h) (h_EventsMode h) (h_SubscriberCommand h) (h_InitCommand h)
    (h_InitTimeoutSec h) (h_MissFallthrough h).
Definition zeroHandler : Handler := mkHandler 0 0 0 0 0 "" "" "" 0 false.

(** [strconv.ParseBool]. *)
Definition ParseBool (s : string) : option bool :=
  if bool_decide (s ∈ ["1"; "t"; "T"; "TRUE"; "true"; "True"]%string) then Some true
  else if bool_decide (s ∈ ["0"; "f"; "F"; "FALSE"; "false"; "False"]%string) then Some false
  else None.

Inductive caddy_error :=
| ArgErr
| BadEventsMode (e : parse_mode_error)
| BadBool (key : string)
| BadInt (key : string)
| Unrecognized (key : string)
| Negative (key : string) (value : Z)
| TooLargeValue (key : string) (value upper : Z).

(** One line of the block: its key and, when it has one, its value. *)
Definition directive (key : string) (value : option string) (h : Handler) : result caddy_error Handler :=
  match value with
  | None => Err ArgErr
  | Some value =>
      if bool_decide (key = "events_mode") then
        match ParseEventsMode value with
        | Err e => Err (BadEventsMode e)
        | Ok _ => Ok (h <| h_EventsMode := value |>)
        end
      else if bool_decide (key = "subscriber_command") then Ok (h <| h_SubscriberCommand := value |>)
      else if bool_decide (key = "init_command") then Ok (h <| h_InitCommand := value |>)
      else if bool_decide (key = "miss_fallthrough") then
        match ParseBool value with
        | None => Err (BadBool key)
        | Some enabled => Ok (h <| h_MissFallthrough := enabled |>)
        end
      else match Atoi value with
      | None => Err (BadInt key)
      | Some n =>
          if bool_decide (key = "scope_max_items") then Ok (h <| h_ScopeMaxItems := n |>)
          else if bool_decide (key = "max_store_mb") then Ok (h <| h_MaxStoreMB := n |>)
          else if bool_decide (key = "max_item_mb") then Ok (h <| h_MaxItemMB := n |>)
          else if bool_decide (key = "inbox_max_items") then Ok (h <| h_InboxMaxItems := n |>)
          else if bool_decide (key = "inbox_max_item_kb") then Ok (h <| h_InboxMaxItemKB := n |>)
          else if bool_decide (key = "init_timeout_sec") then Ok (h <| h_InitTimeoutSec := n |>)
          else Err (Unrecognized key)
      end
  end.
(** The directive with its arguments and block. *)
Fixpoint block_lines (lines : list (string * option string)) (h : Handler) : result caddy_error Handler :=
  match lines with
  | [] => Ok h
  | (key, value) :: lines =>
      match directive key value h with
      | Err e => Err e
      | Ok h => block_lines lines h
      end
  end.
Definition UnmarshalCaddyfile (args : list string) (lines : list (string * option string)) (h : Handler)
    : result caddy_error Handler :=
  if (0 <? length args)%nat then Err ArgErr else block_lines lines h.

Definition maxConfigMB : Z := Z.shiftr MaxInt64 20.
Definition maxConfigKB : Z := Z.shiftr MaxInt64 10.
Definition maxConfigSec : Z := Z.quot MaxInt64 time_Second.

Definition config_rows (h : Handler) : list (string * Z * Z) :=
  [("scope_max_items", h_ScopeMaxItems h, 0); ("max_store_mb", h_MaxStoreMB h, maxConfigMB);
   ("max_item_mb", h_MaxItemMB h, maxConfigMB); ("inbox_max_items", h_InboxMaxItems h, 0);
   ("inbox_max_item_kb", h_InboxMaxItemKB h, maxConfigKB);
   ("init_timeout_sec", h_InitTimeoutSec h, maxConfigSec)]%string.
Fixpoint check_rows (rows : list (string * Z * Z)) : option caddy_error :=
  match rows with
  | [] => None
  | (key, value, upper) :: rows =>
      if value <? 0 then Some (Negative key value)
      else if (0 <? upper) && (upper <? value) then Some (TooLargeValue key value upper)
      else check_rows rows
  end.
Definition validateConfig (h : Handler) : result caddy_error unit :=
  match check_rows (config_rows h) with
  | Some e => Err e
  | None =>
      match ParseEventsMode (h_EventsMode h) with
      | Err e => Err (BadEventsMode e)
      | Ok _ => Ok tt
      end
  end.

(** The part of Provision that configures the core. *)
Definition provision_config (h : Handler) : result caddy_error Config :=
  match validateConfig h with
  | Err e => Err e
  | Ok _ =>
      match ParseEventsMode (h_EventsMode h) with
      | Err e => Err (BadEventsMode e)
      | Ok mode =>
          Ok (mkConfig (h_ScopeMaxItems h) (i64 (Z.shiftl (h_MaxStoreMB h) 20))
            (i64 (Z.shiftl (h_MaxItemMB h) 20)) (mkEventsConfig mode)
            (mkInboxConfig (h_InboxMaxItems h) (i64 (Z.shiftl (h_InboxMaxItemKB h) 10))))
      end
  end.

(** ** The request path of the Caddy module *)
Section Serve.
Context `{Env} `{Caps} `{ScopeHash} `{EventMarshal} `{Decoders} `{RespMarshal} `{TokenHash} `{GuardedMarshal}.

(** The mux of Provision: the core routes and the addon's. *)
Definition mux (path : string) : option (http_request → SM response) :=
  match RegisterRoutes path with
  | Some e => Some (serve e)
  | None => if bool_decide (path = "/guarded-tail") then Some guarded_handleTail else None
  end.

Definition maxFallthroughBodyBytes : Z := Z.shiftl 8 20.
Definition with_body (body : string) (r : http_request) : http_request :=
  mkrequest (Method r) (Query r) (Authorization r) body.
(** The headers dropped before the next handler runs are those of the recorded
    response, which is not sent. *)
Definition ServeHTTP (MissFallthrough : bool) (path : string) (r : http_request)
    (next : http_request → SM response) : SM response :=
  match mux path with
  | None => next r
  | Some handler =>
      if negb MissFallthrough then handler r
      else if bool_decide (Method r = MethodPost) && (maxFallthroughBodyBytes <? slen (ReqBody r))
      then handler (with_body (of_codes (take (Z.to_nat maxFallthroughBodyBytes) (codes (ReqBody r)))) r)
      else
        let* resp := handler r in
        if negb (miss resp) then ret resp else next r
  end.
End Serve.
