(* ===== verification/AdaptersSpec.v ===== *)
(** * The adapters: exact caps from any configuration, and a safe fall-through *)
From S2P Require Import Prelude GoStd Uuid Types Wire Validation Buffer BufferInv BufferSpec BufferRead.
From S2P Require Import Store StoreInv BufferOps StoreSpec Events StoreOps Steps Bulk BulkSpec RebuildSpec.
From S2P Require Import WarmSpec OpsSteps EventsSpec Refine RefineOps RefineBulk Simulation.
From S2P Require Import Handlers HandlersSpec Gateway Guarded Adapters.

(** ** Unit conversions *)
Lemma shift_exact n k : 0 ≤ k ≤ 62 → 0 ≤ n ≤ Z.shiftr MaxInt64 k →
  i64 (Z.shiftl n k) = n * 2 ^ k ∧ 0 ≤ n * 2 ^ k ≤ MaxInt64.
Proof.
  intros Hk [H0 H1]. rewrite Z.shiftr_div_pow2 in H1 by lia. rewrite Z.shiftl_mul_pow2 by lia.
  assert (0 < 2 ^ k) as Hp by (apply Z.pow_pos_nonneg; lia).
  assert (n * 2 ^ k ≤ MaxInt64) as Hb.
  { transitivity (MaxInt64 / 2 ^ k * 2 ^ k); [nia|]. rewrite Z.mul_comm. by apply Z.mul_div_le. }
  assert (0 ≤ n * 2 ^ k) by nia. split; [|done]. apply i64_id. unfold in_i64, MinInt64 in *. lia.
Qed.

(** ** The environment *)
(** A size variable: [n] units of [2 ^ k] bytes, or the default. *)
Definition env_size (raw : string) (k dflt : Z) : Z :=
  match Atoi raw with
  | Some n => if (0 <? n) && (n <=? Z.shiftr MaxInt64 k) then n * 2 ^ k else dflt
  | None => dflt
  end.
Definition env_count (raw : string) (dflt : Z) : Z :=
  match Atoi raw with
  | Some n => if 0 <? n then n else dflt
  | None => dflt
  end.

Ltac env_cases :=
  repeat (case_bool_decide || case_match); simplify_eq;
  rewrite ?andb_true_iff, ?andb_false_iff, ?Z.leb_le, ?Z.leb_gt, ?Z.ltb_lt, ?Z.ltb_ge in *; try done; try lia.

Section EnvSpec.
Variable Getenv : string → string.

Lemma size_spec raw k dflt : 0 ≤ k ≤ 62 →
  (if bool_decide (raw = ""%string) then dflt
   else match Atoi raw with
        | None => dflt
        | Some n => if n <=? 0 then dflt else if Z.shiftr MaxInt64 k <? n then dflt else i64 (Z.shiftl n k)
        end) = env_size raw k dflt.
Proof.
  intros Hk. unfold env_size. case_bool_decide as E; [by rewrite E|].
  destruct (Atoi raw) as [n|]; [|done]. destruct (Z.leb_spec n 0), (Z.ltb_spec 0 n); try done; try lia.
  cbn [andb]. destruct (Z.ltb_spec (Z.shiftr MaxInt64 k) n), (Z.leb_spec n (Z.shiftr MaxInt64 k)); try done; try lia.
  by apply shift_exact; lia.
Qed.
Lemma count_spec raw dflt :
  (if bool_decide (raw = ""%string) then dflt
   else match Atoi raw with None => dflt | Some n => if n <=? 0 then dflt else n end) = env_count raw dflt.
Proof.
  unfold env_count. case_bool_decide as E; [by rewrite E|]. destruct (Atoi raw) as [n|]; [|done].
  destruct (Z.leb_spec n 0), (Z.ltb_spec 0 n); try done; lia.
Qed.

Lemma env_parsers :
  scopeMaxItemsFromEnv Getenv = env_count (Getenv "SCOPECACHE_SCOPE_MAX_ITEMS") ScopeMaxItems ∧
  maxStoreBytesFromEnv Getenv = env_size (Getenv "SCOPECACHE_MAX_STORE_MB") 20 (MaxStoreMiB * 2 ^ 20) ∧
  maxItemBytesFromEnv Getenv = env_size (Getenv "SCOPECACHE_MAX_ITEM_MB") 20 MaxItemBytes ∧
  inboxMaxItemsFromEnv Getenv = env_count (Getenv "SCOPECACHE_INBOX_MAX_ITEMS") 0 ∧
  inboxMaxItemBytesFromEnv Getenv = env_size (Getenv "SCOPECACHE_INBOX_MAX_ITEM_KB") 10 0.
Proof.
  split; [apply count_spec|]. split; [by apply (size_spec _ 20)|]. split; [by apply (size_spec _ 20)|].
  split; [apply count_spec|by apply (size_spec _ 10)].
Qed.

Lemma timeout_spec : initTimeoutFromEnv Getenv =
  match Atoi (Getenv "SCOPECACHE_INIT_TIMEOUT_SEC") with
  | Some n => if (0 <=? n) && (n * time_Second <=? MaxInt64) then n * time_Second else 0
  | None => 0
  end.
Proof.
  unfold initTimeoutFromEnv. set (raw := Getenv _). case_bool_decide as E; [by rewrite E|].
  destruct (Atoi raw) as [n|]; [|done]. unfold maxEnvConfigSec, time_Second.
  destruct (Z.ltb_spec n 0), (Z.leb_spec 0 n); try done; try lia. cbn [andb].
  change (MaxInt64 / 1000000000) with 9223372036.
  destruct (Z.ltb_spec 9223372036 n), (Z.leb_spec (n * 1000000000) MaxInt64); try done; unfold MaxInt64 in *; try lia.
  apply i64_id. unfold in_i64, MinInt64, MaxInt64. lia.
Qed.
End EnvSpec.

(** ** Caps of a configuration *)
Lemma size_range raw k dflt : 0 ≤ k ≤ 62 → dflt ≤ MaxInt64 → env_size raw k dflt ≤ MaxInt64.
Proof.
  intros Hk Hd. unfold env_size. destruct (Atoi raw) as [n|]; [|done].
  destruct (Z.ltb_spec 0 n); [|done]. destruct (Z.leb_spec n (Z.shiftr MaxInt64 k)); [|done].
  by apply shift_exact; lia.
Qed.

(** Filling in the defaults keeps a representable cap representable. *)
Lemma caps_of_ok c : Config_MaxStoreBytes c ≤ MaxInt64 → Config_MaxItemBytes c ≤ MaxInt64 →
  @CapsOk (caps_of c).
Proof.
  intros H1 H2. pose proof (WithDefaults_valid c) as (Ha & Hb & Hc & _).
  assert (Config_MaxStoreBytes (WithDefaults c) ≤ MaxInt64 ∧ Config_MaxItemBytes (WithDefaults c) ≤ MaxInt64) as [? ?].
  { rewrite WithDefaults_eq. cbn. change reservedScopesOverhead with 2048.
    change (Z.shiftl MaxStoreMiB 20) with 104857600. change MaxItemBytes with 1048576.
    unfold MaxInt64 in *. split; ztests; lia. }
  constructor; unfold caps_of, maxStoreBytes, defaultMaxItems, maxItemBytes in *; cbn; done.
Qed.

Lemma caps_of_defaults c : caps_of (WithDefaults c) = caps_of c.
Proof. unfold caps_of. by rewrite (WithDefaults_id (WithDefaults c)) by apply WithDefaults_valid. Qed.

(** The configuration of the standalone binary, variable by variable. *)
Definition env_mode (raw : string) : EventsMode :=
  match ParseEventsMode raw with Ok m => m | Err _ => EventsModeOff end.
Definition env_config (Getenv : string → string) : Config :=
  let items := env_count (Getenv "SCOPECACHE_SCOPE_MAX_ITEMS") ScopeMaxItems in
  mkConfig items (env_size (Getenv "SCOPECACHE_MAX_STORE_MB") 20 (MaxStoreMiB * 2 ^ 20))
    (env_size (Getenv "SCOPECACHE_MAX_ITEM_MB") 20 MaxItemBytes)
    (mkEventsConfig (env_mode (Getenv "SCOPECACHE_EVENTS_MODE")))
    (mkInboxConfig (env_count (Getenv "SCOPECACHE_INBOX_MAX_ITEMS") items)
      (env_size (Getenv "SCOPECACHE_INBOX_MAX_ITEM_KB") 10 InboxMaxItemBytes)).

Lemma size_pos raw k dflt : 0 ≤ k ≤ 62 → env_size raw k dflt = dflt ∨ 2 ^ k ≤ env_size raw k dflt.
Proof.
  intros Hk. unfold env_size. destruct (Atoi raw) as [n|]; [|by left].
  destruct (Z.ltb_spec 0 n); [|by left]. destruct (Z.leb_spec n (Z.shiftr MaxInt64 k)); [|by left]. right.
  cbn [andb]. assert (0 < 2 ^ k) by (apply Z.pow_pos_nonneg; lia). nia.
Qed.
Lemma size_default raw k dflt : 0 ≤ k ≤ 62 →
  (if env_size raw k 0 <=? 0 then dflt else env_size raw k 0) = env_size raw k dflt.
Proof.
  intros Hk. unfold env_size. assert (0 < 2 ^ k) by (apply Z.pow_pos_nonneg; lia).
  destruct (Atoi raw) as [n|]; [|done]. destruct (Z.ltb_spec 0 n); [|done].
  destruct (Z.leb_spec n (Z.shiftr MaxInt64 k)); [|done]. cbn [andb].
  destruct (Z.leb_spec (n * 2 ^ k) 0); [nia|done].
Qed.
Lemma count_default raw dflt :
  (if env_count raw 0 <=? 0 then dflt else env_count raw 0) = env_count raw dflt.
Proof.
  unfold env_count. destruct (Atoi raw) as [n|]; [|done]. destruct (Z.ltb_spec 0 n); [|done].
  destruct (Z.leb_spec n 0); [lia|done].
Qed.
Lemma count_pos raw dflt : 0 < dflt → 0 < env_count raw dflt.
Proof. unfold env_count. destruct (Atoi raw) as [n|]; [|done]. by destruct (Z.ltb_spec 0 n). Qed.
Lemma mode_known raw : (env_mode raw =? EventsModeOff) || (env_mode raw =? EventsModeNotify)
  || (env_mode raw =? EventsModeFull) = true.
Proof. unfold env_mode, ParseEventsMode. repeat case_match; by simplify_eq. Qed.

Lemma main_config_spec Getenv : main_config Getenv = env_config Getenv.
Proof.
  destruct (env_parsers Getenv) as (E1 & E2 & E3 & E4 & E5). unfold main_config.
  rewrite E1, E2, E3, E4, E5, WithDefaults_eq. cbn [Config_ScopeMaxItems Config_MaxStoreBytes
    Config_MaxItemBytes Events Inbox Mode Inbox_MaxItems Inbox_MaxItemBytes].
  change (eventsModeFromEnv Getenv) with (env_mode (Getenv "SCOPECACHE_EVENTS_MODE")).
  rewrite mode_known, size_default, count_default by lia. unfold env_config.
  pose proof (count_pos (Getenv "SCOPECACHE_SCOPE_MAX_ITEMS") ScopeMaxItems ltac:(done)) as H1.
  pose proof (size_pos (Getenv "SCOPECACHE_MAX_STORE_MB") 20 (MaxStoreMiB * 2 ^ 20) ltac:(done)) as H2.
  pose proof (size_pos (Getenv "SCOPECACHE_MAX_ITEM_MB") 20 MaxItemBytes ltac:(done)) as H3.
  change reservedScopesOverhead with 2048. change (2 ^ 20) with 1048576 in *.
  change (MaxStoreMiB * 1048576) with 104857600 in *. change MaxItemBytes with 1048576 in *.
  rewrite (proj2 (Z.leb_gt _ 0) H1), (proj2 (Z.leb_gt (env_size _ 20 104857600) 0)),
    (proj2 (Z.ltb_ge (env_size _ 20 104857600) 2048)), (proj2 (Z.leb_gt (env_size _ 20 1048576) 0)) by lia.
  done.
Qed.
Lemma main_caps Getenv : @CapsOk (caps_of (main_config Getenv)).
Proof. rewrite main_config_spec. by apply caps_of_ok; apply size_range. Qed.

(** ** The Caddy module *)
Record config_ok (h : Handler) : Prop := {
  cf_items : 0 ≤ h_ScopeMaxItems h;
  cf_store : 0 ≤ h_MaxStoreMB h ≤ maxConfigMB;
  cf_item : 0 ≤ h_MaxItemMB h ≤ maxConfigMB;
  cf_inbox : 0 ≤ h_InboxMaxItems h;
  cf_inbox_item : 0 ≤ h_InboxMaxItemKB h ≤ maxConfigKB;
  cf_timeout : 0 ≤ h_InitTimeoutSec h ≤ maxConfigSec;
}.

Definition row_ok (row : string * Z * Z) : Prop :=
  let '(_, value, upper) := row in 0 ≤ value ∧ (0 < upper → value ≤ upper).
Lemma check_rows_spec rows : check_rows rows = None ↔ Forall row_ok rows.
Proof.
  induction rows as [|[[key v] u] rows IH]; [done|]. cbn [check_rows]. rewrite Forall_cons, <- IH. cbn.
  destruct (Z.ltb_spec v 0); [split; [done|lia]|].
  destruct (Z.ltb_spec 0 u), (Z.ltb_spec u v); cbn [andb]; (split; [try done|]); intuition (try done; try lia).
Qed.
Lemma config_rows_ok h : Forall row_ok (config_rows h) ↔ config_ok h.
Proof.
  unfold config_rows, row_ok. rewrite !Forall_cons, Forall_nil.
  assert (0 < maxConfigMB ∧ 0 < maxConfigKB ∧ 0 < maxConfigSec) as (? & ? & ?) by done.
  split; [intros HR; constructor|intros []]; repeat split; try lia.
Qed.
Lemma validateConfig_spec h m : ParseEventsMode (h_EventsMode h) = Ok m →
  (validateConfig h = Ok tt ↔ config_ok h).
Proof.
  intros Em. unfold validateConfig. rewrite <- config_rows_ok, <- check_rows_spec, Em.
  by destruct (check_rows _).
Qed.

(** The configuration Provision hands to the core. *)
Definition caddy_config (h : Handler) (m : EventsMode) : Config :=
  mkConfig (h_ScopeMaxItems h) (h_MaxStoreMB h * 2 ^ 20) (h_MaxItemMB h * 2 ^ 20) (mkEventsConfig m)
    (mkInboxConfig (h_InboxMaxItems h) (h_InboxMaxItemKB h * 2 ^ 10)).
Lemma caddy_bytes h : config_ok h →
  i64 (Z.shiftl (h_MaxStoreMB h) 20) = h_MaxStoreMB h * 2 ^ 20 ∧
  i64 (Z.shiftl (h_MaxItemMB h) 20) = h_MaxItemMB h * 2 ^ 20 ∧
  i64 (Z.shiftl (h_InboxMaxItemKB h) 10) = h_InboxMaxItemKB h * 2 ^ 10.
Proof.
  intros K. repeat split.
  - by apply (shift_exact _ 20), (cf_store _ K). - by apply (shift_exact _ 20), (cf_item _ K).
  - by apply (shift_exact _ 10), (cf_inbox_item _ K).
Qed.
Lemma provision_spec h cfg : provision_config h = Ok cfg ↔
  config_ok h ∧ ∃ m, ParseEventsMode (h_EventsMode h) = Ok m ∧ cfg = caddy_config h m.
Proof.
  unfold provision_config. destruct (ParseEventsMode (h_EventsMode h)) as [m|e] eqn:Em.
  - pose proof (validateConfig_spec h m Em) as V. destruct (validateConfig h) as [[]|e].
    + pose proof (proj1 V eq_refl) as K. destruct (caddy_bytes h K) as (-> & -> & ->).
      unfold caddy_config. split; [intros [= <-]; split; [done|by exists m]|].
      by intros (_ & m' & [= <-] & ->).
    + split; [done|]. intros [K%V _]. done.
  - split; [|by intros (_ & m & ? & _)]. by destruct (validateConfig h).
Qed.
Lemma provision_caps h cfg : provision_config h = Ok cfg → @CapsOk (caps_of cfg).
Proof.
  intros (K & m & _ & ->)%provision_spec. apply caps_of_ok; cbn;
    [apply (shift_exact _ 20)|apply (shift_exact _ 20)]; try done; apply K.
Qed.

(** ** The directives *)
(** The last value given for [key]. *)
Fixpoint last_value (key : string) (lines : list (string * option string)) : option string :=
  match lines with
  | [] => None
  | (k, v) :: lines =>
      match last_value key lines with
      | Some x => Some x
      | None => if bool_decide (k = key) then v else None
      end
  end.
Definition last_int (key : string) (lines : list (string * option string)) (dflt : Z) : Z :=
  default dflt (last_value key lines ≫= Atoi).
Definition last_string (key : string) (lines : list (string * option string)) (dflt : string) : string :=
  default dflt (last_value key lines).
Definition last_bool (key : string) (lines : list (string * option string)) (dflt : bool) : bool :=
  default dflt (last_value key lines ≫= ParseBool).

(** The handler the lines describe. *)
Definition described (lines : list (string * option string)) (h : Handler) : Handler :=
  mkHandler (last_int "scope_max_items" lines (h_ScopeMaxItems h))
    (last_int "max_store_mb" lines (h_MaxStoreMB h)) (last_int "max_item_mb" lines (h_MaxItemMB h))
    (last_int "inbox_max_items" lines (h_InboxMaxItems h))
    (last_int "inbox_max_item_kb" lines (h_InboxMaxItemKB h))
    (last_string "events_mode" lines (h_EventsMode h))
    (last_string "subscriber_command" lines (h_SubscriberCommand h))
    (last_string "init_command" lines (h_InitCommand h))
    (last_int "init_timeout_sec" lines (h_InitTimeoutSec h))
    (last_bool "miss_fallthrough" lines (h_MissFallthrough h)).

(** One line: its field is set, the others stay. *)
Definition directive_keys : list string :=
  ["events_mode"; "subscriber_command"; "init_command"; "miss_fallthrough"; "scope_max_items"; "max_store_mb";
   "max_item_mb"; "inbox_max_items"; "inbox_max_item_kb"; "init_timeout_sec"]%string.
Definition value_ok (key value : string) : Prop :=
  if bool_decide (key = "events_mode"%string) then ∃ m, ParseEventsMode value = Ok m
  else if bool_decide (key ∈ ["subscriber_command"; "init_command"]%string) then True
  else if bool_decide (key = "miss_fallthrough"%string) then is_Some (ParseBool value)
  else is_Some (Atoi value).


Lemma last_value_cons key k v lines : last_value key ((k, v) :: lines) =
  match last_value key lines with Some x => Some x | None => if bool_decide (k = key) then v else None end.
Proof. done. Qed.
Lemma described_nil h : described [] h = h.
Proof. by destruct h. Qed.

(** One key of the switch: the line's is [k], or the switch goes on. *)
Ltac known_key :=
  repeat first [rewrite bool_decide_true by done|rewrite bool_decide_false by done].
Ltac case_key k :=
  match goal with |- context [bool_decide (?key = k)] =>
    let Hk := fresh "Hk" in destruct (decide (key = k)) as [-> | Hk];
    [known_key|rewrite !(bool_decide_false (key = k)) by done] end.

Lemma is_key n key : directive_keys !! n = Some key → key ∈ directive_keys.
Proof. apply list_elem_of_lookup_2. Qed.

Lemma directive_spec key v h h' : directive key v h = Ok h' →
  key ∈ directive_keys ∧ (∃ value, v = Some value ∧ value_ok key value) ∧ h' = described [(key, v)] h.
Proof.
  destruct v as [value|]; [|done]. unfold directive, value_ok, described, last_int, last_string, last_bool.
  cbn [last_value].
  case_key "events_mode"%string.
  { destruct (ParseEventsMode value) as [m|] eqn:E; [|done]. intros [= <-].
    split; [by apply (is_key 0)|]. split; [|done]. exists value. split; [done|]. by exists m. }
  case_key "subscriber_command"%string.
  { intros [= <-]. split; [by apply (is_key 1)|]. split; [by exists value|done]. }
  case_key "init_command"%string.
  { intros [= <-]. split; [by apply (is_key 2)|]. split; [by exists value|done]. }
  case_key "miss_fallthrough"%string.
  { destruct (ParseBool value) as [m|] eqn:E; [|done]. intros [= <-].
    split; [by apply (is_key 3)|]. split; [exists value; split; [done|by eexists]|]. cbn. by rewrite E. }
  destruct (Atoi value) as [n|] eqn:E; [|done].
  rewrite (bool_decide_false (key ∈ ["subscriber_command"; "init_command"]%string)) by set_solver.
  case_key "scope_max_items"%string; [|case_key "max_store_mb"%string; [|case_key "max_item_mb"%string;
    [|case_key "inbox_max_items"%string; [|case_key "inbox_max_item_kb"%string;
    [|case_key "init_timeout_sec"%string; [|done]]]]]].
  all: intros [= <-].
  - split; [by apply (is_key 4)|]. split; [by exists value|]. cbn. by rewrite E.
  - split; [by apply (is_key 5)|]. split; [by exists value|]. cbn. by rewrite E.
  - split; [by apply (is_key 6)|]. split; [by exists value|]. cbn. by rewrite E.
  - split; [by apply (is_key 7)|]. split; [by exists value|]. cbn. by rewrite E.
  - split; [by apply (is_key 8)|]. split; [by exists value|]. cbn. by rewrite E.
  - split; [by apply (is_key 9)|]. split; [by exists value|]. cbn. by rewrite E.
Qed.

(** A line the parser accepts. *)
Definition line_ok (l : string * option string) : Prop :=
  l.1 ∈ directive_keys ∧ ∃ value, l.2 = Some value ∧ value_ok l.1 value.

Lemma directive_total l h : line_ok l → ∃ h', directive l.1 l.2 h = Ok h'.
Proof.
  destruct l as [key v]. intros [Hk (value & Hv & K)]. cbn [fst snd] in *. subst v. unfold directive.
  unfold directive_keys, value_ok in *. rewrite !elem_of_cons in Hk.
  destruct Hk as [->|[->|[->|[->|[->|[->|[->|[->|[->|[->|[]%elem_of_nil]]]]]]]]]].
  all: revert K; known_key; cbn [bool_decide].
  1: intros [m ->]; by eexists.
  1-2: by eexists.
  1: intros [m ->]; by eexists.
  all: intros [n ->]; by eexists.
Qed.

Lemma last_value_in key lines x : last_value key lines = Some x → (key, Some x) ∈ lines.
Proof.
  induction lines as [|[k v] lines IH]; [done|]. rewrite last_value_cons, elem_of_cons.
  destruct (last_value key lines) as [y|]; [intros [= ->]; right; by apply IH|].
  case_bool_decide as E; [|done]. intros ->. left. by subst.
Qed.
Lemma last_value_ok key lines x : Forall line_ok lines → last_value key lines = Some x → value_ok key x.
Proof. intros F Hx%last_value_in. rewrite Forall_forall in F. by destruct (F _ Hx) as [_ (? & [= <-] & ?)]. Qed.

Lemma described_cons l lines h : Forall line_ok lines →
  described (l :: lines) h = described lines (described [l] h).
Proof.
  intros F. destruct l as [k v]. destruct h. unfold described, last_int, last_string, last_bool. cbn -[last_value].
  rewrite !last_value_cons. cbn [last_value].
  f_equal; match goal with |- context [last_value ?key lines] =>
    pose proof (last_value_ok key lines) as K; destruct (last_value key lines) as [x|]; [|done];
    specialize (K x F eq_refl); unfold value_ok in K; revert K; known_key; cbn [mbind option_bind default]; unfold default, from_option, id;
    first [done|by intros [n ->]] end.
Qed.

Lemma block_spec lines h h' : block_lines lines h = Ok h' ↔ Forall line_ok lines ∧ h' = described lines h.
Proof.
  revert h. induction lines as [|[key v] lines IH]; intros h.
  { rewrite described_nil. cbn. split; [by intros [= ->]|by intros [_ ->]]. }
  cbn [block_lines]. rewrite Forall_cons. split.
  - destruct (directive key v h) as [h1|] eqn:E; [|done]. apply directive_spec in E as (Hk & Hv & ->).
    intros [F ->]%IH. split; [by repeat split|]. symmetry. by apply described_cons.
  - intros [[K F] ->]. destruct (directive_total (key, v) h K) as [h1 E]. cbn [fst snd] in E. rewrite E.
    apply directive_spec in E as (_ & _ & ->). apply IH. split; [done|]. by apply described_cons.
Qed.
Lemma unmarshal_spec args lines h h' : UnmarshalCaddyfile args lines h = Ok h' ↔
  args = [] ∧ Forall line_ok lines ∧ h' = described lines h.
Proof.
  unfold UnmarshalCaddyfile. rewrite <- block_spec. destruct args; cbn; [tauto|]. split; [done|by intros [? _]].
Qed.

(** ** The miss fall-through *)
Section Fallthrough.
Context `{EV : Env} `{CP : Caps} `{SH : ScopeHash} `{EM : EventMarshal} `{DE : Decoders} `{RM : RespMarshal}.
Context `{TH : TokenHash} `{GM : GuardedMarshal} `{CO : !CapsOk} `{DL : !DecodeLaw}.

(** Equal content outside the event log. *)
Definition same_data (C C' : astore) : Prop := ∀ k, k ≠ EventsScopeName → C k = C' k.

Lemma missed_op k (R : list aitem → Z → list aitem → Prop) (m : SM (result error Z)) s :
  store_inv s → (∀ l l', R l 0 l' → l' = l) → written_in k 0 R s (m s) →
  (m s).1 = Ok 0 → same_data (content s) (content (m s).2).
Proof.
  intros I HR. unfold written_in, written. destruct (content s k) as [l|] eqn:E.
  - destruct (m s) as [[n|e] s']; [|done]. cbn. intros [_ (l' & Hl & Hr) Ho] [= ->] k' Hk'.
    rewrite E in Hr. cbn in Hr. apply HR in Hr as ->. destruct (decide (k' = k)) as [->|Hne]; [congruence|].
    symmetry. by apply Ho.
  - by intros [-> | [e ->]].
Qed.
Lemma update_zero U ad p l l' : update_rel U ad p l 0 l' → l' = l.
Proof. intros [(_ & ? & _)|[? _]]; [done|lia]. Qed.
Lemma delete_zero U ad l l' : delete_rel U ad l 0 l' → l' = l.
Proof. intros [(_ & ? & _)|[? _]]; [done|lia]. Qed.
Lemma miss_json c r : miss (writeJSONResponse c r) = false.
Proof. unfold writeJSONResponse. by destruct (jsonMarshal_resp r). Qed.

(** The update and delete handlers: marked a miss exactly when nothing matched. *)
Lemma missed_write (m : SM (result error Z)) (on_err : error → response) (on_ok : Z → response) s :
  (∀ e, miss (on_err e) = false) →
  ((m s).1 = Ok 0 → same_data (content s) (content (m s).2)) →
  let o := (let* res := m in ret (match res with
    | Err e => on_err e | Ok n => with_miss (n =? 0) (on_ok n) end)) s in
  miss o.1 = true → same_data (content s) (content o.2).
Proof.
  intros He Hz o. subst o. rewrite bind_eq. destruct (m s) as [[n|e] s']; cbn [fst snd ret] in *.
  - cbn. intros ->%Z.eqb_eq. by apply Hz.
  - by rewrite He.
Qed.
Lemma miss_mutation e k : miss (writeMutationError e k) = false.
Proof.
  unfold writeMutationError, writeStoreCapacityError. destruct (is_invalid_input e); [apply miss_json|].
  destruct (unwrapped e); apply miss_json.
Qed.
Lemma miss_counter e k : miss (writeCounterError e k) = false.
Proof.
  unfold writeCounterError, writeStoreCapacityError. destruct (is_invalid_input e); [apply miss_json|].
  destruct (unwrapped e); apply miss_json.
Qed.
Lemma miss_delete e : miss (writeDeleteError e) = false.
Proof. unfold writeDeleteError. destruct (is_invalid_input e); apply miss_json. Qed.

Lemma update_missed r s : store_inv s → young (handleUpdate r s).2 →
  miss (handleUpdate r s).1 = true → same_data (content s) (content (handleUpdate r s).2).
Proof.
  intros I. unfold handleUpdate. destruct (negb _); [done|].
  destruct (decodeBody _ _ _) as [it|] eqn:D; [|done]. apply decoded_item in D.
  intros Y%young_op. apply missed_write; [intros e; apply miss_mutation|].
  apply (missed_op (Scope it) (update_rel (uuids_indexed s (Scope it)) (item_address it) (Payload it))); [done|apply update_zero|].
  by apply updateOne_edit.
Qed.
Lemma delete_missed r s : store_inv s → young (handleDelete r s).2 →
  miss (handleDelete r s).1 = true → same_data (content s) (content (handleDelete r s).2).
Proof.
  intros I. unfold handleDelete. destruct (negb _); [done|].
  destruct (decodeBody _ _ _) as [q|] eqn:D; [|done].
  intros Y%young_op. apply missed_write; [apply miss_delete|].
  apply (missed_op (del_Scope q) (delete_rel (uuids_indexed s (del_Scope q)) (request_address (del_ID q) (del_Seq q) (del_UUID q))));
    [done|apply delete_zero|]. by apply deleteOne_edit.
Qed.

(** The reads change no content at all. *)
Definition is_read (e : endpoint) : bool :=
  match e with EHead | ETail | EGet | ERender | EStats | EScopeList | EHelp => true | _ => false end.
Lemma read_then {A} (m : SM A) (f : A → response) s : same_astore (content s) (content (m s).2) →
  same_astore (content s) (content ((let* x := m in ret (f x)) s).2).
Proof. by rewrite bind_eq. Qed.
Lemma read_window_then {A B C} (m : SM (A * B * C)) (f : A → B → C → response) s :
  same_astore (content s) (content (m s).2) →
  same_astore (content s) (content ((let* x := m in let '(a, b, c) := x in ret (f a b c)) s).2).
Proof. intros H. rewrite bind_eq. by destruct (m s) as [[[a b] c] s']. Qed.

Lemma read_content e r s : is_read e = true → store_inv s →
  same_astore (content s) (content (serve e r s).2).
Proof.
  intros He I. destruct e; try done; cbn [serve].
  - unfold handleHead. destruct (negb _); [done|]. destruct (parseScopeLimit _ _) as [q|]; [|done].
    destruct (query_Has _ _); [done|]. cbv zeta. destruct (if negb _ then _ else _); [|done].
    apply (read_window_then _ (λ _ _ _, _)). by apply window_content.
  - unfold handleTail. destruct (negb _); [done|]. destruct (parseScopeLimit _ _) as [q|]; [|done].
    destruct (normalizeOffset _); [|done]. apply (read_window_then _ (λ _ _ _, _)). by apply window_content.
  - unfold handleGet. destruct (negb _); [done|]. destruct (parseLookupTarget _ _) as [t|]; [|done].
    apply (read_then _ (λ x, _)), target_same. intros. by apply get_same.
  - unfold handleRender. destruct (negb _); [done|]. destruct (parseLookupTarget _ _) as [t|]; [|done].
    apply (read_then _ (λ x, _)), target_same. intros. rewrite render_run. by apply get_same.
  - unfold handleStats. by destruct (negb _).
  - unfold handleScopeList. destruct (negb _); [done|]. cbv zeta. destruct (check _ _); [|done].
    rewrite bind_eq. cbn [fst snd get]. by destruct (scopeList _ _ _ _).
Qed.

(** Writes other than update and delete never answer with the marker. *)
Definition may_miss (e : endpoint) : bool :=
  is_read e || match e with EUpdate | EDelete => true | _ => false end.
Ltac split_result :=
  rewrite ?bind_eq; cbn [fst snd ret];
  match goal with
  | |- context [match ?d with Ok _ => _ | Err _ => _ end] => destruct d as [?|?]
  | |- context [match ?d with Some _ => _ | None => _ end] => destruct d as [?|]
  | |- context [let '(_, _) := ?d in _] => destruct d as [? ?]
  | |- context [if ?d then _ else _] => destruct d
  end.
Lemma never_missed e r s : may_miss e = false → miss (serve e r s).1 = false.
Proof.
  intros He. destruct e; try done; cbn [serve];
  unfold handleAppend, handleUpsert, handleCounterAdd, handleDeleteUpTo, handleDeleteScope, handleWipe,
    handleWarm, handleRebuild; cbv zeta.
  all: repeat split_result; unfold badRequest, methodNotAllowed; cbn [fst snd ret with_allow miss];
    rewrite ?miss_json, ?miss_mutation, ?miss_counter, ?miss_delete; done.
Qed.

(** A response with the marker comes from a request that changed no data. *)
Lemma serve_missed e r s : store_inv s → young (serve e r s).2 →
  miss (serve e r s).1 = true → same_data (content s) (content (serve e r s).2).
Proof.
  intros I Y Hm. destruct (is_read e) eqn:He.
  { intros k _. symmetry. by apply read_content. }
  destruct (may_miss e) eqn:Hy; [|by rewrite never_missed in Hm].
  destruct e; try done; [by apply update_missed|by apply delete_missed].
Qed.
Lemma guarded_never_missed r s : miss (guarded_handleTail r s).1 = false.
Proof.
  assert (∀ c g, miss (guarded_writeJSON c g) = false) as Hg
    by (intros c g; unfold guarded_writeJSON; by destruct (marshal_guarded g)).
  unfold guarded_handleTail. repeat split_result; unfold errorJSON; cbn [fst snd ret with_allow miss];
    rewrite ?Hg; done.
Qed.

(** What the core is given: with miss_fallthrough a POST body is buffered for a
    replay, and one that does not fit is cut. *)
Definition oversize (r : http_request) : bool :=
  bool_decide (Method r = MethodPost) && (maxFallthroughBodyBytes <? slen (ReqBody r)).
Definition cut_body (r : http_request) : http_request :=
  with_body (of_codes (take (Z.to_nat maxFallthroughBodyBytes) (codes (ReqBody r)))) r.
Definition core_request (mf : bool) (r : http_request) : http_request :=
  if mf && oversize r then cut_body r else r.

Lemma ServeHTTP_split mf path r next s handler : mux path = Some handler →
  ServeHTTP mf path r next s =
    let '(resp, s1) := handler (core_request mf r) s in
    if mf && negb (oversize r) && miss resp then next r s1 else (resp, s1).
Proof.
  intros Hp. unfold ServeHTTP, core_request. rewrite Hp. destruct mf; cbn [negb andb];
    [|by destruct (handler r s)]. fold (oversize r) (cut_body r).
  destruct (oversize r); cbn [negb andb]; [by destruct (handler (cut_body r) s)|].
  rewrite bind_eq. destruct (handler r s) as [resp s1]. cbn [fst snd]. by destruct (miss resp).
Qed.
Lemma mux_missed path handler r s : mux path = Some handler → store_inv s → young (handler r s).2 →
  miss (handler r s).1 = true → same_data (content s) (content (handler r s).2).
Proof.
  unfold mux. intros Hp I. destruct (RegisterRoutes path) as [e|]; [injection Hp as <-; by apply serve_missed|].
  case_bool_decide; [|done]. injection Hp as <-. intros _ Hm. by rewrite guarded_never_missed in Hm.
Qed.
End Fallthrough.
