(* ===== verification/ServiceTheorems.v ===== *)
(** * The service around the store: HTTP, the in-process API, the addon, the adapters

  What a client, an embedding Go program, a token holder and an operator can
  rely on. *)
From S2P Require Import Prelude GoStd Uuid Types Wire Validation Buffer BufferInv BufferSpec.
From S2P Require Import BufferRead Store StoreInv BufferOps StoreSpec Events StoreOps Steps Bulk.
From S2P Require Import BulkSpec RebuildSpec WarmSpec OpsSteps EventsSpec Refine RefineOps RefineBulk.
From S2P Require Import Simulation Handlers HandlersSpec Gateway GatewaySpec Guarded Adapters AdaptersSpec.

Section Http.
Context `{EV : Env} `{CP : Caps} `{SH : ScopeHash} `{EM : EventMarshal} `{DE : Decoders} `{RM : RespMarshal}.
Context `{CO : !CapsOk}.

(** C24: a request answered with anything but 200 (or the 500 of a response that
    does not marshal) has left every scope's content as it was: whatever
    endpoint, method, body and query. *)
Theorem refusal_changes_nothing `{DL : !DecodeLaw} e r s : store_inv s → young (serve e r s).2 →
  status (serve e r s).1 ≠ StatusOK → status (serve e r s).1 ≠ StatusInternalServerError →
  same_astore (content s) (content (serve e r s).2).
Proof. intros I Y H1 H2. by destruct (serve_settled e r s I Y) as [?|[?|?]]. Qed.

(** C25: the status contract: a request of the endpoint's method gets one of the
    endpoint's statuses, any other method 405 with the Allow header and an
    untouched store; a store error is 400 when the input is invalid (for a
    counter also on overflow), 507 when a cap is hit, 409 otherwise. *)
Theorem http_contract `{ML : !MarshalLaw} e r s :
  (Method r = method_of e → status (serve e r s).1 ∈ statuses e) ∧
  (Method r ≠ method_of e → (serve e r s).2 = s ∧
    status (serve e r s).1 = StatusMethodNotAllowed ∧ allow (serve e r s).1 = Some (method_of e)) ∧
  ∀ err k, status (writeMutationError err k) = error_status err ∧
    status (writeCounterError err k) = (if is_overflow err then StatusBadRequest else error_status err) ∧
    status (writeDeleteError err) = (if is_invalid_input err then StatusBadRequest else StatusConflict).
Proof.
  split; [apply serve_status|]. split; [apply wrong_method|]. intros err k.
  split; [apply mutation_status|]. split; [apply counter_status|].
  unfold writeDeleteError. destruct (is_invalid_input err); apply json_ok.
Qed.
End Http.

(** ** The in-process API *)
Section Api.
Context `{EV : Env} `{CP : Caps} `{SH : ScopeHash} `{EM : EventMarshal} `{CO : !CapsOk}.

(** C35: the copies at the boundary have the items' values with the internal
    fields dropped and share no array with them: a later write to any array of
    the caller leaves the copies alone, and a write to a copy's the caller's
    items; a grouped batch is copied scope by scope in the same way. *)
Theorem clone_isolates g h : valid_refs h (concat g.*2) →
  let '(g', h') := Clone.cloneGroupedItemPayloads g h in
  let l := concat g.*2 in let l' := concat g'.*2 in
  g'.*1 = g.*1 ∧ Clone.resolve h' <$> l' = Clone.cleared ∘ Clone.resolve h <$> l ∧
  (∀ a s, a ∈ dom h → Clone.resolve (write h' a s) <$> l' = Clone.resolve h' <$> l') ∧
  (∀ a s, a ∈ refs l' → Clone.resolve (write h' a s) <$> l = Clone.resolve h' <$> l).
Proof.
  intros V. pose proof (cloneGrouped_spec g h) as HG.
  destruct (Clone.cloneGroupedItemPayloads g h) as [g' h']. destruct HG as [Ek E].
  pose proof (cloneItems_spec _ h V) as HC. rewrite E in HC. destruct HC as [C Er].
  pose proof (copied_apart _ _ _ _ V C) as [Hn Ho]. cbv zeta. split; [done|]. split; [done|].
  split; intros a s Ha; apply write_elsewhere; [by apply Hn|by apply Ho].
Qed.

(** No Go value passed to the in-process API can break the store: every
    method, for any item, internal fields set or not, only takes the store's
    own atomic sections, keeps the invariant and the published pointers. *)
Theorem gateway_safe item k id uuid (seq n limit : Z) g : batch_ok (boundary_batch g) →
  (safe (Gateway_Append item) ∧ safe (Gateway_Upsert item) ∧ safe (Gateway_Update item) ∧
   safe (Gateway_CounterAdd k id n) ∧ safe (Gateway_Delete k id seq uuid) ∧
   safe (Gateway_DeleteUpTo k seq uuid) ∧ safe (Gateway_DeleteScope k) ∧
   safe (Gateway_Warm g) ∧ safe (Gateway_Rebuild g) ∧ safe Gateway_Wipe) ∧
  safe (Gateway_Head k seq limit) ∧ safe (Gateway_Tail k limit n) ∧ safe (Gateway_GetByID k id) ∧
  safe (Gateway_GetBySeq k seq) ∧ safe (Gateway_GetByUUID k uuid) ∧ safe (Gateway_RenderByID k id) ∧
  safe (Gateway_RenderBySeq k seq) ∧ safe (Gateway_RenderByUUID k uuid) ∧ safe (Gateway_Subscribe k).
Proof.
  intros Hg. repeat split_and; apply steps_safe.
  - apply (steps_then _ (λ r, _)), steps_appendOne.
  - by apply (steps_then _ (λ r, _)), steps_upsertOne.
  - by apply steps_updateOne.
  - apply steps_counterAddOne.
  - apply steps_deleteOne.
  - apply steps_deleteUpTo.
  - apply steps_deleteScope.
  - by apply steps_replaceScopes.
  - by apply steps_rebuildAll.
  - apply steps_wipe.
  - apply (steps_then _ (λ r, _)), steps_window.
  - apply (steps_then _ (λ r, _)), steps_window.
  - apply (steps_then _ (λ r, _)), steps_get_item.
  - apply (steps_then _ (λ r, _)), steps_get_item.
  - apply (steps_then _ (λ r, _)), steps_get_item.
  - apply steps_render.
  - apply steps_render.
  - apply steps_render.
  - apply steps_subscribe.
Qed.
End Api.

Import Registry.
(** The registry across a configuration reload: the new instance registers
    over the old one, then the old one deregisters itself; a lookup, also
    through a slot obtained before, finds the new gateway, other names are
    untouched, and only the new instance's own deregistration clears it. *)
Theorem registry_reload g name old new slot : registry_ok g → old ≠ new →
  (LookupGatewaySlot name g).1 = slot →
  let g1 := (LookupGatewaySlot name g).2 in
  let g2 := (RegisterGateway name (Some old) g1).2 in
  let g3 := (RegisterGateway name (Some new) g2).2 in
  let g4 := (DeregisterGatewayIf name (Some old) g3).2 in
  let g5 := (DeregisterGatewayIf name (Some new) g4).2 in
  (LookupGateway name g4).1 = Some new ∧ (slot_Load slot g4).1 = Some new ∧
  (LookupGateway name g5).1 = None ∧ (slot_Load slot g5).1 = None ∧
  ∀ other, other ≠ name → (LookupGateway other g4).1 = (LookupGateway other g).1.
Proof.
  intros K Hne Hs g1 g2 g3 g4 g5.
  pose proof (slotForName_spec name g K) as H1. subst g1 slot. unfold LookupGatewaySlot in *.
  destruct (slotForName name g) as [slot g1] eqn:E1. cbn [fst snd] in *. destruct H1 as [A1 Hslot].
  pose proof (register_spec name (Some old) g1 (as_ok _ _ _ _ A1)) as A2. fold g2 in A2.
  pose proof (register_spec name (Some new) g2 (as_ok _ _ _ _ A2)) as A3. fold g3 in A3.
  pose proof (deregister_spec name old g3 (as_ok _ _ _ _ A3)) as A4. fold g4 in A4.
  rewrite (as_name _ _ _ _ A3), decide_False in A4 by congruence.
  pose proof (deregister_spec name new g4 (as_ok _ _ _ _ A4)) as A5. fold g5 in A5.
  rewrite (as_name _ _ _ _ A4), decide_True in A5 by done.
  assert (registrySlots g4 !! name = Some slot) as S4
    by (by apply (as_slots _ _ _ _ A4), (as_slots _ _ _ _ A3), (as_slots _ _ _ _ A2)).
  assert (registrySlots g5 !! name = Some slot) as S5 by (by apply (as_slots _ _ _ _ A5)).
  pose proof (as_name _ _ _ _ A4) as N4. pose proof (as_name _ _ _ _ A5) as N5.
  destruct (lookup_spec name g4 (as_ok _ _ _ _ A4)) as [L4 _]. destruct (lookup_spec name g5 (as_ok _ _ _ _ A5)) as [L5 _].
  rewrite L4, L5, N4, N5. unfold registered in N4, N5. rewrite S4 in N4. rewrite S5 in N5.
  split; [done|]. split; [done|]. split; [done|]. split; [done|]. intros other Ho.
  destruct (lookup_spec other g4 (as_ok _ _ _ _ A4)) as [-> _]. destruct (lookup_spec other g K) as [-> _].
  rewrite (as_other _ _ _ _ A4), (as_other _ _ _ _ A3), (as_other _ _ _ _ A2), (as_other _ _ _ _ A1) by done. done.
Qed.

(** ** The addon *)
Section Addon.
Context `{EV : Env} `{CP : Caps} `{SH : ScopeHash} `{EM : EventMarshal} `{TH : TokenHash} `{GM : GuardedMarshal}.
Context `{CO : !CapsOk} `{TL : !TokenHashLaw}.

(** C36: the gated tail answers 401 exactly without a registered bearer token,
    and with one depends only on the scope under the token's own prefix, shown
    under the client's name: two tokens with different hashes never reach the
    same scope, whatever names they ask for; it changes no content. *)
Theorem guarded_isolated r s : store_inv s → Method r = MethodGet → young (guarded_handleTail r s).2 →
  let '(resp, s') := guarded_handleTail r s in
  let cid := capID (extractBearer r) in
  same_astore (content s) (content s') ∧
  (extractBearer r = ""%string ∨ ¬ holds_id (content s) tokensScope cid →
   ∃ msg, resp = errorJSON StatusUnauthorized msg) ∧
  (extractBearer r ≠ ""%string → holds_id (content s) tokensScope cid → resp = guarded_answer (content s) r) ∧
  ∀ t1 t2 s1 s2, (capID t1 +:+ ":") +:+ s1 = (capID t2 +:+ ":") +:+ s2 → capID t1 = capID t2 ∧ s1 = s2.
Proof.
  intros I Hm Y. pose proof (guarded_spec r s I Hm Y) as H. destruct (guarded_handleTail r s) as [resp s'].
  destruct H as (H1 & H2 & H3). split; [done|]. split; [done|]. split; [done|]. apply prefix_unambiguous.
Qed.
End Addon.

(** ** The adapters *)
(** Whatever the environment holds, the standalone binary starts with the
    documented configuration: each cap is its variable converted exactly, or
    the default when it is empty, malformed, not positive or would overflow;
    the caps it gives the store are ones the store's theorems hold for. *)
Theorem environment_config Getenv :
  main_config Getenv = env_config Getenv ∧ @CapsOk (caps_of (main_config Getenv)) ∧
  initTimeoutFromEnv Getenv = match Atoi (Getenv "SCOPECACHE_INIT_TIMEOUT_SEC"%string) with
    | Some n => if (0 <=? n) && (n * time_Second <=? MaxInt64) then n * time_Second else 0
    | None => 0
    end.
Proof. split; [apply main_config_spec|]. split; [apply main_caps|apply timeout_spec]. Qed.

(** The Caddy module provisions exactly the configurations whose values are
    non-negative, survive the conversion to bytes and nanoseconds and name an
    events mode, converts them exactly, and the caps it gives the store are
    ones the store's theorems hold for. *)
Theorem provision_exact h cfg :
  (provision_config h = Ok cfg ↔
    config_ok h ∧ ∃ m, ParseEventsMode (h_EventsMode h) = Ok m ∧ cfg = caddy_config h m) ∧
  (provision_config h = Ok cfg →
    @CapsOk (caps_of cfg) ∧ i64 (h_InitTimeoutSec h * time_Second) = h_InitTimeoutSec h * time_Second).
Proof.
  split; [apply provision_spec|]. intros P. split; [by apply (provision_caps h)|].
  apply provision_spec in P as [K _]. pose proof (cf_timeout _ K) as HT. apply i64_id.
  change maxConfigSec with 9223372036 in HT. unfold in_i64, MinInt64, MaxInt64, time_Second. lia.
Qed.

(** C37: the directive block parses exactly when there is no argument and each
    line is a known key with a value of its type, and then each field is the
    last value given for it, or as it was. *)
Theorem caddyfile_parse args lines h h' : UnmarshalCaddyfile args lines h = Ok h' ↔
  args = [] ∧ Forall line_ok lines ∧ h' = described lines h.
Proof. apply unmarshal_spec. Qed.

Section Fallthrough.
Context `{EV : Env} `{CP : Caps} `{SH : ScopeHash} `{EM : EventMarshal} `{DE : Decoders} `{RM : RespMarshal}.
Context `{TH : TokenHash} `{GM : GuardedMarshal} `{CO : !CapsOk} `{DL : !DecodeLaw}.

(** C38: the module's request path: a path that is not the cache's goes to the
    next handler; a hit, and any response without miss_fallthrough, is the
    core's; a miss with it runs the next handler on the whole request, after a
    core request that changed no data, so no write is ever made twice. With
    miss_fallthrough a POST body over 8 MiB is the exception: the answer is the
    core's to its first 8 MiB, and the next handler is not run. *)
Theorem fallthrough_safe mf path r next s : store_inv s →
  match mux path with
  | None => ServeHTTP mf path r next s = next r s
  | Some handler =>
      let '(resp, s1) := handler (core_request mf r) s in
      young s1 →
      ServeHTTP mf path r next s = (if mf && negb (oversize r) && miss resp then next r s1 else (resp, s1)) ∧
      (miss resp = true → same_data (content s) (content s1))
  end.
Proof.
  intros I. destruct (mux path) as [handler|] eqn:Hp; [|unfold ServeHTTP; by rewrite Hp].
  pose proof (mux_missed path handler (core_request mf r) s Hp I) as HM.
  pose proof (ServeHTTP_split mf path r next s handler Hp) as HS.
  destruct (handler (core_request mf r) s) as [resp s1]. cbn [fst snd] in *. intros Y.
  split; [exact HS|by apply HM].
Qed.
End Fallthrough.
