(* ===== verification/Php.v ===== *)
(** * addons/frankenphp-ext/scopecache_ext.go: the PHP functions

  Each exported function loads the "default" gateway from its registry slot and
  answers with the bytes of an envelope, or null. A zend_string is its bytes;
  the array conversion of the FrankenPHP library ([GoMap]) and the text of the
  conversion errors are parameters. [loaded] is whether the slot holds a
  gateway, whose store the functions run on. *)
From S2P Require Import Prelude GoStd Uuid Types Wire Validation Buffer BufferRead Store Events.
From S2P Require Import StoreOps Bulk Handlers Gateway.

(** A value of a PHP array as the library hands it over. *)
Inductive php_value :=
| PString (s : string)
| PAssoc (m : list (string * php_value))
| POther.
(** The array argument of warm and rebuild, converted: the scopes with their
    lists, in the order in which the Go map is ranged over. *)
Class GoMap (array : Type) := goMap : array → result string (list (string * list php_value)).

Inductive array_error :=
| NilArray
| GoMapError (e : string)
| NotAssociative (scope : string) (i : Z) (v : php_value)
| MissingPayload (scope : string) (i : Z)
| PayloadNotString (scope : string) (i : Z) (v : php_value).
(** [fmt.Errorf] on one of these. *)
Class ArrayErrorText := array_error_text : array_error → string.

Fixpoint assoc_find (k : string) (m : list (string * php_value)) : option php_value :=
  match m with
  | [] => None
  | (k', v) :: m => if bool_decide (k' = k) then Some v else assoc_find k m
  end.

(** An item built from PHP arguments. *)
Definition php_item (scope id payload : string) : Item :=
  mkItem scope id 0 0 zeroUUID (Some payload) None None.

Fixpoint php_items (scope : string) (i : Z) (items : list php_value) : result array_error (list Item) :=
  match items with
  | [] => Ok []
  | anyItem :: items =>
      match anyItem with
      | PAssoc assoc =>
          match assoc_find "payload" assoc with
          | None => Err (MissingPayload scope i)
          | Some (PString payload) =>
              let id := match assoc_find "id" assoc with Some (PString id) => id | _ => "" end in
              match php_items scope (i + 1) items with
              | Err e => Err e
              | Ok goItems => Ok (php_item scope id payload :: goItems)
              end
          | Some v => Err (PayloadNotString scope i v)
          end
      | v => Err (NotAssociative scope i v)
      end
  end.
Fixpoint php_scopes (raw : list (string * list php_value)) : result array_error batch :=
  match raw with
  | [] => Ok []
  | (scope, items) :: raw =>
      match php_items scope 0 items with
      | Err e => Err e
      | Ok goItems =>
          match php_scopes raw with
          | Err e => Err e
          | Ok out => Ok ((scope, goItems) :: out)
          end
      end
  end.
Definition phpArrayToGroupedItems {array : Type} `{GoMap array} (arr : option array) : result array_error batch :=
  match arr with
  | None => Err NilArray
  | Some arr =>
      match goMap arr with
      | Err e => Err (GoMapError e)
      | Ok raw => php_scopes raw
      end
  end.

(** Empty output crosses as null. *)
Definition phpStringFromBytes (b : slice) : option string :=
  match b with
  | None => None
  | Some b => if slen b =? 0 then None else Some b
  end.

Section Php.
Context `{Env} `{Caps} `{ScopeHash} `{EventMarshal} `{RespMarshal} `{ArrayErrorText}.
Context {array : Type} `{!GoMap array}.

Definition marshal_failed : string := dq "{'ok':false,'error':'internal: response marshal failed'}".
Definition MarshalEnvelope (v : resp) : option string := jsonMarshal_resp v.
Definition errorEnvelope (msg : message) : option string :=
  match MarshalEnvelope (ErrorResponse false msg) with
  | None => phpStringFromBytes (Some marshal_failed)
  | Some body => phpStringFromBytes (Some body)
  end.
Definition mustMarshal (v : resp) : slice :=
  match MarshalEnvelope v with
  | None => Some marshal_failed
  | Some body => Some body
  end.
(** The success path of append, upsert, update and counter_add. *)
Definition written_envelope (v : resp) : option string :=
  match MarshalEnvelope v with
  | None => errorEnvelope (Text "internal: response marshal failed")
  | Some body => phpStringFromBytes (Some body)
  end.

Variable loaded : bool.

(** ** Reads *)
Definition scopecache_get (scope id : string) : SM (option string) :=
  if negb loaded then ret None
  else
    let* item := Gateway_GetByID scope id in
    ret (phpStringFromBytes (Some (AppendGetResponseJSON "" item))).
Definition scopecache_get_by_seq (scope : string) (seq : Z) : SM (option string) :=
  if negb loaded then ret None
  else
    let* item := Gateway_GetBySeq scope (u64 seq) in
    ret (phpStringFromBytes (Some (AppendGetResponseJSON "" item))).
Definition scopecache_get_payload (scope id : string) : SM (option string) :=
  if negb loaded then ret None
  else
    let* bytes := Gateway_RenderByID scope id in
    ret (match bytes with None => None | Some bytes => phpStringFromBytes bytes end).
Definition scopecache_get_payload_by_seq (scope : string) (seq : Z) : SM (option string) :=
  if negb loaded then ret None
  else
    let* bytes := Gateway_RenderBySeq scope (u64 seq) in
    ret (match bytes with None => None | Some bytes => phpStringFromBytes bytes end).
Definition scopecache_head (scope : string) (afterSeq limit : Z) : SM (option string) :=
  if negb loaded then ret None
  else
    let* r := Gateway_Head scope (u64 afterSeq) limit in
    let '(items, truncated, _) := r in
    ret (phpStringFromBytes (Some (AppendHeadResponseJSON "" items truncated))).
Definition scopecache_tail (scope : string) (limit : Z) : SM (option string) :=
  if negb loaded then ret None
  else
    let* r := Gateway_Tail scope limit 0 in
    let '(items, truncated, _) := r in
    ret (phpStringFromBytes (Some (AppendTailResponseJSON "" items truncated 0))).

(** ** Writes *)
Definition scopecache_append (scope id payload : string) : SM (option string) :=
  if negb loaded then ret None
  else
    let* result := Gateway_Append (php_item scope id payload) in
    ret (match result with
         | Err e => errorEnvelope (Message e)
         | Ok result => written_envelope (AppendResponse true true (newWriteAck result))
         end).
Definition scopecache_upsert (scope id payload : string) : SM (option string) :=
  if negb loaded then ret None
  else
    let* result := Gateway_Upsert (php_item scope id payload) in
    ret (match result with
         | Err e => errorEnvelope (Message e)
         | Ok (result, created) => written_envelope (UpsertResponse true created (newWriteAck result))
         end).
Definition scopecache_update (scope id payload : string) : SM (option string) :=
  if negb loaded then ret None
  else
    let* n := Gateway_Update (php_item scope id payload) in
    ret (match n with
         | Err e => errorEnvelope (Message e)
         | Ok n => written_envelope (UpdateResponse true false n)
         end).
Definition scopecache_counter_add (scope id : string) (by_ : Z) : SM (option string) :=
  if negb loaded then ret None
  else
    let* r := Gateway_CounterAdd scope id by_ in
    ret (match r with
         | Err e => errorEnvelope (Message e)
         | Ok (value, created) => written_envelope (CounterAddResponse true created value)
         end).

(** ** Deletes *)
Definition deleted_envelope (r : result error Z) : option string :=
  match r with
  | Err e => errorEnvelope (Message e)
  | Ok n => phpStringFromBytes (mustMarshal (DeleteResponse true (0 <? n) n))
  end.
Definition scopecache_delete (scope id : string) : SM (option string) :=
  if negb loaded then ret None
  else let* r := Gateway_Delete scope id 0 "" in ret (deleted_envelope r).
Definition scopecache_delete_by_seq (scope : string) (seq : Z) : SM (option string) :=
  if negb loaded then ret None
  else let* r := Gateway_Delete scope "" (u64 seq) "" in ret (deleted_envelope r).
Definition scopecache_delete_up_to (scope : string) (maxSeq : Z) : SM (option string) :=
  if negb loaded then ret None
  else let* r := Gateway_DeleteUpTo scope (u64 maxSeq) "" in ret (deleted_envelope r).
Definition scopecache_delete_scope (scope : string) : SM (option string) :=
  if negb loaded then ret None
  else
    let* r := Gateway_DeleteScope scope in
    ret (match r with
         | Err e => errorEnvelope (Message e)
         | Ok (n, hit) => phpStringFromBytes (mustMarshal (DeleteScopeResponse true hit n))
         end).
Definition scopecache_wipe : SM (option string) :=
  if negb loaded then ret None
  else
    let* r := Gateway_Wipe in
    let '(scopeCount, itemCount, freedBytes) := r in
    ret (phpStringFromBytes (mustMarshal (WipeResponse true scopeCount itemCount freedBytes))).

(** ** Observability *)
Definition scopecache_stats : SM (option string) :=
  if negb loaded then ret None
  else
    let* s := get in
    ret (phpStringFromBytes (mustMarshal (StatsResponse true (Gateway_Stats s)))).
Definition scopecache_scopelist (prefix after : string) (limit : Z) : SM (option string) :=
  if negb loaded then ret None
  else
    let* s := get in
    let '(entries, truncated) := Gateway_ScopeList s prefix after limit in
    ret (phpStringFromBytes (Some (AppendScopeListResponseJSON "" entries truncated))).

(** ** Bulk *)
Definition scopecache_warm (grouped : option array) : SM (option string) :=
  if negb loaded then ret None
  else match phpArrayToGroupedItems grouped with
  | Err e => ret (errorEnvelope (Text (array_error_text e)))
  | Ok goGrouped =>
      let* r := Gateway_Warm goGrouped in
      ret (match r with
           | Err e => errorEnvelope (Message e)
           | Ok n => phpStringFromBytes (mustMarshal (WarmResponse true n))
           end)
  end.
Definition scopecache_rebuild (grouped : option array) : SM (option string) :=
  if negb loaded then ret None
  else match phpArrayToGroupedItems grouped with
  | Err e => ret (errorEnvelope (Text (array_error_text e)))
  | Ok goGrouped =>
      let* r := Gateway_Rebuild goGrouped in
      ret (match r with
           | Err e => errorEnvelope (Message e)
           | Ok (scopes, items) => phpStringFromBytes (mustMarshal (RebuildResponse true scopes items))
           end)
  end.
End Php.
