(* ===== verification/PhpSpec.v ===== *)
(** * The PHP functions answer what the HTTP endpoints answer *)
From S2P Require Import Prelude GoStd Uuid Types Wire Validation Buffer BufferInv BufferSpec.
From S2P Require Import BufferRead Store StoreInv BufferOps StoreSpec Events StoreOps Steps Bulk.
From S2P Require Import BulkSpec RebuildSpec WarmSpec OpsSteps EventsSpec Refine RefineOps RefineBulk.
From S2P Require Import Simulation Handlers HandlersSpec Gateway GatewaySpec Php.

(** ** The calls *)
Inductive php_call (array : Type) :=
| PGet (scope id : string) | PGetBySeq (scope : string) (seq : Z)
| PGetPayload (scope id : string) | PGetPayloadBySeq (scope : string) (seq : Z)
| PHead (scope : string) (afterSeq limit : Z) | PTail (scope : string) (limit : Z)
| PAppend (scope id payload : string) | PUpsert (scope id payload : string)
| PUpdate (scope id payload : string) | PCounterAdd (scope id : string) (by_ : Z)
| PDelete (scope id : string) | PDeleteBySeq (scope : string) (seq : Z)
| PDeleteUpTo (scope : string) (maxSeq : Z) | PDeleteScope (scope : string) | PWipe
| PStats | PScopeList (prefix after : string) (limit : Z)
| PWarm (grouped : option array) | PRebuild (grouped : option array).
Arguments PGet {array}. Arguments PGetBySeq {array}. Arguments PGetPayload {array}.
Arguments PGetPayloadBySeq {array}. Arguments PHead {array}. Arguments PTail {array}.
Arguments PAppend {array}. Arguments PUpsert {array}. Arguments PUpdate {array}.
Arguments PCounterAdd {array}. Arguments PDelete {array}. Arguments PDeleteBySeq {array}.
Arguments PDeleteUpTo {array}. Arguments PDeleteScope {array}. Arguments PWipe {array}.
Arguments PStats {array}. Arguments PScopeList {array}. Arguments PWarm {array}. Arguments PRebuild {array}.

Section Spec.
Context `{EV : Env} `{CP : Caps} `{SH : ScopeHash} `{EM : EventMarshal} `{DE : Decoders} `{RM : RespMarshal}.
Context `{AT : ArrayErrorText} {array : Type} `{GA : !GoMap array}.

Definition run_php (loaded : bool) (c : php_call array) : SM (option string) :=
  match c with
  | PGet scope id => scopecache_get loaded scope id
  | PGetBySeq scope seq => scopecache_get_by_seq loaded scope seq
  | PGetPayload scope id => scopecache_get_payload loaded scope id
  | PGetPayloadBySeq scope seq => scopecache_get_payload_by_seq loaded scope seq
  | PHead scope afterSeq limit => scopecache_head loaded scope afterSeq limit
  | PTail scope limit => scopecache_tail loaded scope limit
  | PAppend scope id payload => scopecache_append loaded scope id payload
  | PUpsert scope id payload => scopecache_upsert loaded scope id payload
  | PUpdate scope id payload => scopecache_update loaded scope id payload
  | PCounterAdd scope id by_ => scopecache_counter_add loaded scope id by_
  | PDelete scope id => scopecache_delete loaded scope id
  | PDeleteBySeq scope seq => scopecache_delete_by_seq loaded scope seq
  | PDeleteUpTo scope maxSeq => scopecache_delete_up_to loaded scope maxSeq
  | PDeleteScope scope => scopecache_delete_scope loaded scope
  | PWipe => scopecache_wipe loaded
  | PStats => scopecache_stats loaded
  | PScopeList prefix after limit => scopecache_scopelist loaded prefix after limit
  | PWarm grouped => scopecache_warm loaded grouped
  | PRebuild grouped => scopecache_rebuild loaded grouped
  end.

(** The HTTP request that asks for the same, as the endpoint's own parsing
    reads it. *)
Inductive read_requests (r : http_request) : endpoint → php_call array → Prop :=
| rq_get scope id : id ≠ ""%string → parseLookupTarget r "/get" = Ok (mklookupTarget scope id 0 "") →
    read_requests r EGet (PGet scope id)
| rq_get_seq scope seq : parseLookupTarget r "/get" = Ok (mklookupTarget scope "" (u64 seq) "") →
    read_requests r EGet (PGetBySeq scope seq)
| rq_render scope id : id ≠ ""%string → parseLookupTarget r "/render" = Ok (mklookupTarget scope id 0 "") →
    read_requests r ERender (PGetPayload scope id)
| rq_render_seq scope seq : parseLookupTarget r "/render" = Ok (mklookupTarget scope "" (u64 seq) "") →
    read_requests r ERender (PGetPayloadBySeq scope seq)
| rq_head scope afterSeq limit : parseScopeLimit r "/head" = Ok (mkscopeLimit scope limit) →
    query_Has r "offset" = false →
    (if negb (bool_decide (query_Get r "after_seq" = "")) then ParseUint (query_Get r "after_seq") else Some 0)
      = Some (u64 afterSeq) →
    read_requests r EHead (PHead scope afterSeq limit)
| rq_tail scope limit : parseScopeLimit r "/tail" = Ok (mkscopeLimit scope limit) →
    normalizeOffset (query_Get r "offset") = Ok 0 → read_requests r ETail (PTail scope limit).
Inductive write_requests (r : http_request) : endpoint → php_call array → Prop :=
| rq_append scope id payload : decodeBody decode_Item r maxSingleBytes = Ok (php_item scope id payload) →
    write_requests r EAppend (PAppend scope id payload)
| rq_upsert scope id payload : decodeBody decode_Item r maxSingleBytes = Ok (php_item scope id payload) →
    write_requests r EUpsert (PUpsert scope id payload)
| rq_update scope id payload : decodeBody decode_Item r maxSingleBytes = Ok (php_item scope id payload) →
    write_requests r EUpdate (PUpdate scope id payload)
| rq_counter scope id by_ :
    decodeBody decode_counter r maxSingleBytes = Ok (mkcounterAddRequest scope id (Some by_)) →
    write_requests r ECounterAdd (PCounterAdd scope id by_)
| rq_delete scope id : decodeBody decode_delete r maxSingleBytes = Ok (mkdeleteRequest scope id 0 "") →
    write_requests r EDelete (PDelete scope id)
| rq_delete_seq scope seq :
    decodeBody decode_delete r maxSingleBytes = Ok (mkdeleteRequest scope "" (u64 seq) "") →
    write_requests r EDelete (PDeleteBySeq scope seq)
| rq_drain scope maxSeq :
    decodeBody decode_deleteUpTo r maxSingleBytes = Ok (mkdeleteUpToRequest scope (u64 maxSeq) "") →
    write_requests r EDeleteUpTo (PDeleteUpTo scope maxSeq).
Inductive admin_requests (r : http_request) : endpoint → php_call array → Prop :=
| rq_delete_scope scope : decodeBody decode_deleteScope r maxSingleBytes = Ok (mkdeleteScopeRequest scope) →
    admin_requests r EDeleteScope (PDeleteScope scope)
| rq_wipe : admin_requests r EWipe PWipe
| rq_stats : admin_requests r EStats PStats
| rq_scopelist prefix after limit : query_Get r "prefix" = prefix → query_Get r "after" = after →
    (prefix ≠ ""%string → checkKeyField "prefix" prefix MaxScopeBytes = Ok tt) →
    (after ≠ ""%string → checkKeyField "after" after MaxScopeBytes = Ok tt) →
    normalizeLimit (query_Get r "limit") = Ok limit → admin_requests r EScopeList (PScopeList prefix after limit)
| rq_warm grouped items : decodeBody decode_items r maxBulkBytes = Ok items →
    phpArrayToGroupedItems grouped = Ok (groupItemsByScope items) → admin_requests r EWarm (PWarm grouped)
| rq_rebuild grouped items : decodeBody decode_items r maxBulkBytes = Ok items → items ≠ [] →
    phpArrayToGroupedItems grouped = Ok (groupItemsByScope items) → admin_requests r ERebuild (PRebuild grouped).

Definition requests (r : http_request) (e : endpoint) (c : php_call array) : Prop :=
  read_requests r e c ∨ write_requests r e c ∨ admin_requests r e c.

(** The reads' bodies are the very bytes; writeJSONResponse adds a newline. *)
Definition suffix (e : endpoint) : string :=
  match e with EGet | ERender | EHead | ETail | EScopeList => "" | _ => newline end.

(** The same effect and, unless HTTP reports a cap (507), the same bytes. *)
Definition agrees (e : endpoint) (p : option string * store) (h : response * store) : Prop :=
  p.2 = h.2 ∧ (status h.1 ≠ StatusInsufficientStorage → body h.1 = default "" p.1 +:+ suffix e).

(** ** Envelopes *)
Lemma from_bytes b : default "" (phpStringFromBytes b) = default "" b.
Proof.
  destruct b as [b|]; [|done]. cbn. destruct (Z.eqb_spec (slen b) 0) as [E|]; [|done].
  destruct b; [done|]. unfold slen in E. cbn in E. lia.
Qed.

Context `{ML : !MarshalLaw}.
Lemma json_body c v : body (writeJSONResponse c v) = default "" (jsonMarshal_resp v) +:+ newline.
Proof. unfold writeJSONResponse. by destruct (marshal_total v) as [b ->]. Qed.
Lemma written_bytes v : default "" (written_envelope v) = default "" (jsonMarshal_resp v).
Proof.
  unfold written_envelope, MarshalEnvelope. destruct (marshal_total v) as [b ->]. by rewrite from_bytes.
Qed.
Lemma must_bytes v : default "" (phpStringFromBytes (mustMarshal v)) = default "" (jsonMarshal_resp v).
Proof. rewrite from_bytes. unfold mustMarshal, MarshalEnvelope. by destruct (marshal_total v) as [b ->]. Qed.
Lemma error_bytes m : default "" (errorEnvelope m) = default "" (jsonMarshal_resp (ErrorResponse false m)).
Proof.
  unfold errorEnvelope, MarshalEnvelope. destruct (marshal_total (ErrorResponse false m)) as [b ->].
  by rewrite from_bytes.
Qed.

(** An error that is not a cap has the body of its text. *)
Lemma mutation_body e k : status (writeMutationError e k) ≠ StatusInsufficientStorage →
  body (writeMutationError e k) = default "" (errorEnvelope (Message e)) +:+ newline.
Proof.
  rewrite error_bytes. unfold writeMutationError, badRequest, conflict. destruct (is_invalid_input e); [by rewrite json_body|].
  destruct (writeStoreCapacityError e k) eqn:E; [|by rewrite json_body].
  apply capacity_status in E as [_ ->]. done.
Qed.
Lemma counter_body e k : status (writeCounterError e k) ≠ StatusInsufficientStorage →
  body (writeCounterError e k) = default "" (errorEnvelope (Message e)) +:+ newline.
Proof.
  rewrite error_bytes. unfold writeCounterError, badRequest, conflict. destruct (is_invalid_input e); [by rewrite json_body|].
  destruct (writeStoreCapacityError e k) eqn:E; [by apply capacity_status in E as [_ ->]|].
  destruct (unwrapped e); by rewrite json_body.
Qed.
Lemma delete_body e : body (writeDeleteError e) = default "" (errorEnvelope (Message e)) +:+ newline.
Proof. rewrite error_bytes. unfold writeDeleteError, badRequest, conflict. destruct (is_invalid_input e); by rewrite json_body. Qed.

(** The same operation on both sides, answered by envelopes that agree. *)
Lemma agrees_op e {A} (m : SM A) (p : A → option string) (h : A → response) s :
  (∀ a, status (h a) ≠ StatusInsufficientStorage → body (h a) = default "" (p a) +:+ suffix e) →
  agrees e ((let* a := m in ret (p a)) s) ((let* a := m in ret (h a)) s).
Proof. intros H. rewrite !bind_eq. split; [done|]. apply H. Qed.

Lemma boundary_php scope id payload : boundary (php_item scope id payload) = php_item scope id payload.
Proof. done. Qed.
Lemma ack_boundary it : newWriteAck (boundary it) = newWriteAck it.
Proof. done. Qed.
Lemma encode_boundary buf it : AppendItemJSON buf (boundary it) = AppendItemJSON buf it.
Proof. done. Qed.
Lemma get_boundary buf item : AppendGetResponseJSON buf (boundary <$> item) = AppendGetResponseJSON buf item.
Proof. by destruct item. Qed.
Lemma append_list_fmap {A} (f : A → A) emit buf l : (∀ b x, emit b (f x) = emit b x) →
  append_list emit buf (f <$> l) = append_list emit buf l.
Proof.
  intros H. unfold append_list. rewrite length_fmap. generalize (seq 0 (length l)) as n. revert buf.
  induction l as [|x l IH]; intros buf n; destruct n as [|i n]; cbn; [done..|]. rewrite H. apply IH.
Qed.
Lemma envelope_boundary buf items truncated offset :
  appendItemsEnvelopeJSON buf (boundary <$> items) truncated offset = appendItemsEnvelopeJSON buf items truncated offset.
Proof.
  unfold appendItemsEnvelopeJSON. cbv zeta. rewrite length_fmap.
  by rewrite !append_list_fmap by (intros; apply encode_boundary).
Qed.

(** ** Batches *)
Lemma php_items_clean scope i items l : php_items scope i items = Ok l → boundary <$> l = l.
Proof.
  revert i l. induction items as [|v items IH]; intros i l; cbn [php_items]; [by intros [= <-]|].
  destruct v as [s|m|]; try done. destruct (assoc_find "payload" m) as [[p|?|]|]; try done.
  destruct (php_items scope (i + 1) items) as [l'|e] eqn:E; [|done]. intros [= <-]. cbn. f_equal. by eapply IH.
Qed.
Lemma php_scopes_clean raw g : php_scopes raw = Ok g → boundary_batch g = g.
Proof.
  revert g. induction raw as [|[k items] raw IH]; intros g; cbn [php_scopes]; [by intros [= <-]|].
  destruct (php_items k 0 items) as [l|e] eqn:El; [|done]. destruct (php_scopes raw) as [g'|e]; [|done].
  intros [= <-]. cbn. rewrite (php_items_clean _ _ _ _ El). f_equal. by apply IH.
Qed.
Lemma grouped_clean arr g : phpArrayToGroupedItems arr = Ok g → boundary_batch g = g.
Proof.
  unfold phpArrayToGroupedItems. destruct arr as [arr|]; [|done]. destruct (goMap arr); [|done]. apply php_scopes_clean.
Qed.

(** ** Windows *)
Lemma window_missing k w s : let '(items, truncated, found) := (window k w s).1 in
  found = false → items = [] ∧ truncated = false.
Proof.
  unfold window. rewrite bind_eq. cbn [fst snd get]. destruct (getScope s k) as [p|]; [|done].
  destruct (w (buf_at s p)) as [items truncated]. rewrite bind_eq. done.
Qed.
Lemma items_bytes (m : Z) items truncated offset :
  let w := if (0 <? Z.of_nat (length items)) && (m <? estimateMultiItemResponseBytes items)
           then TooLarge (estimateMultiItemResponseBytes items) m
           else writeItemsResponse m items truncated offset in
  status (respond_written w) ≠ StatusInsufficientStorage →
  body (respond_written w) = appendItemsEnvelopeJSON "" items truncated offset.
Proof.
  cbv zeta. rewrite items_envelope_body. cbv zeta. destruct (_ && _); cbn [respond_written].
  - unfold responseTooLarge. by rewrite json_ok.
  - destruct (_ <? _); cbn [respond_written]; [|done]. unfold responseTooLarge. by rewrite json_ok.
Qed.
Lemma agrees_window e k w (h : list Item → bool → Wire.written) off s : suffix e = ""%string →
  (∀ items truncated, status (respond_written (h items truncated)) ≠ StatusInsufficientStorage →
    body (respond_written (h items truncated)) = appendItemsEnvelopeJSON "" items truncated off) →
  agrees e
    ((let* r := (let* r := window k w in ret (boundary_window r)) in let '(items, truncated, _) := r in
      ret (phpStringFromBytes (Some (appendItemsEnvelopeJSON "" items truncated off)))) s)
    ((let* res := window k w in let '(items, truncated, found) := res in
      ret (respond_written (if negb (found : bool) then h [] false else h items truncated))) s).
Proof.
  intros Hs Hh. rewrite !bind_eq. pose proof (window_missing k w s) as HM.
  destruct (window k w s) as [[[items truncated] found] s']. cbn [fst snd ret boundary_window] in *.
  split; [done|]. cbn [fst snd ret]. rewrite Hs, from_bytes, envelope_boundary, string_app_nil_r.
  destruct found; cbn [negb]; [apply Hh|]. destruct (HM eq_refl) as [-> ->]. apply Hh.
Qed.

(** The items a lookup of the call can return have a payload. *)
Definition payload_present (c : php_call array) (s : store) : Prop :=
  match c with
  | PGet scope id => ∀ it, (get_item scope id 0 "" s).1 = Some it → 0 < blen (Payload it)
  | PGetBySeq scope seq => ∀ it, (get_item scope "" (u64 seq) "" s).1 = Some it → 0 < blen (Payload it)
  | _ => True
  end.

Lemma agrees_get scope id seq s : (∀ it, (get_item scope id seq "" s).1 = Some it → 0 < blen (Payload it)) →
  agrees EGet
    ((let* item := (let* r := get_item scope id seq "" in ret (boundary <$> r)) in
      ret (phpStringFromBytes (Some (AppendGetResponseJSON "" item)))) s)
    ((let* item := get_item scope id seq "" in ret (respond_written (writeGetResponse item))) s).
Proof.
  intros Hp. rewrite !bind_eq. split; [done|].
  cbn [fst snd ret suffix]. rewrite get_body by done. cbn [respond_written body].
  by rewrite from_bytes, string_app_nil_r, get_boundary.
Qed.
Lemma agrees_render scope id seq s :
  agrees ERender
    ((let* bytes := render scope id seq "" in
      ret (match bytes with None => None | Some bytes => phpStringFromBytes bytes end)) s)
    ((let* res := render scope id seq "" in
      ret (match res with
           | None => mkresponse StatusNotFound true None octet_type ""
           | Some body => mkresponse StatusOK false None octet_type (default "" body)
           end)) s).
Proof.
  apply (agrees_op ERender _ (λ b, _) (λ b, _)). intros [b|] _; cbn; [by rewrite from_bytes, string_app_nil_r|done].
Qed.

Lemma post_get e r (m : SM response) : Method r = method_of e →
  (if negb (bool_decide (Method r = method_of e)) then ret (methodNotAllowed (method_of e)) else m) = m.
Proof. intros ->. by rewrite bool_decide_true. Qed.

Lemma agrees_write e {A} (m : SM (result error A)) (ok : A → resp) (bad : error → response) (p : A → option string) s :
  suffix e = newline → (∀ a, default "" (p a) = default "" (jsonMarshal_resp (ok a))) →
  (∀ err, status (bad err) ≠ StatusInsufficientStorage →
    body (bad err) = default "" (errorEnvelope (Message err)) +:+ newline) →
  agrees e
    ((let* r := m in ret (match r with Err err => errorEnvelope (Message err) | Ok a => p a end)) s)
    ((let* r := m in ret (match r with Err err => bad err | Ok a => writeJSONResponse StatusOK (ok a) end)) s).
Proof.
  intros Hs Hp Hb. apply (agrees_op e m (λ r, _) (λ r, _)). rewrite Hs. intros [a|err]; [|apply Hb].
  intros _. by rewrite json_body, Hp.
Qed.

Lemma agrees_deleted (m : SM (result error Z)) s :
  agrees EDelete ((let* r := m in ret (deleted_envelope r)) s)
    ((let* res := m in ret (match res with
      | Err e => writeDeleteError e
      | Ok deleted => with_miss (deleted =? 0) (writeJSONResponse StatusOK (DeleteResponse true (0 <? deleted) deleted))
      end)) s).
Proof.
  apply (agrees_op EDelete _ (λ r, _) (λ r, _)). intros [n|err] _; cbn [suffix deleted_envelope]; [|apply delete_body].
  cbn [body with_miss]. by rewrite json_body, must_bytes.
Qed.

(** Take the branch of the endpoint's own parsing. *)
Ltac parsed := repeat match goal with E : ?x = ?y |- context [?x] =>
  lazymatch y with Ok _ => rewrite E | Some _ => rewrite E | false => rewrite E end end.
Lemma php_reads_agree e r c s : read_requests r e c → Method r = method_of e → payload_present c s →
  agrees e (run_php true c s) (serve e r s).
Proof.
  intros Hr Hm Hp. destruct Hr; cbn [run_php serve method_of] in *;
  unfold scopecache_get, scopecache_get_by_seq, scopecache_get_payload, scopecache_get_payload_by_seq,
    scopecache_head, scopecache_tail, handleHead, handleTail, handleGet, handleRender;
  rewrite Hm, bool_decide_true by done; cbn [negb]; cbv zeta.
  - (* get *) parsed.
    unfold target_call. cbn [lt_ID lt_UUID lt_Scope lt_Seq]. rewrite bool_decide_false by done. by apply agrees_get.
  - parsed. by apply agrees_get.
  - parsed.
    unfold target_call. cbn [lt_ID lt_UUID lt_Scope lt_Seq]. rewrite bool_decide_false by done. apply agrees_render.
  - parsed. apply agrees_render.
  - (* head, tail *) parsed.
    apply (agrees_window EHead _ _ (writeHeadResponse maxResponseBytes) None); [done|].
    intros items truncated. apply (items_bytes maxResponseBytes items truncated None).
  - parsed.
    apply (agrees_window ETail _ _ (λ i t, writeTailResponse maxResponseBytes i t 0) (Some 0)); [done|].
    intros items truncated. apply (items_bytes maxResponseBytes items truncated (Some 0)).
Qed.
Lemma php_writes_agree e r c s : write_requests r e c → Method r = method_of e →
  agrees e (run_php true c s) (serve e r s).
Proof.
  intros Hr Hm. destruct Hr; cbn [run_php serve method_of] in *;
  unfold scopecache_append, scopecache_upsert, scopecache_update, scopecache_counter_add,
    scopecache_delete, scopecache_delete_by_seq, scopecache_delete_up_to, handleAppend, handleUpsert,
    handleCounterAdd, handleUpdate, handleDelete, handleDeleteUpTo;
  rewrite Hm, bool_decide_true by done; cbn [negb]; cbv zeta.
  - (* append *) parsed.
    unfold Gateway_Append. rewrite boundary_php.
    split; [by rewrite !bind_eq|]. rewrite !bind_eq. cbn [fst snd ret].
    destruct (appendOne _ s) as [[it|err] s']; cbn [fst snd ret suffix]; [|apply mutation_body].
    intros _. by rewrite json_body, written_bytes.
  - unfold Gateway_Upsert. parsed. rewrite boundary_php.
    rewrite !bind_eq. split; [done|]. cbn [fst snd ret].
    destruct (upsertOne _ s) as [[[it c]|err] s']; cbn [fst snd ret suffix boundary_result]; [|apply mutation_body].
    intros _. by rewrite json_body, written_bytes.
  - parsed. unfold Gateway_Update. rewrite boundary_php.
    rewrite !bind_eq. split; [done|]. cbn [fst snd ret].
    destruct (updateOne _ s) as [[n|err] s']; cbn [fst snd ret suffix]; [|apply mutation_body].
    intros _. cbn [body with_miss]. by rewrite json_body, written_bytes.
  - parsed. cbn [ca_Scope ca_ID ca_By].
    apply (agrees_op ECounterAdd _ (λ r, _) (λ r, _)). intros [[v c]|err]; cbn [suffix]; [|apply counter_body].
    intros _. by rewrite json_body, written_bytes.
  - (* delete *) parsed. apply agrees_deleted.
  - parsed. apply agrees_deleted.
  - parsed.
    apply (agrees_op EDeleteUpTo _ (λ r, _) (λ r, _)). intros [n|err] _; cbn [suffix deleted_envelope]; [|apply delete_body].
    by rewrite json_body, must_bytes.
Qed.
Lemma php_admin_agree e r c s : admin_requests r e c → Method r = method_of e →
  agrees e (run_php true c s) (serve e r s).
Proof.
  intros Hr Hm. destruct Hr; cbn [run_php serve method_of] in *;
  unfold scopecache_delete_scope, scopecache_wipe, scopecache_stats, scopecache_scopelist,
    scopecache_warm, scopecache_rebuild, handleDeleteScope, handleWipe, handleWarm, handleRebuild,
    handleStats, handleScopeList;
  rewrite Hm, bool_decide_true by done; cbn [negb]; cbv zeta.
  - parsed.
    apply (agrees_op EDeleteScope _ (λ r, _) (λ r, _)). intros [[n hit]|err] _; cbn [suffix]; [|apply delete_body].
    by rewrite json_body, must_bytes.
  - (* wipe, stats, scopelist *) unfold Gateway_Wipe. rewrite !bind_eq.
    destruct (wipe s) as [[[a b] c] s']. split; [done|]. intros _. cbn. by rewrite json_body, must_bytes.
  - rewrite !bind_eq. split; [done|]. intros _. cbn. by rewrite json_body, must_bytes.
  - assert (∀ name v, (v ≠ ""%string → checkKeyField name v MaxScopeBytes = Ok tt) →
      (if negb (bool_decide (v = "")) then checkKeyField name v MaxScopeBytes else Ok tt) = Ok tt) as Hk.
    { intros name v Hv. case_bool_decide; [done|]. by apply Hv. }
    subst. rewrite !Hk by done. cbn [check]. parsed. rewrite !bind_eq. cbn [fst snd get].
    unfold Gateway_ScopeList. destruct (scopeList s _ _ limit) as [entries truncated]. split; [done|].
    cbn [fst snd ret suffix]. rewrite scopelist_body, from_bytes, string_app_nil_r. cbv zeta.
    destruct (_ <? _); cbn [respond_written]; [|done]. unfold responseTooLarge. by rewrite json_ok.
  - (* bulk *) parsed. parsed. unfold Gateway_Warm. erewrite grouped_clean by done.
    apply (agrees_op EWarm _ (λ r, _) (λ r, _)). intros [n|err]; cbn [suffix]; [|apply mutation_body].
    intros _. by rewrite json_body, must_bytes.
  - parsed. parsed. unfold Gateway_Rebuild. erewrite grouped_clean by done.
    destruct items as [|it items]; [done|]. cbn [length Nat.eqb].
    apply (agrees_op ERebuild _ (λ r, _) (λ r, _)). intros [[n m]|err]; cbn [suffix]; [|apply mutation_body].
    intros _. by rewrite json_body, must_bytes.
Qed.

Lemma php_agrees e r c s : requests r e c → Method r = method_of e → payload_present c s →
  agrees e (run_php true c s) (serve e r s).
Proof.
  intros [Hr|[Hr|Hr]] Hm Hp; [by apply php_reads_agree|by apply php_writes_agree|by apply php_admin_agree].
Qed.

(** Without a gateway nothing happens. *)
Lemma php_unloaded c s : run_php false c s = (None, s).
Proof. by destruct c. Qed.
End Spec.
