(* ===== verification/Subscriber.v ===== *)
(** * subscriber_command.go, init_command.go: the operator's commands

  The goroutine StartSubscriber spawns, its stop function and the rest of the
  program, as one step relation: the goroutine ranges over its wake-up channel
  and runs the command, stop cancels, unsubscribes and waits, and the store
  changes by atomic sections of other goroutines in between. A command
  ends at a moment of its own, or, once its context is cancelled, because it is
  killed; which processes that kills is in Processes.v. *)
From S2P Require Import Prelude GoStd Uuid Types Wire Validation Buffer BufferInv BufferSpec BufferRead.
From S2P Require Import Store StoreInv BufferOps StoreSpec Events StoreOps Bulk Steps.

(** ** The goroutine *)
(** Where the goroutine is: at the range, in runSubscriberCommand, returned. *)
Inductive phase := AtRange | Running | Exited.
(** How far a call of stop has come. *)
Inductive stop_pc := NotCalled | Cancelled | Unsubscribed | Returned.
#[export] Instance phase_eq_dec : EqDecision phase.
Proof. solve_decision. Defined.
#[export] Instance stop_pc_eq_dec : EqDecision stop_pc.
Proof. solve_decision. Defined.

Record bridge := mkbridge {
  br_ch : nat;          (* the channel of its subscription *)
  br_phase : phase;
  br_cancelled : bool;  (* ctx is done *)
  br_runs : nat;        (* commands begun *)
  br_stop : stop_pc;
}.
#[export] Instance eta_bridge : Eta bridge := λ b,
  mkbridge (br_ch b) (br_phase b) (br_cancelled b) (br_runs b) (br_stop b).

Inductive start_error :=
| ErrScopeRequired | ErrCommandRequired | ErrSubscribe (scope : string) (e : subscribe_error).

Section Subscriber.
Context `{EV : Env} `{CP : Caps} `{SH : ScopeHash} `{EM : EventMarshal}.

Definition StartSubscriber (scope command : string) : SM (result start_error bridge) :=
  if bool_decide (scope = "") then ret (Err ErrScopeRequired)
  else if bool_decide (command = "") then ret (Err ErrCommandRequired)
  else
    let* r := Subscribe scope in
    ret (match r with
         | Err e => Err (ErrSubscribe scope e)
         | Ok ch => Ok (mkbridge ch AtRange false 0 NotCalled)
         end).

(** The bridges of the reserved scopes, in the order they were started; a scope
    that cannot be subscribed to is skipped. *)
Fixpoint start_subscribers (scopes : list string) (command : string) : SM (list (string * bridge)) :=
  match scopes with
  | [] => ret []
  | scope :: scopes =>
      let* r := StartSubscriber scope command in
      let* stops := start_subscribers scopes command in
      ret (match r with Err _ => stops | Ok b => (scope, b) :: stops end)
  end.
Definition StartReservedSubscribers (command : string) : SM (list (string * bridge)) :=
  if bool_decide (command = "") then ret []
  else start_subscribers [EventsScopeName; InboxScopeName] command.
(** The order in which the returned stop function calls the bridges' own. *)
Definition stop_order (bridges : list (string * bridge)) : list (string * bridge) := reverse bridges.

(** A step of the goroutine itself. A wake-up received once the context is
    cancelled is used up: cmd.Run returns the context's error and starts nothing.
    (The check is modelled with the receive; a cancel that falls between the two
    is one before the receive.) *)
Inductive loop_step : bridge * store → bridge * store → Prop :=
| loop_wake b s s' : br_phase b = AtRange → br_cancelled b = false → receive (br_ch b) s = (Some true, s') →
    loop_step (b, s) (b <| br_phase := Running |> <| br_runs := S (br_runs b) |>, s')
| loop_skip b s s' : br_phase b = AtRange → br_cancelled b = true → receive (br_ch b) s = (Some true, s') →
    loop_step (b, s) (b, s')
| loop_exit b s s' : br_phase b = AtRange → receive (br_ch b) s = (Some false, s') →
    loop_step (b, s) (b <| br_phase := Exited |>, s')
| loop_killed b s : br_phase b = Running → br_cancelled b = true →
    loop_step (b, s) (b <| br_phase := AtRange |>, s).
(** A step of a call of stop. *)
Inductive stop_step (scope : string) : bridge * store → bridge * store → Prop :=
| stop_cancel b s : br_stop b = NotCalled →
    stop_step scope (b, s) (b <| br_cancelled := true |> <| br_stop := Cancelled |>, s)
| stop_unsub b s : br_stop b = Cancelled →
    stop_step scope (b, s) (b <| br_stop := Unsubscribed |>, (unsubscribe scope s).2)
| stop_done b s : br_stop b = Unsubscribed → br_phase b = Exited →
    stop_step scope (b, s) (b <| br_stop := Returned |>, s).
(** Everything else: the command ends by itself, or another goroutine takes a section
    of the store (nobody else calls the bridge's own unsubscribe), or
    another subscriber receives. *)
Inductive env_step (scope : string) : bridge * store → bridge * store → Prop :=
| env_command_ends b s : br_phase b = Running →
    env_step scope (b, s) (b <| br_phase := AtRange |>, s)
| env_store b s s' : sstep s s' →
    (subscribers s !! scope = Some (br_ch b) → subscribers s' !! scope = Some (br_ch b)) →
    env_step scope (b, s) (b, s')
| env_receive b s ch : ch ≠ br_ch b → env_step scope (b, s) (b, (receive ch s).2).

Definition own_step (scope : string) (x y : bridge * store) : Prop := loop_step x y ∨ stop_step scope x y.
Definition bridge_step (scope : string) (x y : bridge * store) : Prop := own_step scope x y ∨ env_step scope x y.

(** ** init_command.go *)
(** The command's run as the program sees it: what its requests made of the store
    up to the return of cmd.Run, and how it ended. *)
Definition RunInitCommand (run : SM (result string unit)) (command : string) : SM (result string unit) :=
  if bool_decide (command = "") then ret (Ok tt)
  else
    let* runErr := run in
    let* _ := deleteUpTo EventsScopeName MaxUint64 "" in
    ret (match runErr with
         | Err e => Err ("scopecache init command " +:+ command +:+ ": " +:+ e)
         | Ok _ => Ok tt
         end).
End Subscriber.
