(* ===== verification/SubscriberSpec.v ===== *)
(** * The subscriber bridge: no lost wake-up, and a stop that ends it; the boot command *)
From S2P Require Import Prelude GoStd Uuid Types Wire Validation Buffer BufferInv BufferSpec BufferRead.
From S2P Require Import BufferDelete BufferTheorems.
From S2P Require Import Clock Store StoreInv BufferOps StoreSpec Events StoreOps StoreClock Bulk BulkSpec.
From S2P Require Import RebuildSpec WarmSpec Steps SubscribeSpec OpsSteps EventsSpec Refine RefineOps Subscriber.

Section Spec.
Context `{EV : Env} `{CP : Caps} `{SH : ScopeHash} `{EM : EventMarshal} `{CO : !CapsOk}.

(** ** What the table operations do to one channel *)
(** [ch] is nobody's in the table. *)
Definition retired (ch : nat) (s : store) : Prop := ∀ k, subscribers s !! k ≠ Some ch.

Lemma chan_other ch ch' c c' s' sb s : ch ≠ ch' → chans s !! ch = Some c →
  s' = set_table sb (<[ch' := c']> (chans s)) s → chans s' !! ch = Some c.
Proof. intros Hne Hc ->. cbn. by rewrite lookup_insert_ne. Qed.
Lemma fresh_other s ch c : chans s !! ch = Some c → ch ≠ fresh_chan s.
Proof. intros Hc ->. by rewrite fresh_chan_free in Hc. Qed.

(** A channel that is not in the table is left alone. *)
Lemma table_retired s s' ch c : table_op s s' → chans s !! ch = Some c → retired ch s →
  chans s' !! ch = Some c ∧ retired ch s'.
Proof.
  intros T Hc R. destruct T as [k s|k s|k s].
  - rewrite subscribe_run. destruct (negb _); [done|]. destruct (subscribers s !! k); [done|]. cbn [snd].
    pose proof (fresh_other s ch c Hc) as Hne. split; [by eapply chan_other|].
    intros k'. cbn. intros [[_ E]|[_ E]]%lookup_insert_Some; [congruence|by apply (R k')].
  - rewrite unsubscribe_run. destruct (subscribers s !! k) as [ch'|] eqn:Hk; [|done]. cbn [snd].
    assert (ch ≠ ch') as Hne by (by intros ->; apply (R k)). split; [by eapply chan_other|].
    intros k'. cbn. intros [_ E]%lookup_delete_Some. by apply (R k').
  - rewrite notify_run. destruct (subscribers s !! k) as [ch'|] eqn:Hk; [|done]. cbv zeta.
    destruct (_ && _); [done|]. cbn [snd]. assert (ch ≠ ch') as Hne by (by intros ->; apply (R k)).
    split; [by eapply chan_other|]. done.
Qed.

(** The channel of a subscription that stays: open, and a wake-up stays in it. *)
Lemma table_subscribed s s' k ch c : chans_ok s → table_op s s' → subscribers s !! k = Some ch →
  subscribers s' !! k = Some ch → chans s !! ch = Some c →
  ∃ c', chans s' !! ch = Some c' ∧ closed c' = closed c ∧ (pending c = true → pending c' = true).
Proof.
  intros C T Hk Hk' Hc. assert (∃ c', chans s !! ch = Some c' ∧ closed c' = closed c ∧
    (pending c = true → pending c' = true)) as Hsame by (by exists c).
  destruct T as [k' s|k' s|k' s].
  - rewrite subscribe_run in *. destruct (negb _); [done|]. destruct (subscribers s !! k'); [done|]. cbn [snd].
    pose proof (fresh_other s ch c Hc) as Hne. exists c. split; [by eapply chan_other|done].
  - rewrite unsubscribe_run in *. destruct (subscribers s !! k') as [ch'|] eqn:E; [|done]. cbn [snd] in *.
    assert (ch ≠ ch') as Hne.
    { intros ->. destruct (ch_inj _ C k k' ch' Hk E). cbn in Hk'. by rewrite lookup_delete_eq in Hk'. }
    exists c. split; [by eapply chan_other|done].
  - rewrite notify_run in *. destruct (subscribers s !! k') as [ch'|] eqn:E; [|done]. cbv zeta in *.
    destruct (_ && _); [done|]. cbn [snd] in *. destruct (decide (ch = ch')) as [->|Hne].
    + exists (send_chan c). cbn. rewrite lookup_insert_eq, (lookup_total_correct _ _ _ Hc). by split.
    + exists c. split; [by eapply chan_other|done].
Qed.

(** ** The invariant of a bridge *)
Definition unsubbed (b : bridge) : bool :=
  match br_stop b with Unsubscribed | Returned => true | _ => false end.

Record bridge_inv (scope : string) (x : bridge * store) : Prop := {
  bi_store : store_inv x.2;
  bi_chans : chans_ok x.2;
  bi_chan : ∃ c, chans x.2 !! br_ch x.1 = Some c ∧ closed c = unsubbed x.1 ∧
    (br_phase x.1 = Exited → pending c = false);
  bi_table : if unsubbed x.1 then retired (br_ch x.1) x.2 else subscribers x.2 !! scope = Some (br_ch x.1);
  bi_exit : br_phase x.1 = Exited → unsubbed x.1 = true;
  bi_cancel : br_stop x.1 ≠ NotCalled → br_cancelled x.1 = true;
  bi_returned : br_stop x.1 = Returned → br_phase x.1 = Exited;
}.

Lemma set_table_inv sb ch s : store_inv s → store_inv (set_table sb ch s).
Proof.
  intros I. destruct (placed_shards s (set_table sb ch s) eq_refl) as (HP & HS & _).
  apply (inv_frame s); try done. apply HP, I.
Qed.
(** Taking the wake-up out of a channel. *)
Definition drained (c : chan) : chan := mkchan false (closed c) (panicked c).
Lemma receive_run ch s : receive ch s =
  (if pending (chans s !!! ch) then (Some true, set_table (subscribers s) (<[ch := drained (chans s !!! ch)]> (chans s)) s)
   else (if closed (chans s !!! ch) then Some false else None, s)).
Proof.
  unfold receive. rewrite bind_eq. cbn [fst snd get]. cbv zeta. destruct (pending _); [done|]. by destruct (closed _).
Qed.
Lemma receive_chans ch s : chans_ok s → chans_ok (receive ch s).2.
Proof.
  intros C. rewrite receive_run. destruct (pending _) eqn:Hp; [|done]. cbn [snd].
  destruct (chans s !! ch) as [c|] eqn:Hc; [|by rewrite (lookup_total_alt _ _), Hc in Hp].
  rewrite (lookup_total_correct _ _ _ Hc) in *. destruct C as [Co Ci Cc]. constructor; cbn; [|done|].
  - intros k ch' Hk. destruct (Co k ch' Hk) as [Hr (c' & Hc' & Ho)]. split; [done|].
    destruct (decide (ch' = ch)) as [->|Hne]; [|by rewrite lookup_insert_ne by done; eexists].
    rewrite lookup_insert_eq. eexists. split; [done|]. cbn. congruence.
  - intros ch' c' [[_ <-]|[_ Hc']]%lookup_insert_Some; [exact (Cc ch c Hc)|by eapply Cc].
Qed.
Lemma receive_inv ch s : store_inv s → store_inv (receive ch s).2.
Proof. intros I. rewrite receive_run. destruct (pending _); [by apply set_table_inv|done]. Qed.
Lemma receive_other ch ch' s : ch' ≠ ch → chans (receive ch' s).2 !! ch = chans s !! ch ∧
  subscribers (receive ch' s).2 = subscribers s.
Proof.
  intros Hne. rewrite receive_run. destruct (pending _); [|done]. cbn. by rewrite lookup_insert_ne.
Qed.

(** Started bridges. *)
Lemma start_spec scope command s b s' : store_inv s → chans_ok s →
  StartSubscriber scope command s = (Ok b, s') → bridge_inv scope (b, s') ∧ br_runs b = 0%nat ∧ br_phase b = AtRange.
Proof.
  intros I C. unfold StartSubscriber. case_bool_decide; [done|]. case_bool_decide; [done|].
  pose proof (subscribe_ok scope s C) as C'. rewrite bind_eq. rewrite subscribe_run in *.
  destruct (negb _); [done|]. destruct (subscribers s !! scope); [done|]. cbn [fst snd ret] in *.
  intros [= <- <-]. split; [|done]. constructor; cbn; try done.
  - by apply set_table_inv.
  - exists (mkchan false false false). by rewrite lookup_insert_eq.
  - by rewrite lookup_insert_eq.
Qed.

(** ** Starting the bridges of several scopes *)
Lemma start_run scope command s : command ≠ ""%string → isReservedScope scope = true →
  StartSubscriber scope command s =
  match subscribers s !! scope with
  | Some _ => (Err (ErrSubscribe scope ErrAlreadySubscribed), s)
  | None => (Ok (mkbridge (fresh_chan s) AtRange false 0 NotCalled), (Subscribe scope s).2)
  end.
Proof.
  intros Hc Hr. unfold StartSubscriber. rewrite bool_decide_false by (by intros ->).
  rewrite bool_decide_false by done. rewrite bind_eq, subscribe_run, Hr. cbn [negb].
  by destruct (subscribers s !! scope).
Qed.

(** A later subscription of another scope leaves a waiting bridge as it is. *)
Record subs_grow (s s' : store) : Prop := {
  sg_subs k ch : subscribers s !! k = Some ch → subscribers s' !! k = Some ch;
  sg_chans ch c : chans s !! ch = Some c → chans s' !! ch = Some c;
}.
#[export] Instance subs_grow_preorder : PreOrder subs_grow.
Proof. split; [by split|]. intros s1 s2 s3 [] []. split; eauto. Qed.
Lemma subscribe_grow k s : subs_grow s (Subscribe k s).2.
Proof.
  rewrite subscribe_run. destruct (negb _); [done|]. destruct (subscribers s !! k) eqn:E; [done|].
  split; cbn.
  - intros k' ch Hk. rewrite lookup_insert_ne; [done|]. intros ->. congruence.
  - intros ch c Hc. rewrite lookup_insert_ne; [done|]. intros <-. by rewrite fresh_chan_free in Hc.
Qed.
Lemma bridge_grow k b s s' : bridge_inv k (b, s) → unsubbed b = false → subs_grow s s' →
  store_inv s' → chans_ok s' → bridge_inv k (b, s').
Proof.
  intros [_ _ (c & Hc & ?) Ht He Hcan Hret] Hu [Gs Gc] I' C'. cbn in *. rewrite Hu in *.
  constructor; cbn; rewrite ?Hu; eauto.
Qed.

Lemma start_subscribers_spec scopes command : ∀ s, command ≠ ""%string →
  (∀ k, k ∈ scopes → isReservedScope k = true) → NoDup scopes → store_inv s → chans_ok s →
  let r := start_subscribers scopes command s in
  store_inv r.2 ∧ chans_ok r.2 ∧ subs_grow s r.2 ∧
  r.1.*1 = filter (λ k, subscribers s !! k = None) scopes ∧
  ∀ k b, (k, b) ∈ r.1 → bridge_inv k (b, r.2) ∧ b = mkbridge (br_ch b) AtRange false 0 NotCalled.
Proof.
  induction scopes as [|k scopes IH]; intros s Hc Hr Hnd I C r.
  { subst r. split_and!; try done. by intros k b []%elem_of_nil. }
  apply NoDup_cons in Hnd as [Hnk Hnd].
  pose proof (start_run k command s Hc (Hr k (list_elem_of_here _ _))) as Hrun.
  assert (Hr' : ∀ k', k' ∈ scopes → isReservedScope k' = true)
    by (intros; apply Hr, elem_of_cons; by right).
  subst r. cbn [start_subscribers]. rewrite bind_eq.
  destruct (subscribers s !! k) as [ch|] eqn:Ek.
  - rewrite Hrun. cbn [fst snd]. rewrite bind_eq. destruct (IH s Hc Hr' Hnd I C) as (I2 & C2 & G2 & E2 & B2).
    destruct (start_subscribers scopes command s) as [bs s2]. cbn [fst snd ret] in *.
    rewrite filter_cons_False by congruence. done.
  - destruct (start_spec k command s _ _ I C Hrun) as (B & _).
    set (b0 := mkbridge (fresh_chan s) AtRange false 0 NotCalled) in *.
    rewrite Hrun. cbn [fst snd]. rewrite bind_eq.
    pose proof (subscribe_grow k s) as G1. pose proof (bi_store _ _ B) as I1. pose proof (bi_chans _ _ B) as C1.
    cbn [fst snd] in I1, C1.
    destruct (IH _ Hc Hr' Hnd I1 C1) as (I2 & C2 & G2 & E2 & B2).
    assert (Esubs : filter (λ x, subscribers (Subscribe k s).2 !! x = None) scopes =
      filter (λ x, subscribers s !! x = None) scopes).
    { clear -Hnk Ek. rewrite subscribe_run. destruct (negb _); [done|]. rewrite Ek. cbn.
      induction scopes as [|x l IHl]; [done|]. apply not_elem_of_cons in Hnk as [Hx Hl].
      rewrite !filter_cons. rewrite IHl by done. rewrite lookup_insert_ne by done. done. }
    destruct (start_subscribers scopes command (Subscribe k s).2) as [bs s2]. cbn [fst snd ret] in *.
    split_and!; [done..|by transitivity (Subscribe k s).2| |].
    + rewrite filter_cons_True by done. by rewrite fmap_cons, E2, Esubs.
    + intros k' b [[= -> ->]|Hin]%elem_of_cons; [|by apply B2].
      split; [|done]. by apply (bridge_grow k b0 (Subscribe k s).2).
Qed.

(** The bridges of the two reserved scopes: one for each that nobody subscribes
    to, in order, each with a channel of its own; nobody else is disturbed. *)
Lemma StartReservedSubscribers_spec command s : command ≠ ""%string → store_inv s → chans_ok s →
  let r := StartReservedSubscribers command s in
  store_inv r.2 ∧ chans_ok r.2 ∧ subs_grow s r.2 ∧
  r.1.*1 = filter (λ k, subscribers s !! k = None) [EventsScopeName; InboxScopeName] ∧
  (∀ k b, (k, b) ∈ r.1 → bridge_inv k (b, r.2) ∧ b = mkbridge (br_ch b) AtRange false 0 NotCalled) ∧
  NoDup (br_ch ∘ snd <$> r.1).
Proof.
  intros Hc I C r. subst r. unfold StartReservedSubscribers. rewrite bool_decide_false by done.
  destruct (start_subscribers_spec [EventsScopeName; InboxScopeName] command s Hc) as (I2 & C2 & G2 & E2 & B2);
    [| |done..|].
  - intros k [->|[->|[]%elem_of_nil]%elem_of_cons]%elem_of_cons; reflexivity.
  - apply (bool_decide_unpack _). by vm_compute.
  - split_and!; try done. set (r := start_subscribers _ command s) in *.
    assert (Hnd : NoDup r.1.*1) by (rewrite E2; apply NoDup_filter, (bool_decide_unpack _); by vm_compute).
    clearbody r. clear -B2 C2 Hnd.
    apply NoDup_alt. intros i j ch Hi Hj. rewrite list_lookup_fmap in Hi, Hj.
    destruct (r.1 !! i) as [[k b]|] eqn:Ei; [|done]. destruct (r.1 !! j) as [[k' b']|] eqn:Ej; [|done].
    cbn in Hi, Hj. simplify_eq.
    destruct (B2 k b) as [B Hb]; [by eapply list_elem_of_lookup_2|].
    destruct (B2 k' b') as [B' Hb']; [by eapply list_elem_of_lookup_2|].
    pose proof (bi_table _ _ B) as T. pose proof (bi_table _ _ B') as T'.
    rewrite Hb in T. rewrite Hb' in T'. cbn in T, T'.
    assert (k = k') as <- by (eapply (ch_inj _ C2); [exact T|congruence]).
    eapply NoDup_lookup; [exact Hnd| |]; by rewrite list_lookup_fmap, ?Ei, ?Ej.
Qed.

(** ** Its steps *)
Lemma loop_inv scope x y : bridge_inv scope x → loop_step x y → bridge_inv scope y.
Proof.
  intros [BI BC (c & Hc & Ho & He) BT BE BK BR] Hs. destruct Hs as [b s s' Hp Hk Hr|b s s' Hp Hk Hr|b s s' Hp Hr|b s Hp Hk]; cbn [fst snd] in *.
  1,2: pose proof (receive_inv (br_ch b) s BI) as I'; pose proof (receive_chans (br_ch b) s BC) as C';
    rewrite Hr in I', C'; cbn [snd] in I', C'; rewrite receive_run, (lookup_total_correct _ _ _ Hc) in Hr;
    destruct (pending c) eqn:Hpe; [|by destruct (closed c)]; injection Hr as <-; constructor; cbn; try done;
    try (exists (drained c); by rewrite lookup_insert_eq).
  - intros E. by rewrite (BR E) in Hp.
  - rewrite receive_run, (lookup_total_correct _ _ _ Hc) in Hr.
    destruct (pending c) eqn:Hpe; [done|]. destruct (closed c) eqn:Hcl; [|done]. injection Hr as <-.
    constructor; cbn; try done. exists c. split; [done|]. split; [rewrite Hcl; exact Ho|done].
  - constructor; cbn; try done; [by exists c|]. intros E. by rewrite (BR E) in Hp.
Qed.

Lemma stop_inv scope x y : bridge_inv scope x → stop_step scope x y → bridge_inv scope y.
Proof.
  intros [BI BC (c & Hc & Ho & He) BT BE BK BR] Hs. destruct Hs as [b s Hst|b s Hst|b s Hst Hp]; cbn [fst snd] in *;
    unfold unsubbed in *; rewrite Hst in *.
  - constructor; unfold unsubbed; cbn; try done. by exists c.
  - pose proof (unsubscribe_ok scope s BC) as C'. rewrite unsubscribe_run, BT in *. cbn [snd] in *.
    rewrite (lookup_total_correct _ _ _ Hc) in *.
    constructor; cbn; try done.
    + by apply set_table_inv.
    + exists (close_chan c). rewrite lookup_insert_eq. split; [done|]. split; [done|]. cbn. intros E. by apply BE in E.
    + intros k. cbn. intros [Hne Hk]%lookup_delete_Some. apply Hne. by eapply (ch_inj _ BC).
    + by rewrite BK.
  - constructor; cbn; try done; [by exists c|by rewrite BK].
Qed.

Lemma env_inv scope x y : bridge_inv scope x → young y.2 → env_step scope x y → bridge_inv scope y.
Proof.
  intros [BI BC (c & Hc & Ho & He) BT BE BK BR] Y Hs. destruct Hs as [b s Hp|b s s' Hs Hsub|b s ch Hne]; cbn [fst snd] in *.
  - constructor; cbn; try done; [by exists c|]. intros E. by rewrite (BR E) in Hp.
  - assert (young s) as Y0 by (apply sstep_tick in Hs; unfold young in *; lia).
    destruct (sstep_ok s s' BI Y0 Hs) as [I' _].
    assert (chans_ok s' ∧ (∃ c', chans s' !! br_ch b = Some c' ∧ closed c' = unsubbed b ∧
      (br_phase b = Exited → pending c' = false)) ∧
      if unsubbed b then retired (br_ch b) s' else subscribers s' !! scope = Some (br_ch b)) as (C' & Hc' & BT').
    { destruct (sstep_subs s s' BI Y0 Hs) as [T|[E1 E2]].
      - split; [by eapply table_ok|]. destruct (unsubbed b) eqn:Hu.
        + destruct (table_retired s s' _ c T Hc BT) as [Hc' R']. split; [by exists c|done].
        + specialize (Hsub BT). split; [|done].
          destruct (table_subscribed s s' _ _ c BC T BT Hsub Hc) as (c' & Hc' & Eo & _).
          exists c'. split; [done|]. split; [congruence|]. intros E. by apply BE in E.
      - split; [by eapply chans_frame|]. unfold retired. rewrite E1, E2. split; [by exists c|done]. }
    by constructor.
  - destruct (receive_other (br_ch b) ch s Hne) as [E1 E2]. constructor; cbn [fst snd]; try done.
    + by apply receive_inv. + by apply receive_chans. + exists c. by rewrite E1.
    + unfold retired. rewrite E2. done.
Qed.

Lemma receive_tick ch s : s_tick (receive ch s).2 = s_tick s.
Proof. rewrite receive_run. by destruct (pending _). Qed.
Lemma unsubscribe_tick k s : s_tick (unsubscribe k s).2 = s_tick s.
Proof. rewrite unsubscribe_run. by destruct (subscribers s !! k). Qed.
Lemma bridge_tick scope x y : bridge_step scope x y → (s_tick x.2 ≤ s_tick y.2)%nat.
Proof.
  intros [[Hs|Hs]|Hs].
  - destruct Hs as [b s s' _ _ Hr|b s s' _ _ Hr|b s s' _ Hr|]; cbn [snd]; [| | |done];
      pose proof (receive_tick (br_ch b) s) as E; rewrite Hr in E; cbn in E; lia.
  - destruct Hs; cbn [snd]; [done|by rewrite unsubscribe_tick|done].
  - destruct Hs; cbn [snd]; [done|by apply sstep_tick|by rewrite receive_tick].
Qed.
Lemma bridge_young scope x y : rtc (bridge_step scope) x y → young y.2 → young x.2.
Proof.
  induction 1 as [|x y z Hs _ IH]; [done|]. intros Y%IH. apply bridge_tick in Hs. unfold young in *. lia.
Qed.
Lemma bridge_step_inv scope x y : bridge_inv scope x → bridge_step scope x y → young y.2 → bridge_inv scope y.
Proof. intros B [[Hs|Hs]|Hs] Y; [by eapply loop_inv|by eapply stop_inv|by eapply env_inv]. Qed.
Lemma bridge_steps_inv scope x y : bridge_inv scope x → rtc (bridge_step scope) x y → young y.2 → bridge_inv scope y.
Proof.
  intros B Hs. revert B. induction Hs as [|x y z H1 H2 IH]; intros B Y; [done|].
  pose proof (bridge_young scope y z H2 Y) as Y1.
  apply IH; [|done]. by eapply bridge_step_inv.
Qed.

(** ** No wake-up is lost *)
Definition waiting (x : bridge * store) : Prop := pending (chans x.2 !!! br_ch x.1) = true.

Lemma step_waiting scope x y : bridge_inv scope x → bridge_step scope x y → young y.2 → waiting x →
  waiting y ∧ br_runs y.1 = br_runs x.1 ∨ br_runs y.1 = S (br_runs x.1) ∨ br_cancelled y.1 = true.
Proof.
  intros [BI BC (c & Hc & Ho & He) BT BE BK BR] Hs Y. unfold waiting. rewrite (lookup_total_correct _ _ _ Hc). intros Hp.
  destruct Hs as [[Hs|Hs]|Hs].
  - destruct Hs as [b s s' Hph Hk Hr|b s s' Hph Hk Hr|b s s' Hph Hr|b s Hph Hk]; cbn [fst snd] in *;
      [right; by left|right; by right| |].
    + rewrite receive_run, (lookup_total_correct _ _ _ Hc), Hp in Hr. done.
    + left. split; [|done]. by rewrite (lookup_total_correct _ _ _ Hc).
  - left. destruct Hs as [b s Hst|b s Hst|b s Hst Hph]; cbn [fst snd] in *; split; try done;
      rewrite ?(lookup_total_correct _ _ _ Hc); try done.
    unfold unsubbed in BT. rewrite Hst in BT. rewrite unsubscribe_run, BT. cbn.
    by rewrite lookup_total_insert_eq, (lookup_total_correct _ _ _ Hc).
  - left. destruct Hs as [b s Hph|b s s' Hs Hsub|b s ch Hne]; cbn [fst snd] in *; split; try done.
    + by rewrite (lookup_total_correct _ _ _ Hc).
    + assert (young s) as Y0 by (apply sstep_tick in Hs; unfold young in *; lia).
      destruct (sstep_subs s s' BI Y0 Hs) as [T|[_ E2]]; [|by rewrite E2, (lookup_total_correct _ _ _ Hc)].
      destruct (unsubbed b).
      * destruct (table_retired s s' _ c T Hc BT) as [Hc' _]. by rewrite (lookup_total_correct _ _ _ Hc').
      * destruct (table_subscribed s s' _ _ c BC T BT (Hsub BT) Hc) as (c' & Hc' & _ & Hpe).
        rewrite (lookup_total_correct _ _ _ Hc'). by apply Hpe.
    + destruct (receive_other (br_ch b) ch s Hne) as [E1 _]. rewrite lookup_total_alt, E1, Hc. done.
Qed.
Lemma step_runs scope x y : bridge_step scope x y → (br_runs x.1 ≤ br_runs y.1)%nat.
Proof. intros [[Hs|Hs]|Hs]; destruct Hs; cbn; lia. Qed.
Lemma steps_runs scope x y : rtc (bridge_step scope) x y → (br_runs x.1 ≤ br_runs y.1)%nat.
Proof. induction 1 as [|x y z H1 _ IH]; [done|]. apply step_runs in H1. lia. Qed.
Lemma step_cancelled scope x y : bridge_step scope x y → br_cancelled x.1 = true → br_cancelled y.1 = true.
Proof. intros [[Hs|Hs]|Hs]; by destruct Hs. Qed.
Lemma steps_cancelled scope x y : rtc (bridge_step scope) x y → br_cancelled x.1 = true → br_cancelled y.1 = true.
Proof. induction 1 as [|x y z H1 _ IH]; [done|]. intros H%(step_cancelled _ _ _ H1). by apply IH. Qed.
(** Once the context is cancelled nothing is started any more. *)
Lemma cancelled_runs scope x y : rtc (bridge_step scope) x y → br_cancelled x.1 = true →
  br_runs y.1 = br_runs x.1.
Proof.
  induction 1 as [|x y z H1 _ IH]; [done|]. intros Hk. rewrite IH by (by eapply step_cancelled).
  destruct H1 as [[Hs|Hs]|Hs]; destruct Hs; cbn in *; congruence.
Qed.
Lemma steps_waiting scope x y : bridge_inv scope x → rtc (bridge_step scope) x y → young y.2 → waiting x →
  waiting y ∨ (br_runs x.1 < br_runs y.1)%nat ∨ br_cancelled y.1 = true.
Proof.
  intros B Hs. revert B. induction Hs as [|x y z H1 H2 IH]; intros B Y W; [by left|].
  pose proof (bridge_young scope y z H2 Y) as Y1.
  destruct (step_waiting scope x y B H1 Y1 W) as [[W' E]|[E|E]].
  - destruct (IH (bridge_step_inv scope x y B H1 Y1) Y W') as [?|[?|?]]; [by left|right; left; lia|by right; right].
  - right. left. apply steps_runs in H2. lia.
  - right. right. by eapply steps_cancelled.
Qed.

(** What the goroutine and the command it waits for do by themselves. *)
Definition alone (x y : bridge * store) : Prop :=
  loop_step x y ∨ ∃ b s, br_phase b = Running ∧ x = (b, s) ∧ y = (b <| br_phase := AtRange |>, s).
Lemma waiting_runs scope x : bridge_inv scope x → waiting x → br_cancelled x.1 = false →
  ∃ y, rtc alone x y ∧ br_phase y.1 = Running ∧ br_runs y.1 = S (br_runs x.1).
Proof.
  intros [_ _ (c & Hc & _ & He) _ _ _ _] W Hk. destruct x as [b s]. unfold waiting in W. cbn [fst snd] in *.
  assert (∀ b', br_ch b' = br_ch b → br_phase b' = AtRange → br_runs b' = br_runs b → br_cancelled b' = false →
    ∃ y, rtc alone (b', s) y ∧ br_phase y.1 = Running ∧ br_runs y.1 = S (br_runs b)) as Hw.
  { intros b' E1 E2 E3 E4. eexists. split; [apply rtc_once; left; eapply loop_wake; [done|done|]|].
    - rewrite E1, receive_run, W. done. - cbn. by rewrite E3. }
  destruct (br_phase b) eqn:Hp; [by apply Hw| |].
  - destruct (Hw (b <| br_phase := AtRange |>)) as (y & Hy & ?); [done..|]. exists y.
    split; [|done]. eapply rtc_l; [|exact Hy]. right. by exists b, s.
  - rewrite (lookup_total_correct _ _ _ Hc), (He eq_refl) in W. done.
Qed.

(** ** stop *)
(** What is left to do once the channel is closed. *)
Definition left_to_do (x : bridge * store) : nat :=
  match br_stop x.1, br_phase x.1 with
  | Returned, _ => 0
  | _, Exited => 1
  | _, AtRange => if pending (chans x.2 !!! br_ch x.1) then 3 else 2
  | _, Running => if pending (chans x.2 !!! br_ch x.1) then 4 else 3
  end%nat.

Lemma own_progress scope x y : bridge_inv scope x → unsubbed x.1 = true → own_step scope x y →
  unsubbed y.1 = true ∧ (left_to_do y < left_to_do x)%nat.
Proof.
  intros [_ _ (c & Hc & Ho & He) _ _ BK BR] Hu Hs. unfold left_to_do.
  rewrite (lookup_total_correct _ _ _ Hc).
  assert (br_stop x.1 = Returned → br_phase x.1 ≠ Exited → False) as HR by (intros E; by rewrite BR).
  destruct Hs as [Hs|Hs].
  - destruct Hs as [b s s' Hph Hk Hr|b s s' Hph Hk Hr|b s s' Hph Hr|b s Hph Hk]; cbn [fst snd] in *; rewrite Hph in *;
      (split; [exact Hu|]).
    + rewrite BK in Hk; [done|]. intros E. unfold unsubbed in Hu. by rewrite E in Hu.
    + rewrite receive_run, (lookup_total_correct _ _ _ Hc) in Hr. destruct (pending c) eqn:Hp; [|by destruct (closed c)].
      injection Hr as <-. cbn. rewrite lookup_total_insert_eq. cbn. destruct (br_stop b); try lia. by destruct HR.
    + rewrite receive_run, (lookup_total_correct _ _ _ Hc) in Hr. destruct (pending c) eqn:Hp; [done|].
      destruct (closed c); [|done]. injection Hr as <-. rewrite (lookup_total_correct _ _ _ Hc), Hp. cbn.
      destruct (br_stop b); try lia. by destruct HR.
    + rewrite (lookup_total_correct _ _ _ Hc). cbn. destruct (br_stop b), (pending c); try lia; by destruct HR.
  - destruct Hs as [b s Hst|b s Hst|b s Hst Hph]; cbn [fst snd] in *; unfold unsubbed in Hu; rewrite Hst in *; try done.
    rewrite Hph, (lookup_total_correct _ _ _ Hc). cbn. split; [done|]. destruct (pending c); lia.
Qed.
Lemma env_progress scope x y : bridge_inv scope x → unsubbed x.1 = true → env_step scope x y → young y.2 →
  unsubbed y.1 = true ∧ (left_to_do y ≤ left_to_do x)%nat.
Proof.
  intros [BI BC (c & Hc & Ho & He) BT _ _ BR] Hu Hs Y. rewrite Hu in BT. unfold left_to_do.
  destruct Hs as [b s Hph|b s s' Hs Hsub|b s ch Hne]; cbn [fst snd] in *.
  - split; [exact Hu|]. cbn. rewrite Hph in *. destruct (br_stop b), (pending (chans s !!! br_ch b)); lia.
  - assert (chans s' !! br_ch b = chans s !! br_ch b) as E; [|by rewrite !lookup_total_alt, E].
    assert (young s) as Y0 by (apply sstep_tick in Hs; unfold young in *; lia).
    destruct (sstep_subs s s' BI Y0 Hs) as [T|[_ E2]]; [|by rewrite E2].
    destruct (table_retired s s' _ c T Hc BT) as [Hc' _]. by rewrite Hc, Hc'.
  - destruct (receive_other (br_ch b) ch s Hne) as [E _]. by rewrite !lookup_total_alt, E.
Qed.

(** An execution with [n] steps of the goroutine and of stop. *)
Inductive execution (scope : string) : nat → bridge * store → bridge * store → Prop :=
| ex_nil x : execution scope 0 x x
| ex_env n x y z : env_step scope x y → execution scope n y z → execution scope n x z
| ex_own n x y z : own_step scope x y → execution scope n y z → execution scope (S n) x z.

Lemma execution_steps scope n x y : execution scope n x y → rtc (bridge_step scope) x y.
Proof.
  induction 1 as [x|n x y z Hs _ IH|n x y z Hs _ IH]; [done|..]; (eapply rtc_l; [|exact IH]); [by right|by left].
Qed.
Lemma execution_progress scope n x y : execution scope n x y → bridge_inv scope x → unsubbed x.1 = true →
  young y.2 → unsubbed y.1 = true ∧ (n + left_to_do y ≤ left_to_do x)%nat.
Proof.
  induction 1 as [x|n x y z Hs Hx IH|n x y z Hs Hx IH]; intros B Hu Y; [by split|..];
    pose proof (bridge_young scope y z (execution_steps _ _ _ _ Hx) Y) as Y1.
  - destruct (env_progress scope x y B Hu Hs Y1) as (Hu' & ?).
    destruct IH as (? & ?); [by eapply env_inv|done|done|]. split; [done|]. lia.
  - destruct (own_progress scope x y B Hu Hs) as (Hu' & ?).
    destruct IH as (? & ?); [|done|done|split; [done|lia]].
    destruct Hs; [by eapply loop_inv|by eapply stop_inv].
Qed.

(** Whatever stop waits for can be done. *)
Lemma own_enabled scope x : bridge_inv scope x → br_stop x.1 ≠ Returned → br_stop x.1 ≠ NotCalled →
  ∃ y, own_step scope x y.
Proof.
  intros [_ _ (c & Hc & Ho & He) _ _ BK _] H1 H2. destruct x as [b s]. cbn [fst snd] in *.
  destruct (br_stop b) eqn:Hst; try done; [eexists; right; by apply stop_unsub|].
  unfold unsubbed in Ho. rewrite Hst in Ho. destruct (br_phase b) eqn:Hph.
  - destruct (pending c) eqn:Hp.
    + eexists. left. eapply loop_skip; [done|by apply BK|]. by rewrite receive_run, (lookup_total_correct _ _ _ Hc), Hp.
    + eexists. left. eapply loop_exit; [done|]. by rewrite receive_run, (lookup_total_correct _ _ _ Hc), Hp, Ho.
  - eexists. left. apply loop_killed; [done|by apply BK].
  - eexists. right. by apply stop_done.
Qed.
Lemma work_bound x : (left_to_do x ≤ 4)%nat.
Proof. unfold left_to_do. destruct (br_stop x.1), (br_phase x.1), (pending (chans x.2 !!! br_ch x.1)); lia. Qed.
End Spec.

(** ** The boot command: it leaves an empty event log *)
Section Init.
Context `{EV : Env} `{CP : Caps} `{SH : ScopeHash} `{EM : EventMarshal} `{CO : !CapsOk}.

Lemma filter_all_out {A} (P : A → Prop) `{∀ x, Decision (P x)} (l : list A) : (∀ x, x ∈ l → ¬ P x) → filter P l = [].
Proof.
  intros HP. induction l as [|x l IH]; [done|]. rewrite filter_cons_False by (apply HP; left).
  apply IH. intros y Hy. apply HP. by right.
Qed.

(** Draining a live scope cannot fail. *)
Lemma drain_ok k p n s : store_inv s → scopes s !! k = Some p →
  ∃ m, (with_buf p (drain_target n "") s).1 = Ok m.
Proof.
  intros I Hp. destruct (si_live _ I k p Hp) as [L _]. unfold with_buf, drain_target.
  rewrite bool_decide_true by done. cbn [negb]. unfold deleteUpToSeq. rewrite bind_get_buf.
  rewrite (lb_det _ _ _ L). rewrite bind_eq. cbn. by eexists.
Qed.

Lemma content_seq s k l e : store_inv s → content s k = Some l → e ∈ l → Seq e.1 ≤ MaxUint64.
Proof.
  intros I. unfold content. destruct (scopes s !! k) as [p|] eqn:Hp; [|done]. intros [= <-].
  destruct (si_live _ I k p Hp) as [L _]. intros He%view_seq; [|apply L].
  pose proof (w_last _ (lb_wf _ _ _ L)). lia.
Qed.

Lemma clear_events s : store_inv s → young (deleteUpTo EventsScopeName MaxUint64 "" s).2 →
  let '(r, s') := deleteUpTo EventsScopeName MaxUint64 "" s in
  (∃ n, r = Ok n) ∧ store_inv s' ∧ content s' EventsScopeName = Some [] ∧
  ∀ k, k ≠ EventsScopeName → content s' k = content s k.
Proof.
  intros I Y. pose proof (deleteUpTo_edit EventsScopeName MaxUint64 "" s I Y) as H.
  assert (∃ n, (deleteUpTo EventsScopeName MaxUint64 "" s).1 = Ok n) as [n Hn].
  { destruct (events_mapped s I) as [p Hp]. destruct (drain_ok EventsScopeName p MaxUint64 s I Hp) as [m Hm].
    unfold deleteUpTo. assert (validateDeleteUpToRequest (mkdeleteUpToRequest EventsScopeName MaxUint64 "") = Ok tt)
      as -> by (by vm_compute).
    rewrite bind_eq. cbn [fst snd get]. rewrite <- scopes_lookup, Hp by apply I.
    unfold bindE. rewrite bind_eq, Hm, bind_eq. by exists m. }
  unfold written_in, written in H. destruct (events_mapped s I) as [p Hp].
  assert (content s EventsScopeName = Some (view (buf_at s p))) as Hc by (unfold content; by rewrite Hp).
  rewrite Hc in H. destruct (deleteUpTo _ _ _ s) as [r s']. cbn [fst] in Hn. subst r.
  destruct H as [I' (l' & Hl' & HR) Ho]. rewrite Hc in HR. cbn [default] in HR.
  split; [by eexists|]. split; [done|]. split; [|intros k Hk; by apply Ho].
  rewrite Hl'. change (request_address "" MaxUint64 "") with (AtSeq MaxUint64) in HR. destruct HR as [_ ->].
  f_equal. apply filter_all_out. intros e He. pose proof (content_seq s _ _ e I Hc He). lia.
Qed.

(** RunInitCommand: the command's own requests, then the clearing. *)
Lemma init_spec (run : SM (result string unit)) command s : store_inv s →
  rtc sstep s (run s).2 → young (RunInitCommand run command s).2 → command ≠ ""%string →
  let '(r, s') := RunInitCommand run command s in let s1 := (run s).2 in
  store_inv s' ∧ content s' EventsScopeName = Some [] ∧
  (∀ k, k ≠ EventsScopeName → content s' k = content s1 k) ∧
  (r = Ok tt ↔ (run s).1 = Ok tt).
Proof.
  intros I S Y Hne. unfold RunInitCommand in *. rewrite bool_decide_false in * by done.
  rewrite bind_eq in *. destruct (run s) as [x s1]. cbn [fst snd] in *. rewrite bind_eq in *.
  pose proof (clear_events s1) as HC. pose proof (tr_clock _ _ _ (steps_deleteUpTo EventsScopeName MaxUint64 "") s1) as Ht.
  destruct (deleteUpTo _ _ _ s1) as [r s2]. cbn [fst snd ret] in *.
  destruct (steps_ok s s1 I S) as [I1 _]; [unfold young in *; lia|].
  destruct (HC I1 Y) as (_ & I2 & E & Ho). split; [done|]. split; [done|]. split; [done|].
  destruct x as [[]|e]; [done|]. split; done.
Qed.
End Init.
