(* ===== verification/ExtensionTheorems.v ===== *)
(** * The operator's commands and the PHP extension

  What the commands an operator configures and a PHP program can rely on. *)
From S2P Require Import Prelude GoStd Uuid Types Wire Validation Buffer BufferInv BufferSpec BufferRead.
From S2P Require Import Clock Store StoreInv BufferOps StoreSpec Events StoreOps StoreClock Bulk BulkSpec.
From S2P Require Import RebuildSpec WarmSpec Steps SubscribeSpec OpsSteps EventsSpec Refine RefineOps RefineBulk.
From S2P Require Import Simulation Handlers HandlersSpec Gateway GatewaySpec Php PhpSpec.
From S2P Require Import Subscriber SubscriberSpec.

Section Commands.
Context `{EV : Env} `{CP : Caps} `{SH : ScopeHash} `{EM : EventMarshal} `{CO : !CapsOk}.

(** A state of a bridge that StartSubscriber set up, whatever has happened since. *)
Definition bridge_reaches (scope command : string) (s : store) (x : bridge * store) : Prop :=
  ∃ b s', StartSubscriber scope command s = (Ok b, s') ∧ rtc (bridge_step scope) (b, s') x ∧ young x.2.

Lemma reaches_inv scope command s x : store_inv s → chans_ok s → bridge_reaches scope command s x →
  bridge_inv scope x.
Proof.
  intros I C (b & s' & Hs & Hx & Y). destruct (start_spec scope command s b s' I C Hs) as [B _].
  by eapply bridge_steps_inv.
Qed.


Lemma steps_execution scope x y : rtc (bridge_step scope) x y → ∃ n, execution scope n x y.
Proof.
  induction 1 as [x|x y z [Hs|Hs] _ [n IH]]; [exists 0%nat; apply ex_nil|exists (S n); by eapply ex_own|].
  exists n. by eapply ex_env.
Qed.

(** C27: stop ends the bridge: from the moment it is called no command is started
    any more, and one of its steps or of the goroutine's can always be taken until
    it returns; once it has unsubscribed, at most four are left, whatever the rest
    of the program does; once it has returned, the goroutine is gone for good. *)
Theorem stop_returns scope command s x : store_inv s → chans_ok s → bridge_reaches scope command s x →
  (br_stop x.1 ≠ NotCalled → br_stop x.1 ≠ Returned → ∃ y, own_step scope x y) ∧
  (br_stop x.1 ≠ NotCalled → ∀ y, rtc (bridge_step scope) x y → br_runs y.1 = br_runs x.1) ∧
  (unsubbed x.1 = true → ∀ n y, execution scope n x y → young y.2 →
    (n ≤ 4)%nat ∧ br_runs y.1 = br_runs x.1) ∧
  (br_stop x.1 = Returned → ∀ y, rtc (bridge_step scope) x y → young y.2 →
    br_phase y.1 = Exited ∧ br_runs y.1 = br_runs x.1).
Proof.
  intros I C R. pose proof (reaches_inv _ _ _ _ I C R) as B.
  assert (br_stop x.1 ≠ NotCalled → ∀ y, rtc (bridge_step scope) x y → br_runs y.1 = br_runs x.1) as Hruns.
  { intros Hst y Hy. apply (cancelled_runs scope x y Hy). by apply (bi_cancel _ _ B). }
  split; [intros; by eapply own_enabled|]. split; [exact Hruns|]. split.
  - intros Hu n y Hx Y. destruct (execution_progress scope n x y Hx B Hu Y) as (_ & ?).
    split; [pose proof (work_bound x); lia|]. apply Hruns; [|by eapply execution_steps].
    intros E. unfold unsubbed in Hu. by rewrite E in Hu.
  - intros Hst y Hy Y. split; [|apply Hruns; [congruence|done]]. destruct (steps_execution _ _ _ Hy) as [n Hx].
    assert (unsubbed x.1 = true) as Hu by (unfold unsubbed; by rewrite Hst).
    destruct (execution_progress scope n x y Hx B Hu Y) as (_ & Hw).
    pose proof (bridge_steps_inv scope x y B Hy Y) as By.
    assert (br_stop y.1 = Returned) as Hsy.
    { unfold left_to_do in Hw. rewrite Hst in Hw.
      destruct (br_stop y.1), (br_phase y.1), (pending (chans y.2 !!! br_ch y.1)); first [done|lia]. }
    by apply (bi_returned _ _ By).
Qed.

End Commands.

Section Extension.
Context `{EV : Env} `{CP : Caps} `{SH : ScopeHash} `{EM : EventMarshal} `{DE : Decoders} `{RM : RespMarshal}.
Context `{AT : ArrayErrorText} {array : Type} `{GA : !GoMap array} `{ML : !MarshalLaw}.

End Extension.
