(* ===== verification/Sockets.v ===== *)
(** * Sockets and files of the adapters

  [listenUnixSocket] (cmd/scopecache/main.go) and the private socket of the
  boot command ([runInitWithPrivateSocket], main.go and
  caddymodule/module.go), on a small file system. Every call of the operating
  system may be refused, at the kernel's choice ([refused]); a refused call
  has no effect. A file is known by its path as written: two spellings of one
  path are two files here. *)
From S2P Require Import Prelude GoStd Uuid Types Wire Validation Buffer BufferInv BufferSpec BufferRead.
From S2P Require Import Store StoreInv BufferOps StoreSpec Events StoreOps Bulk Steps Subscriber.

(** ** path/filepath (Unix) *)
Definition slash : Z := 47.
(** The elements between slashes. *)
Fixpoint split_slash (l : list Z) : list (list Z) :=
  match l with
  | [] => [[]]
  | c :: l =>
      match split_slash l with
      | [] => [[c]]
      | w :: ws => if c =? slash then [] :: w :: ws else (c :: w) :: ws
      end
  end.
Definition rooted (l : list Z) : bool := match l with c :: _ => c =? slash | [] => false end.

(** Clean's pass over the elements; [acc] holds the ones kept, last first. *)
Fixpoint clean_elements (root : bool) (ws acc : list (list Z)) : list (list Z) :=
  match ws with
  | [] => reverse acc
  | w :: ws =>
      if bool_decide (w = [] ∨ w = [46]) then clean_elements root ws acc
      else if bool_decide (w = [46; 46]) then
        match acc with
        | [] => clean_elements root ws (if root then [] else [w])
        | a :: acc' => clean_elements root ws (if bool_decide (a = w) then w :: acc else acc')
        end
      else clean_elements root ws (w :: acc)
  end.
Fixpoint join_slash (ws : list (list Z)) : list Z :=
  match ws with
  | [] => []
  | [w] => w
  | w :: ws => w ++ slash :: join_slash ws
  end.
(** The path of some elements. *)
Definition path_of (root : bool) (ws : list (list Z)) : string :=
  of_codes (match ws with
            | [] => if root then [slash] else [46]
            | _ => (if root then [slash] else []) ++ join_slash ws
            end).
Definition elements_of (path : string) : list (list Z) :=
  clean_elements (rooted (codes path)) (split_slash (codes path)) [].
Definition filepath_Clean (path : string) : string :=
  path_of (rooted (codes path)) (elements_of path).
(** All but the last element: what stands before the last slash, cleaned. *)
Fixpoint from_slash (l : list Z) : list Z :=
  match l with
  | [] => []
  | c :: l' => if c =? slash then l else from_slash l'
  end.
Definition filepath_Dir (path : string) : string :=
  filepath_Clean (of_codes (reverse (from_slash (reverse (codes path))))).
Definition filepath_Join (dir name : string) : string := filepath_Clean (dir +:+ "/" +:+ name).

(** ** The file system *)
Inductive node :=
  | Directory
  | SocketFile (perm : Z)
  | Symlink (to_directory : bool)
  | OtherFile (type : string).
Definition is_socket (n : node) : bool := match n with SocketFile _ => true | _ => false end.
(** What Stat, which follows links, calls a directory. *)
Definition is_directory (n : node) : bool :=
  match n with Directory | Symlink true => true | _ => false end.

Record os := mkos {
  nodes : gmap string node;
  listening : gset string;   (* paths of the open listeners *)
  sys_calls : nat;           (* calls of the kernel so far *)
}.
#[export] Instance eta_os : Eta os := λ o, mkos (nodes o) (listening o) (sys_calls o).
Definition OM : Type → Type := ST os.

Inductive os_error :=
  | ErrNotExist | ErrExist | ErrNotDirectory | ErrNotEmpty
  | ErrRefused (why : string)
  | ErrNonSocket (path : string).

(** The kernel: which of its calls fail for reasons of its own, the mode a new
    socket gets, and the names it finds for temporary directories. *)
Class Kernel := {
  refused : nat → option string;
  bind_perm : Z;
  temp_name : nat → string;
}.

Section Os.
Context `{Kernel}.

Definition syscall {A} (m : OM (result os_error A)) : OM (result os_error A) := λ o,
  let o' := o <| sys_calls := S (sys_calls o) |> in
  match refused (sys_calls o) with
  | Some why => (Err (ErrRefused why), o')
  | None => m o'
  end.

Definition put_node (path : string) (n : node) (o : os) : os := o <| nodes := <[path := n]> (nodes o) |>.
Definition drop_node (path : string) (o : os) : os := o <| nodes := delete path (nodes o) |>.

Definition Lstat (path : string) : OM (result os_error node) := syscall (λ o,
  match nodes o !! path with Some n => (Ok n, o) | None => (Err ErrNotExist, o) end).

(** [unlink], and [rmdir] of an empty directory. *)
Definition has_entries (dir : string) (o : os) : bool :=
  existsb (λ p, bool_decide (p ≠ dir) && bool_decide (filepath_Dir p = dir)) (elements (dom (nodes o))).
Definition Remove (path : string) : OM (result os_error unit) := syscall (λ o,
  match nodes o !! path with
  | None => (Err ErrNotExist, o)
  | Some Directory => if has_entries path o then (Err ErrNotEmpty, o) else (Ok tt, drop_node path o)
  | Some _ => (Ok tt, drop_node path o)
  end).

Definition Mkdir (path : string) : OM (result os_error unit) := syscall (λ o,
  if bool_decide (path = "") then (Err ErrNotExist, o)
  else match nodes o !! path with
  | Some _ => (Err ErrExist, o)
  | None => (Ok tt, put_node path Directory o)
  end).
(** Nothing to do where a directory stands; otherwise every missing one on the
    way is made, the shortest first. *)
Definition ensure_directory (path : string) : OM (result os_error unit) := λ o,
  match nodes o !! path with
  | Some n => if is_directory n then (Ok tt, o) else (Err ErrNotDirectory, o)
  | None => Mkdir path o
  end.
Fixpoint make_directories (root : bool) (done todo : list (list Z)) : OM (result os_error unit) :=
  match todo with
  | [] => ret (Ok tt)
  | w :: todo =>
      let? _ := ensure_directory (path_of root (done ++ [w])) in
      make_directories root (done ++ [w]) todo
  end.
Definition MkdirAll (path : string) : OM (result os_error unit) := λ o,
  match nodes o !! path with
  | Some n => if is_directory n then (Ok tt, o) else (Err ErrNotDirectory, o)
  | None => make_directories (rooted (codes path)) [] (elements_of path) o
  end.

(** [bind] makes the file, [listen] opens the listener. *)
Definition net_Listen (path : string) : OM (result os_error string) := syscall (λ o,
  match nodes o !! path with
  | Some _ => (Err ErrExist, o)
  | None =>
      if from_option is_directory false (nodes o !! filepath_Dir path)
      then (Ok path, put_node path (SocketFile bind_perm) o <| listening := listening o ∪ {[path]} |>)
      else (Err ErrNotExist, o)
  end).
(** A Unix listener unlinks its path when it is closed, once. *)
Definition unlink (path : string) : OM (result os_error unit) := syscall (λ o,
  match nodes o !! path with
  | None => (Err ErrNotExist, o)
  | Some Directory => (Err ErrExist, o)
  | Some _ => (Ok tt, drop_node path o)
  end).
Definition ln_Close (ln : string) : OM unit := λ o,
  if bool_decide (ln ∈ listening o) then
    let '(_, o) := unlink ln o in (tt, o <| listening := listening o ∖ {[ln]} |>)
  else (tt, o).
Definition Chmod (path : string) (perm : Z) : OM (result os_error unit) := syscall (λ o,
  match nodes o !! path with
  | None => (Err ErrNotExist, o)
  | Some (SocketFile _) => (Ok tt, put_node path (SocketFile perm) o)
  | Some _ => (Ok tt, o)
  end).

Definition MkdirTemp : OM (result os_error string) := λ o,
  let dir := temp_name (sys_calls o) in
  (let? _ := Mkdir dir in ret (Ok dir)) o.
Definition under (dir path : string) : Prop := path = dir ∨ String.prefix (dir +:+ "/") path = true.
#[export] Instance under_dec dir path : Decision (under dir path) := _.
Definition RemoveAll (dir : string) : OM (result os_error unit) := syscall (λ o,
  (Ok tt, o <| nodes := filter (λ kv, ¬ under dir kv.1) (nodes o) |>)).

(** ** main.go *)
Definition UnixSocketPerm : Z := 432.  (* 0660 *)

Definition listenUnixSocket (path : string) : OM (result os_error string) :=
  let dir := filepath_Dir path in
  let? _ := MkdirAll dir in
  let* info := Lstat path in
  let? _ :=
    match info with
    | Ok n => if negb (is_socket n) then ret (Err (ErrNonSocket path)) else Remove path
    | Err ErrNotExist => ret (Ok tt)
    | Err e => ret (Err e)
    end in
  let? ln := net_Listen path in
  let* r := Chmod path UnixSocketPerm in
  match r with
  | Err e =>
      ln_Close ln ;;;
      let* _ := Remove path in
      ret (Err e)
  | Ok _ => ret (Ok ln)
  end.
End Os.

(** ** The private socket of the boot command

  A command is what its requests make of the store, given its
  SCOPECACHE_SOCKET_PATH: those answered by the time it ends, with how it ended,
  and those still in their handlers then, or sent by a process it left behind,
  before the socket is closed. The deferred RemoveAll comes last on every path;
  its error is only logged. *)
Record boot_command := mkcommand {
  command_run : string → SM (result string unit);
  command_late : string → SM unit;
}.
Record world := mkworld { w_os : os; w_store : store }.
Definition WM : Type → Type := ST world.
Definition on_os {A} (m : OM A) : WM A := λ w,
  let '(a, o) := m (w_os w) in (a, mkworld o (w_store w)).
Definition on_store {A} (m : SM A) : WM A := λ w,
  let '(a, s) := m (w_store w) in (a, mkworld (w_os w) s).

Inductive init_error :=
  | InitTempDir (e : os_error)
  | InitListen (sockPath : string) (e : os_error)
  | InitRun (e : string).

Section PrivateSocket.
Context `{EV : Env} `{CP : Caps} `{SH : ScopeHash} `{EM : EventMarshal} `{KE : Kernel}.

Definition runInitWithPrivateSocket (run : boot_command) (command : string)
    : WM (result init_error unit) :=
  let* d := on_os MkdirTemp in
  match d with
  | Err e => ret (Err (InitTempDir e))
  | Ok dir =>
      let sockPath := filepath_Join dir "init.sock" in
      let* l := on_os (net_Listen sockPath) in
      match l with
      | Err e =>
          let* _ := on_os (RemoveAll dir) in
          ret (Err (InitListen sockPath e))
      | Ok ln =>
          let* runErr := on_store (RunInitCommand (command_run run sockPath) command) in
          on_store (command_late run sockPath) ;;;
          (* server.Shutdown: closes the listener and waits for the requests, which
             are taken to be answered within its five seconds *)
          on_os (ln_Close ln) ;;;
          let* _ := on_os (RemoveAll dir) in
          ret (match runErr with Err e => Err (InitRun e) | Ok _ => Ok tt end)
      end
  end.
End PrivateSocket.
