(* ===== verification/SocketsSpec.v ===== *)
(** * What the socket code does to the file system

  [keeps path]: nothing that stood in the file system is lost, but for a stale
  socket at [path]. *)
From S2P Require Import Prelude GoStd Uuid Types Wire Validation Buffer BufferInv BufferSpec BufferRead.
From S2P Require Import Store StoreInv BufferOps StoreSpec Events StoreOps Bulk Steps Subscriber Sockets.

Definition keeps (path : string) (o o' : os) : Prop := ∀ p n,
  nodes o !! p = Some n → nodes o' !! p = Some n ∨ (p = path ∧ is_socket n = true).
#[export] Instance keeps_preorder path : PreOrder (keeps path).
Proof.
  split; [intros o p n; by left|]. intros o1 o2 o3 H1 H2 p n Hn.
  destruct (H1 p n Hn) as [Hn2|]; [by apply H2|by right].
Qed.

(** An OS action that keeps the files and the listeners. *)
Record tame (path : string) {A} (m : OM A) : Prop := {
  tm_keeps o : keeps path o (m o).2;
  tm_listening o : listening (m o).2 = listening o;
}.
#[global] Arguments tame path {A} m.

Section Spec.
Context `{KE : Kernel}.
Implicit Types (path p : string) (o : os).

Lemma tame_ret path {A} (a : A) : tame path (ret a).
Proof. split; [intros o; reflexivity|done]. Qed.
Lemma tame_bind path {A B} (m : OM A) (k : A → OM B) : tame path m → (∀ a, tame path (k a)) →
  tame path (bind m k).
Proof.
  intros [K1 L1] Hk. split; intros o; rewrite bind_eq; destruct (Hk (m o).1) as [K2 L2].
  - by transitivity (m o).2.
  - by rewrite L2, L1.
Qed.
Lemma tame_bindE path {A B} (m : OM (result os_error A)) (k : A → OM (result os_error B)) :
  tame path m → (∀ a, tame path (k a)) → tame path (bindE m k).
Proof. intros Hm Hk. apply tame_bind; [done|]. intros []; [apply Hk|apply tame_ret]. Qed.

Lemma keeps_calls path o n : keeps path o (o <| sys_calls := n |>).
Proof. by left. Qed.
Lemma tame_syscall path {A} (m : OM (result os_error A)) : tame path m → tame path (syscall m).
Proof.
  intros [K L]. split; intros o; unfold syscall; case_match; cbn.
  - apply keeps_calls.
  - etransitivity; [apply keeps_calls|apply K].
  - done.
  - by rewrite L.
Qed.

(** A change of one file. *)
Lemma keeps_put path p n o : (nodes o !! p = None ∨ p = path ∧ from_option is_socket false (nodes o !! p) = true) →
  keeps path o (put_node p n o).
Proof.
  intros Hp q m Hq. cbn. destruct (decide (p = q)) as [<-|Hne].
  - right. rewrite Hq in Hp. destruct Hp as [|[-> ?]]; done.
  - left. by rewrite lookup_insert_ne.
Qed.
Lemma keeps_drop path o : from_option is_socket true (nodes o !! path) = true →
  keeps path o (drop_node path o).
Proof.
  intros Hp q m Hq. cbn. destruct (decide (path = q)) as [<-|Hne].
  - right. rewrite Hq in Hp. done.
  - left. by rewrite lookup_delete_ne.
Qed.

Lemma tame_Lstat path p : tame path (Lstat p).
Proof.
  apply tame_syscall. split; intros o; destruct (nodes o !! p); done.
Qed.
Lemma tame_Mkdir path p : tame path (Mkdir p).
Proof.
  apply tame_syscall. split; intros o; (case_bool_decide; [done|]); destruct (nodes o !! p) eqn:E; try done.
  apply keeps_put. by left.
Qed.
Lemma tame_ensure path p : tame path (ensure_directory p).
Proof.
  split; intros o; unfold ensure_directory; destruct (nodes o !! p) as [n|]; try (by destruct (is_directory n));
    apply (tame_Mkdir path).
Qed.
Lemma tame_make path root todo : ∀ done, tame path (make_directories root done todo).
Proof.
  induction todo as [|w todo IH]; intros done; cbn; [apply tame_ret|].
  apply tame_bindE; [apply tame_ensure|intros _; apply IH].
Qed.
Lemma tame_MkdirAll path p : tame path (MkdirAll p).
Proof.
  split; intros o; unfold MkdirAll; destruct (nodes o !! p) as [n|]; try (by destruct (is_directory n));
    apply (tame_make path).
Qed.

(** Removing and changing what is, or was made, a socket. *)
Definition stale path o : Prop := from_option is_socket true (nodes o !! path) = true.

Lemma syscall_stale {A} (m : OM (result os_error A)) path o :
  (∀ o, stale path o → keeps path o (m o).2 ∧ stale path (m o).2 ∧ listening (m o).2 = listening o) →
  stale path o →
  keeps path o (syscall m o).2 ∧ stale path (syscall m o).2 ∧ listening (syscall m o).2 = listening o.
Proof.
  intros Hm Hs. unfold syscall. set (o1 := o <| sys_calls := _ |>).
  assert (keeps path o o1) as K1 by apply keeps_calls. assert (listening o1 = listening o) as L1 by done.
  assert (stale path o1) as S1 by exact Hs. clearbody o1. case_match; [done|].
  destruct (Hm o1 S1) as (K2 & S2 & L2). split_and!; [by transitivity o1|done|congruence].
Qed.
Lemma drop_stale path o : stale path (drop_node path o).
Proof. unfold stale. cbn. by rewrite lookup_delete_eq. Qed.
Lemma Remove_stale path o : stale path o →
  keeps path o (Remove path o).2 ∧ stale path (Remove path o).2 ∧ listening (Remove path o).2 = listening o.
Proof.
  apply syscall_stale. clear o. intros o Hs. unfold stale in Hs.
  destruct (nodes o !! path) as [[]|] eqn:E; cbn in *; try done.
  - split_and!; [|apply drop_stale|done]. apply keeps_drop. by rewrite E.
  - split_and!; [done| |done]. unfold stale. by rewrite E.
Qed.
Lemma unlink_stale path o : stale path o →
  keeps path o (unlink path o).2 ∧ stale path (unlink path o).2 ∧ listening (unlink path o).2 = listening o.
Proof.
  apply syscall_stale. clear o. intros o Hs. unfold stale in Hs.
  destruct (nodes o !! path) as [[]|] eqn:E; cbn in *; try done.
  - split_and!; [|apply drop_stale|done]. apply keeps_drop. by rewrite E.
  - split_and!; [done| |done]. unfold stale. by rewrite E.
Qed.
Lemma Chmod_stale path perm o : stale path o →
  keeps path o (Chmod path perm o).2 ∧ stale path (Chmod path perm o).2 ∧
  listening (Chmod path perm o).2 = listening o.
Proof.
  apply syscall_stale. clear o. intros o Hs. unfold stale in Hs.
  destruct (nodes o !! path) as [[]|] eqn:E; cbn in *; try done.
  - split_and!; [apply keeps_put; right; by rewrite E|unfold stale; cbn; by rewrite lookup_insert_eq|done].
  - split_and!; [done| |done]. unfold stale. by rewrite E.
Qed.
Lemma ln_Close_stale path o : stale path o →
  keeps path o (ln_Close path o).2 ∧ stale path (ln_Close path o).2 ∧
  listening (ln_Close path o).2 = listening o ∖ {[path]}.
Proof.
  intros Hs. unfold ln_Close. case_bool_decide as Hin; cbn.
  - destruct (unlink_stale path o Hs) as (K & S & L). destruct (unlink path o) as [r o']. cbn in *.
    split_and!; [exact K|exact S|by rewrite L].
  - split_and!; [done|done|]. apply leibniz_equiv. set_solver.
Qed.

(** Binding: refused unless the path is free. *)
Lemma net_Listen_spec path o :
  let '(r, o') := net_Listen path o in
  keeps path o o' ∧
  match r with
  | Ok ln => ln = path ∧ nodes o !! path = None ∧ nodes o' = <[path := SocketFile bind_perm]> (nodes o) ∧
      listening o' = listening o ∪ {[path]}
  | Err _ => nodes o' = nodes o ∧ listening o' = listening o
  end.
Proof.
  unfold net_Listen, syscall. destruct (refused _); [by split; [apply keeps_calls|]|]. cbn.
  destruct (nodes o !! path) eqn:E; [by split; [apply keeps_calls|]|].
  destruct (from_option _ _ _); [|by split; [apply keeps_calls|]]. split.
  - intros q n Hq. cbn. left. rewrite lookup_insert_ne; [done|]. intros <-. congruence.
  - done.
Qed.

(** ** listenUnixSocket *)
(** What a call of [listenUnixSocket path] leaves: nothing lost but a stale
    socket; a listener on a file of mode 0660, or none. *)
Definition listen_result path o (r : result os_error string) o' : Prop :=
  keeps path o o' ∧
  match r with
  | Ok ln => ln = path ∧ nodes o' !! path = Some (SocketFile UnixSocketPerm) ∧
      listening o' = listening o ∪ {[path]}
  | Err _ => listening o' = listening o
  end.

(** From a free or stale path on: bind, chmod, and back out on an error. *)
Lemma bind_result path o o1 (r : result os_error unit) : path ∉ listening o →
  keeps path o o1 → listening o1 = listening o → (r = Ok tt → stale path o1) →
  let '(r', o') := (let? _ := ret r in
    let? ln := net_Listen path in
    let* r := Chmod path UnixSocketPerm in
    match r with
    | Err e => ln_Close ln ;;; let* _ := Remove path in ret (Err e)
    | Ok _ => ret (Ok ln)
    end) o1 in listen_result path o r' o'.
Proof.
  intros Hnl K1 L1 Hst. unfold bindE at 1. rewrite bind_eq. cbn [fst snd ret].
  destruct r as [[]|e]; [|by split]. unfold bindE. rewrite bind_eq.
  pose proof (net_Listen_spec path o1) as HL. destruct (net_Listen path o1) as [[ln|e] o2]; cbn [fst snd].
  2: { destruct HL as (K2 & _ & L2). split; [by transitivity o1|congruence]. }
  destruct HL as (K2 & -> & Hfree & Hnew & L2). rewrite bind_eq.
  assert (Hnode : nodes o2 !! path = Some (SocketFile bind_perm)) by (by rewrite Hnew, lookup_insert_eq).
  assert (stale path o2) as S2 by (unfold stale; by rewrite Hnode).
  destruct (Chmod_stale path UnixSocketPerm o2 S2) as (K3 & S3 & L3).
  assert (Hmode : (Chmod path UnixSocketPerm o2).1 = Ok tt →
    nodes (Chmod path UnixSocketPerm o2).2 !! path = Some (SocketFile UnixSocketPerm)).
  { unfold Chmod, syscall. case_match; cbn; [done|]. rewrite Hnode. intros _. cbn.
    by rewrite lookup_insert_eq. }
  destruct (Chmod path UnixSocketPerm o2) as [[[]|e] o3]; cbn [fst snd] in *.
  - split; [by transitivity o2; [transitivity o1|]|]. split_and!; [done|by apply Hmode|]. congruence.
  - rewrite bind_eq. destruct (ln_Close_stale path o3 S3) as (K4 & S4 & L4).
    destruct (ln_Close path o3) as [[] o4]; cbn [fst snd] in *. rewrite bind_eq.
    destruct (Remove_stale path o4 S4) as (K5 & _ & L5). destruct (Remove path o4) as [? o5]; cbn [fst snd] in *.
    split; [by transitivity o4; [transitivity o3; [transitivity o2; [transitivity o1|]|]|]|].
    apply leibniz_equiv. rewrite L5, L4, L3, L2, L1. set_solver.
Qed.

Lemma Lstat_result path o : let '(r, o') := Lstat path o in
  nodes o' = nodes o ∧ listening o' = listening o ∧
  match r with Ok n => nodes o !! path = Some n | Err ErrNotExist => nodes o !! path = None | Err _ => True end.
Proof.
  unfold Lstat, syscall. destruct (refused _); [done|]. cbn. by destruct (nodes o !! path).
Qed.

Lemma listen_spec path o : path ∉ listening o →
  let '(r, o') := listenUnixSocket path o in listen_result path o r o'.
Proof.
  intros Hnl. unfold listenUnixSocket. unfold bindE at 1. rewrite bind_eq.
  destruct (tame_MkdirAll path (filepath_Dir path)) as [K1 L1]. specialize (K1 o). specialize (L1 o).
  destruct (MkdirAll (filepath_Dir path) o) as [[[]|e] o1]; cbn [fst snd] in *; [|by split].
  rewrite bind_eq. pose proof (Lstat_result path o1) as HS.
  destruct (Lstat path o1) as [info o2]; cbn [fst snd] in *. destruct HS as (N2 & L2 & Hinfo).
  assert (K2 : keeps path o o2) by (intros p n Hn; rewrite N2; by apply K1).
  assert (L : listening o2 = listening o) by congruence.
  assert (Hst : ∀ e : os_error, (Err e : result os_error unit) = Ok tt → stale path o2) by done.
  destruct info as [n|e].
  - destruct (is_socket n) eqn:En; cbn [negb].
    + unfold bindE at 1. rewrite bind_eq. assert (stale path o2) as S2 by (unfold stale; by rewrite N2, Hinfo).
      destruct (Remove_stale path o2 S2) as (K3 & S3 & L3).
      destruct (Remove path o2) as [r o3]; cbn [fst snd] in *.
      apply (bind_result path o o3 r); [done|by transitivity o2|congruence|done].
    + by apply (bind_result path o o2 (Err (ErrNonSocket path))).
  - assert (stale path o2 ∨ e ≠ ErrNotExist) as He.
    { destruct e; [left; unfold stale; by rewrite N2, Hinfo|right; done..]. }
    destruct e; [apply (bind_result path o o2 (Ok tt)); try done; intros _; by destruct He|..];
      match goal with |- context [Err ?e] => by apply (bind_result path o o2 (Err e)) end.
Qed.

(** Anything but a socket in the way is left there and reported. *)
Lemma listen_refuses path o n : path ∉ listening o → nodes o !! path = Some n → is_socket n = false →
  ∃ e o', listenUnixSocket path o = (Err e, o') ∧ nodes o' !! path = Some n.
Proof.
  intros Hnl Hn Hs. pose proof (listen_spec path o Hnl) as H.
  destruct (listenUnixSocket path o) as [[ln|e] o'].
  - destruct H as (K & _ & Hp & _). destruct (K path n Hn) as [E|[_ ?]]; [|congruence].
    rewrite E in Hp. injection Hp as ->. done.
  - exists e, o'. split; [done|]. destruct H as [K _]. destruct (K path n Hn) as [?|[_ ?]]; [done|congruence].
Qed.

(** It succeeds where nothing stands in its way. *)
Lemma syscall_granted {A} (m : OM (result os_error A)) o : (∀ n, refused n = None) →
  ∃ n, syscall m o = m (o <| sys_calls := n |>).
Proof. intros R. unfold syscall. rewrite R. by eexists. Qed.
Lemma bindE_ok {A B} (m : OM (result os_error A)) (k : A → OM (result os_error B)) o a :
  (m o).1 = Ok a → bindE m k o = k a (m o).2.
Proof. intros E. unfold bindE. by rewrite bind_eq, E. Qed.
Lemma bind_granted path o : (∀ n, refused n = None) → nodes o !! filepath_Dir path = Some Directory →
  nodes o !! path = None →
  ((let? ln := net_Listen path in
    let* r := Chmod path UnixSocketPerm in
    match r with
    | Err e => ln_Close ln ;;; let* _ := Remove path in ret (Err e)
    | Ok _ => ret (Ok ln)
    end) o).1 = Ok path.
Proof.
  intros R Hd Hp. assert (∃ o1, net_Listen path o = (Ok path, o1) ∧ nodes o1 !! path = Some (SocketFile bind_perm))
    as (o1 & E1 & H1).
  { unfold net_Listen. destruct (syscall_granted (λ o, match nodes o !! path with Some _ => (Err ErrExist, o)
      | None => if from_option is_directory false (nodes o !! filepath_Dir path)
          then (Ok path, put_node path (SocketFile bind_perm) o <| listening := listening o ∪ {[path]} |>)
          else (Err ErrNotExist, o) end) o R) as [n ->]. cbn. rewrite Hp, Hd. cbn. eexists. split; [done|].
    cbn. by rewrite lookup_insert_eq. }
  unfold bindE. rewrite bind_eq, E1. cbn [fst snd]. rewrite bind_eq. unfold Chmod, syscall. rewrite R. cbn.
  by rewrite H1.
Qed.
Lemma listen_succeeds path o : (∀ n, refused n = None) → nodes o !! filepath_Dir path = Some Directory →
  stale path o → (listenUnixSocket path o).1 = Ok path.
Proof.
  intros R Hd Hs. unfold listenUnixSocket. rewrite (bindE_ok _ _ _ tt) by (unfold MkdirAll; by rewrite Hd).
  assert ((MkdirAll (filepath_Dir path) o).2 = o) as -> by (unfold MkdirAll; by rewrite Hd).
  rewrite bind_eq. unfold Lstat, syscall. rewrite R. cbn. unfold stale in Hs.
  destruct (nodes o !! path) as [n|] eqn:Ep; cbn in Hs |- *.
  - rewrite Hs. cbn. assert (path ≠ filepath_Dir path) as Hne.
    { intros E. rewrite <- E, Ep in Hd. injection Hd as ->. done. }
    destruct n as [|perm| |]; try done. rewrite (bindE_ok _ _ _ tt).
    2: { unfold Remove, syscall. rewrite R. cbn. by rewrite Ep. }
    apply bind_granted; [done|..]; unfold Remove, syscall; rewrite R; cbn; rewrite Ep; cbn.
    + by rewrite lookup_delete_ne. + by rewrite lookup_delete_eq.
  - by apply bind_granted.
Qed.
End Spec.
