(* ===== verification/Lifecycle.v ===== *)
(** * The life of an instance: boot, service, shutdown

  The main function of cmd/scopecache/main.go, in its two halves (the boot is
  sequential; from the public listener on, main, the goroutine that waits for
  the signal, the server and the subscriber goroutines run side by side), and
  Provision and Cleanup of caddymodule/module.go. *)
From S2P Require Import Prelude GoStd Uuid Types Wire Validation Buffer BufferInv BufferSpec BufferRead.
From S2P Require Import Store StoreInv BufferOps StoreSpec Events StoreOps Bulk Steps Gateway Adapters.
From S2P Require Import Subscriber Sockets.

Section Lifecycle.
Context `{EV : Env} `{CP : Caps} `{SH : ScopeHash} `{EM : EventMarshal} `{KE : Kernel}.

(** ** The boot of main: the init command, the subscribers, the public socket *)
Definition boot_init (run : boot_command) (initCommand : string) : WM (result init_error unit) :=
  if bool_decide (initCommand = "") then ret (Ok tt) else runInitWithPrivateSocket run initCommand.
Definition main_boot (run : boot_command) (initCommand subscriberCommand path : string)
    : WM (result os_error string * list (string * bridge)) :=
  let* _ := boot_init run initCommand in   (* an error is logged *)
  let* bridges := on_store (StartReservedSubscribers subscriberCommand) in
  let* ln := on_os (listenUnixSocket path) in
  ret (ln, bridges).

(** ** Several bridges at once *)
Abbreviation bridges := (list (string * bridge)).

(** The goroutines' own steps, and the ends of their commands. *)
Inductive loops : bridges * store → bridges * store → Prop :=
  | loops_step i k b b' bs s s' : bs !! i = Some (k, b) → loop_step (b, s) (b', s') →
      loops (bs, s) (<[i := (k, b')]> bs, s').
Inductive commands : bridges * store → bridges * store → Prop :=
  | commands_end i k b bs s : bs !! i = Some (k, b) → br_phase b = Running →
      commands (bs, s) (<[i := (k, b <| br_phase := AtRange |>)]> bs, s).

(** The stop function StartReservedSubscribers returns, at work on the bridges
    [todo], by index: one step of the stop function of the first, or on to the
    next. Two calls of it share what is done, each of the steps being idempotent. *)
Definition stop_all {A} (bs : list A) : list nat := reverse (seq 0 (length bs)).
Inductive stopping : bridges * store * list nat → bridges * store * list nat → Prop :=
  | stopping_step i todo k b b' bs s s' : bs !! i = Some (k, b) → stop_step k (b, s) (b', s') →
      stopping (bs, s, i :: todo) (<[i := (k, b')]> bs, s', i :: todo)
  | stopping_next i todo k b bs s : bs !! i = Some (k, b) → br_stop b = Returned →
      stopping (bs, s, i :: todo) (bs, s, todo).

(** Another goroutine takes a section of the store: requests do not subscribe. *)
Definition requests_step (s s' : store) : Prop := sstep s s' ∧ subscribers s' = subscribers s.

(** ** main, from the listener on *)
Inductive main_pc :=
  | Serving                    (* at <-serveDone *)
  | Closing | Unlinking        (* ln.Close(), os.Remove(socketPath) *)
  | Deferred (todo : list nat) (* the deferred stopSubscribers *)
  | MainReturned.              (* the process is gone *)
#[export] Instance main_pc_eq_dec : EqDecision main_pc.
Proof. solve_decision. Defined.
Inductive watcher_pc :=
  | AwaitSignal
  | StoppingSubs (todo : list nat)
  | ShuttingDown               (* in server.Shutdown *)
  | WatcherReturned.

Record process := mkprocess {
  pr_os : os;
  pr_store : store;
  pr_bridges : bridges;
  pr_path : string;
  pr_signalled : bool;
  pr_registered : bool;   (* Serve has the listener *)
  pr_shutdown : bool;     (* Shutdown has been called *)
  pr_requests : nat;      (* requests in their handlers *)
  pr_main : main_pc;
  pr_watcher : watcher_pc;
}.
#[export] Instance eta_process : Eta process := λ p,
  mkprocess (pr_os p) (pr_store p) (pr_bridges p) (pr_path p) (pr_signalled p) (pr_registered p)
    (pr_shutdown p) (pr_requests p) (pr_main p) (pr_watcher p).

Definition serve_start (w : world) (path : string) (bs : bridges) : process :=
  mkprocess (w_os w) (w_store w) bs path false false false 0 Serving AwaitSignal.

Definition close_listener (p : process) : process :=
  p <| pr_os := (ln_Close (pr_path p) (pr_os p)).2 |>.
Definition with_bridges (bs : bridges) (s : store) (p : process) : process :=
  p <| pr_bridges := bs |> <| pr_store := s |>.

(** The program's own steps. *)
Inductive program_step : process → process → Prop :=
  | ps_loop p bs s : loops (pr_bridges p, pr_store p) (bs, s) → program_step p (with_bridges bs s p)
  | ps_register p : pr_main p = Serving → pr_shutdown p = false →
      program_step p (p <| pr_registered := true |>)
  | ps_signal p : pr_watcher p = AwaitSignal → pr_signalled p = true →
      program_step p (p <| pr_watcher := StoppingSubs (stop_all (pr_bridges p)) |>)
  | ps_stop p todo bs s todo' : pr_watcher p = StoppingSubs todo →
      stopping (pr_bridges p, pr_store p, todo) (bs, s, todo') →
      program_step p (with_bridges bs s p <| pr_watcher := StoppingSubs todo' |>)
  | ps_shutdown p : pr_watcher p = StoppingSubs [] →
      program_step p ((if pr_registered p then close_listener p else p)
        <| pr_shutdown := true |> <| pr_watcher := ShuttingDown |>)
  | ps_drained p : pr_watcher p = ShuttingDown →   (* no request left, or five seconds *)
      program_step p (p <| pr_watcher := WatcherReturned |>)
  | ps_served p : pr_main p = Serving → pr_shutdown p = true →   (* ErrServerClosed *)
      program_step p (close_listener p <| pr_main := Closing |>)
  | ps_close p : pr_main p = Closing →
      program_step p (close_listener p <| pr_main := Unlinking |>)
  | ps_remove p : pr_main p = Unlinking →
      program_step p (p <| pr_os := (Remove (pr_path p) (pr_os p)).2 |>
        <| pr_main := Deferred (stop_all (pr_bridges p)) |>)
  | ps_deferred p todo bs s todo' : pr_main p = Deferred todo →
      stopping (pr_bridges p, pr_store p, todo) (bs, s, todo') →
      program_step p (with_bridges bs s p <| pr_main := Deferred todo' |>)
  | ps_return p : pr_main p = Deferred [] → program_step p (p <| pr_main := MainReturned |>).

(** What comes from outside: the signal, requests, commands that end, a
    listener that fails. *)
Inductive outside_step : process → process → Prop :=
  | os_signal p : outside_step p (p <| pr_signalled := true |>)
  | os_accept p : pr_registered p = true → pr_shutdown p = false → pr_main p = Serving →
      outside_step p (p <| pr_requests := S (pr_requests p) |>)
  | os_request p s : (0 < pr_requests p)%nat → requests_step (pr_store p) s →
      outside_step p (p <| pr_store := s |>)
  | os_answer p : outside_step p (p <| pr_requests := pred (pr_requests p) |>)
  | os_command p bs s : commands (pr_bridges p, pr_store p) (bs, s) →
      outside_step p (with_bridges bs s p)
  | os_serve_error p : pr_main p = Serving → pr_registered p = true →
      outside_step p (close_listener p <| pr_main := Closing |>).

(** A process that has returned from main takes no step. *)
Definition process_step (p q : process) : Prop :=
  pr_main p ≠ MainReturned ∧ (program_step p q ∨ outside_step p q).
End Lifecycle.
