(* ===== verification/LifecycleSpec.v ===== *)
(** * The bridges of a process together, the process around them, and its shutdown *)
From S2P Require Import Prelude GoStd Uuid Types Wire Validation Buffer BufferInv BufferSpec BufferRead.
From S2P Require Import Clock Store StoreInv BufferOps StoreSpec Events StoreOps StoreClock Bulk BulkSpec.
From S2P Require Import RebuildSpec WarmSpec Steps SubscribeSpec OpsSteps EventsSpec Refine RefineOps Gateway Adapters.
From S2P Require Import Subscriber SubscriberSpec Sockets SocketsSpec Lifecycle.

Section Spec.
Context `{EV : Env} `{CP : Caps} `{SH : ScopeHash} `{EM : EventMarshal} `{CO : !CapsOk} `{KE : Kernel}.
Abbreviation bridges := (list (string * bridge)).

(** ** Several bridges *)
Record bridges_inv (bs : bridges) (s : store) : Prop := {
  bsi_bridge i k b : bs !! i = Some (k, b) → bridge_inv k (b, s);
  bsi_keys : NoDup bs.*1;
  bsi_chans : NoDup (br_ch ∘ snd <$> bs);
}.

Lemma keys_insert i k b b' (bs : bridges) : bs !! i = Some (k, b) →
  (<[i := (k, b')]> bs).*1 = bs.*1.
Proof. intros Hi. rewrite list_fmap_insert. apply list_insert_id. by rewrite list_lookup_fmap, Hi. Qed.
Lemma chans_insert i k b b' (bs : bridges) : bs !! i = Some (k, b) → br_ch b' = br_ch b →
  br_ch ∘ snd <$> <[i := (k, b')]> bs = br_ch ∘ snd <$> bs.
Proof.
  intros Hi Hc. rewrite list_fmap_insert. apply list_insert_id. rewrite list_lookup_fmap, Hi. cbn. by rewrite Hc.
Qed.

(** A step of bridge [i] that the other bridges see as a step of their environment. *)
Lemma bridges_step i k b b' bs s s' : bridges_inv bs s → young s' → bs !! i = Some (k, b) →
  br_ch b' = br_ch b → bridge_inv k (b', s') →
  (∀ j k' x, j ≠ i → bs !! j = Some (k', x) → br_ch x ≠ br_ch b → k' ≠ k →
     env_step k' (x, s) (x, s') ∨ s' = s) →
  bridges_inv (<[i := (k, b')]> bs) s'.
Proof.
  intros [HB HK HC] Y Hi Hc B' Henv. split.
  - intros j k' x Hj. apply list_lookup_insert_Some in Hj as [(-> & Hx & _)|[Hne Hj]].
    + by injection Hx as <- <-.
    + assert (br_ch x ≠ br_ch b) as Hch.
      { intros E. apply Hne. eapply (NoDup_lookup _ _ _ (br_ch b) HC); rewrite list_lookup_fmap;
          [by rewrite Hi|by rewrite Hj; cbn; rewrite E]. }
      assert (k' ≠ k) as Hk.
      { intros ->. apply Hne. eapply (NoDup_lookup _ _ _ k HK); rewrite list_lookup_fmap;
          [by rewrite Hi|by rewrite Hj]. }
      destruct (Henv j k' x) as [He| ->]; [by intros ->|done..| |].
      * eapply env_inv; [exact (HB j k' x Hj)|exact Y|exact He].
      * exact (HB j k' x Hj).
  - by rewrite (keys_insert i k b).
  - by rewrite (chans_insert i k b).
Qed.

Lemma loop_store b s b' s' : loop_step (b, s) (b', s') →
  br_ch b' = br_ch b ∧ br_stop b' = br_stop b ∧ (s' = s ∨ s' = (receive (br_ch b) s).2).
Proof.
  intros H. inversion H as [? ? ? Hp Hk Hr|? ? ? Hp Hk Hr|? ? ? Hp Hr|? ? Hp Hk]; subst; (split; [done|split; [done|]]);
    [right|right|right|by left]; by rewrite Hr.
Qed.
Lemma stop_store k b s b' s' : stop_step k (b, s) (b', s') →
  br_ch b' = br_ch b ∧ br_stop b ≠ Returned ∧ (s' = s ∨ s' = (unsubscribe k s).2).
Proof.
  intros H. inversion H as [? ? Hp|? ? Hp|? ? Hp Hq]; subst; cbn; rewrite Hp; (split_and!; [done..|]); auto.
Qed.

Lemma loops_inv bs s bs' s' : bridges_inv bs s → young s' → loops (bs, s) (bs', s') → bridges_inv bs' s'.
Proof.
  intros I Y H. inversion H as [i k b b' ? ? ? Hi Hs]; subst.
  destruct (loop_store _ _ _ _ Hs) as (Hc & _ & Hst).
  eapply bridges_step; [exact I|exact Y|exact Hi|exact Hc| |].
  - by eapply (loop_inv k (b, s)); [apply (bsi_bridge _ _ I i k b Hi)|].
  - intros j k' x _ _ Hch _. destruct Hst as [->| ->]; [by right|left]. apply env_receive. congruence.
Qed.
Lemma commands_inv bs s bs' s' : bridges_inv bs s → young s' → commands (bs, s) (bs', s') → bridges_inv bs' s'.
Proof.
  intros I Y H. inversion H as [i k b ? ? Hi Hr]; subst.
  eapply bridges_step; [exact I|exact Y|exact Hi|done| |].
  - eapply (env_inv k (b, s')); [apply (bsi_bridge _ _ I i k b Hi)|exact Y|by apply env_command_ends].
  - intros. by right.
Qed.
Lemma stopping_inv bs s t bs' s' t' : bridges_inv bs s → young s' → stopping (bs, s, t) (bs', s', t') →
  bridges_inv bs' s'.
Proof.
  intros I Y H. inversion H as [i todo k b b' ? ? ? Hi Hs|i todo k b ? ? Hi Hr]; subst; [|done].
  destruct (stop_store _ _ _ _ _ Hs) as (Hc & _ & Hst).
  eapply bridges_step; [exact I|exact Y|exact Hi|exact Hc| |].
  - by eapply (stop_inv k (b, s)); [apply (bsi_bridge _ _ I i k b Hi)|].
  - intros j k' x _ Hj Hch Hk. destruct Hst as [->| ->]; [by right|left].
    apply env_store; [apply st_section, sc_table, tb_unsubscribe|]. rewrite unsubscribe_run. intros Hx.
    destruct (subscribers s !! k); [|done]. cbn. by rewrite lookup_delete_ne.
Qed.
Lemma requests_inv bs s s' : bridges_inv bs s → young s' → requests_step s s' → bridges_inv bs s'.
Proof.
  intros [HB HK HC] Y [Hs Hsub]. split; [|done..]. intros i k b Hi.
  eapply (env_inv k (b, s)); [by eapply HB|exact Y|]. apply env_store; [exact Hs|]. by rewrite Hsub.
Qed.

(** ** Which bridges have been stopped *)
Definition settles (bs bs' : bridges) : Prop := length bs' = length bs ∧
  ∀ i k b, bs !! i = Some (k, b) → br_stop b = Returned → ∃ b', bs' !! i = Some (k, b') ∧ br_stop b' = Returned.
Definition stopped_but (todo : list nat) (bs : bridges) : Prop :=
  ∀ i k b, bs !! i = Some (k, b) → i ∉ todo → br_stop b = Returned.
(** A stop function at work: what it has yet to stop are bridges, and the others have stopped. *)
Definition at_work (todo : list nat) (bs : bridges) : Prop :=
  stopped_but todo bs ∧ ∀ i, i ∈ todo → is_Some (bs !! i).

Lemma settles_refl bs : settles bs bs.
Proof. split; [done|]. eauto. Qed.
Lemma settles_insert i k b b' bs : bs !! i = Some (k, b) → (br_stop b = Returned → br_stop b' = Returned) →
  settles bs (<[i := (k, b')]> bs).
Proof.
  intros Hi Hb. split; [apply length_insert|]. intros j k' x Hj Hx. destruct (decide (j = i)) as [->|Hne].
  - rewrite Hi in Hj. injection Hj as <- <-. exists b'. rewrite list_lookup_insert_eq by (by eapply lookup_lt_Some). auto.
  - exists x. by rewrite list_lookup_insert_ne.
Qed.
Lemma settles_stopped bs bs' t : settles bs bs' → stopped_but t bs → stopped_but t bs'.
Proof.
  intros [Hl Hs] H i k b' Hi Ht. destruct (lookup_lt_is_Some_2 bs i) as [[k0 b0] H0].
  { rewrite <- Hl. by eapply lookup_lt_Some. }
  destruct (Hs i k0 b0 H0 (H _ _ _ H0 Ht)) as (b1 & H1 & ?). rewrite Hi in H1. by injection H1 as _ <-.
Qed.
Lemma settles_at_work bs bs' t : settles bs bs' → at_work t bs → at_work t bs'.
Proof.
  intros S [H Ht]. split; [by eapply settles_stopped|]. intros i Hi. apply lookup_lt_is_Some_2.
  rewrite (proj1 S). by apply lookup_lt_is_Some_1, Ht.
Qed.
Lemma at_work_all (bs : bridges) : at_work (stop_all bs) bs.
Proof.
  unfold stop_all. split.
  - intros i k b Hi Hn. exfalso. apply Hn. rewrite elem_of_reverse. apply elem_of_seq.
    apply lookup_lt_Some in Hi. lia.
  - intros i. rewrite elem_of_reverse, elem_of_seq. intros Hi. apply lookup_lt_is_Some_2. lia.
Qed.

(** What every step of the bridges does. *)
Record advance (bs : bridges) (s : store) (bs' : bridges) (s' : store) : Prop := {
  ad_inv : bridges_inv bs s → bridges_inv bs' s';
  ad_settles : settles bs bs';
}.
Lemma loops_tick bs s bs' s' : loops (bs, s) (bs', s') → s_tick s' = s_tick s.
Proof.
  intros H. inversion H as [i k b b' ? ? ? Hi Hs]; subst.
  by destruct (loop_store _ _ _ _ Hs) as (_ & _ & [->| ->]); rewrite ?receive_tick.
Qed.
Lemma commands_tick bs s bs' s' : commands (bs, s) (bs', s') → s_tick s' = s_tick s.
Proof. by inversion 1. Qed.
Lemma stopping_tick bs s t bs' s' t' : stopping (bs, s, t) (bs', s', t') → s_tick s' = s_tick s.
Proof.
  intros H. inversion H as [i todo k b b' ? ? ? Hi Hs|]; subst; [|done].
  by destruct (stop_store _ _ _ _ _ Hs) as (_ & _ & [->| ->]); rewrite ?unsubscribe_tick.
Qed.
Lemma loops_advance bs s bs' s' : loops (bs, s) (bs', s') → young s' → advance bs s bs' s'.
Proof.
  intros H Y. assert (bridges_inv bs s → bridges_inv bs' s') by (intros; by eapply loops_inv).
  inversion H as [i k b b' ? ? ? Hi Hs]; subst. destruct (loop_store _ _ _ _ Hs) as (_ & Hst & _).
  split; [done|]. eapply settles_insert; [done|congruence].
Qed.
Lemma commands_advance bs s bs' s' : commands (bs, s) (bs', s') → young s' → advance bs s bs' s'.
Proof.
  intros H Y. assert (bridges_inv bs s → bridges_inv bs' s') by (intros; by eapply commands_inv).
  inversion H as [i k b ? ? Hi Hs]; subst. split; [done|]. by eapply settles_insert.
Qed.
Lemma stopping_advance bs s t bs' s' t' : stopping (bs, s, t) (bs', s', t') → young s' →
  advance bs s bs' s' ∧ (at_work t bs → at_work t' bs').
Proof.
  intros H Y. assert (bridges_inv bs s → bridges_inv bs' s') by (intros; by eapply stopping_inv).
  inversion H as [i todo k b b' ? ? ? Hi Hs|i todo k b ? ? Hi Hr]; subst.
  - destruct (stop_store _ _ _ _ _ Hs) as (_ & Hst & _).
    assert (settles bs (<[i:=(k, b')]> bs)) by (by eapply settles_insert).
    split; [by split|]. by apply settles_at_work.
  - split; [split; [done|apply settles_refl]|]. intros [Hs Ht]. split.
    + intros j k' x Hj Hn. destruct (decide (j = i)) as [->|Hne]; [|by apply (Hs j k'); [|set_solver]].
      rewrite Hi in Hj. by injection Hj as <- <-.
    + intros j Hj. apply Ht. set_solver.
Qed.

(** ** The process *)
(** Its part of the file system: nothing lost but the socket; and, on a kernel
    that refuses nothing, no file is left where nothing listens. *)
Record os_inv (path : string) (o0 o : os) : Prop := {
  oi_keeps : keeps path o0 o;
  oi_stale : stale path o;
  oi_gone : (∀ n, refused n = None) → path ∉ listening o → nodes o !! path = None;
}.
Lemma close_os path o0 o : os_inv path o0 o →
  os_inv path o0 (ln_Close path o).2 ∧ path ∉ listening (ln_Close path o).2.
Proof.
  intros [K S G]. destruct (ln_Close_stale path o S) as (K' & S' & L').
  assert (path ∉ listening (ln_Close path o).2) as Hn by (rewrite L'; set_solver).
  split; [|done]. split; [by transitivity o|done|]. intros R _. unfold ln_Close.
  case_bool_decide as Hin; [|by apply G]. unfold unlink, syscall. rewrite (R _). cbn.
  unfold stale in S. destruct (nodes o !! path) as [[]|] eqn:E; try done; cbn; by rewrite lookup_delete_eq.
Qed.
Lemma remove_os path o0 o : os_inv path o0 o → path ∉ listening o →
  os_inv path o0 (Remove path o).2 ∧ path ∉ listening (Remove path o).2.
Proof.
  intros [K S G] Hn. destruct (Remove_stale path o S) as (K' & S' & L'). rewrite L'. split; [|done].
  split; [by transitivity o|done|]. intros R _. unfold Remove, syscall. rewrite (R _). cbn.
  rewrite (G R Hn). by apply G.
Qed.

Record process_inv (o0 : os) (p : process) : Prop := {
  pi_bridges : bridges_inv (pr_bridges p) (pr_store p);
  pi_watcher : match pr_watcher p with
    | AwaitSignal => pr_shutdown p = false
    | StoppingSubs todo => pr_shutdown p = false ∧ at_work todo (pr_bridges p)
    | ShuttingDown | WatcherReturned => pr_shutdown p = true ∧ stopped_but [] (pr_bridges p)
    end;
  pi_main : match pr_main p with
    | Deferred todo => at_work todo (pr_bridges p)
    | MainReturned => stopped_but [] (pr_bridges p)
    | _ => True
    end;
  pi_os : os_inv (pr_path p) o0 (pr_os p);
  pi_closed : match pr_main p with Serving | Closing => True | _ => pr_path p ∉ listening (pr_os p) end;
}.


(** A step of the bridges and the store, with the two stop functions moved along. *)
Lemma bridges_change o0 p bs s w m : process_inv o0 p → advance (pr_bridges p) (pr_store p) bs s →
  (w = pr_watcher p ∨ ∃ t, pr_shutdown p = false ∧ w = StoppingSubs t ∧ at_work t bs) →
  (m = pr_main p ∨ ∃ t, pr_main p ≠ Serving ∧ pr_main p ≠ Closing ∧ m = Deferred t ∧ at_work t bs) →
  process_inv o0 (with_bridges bs s p <| pr_watcher := w |> <| pr_main := m |>).
Proof.
  intros [PB PW PM PO PC] [AI AS] Hw Hm. split; cbn.
  - by apply AI.
  - destruct Hw as [->|(t & ? & -> & ?)]; [|done]. destruct (pr_watcher p); try done; destruct PW; (split; [done|]);
      [by eapply settles_at_work|by eapply settles_stopped..].
  - destruct Hm as [->|(t & _ & _ & -> & ?)]; [|done].
    destruct (pr_main p); try done; [by eapply settles_at_work|by eapply settles_stopped].
  - done.
  - destruct Hm as [->|(t & ? & ? & -> & _)]; [done|]. by destruct (pr_main p).
Qed.
(** A step that closes the listener, or leaves the files alone. *)
Definition listener_step (p : process) (o : os) : Prop := o = pr_os p ∨ o = (ln_Close (pr_path p) (pr_os p)).2.
Lemma listener_os o0 p o : process_inv o0 p → listener_step p o → os_inv (pr_path p) o0 o ∧
  match pr_main p with Serving | Closing => True | _ => pr_path p ∉ listening o end.
Proof.
  intros [_ _ _ PO PC] [->| ->]; [done|]. destruct (close_os _ _ _ PO). split; [done|]. by destruct (pr_main p).
Qed.

Lemma program_inv o0 p q : process_inv o0 p → young (pr_store q) → program_step p q → process_inv o0 q.
Proof.
  intros P Y H. pose proof P as [PB PW PM PO PC].
  inversion H as [? bs s Hl|? Hm Hd|? Hw Hs|? t bs s t' Hw Hst|? Hw|? Hw|? Hm Hd|? Hm|? Hm|? t bs s t' Hm Hst|? Hm]; subst.
  - pose proof (loops_advance _ _ _ _ Hl Y) as A.
    apply (bridges_change o0 p bs s (pr_watcher p) (pr_main p) P A); by left.
  - by split.
  - split; try done. cbn. split; [by rewrite Hw in PW|apply at_work_all].
  - destruct (stopping_advance _ _ _ _ _ _ Hst Y) as [A Ht]. rewrite Hw in PW.
    apply (bridges_change o0 p bs s (StoppingSubs t') (pr_main p) P A); [right|by left].
    exists t'. destruct PW. auto.
  - rewrite Hw in PW. destruct PW as [PW [PS _]].
    destruct (listener_os o0 p (pr_os (if pr_registered p then close_listener p else p)) P) as [PO' PC'].
    { destruct (pr_registered p); [by right|by left]. }
    destruct (pr_registered p); split; done.
  - rewrite Hw in PW. by split.
  - destruct (listener_os o0 p _ P (or_intror eq_refl)) as [PO' _]. by split.
  - destruct (close_os _ _ _ PO) as [PO' PC']. by split.
  - rewrite Hm in PC. destruct (remove_os _ _ _ PO PC) as [PO' PC']. split; try done. apply at_work_all.
  - destruct (stopping_advance _ _ _ _ _ _ Hst Y) as [A Ht]. rewrite Hm in PM.
    apply (bridges_change o0 p bs s (pr_watcher p) (Deferred t') P A); [by left|right].
    exists t'. rewrite Hm. auto.
  - rewrite Hm in PM, PC. split; try done. apply PM.
Qed.
Lemma outside_inv o0 p q : process_inv o0 p → young (pr_store q) → outside_step p q → process_inv o0 q.
Proof.
  intros P Y H. pose proof P as [PB PW PM PO PC].
  inversion H as [?|? Hr Hd Hm|? s Hn Hs|?|? bs s Hc|? Hm Hr]; subst.
  1, 2, 4: by split.
  - split; try done. by eapply requests_inv.
  - pose proof (commands_advance _ _ _ _ Hc Y) as A.
    apply (bridges_change o0 p bs s (pr_watcher p) (pr_main p) P A); by left.
  - destruct (listener_os o0 p _ P (or_intror eq_refl)) as [PO' _]. by split.
Qed.
Lemma program_tick p q : program_step p q → s_tick (pr_store q) = s_tick (pr_store p).
Proof.
  intros H. inversion H as [? bs s Hl| | |? t bs s t' Hw Hst|? Hw| | | | |? t bs s t' Hm Hst|]; subst; try done.
  - by apply loops_tick in Hl.
  - by apply stopping_tick in Hst.
  - by destruct (pr_registered p).
  - by apply stopping_tick in Hst.
Qed.
Lemma step_tick p q : process_step p q → (s_tick (pr_store p) ≤ s_tick (pr_store q))%nat.
Proof.
  intros [_ [H%program_tick|H]]; [by rewrite H|].
  inversion H as [| |? s Hn Hs| |? bs s Hc|]; subst; try done.
  - by apply sstep_tick, Hs. - apply commands_tick in Hc. cbn. by rewrite Hc.
Qed.
Lemma steps_young p q : rtc process_step p q → young (pr_store q) → young (pr_store p).
Proof.
  induction 1 as [|x y z Hs _ IH]; [done|]. intros Y%IH. apply step_tick in Hs. unfold young in *. lia.
Qed.
Lemma process_inv_steps o0 p q : process_inv o0 p → rtc process_step p q → young (pr_store q) → process_inv o0 q.
Proof.
  intros P H. revert P. induction H as [p|p p' q H1 H2 IH]; [done|]. intros P Y.
  apply IH; [|done]. pose proof (steps_young p' q H2 Y) as Y1.
  destruct H1 as [_ [H1|H1]]; [by eapply program_inv|by eapply outside_inv].
Qed.

(** The bridges stay those of the same scopes, and the socket's path is fixed. *)
Lemma loops_keys bs s bs' s' : loops (bs, s) (bs', s') → bs'.*1 = bs.*1.
Proof. intros H. inversion H as [i k b b' ? ? ? Hi _]; subst. by eapply keys_insert. Qed.
Lemma commands_keys bs s bs' s' : commands (bs, s) (bs', s') → bs'.*1 = bs.*1.
Proof. intros H. inversion H as [i k b ? ? Hi _]; subst. by eapply keys_insert. Qed.
Lemma stopping_keys bs s t bs' s' t' : stopping (bs, s, t) (bs', s', t') → bs'.*1 = bs.*1.
Proof. intros H. inversion H as [i ? k b b' ? ? ? Hi _|]; subst; [by eapply keys_insert|done]. Qed.
Definition same_setup (p q : process) : Prop :=
  pr_path q = pr_path p ∧ (pr_bridges q).*1 = (pr_bridges p).*1.
Lemma step_setup p q : process_step p q → same_setup p q.
Proof.
  intros [_ [H|H]]; inversion H; subst; split; try done; cbn;
    first [by eapply loops_keys|by eapply commands_keys|by eapply stopping_keys|by destruct (pr_registered p)].
Qed.
Lemma steps_setup p q : rtc process_step p q → same_setup p q.
Proof.
  induction 1 as [p|p p' q H1 _ [E1 E2]]; [done|]. apply step_setup in H1 as [E3 E4].
  split; congruence.
Qed.
End Spec.

(** ** A shutdown that is asked for can always be completed

  By steps of the program alone: no request and no command that hangs can hold
  it up. *)
Section Shutdown.
Context `{EV : Env} `{CP : Caps} `{SH : ScopeHash} `{EM : EventMarshal} `{CO : !CapsOk} `{KE : Kernel}.
Abbreviation bridges := (list (string * bridge)).

(** *** One bridge *)
Definition to_stop (x : bridge * store) : nat :=
  match br_stop x.1 with NotCalled => 7 | Cancelled => 6 | Unsubscribed => left_to_do x | Returned => 0 end%nat.
Lemma stop_progress k b s : bridge_inv k (b, s) → br_stop b ≠ Returned →
  ∃ b' s', own_step k (b, s) (b', s') ∧ (to_stop (b', s') < to_stop (b, s))%nat.
Proof.
  intros B Hr. destruct (br_stop b) eqn:Hst; [| | |done].
  - exists (b <| br_cancelled := true |> <| br_stop := Cancelled |>), s.
    split; [right; by apply stop_cancel|]. unfold to_stop. cbn. rewrite Hst. lia.
  - exists (b <| br_stop := Unsubscribed |>), (unsubscribe k s).2.
    split; [right; by apply stop_unsub|]. unfold to_stop. cbn [fst br_stop set_field]. rewrite Hst.
    pose proof (work_bound (b <| br_stop := Unsubscribed |>, (unsubscribe k s).2)). cbn. cbn in H. lia.
  - assert (unsubbed b = true) as Hu by (unfold unsubbed; by rewrite Hst).
    destruct (own_enabled k (b, s) B) as [[b' s'] Hs]; [by cbn; rewrite Hst..|].
    exists b', s'. split; [done|]. destruct (own_progress k _ _ B Hu Hs) as (Hu' & Hlt).
    unfold to_stop. cbn [fst]. rewrite Hst. unfold unsubbed in Hu'. cbn [fst] in Hu'.
    destruct (br_stop b'); try done. lia.
Qed.

(** *** The bridges and a stop function, left to themselves *)
Inductive winding : bridges * store * list nat → bridges * store * list nat → Prop :=
  | wd_loop bs s bs' s' t : loops (bs, s) (bs', s') → winding (bs, s, t) (bs', s', t)
  | wd_stop x y : stopping x y → winding x y.

Lemma winding_step i todo k b b' bs s s' : bs !! i = Some (k, b) → own_step k (b, s) (b', s') →
  winding (bs, s, i :: todo) (<[i := (k, b')]> bs, s', i :: todo).
Proof.
  intros Hi [Hs|Hs]; [by eapply wd_loop, loops_step|by eapply wd_stop, stopping_step].
Qed.
(** What [winding] keeps. *)
Definition sound (x : bridges * store * list nat) : Prop :=
  bridges_inv x.1.1 x.1.2 ∧ young x.1.2 ∧ at_work x.2 x.1.1.
Lemma winding_sound x y : winding x y → sound x → sound y.
Proof.
  intros H. destruct H as [bs s bs' s' t Hl|[[bs s] t] [[bs' s'] t'] Hs]; intros (B & Y & A); unfold sound;
    cbn [fst snd] in *.
  - assert (young s') as Y' by (unfold young in *; by rewrite (loops_tick _ _ _ _ Hl)).
    destruct (loops_advance _ _ _ _ Hl Y'). split_and!; auto. by eapply settles_at_work.
  - assert (young s') as Y' by (unfold young in *; by rewrite (stopping_tick _ _ _ _ _ _ Hs)).
    destruct (stopping_advance _ _ _ _ _ _ Hs Y') as [[] ?]. auto.
Qed.

Lemma windings_sound x y : rtc winding x y → sound x → sound y.
Proof. induction 1; eauto using winding_sound. Qed.

Lemma stop_first n : ∀ i todo bs s, sound (bs, s, i :: todo) →
  (∀ k b, bs !! i = Some (k, b) → to_stop (b, s) < n)%nat →
  ∃ bs' s', rtc winding (bs, s, i :: todo) (bs', s', todo).
Proof.
  induction n as [|n IH]; intros i todo bs s S Hn; destruct S as (B & Y & A);
    destruct (proj2 A i ltac:(left)) as [[k b] Hi]; cbn [fst snd] in *; specialize (Hn k b Hi); [lia|].
  destruct (decide (br_stop b = Returned)) as [Hr|Hr].
  { exists bs, s. by eapply rtc_once, wd_stop, stopping_next. }
  destruct (stop_progress k b s (bsi_bridge _ _ B i k b Hi) Hr) as (b' & s' & Hs & Hlt).
  pose proof (winding_step i todo k b b' bs s s' Hi Hs) as Hw.
  destruct (IH i todo (<[i := (k, b')]> bs) s') as (bs2 & s2 & H2).
  - by eapply winding_sound.
  - intros k' x Hx. rewrite list_lookup_insert_eq in Hx by (by eapply lookup_lt_Some).
    injection Hx as <- <-. lia.
  - exists bs2, s2. by eapply rtc_l.
Qed.
Lemma stop_everything t : ∀ bs s, sound (bs, s, t) → ∃ bs' s', rtc winding (bs, s, t) (bs', s', []).
Proof.
  induction t as [|i t IH]; intros bs s S; [by exists bs, s|].
  destruct (stop_first 8 i t bs s S) as (bs1 & s1 & H1).
  { intros k b _. unfold to_stop. pose proof (work_bound (b, s)). cbn in *. destruct (br_stop b); lia. }
  pose proof (windings_sound _ _ H1 S) as S1.
  destruct (IH bs1 s1 S1) as (bs2 & s2 & H2). exists bs2, s2. by transitivity (bs1, s1, t).
Qed.

(** *** The process by itself *)
Definition own_process_step (p q : process) : Prop := pr_main p ≠ MainReturned ∧ program_step p q.
Lemma own_is_step p q : own_process_step p q → process_step p q.
Proof. intros [? ?]. split; auto. Qed.
Definition fine (o0 : os) (p : process) : Prop := process_inv o0 p ∧ young (pr_store p).
Lemma own_fine o0 p q : fine o0 p → own_process_step p q → fine o0 q.
Proof.
  intros [P Y] [_ H]. assert (young (pr_store q)) by (unfold young in *; by rewrite (program_tick p q H)).
  split; [by eapply program_inv|done].
Qed.
Lemma owns_fine o0 p q : fine o0 p → rtc own_process_step p q → fine o0 q.
Proof. intros F H. induction H; eauto using own_fine. Qed.

(** The two stop functions, at work in the process. *)
Definition watcher_at (p : process) (x : bridges * store * list nat) : process :=
  with_bridges x.1.1 x.1.2 p <| pr_watcher := StoppingSubs x.2 |>.
Definition main_at (p : process) (x : bridges * store * list nat) : process :=
  with_bridges x.1.1 x.1.2 p <| pr_main := Deferred x.2 |>.
Lemma watcher_winds p x y : pr_main p ≠ MainReturned → winding x y →
  own_process_step (watcher_at p x) (watcher_at p y).
Proof.
  intros Hm H. split; [exact Hm|]. destruct H as [bs s bs' s' t Hl|[[bs s] t] [[bs' s'] t'] Hs].
  - exact (ps_loop (watcher_at p (bs, s, t)) bs' s' Hl).
  - exact (ps_stop (watcher_at p (bs, s, t)) t bs' s' t' eq_refl Hs).
Qed.
Lemma main_winds p x y : winding x y → own_process_step (main_at p x) (main_at p y).
Proof.
  intros H. split; [done|]. destruct H as [bs s bs' s' t Hl|[[bs s] t] [[bs' s'] t'] Hs].
  - exact (ps_loop (main_at p (bs, s, t)) bs' s' Hl).
  - exact (ps_deferred (main_at p (bs, s, t)) t bs' s' t' eq_refl Hs).
Qed.
Lemma watcher_at_self p t : pr_watcher p = StoppingSubs t → watcher_at p (pr_bridges p, pr_store p, t) = p.
Proof. destruct p. cbn. by intros ->. Qed.
Lemma main_at_self p t : pr_main p = Deferred t → main_at p (pr_bridges p, pr_store p, t) = p.
Proof. destruct p. cbn. by intros ->. Qed.

(** *** To the end of main *)
Definition finishes (p : process) : Prop := ∃ q, rtc own_process_step p q ∧ pr_main q = MainReturned.
Lemma finishes_step p q : own_process_step p q → finishes q → finishes p.
Proof. intros H (r & Hr & Hm). exists r. split; [by eapply rtc_l|done]. Qed.
Lemma finishes_steps p q : rtc own_process_step p q → finishes q → finishes p.
Proof. intros H (r & Hr & Hm). exists r. split; [by transitivity q|done]. Qed.

Lemma finish_deferred o0 p t : fine o0 p → pr_main p = Deferred t → finishes p.
Proof.
  intros [P Y] Hm. pose proof (pi_main _ _ P) as A. rewrite Hm in A.
  destruct (stop_everything t (pr_bridges p) (pr_store p)) as (bs & s & H).
  { split_and!; [apply P|done|done]. }
  apply (rtc_congruence (main_at p) own_process_step) in H; [|apply main_winds].
  rewrite (main_at_self p t Hm) in H. apply (finishes_steps _ _ H).
  eapply finishes_step; [split; [done|by apply ps_return]|]. by eexists.
Qed.
Lemma finish_unlinking o0 p : fine o0 p → pr_main p = Unlinking → finishes p.
Proof.
  intros F Hm. assert (own_process_step p _) as H by (split; [by rewrite Hm|exact (ps_remove p Hm)]).
  apply (finishes_step _ _ H). eapply finish_deferred; [by eapply own_fine|done].
Qed.
Lemma finish_closing o0 p : fine o0 p → pr_main p = Closing → finishes p.
Proof.
  intros F Hm. assert (own_process_step p _) as H by (split; [by rewrite Hm|exact (ps_close p Hm)]).
  apply (finishes_step _ _ H). eapply finish_unlinking; [by eapply own_fine|done].
Qed.
Lemma finish_shutdown o0 p : fine o0 p → pr_shutdown p = true → finishes p.
Proof.
  intros F Hs. destruct (pr_main p) as [| | |t|] eqn:Hm.
  - assert (own_process_step p _) as H by (split; [by rewrite Hm|exact (ps_served p Hm Hs)]).
    apply (finishes_step _ _ H). eapply finish_closing; [by eapply own_fine|done].
  - by eapply finish_closing.
  - by eapply finish_unlinking.
  - by eapply finish_deferred.
  - by exists p.
Qed.
Lemma finish_stopping o0 p t : fine o0 p → pr_main p ≠ MainReturned → pr_watcher p = StoppingSubs t → finishes p.
Proof.
  intros [P Y] Hm Hw. pose proof (pi_watcher _ _ P) as A. rewrite Hw in A. destruct A as [_ A].
  destruct (stop_everything t (pr_bridges p) (pr_store p)) as (bs & s & H).
  { split_and!; [apply P|done|done]. }
  apply (rtc_congruence (watcher_at p) own_process_step) in H;
    [|intros ? ?; by apply watcher_winds].
  rewrite (watcher_at_self p t Hw) in H. apply (finishes_steps _ _ H).
  assert (own_process_step (watcher_at p (bs, s, [])) _) as H2 by (split; [exact Hm|by apply ps_shutdown]).
  apply (finishes_step _ _ H2). eapply finish_shutdown; [|by destruct (pr_registered _)].
  eapply own_fine; [|exact H2]. by eapply owns_fine.
Qed.
Lemma finish_signalled o0 p : fine o0 p → pr_signalled p = true → finishes p.
Proof.
  intros F Hs. destruct (decide (pr_main p = MainReturned)) as [Hm|Hm]; [by exists p|].
  destruct (pr_watcher p) as [|t| |] eqn:Hw; [|by eapply finish_stopping| |].
  - assert (own_process_step p _) as H by (split; [done|exact (ps_signal p Hw Hs)]).
    apply (finishes_step _ _ H). eapply finish_stopping; [by eapply own_fine|done|done].
  - pose proof (pi_watcher _ _ (proj1 F)) as A. rewrite Hw in A. by eapply finish_shutdown; [|apply A].
  - pose proof (pi_watcher _ _ (proj1 F)) as A. rewrite Hw in A. by eapply finish_shutdown; [|apply A].
Qed.
End Shutdown.
