(* ===== verification/BootSpec.v ===== *)
(** * What the boot of an instance leaves behind *)
From S2P Require Import Prelude GoStd Uuid Types Wire Validation Buffer BufferInv BufferSpec BufferRead.
From S2P Require Import Clock Store StoreInv BufferOps StoreSpec Events StoreOps StoreClock Bulk BulkSpec.
From S2P Require Import RebuildSpec WarmSpec Steps SubscribeSpec OpsSteps EventsSpec Refine RefineOps Gateway Adapters.
From S2P Require Import Subscriber SubscriberSpec Sockets SocketsSpec Lifecycle LifecycleSpec.

(** A file system as a process finds it: below a path where nothing stands
    nothing stands, and a listener has its file. *)
Record os_ok (o : os) : Prop := {
  ok_orphan d p : d ≠ ""%string → nodes o !! d = None → under d p → nodes o !! p = None;
  ok_listening p : p ∈ listening o → is_Some (nodes o !! p);
}.

Section Files.
Context `{KE : Kernel}.
(** Nothing is lost, and no listener comes or goes; if the kernel refuses
    nothing, nothing is left behind either. *)
Record traceless (o o' : os) : Prop := {
  tl_nodes : nodes o ⊆ nodes o';
  tl_listening : listening o' = listening o;
  tl_exact : (∀ n, refused n = None) → nodes o' = nodes o;
}.

Lemma MkdirTemp_spec o : let '(r, o') := MkdirTemp o in listening o' = listening o ∧
  match r with
  | Ok dir => (dir ≠ ""%string ∧ nodes o !! dir = None) ∧ nodes o' = <[dir := Directory]> (nodes o)
  | Err _ => nodes o' = nodes o
  end.
Proof.
  unfold MkdirTemp, bindE, Mkdir, syscall. rewrite bind_eq. destruct (refused _); [done|]. cbn.
  case_bool_decide; [done|]. by destruct (nodes o !! _) eqn:E.
Qed.
Lemma under_self dir : under dir dir.
Proof. by left. Qed.
(** What was there before the directory is not below it. *)
Lemma cleared_nodes dir o (m : gmap string node) : os_ok o → dir ≠ ""%string ∧ nodes o !! dir = None → nodes o ⊆ m →
  nodes o ⊆ filter (λ kv, ¬ under dir kv.1) m.
Proof.
  intros K [Hn Hd] Hm. apply map_subseteq_spec. intros p n Hp. apply map_lookup_filter_Some.
  split; [by eapply lookup_weaken|]. cbn. intros Hu. by rewrite (ok_orphan _ K dir p Hn Hd Hu) in Hp.
Qed.
Lemma cleared_exact dir o : os_ok o → dir ≠ ""%string ∧ nodes o !! dir = None →
  filter (λ kv, ¬ under dir kv.1) (<[dir := Directory]> (nodes o)) = nodes o.
Proof.
  intros K Hd. apply map_eq. intros p. destruct (nodes o !! p) as [n|] eqn:Hp.
  - eapply lookup_weaken; [exact Hp|]. apply cleared_nodes; [done..|]. by apply insert_subseteq, Hd.
  - apply map_lookup_filter_None. destruct (decide (p = dir)) as [->|Hne].
    + right. intros n _ H. apply H, under_self.
    + left. by rewrite lookup_insert_ne.
Qed.
(** Closing the private listener and clearing its directory. *)
Lemma clear_traceless dir o o2 : os_ok o → dir ≠ ""%string ∧ nodes o !! dir = None → nodes o ⊆ nodes o2 →
  listening o2 = listening o → ((∀ n, refused n = None) → nodes o2 = <[dir := Directory]> (nodes o)) →
  traceless o (RemoveAll dir o2).2.
Proof.
  intros K Hd Hn Hl Hx. unfold RemoveAll, syscall. destruct (refused _) eqn:E; split; cbn; try done.
  - intros R. by rewrite R in E. - by apply cleared_nodes.
  - intros R. rewrite (Hx R). by apply cleared_exact.
Qed.
Lemma close_traceless dir sock perm o o2 : os_ok o → dir ≠ ""%string ∧ nodes o !! dir = None →
  <[dir := Directory]> (nodes o) !! sock = None →
  nodes o2 = <[sock := SocketFile perm]> (<[dir := Directory]> (nodes o)) → listening o2 = listening o ∪ {[sock]} →
  traceless o (RemoveAll dir (ln_Close sock o2).2).2.
Proof.
  intros K Hd Hs Hn Hl. set (m := <[dir := Directory]> (nodes o)) in *.
  assert (nodes o ⊆ m) as Hm by (by apply insert_subseteq, Hd).
  assert (delete sock (<[sock := SocketFile perm]> m) = m) as E by (by apply delete_insert_id).
  assert (sock ∉ listening o) as Hnl.
  { intros [n Hp]%(ok_listening _ K). rewrite (lookup_weaken _ _ _ _ Hp Hm) in Hs. done. }
  assert (listening o2 ∖ {[sock]} = listening o) as El by (rewrite Hl; set_solver).
  assert (nodes o ⊆ <[sock := SocketFile perm]> m) as Hm2 by (by transitivity m; [|apply insert_subseteq, Hs]).
  unfold ln_Close. rewrite bool_decide_true by (rewrite Hl; set_solver). unfold unlink, syscall.
  destruct (refused _) eqn:Er; [|cbn; rewrite Hn, lookup_insert_eq]; apply clear_traceless; cbn;
    rewrite ?Hn, ?E; try done.
  intros R. by rewrite R in Er.
Qed.
End Files.

Section Spec.
Context `{EV : Env} `{CP : Caps} `{SH : ScopeHash} `{EM : EventMarshal} `{CO : !CapsOk} `{KE : Kernel}.
Abbreviation bridges := (list (string * bridge)).

Lemma bind_os {A B} (m : OM A) (k : A → WM B) w :
  bind (on_os m) k w = k (m (w_os w)).1 (mkworld (m (w_os w)).2 (w_store w)).
Proof. unfold bind, on_os. by destruct (m (w_os w)). Qed.
Lemma bind_store {A B} (m : SM A) (k : A → WM B) w :
  bind (on_store m) k w = k (m (w_store w)).1 (mkworld (w_os w) (m (w_store w)).2).
Proof. unfold bind, on_store. by destruct (m (w_store w)). Qed.

(** ** The private socket *)
Lemma private_files run command w : os_ok (w_os w) → command ≠ ""%string →
  let '(r, w') := runInitWithPrivateSocket run command w in
  traceless (w_os w) (w_os w') ∧
  ((r ≠ Ok tt ∧ w_store w' = w_store w) ∨
   ∃ sock, let '(r1, s1) := RunInitCommand (command_run run sock) command (w_store w) in
     w_store w' = (command_late run sock s1).2 ∧ (r = Ok tt ↔ r1 = Ok tt)).
Proof.
  intros K Hc. destruct w as [o s]. cbn [w_os w_store] in *. unfold runInitWithPrivateSocket.
  rewrite bind_os. cbn [w_os w_store]. pose proof (MkdirTemp_spec o) as HT.
  destruct (MkdirTemp o) as [[dir|e] o1]; cbn [fst snd]; destruct HT as [L1 HT].
  2: { cbn [ret w_os w_store]. split; [split; cbn [w_os]; rewrite ?HT; done|]. by left. }
  destruct HT as [Hd N1]. set (sock := filepath_Join dir "init.sock"). rewrite bind_os.
  cbn [w_os w_store]. pose proof (net_Listen_spec sock o1) as HL.
  destruct (net_Listen sock o1) as [[ln|e] o2]; cbn [fst snd]; destruct HL as [_ HL].
  - destruct HL as (-> & Hfree & N2 & L2). rewrite N1 in Hfree, N2. rewrite bind_store, bind_store, bind_os, bind_os.
    cbn [w_os w_store ret].
    split; [apply (close_traceless dir sock bind_perm); rewrite ?L2, ?L1; done|]. right. exists sock.
    destruct (RunInitCommand (command_run run sock) command s) as [[[]|e] s1]; by split.
  - destruct HL as [N2 L2]. rewrite bind_os. cbn [w_os w_store ret]. split; [|by left].
    apply clear_traceless; rewrite ?N2, ?N1, ?L2; try done. by apply insert_subseteq, Hd.
Qed.

(** ** The store: ready for subscribers *)
Record ready (s : store) : Prop := {
  rd_inv : store_inv s;
  rd_chans : chans_ok s;
  rd_subs : subscribers s = ∅;
}.
(** [s] holds what [s0] does, but for an empty event log. *)
Definition cleared (s0 s : store) : Prop := content s EventsScopeName = Some [] ∧
  ∀ k, k ≠ EventsScopeName → content s k = content s0 k.
Lemma new_ready : ready newStore ∧ cleared newStore newStore.
Proof.
  destruct newStore_spec as (I & N & E). split; [split; [done|apply newStore_chans|apply newStore_subs]|].
  split; [|done]. destruct (events_mapped newStore I) as [p Hp]. unfold content. rewrite Hp.
  destruct (in_bufs _ _ _ N EventsScopeName p ltac:(left) Hp) as (t & ts & Eb). cbn [fmap option_fmap option_map].
  by rewrite Eb.
Qed.
Lemma clear_frame s : let s' := (deleteUpTo EventsScopeName MaxUint64 "" s).2 in
  subscribers s' = subscribers s ∧ chans s' = chans s.
Proof.
  cbv zeta. unfold deleteUpTo. destruct (validateDeleteUpToRequest _); [|done].
  rewrite bind_eq. cbn [fst snd get]. destruct (getScope s EventsScopeName) as [p|]; [|done].
  unfold bindE. rewrite bind_eq. destruct (with_buf_frame p (drain_target MaxUint64 "") s) as (_ & E1 & E2 & _).
  destruct (with_buf p _ s) as [[n|e] s1]; cbn [fst snd] in *; [|done].
  rewrite bind_eq. unfold emitDeleteUpToEvent, gated.
  assert (eventsEnabled EventsScopeName = false) as ->.
  { unfold eventsEnabled. rewrite bool_decide_true by done. by rewrite andb_false_r. }
  by destruct (0 <? n).
Qed.
(** What requests make of a store. *)
Definition requests_run (s s' : store) : Prop := rtc sstep s s' ∧ subscribers s' = subscribers s.
Lemma requests_ready s s' : ready s → requests_run s s' → young s' → ready s'.
Proof.
  intros [I C E] [S Es] Y. destruct (steps_ok s s' I S Y) as [I' _].
  split; [done|exact (steps_chans s s' I C S Y)|congruence].
Qed.
Lemma init_ready run command s : ready s → requests_run s (run s).2 → command ≠ ""%string →
  let s' := (RunInitCommand run command s).2 in young s' → ready s' ∧ cleared (run s).2 s'.
Proof.
  intros R S Hc s' Y. pose proof R as [I C E]. pose proof S as [S' _].
  pose proof (init_spec run command s I S' Y Hc) as H. subst s'.
  assert (Er : (RunInitCommand run command s).2 = (deleteUpTo EventsScopeName MaxUint64 "" (run s).2).2).
  { unfold RunInitCommand. rewrite bool_decide_false by done. by rewrite !bind_eq. }
  destruct (clear_frame (run s).2) as [E1 E2].
  pose proof (tr_clock _ _ _ (steps_deleteUpTo EventsScopeName MaxUint64 "") (run s).2) as Ht.
  rewrite Er in Y. assert (young (run s).2) as Y1 by (unfold young in *; lia).
  destruct (requests_ready _ _ R S Y1) as [_ C1 Es]. rewrite <- Er in E1, E2.
  destruct (RunInitCommand run command s) as [r s']. cbn [snd] in *. destruct H as (I' & ? & ? & _).
  split; [split; [done|by eapply chans_frame|congruence]|done].
Qed.

(** ** Bridges that have just been started *)
Definition idle (ch : nat) : bridge := mkbridge ch AtRange false 0 NotCalled.
Definition open_channel : chan := mkchan false false false.
Lemma start_cases scope command s : (∃ e, StartSubscriber scope command s = (Err e, s)) ∨
  ∃ ch, StartSubscriber scope command s = (Ok (idle ch), (Subscribe scope s).2) ∧
    chans (Subscribe scope s).2 !! ch = Some open_channel.
Proof.
  unfold StartSubscriber. do 2 (case_bool_decide; [left; by eexists|]). rewrite bind_eq, subscribe_run.
  destruct (negb _); [left; by eexists|]. destruct (subscribers s !! scope); [left; by eexists|].
  right. exists (fresh_chan s). split; [done|]. cbn. by rewrite lookup_insert_eq.
Qed.
Lemma subscribe_content k s : content (Subscribe k s).2 = content s ∧ s_tick (Subscribe k s).2 = s_tick s.
Proof. rewrite subscribe_run. destruct (negb _); [done|]. by destruct (subscribers s !! k). Qed.
Lemma start_fresh scopes command : ∀ s, let r := start_subscribers scopes command s in
  (content r.2 = content s ∧ s_tick r.2 = s_tick s) ∧ subs_grow s r.2 ∧
  ∀ k b, (k, b) ∈ r.1 → chans r.2 !! br_ch b = Some open_channel.
Proof.
  induction scopes as [|k scopes IH]; intros s; cbn [start_subscribers].
  { split; [done|]. split; [done|]. intros k b []%elem_of_nil. }
  cbv zeta. rewrite bind_eq. destruct (start_cases k command s) as [[e ->]|(ch & -> & Hch)]; cbn [fst snd];
    rewrite bind_eq; cbn [ret fst snd].
  - apply IH.
  - destruct (IH (Subscribe k s).2) as ([-> ->] & G & F). split; [apply subscribe_content|].
    split; [transitivity (Subscribe k s).2; [apply subscribe_grow|done]|].
    intros k' b [[= -> ->]|Hb]%elem_of_cons; [by apply (sg_chans _ _ G)|by eapply F].
Qed.

(** The bridges an instance starts with: one for each reserved scope, waiting,
    with no wake-up pending and no run behind it. *)
Definition reserved_bridges (command : string) (bs : bridges) (s : store) : Prop :=
  bs.*1 = (if bool_decide (command = "")%string then [] else [EventsScopeName; InboxScopeName]) ∧
  ∀ k b, (k, b) ∈ bs → b = idle (br_ch b) ∧ subscribers s !! k = Some (br_ch b) ∧
    chans s !! br_ch b = Some open_channel.
Lemma start_tick command s : s_tick (StartReservedSubscribers command s).2 = s_tick s.
Proof. unfold StartReservedSubscribers. case_bool_decide; [done|]. apply (start_fresh _ command s). Qed.
Lemma start_ready s command : ready s → let '(bs, s') := StartReservedSubscribers command s in
  store_inv s' ∧ chans_ok s' ∧ content s' = content s ∧ bridges_inv bs s' ∧ reserved_bridges command bs s'.
Proof.
  intros [I C E]. unfold reserved_bridges. destruct (decide (command = ""%string)) as [->|Hc].
  { cbn. split_and!; try done; [split; [done|constructor..]|]. intros k b []%elem_of_nil. }
  pose proof (StartReservedSubscribers_spec command s Hc I C) as H.
  pose proof (start_fresh [EventsScopeName; InboxScopeName] command s) as F.
  unfold StartReservedSubscribers in *. rewrite bool_decide_false in * by done.
  destruct (start_subscribers _ command s) as [bs s']. cbn [fst snd] in *.
  destruct H as (I' & C' & G & K & B & N), F as ([Ec _] & _ & F).
  assert (bs.*1 = [EventsScopeName; InboxScopeName]) as Hk by (rewrite K, E; reflexivity).
  split_and!; try done.
  - split; [|rewrite Hk; apply (bool_decide_unpack _); by vm_compute|done].
    intros i k b Hi. apply (B k b). by eapply list_elem_of_lookup_2.
  - intros k b Hb. destruct (B k b Hb) as [Bk Eb]. split; [done|]. split; [|by eapply F].
    pose proof (bi_table _ _ Bk) as T. rewrite Eb in T. exact T.
Qed.

(** ** The boot *)
(** The boot command only makes requests. *)
Definition boot_requests (run : boot_command) (command : string) : Prop := ∀ sock,
  requests_run newStore (command_run run sock newStore).2 ∧
  let s1 := (RunInitCommand (command_run run sock) command newStore).2 in
  requests_run s1 (command_late run sock s1).2.
(** What the boot may leave of a new store: an empty event log, and what the
    command's requests made of the other scopes; then the late requests. *)
Definition booted (run : boot_command) (command : string) (s : store) : Prop :=
  content s = content newStore ∧ cleared newStore s ∨
  command ≠ ""%string ∧ ∃ sock s1, cleared (command_run run sock newStore).2 s1 ∧
    content s = content (command_late run sock s1).2.
Lemma late_tick run command sock : boot_requests run command →
  let s1 := (RunInitCommand (command_run run sock) command newStore).2 in
  (s_tick s1 ≤ s_tick (command_late run sock s1).2)%nat.
Proof. intros S. destruct (S sock) as [_ [H _]]. by apply steps_tick. Qed.
Lemma init_boot run command o : os_ok o → boot_requests run command →
  let w' := (boot_init run command (mkworld o newStore)).2 in
  traceless o (w_os w') ∧ (young (w_store w') → ready (w_store w') ∧ booted run command (w_store w')).
Proof.
  intros K S. unfold boot_init. destruct new_ready as [R Hnew].
  assert (∀ c, booted run c newStore) as Hb by (intros; by left).
  case_bool_decide as Hc; cbn [snd ret w_os w_store]; [by split|].
  pose proof (private_files run command (mkworld o newStore) K Hc) as H. cbn [w_os w_store] in H.
  destruct (runInitWithPrivateSocket run command (mkworld o newStore)) as [r w']. cbn [snd].
  destruct H as [T [[_ ->]|[sock H]]]; (split; [done|]); [done|]. intros Y.
  pose proof (late_tick run command sock S) as Ht. destruct (S sock) as [S1 S2].
  pose proof (init_ready (command_run run sock) command newStore R S1 Hc) as Hi. cbv zeta in *.
  destruct (RunInitCommand (command_run run sock) command newStore) as [r1 s1]. cbn [snd] in *.
  destruct H as [Es _]. rewrite Es in *. destruct Hi as [R1 C1]; [unfold young in *; lia|].
  split; [by apply (requests_ready s1)|]. right. split; [done|]. by exists sock, s1.
Qed.

(** What an instance starts serving with. *)
Record started (run : boot_command) (initCommand subscriberCommand : string)
    (bs : bridges) (s : store) : Prop := {
  sd_inv : store_inv s;
  sd_chans : chans_ok s;
  sd_content : booted run initCommand s;
  sd_bridges : reserved_bridges subscriberCommand bs s;
  sd_sound : bridges_inv bs s;
}.
Lemma boot_started run ic sc o : os_ok o → boot_requests run ic →
  let w1 := (boot_init run ic (mkworld o newStore)).2 in
  let '(bs, s) := StartReservedSubscribers sc (w_store w1) in
  traceless o (w_os w1) ∧ (young s → started run ic sc bs s).
Proof.
  intros K S w1. destruct (init_boot run ic o K S) as [T H]. fold w1 in T, H. clearbody w1.
  pose proof (start_tick sc (w_store w1)) as Et.
  destruct (StartReservedSubscribers sc (w_store w1)) as [bs s] eqn:E. cbn [snd] in Et. split; [done|].
  intros Y. destruct H as [R B]; [unfold young in *; by rewrite <- Et|].
  pose proof (start_ready _ sc R) as H. rewrite E in H. destruct H as (I & C & Ec & BI & RB).
  split; try done. unfold booted, cleared in *. by rewrite Ec.
Qed.

Lemma main_boot_spec run ic sc path o : os_ok o → listening o = ∅ →
  boot_requests run ic →
  let '((r, bs), w) := main_boot run ic sc path (mkworld o newStore) in
  listen_result path o r (w_os w) ∧ (young (w_store w) → started run ic sc bs (w_store w)).
Proof.
  intros K Hl S. unfold main_boot. rewrite bind_eq.
  pose proof (boot_started run ic sc o K S) as H. cbv zeta in H.
  destruct (boot_init run ic (mkworld o newStore)) as [x w1]. cbn [fst snd] in *. rewrite bind_store.
  destruct (StartReservedSubscribers sc (w_store w1)) as [bs s]. cbn [fst snd] in *. destruct H as [T H].
  rewrite bind_os. cbn [w_os w_store ret]. split; [|exact H].
  assert (path ∉ listening (w_os w1)) as Hnl by (rewrite (tl_listening _ _ T), Hl; set_solver).
  pose proof (listen_spec path (w_os w1) Hnl) as L. destruct (listenUnixSocket path (w_os w1)) as [r o'].
  cbn [fst snd] in *. destruct L as [KP L]. split.
  - intros p n Hp. apply KP. eapply lookup_weaken; [exact Hp|apply T].
  - by rewrite (tl_listening _ _ T) in L.
Qed.

(** ** From the boot on *)
Lemma serve_inv run ic sc path bs w o ln p : (young (w_store w) → started run ic sc bs (w_store w)) →
  keeps path o (w_os w) →
  ln = path ∧ nodes (w_os w) !! path = Some (SocketFile UnixSocketPerm) ∧
    listening (w_os w) = listening o ∪ {[path]} →
  rtc process_step (serve_start w path bs) p → young (pr_store p) → process_inv (w_os w) p.
Proof.
  intros S K (_ & Hn & Hl) Hp Y. pose proof (steps_young _ _ Hp Y) as Y0.
  eapply process_inv_steps; [|exact Hp|exact Y]. split; cbn; try done; [apply (S Y0)|].
  split; [done|unfold stale; by rewrite Hn|]. intros _ Hno. exfalso. apply Hno. rewrite Hl. set_solver.
Qed.
Lemma stopped_bridges o0 p : process_inv o0 p → pr_shutdown p = true ∨ pr_main p = MainReturned →
  ∀ k b, (k, b) ∈ pr_bridges p → br_stop b = Returned ∧ br_phase b = Exited.
Proof.
  intros P Hs k b [i Hi]%list_elem_of_lookup_1. assert (stopped_but [] (pr_bridges p)) as S.
  { destruct Hs as [Hs|Hs].
    - pose proof (pi_watcher _ _ P) as W. destruct (pr_watcher p); destruct_and?; congruence || done.
    - pose proof (pi_main _ _ P) as M. by rewrite Hs in M. }
  assert (br_stop b = Returned) as Hr by (apply (S i k b Hi); apply not_elem_of_nil).
  split; [done|]. by apply (bi_returned _ _ (bsi_bridge _ _ (pi_bridges _ _ P) i k b Hi)).
Qed.
End Spec.
