(* ===== verification/Caddy.v ===== *)
(** * The life of an instance of the Caddy module

  [Provision] and [Cleanup] of caddymodule/module.go, on what the instances of
  one process share: the files, the gateways and their registry. A reload
  provisions the new instance first and cleans the old one up while both
  serve, so Cleanup is a step relation, interleaved with the work of every
  gateway. Each gateway's clock counts from its own creation. *)
From S2P Require Import Prelude GoStd Uuid Types Wire Validation Buffer BufferInv BufferSpec BufferRead.
From S2P Require Import Store StoreInv BufferOps StoreSpec Events StoreOps Bulk Steps Gateway Adapters.
From S2P Require Import Subscriber Sockets Lifecycle.

Abbreviation bridges := (list (string * bridge)).
(** A gateway: its configuration, its store and the goroutines of its bridges. *)
Record cache := mkcache { ca_config : Config; ca_store : store; ca_bridges : bridges }.
Record caddy := mkcaddy {
  cd_os : os;
  cd_caches : gmap nat cache;   (* by the address of the gateway *)
  cd_registry : Registry.registry;
}.
(** The fields of Handler that Provision sets; [in_stopSubscribers] is the
    gateway the stop function was made for, or nil. *)
Record instance := mkinstance {
  in_gateway : option nat;
  in_stopSubscribers : option nat;
}.

Section Caddy.
Context `{EV : Env} `{SH : ScopeHash} `{EM : EventMarshal} `{KE : Kernel}.

Definition put_cache (gw : nat) (s : store) (bs : bridges) (c : caddy) : caddy :=
  match cd_caches c !! gw with
  | Some x => mkcaddy (cd_os c) (<[gw := mkcache (ca_config x) s bs]> (cd_caches c)) (cd_registry c)
  | None => c
  end.

(** The boot command behind its private socket, as in main.go. *)
Definition Handler_runInitWithPrivateSocket `{CP : Caps} (run : boot_command) (h : Handler)
    : WM (result init_error unit) := runInitWithPrivateSocket run (h_InitCommand h).

(** A new gateway, the boot command behind its private socket (an error is
    logged), the subscribers, and the registration as "default". *)
Definition Provision (run : boot_command) (h : Handler)
    : ST caddy (result caddy_error instance) := λ c,
  match provision_config h with
  | Err e => (Err e, c)
  | Ok cfg =>
      let CP : Caps := caps_of cfg in
      let gw := fresh (dom (cd_caches c)) in
      let '(_, w) :=
        (if bool_decide (h_InitCommand h = "") then ret (Ok tt)
         else Handler_runInitWithPrivateSocket run h) (mkworld (cd_os c) newStore) in
      let '(bs, s) := StartReservedSubscribers (h_SubscriberCommand h) (w_store w) in
      let '(_, g) := Registry.RegisterGateway "default" (Some gw) (cd_registry c) in
      (Ok (mkinstance (Some gw) (Some gw)),
       mkcaddy (w_os w) (<[gw := mkcache cfg s bs]> (cd_caches c)) g)
  end.

(** Where a call of Cleanup has come. *)
Inductive cleanup_pc :=
  | AtStop
  | StopRunning (gw : nat) (todo : list nat)
  | AtDeregister
  | CleanupReturned.
Abbreviation cleanup_state := (instance * caddy * cleanup_pc)%type.

Inductive cleanup_step : cleanup_state → cleanup_state → Prop :=
  | cl_no_stop i c : in_stopSubscribers i = None → cleanup_step (i, c, AtStop) (i, c, AtDeregister)
  | cl_call_stop i c gw x : in_stopSubscribers i = Some gw → cd_caches c !! gw = Some x →
      cleanup_step (i, c, AtStop) (i, c, StopRunning gw (stop_all (ca_bridges x)))
  | cl_stop i c gw x todo bs s todo' : cd_caches c !! gw = Some x →
      stopping (ca_bridges x, ca_store x, todo) (bs, s, todo') →
      cleanup_step (i, c, StopRunning gw todo) (i, put_cache gw s bs c, StopRunning gw todo')
  | cl_stopped i c gw :
      cleanup_step (i, c, StopRunning gw []) (mkinstance (in_gateway i) None, c, AtDeregister)
  | cl_no_gateway i c : in_gateway i = None → cleanup_step (i, c, AtDeregister) (i, c, CleanupReturned)
  | cl_deregister i c gw : in_gateway i = Some gw →
      cleanup_step (i, c, AtDeregister)
        (mkinstance None (in_stopSubscribers i),
         mkcaddy (cd_os c) (cd_caches c) (Registry.DeregisterGatewayIf "default" (Some gw) (cd_registry c)).2,
         CleanupReturned).

(** The goroutines of a gateway at work. *)
Inductive goroutine_step : caddy → caddy → Prop :=
  | gr_loop gw c x bs s : cd_caches c !! gw = Some x → loops (ca_bridges x, ca_store x) (bs, s) →
      goroutine_step c (put_cache gw s bs c).
(** What comes from outside: commands that end, and requests. *)
Inductive traffic_step : caddy → caddy → Prop :=
  | tf_command gw c x bs s : cd_caches c !! gw = Some x → commands (ca_bridges x, ca_store x) (bs, s) →
      traffic_step c (put_cache gw s bs c)
  | tf_request gw c x s : cd_caches c !! gw = Some x →
      requests_step (CP := caps_of (ca_config x)) (ca_store x) s →
      traffic_step c (put_cache gw s (ca_bridges x) c).

(** Cleanup with everything else going on, and by itself. *)
Inductive cleaning : cleanup_state → cleanup_state → Prop :=
  | cn_cleanup x y : cleanup_step x y → cleaning x y
  | cn_goroutine i c c' pc : goroutine_step c c' → cleaning (i, c, pc) (i, c', pc)
  | cn_traffic i c c' pc : traffic_step c c' → cleaning (i, c, pc) (i, c', pc).
Inductive cleaning_alone : cleanup_state → cleanup_state → Prop :=
  | ca_cleanup x y : cleanup_step x y → cleaning_alone x y
  | ca_goroutine i c c' pc : goroutine_step c c' → cleaning_alone (i, c, pc) (i, c', pc).
End Caddy.
