(* ===== verification/CaddySpec.v ===== *)
(** * Provision and Cleanup across a reload *)
From S2P Require Import Prelude GoStd Uuid Types Wire Validation Buffer BufferInv BufferSpec BufferRead.
From S2P Require Import Clock Store StoreInv BufferOps StoreSpec Events StoreOps StoreClock Bulk BulkSpec.
From S2P Require Import RebuildSpec WarmSpec Steps SubscribeSpec OpsSteps EventsSpec Refine RefineOps Gateway GatewaySpec.
From S2P Require Import Adapters AdaptersSpec Subscriber SubscriberSpec Sockets SocketsSpec.
From S2P Require Import Lifecycle LifecycleSpec BootSpec Caddy.

Section Spec.
Context `{EV : Env} `{SH : ScopeHash} `{EM : EventMarshal} `{KE : Kernel}.
Abbreviation bridges := (list (string * bridge)).
Abbreviation caps x := (caps_of (ca_config x)).

(** ** One gateway at work *)
Record cache_ok (x : cache) : Prop := {
  co_caps : @CapsOk (caps x);
  co_bridges : bridges_inv (CP := caps x) (ca_bridges x) (ca_store x);
}.
Inductive evolve (x : cache) : bridges → store → Prop :=
  | ev_loop bs s : loops (ca_bridges x, ca_store x) (bs, s) → evolve x bs s
  | ev_command bs s : commands (ca_bridges x, ca_store x) (bs, s) → evolve x bs s
  | ev_request s : requests_step (CP := caps x) (ca_store x) s → evolve x (ca_bridges x) s
  | ev_stop t bs s t' : stopping (ca_bridges x, ca_store x, t) (bs, s, t') → evolve x bs s.

Lemma evolve_tick x bs s : evolve x bs s → (s_tick (ca_store x) ≤ s_tick s)%nat.
Proof.
  intros [bs' s' H|bs' s' H|s' [H _]|t bs' s' t' H].
  - by rewrite (loops_tick _ _ _ _ H). - by rewrite (commands_tick _ _ _ _ H).
  - by apply (sstep_tick (CP := caps x)). - by rewrite (stopping_tick _ _ _ _ _ _ H).
Qed.
Lemma evolve_ok x bs s : cache_ok x → young s → evolve x bs s →
  cache_ok (mkcache (ca_config x) s bs) ∧ settles (ca_bridges x) bs.
Proof.
  intros [K B] Y He. destruct He as [bs' s' H|bs' s' H|s' H|t bs' s' t' H].
  - destruct (loops_advance (CP := caps x) _ _ _ _ H Y) as [A S]. split; [|done]. split; [done|by apply A].
  - destruct (commands_advance (CP := caps x) _ _ _ _ H Y) as [A S]. split; [|done]. split; [done|by apply A].
  - split; [|apply settles_refl]. split; [done|]. by eapply (requests_inv (CP := caps x)).
  - destruct (stopping_advance (CP := caps x) _ _ _ _ _ _ H Y) as [[A S] _]. split; [|done]. split; [done|by apply A].
Qed.

Lemma put_cache_eq gw s bs c x : cd_caches c !! gw = Some x →
  cd_caches (put_cache gw s bs c) !! gw = Some (mkcache (ca_config x) s bs).
Proof. intros E. unfold put_cache. rewrite E. cbn. by rewrite lookup_insert_eq. Qed.
Lemma put_cache_ne gw gw' s bs c : gw' ≠ gw → cd_caches (put_cache gw s bs c) !! gw' = cd_caches c !! gw'.
Proof. intros Hne. unfold put_cache. destruct (cd_caches c !! gw); [|done]. cbn. by rewrite lookup_insert_ne. Qed.
Lemma put_cache_registry gw s bs c : cd_registry (put_cache gw s bs c) = cd_registry c.
Proof. unfold put_cache. by destruct (cd_caches c !! gw). Qed.
Lemma put_cache_twice gw s bs s' bs' c : put_cache gw s' bs' (put_cache gw s bs c) = put_cache gw s' bs' c.
Proof.
  unfold put_cache. destruct (cd_caches c !! gw) as [x|] eqn:E; [|by rewrite E]. cbn.
  by rewrite lookup_insert_eq, insert_insert_eq.
Qed.

(** A step of any gateway, seen from [gw]. *)
Definition moves (c c' : caddy) : Prop := ∃ g x bs s, cd_caches c !! g = Some x ∧ evolve x bs s ∧
  c' = put_cache g s bs c.
Lemma moves_cache c c' gw x : moves c c' → cd_caches c !! gw = Some x → ∃ x', cd_caches c' !! gw = Some x' ∧
  (s_tick (ca_store x) ≤ s_tick (ca_store x'))%nat ∧
  (cache_ok x → young (ca_store x') → cache_ok x' ∧ settles (ca_bridges x) (ca_bridges x')).
Proof.
  intros (g & y & bs & s & Hg & He & ->) Hx. destruct (decide (gw = g)) as [->|Hne].
  - rewrite Hg in Hx. injection Hx as ->. rewrite (put_cache_eq _ _ _ _ _ Hg). eexists. split; [done|].
    split; [by eapply evolve_tick|]. intros K Y. by apply evolve_ok.
  - rewrite put_cache_ne by done. exists x. split; [done|]. split; [done|]. intros K _.
    split; [done|apply settles_refl].
Qed.
Lemma moves_registry c c' : moves c c' → cd_registry c' = cd_registry c.
Proof. intros (g & x & bs & s & _ & _ & ->). apply put_cache_registry. Qed.
Lemma goroutine_moves c c' : goroutine_step c c' → moves c c'.
Proof. intros [gw c0 x bs s Hx H]. exists gw, x, bs, s. split; [done|]. split; [by apply ev_loop|done]. Qed.
Lemma traffic_moves c c' : traffic_step c c' → moves c c'.
Proof.
  intros [gw c0 x bs s Hx H|gw c0 x s Hx H].
  - exists gw, x, bs, s. split; [done|]. split; [by apply ev_command|done].
  - exists gw, x, (ca_bridges x), s. split; [done|]. split; [by apply ev_request|done].
Qed.

Lemma moves_steps c c' gw x : rtc moves c c' → cd_caches c !! gw = Some x →
  cd_registry c' = cd_registry c ∧ ∃ x', cd_caches c' !! gw = Some x' ∧
  (s_tick (ca_store x) ≤ s_tick (ca_store x'))%nat ∧ (cache_ok x → young (ca_store x') → cache_ok x').
Proof.
  intros H. revert x. induction H as [c|c1 c2 c3 M _ IH]; intros x Hx; [split; [done|by exists x]|].
  destruct (moves_cache c1 c2 gw x M Hx) as (x2 & Hx2 & T2 & K2). destruct (IH x2 Hx2) as (R & x3 & Hx3 & T3 & K3).
  split; [by rewrite R, (moves_registry _ _ M)|]. exists x3. split; [done|]. split; [lia|]. intros K Y.
  apply K3; [|done]. apply K2; [done|]. unfold young in *. lia.
Qed.

(** ** Cleanup of the instance of gateway [gw], with [r] registered at its call *)
Section Cleanup.
Context (gw : nat) (r : option nat).
Definition after_cleanup : option nat := if decide (r = Some gw) then None else r.

Record cleanup_inv (x : instance * caddy * cleanup_pc) : Prop := {
  ci_registry : registry_ok (cd_registry x.1.2);
  ci_cache : ∃ ca, cd_caches x.1.2 !! gw = Some ca ∧ cache_ok ca ∧
    match x.2 with
    | AtStop => True
    | StopRunning g todo => g = gw ∧ at_work todo (ca_bridges ca)
    | _ => stopped_but [] (ca_bridges ca)
    end;
  ci_instance : x.1.1 = match x.2 with
    | AtStop | StopRunning _ _ => mkinstance (Some gw) (Some gw)
    | AtDeregister => mkinstance (Some gw) None
    | CleanupReturned => mkinstance None None
    end;
  ci_registered : registered (cd_registry x.1.2) "default" =
    match x.2 with CleanupReturned => after_cleanup | _ => r end;
}.
Definition gw_young (c : caddy) : Prop := ∀ x, cd_caches c !! gw = Some x → young (ca_store x).

(** While every gateway goes on. *)
Lemma moves_inv i c c' pc : cleanup_inv (i, c, pc) → moves c c' → gw_young c' → cleanup_inv (i, c', pc).
Proof.
  intros [R (x & Hx & K & P) I E] M Y. cbn [fst snd] in *.
  destruct (moves_cache c c' gw x M Hx) as (x' & Hx' & _ & H). destruct (H K (Y x' Hx')) as [K' S].
  split; cbn [fst snd]; rewrite ?(moves_registry _ _ M); try done. exists x'. split; [done|]. split; [done|].
  destruct pc; try done; [destruct P; split; [done|by eapply settles_at_work]|by eapply settles_stopped..].
Qed.
Lemma stop_inv_cl i c g x todo bs s todo' : cleanup_inv (i, c, StopRunning g todo) → cd_caches c !! g = Some x →
  stopping (ca_bridges x, ca_store x, todo) (bs, s, todo') → gw_young (put_cache g s bs c) →
  cleanup_inv (i, put_cache g s bs c, StopRunning g todo').
Proof.
  intros [R (y & Hy & K & Hg & P) I E] Hx Hs Y. cbn [fst snd] in *. subst g. rewrite Hy in Hx. injection Hx as ->.
  pose proof (put_cache_eq gw s bs c x Hy) as Hx'. specialize (Y _ Hx'). cbn [ca_store] in Y.
  pose proof (co_caps _ K) as Kc.
  destruct (stopping_advance (CP := caps x) _ _ _ _ _ _ Hs Y) as [_ Hw].
  destruct (evolve_ok x bs s K Y ltac:(by eapply ev_stop)) as [K' _].
  split; cbn [fst snd]; rewrite ?put_cache_registry; try done. eexists. split; [exact Hx'|].
  split; [done|]. split; [done|by apply Hw].
Qed.
Lemma cleanup_step_inv x y : cleanup_inv x → cleanup_step x y → gw_young y.1.2 → cleanup_inv y.
Proof.
  intros CI H Y. destruct H as [i c Hi|i c g x Hi Hx|i c g x todo bs s todo' Hx Hs|i c g|i c Hi|i c g Hi];
    [| |by eapply stop_inv_cl| | |]; destruct CI as [R (a & Ha & K & P) I E]; cbn [fst snd] in *; subst i;
    cbn in *; simplify_eq.
  - split; try done. exists a. split; [done|]. split; [done|]. split; [done|apply at_work_all].
  - split; try done. exists a. split; [done|]. split; [done|]. apply P.
  - destruct (deregister_spec "default" gw (cd_registry c) R) as [R' _ N _].
    split; cbn; [done|by exists a|done|]. by rewrite N, E.
Qed.
Lemma cleaning_tick x y a : cleaning x y → cd_caches x.1.2 !! gw = Some a →
  ∃ b, cd_caches y.1.2 !! gw = Some b ∧ (s_tick (ca_store a) ≤ s_tick (ca_store b))%nat.
Proof.
  intros H Ha. assert (x.1.2 = y.1.2 ∨ moves x.1.2 y.1.2 ∨ cd_caches y.1.2 = cd_caches x.1.2) as [E|[M|E]].
  { destruct H as [x y H|i c c' pc H|i c c' pc H]; cbn.
    - destruct H as [| |i c g x t bs s t' Hx Hs| | |]; cbn; auto. right; left. exists g, x, bs, s.
      split; [done|]. split; [by eapply ev_stop|done].
    - right; left. by apply goroutine_moves. - right; left. by apply traffic_moves. }
  - rewrite <- E. by exists a.
  - destruct (moves_cache _ _ gw a M Ha) as (b & ? & ? & _). by exists b.
  - rewrite E. by exists a.
Qed.
Lemma cleaning_young x y : rtc cleaning x y → gw_young y.1.2 → gw_young x.1.2.
Proof.
  induction 1 as [|x y z H _ IH]; [done|]. intros Y. specialize (IH Y). intros a Ha.
  destruct (cleaning_tick x y a H Ha) as (b & Hb & ?). specialize (IH b Hb). unfold young in *. lia.
Qed.
Lemma cleaning_inv x y : cleanup_inv x → rtc cleaning x y → gw_young y.1.2 → cleanup_inv y.
Proof.
  intros CI H. revert CI. induction H as [x|x y z H1 H2 IH]; [done|]. intros CI Y.
  pose proof (cleaning_young y z H2 Y) as Yy.
  apply IH; [|done]. destruct H1 as [x y H1|i c c' pc H1|i c c' pc H1]; [by eapply cleanup_step_inv|..];
    (eapply moves_inv; [exact CI| |exact Yy]); [by apply goroutine_moves|by apply traffic_moves].
Qed.

(** Cleanup can always be completed. *)
Definition returns (x : instance * caddy * cleanup_pc) : Prop :=
  ∃ i c, rtc cleaning_alone x (i, c, CleanupReturned).
Lemma returns_step x y : cleaning_alone x y → returns y → returns x.
Proof. intros H (i & c & Hr). exists i, c. by eapply rtc_l. Qed.
Lemma deregister_returns i c : returns (i, c, AtDeregister).
Proof.
  destruct (in_gateway i) as [g|] eqn:Hi; eexists _, _; apply rtc_once, ca_cleanup;
    [by apply cl_deregister|by apply cl_no_gateway].
Qed.
Lemma stop_alone i c g x0 y z : cd_caches c !! g = Some x0 → winding y z →
  cleaning_alone (i, put_cache g y.1.2 y.1.1 c, StopRunning g y.2) (i, put_cache g z.1.2 z.1.1 c, StopRunning g z.2).
Proof.
  intros Hx H. rewrite <- (put_cache_twice g y.1.2 y.1.1 z.1.2 z.1.1 c).
  pose proof (put_cache_eq g y.1.2 y.1.1 c x0 Hx) as Hp.
  destruct H as [bs s bs' s' t H|[[bs s] t] [[bs' s'] t'] H]; cbn [fst snd] in *.
  - apply ca_goroutine. by eapply gr_loop.
  - apply ca_cleanup. by eapply cl_stop.
Qed.
Lemma put_cache_self g c x : cd_caches c !! g = Some x → put_cache g (ca_store x) (ca_bridges x) c = c.
Proof.
  intros Hx. unfold put_cache. rewrite Hx. destruct c as [o m re]. cbn in *. f_equal. apply insert_id.
  rewrite Hx. by destruct x.
Qed.
Lemma stop_returns_cl i c todo : cleanup_inv (i, c, StopRunning gw todo) → gw_young c →
  returns (i, c, StopRunning gw todo).
Proof.
  intros [R (x & Hx & [Kc Kb] & _ & A) I E] Y. cbn [fst snd] in *. specialize (Y x Hx).
  destruct (stop_everything (CP := caps x) todo (ca_bridges x) (ca_store x)) as (bs & s & H); [by split_and!|].
  apply (rtc_congruence (λ z, (i, put_cache gw z.1.2 z.1.1 c, StopRunning gw z.2)) cleaning_alone) in H;
    [|intros y z; by apply (stop_alone i c gw x)].
  cbn [fst snd] in H. rewrite put_cache_self in H by done.
  destruct (deregister_returns (mkinstance (in_gateway i) None) (put_cache gw s bs c)) as (i' & c' & H').
  exists i', c'. etransitivity; [exact H|]. eapply rtc_l; [|exact H']. apply ca_cleanup, cl_stopped.
Qed.
Lemma cleanup_returns x : cleanup_inv x → gw_young x.1.2 → returns x.
Proof.
  destruct x as [[i c] pc]. intros CI Y. pose proof CI as [R (a & Ha & K & P) I E]. cbn [fst snd] in *. subst i.
  destruct pc as [|g todo| |]; [|destruct P as [-> _]; by apply stop_returns_cl|apply deregister_returns|].
  - assert (cleanup_step (mkinstance (Some gw) (Some gw), c, AtStop)
      (mkinstance (Some gw) (Some gw), c, StopRunning gw (stop_all (ca_bridges a)))) as H by (by apply cl_call_stop).
    eapply returns_step; [by apply ca_cleanup|]. apply stop_returns_cl; [|done]. by eapply cleanup_step_inv.
  - eexists _, _. apply rtc_refl.
Qed.
End Cleanup.

(** A second call finds nothing to do. *)
Lemma cleanup_again c x : rtc cleanup_step (mkinstance None None, c, AtStop) x →
  x.1 = (mkinstance None None, c) ∧ x.2 ∈ [AtStop; AtDeregister; CleanupReturned].
Proof.
  intros H. remember (mkinstance None None, c, AtStop) as x0 eqn:E0.
  assert (x0.1 = (mkinstance None None, c) ∧ x0.2 ∈ [AtStop; AtDeregister; CleanupReturned]) as H0.
  { subst x0. split; [done|left]. }
  clear E0. induction H as [|x y z Hs _ IH]; [done|]. apply IH. clear IH. destruct H0 as [Ex Hp].
  destruct Hs as [i c' Hi|i c' g a Hi Ha|i c' g a t bs s t' Ha Hs|i c' g|i c' Hi|i c' g Hi]; cbn in *;
    injection Ex as -> ->; try done.
  - split; [done|]. right; left.
  - by repeat apply elem_of_cons in Hp as [?|Hp]; [..|apply elem_of_nil in Hp].
  - by repeat apply elem_of_cons in Hp as [?|Hp]; [..|apply elem_of_nil in Hp].
  - split; [done|]. right; right; left.
Qed.

(** ** Provision *)
(** The gateway a successful Provision adds and registers. *)
Record provisioned (run : boot_command) (h : Handler) (c : caddy) (gw : nat) (c' : caddy)
    : Prop := {
  pv_fresh : cd_caches c !! gw = None;
  pv_cache : ∃ x, cd_caches c' = <[gw := x]> (cd_caches c) ∧ provision_config h = Ok (ca_config x) ∧
    @CapsOk (caps x) ∧ (young (ca_store x) →
      started (CP := caps x) run (h_InitCommand h) (h_SubscriberCommand h) (ca_bridges x) (ca_store x));
  pv_registry : assigns "default" (Some gw) (cd_registry c) (cd_registry c');
  pv_os : traceless (cd_os c) (cd_os c');
}.
Lemma provision_init `{CP : Caps} run h w :
  (if bool_decide (h_InitCommand h = ""%string) then ret (Ok tt) else Handler_runInitWithPrivateSocket run h) w =
  boot_init run (h_InitCommand h) w.
Proof. reflexivity. Qed.
Lemma Provision_spec run h c : os_ok (cd_os c) → registry_ok (cd_registry c) →
  (∀ cfg, provision_config h = Ok cfg → boot_requests (CP := caps_of cfg) run (h_InitCommand h)) →
  let '(r, c') := Provision run h c in
  match r with
  | Err e => provision_config h = Err e ∧ c' = c
  | Ok i => ∃ gw, i = mkinstance (Some gw) (Some gw) ∧ provisioned run h c gw c'
  end.
Proof.
  intros K R S. unfold Provision. destruct (provision_config h) as [cfg|e] eqn:Ec; [|done].
  pose proof (provision_caps h cfg Ec) as Kc. specialize (S cfg eq_refl).
  pose proof (boot_started (CP := caps_of cfg) run (h_InitCommand h) (h_SubscriberCommand h) (cd_os c) K S) as B.
  cbv zeta in B |- *. rewrite provision_init. destruct (boot_init _ _ _) as [x w]. cbn [snd] in B.
  destruct (StartReservedSubscribers _ _) as [bs s]. destruct B as [T B].
  set (gw := fresh (dom (cd_caches c))).
  pose proof (register_spec "default" (Some gw) (cd_registry c) R) as A.
  destruct (Registry.RegisterGateway _ _ _) as [u g]. exists gw. split; [done|]. split; cbn.
  - apply not_elem_of_dom, is_fresh.
  - by eexists.
  - done.
  - done.
Qed.

(** ** A reload *)
Lemma serve_moves c c' : goroutine_step c c' ∨ traffic_step c c' → moves c c'.
Proof. intros [H|H]; [by apply goroutine_moves|by apply traffic_moves]. Qed.
Lemma cache_stopped x : cache_ok x → stopped_but [] (ca_bridges x) →
  ∀ k b, (k, b) ∈ ca_bridges x → br_stop b = Returned ∧ br_phase b = Exited.
Proof.
  intros [K B] S k b [i Hi]%list_elem_of_lookup_1.
  assert (br_stop b = Returned) as Hr by (apply (S i k b Hi); apply not_elem_of_nil).
  split; [done|]. by apply (bi_returned _ _ (bsi_bridge _ _ B i k b Hi)).
Qed.
(** The old instance after the second Provision: ready for its Cleanup. *)
Lemma reload_inv run0 h0 c gw c1 c2 run1 h1 r1 c3 : provisioned run0 h0 c gw c1 →
  rtc moves c1 c2 → os_ok (cd_os c2) →
  (∀ cfg, provision_config h1 = Ok cfg → boot_requests (CP := caps_of cfg) run1 (h_InitCommand h1)) →
  Provision run1 h1 c2 = (r1, c3) → gw_young gw c3 →
  ∃ r, cleanup_inv gw r (mkinstance (Some gw) (Some gw), c3, AtStop) ∧
    match r1 with Ok i1 => r = in_gateway i1 ∧ r ≠ Some gw | Err _ => r = Some gw end.
Proof.
  intros [_ (x & Ex & Ec & Kx & Hs) A _] M K S P Y.
  assert (cd_caches c1 !! gw = Some x) as Hx by (rewrite Ex; apply lookup_insert_eq).
  destruct (moves_steps c1 c2 gw x M Hx) as (E2 & x2 & Hx2 & T2 & K2).
  assert (∀ c', cd_caches c' !! gw = Some x2 → gw_young gw c' → cache_ok x2) as Kx2.
  { intros c' Hc Yc. specialize (Yc x2 Hc). apply K2; [|done]. split; [done|]. apply Hs.
    unfold young in *. lia. }
  assert (registry_ok (cd_registry c2)) as R2 by (rewrite E2; apply A).
  pose proof (Provision_spec run1 h1 c2 K R2 S) as H. rewrite P in H. destruct r1 as [i1|e].
  - destruct H as (g1 & -> & [Hf (y & Ey & _) A1 _]).
    assert (g1 ≠ gw) as Hne by congruence.
    assert (cd_caches c3 !! gw = Some x2) as Hx3 by (by rewrite Ey, lookup_insert_ne).
    exists (Some g1). split; [|split; [done|congruence]].
    split; cbn; [apply A1| |done|by rewrite (as_name _ _ _ _ A1)].
    exists x2. split; [done|]. split; [by apply (Kx2 c3)|done].
  - destruct H as [_ ->]. exists (Some gw). split; [|done].
    split; cbn; [done| |done|by rewrite E2, (as_name _ _ _ _ A)].
    exists x2. split; [done|]. split; [by apply (Kx2 c2)|done].
Qed.
End Spec.
