(* ===== verification/LifecycleTheorems.v ===== *)
(** * The life of an instance: theorems

  Boot, service and shutdown of the standalone program, and a reload of the
  Caddy module. *)
From S2P Require Import Prelude GoStd Uuid Types Wire Validation Buffer BufferInv BufferSpec BufferRead.
From S2P Require Import Clock Store StoreInv BufferOps StoreSpec Events StoreOps StoreClock Bulk BulkSpec.
From S2P Require Import RebuildSpec WarmSpec Steps SubscribeSpec OpsSteps EventsSpec Refine RefineOps Gateway GatewaySpec.
From S2P Require Import Adapters AdaptersSpec Subscriber SubscriberSpec Sockets SocketsSpec.
From S2P Require Import Lifecycle LifecycleSpec BootSpec Caddy CaddySpec.

Section Socket.
Context `{KE : Kernel}.

(** C31: binding the socket never removes a file that is not a socket, nor any
    file elsewhere, whatever the kernel refuses; it ends with a listener on a
    file of mode 0660, or with no listener and an error, always the latter when
    something else stands at the path; and it succeeds when the kernel refuses
    nothing, the directory is there and the path is free or has a stale socket. *)
Theorem listen_safe path o : path ∉ listening o →
  let '(r, o') := listenUnixSocket path o in
  (∀ p n, nodes o !! p = Some n → nodes o' !! p = Some n ∨ p = path ∧ is_socket n = true) ∧
  match r with
  | Ok ln => ln = path ∧ nodes o' !! path = Some (SocketFile UnixSocketPerm) ∧
      listening o' = listening o ∪ {[path]}
  | Err _ => listening o' = listening o
  end ∧
  (∀ n, nodes o !! path = Some n → is_socket n = false → (∃ e, r = Err e) ∧ nodes o' !! path = Some n) ∧
  ((∀ n, refused n = None) → nodes o !! filepath_Dir path = Some Directory →
    from_option is_socket true (nodes o !! path) = true → r = Ok path).
Proof.
  intros Hnl. pose proof (listen_spec path o Hnl) as L. pose proof (listen_refuses path o) as R.
  pose proof (listen_succeeds path o) as W.
  destruct (listenUnixSocket path o) as [r o']. destruct L as [K L]. split; [exact K|]. split; [exact L|]. split; [|exact W].
  intros n Hn Hs. destruct (R n Hnl Hn Hs) as (e & o1 & [= -> ->] & ?). split; [by exists e|done].
Qed.
End Socket.

(** ** The standalone program *)
Section Standalone.
Context `{EV : Env} `{SH : ScopeHash} `{EM : EventMarshal} `{KE : Kernel}.
Variable Getenv : string → string.
#[local] Instance main_store_caps : Caps := caps_of (main_config Getenv).
#[local] Instance main_store_caps_ok : CapsOk := main_caps Getenv.
Abbreviation initCommand := (initCommandFromEnv Getenv).
Abbreviation subscriberCommand := (subscriberCommandFromEnv Getenv).
Abbreviation socketPath := (socketPathFromEnv Getenv).
Context (run : boot_command) (o : os).
Hypothesis files : os_ok o.
Hypothesis no_listener : listening o = ∅.
Hypothesis init_requests : boot_requests run initCommand.

(** C29: the boot of main, whatever the environment says, the boot command does
    and the kernel refuses: a sound store whose event log is empty and whose
    other scopes hold what the boot command left (or nothing), but for requests
    of the command still in flight when it ended (answered within the five
    seconds the private server's Shutdown waits); one waiting bridge
    for each reserved scope, with no wake-up pending and no run behind it, or none
    without a command; no file lost but a stale socket; and the public socket
    listening, as [listen_safe] has it, or no listener at all. *)
Theorem boot_contract : let '((r, bs), w) := main_boot run initCommand subscriberCommand socketPath (mkworld o newStore) in
  young (w_store w) →
  store_inv (w_store w) ∧ chans_ok (w_store w) ∧ booted run initCommand (w_store w) ∧
  reserved_bridges subscriberCommand bs (w_store w) ∧
  (∀ p n, nodes o !! p = Some n → nodes (w_os w) !! p = Some n ∨ p = socketPath ∧ is_socket n = true) ∧
  match r with
  | Ok ln => ln = socketPath ∧ nodes (w_os w) !! ln = Some (SocketFile UnixSocketPerm) ∧ listening (w_os w) = {[ln]}
  | Err _ => listening (w_os w) = ∅
  end.
Proof.
  pose proof (main_boot_spec run initCommand subscriberCommand socketPath o files no_listener init_requests) as H.
  destruct (main_boot _ _ _ _ _) as [[r bs] w]. destruct H as [[K L] H]. intros Y.
  destruct (H Y) as [I C B RB _]. split_and!; try done. rewrite no_listener in L.
  destruct r as [ln|e]; [|done]. destruct L as (-> & ? & ->). split_and!; [done..|]. by rewrite (left_id_L ∅ (∪)).
Qed.

(** C30: a run of the program from there on, through any requests, commands,
    failures of the listener and signals: the server is shut down only when every
    bridge is stopped for good; when main has returned, every bridge is stopped,
    nothing listens on the socket and, unless the kernel refused, its file is
    gone; no other file is lost; and once the signal has come, the program's own
    steps lead to the end of main from wherever it is, so nothing that hangs
    outside can hold the shutdown up. *)
Theorem shutdown_clean ln bs w p :
  main_boot run initCommand subscriberCommand socketPath (mkworld o newStore) = ((Ok ln, bs), w) →
  rtc process_step (serve_start w socketPath bs) p → young (pr_store p) →
  (pr_bridges p).*1 = bs.*1 ∧
  (pr_shutdown p = true ∨ pr_main p = MainReturned →
    ∀ k b, (k, b) ∈ pr_bridges p → br_stop b = Returned ∧ br_phase b = Exited) ∧
  (pr_main p = MainReturned → (socketPath ∉ listening (pr_os p)) ∧
    ((∀ n, refused n = None) → nodes (pr_os p) !! socketPath = None)) ∧
  (∀ q n, nodes o !! q = Some n → nodes (pr_os p) !! q = Some n ∨ q = socketPath ∧ is_socket n = true) ∧
  (pr_signalled p = true → ∃ q, rtc own_process_step p q ∧ pr_main q = MainReturned).
Proof.
  intros Hb Hp Y.
  pose proof (main_boot_spec run initCommand subscriberCommand socketPath o files no_listener init_requests) as H.
  rewrite Hb in H. destruct H as [[K L] H].
  pose proof (serve_inv run initCommand subscriberCommand socketPath bs w o ln p H K L Hp Y) as P. destruct (steps_setup _ _ Hp) as [Ep Ek]. cbn in Ep, Ek.
  split; [done|]. split; [by apply (stopped_bridges (w_os w) p P)|]. split; [|split].
  - intros Hm. pose proof (pi_closed _ _ P) as Hc. rewrite Hm, Ep in Hc. split; [done|].
    intros R. pose proof (oi_gone _ _ _ (pi_os _ _ P) R) as G. rewrite Ep in G. by apply G.
  - pose proof (oi_keeps _ _ _ (pi_os _ _ P)) as K2. rewrite Ep in K2. intros q n Hq.
    apply (transitivity (R := keeps socketPath) K K2 q n Hq).
  - intros Hs. by apply (finish_signalled (w_os w)).
Qed.
End Standalone.

(** ** The Caddy module *)
Section Module.
Context `{EV : Env} `{SH : ScopeHash} `{EM : EventMarshal} `{KE : Kernel}.

(** The boot command only makes requests, under the caps of the new gateway. *)
Definition boots (run : boot_command) (h : Handler) : Prop := ∀ cfg, provision_config h = Ok cfg →
  boot_requests (CP := caps_of cfg) run (h_InitCommand h).

(** C32: Provision refuses exactly the configurations with a negative value, one
    that does not survive the conversion to bytes or nanoseconds, or an unknown
    events mode, and then changes nothing; otherwise it adds one gateway, whose
    store has the converted configuration and is what [boot_contract] says of
    main's, publishes it as "default", leaves every other gateway and name
    alone, and loses no file. *)
Theorem provision_publishes run h c : os_ok (cd_os c) → registry_ok (cd_registry c) →
  boots run h →
  let '(r, c') := Provision run h c in
  match r with
  | Err _ => ¬ (config_ok h ∧ is_ok (ParseEventsMode (h_EventsMode h)) = true) ∧ c' = c
  | Ok i => ∃ gw m x, i = mkinstance (Some gw) (Some gw) ∧ cd_caches c !! gw = None ∧
      cd_caches c' = <[gw := x]> (cd_caches c) ∧
      config_ok h ∧ ParseEventsMode (h_EventsMode h) = Ok m ∧ ca_config x = caddy_config h m ∧
      (Registry.LookupGateway "default" (cd_registry c')).1 = Some gw ∧
      (∀ name, name ≠ "default"%string → registered (cd_registry c') name = registered (cd_registry c) name) ∧
      nodes (cd_os c) ⊆ nodes (cd_os c') ∧ listening (cd_os c') = listening (cd_os c) ∧
      let CP : Caps := caps_of (ca_config x) in
      (young (ca_store x) → store_inv (ca_store x) ∧ booted run (h_InitCommand h) (ca_store x) ∧
        reserved_bridges (h_SubscriberCommand h) (ca_bridges x) (ca_store x))
  end.
Proof.
  intros K R S. pose proof (Provision_spec run h c K R S) as H. destruct (Provision run h c) as [[i|e] c'].
  - destruct H as (gw & -> & [Hf (x & Ex & Ec & Kc & Hs) [A1 A2 A3 A4] [T1 T2 _]]).
    apply provision_spec in Ec as (Kh & m & Hm & Ec). exists gw, m, x.
    split_and!; try done; [by rewrite (proj1 (lookup_spec "default" _ A1))|].
    intros CP Y. by destruct (Hs Y).
  - destruct H as [He ->]. split; [|done]. intros [Kh Hm].
    destruct (ParseEventsMode (h_EventsMode h)) as [m|] eqn:Em; [|done].
    assert (provision_config h = Ok (caddy_config h m)) as E by (apply provision_spec; eauto).
    congruence.
Qed.

(** C33: a reload: an instance is provisioned and serves, a second Provision runs,
    then the first instance's Cleanup, with every gateway at work in between.
    At every moment a lookup of "default" finds the new gateway (if the second
    Provision failed, the old one until Cleanup has returned, and none after);
    Cleanup can always be completed without outside help; when it has returned,
    every bridge of the old instance has stopped for good, and a second call
    changes nothing. *)
Theorem caddy_reload run0 h0 c i0 c1 c2 run1 h1 r1 c3 i c4 pc :
  os_ok (cd_os c) → registry_ok (cd_registry c) →
  boots run0 h0 →
  Provision run0 h0 c = (Ok i0, c1) →
  rtc (λ c c', goroutine_step c c' ∨ traffic_step c c') c1 c2 → os_ok (cd_os c2) →
  boots run1 h1 →
  Provision run1 h1 c2 = (r1, c3) →
  rtc cleaning (i0, c3, AtStop) (i, c4, pc) →
  (∀ gw x, in_gateway i0 = Some gw → cd_caches c4 !! gw = Some x → young (ca_store x)) →
  (Registry.LookupGateway "default" (cd_registry c4)).1 =
    match r1 with
    | Ok i1 => in_gateway i1
    | Err _ => match pc with CleanupReturned => None | _ => in_gateway i0 end
    end ∧
  (∃ i' c', rtc cleaning_alone (i, c4, pc) (i', c', CleanupReturned)) ∧
  (pc = CleanupReturned →
    (∃ gw x, in_gateway i0 = Some gw ∧ cd_caches c4 !! gw = Some x ∧
      ∀ k b, (k, b) ∈ ca_bridges x → br_stop b = Returned ∧ br_phase b = Exited) ∧
    ∀ z, rtc cleanup_step (i, c4, AtStop) z → z.1 = (i, c4)).
Proof.
  intros K R S0 P0 M K2 S1 P1 H Y.
  pose proof (Provision_spec run0 h0 c K R S0) as H0. rewrite P0 in H0. destruct H0 as (gw & -> & V0).
  assert (rtc moves c1 c2) as M' by (apply (rtc_congruence (λ x, x) moves) in M; [done|apply serve_moves]).
  destruct (reload_inv run0 h0 c gw c1 c2 run1 h1 r1 c3 V0 M' K2 S1 P1) as (r & CI & Hr).
  { apply (cleaning_young gw _ _ H). intros x. by apply Y. }
  assert (gw_young gw c4) as Y4 by (intros x; by apply Y).
  pose proof (cleaning_inv gw r _ _ CI H Y4) as CI4. pose proof CI4 as [R4 (x & Hx & Kx & Px) I4 E4].
  cbn [fst snd] in *. split; [|split].
  - rewrite (proj1 (lookup_spec "default" _ R4)), E4. unfold after_cleanup.
    destruct r1 as [i1|e]; [destruct Hr as [<- Hr]|subst r]; destruct pc; try done;
      [by rewrite decide_False|by rewrite decide_True].
  - by apply (cleanup_returns gw r).
  - intros ->. subst i. split.
    + exists gw, x. split; [done|]. split; [done|]. by apply cache_stopped.
    + intros z Hz. by apply cleanup_again in Hz as [? _].
Qed.
End Module.
