(* ===== verification/Processes.v ===== *)
(** * subscriber_command_unix.go, subscriber_command_other.go: process groups

  The operating system's processes while a command runs: what a command's
  cancellation kills. A process is born in its parent's group and may only
  leave for a group of its own (setsid, setpgid(0, 0)). *)
From S2P Require Import Prelude.

(** The command a process descends from, if any, and whether it, or somebody
    between them, has left its group: what the theorems speak of. *)
Record proc := mkproc {
  p_pgid : nat;
  p_command : option nat;
  p_left : bool;
}.
Abbreviation table := (gmap nat proc).
Definition new_pid (t : table) : nat := fresh (dom t ∪ map_to_set (λ _ p, p_pgid p) t).

(** [exec.Cmd], as far as it matters: cancelling kills the process, or the
    group it leads. *)
Inductive canceller := KillProcess | KillGroup.
Record Cmd := mkCmd {
  Setpgid : bool;
  Cancel : canceller;
  Process : option nat;   (* nil until Start *)
}.
#[export] Instance eta_Cmd : Eta Cmd := λ c, mkCmd (Setpgid c) (Cancel c) (Process c).

Definition exec_CommandContext : Cmd := mkCmd false KillProcess None.
Definition configureProcessGroup (unix : bool) (cmd : Cmd) : Cmd :=
  if unix then cmd <| Setpgid := true |> <| Cancel := KillGroup |> else cmd.
(** The child of [self]; Setpgid makes it the leader of a new group. *)
Definition Start (self : nat) (cmd : Cmd) (t : table) : Cmd * table :=
  let pid := new_pid t in
  let pgid := if Setpgid cmd then pid else from_option p_pgid 0%nat (t !! self) in
  (cmd <| Process := Some pid |>, <[pid := mkproc pgid (Some pid) false]> t).
Definition run_cancel (cmd : Cmd) (t : table) : table :=
  match Process cmd with
  | None => t
  | Some pid =>
      match Cancel cmd with
      | KillGroup => filter (λ kv, p_pgid kv.2 ≠ pid) t
      | KillProcess => delete pid t
      end
  end.
Definition runSubscriberCommand_start (unix : bool) (self : nat) (t : table) : Cmd * table :=
  Start self (configureProcessGroup unix exec_CommandContext) t.

(** What processes do while the command [c] runs: its leader's entry stays until
    Run has waited for it. *)
Inductive process_moves (c : nat) : table → table → Prop :=
  | pm_fork parent p t : t !! parent = Some p → process_moves c t (<[new_pid t := p]> t)
  | pm_leave pid p t : t !! pid = Some p → p_pgid p ≠ pid →   (* a leader cannot *)
      process_moves c t (<[pid := mkproc pid (p_command p) true]> t)
  | pm_exit pid t : pid ≠ c → process_moves c t (delete pid t).

(** ** What a cancellation kills *)
(** Of command [c]: its processes that have not left are in its group, and nobody else is. *)
Record group_of (c : nat) (t : table) : Prop := {
  go_leader : p_pgid <$> t !! c = Some c;
  go_in pid p : t !! pid = Some p → p_command p = Some c → p_left p = false → p_pgid p = c;
  go_out pid p : t !! pid = Some p → p_pgid p = c → p_command p = Some c;
}.
Lemma new_pid_fresh t : t !! new_pid t = None ∧ ∀ k p, t !! k = Some p → p_pgid p ≠ new_pid t.
Proof.
  pose proof (is_fresh (dom t ∪ map_to_set (λ _ p, p_pgid p) t)) as Hf. fold (new_pid t) in Hf.
  apply not_elem_of_union in Hf as [H1 H2]. split; [by apply not_elem_of_dom|].
  intros k p Hp E. apply H2. apply elem_of_map_to_set. by exists k, p.
Qed.
Lemma start_group self t : (∀ pid p, t !! pid = Some p → p_command p ≠ Some (new_pid t)) →
  group_of (new_pid t) (runSubscriberCommand_start true self t).2.
Proof.
  intros K. cbn. destruct (new_pid_fresh t) as [Hn Hg]. split; [by rewrite lookup_insert_eq|..];
    intros pid p [[<- <-]|[_ Hp]]%lookup_insert_Some; cbn; try done.
  - intros Hc. by destruct (K pid p Hp). - intros Hc. by destruct (Hg pid p Hp).
Qed.
Lemma moves_group c t t' : group_of c t → process_moves c t t' → group_of c t'.
Proof.
  intros [L I O] H. destruct H as [parent q t Hq|k q t Hq Hk|k t Hk].
  - assert (new_pid t ≠ c) as Hne by (intros <-; by rewrite (proj1 (new_pid_fresh t)) in L).
    split; [by rewrite lookup_insert_ne|..]; intros pid p [[<- <-]|[_ Hp]]%lookup_insert_Some; eauto.
  - assert (k ≠ c) as Hne by (intros ->; rewrite Hq in L; cbn in L; congruence).
    split; [by rewrite lookup_insert_ne|..]; intros pid p [[<- <-]|[_ Hp]]%lookup_insert_Some; cbn; eauto; done.
  - split; [by rewrite lookup_delete_ne|..]; intros pid p [_ Hp]%lookup_delete_Some; eauto.
Qed.

(** On Unix, cancelling a command kills every process it left behind, however
    deep, unless that process moved to a group of its own; and no other. *)
Theorem cancel_kills_group self t t' : (∀ pid p, t !! pid = Some p → p_command p ≠ Some (new_pid t)) →
  let c := new_pid t in let '(cmd, t1) := runSubscriberCommand_start true self t in
  rtc (process_moves c) t1 t' →
  (∀ pid p, run_cancel cmd t' !! pid = Some p → p_command p = Some c → p_left p = true) ∧
  (∀ pid p, t' !! pid = Some p → p_command p ≠ Some c → run_cancel cmd t' !! pid = Some p).
Proof.
  intros K c. pose proof (start_group self t K) as G. change (new_pid t) with c in G.
  destruct (runSubscriberCommand_start true self t) as [cmd t1] eqn:E.
  assert (run_cancel cmd t' = filter (λ kv, p_pgid kv.2 ≠ c) t') as -> by (injection E as <- _; done).
  cbn [snd] in G. clear E. intros H. induction H as [t1|t1 t2 t3 H1 _ IH]; [|by eapply IH, moves_group].
  split; intros pid p Hp.
  - apply map_lookup_filter_Some in Hp as [Hp Hc]. cbn in Hc. intros Ec. destruct (p_left p) eqn:El; [done|].
    by destruct (Hc (go_in _ _ G pid p Hp Ec El)).
  - intros Ec. apply map_lookup_filter_Some. split; [done|]. cbn. intros Eg. by apply Ec, (go_out _ _ G pid p).
Qed.

(** Elsewhere only the direct child is killed: what it has forked lives on. *)
Example other_systems_orphan :
  let '(cmd, t) := runSubscriberCommand_start false 1 {[ 1%nat := mkproc 1 None false ]} in
  let t := <[new_pid t := default (mkproc 0 None false) (Process cmd ≫= λ pid, t !! pid)]> t in
  size (run_cancel cmd t) = 2%nat.
Proof. vm_compute. reflexivity. Qed.
