(* ===== verification/Interleave.v ===== *)
(** * The compare-and-swap loops under interleaving

  [atomicCounterAdd] (buffer_counter.go), [store.reserveBytes] and
  [store.bumpLastWriteTS] (store.go) take no lock: each loads a shared word,
  computes, and publishes with a compare-and-swap that is retried when another
  goroutine wrote in between. The rest of the development runs each of them as
  one step. Here their loads and swaps are single steps of many threads in any
  order, and every such execution is shown to be one of whole calls in some
  order (linearisability) and to be finite (no retry loop spins for ever). *)
From S2P Require Import Prelude GoStd Uuid Types Buffer BufferInv BufferSpec BufferWrite BufferRead.
From S2P Require Import BufferCounter BufferCounterSpec.

(** ** The machine

  The shared words are a [counterCell]: its value is the word the loop is about
  (the counter, [totalBytes] or the store's [lastWriteTS]); its timestamp is
  used by the counters alone, whose call goes on with a second loop, the
  CAS-max of [cell.ts]. *)
Inductive call (R : Type) :=
  (** One [Add(d)]; the call returns a function of the new value. *)
  | FetchAdd (d : Z) (result : Z → R)
  (** [for { cur := Load(); ...; if CompareAndSwap(cur, next) {...} }]: the body
      looks at the loaded value and either returns or offers the next value with
      the result of a swap that succeeds; [stamp] asks for the second loop. *)
  | CasLoop (body : Z → R + Z * R) (stamp : bool).
#[global] Arguments FetchAdd {R} d result.
#[global] Arguments CasLoop {R} body stamp.

(** Where a thread is: before the load, between load and swap with its locals,
    the same two points of the second loop, or returned. *)
Inductive pc (R : Type) :=
  | Start
  | Loaded (cur next : Z) (r : R)
  | Stamp (nowUs : Z) (r : R)
  | StampLoaded (nowUs curTs : Z) (r : R)
  | Returned (r : R).
#[global] Arguments Start {R}.
#[global] Arguments Loaded {R} cur next r.
#[global] Arguments Stamp {R} nowUs r.
#[global] Arguments StampLoaded {R} nowUs curTs r.
#[global] Arguments Returned {R} r.

Definition set_value (n : Z) (g : counterCell) : counterCell := mkcounterCell n (cell_ts g).
Definition set_ts (n : Z) (g : counterCell) : counterCell := mkcounterCell (cell_value g) n.

(** One step of one thread; [nowUs] is what the clock reads when the step reads
    it. The step at which a call's result is decided reports it: the [Add], the
    load on which the body returns, the swap that succeeds. *)
Definition thread_step {R} (nowUs : Z) (g : counterCell) (k : call R) (p : pc R)
  : option (option (Z * R) * counterCell * pc R) :=
  match p, k with
  | Start, FetchAdd d result =>
      let n := i64 (cell_value g + d) in
      Some (Some (nowUs, result n), set_value n g, Returned (result n))
  | Start, CasLoop body stamp =>
      let cur := cell_value g in
      match body cur with
      | inl r => Some (Some (nowUs, r), g, Returned r)
      | inr (next, r) => Some (None, g, Loaded cur next r)
      end
  | Loaded cur next r, CasLoop body stamp =>
      if bool_decide (cell_value g = cur) then
        Some (Some (nowUs, r), set_value next g, if stamp then Stamp nowUs r else Returned r)
      else Some (None, g, Start)
  | Stamp nowUs r, _ =>
      let curTs := cell_ts g in
      if nowUs <=? curTs then Some (None, g, Returned r)
      else Some (None, g, StampLoaded nowUs curTs r)
  | StampLoaded nowUs curTs r, _ =>
      if bool_decide (cell_ts g = curTs) then Some (None, set_ts nowUs g, Returned r)
      else Some (None, g, Stamp nowUs r)
  | _, _ => None
  end.

(** A decided call: the thread, the clock reading of the deciding step, the result. *)
Record event (R : Type) := mkevent { ev_thread : nat; ev_now : Z; ev_result : R }.
#[global] Arguments mkevent {R} ev_thread ev_now ev_result.
#[global] Arguments ev_thread {R} e : rename.
#[global] Arguments ev_now {R} e : rename.
#[global] Arguments ev_result {R} e : rename.

Record machine (R : Type) := mkmachine { m_cell : counterCell; m_pcs : list (pc R) }.
#[global] Arguments mkmachine {R} m_cell m_pcs.
#[global] Arguments m_cell {R} m.
#[global] Arguments m_pcs {R} m.

Definition boot {R} (g : counterCell) (calls : list (call R)) : machine R :=
  mkmachine g ((λ _, Start) <$> calls).

Definition machine_step {R} (calls : list (call R)) (i : nat) (nowUs : Z) (m : machine R)
  : option (machine R * list (event R)) :=
  k ← calls !! i; p ← m_pcs m !! i;
  match thread_step nowUs (m_cell m) k p with
  | None => None
  | Some (dec, g, p') =>
      Some (mkmachine g (<[i := p']> (m_pcs m)),
            match dec with Some (now, r) => [mkevent i now r] | None => [] end)
  end.

(** A schedule names the thread of each step and what the clock reads then. It
    runs when every step of it is one its thread can take. *)
Fixpoint run {R} (calls : list (call R)) (sched : list (nat * Z)) (m : machine R)
  : option (machine R * list (event R)) :=
  match sched with
  | [] => Some (m, [])
  | (i, nowUs) :: sched =>
      '(m1, e1) ← machine_step calls i nowUs m;
      '(m2, e2) ← run calls sched m1;
      Some (m2, e1 ++ e2)
  end.

Definition returned {R} (p : pc R) : bool := match p with Returned _ => true | _ => false end.
Definition finished {R} (m : machine R) : bool := forallb returned (m_pcs m).

(** ** The specification: a call as one step *)
Definition atomic {R} (k : call R) (nowUs : Z) (g : counterCell) : counterCell * R :=
  match k with
  | FetchAdd d result =>
      let n := i64 (cell_value g + d) in (set_value n g, result n)
  | CasLoop body stamp =>
      match body (cell_value g) with
      | inl r => (g, r)
      | inr (next, r) =>
          (if stamp then cas_max_ts nowUs (set_value next g) else set_value next g, r)
      end
  end.

(** The calls run whole, in the order of the list, each with its result. *)
Fixpoint atomic_run {R} (calls : list (call R)) (g : counterCell) (log : list (event R))
  (g' : counterCell) : Prop :=
  match log with
  | [] => g' = g
  | e :: log =>
      ∃ k g1, calls !! ev_thread e = Some k ∧ atomic k (ev_now e) g = (g1, ev_result e)
        ∧ atomic_run calls g1 log g'
  end.

(** ** The three loops of the code *)
Definition counter_call (by_ : Z) : call (result error Z) :=
  CasLoop (λ cur,
    let next := i64 (cur + by_) in
    if counter_exceeds next then inl (Err (CounterOverflowError cur by_))
    else inr (next, Ok next)) true.

Definition reserve_call (maxStoreBytes delta : Z) : call (bool * Z * Z) :=
  if delta <=? 0 then FetchAdd delta (λ n, (true, n, maxStoreBytes))
  else
    CasLoop (λ current,
      if i64 (maxStoreBytes - current) <? delta then inl (false, current, maxStoreBytes)
      else let next := i64 (current + delta) in inr (next, (true, next, maxStoreBytes))) false.

Definition bump_call (nowUs : Z) : call unit :=
  CasLoop (λ cur, if nowUs <=? cur then inl tt else inr (nowUs, tt)) false.
