(* ===== verification/InterleaveSpec.v ===== *)
(** * The interleaved loops are atomic and end

  The invariant of the machine says that the calls decided so far, run whole in
  the order they were decided, lead to the shared words as they are once the
  pending second loops have stamped them; the measure charges every write with
  the retries it can cause. *)
From S2P Require Import Prelude GoStd Uuid Types Buffer BufferInv BufferSpec BufferWrite BufferRead.
From S2P Require Import BufferCounter BufferCounterSpec Interleave.

(** The stamp a thread has still to publish. *)
Definition pending {R} (p : pc R) : option Z :=
  match p with Stamp now _ | StampLoaded now _ _ => Some now | _ => None end.
(** The result of a thread whose call is decided. *)
Definition decided {R} (p : pc R) : option R :=
  match p with Stamp _ r | StampLoaded _ _ r | Returned r => Some r | _ => None end.
(** The words once every pending stamp is published. *)
Definition settle {R} (m : machine R) : counterCell :=
  set_ts (foldr Z.max (cell_ts (m_cell m)) (omap pending (m_pcs m))) (m_cell m).

(** What the locals of a thread satisfy. *)
Definition locals_ok {R} (k : call R) (p : pc R) : Prop :=
  match p with
  | Loaded cur next r => ∃ body stamp, k = CasLoop body stamp ∧ body cur = inr (next, r)
  | StampLoaded now curTs _ => curTs < now
  | _ => True
  end.

Record run_inv {R} (calls : list (call R)) (g0 : counterCell) (log : list (event R))
  (m : machine R) : Prop := {
  ri_locals : Forall2 locals_ok calls (m_pcs m);
  ri_nodup : NoDup (ev_thread <$> log);
  ri_atomic : atomic_run calls g0 log (settle m);
  ri_results i r : (m_pcs m !! i ≫= decided) = Some r ↔ ∃ now, mkevent i now r ∈ log;
}.

(** ** Lists *)
Lemma list_split_at {A} (l : list A) i x :
  l !! i = Some x → ∃ l1 l2, l = l1 ++ x :: l2 ∧ ∀ y, <[i:=y]> l = l1 ++ y :: l2.
Proof.
  intros E. exists (take i l), (drop (S i) l). split; [by rewrite take_drop_middle|].
  intros y. rewrite insert_take_drop; [done|]. by apply lookup_lt_Some in E.
Qed.
Lemma foldr_max_comm a x l : foldr Z.max (Z.max x a) l = Z.max x (foldr Z.max a l).
Proof. induction l as [|y l IH]; [done|]. cbn. rewrite IH. lia. Qed.
Lemma foldr_max_mid a x l1 l2 :
  foldr Z.max a (l1 ++ x :: l2) = Z.max x (foldr Z.max a (l1 ++ l2)).
Proof. rewrite !foldr_app. cbn. apply foldr_max_comm. Qed.
Lemma foldr_max_ge a l : a <= foldr Z.max a l.
Proof. induction l as [|y l IH]; cbn; [done|]. lia. Qed.

Section Machine.
Context {R : Type}.
Implicit Types (k : call R) (p : pc R) (m : machine R) (log : list (event R)).

(** What the settled timestamp is, thread [i] apart. *)
Lemma settle_split g l1 p l2 :
  settle (mkmachine g (l1 ++ p :: l2)) =
  match pending p with
  | Some now => set_ts (Z.max now (foldr Z.max (cell_ts g) (omap pending (l1 ++ l2)))) g
  | None => set_ts (foldr Z.max (cell_ts g) (omap pending (l1 ++ l2))) g
  end.
Proof.
  unfold settle. cbn. rewrite !omap_app. cbn. destruct (pending p); [|done].
  by rewrite foldr_max_mid.
Qed.

Lemma atomic_run_snoc (calls : list (call R)) g log g1 e k g2 :
  atomic_run calls g log g1 → calls !! ev_thread e = Some k →
  atomic k (ev_now e) g1 = (g2, ev_result e) → atomic_run calls g (log ++ [e]) g2.
Proof.
  revert g. induction log as [|e0 log IH]; intros g; cbn.
  - intros ->. eauto.
  - intros (k0 & g0 & ? & ? & ?) ??. exists k0, g0. eauto.
Qed.

(** A step that decides nothing leaves the settled words, one that decides a
    call changes them as the whole call does. *)
Lemma thread_step_settles now g k p dec g' p' l1 l2 :
  locals_ok k p → thread_step now g k p = Some (dec, g', p') →
  let s := settle (mkmachine g (l1 ++ p :: l2)) in
  let s' := settle (mkmachine g' (l1 ++ p' :: l2)) in
  locals_ok k p' ∧
  match dec with
  | None => s' = s ∧ decided p' = decided p
  | Some (t, r) => atomic k t s = (s', r) ∧ decided p = None ∧ decided p' = Some r
  end.
Proof.
  intros Hl Hs. cbn zeta. rewrite !settle_split.
  set (l := omap pending (l1 ++ l2)). pose proof (foldr_max_ge (cell_ts g) l) as Hge.
  destruct p as [|cur next r|t r|t curTs r|r]; cbn in Hs.
  - destruct k as [d res|body stamp]; [by simplify_eq|].
    destruct (body (cell_value g)) as [r|[next r]] eqn:Eb; simplify_eq; cbn;
      rewrite ?Eb; eauto 10.
  - destruct Hl as (body & stamp & -> & Eb). case_bool_decide as Ec; simplify_eq; cbn; [|done].
    rewrite Eb. destruct stamp; cbn; [|done]. unfold cas_max_ts; cbn.
    split_and!; [done| |done..]. f_equal. unfold set_ts, set_value; cbn.
    destruct (Z.leb_spec now (foldr Z.max (cell_ts g) l)); f_equal; lia.
  - destruct (Z.leb_spec t (cell_ts g)); simplify_eq; cbn; [|split_and!; [lia|done..]].
    split_and!; [done| |done]. f_equal. lia.
  - cbn in Hl. case_bool_decide as Ec; simplify_eq; cbn; [|done].
    split_and!; [done| |done]. unfold set_ts; cbn. f_equal.
    rewrite <- (foldr_max_comm (cell_ts g) t). f_equal. lia.
  - done.
Qed.

Lemma boot_inv (calls : list (call R)) g : run_inv calls g [] (boot g calls).
Proof.
  assert (Hp : omap pending ((λ _, Start) <$> calls : list (pc R)) = []).
  { by induction calls. }
  split; cbn.
  - apply Forall2_fmap_r. clear Hp. induction calls; constructor; done.
  - constructor.
  - unfold settle. cbn. rewrite Hp. by destruct g.
  - intros i r. rewrite list_lookup_fmap. destruct (calls !! i); cbn; split; [done|..].
    all: try (intros (? & []%not_elem_of_nil)). done.
Qed.

Lemma machine_step_inv calls g0 log m i now m' e :
  run_inv calls g0 log m → machine_step calls i now m = Some (m', e) →
  run_inv calls g0 (log ++ e) m'.
Proof.
  intros [Hl Hnd Ha Hr] Hs. unfold machine_step in Hs.
  destruct (calls !! i) as [k|] eqn:Ek; [|done]. cbn in Hs.
  destruct (m_pcs m !! i) as [p|] eqn:Ep; [|done]. cbn in Hs.
  destruct (thread_step now (m_cell m) k p) as [[[dec g'] p']|] eqn:Et; [|done].
  injection Hs as <- <-.
  destruct (list_split_at _ _ _ Ep) as (l1 & l2 & El & Ei).
  assert (Hk : locals_ok k p) by exact (Forall2_lookup_lr _ _ _ _ _ _ Hl Ek Ep).
  destruct (thread_step_settles _ _ _ _ _ _ _ l1 l2 Hk Et) as [Hk' Hd].
  rewrite <- (Ei p'), <- El in Hd. replace (mkmachine (m_cell m) (m_pcs m)) with m in Hd by by destruct m.
  assert (Hl' : Forall2 locals_ok calls (<[i:=p']> (m_pcs m))).
  { pose proof (Forall2_insert _ _ _ _ _ i Hl Hk') as X. by rewrite list_insert_id in X. }
  assert (Hlu : ∀ j, <[i:=p']> (m_pcs m) !! j = if decide (i = j) then Some p' else m_pcs m !! j).
  { intros j. destruct (decide (i = j)) as [->|n]; [|by rewrite list_lookup_insert_ne].
    rewrite list_lookup_insert_eq; [done|]. by apply lookup_lt_Some in Ep. }
  destruct dec as [[t r]|]; cbn.
  - destruct Hd as (Hat & Hn & Hy).
    assert (Hfresh : ∀ u r', mkevent i u r' ∈ log → False).
    { intros u r' Hu. assert (X : m_pcs m !! i ≫= decided = Some r') by (apply Hr; eauto).
      rewrite Ep in X. cbn in X. by rewrite Hn in X. }
    split; [done|..].
    + rewrite fmap_app. apply NoDup_app. split_and!; [done| |apply NoDup_singleton].
      intros j Hj Hin. apply list_elem_of_singleton in Hin as ->. cbn in Hj.
      apply list_elem_of_fmap in Hj as ([j u r'] & -> & Hj). cbn in *.
      exact (Hfresh u r' Hj).
    + eapply atomic_run_snoc; done.
    + intros j r'. cbn. rewrite Hlu.
      setoid_rewrite elem_of_app. setoid_rewrite list_elem_of_singleton.
      destruct (decide (i = j)) as [<-|n]; cbn.
      * rewrite Hy. split; [intros [= ->]; eauto|].
        intros (u & [Hu|Hu]); [|by simplify_eq].
        destruct (Hfresh u r' Hu).
      * rewrite Hr. split; [intros [u ?]; eauto|]. intros (u & [Hu|Hu]); [eauto|by simplify_eq].
  - rewrite app_nil_r. destruct Hd as [Hse Hde]. split; [done|done|by rewrite Hse|].
    intros j r'. rewrite <- Hr. cbn. rewrite Hlu.
    destruct (decide (i = j)) as [<-|n]; [|done]. rewrite Ep. cbn. by rewrite Hde.
Qed.

Lemma run_cons_inv calls i now sched m m' log :
  run calls ((i, now) :: sched) m = Some (m', log) →
  ∃ m1 e1 e2, machine_step calls i now m = Some (m1, e1) ∧ run calls sched m1 = Some (m', e2) ∧
    log = e1 ++ e2.
Proof.
  cbn. destruct (machine_step calls i now m) as [[m1 e1]|]; [|done]. cbn.
  destruct (run calls sched m1) as [[m2 e2]|] eqn:Er; [|done]. cbn. intros [= <- <-]. eauto 10.
Qed.

(** An invariant of the machine's steps holds of every run. *)
Lemma run_invariant calls (I : list (event R) → machine R → Prop) :
  (∀ log m i now m' e, I log m → machine_step calls i now m = Some (m', e) → I (log ++ e) m') →
  ∀ sched log m m' e, I log m → run calls sched m = Some (m', e) → I (log ++ e) m'.
Proof.
  intros Hstep. induction sched as [|[i now] sched IH]; intros log m m' e Hi Hr.
  - injection Hr as <- <-. by rewrite app_nil_r.
  - apply run_cons_inv in Hr as (m1 & e1 & e2 & Hs & Hr & ->). rewrite app_assoc. eauto.
Qed.
Lemma run_run_inv (calls : list (call R)) g sched m log :
  run calls sched (boot g calls) = Some (m, log) → run_inv calls g log m.
Proof.
  intros Hr. refine (run_invariant calls (run_inv calls g) _ _ [] _ _ _ _ Hr).
  - intros. by eapply machine_step_inv.
  - apply boot_inv.
Qed.

(** When all have returned nothing is pending. *)
Lemma finished_settle m : finished m = true → settle m = m_cell m.
Proof.
  intros Hf. unfold settle.
  assert (E : omap pending (m_pcs m) = []).
  { unfold finished in Hf. induction (m_pcs m) as [|p l IH]; [done|].
    cbn in *. apply andb_prop in Hf as [Hp Hf]. destruct p; try done. by apply IH. }
  rewrite E. by destruct (m_cell m).
Qed.

(** ** The measure

  A failed swap costs three steps of the thread that lost it (the swap, the
  load, and back at the swap); every write makes at most the other threads
  lose one. So a loop still to write carries, besides its own steps, twice the
  number of threads. *)
Section Measure.
Variable calls : list (call R).
Definition credit : nat := 2 * length calls + 3.

Definition weight (g : counterCell) (p : pc R) : nat :=
  match p with
  | Start => 2 * credit - 1
  | Loaded cur _ _ =>
      if bool_decide (cell_value g = cur) then 2 * credit - 2 else 2 * credit
  | Stamp _ _ => credit - 1
  | StampLoaded _ curTs _ => if bool_decide (cell_ts g = curTs) then credit - 2 else credit
  | Returned _ => 0
  end.
Definition measure (m : machine R) : nat := sum_list_with (weight (m_cell m)) (m_pcs m).

Lemma weight_write g g' p : (weight g' p ≤ weight g p + 2)%nat.
Proof. unfold weight, credit. destruct p; repeat case_bool_decide; lia. Qed.
Lemma weights_write g g' ps :
  (sum_list_with (weight g') ps ≤ sum_list_with (weight g) ps + 2 * length ps)%nat.
Proof. induction ps as [|p ps IH]; cbn; [lia|]. pose proof (weight_write g g' p). lia. Qed.

(** A step that writes nothing makes its thread lighter; one that writes makes
    it lighter by more than the others can gain. *)
Lemma thread_step_weight now g k p dec g' p' :
  thread_step now g k p = Some (dec, g', p') →
  (g' = g ∧ S (weight g p') ≤ weight g p ∨ weight g' p' + credit ≤ weight g p + 2)%nat.
Proof.
  intros Hs. destruct p as [|cur next r|t r|t curTs r|r], k as [d res|body stamp]; cbn in Hs;
    repeat case_match; simplify_eq; cbn; unfold credit in *; repeat case_bool_decide;
    simplify_eq; first [done|left; split; [done|lia]|right; lia].
Qed.

Lemma machine_step_measure i now m m' e :
  length (m_pcs m) = length calls → machine_step calls i now m = Some (m', e) →
  (S (measure m') ≤ measure m)%nat ∧ length (m_pcs m') = length calls.
Proof.
  intros Hlen Hs. unfold machine_step in Hs.
  destruct (calls !! i) as [k|] eqn:Ek; [|done]. cbn in Hs.
  destruct (m_pcs m !! i) as [p|] eqn:Ep; [|done]. cbn in Hs.
  destruct (thread_step now (m_cell m) k p) as [[[dec g'] p']|] eqn:Et; [|done].
  injection Hs as <- <-. unfold measure. cbn. rewrite length_insert.
  destruct (list_split_at _ _ _ Ep) as (l1 & l2 & El & Ei). split; [|done].
  rewrite Ei, El, !sum_list_with_app. cbn.
  rewrite El, length_app in Hlen. cbn in Hlen.
  pose proof (weights_write (m_cell m) g' l1). pose proof (weights_write (m_cell m) g' l2).
  destruct (thread_step_weight _ _ _ _ _ _ _ Et) as [[-> ?]|?]; [lia|].
  unfold credit in *. lia.
Qed.

Lemma run_measure sched m m' log :
  length (m_pcs m) = length calls → run calls sched m = Some (m', log) →
  (length sched + measure m' ≤ measure m)%nat.
Proof.
  revert m log. induction sched as [|[i now] sched IH]; intros m log Hlen Hr.
  - by injection Hr as <- <-.
  - apply run_cons_inv in Hr as (m1 & e1 & e2 & Hs & Hr & ->).
    destruct (machine_step_measure _ _ _ _ _ Hlen Hs) as [? Hlen'].
    specialize (IH _ _ Hlen' Hr). cbn. lia.
Qed.

Lemma measure_boot g :
  measure (boot g calls) = (length calls * (4 * length calls + 5))%nat.
Proof.
  unfold measure, boot. cbn.
  assert (E : ∀ l : list (call R), sum_list_with (weight g) ((λ _, Start) <$> l) =
    (length l * (4 * length calls + 5))%nat).
  { induction l as [|k l IH]; [done|]. cbn [fmap list_fmap sum_list_with length]. rewrite IH.
    cbn [weight]. unfold credit. lia. }
  apply E.
Qed.
End Measure.

(** A thread that has not returned can always take a step, whatever the others
    have done: no step waits for another thread. *)
Lemma machine_step_enabled calls m i now k p :
  calls !! i = Some k → locals_ok k p → m_pcs m !! i = Some p → returned p = false →
  is_Some (machine_step calls i now m).
Proof.
  intros Ek Hl Ep Hp. unfold machine_step. rewrite Ek, Ep. cbn.
  destruct p as [|cur next r|t r|t curTs r|r], k; cbn; try done; repeat case_match; try done;
    simplify_eq; eauto; naive_solver.
Qed.
End Machine.

(** ** The loops of the code, run whole, are the operations of the model *)
Section Bridge.
Context `{Env} `{Caps}.

Lemma atomicCounterAdd_atomic c by_ x g r :
  atomic (counter_call by_) (clk_micro (c_tick x)) (cells (c_buf x) !!! c) = (g, r) →
  ∃ x', atomicCounterAdd c by_ x = (r, x') ∧ cells (c_buf x') !!! c = g ∧
    c_tick x' = match r with Ok _ => S (c_tick x) | Err _ => c_tick x end.
Proof.
  destruct x as [b a t]. cbn [c_buf c_tick]. unfold atomicCounterAdd. rewrite bind_get_buf.
  cbn [atomic counter_call]. destruct (counter_exceeds _); intros [= <- <-]; [eauto|].
  rewrite bind_now, bind_modify_buf. eexists. split; [done|]. split; [|done].
  cbn. by rewrite lookup_total_insert_eq.
Qed.

Lemma reserveBytes_atomic delta b a t g r now :
  atomic (reserve_call maxStoreBytes delta) now (mkcounterCell (totalBytes a) 0) = (g, r) →
  reserveBytes delta (mkctx b a t) = (r, mkctx b (set_totalBytes (cell_value g) a) t).
Proof.
  unfold reserveBytes, reserve_call. destruct (delta <=? 0); cbn.
  - by intros [= <- <-].
  - unfold get_acct, gets, bind. cbn.
    destruct (i64 _ <? delta); intros [= <- <-]; [|done]. by destruct a.
Qed.

Lemma bumpLastWriteTS_atomic nowUs b a t g r now :
  atomic (bump_call nowUs) now (mkcounterCell (store_lastWriteTS a) 0) = (g, r) →
  bumpLastWriteTS nowUs (mkctx b a t) = (r, mkctx b (set_store_lastWriteTS (cell_value g) a) t).
Proof.
  unfold bumpLastWriteTS, modify_acct. cbn.
  destruct (nowUs <=? store_lastWriteTS a); intros [= <- <-]; [|done]. by destruct a.
Qed.
End Bridge.
