(* ===== verification/InterleaveTheorems.v ===== *)
(** * What concurrent counter increments and byte reservations guarantee *)
From S2P Require Import Prelude GoStd Uuid Types Buffer BufferInv BufferSpec BufferWrite BufferRead.
From S2P Require Import BufferCounter BufferCounterSpec Interleave InterleaveSpec.

(** The increments [log] names, run whole one after the other by the model's
    [atomicCounterAdd], each with the result [log] gives it. *)
Fixpoint adds_in_order `{Env} (c : nat) (bys : list Z) (log : list (event (result error Z)))
  (x x' : ctx) : Prop :=
  match log with
  | [] => x' = x
  | e :: log =>
      ∃ by_ x1, bys !! ev_thread e = Some by_ ∧
        atomicCounterAdd c by_ x = (ev_result e, x1) ∧ adds_in_order c bys log x1 x'
  end.

(** The clock readings of the increments that took effect. *)
Definition stamp_of (e : event (result error Z)) : option Z :=
  match ev_result e with Ok _ => Some (ev_now e) | Err _ => None end.

(** What a reservation has added to [totalBytes] so far. *)
Definition granted (dp : Z * pc (bool * Z * Z)) : Z :=
  match decided dp.2 with Some (true, _, _) => dp.1 | _ => 0 end.
(** The bytes a release gives back. *)
Definition release (d : Z) : Z := Z.min d 0.

Lemma atomic_run_adds `{Env} c bys log : ∀ x g,
  atomic_run (counter_call <$> bys) (cells (c_buf x) !!! c) log g →
  (∀ j n, omap stamp_of log !! j = Some n → clk_micro (c_tick x + j) = n) →
  ∃ x', adds_in_order c bys log x x' ∧ cells (c_buf x') !!! c = g.
Proof.
  induction log as [|e log IH]; intros x g; cbn [atomic_run adds_in_order omap list_omap].
  { intros -> _. eauto. }
  intros (k & g1 & Hk & Ha & Hrest) Hclk. rewrite list_lookup_fmap in Hk.
  destruct (bys !! ev_thread e) as [by_|] eqn:Eb; [|done]. injection Hk as <-.
  assert (Hnow : atomic (counter_call by_) (clk_micro (c_tick x)) (cells (c_buf x) !!! c)
    = (g1, ev_result e)).
  { rewrite <- Ha. destruct (ev_result e) eqn:Er.
    - f_equal. rewrite <- (Nat.add_0_r (c_tick x)). apply Hclk. unfold stamp_of. by rewrite Er.
    - cbn in Ha |- *. by destruct (counter_exceeds _). }
  destruct (atomicCounterAdd_atomic _ _ _ _ _ Hnow) as (x1 & Hrun & <- & Htick).
  destruct (IH x1 g Hrest) as (x' & ? & ?); [|eauto 10].
  intros j n Hj. unfold stamp_of in Hclk. rewrite Htick. destruct (ev_result e).
  - rewrite Nat.add_succ_comm. by apply Hclk.
  - by apply Hclk.
Qed.

Lemma finished_log {R} (calls : list (call R)) g m log :
  run_inv calls g log m → finished m = true →
  ev_thread <$> log ≡ₚ seq 0 (length calls).
Proof.
  intros I Hf. apply NoDup_Permutation; [exact (ri_nodup _ _ _ _ I)|apply NoDup_seq|].
  pose proof (Forall2_length _ _ _ (ri_locals _ _ _ _ I)) as Hlen.
  intros i. rewrite elem_of_seq, list_elem_of_fmap. split.
  - intros ([j now r] & -> & Hj). cbn.
    assert (X : m_pcs m !! j ≫= decided = Some r) by (apply (ri_results _ _ _ _ I); eauto).
    destruct (m_pcs m !! j) eqn:Ep; [|done]. apply lookup_lt_Some in Ep. lia.
  - intros Hi. destruct (lookup_lt_is_Some_2 (m_pcs m) i) as [p Hp]; [lia|].
    assert (Hr : returned p = true).
    { unfold finished in Hf. rewrite forallb_forall in Hf. apply Hf.
      apply list_elem_of_In. by apply list_elem_of_lookup_2 in Hp. }
    destruct p as [| | | |r]; try done.
    destruct (proj1 (ri_results _ _ _ _ I i r)) as [now Hin]; [by rewrite Hp|].
    exists (mkevent i now r). done.
Qed.

(** C5: Concurrent increments of one counter: whatever the interleaving of the
    loads and swaps of the calls, once all have returned there is an order of the
    calls (the order in which they were decided, so an increment that returned
    before another began comes first) in which the model's [atomicCounterAdd],
    run whole, returns the same results and leaves the same value and timestamp
    in the cell; every call occurs in it exactly once. *)
Theorem counter_adds_linearize `{Env} (c : nat) (bys : list Z) (x : ctx)
  (sched : list (nat * Z)) (m : machine (result error Z)) (log : list (event (result error Z)))
  (Hrun : run (counter_call <$> bys) sched
            (boot (cells (c_buf x) !!! c) (counter_call <$> bys)) = Some (m, log))
  (Hdone : finished m = true)
  (Hclock : ∀ j n, omap stamp_of log !! j = Some n → clk_micro (c_tick x + j) = n) :
  ev_thread <$> log ≡ₚ seq 0 (length bys) ∧
  (∀ i r, m_pcs m !! i ≫= decided = Some r ↔ ∃ now, mkevent i now r ∈ log) ∧
  ∃ x', adds_in_order c bys log x x' ∧ cells (c_buf x') !!! c = m_cell m.
Proof.
  pose proof (run_run_inv _ _ _ _ _ Hrun) as I. split_and!.
  - rewrite (finished_log _ _ _ _ I Hdone). by rewrite length_fmap.
  - exact (ri_results _ _ _ _ I).
  - apply atomic_run_adds; [|done]. rewrite <- (finished_settle _ Hdone).
    exact (ri_atomic _ _ _ _ I).
Qed.

(** C7: No execution retries for ever: the steps of any schedule of [n]
    concurrent calls number at most [n * (4 * n + 5)], and in every state it
    reaches each thread that has not returned can take a step of its own,
    whatever the clock reads and whatever the others have done, so a scheduler
    that keeps stepping threads ends with every call returned. *)
Theorem cas_loops_end {R} (calls : list (call R)) (g : counterCell)
  (sched : list (nat * Z)) (m : machine R) (log : list (event R))
  (Hrun : run calls sched (boot g calls) = Some (m, log)) :
  (length sched ≤ length calls * (4 * length calls + 5))%nat ∧
  (∀ i p now, m_pcs m !! i = Some p → returned p = false →
     is_Some (machine_step calls i now m)) ∧
  ((∀ i now, machine_step calls i now m = None) → finished m = true).
Proof.
  pose proof (ri_locals _ _ _ _ (run_run_inv _ _ _ _ _ Hrun)) as Hl.
  assert (Hen : ∀ i p now, m_pcs m !! i = Some p → returned p = false →
    is_Some (machine_step calls i now m)).
  { intros i p now Hp Hr. destruct (Forall2_lookup_r _ _ _ _ _ Hl Hp) as (k & Hk & Hok).
    by eapply machine_step_enabled. }
  split_and!; [|exact Hen|].
  - rewrite <- (measure_boot calls g).
    assert (Hlen : length (m_pcs (boot g calls)) = length calls) by apply length_fmap.
    pose proof (run_measure calls _ _ _ _ Hlen Hrun). lia.
  - intros Hstuck. unfold finished. apply forallb_forall. intros p Hin.
    apply list_elem_of_In, list_elem_of_lookup in Hin as [i Hp].
    destruct (returned p) eqn:Er; [done|].
    destruct (Hen i p 0 Hp Er) as [? Hs]. by rewrite Hstuck in Hs.
Qed.

(** ** Reservations *)
Section Reservations.
Variables (cap v0 : Z) (deltas : list Z).
Hypothesis Hcap : 0 ≤ cap ≤ MaxInt64.
Hypothesis Hstart : v0 ≤ cap.
Hypothesis Hheld : 0 ≤ v0 + zsum release deltas.

Definition total (m : machine (bool * Z * Z)) : Z := v0 + zsum granted (zip deltas (m_pcs m)).

(** What a thread's locals and its refusal say. *)
Definition reservation_ok (d : Z) (p : pc (bool * Z * Z)) : Prop :=
  match p with
  | Start | Returned (true, _, _) => True
  | Loaded cur next r => 0 < d ∧ 0 ≤ cur ∧ next = cur + d ∧ next ≤ cap ∧ r = (true, next, cap)
  | Returned (false, cur, max) => 0 < d ∧ 0 ≤ cur ∧ cap < cur + d ∧ max = cap
  | Stamp _ _ | StampLoaded _ _ _ => False
  end.
Definition reservations_inv (m : machine (bool * Z * Z)) : Prop :=
  Forall2 reservation_ok deltas (m_pcs m) ∧ cell_value (m_cell m) = total m ∧ total m ≤ cap.

Lemma release_neg d : release d ≤ 0.
Proof. unfold release. lia. Qed.
Lemma granted_ge d p : release d ≤ granted (d, p).
Proof. unfold release, granted. cbn. repeat case_match; lia. Qed.
Lemma granted_sum_ge ps : zsum release deltas ≤ zsum granted (zip deltas ps).
Proof.
  revert ps. clear. induction deltas as [|d ds IH]; intros ps; [done|]. destruct ps as [|p ps].
  - change (zip (d :: ds) []) with (@nil (Z * pc (bool * Z * Z))).
    generalize (d :: ds) as l. clear. induction l as [|d l IH]; [done|].
    pose proof (release_neg d). cbn [zsum] in *. lia.
  - specialize (IH ps). pose proof (granted_ge d p). cbn [zip zip_with zsum] in *. lia.
Qed.
Lemma total_nonneg m : 0 ≤ total m.
Proof. pose proof (granted_sum_ge (m_pcs m)). unfold total. lia. Qed.

(** One thread's step changes its own share of the total. *)
Lemma total_step (m : machine (bool * Z * Z)) g i d p p' : deltas !! i = Some d → m_pcs m !! i = Some p →
  total (mkmachine g (<[i:=p']> (m_pcs m))) = total m - granted (d, p) + granted (d, p').
Proof.
  unfold total. cbn [m_pcs]. generalize (m_pcs m) as ps. clear. revert i.
  induction deltas as [|d0 ds IH]; intros i ps Hd Hp; [done|].
  destruct ps as [|p0 ps]; [done|]. destruct i as [|i]; cbn in Hd, Hp.
  - simplify_eq. change (<[0%nat:=p']> (p :: ps)) with (p' :: ps). cbn [zip_with zsum]. lia.
  - specialize (IH i ps Hd Hp).
    change (<[S i:=p']> (p0 :: ps)) with (p0 :: <[i:=p']> ps). cbn [zip_with zsum]. lia.
Qed.

Lemma reservations_step m i now m' e :
  reservations_inv m → machine_step (reserve_call cap <$> deltas) i now m = Some (m', e) →
  reservations_inv m'.
Proof.
  intros (Hok & Hval & Hle) Hs. unfold machine_step in Hs. rewrite list_lookup_fmap in Hs.
  destruct (deltas !! i) as [d|] eqn:Ed; [|done]. cbn in Hs.
  destruct (m_pcs m !! i) as [p|] eqn:Ep; [|done]. cbn in Hs.
  destruct (thread_step now (m_cell m) (reserve_call cap d) p) as [[[dec g'] p']|] eqn:Et; [|done].
  injection Hs as <- <-.
  pose proof (Forall2_lookup_lr _ _ _ _ _ _ Hok Ed Ep) as Hp.
  pose proof (total_nonneg m) as Hnn.
  pose proof (total_nonneg (mkmachine g' (<[i:=p']> (m_pcs m)))) as Hnn'.
  pose proof (total_step m g' i d p p' Ed Ep) as Htot. rewrite Htot in Hnn'.
  assert (reservation_ok d p' ∧ cell_value g' = total m - granted (d, p) + granted (d, p') ∧
    total m - granted (d, p) + granted (d, p') ≤ cap) as (Hp' & Hv' & Hc').
  { clear Hok Htot. unfold thread_step, reserve_call in Et. unfold in_i64 in *.
    destruct p as [|cur next r|t r|t curTs r|[[ok cur] mx]]; cbn in Hp; try done.
    - destruct (Z.leb_spec d 0).
      + injection Et as <- <- <-. cbn in Hnn' |- *. rewrite Hval.
        rewrite i64_id; [lia|]. unfold in_i64, MinInt64. lia.
      + rewrite Hval, (i64_id (cap - total m)) in Et by (unfold in_i64, MinInt64; lia).
        destruct (Z.ltb_spec (cap - total m) d); injection Et as <- <- <-; cbn; [lia|].
        rewrite i64_id by (unfold in_i64, MinInt64; lia). split_and!; try done; lia.
    - destruct Hp as (? & ? & -> & ? & ->). destruct (Z.leb_spec d 0); [done|].
      case_bool_decide; injection Et as <- <- <-; cbn; lia. }
  split_and!; cbn.
  - pose proof (Forall2_insert _ _ _ _ _ i Hok Hp') as X. by rewrite list_insert_id in X.
  - by rewrite Htot.
  - by rewrite Htot.
Qed.

Lemma reservations_boot : reservations_inv (boot (mkcounterCell v0 0) (reserve_call cap <$> deltas)).
Proof.
  assert (E : zsum granted (zip deltas ((λ _, Start) <$> (reserve_call cap <$> deltas))) = 0).
  { clear. induction deltas as [|d ds IH]; [done|]. cbn in *. lia. }
  unfold reservations_inv, total, boot. cbn. rewrite E. split_and!; [|lia..].
  clear. induction deltas; constructor; done.
Qed.

Lemma reservations_run sched m log :
  run (reserve_call cap <$> deltas) sched
    (boot (mkcounterCell v0 0) (reserve_call cap <$> deltas)) = Some (m, log) →
  reservations_inv m.
Proof.
  intros Hr. refine (run_invariant _ (λ _ m, reservations_inv m) _ _ [] _ _ _ _ Hr).
  - intros. by eapply reservations_step.
  - apply reservations_boot.
Qed.
End Reservations.

(** C6: Concurrent writers never over-commit the byte cap, even one of 2^63-1
    where a sum could wrap: with any mix of reservations and of releases of bytes
    that are held, at every moment of every interleaving [totalBytes] is at
    least 0, at most the cap, and exactly the start plus the deltas granted so
    far; a refusal reports a total it really saw, which left too little room. *)
Theorem reservations_respect_cap (cap v0 : Z) (deltas : list Z) (sched : list (nat * Z))
  (m : machine (bool * Z * Z)) (log : list (event (bool * Z * Z)))
  (Hcap : 0 ≤ cap ≤ MaxInt64) (Hstart : v0 ≤ cap) (Hheld : 0 ≤ v0 + zsum release deltas)
  (Hrun : run (reserve_call cap <$> deltas) sched
            (boot (mkcounterCell v0 0) (reserve_call cap <$> deltas)) = Some (m, log)) :
  0 ≤ cell_value (m_cell m) ≤ cap ∧
  cell_value (m_cell m) = v0 + zsum granted (zip deltas (m_pcs m)) ∧
  ∀ i cur max, m_pcs m !! i = Some (Returned (false, cur, max)) →
    ∃ d, deltas !! i = Some d ∧ 0 < d ∧ 0 ≤ cur ∧ cap < cur + d ∧ max = cap.
Proof.
  destruct (reservations_run _ _ _ Hcap Hstart Hheld _ _ _ Hrun) as (Hok & Hval & Hle).
  pose proof (total_nonneg _ _ Hheld m). split_and!; [lia..|exact Hval|].
  intros i cur max Hi. destruct (Forall2_lookup_r _ _ _ _ _ Hok Hi) as (d & Hd & Hr).
  cbn in Hr. eauto.
Qed.
