(* ===== verification/Locks.v ===== *)
(** * The locks: which are taken, in which order

  Every operation is a sequence of locked sections; this file gives each
  section's acquisitions and releases as the code writes them, and a machine
  that runs any number of goroutines over Go's [sync.RWMutex]. The rest of the
  development treats a section as one step; LocksTheorems.v shows that the
  locks exclude each other as that needs, and that they never deadlock. *)
From S2P Require Import Prelude GoStd Uuid Types Buffer Store.

(** ** Locks and what a goroutine does with them *)
Inductive lock :=
  | ShardLock (i : nat)      (* s.shards[i].mu *)
  | BufLock (p : nat)        (* b.mu of the buffer at address p *)
  | SubsLock                 (* s.subsMu *)
  | RegistryLock.            (* registryMu *)
#[export] Instance lock_eq_dec : EqDecision lock.
Proof. solve_decision. Defined.

(** [RLock] or [Lock]. *)
Inductive mode := Reader | Writer.
#[export] Instance mode_eq_dec : EqDecision mode.
Proof. solve_decision. Defined.

Inductive action := Acquire (m : mode) (l : lock) | Release (m : mode) (l : lock).

(** The order of buffer.go (rules 1 and 2) and store.go: shards ascending, then
    one of the others, which are never nested in each other. *)
Definition rank (l : lock) : nat :=
  match l with ShardLock i => i | _ => numShards end.

(** ** The sections of the code *)
Section Sections.
Context `{ScopeHash}.

(** A scopeBuffer method: one [b.mu.Lock()] or [b.mu.RLock()]. *)
Definition with_lock (m : mode) (l : lock) (body : list action) : list action :=
  Acquire m l :: body ++ [Release m l].
Definition buffer_method (m : mode) (p : nat) : list action := with_lock m (BufLock p) [].

Definition getScope_locks (scope : string) : list action :=
  with_lock Reader (ShardLock (shardIdxFor scope)) [].

(** The lookup under the read lock, and, when it missed, the second one. *)
Definition getOrCreate_locks (scope : string) (found : bool) : list action :=
  getScope_locks scope ++
  if found then [] else with_lock Writer (ShardLock (shardIdxFor scope)) [].
Definition ensureScope_locks (scope : string) (found : bool) : list action :=
  getScope_locks scope ++
  if found then [] else with_lock Writer (ShardLock (shardIdxFor scope)) [].

(** [mapped] is the buffer, when the scope is still mapped to it. *)
Definition cleanup_locks (scope : string) (mapped : option nat) : list action :=
  with_lock Writer (ShardLock (shardIdxFor scope))
    (match mapped with Some p => buffer_method Writer p | None => [] end).
Definition deleteScope_locks (scope : string) (mapped : option nat) : list action :=
  with_lock Writer (ShardLock (shardIdxFor scope))
    (match mapped with Some p => buffer_method Writer p | None => [] end).

Definition initReservedScopes_locks : list action :=
  reservedScopeNames ≫= λ name, with_lock Writer (ShardLock (shardIdxFor name)) [].

Definition lockShards (shards : list nat) : list action :=
  (λ i, Acquire Writer (ShardLock i)) <$> shards.
Definition unlockShards (shards : list nat) : list action :=
  (λ i, Release Writer (ShardLock i)) <$> shards.
Definition lockAllShards : list action := lockShards (seq 0 numShards).
Definition unlockAllShards : list action := unlockShards (seq 0 numShards).

(** [bufs]: the buffers the shard maps hold, in the order Go ranges over them. *)
Definition wipe_locks (bufs : list nat) : list action :=
  lockAllShards ++ (bufs ≫= buffer_method Writer) ++ unlockAllShards.
Definition rebuildAll_locks (bufs : list nat) : list action :=
  lockAllShards ++ (bufs ≫= buffer_method Writer) ++ unlockAllShards.

(** Of the scopes of the batch, [existing] have a buffer to snapshot; [targets]
    are committed unless the reservation was refused. *)
Definition replaceScopes_locks (scopes : list string) (existing : list nat) (reserved : bool)
  (targets : list nat) : list action :=
  let shards := shardsForScopes scopes in
  lockShards shards ++
  (existing ≫= buffer_method Reader) ++
  (if reserved then targets ≫= buffer_method Writer else []) ++
  unlockShards shards.

(** The listings read one shard after the other; /scopelist then takes the
    statistics of the buffers on its page. *)
Definition listScopes_locks : list action :=
  seq 0 numShards ≫= λ i, with_lock Reader (ShardLock i) [].
Definition scopeList_locks (page : list nat) : list action :=
  listScopes_locks ++ (page ≫= buffer_method Reader).

Definition Subscribe_locks : list action := with_lock Writer SubsLock [].
Definition unsubscribe_locks : list action := with_lock Writer SubsLock [].
Definition notifySubscriber_locks : list action := with_lock Reader SubsLock [].

Definition slotForName_locks (found : bool) : list action :=
  with_lock Reader RegistryLock [] ++ if found then [] else with_lock Writer RegistryLock [].

(** What a goroutine does is a sequence of these; nothing is held in between. *)
Inductive section :=
  | BufferMethod (m : mode) (p : nat)
  | GetScope (scope : string)
  | GetOrCreate (scope : string) (found : bool)
  | EnsureScope (scope : string) (found : bool)
  | Cleanup (scope : string) (mapped : option nat)
  | DeleteScope (scope : string) (mapped : option nat)
  | InitReservedScopes
  | Wipe (bufs : list nat)
  | RebuildAll (bufs : list nat)
  | ReplaceScopes (scopes : list string) (existing : list nat) (reserved : bool) (targets : list nat)
  | ListScopes
  | ScopeList (page : list nat)
  | SubscribeSection | UnsubscribeSection | NotifySection
  | SlotForName (found : bool).

Definition section_locks (x : section) : list action :=
  match x with
  | BufferMethod m p => buffer_method m p
  | GetScope scope => getScope_locks scope
  | GetOrCreate scope found => getOrCreate_locks scope found
  | EnsureScope scope found => ensureScope_locks scope found
  | Cleanup scope mapped => cleanup_locks scope mapped
  | DeleteScope scope mapped => deleteScope_locks scope mapped
  | InitReservedScopes => initReservedScopes_locks
  | Wipe bufs => wipe_locks bufs
  | RebuildAll bufs => rebuildAll_locks bufs
  | ReplaceScopes scopes existing reserved targets =>
      replaceScopes_locks scopes existing reserved targets
  | ListScopes => listScopes_locks
  | ScopeList page => scopeList_locks page
  | SubscribeSection => Subscribe_locks
  | UnsubscribeSection => unsubscribe_locks
  | NotifySection => notifySubscriber_locks
  | SlotForName found => slotForName_locks found
  end.
End Sections.

(** ** Go's RWMutex

  [RLock] waits for a writer that holds the lock and for one that waits for it
  ("a blocked Lock call excludes new readers"). [Lock] first excludes the other
  writers, then waits for the readers: two steps, the goroutine being
  [announced] in between. Locks are not reentrant. Releasing what is not held
  is a fatal error: the machine has no such step. *)
Record goroutine := mkgoroutine {
  held : list (mode * lock); announced : bool; todo : list action }.

Definition holds (m : mode) (l : lock) (g : goroutine) : bool := bool_decide ((m, l) ∈ held g).
Definition waits_for (l : lock) (g : goroutine) : bool :=
  announced g && match todo g with Acquire Writer l' :: _ => bool_decide (l' = l) | _ => false end.
Definition no_writer (l : lock) (gs : list goroutine) : bool :=
  forallb (λ g, negb (holds Writer l g || waits_for l g)) gs.
Definition no_reader (l : lock) (gs : list goroutine) : bool :=
  forallb (λ g, negb (holds Reader l g)) gs.

Definition lock_step (gs : list goroutine) (g : goroutine) : option goroutine :=
  match todo g with
  | [] => None
  | Release m l :: rest =>
      if holds m l g then Some (mkgoroutine (filter (λ x, x ≠ (m, l)) (held g)) false rest)
      else None
  | Acquire Reader l :: rest =>
      if no_writer l gs then Some (mkgoroutine ((Reader, l) :: held g) false rest) else None
  | Acquire Writer l :: rest =>
      if announced g then
        if no_reader l gs then Some (mkgoroutine ((Writer, l) :: held g) false rest) else None
      else
        if no_writer l gs then Some (mkgoroutine (held g) true (todo g)) else None
  end.

(** A step of goroutine [i], and the steps of a schedule. *)
Definition locks_step (i : nat) (gs : list goroutine) : option (list goroutine) :=
  g ← gs !! i; g' ← lock_step gs g; Some (<[i := g']> gs).
Fixpoint locks_run (sched : list nat) (gs : list goroutine) : option (list goroutine) :=
  match sched with
  | [] => Some gs
  | i :: sched => gs1 ← locks_step i gs; locks_run sched gs1
  end.

Definition spawn `{ScopeHash} (xs : list section) : goroutine :=
  mkgoroutine [] false (xs ≫= section_locks).
