(* ===== verification/LocksTheorems.v ===== *)
(** * The locks exclude each other and never deadlock

  [disciplined] is the rule a goroutine's acquisitions follow: each lock ranks
  above all it holds, it releases only what it holds, and ends with nothing
  held. Goroutines that follow it keep each other out as [excludes] says, and
  one of them can always go on. *)
From S2P Require Import Prelude GoStd Uuid Types Buffer Store StoreInv Locks.

Fixpoint disciplined (h : list (mode * lock)) (prog : list action) : bool :=
  match prog with
  | [] => bool_decide (h = [])
  | Acquire m l :: prog =>
      forallb (λ x, bool_decide (rank x.2 < rank l)%nat) h && disciplined ((m, l) :: h) prog
  | Release m l :: prog =>
      bool_decide ((m, l) ∈ h) && disciplined (filter (λ x, x ≠ (m, l)) h) prog
  end.

(** What one goroutine holds or waits for, against another one. *)
Record excludes (g g' : goroutine) : Prop := {
  ex_held m l : (Writer, l) ∈ held g → (m, l) ∉ held g';
  ex_waits l : (Writer, l) ∈ held g → waits_for l g' = false;
  ex_both l : waits_for l g = true → waits_for l g' = false;
}.

Record goroutine_ok (g : goroutine) : Prop := {
  go_disciplined : disciplined (held g) (todo g) = true;
  go_announced : announced g = true → ∃ l rest, todo g = Acquire Writer l :: rest;
}.

Record locks_inv (gs : list goroutine) : Prop := {
  li_ok g : g ∈ gs → goroutine_ok g;
  li_excl i j g g' : i ≠ j → gs !! i = Some g → gs !! j = Some g' → excludes g g';
}.

(** ** The tests of the machine *)
Lemma no_writer_spec l gs : no_writer l gs = true ↔
  (∀ g, g ∈ gs → ((Writer, l) ∉ held g) ∧ waits_for l g = false).
Proof.
  unfold no_writer. rewrite forallb_forall. setoid_rewrite <- list_elem_of_In.
  apply forall_proper. intros g. unfold holds.
  destruct (bool_decide_reflect ((Writer, l) ∈ held g)), (waits_for l g); naive_solver.
Qed.
Lemma no_reader_spec l gs : no_reader l gs = true ↔ (∀ g, g ∈ gs → (Reader, l) ∉ held g).
Proof.
  unfold no_reader. rewrite forallb_forall. setoid_rewrite <- list_elem_of_In.
  apply forall_proper. intros g. unfold holds.
  destruct (bool_decide_reflect ((Reader, l) ∈ held g)); naive_solver.
Qed.
Lemma no_writer_false l gs : no_writer l gs = false →
  ∃ g, g ∈ gs ∧ ((Writer, l) ∈ held g ∨ waits_for l g = true).
Proof.
  unfold no_writer. induction gs as [|g gs IH]; [done|]. cbn. unfold holds at 1.
  destruct (bool_decide_reflect ((Writer, l) ∈ held g)); [intros; exists g; set_solver|].
  destruct (waits_for l g) eqn:E; [intros; exists g; set_solver|].
  intros (g' & ? & ?)%IH. exists g'. set_solver.
Qed.
Lemma no_reader_false l gs : no_reader l gs = false → ∃ g, g ∈ gs ∧ (Reader, l) ∈ held g.
Proof.
  unfold no_reader. induction gs as [|g gs IH]; [done|]. cbn. unfold holds at 1.
  destruct (bool_decide_reflect ((Reader, l) ∈ held g)); [intros; exists g; set_solver|].
  intros (g' & ? & ?)%IH. exists g'. set_solver.
Qed.

(** ** Steps keep the invariant *)
Lemma idle_waits h prog l : waits_for l (mkgoroutine h false prog) = false.
Proof. done. Qed.

(** What a step changes, and what the machine has checked before. *)
Inductive step_effect (gs : list goroutine) (g : goroutine) : goroutine → Prop :=
  | EffRelease m l rest : todo g = Release m l :: rest → (m, l) ∈ held g →
      step_effect gs g (mkgoroutine (filter (λ x, x ≠ (m, l)) (held g)) false rest)
  | EffRead l rest : todo g = Acquire Reader l :: rest → no_writer l gs = true →
      step_effect gs g (mkgoroutine ((Reader, l) :: held g) false rest)
  | EffAnnounce l rest : todo g = Acquire Writer l :: rest → no_writer l gs = true →
      step_effect gs g (mkgoroutine (held g) true (todo g))
  | EffWrite l rest : todo g = Acquire Writer l :: rest → announced g = true →
      no_reader l gs = true →
      step_effect gs g (mkgoroutine ((Writer, l) :: held g) false rest).

Lemma lock_step_effect gs g g' : lock_step gs g = Some g' → step_effect gs g g'.
Proof.
  unfold lock_step, holds. intros Hs. destruct (todo g) as [|[[] l|m l] rest] eqn:Et; [done|..].
  - case_match; [|done]. injection Hs as <-. by eapply EffRead.
  - destruct (announced g) eqn:Ea.
    + case_match; [|done]. injection Hs as <-. by eapply EffWrite.
    + case_match; [|done]. injection Hs as <-. rewrite <- Et. by eapply EffAnnounce.
  - case_bool_decide; [|done]. injection Hs as <-. by eapply EffRelease.
Qed.

Lemma waits_todo l g rest : todo g = Acquire Writer l :: rest → waits_for l g = announced g.
Proof. unfold waits_for. intros ->. rewrite bool_decide_true by done. by rewrite andb_true_r. Qed.
Lemma waits_only l g l' rest : todo g = Acquire Writer l' :: rest → waits_for l g = true → l = l'.
Proof. unfold waits_for. intros ->. case_bool_decide; [done|]. by rewrite andb_false_r. Qed.

Lemma effect_ok gs g g' : goroutine_ok g → step_effect gs g g' → goroutine_ok g'.
Proof.
  intros [Hd Ha] He. destruct He as [m l rest Et|l rest Et|l rest Et|l rest Et].
  3: split; cbn; eauto.
  all: rewrite Et in Hd; cbn in Hd; apply andb_prop in Hd as [_ Hd]; by split.
Qed.

Lemma effect_excludes gs g g' x : step_effect gs g g' → x ∈ gs →
  excludes g x → excludes x g → excludes g' x ∧ excludes x g'.
Proof.
  intros He Hx [A1 A2 A3] [B1 B2 B3].
  destruct He as [m l rest Et|l rest Et Hn|l rest Et Hn|l rest Et Ha Hn].
  - assert (Hsub : ∀ y, y ∈ filter (λ x, x ≠ (m, l)) (held g) → y ∈ held g).
    { intros y Hy. by apply list_elem_of_filter in Hy as [_ Hy]. }
    split; split; cbn; eauto; try done. intros m' l' Hw Hy%Hsub. by eapply B1.
  - rewrite no_writer_spec in Hn. destruct (Hn x Hx) as [N1 N2].
    split; split; cbn; try done.
    + intros m l' [Hw|Hw]%elem_of_cons; [done|]. by apply A1.
    + intros l' [Hw|Hw]%elem_of_cons; [done|]. by apply A2.
    + intros m l' Hw [Hy|Hy]%elem_of_cons; [|by eapply B1]. by simplify_eq.
  - rewrite no_writer_spec in Hn. destruct (Hn x Hx) as [N1 N2].
    assert (Hw : ∀ l', waits_for l' (mkgoroutine (held g) true (todo g)) = true → l' = l).
    { intros l'. by apply (waits_only l' (mkgoroutine (held g) true (todo g)) l rest). }
    split; split; cbn; try done.
    + by intros l' ->%Hw.
    + intros l' Hl'. apply not_true_iff_false. by intros ->%Hw.
    + intros l' Hl'. apply not_true_iff_false. intros ->%Hw. congruence.
  - rewrite no_reader_spec in Hn. specialize (Hn x Hx).
    assert (Hw : waits_for l g = true) by (by rewrite (waits_todo l g rest)).
    assert (Hx' : ∀ m, (m, l) ∉ held x).
    { intros [] Hm; [done|]. specialize (B2 l Hm). congruence. }
    specialize (A3 l Hw). split; split; cbn; try done.
    + intros m l' [Hy|Hy]%elem_of_cons; [|by apply A1]. simplify_eq. apply Hx'.
    + intros l' [Hy|Hy]%elem_of_cons; [|by apply A2]. by simplify_eq.
    + intros m l' Hy [Hz|Hz]%elem_of_cons; [|by eapply B1]. simplify_eq. by eapply Hx'.
Qed.

Lemma locks_step_inv i gs gs' : locks_inv gs → locks_step i gs = Some gs' → locks_inv gs'.
Proof.
  intros [Hok Hex] Hs. unfold locks_step in Hs.
  destruct (gs !! i) as [g|] eqn:Eg; [|done]. cbn in Hs.
  destruct (lock_step gs g) as [g'|] eqn:El; [|done]. cbn in Hs. injection Hs as <-.
  apply lock_step_effect in El. pose proof (list_elem_of_lookup_2 _ _ _ Eg) as Hin.
  split.
  - intros x Hx. apply list_elem_of_lookup in Hx as [j Hj].
    apply list_lookup_insert_Some in Hj as [(-> & <- & _)|[_ Hj]].
    + by eapply effect_ok; [apply Hok|].
    + apply Hok. by eapply list_elem_of_lookup_2.
  - assert (Hnew : ∀ j x, i ≠ j → gs !! j = Some x → excludes g' x ∧ excludes x g').
    { intros j x Hne Hj. eapply effect_excludes; [done| | |].
      - by eapply list_elem_of_lookup_2.
      - by eapply (Hex i j).
      - by eapply (Hex j i). }
    intros j k x y Hne Hj Hk.
    apply list_lookup_insert_Some in Hj as [(-> & <- & _)|[Hj' Hj]];
      apply list_lookup_insert_Some in Hk as [(-> & <- & _)|[Hk' Hk]]; try done.
    + by eapply (Hnew k).
    + by eapply (Hnew j).
    + by eapply (Hex j k).
Qed.

Lemma locks_run_inv sched : ∀ gs gs', locks_inv gs → locks_run sched gs = Some gs' → locks_inv gs'.
Proof.
  induction sched as [|i sched IH]; intros gs gs' I Hr; cbn in Hr; [by simplify_eq|].
  destruct (locks_step i gs) as [gs1|] eqn:E; [|done]. eauto using locks_step_inv.
Qed.

(** ** Progress *)
Definition enabled (gs : list goroutine) : Prop := ∃ i, is_Some (locks_step i gs).

Lemma enabled_by gs g : g ∈ gs → is_Some (lock_step gs g) → enabled gs.
Proof.
  intros [i Hi]%list_elem_of_lookup [g' Hg]. exists i. unfold locks_step. rewrite Hi. cbn.
  rewrite Hg. by eexists.
Qed.

(** Who holds a lock still has something to do, and what it waits for ranks higher. *)
Lemma holder_next g m l : goroutine_ok g → (m, l) ∈ held g →
  (∃ m' l' rest, todo g = Release m' l' :: rest ∧ (m', l') ∈ held g) ∨
  (∃ m' l' rest, todo g = Acquire m' l' :: rest ∧ (rank l < rank l')%nat).
Proof.
  intros [Hd _] Hin. destruct (todo g) as [|[m' l'|m' l'] rest]; cbn in Hd.
  - apply bool_decide_eq_true in Hd. rewrite Hd in Hin. by apply elem_of_nil in Hin.
  - right. exists m', l', rest. split; [done|]. apply andb_prop in Hd as [Hd _].
    rewrite forallb_forall in Hd. apply list_elem_of_In, Hd, bool_decide_eq_true in Hin. done.
  - left. exists m', l', rest. split; [done|]. apply andb_prop in Hd as [Hd _].
    by apply bool_decide_eq_true in Hd.
Qed.

(** The goroutine in the way of an acquisition holds the lock, or waits for its
    readers: then one of these holds it. *)
Lemma blocked_by gs g m l rest : locks_inv gs → g ∈ gs → todo g = Acquire m l :: rest →
  lock_step gs g = None → enabled gs ∨ ∃ x m', x ∈ gs ∧ (m', l) ∈ held x.
Proof.
  intros I Hg Et Hs. unfold lock_step in Hs. rewrite Et in Hs.
  assert (Hw : ∀ x, x ∈ gs → waits_for l x = true →
    enabled gs ∨ ∃ x m', x ∈ gs ∧ (m', l) ∈ held x).
  { intros x Hx Hw. unfold waits_for in Hw. apply andb_prop in Hw as [Ha Ht].
    destruct (todo x) as [|[[] l'|] rest'] eqn:Ex; try done. apply bool_decide_eq_true in Ht as ->.
    destruct (no_reader l gs) eqn:En.
    - left. eapply enabled_by; [exact Hx|]. unfold lock_step. rewrite Ex, Ha, En. by eexists.
    - right. apply no_reader_false in En as (y & ? & ?). eauto. }
  assert (Hn : no_writer l gs = false → enabled gs ∨ ∃ x m', x ∈ gs ∧ (m', l) ∈ held x).
  { intros (x & Hx & [Hh|Hw'])%no_writer_false; eauto. }
  destruct m.
  - destruct (no_writer l gs) eqn:En; [done|]. by apply Hn.
  - destruct (announced g) eqn:Ea.
    + destruct (no_reader l gs) eqn:En; [done|]. apply no_reader_false in En as (y & ? & ?). eauto.
    + destruct (no_writer l gs) eqn:En; [done|]. by apply Hn.
Qed.

(** Following the chain of what holders wait for, the ranks grow; with ranks
    bounded by [top], somebody can go on. *)
Lemma chain_ends gs top n : locks_inv gs →
  (∀ g m l rest, g ∈ gs → todo g = Acquire m l :: rest → (rank l ≤ top)%nat) →
  ∀ g, g ∈ gs → todo g ≠ [] →
  (∀ m l rest, todo g = Acquire m l :: rest → (top < n + rank l)%nat) → enabled gs.
Proof.
  intros I Htop. induction n as [|n IH]; intros g Hg Hne Hn.
  all: destruct (todo g) as [|[m l|m l] rest] eqn:Et; [done|..].
  2, 4: eapply enabled_by; [exact Hg|]; unfold lock_step; rewrite Et; unfold holds.
  2, 3: pose proof (go_disciplined _ (li_ok _ I _ Hg)) as Hd; rewrite Et in Hd; cbn in Hd;
    apply andb_prop in Hd as [Hd _]; rewrite Hd; by eexists.
  - pose proof (Htop _ _ _ _ Hg Et). specialize (Hn _ _ _ eq_refl). lia.
  - destruct (lock_step gs g) eqn:Es; [by eapply enabled_by; [exact Hg|]|].
    destruct (blocked_by _ _ _ _ _ I Hg Et Es) as [?|(x & m' & Hx & Hh)]; [done|].
    destruct (holder_next x m' l (li_ok _ I _ Hx) Hh)
      as [(m2 & l2 & rest2 & Ex & Hr)|(m2 & l2 & rest2 & Ex & Hr)].
    + eapply enabled_by; [exact Hx|]. unfold lock_step, holds. rewrite Ex, bool_decide_true by done.
      by eexists.
    + apply (IH x Hx); [by rewrite Ex|]. intros m3 l3 rest3 E3. rewrite Ex in E3. simplify_eq.
      specialize (Hn _ _ _ eq_refl). lia.
Qed.

(** Some bound on the ranks asked for exists, so no state is stuck. *)
Lemma ranks_bounded (gs : list goroutine) : ∃ top, ∀ g m l rest,
  g ∈ gs → todo g = Acquire m l :: rest → (rank l ≤ top)%nat.
Proof.
  induction gs as [|g gs [top IH]]; [exists 0%nat; by intros ???? []%elem_of_nil|].
  exists (Nat.max top (match todo g with Acquire _ l :: _ => rank l | _ => 0 end)).
  intros x m l rest [->|Hx]%elem_of_cons E; [rewrite E; lia|]. specialize (IH _ _ _ _ Hx E). lia.
Qed.
Lemma never_stuck gs g : locks_inv gs → g ∈ gs → todo g ≠ [] → enabled gs.
Proof.
  intros I Hg Hne. destruct (ranks_bounded gs) as [top Htop].
  apply (chain_ends gs top (S top) I Htop g Hg Hne). intros. lia.
Qed.

(** ** The number of steps *)
Definition steps_left (g : goroutine) : nat :=
  2 * length (todo g) - (if announced g then 1 else 0).

Lemma lock_step_shorter gs g g' : lock_step gs g = Some g' → (S (steps_left g') ≤ steps_left g)%nat.
Proof.
  unfold lock_step, steps_left. destruct (todo g) as [|[[] l|m l] rest] eqn:Et; intros Hs; [done|..];
    destruct (announced g) eqn:Ea; repeat case_match; simplify_eq; cbn; lia.
Qed.

Lemma locks_run_shorter sched : ∀ gs gs', locks_run sched gs = Some gs' →
  (length sched + sum_list_with steps_left gs' ≤ sum_list_with steps_left gs)%nat.
Proof.
  induction sched as [|i sched IH]; intros gs gs' Hr; cbn in Hr; [by simplify_eq|].
  destruct (locks_step i gs) as [gs1|] eqn:E; [|done]. cbn in Hr. apply IH in Hr.
  unfold locks_step in E. destruct (gs !! i) as [g|] eqn:Eg; [|done]. cbn in E.
  destruct (lock_step gs g) as [g'|] eqn:El; [|done]. cbn in E. injection E as <-.
  apply lock_step_shorter in El. pose proof (lookup_lt_Some _ _ _ Eg) as Hlt.
  rewrite insert_take_drop in Hr by done. rewrite <- (take_drop_middle _ _ _ Eg).
  rewrite sum_list_with_app in *. cbn in *. lia.
Qed.

(** ** The sections of the code are disciplined

  [neutral n prog]: run while only locks below rank [n] are held, [prog] keeps
  to the rule and gives back all it takes. *)
Definition below (n : nat) (h : list (mode * lock)) : Prop := ∀ x, x ∈ h → (rank x.2 < n)%nat.
Definition neutral (n : nat) (prog : list action) : Prop :=
  ∀ h rest, below n h → disciplined h rest = true → disciplined h (prog ++ rest) = true.

Lemma neutral_nil n : neutral n [].
Proof. by intros h rest. Qed.
Lemma neutral_app n p q : neutral n p → neutral n q → neutral n (p ++ q).
Proof. intros Hp Hq h rest Hb Hd. rewrite <- app_assoc. eauto. Qed.
Lemma neutral_bind {A} n (f : A → list action) l : (∀ x, neutral n (f x)) → neutral n (l ≫= f).
Proof.
  intros Hf. induction l as [|x l IH]; [apply neutral_nil|]. cbn. by apply neutral_app.
Qed.
Lemma neutral_le n n' p : neutral n p → (n' ≤ n)%nat → neutral n' p.
Proof. intros Hp Hle h rest Hb. apply Hp. intros x Hx. specialize (Hb x Hx). lia. Qed.

Lemma give_back (m : mode) (l : lock) h : (m, l) ∉ h → filter (λ x, x ≠ (m, l)) ((m, l) :: h) = h.
Proof.
  intros Hn. rewrite filter_cons_False by tauto.
  induction h as [|x h IH]; [done|]. apply not_elem_of_cons in Hn as [Hne Hn].
  by rewrite filter_cons_True, IH by congruence.
Qed.
Lemma neutral_with_lock n m l body : neutral (S (rank l)) body → (n ≤ rank l)%nat →
  neutral n (with_lock m l body).
Proof.
  intros Hb Hle h rest Hh Hd. unfold with_lock. cbn [app disciplined]. apply andb_true_intro. split.
  - apply forallb_forall. intros x Hx%list_elem_of_In. apply bool_decide_eq_true.
    specialize (Hh x Hx). lia.
  - rewrite <- app_assoc. apply Hb.
    + intros x [->|Hx]%elem_of_cons; [cbn; lia|]. specialize (Hh x Hx). lia.
    + cbn [app disciplined]. rewrite bool_decide_true by (apply elem_of_cons; by left).
      rewrite give_back; [done|]. intros Hx. specialize (Hh _ Hx). cbn in Hh. lia.
Qed.
Create HintDb locks.
#[export] Hint Resolve neutral_nil neutral_app neutral_bind : locks.

Lemma neutral_buffer m p : neutral numShards (buffer_method m p).
Proof. apply neutral_with_lock; [apply neutral_nil|done]. Qed.
Lemma neutral_leaf m l body : neutral (S (rank l)) body → neutral 0 (with_lock m l body).
Proof. intros. apply neutral_with_lock; [done|lia]. Qed.
#[export] Hint Resolve neutral_buffer neutral_leaf : locks.

(** Shards ascending: taken above what is held, given back in any order. *)
Definition shard_held (i : nat) : mode * lock := (Writer, ShardLock i).
Lemma lockShards_disciplined sh : ∀ h rest,
  StronglySorted lt sh → (∀ x i, x ∈ h → i ∈ sh → (rank x.2 < i)%nat) →
  disciplined (reverse (shard_held <$> sh) ++ h) rest = true →
  disciplined h (lockShards sh ++ rest) = true.
Proof.
  induction sh as [|i sh IH]; intros h rest Hs Hh Hd; [done|].
  inversion Hs as [|?? Hs' Hlt]; subst. cbn. apply andb_true_intro. split.
  - apply forallb_forall. intros x Hx%list_elem_of_In. apply bool_decide_eq_true.
    apply (Hh x i Hx), elem_of_cons. by left.
  - apply IH; [done| |].
    + intros x j [->|Hx]%elem_of_cons Hj; cbn.
      * rewrite Forall_forall in Hlt. by apply Hlt.
      * apply (Hh x j Hx), elem_of_cons. by right.
    + rewrite fmap_cons, reverse_cons, <- app_assoc in Hd. exact Hd.
Qed.
Lemma unlockShards_disciplined sh : ∀ h rest,
  NoDup sh → h ≡ₚ shard_held <$> sh → disciplined [] rest = true →
  disciplined h (unlockShards sh ++ rest) = true.
Proof.
  induction sh as [|i sh IH]; intros h rest Hnd Hp Hd.
  - by apply Permutation_nil_r in Hp as ->.
  - apply NoDup_cons in Hnd as [Hni Hnd]. cbn [unlockShards fmap list_fmap app disciplined]. apply andb_true_intro. split.
    + apply bool_decide_eq_true. rewrite Hp. apply elem_of_cons. by left.
    + apply IH; [done| |done]. rewrite Hp. rewrite fmap_cons, give_back; [done|].
      intros (j & Hj & Hin)%list_elem_of_fmap. unfold shard_held in Hj. by simplify_eq.
Qed.

Lemma sorted_nodup sh : StronglySorted lt sh → NoDup sh.
Proof.
  induction 1 as [|i sh _ IH Hlt]; constructor; [|done]. intros Hi.
  rewrite Forall_forall in Hlt. specialize (Hlt i Hi). lia.
Qed.
Lemma sorted_seq i n : StronglySorted lt (seq i n).
Proof.
  revert i. induction n as [|n IH]; intros i; cbn; constructor; [done|].
  apply Forall_forall. intros x Hx%elem_of_seq. lia.
Qed.
Lemma sorted_filter (P : nat → Prop) `{∀ x, Decision (P x)} sh :
  StronglySorted lt sh → StronglySorted lt (filter P sh).
Proof.
  induction 1 as [|i sh _ IH Hlt]; [constructor|]. rewrite filter_cons. case_decide; [|done].
  constructor; [done|]. rewrite Forall_forall in *. intros x [_ Hx]%list_elem_of_filter. eauto.
Qed.

Lemma neutral_shards sh body : StronglySorted lt sh → (∀ i, i ∈ sh → (i < numShards)%nat) →
  neutral numShards body → neutral 0 (lockShards sh ++ body ++ unlockShards sh).
Proof.
  intros Hs Hlt Hb h rest Hh Hd.
  assert (h = []) as ->.
  { destruct h as [|x h]; [done|]. specialize (Hh x (list_elem_of_here _ _)). lia. }
  rewrite <- !app_assoc. apply lockShards_disciplined; [done|by intros ?? []%elem_of_nil|].
  rewrite app_nil_r. apply Hb.
  - intros x. rewrite elem_of_reverse. intros (i & -> & Hi)%list_elem_of_fmap. by apply Hlt.
  - apply unlockShards_disciplined; [by apply sorted_nodup|by rewrite reverse_Permutation|done].
Qed.

Section Disciplined.
Context `{ScopeHash}.

Lemma shardsForScopes_sorted scopes : StronglySorted lt (shardsForScopes scopes).
Proof. apply sorted_filter, sorted_seq. Qed.
Lemma shardsForScopes_lt scopes i : i ∈ shardsForScopes scopes → (i < numShards)%nat.
Proof. intros [_ Hi%elem_of_seq]%list_elem_of_filter. lia. Qed.

Lemma neutral_shard_then m scope mapped :
  neutral 0 (with_lock m (ShardLock (shardIdxFor scope))
    (match mapped with Some p => buffer_method Writer p | None => [] end)).
Proof.
  apply neutral_leaf. apply (neutral_le numShards); [|apply shardIdxFor_lt].
  destruct mapped; auto with locks.
Qed.

Lemma section_neutral x : neutral 0 (section_locks x).
Proof.
  assert (Hall : ∀ bufs, neutral 0 (lockAllShards ++ (bufs ≫= buffer_method Writer) ++ unlockAllShards)).
  { intros bufs. apply neutral_shards; [apply sorted_seq|intros i Hi%elem_of_seq; lia|].
    auto with locks. }
  assert (Hlist : neutral 0 listScopes_locks) by (apply neutral_bind; auto with locks).
  assert (Hread : ∀ scope, neutral 0 (getScope_locks scope)) by (intros; apply neutral_leaf; auto with locks).
  assert (Hnew : ∀ l found, neutral 0 (if found : bool then [] else with_lock Writer l []))
    by (intros ? []; auto with locks).
  assert (Hbuf : ∀ m p, neutral 0 (buffer_method m p)) by (intros; apply neutral_leaf; auto with locks).
  destruct x; cbn [section_locks].
  - apply Hbuf.
  - apply Hread.
  - apply neutral_app; [apply Hread|apply Hnew].
  - apply neutral_app; [apply Hread|apply Hnew].
  - apply neutral_shard_then.
  - apply neutral_shard_then.
  - apply neutral_bind. auto with locks.
  - apply Hall.
  - apply Hall.
  - unfold replaceScopes_locks. rewrite (app_assoc (existing ≫= _)).
    apply neutral_shards; [apply shardsForScopes_sorted|apply shardsForScopes_lt|].
    destruct reserved; auto with locks.
  - apply Hlist.
  - apply neutral_app; [apply Hlist|by apply neutral_bind].
  - apply neutral_leaf, neutral_nil.
  - apply neutral_leaf, neutral_nil.
  - apply neutral_leaf, neutral_nil.
  - apply neutral_app; [apply neutral_leaf, neutral_nil|apply Hnew].
Qed.

Lemma spawn_ok xs : goroutine_ok (spawn xs).
Proof.
  split; [|done]. cbn. rewrite <- (app_nil_r (xs ≫= _)).
  apply (neutral_bind 0 section_locks xs section_neutral); [by intros ? []%elem_of_nil|done].
Qed.
Lemma spawn_inv xss : locks_inv (spawn <$> xss).
Proof.
  split.
  - intros g (xs & -> & _)%list_elem_of_fmap. apply spawn_ok.
  - intros i j g g' _ Hi Hj. rewrite !list_lookup_fmap in *.
    destruct (xss !! i), (xss !! j); try done. cbn in *. simplify_eq.
    split; cbn; try done. by intros ?? []%elem_of_nil.
Qed.
End Disciplined.

(** ** What the locks guarantee *)
(** C8: The locks never deadlock and exclude as they should: any number of
    goroutines, each running any sequence of the code's locked sections (whole
    bulk operations, single buffer methods, listings, subscriptions, in any
    order and on any scopes and buffers), under Go's writer-preferring RWMutex
    and any schedule. A lock held for writing is held by nobody else; as long
    as one goroutine has something left to do, some goroutine can take a step;
    the number of steps is bounded by twice the number of lock operations; and
    when none can be taken all are done and hold nothing. *)
Theorem locks_never_deadlock `{ScopeHash} (xss : list (list section)) (sched : list nat)
  (gs : list goroutine) (Hrun : locks_run sched (spawn <$> xss) = Some gs) :
  (∀ i j g g' l m, i ≠ j → gs !! i = Some g → gs !! j = Some g' →
     (Writer, l) ∈ held g → (m, l) ∉ held g') ∧
  (∀ g, g ∈ gs → todo g ≠ [] → ∃ i, is_Some (locks_step i gs)) ∧
  (length sched ≤ sum_list_with (λ xs, 2 * length (xs ≫= section_locks)) xss)%nat ∧
  ((∀ i, locks_step i gs = None) → ∀ g, g ∈ gs → todo g = [] ∧ held g = []).
Proof.
  pose proof (locks_run_inv _ _ _ (spawn_inv xss) Hrun) as I.
  assert (Hgo : ∀ g, g ∈ gs → todo g ≠ [] → ∃ i, is_Some (locks_step i gs))
    by (intros g Hg; exact (never_stuck gs g I Hg)).
  split_and!; [|exact Hgo| |].
  - intros i j g g' l m Hne Hi Hj Hw. exact (ex_held _ _ (li_excl _ I i j g g' Hne Hi Hj) m l Hw).
  - apply locks_run_shorter in Hrun.
    assert (E : sum_list_with steps_left (spawn <$> xss) =
      sum_list_with (λ xs, 2 * length (xs ≫= section_locks))%nat xss).
    { clear. induction xss as [|xs xss IH]; [done|]. rewrite fmap_cons. cbn [sum_list_with].
      rewrite IH. f_equal. apply Nat.sub_0_r. }
    lia.
  - intros Hstuck g Hg. destruct (decide (todo g = [])) as [E|E].
    + split; [done|]. pose proof (go_disciplined _ (li_ok _ I g Hg)) as Hd. rewrite E in Hd.
      by apply bool_decide_eq_true in Hd.
    + destruct (Hgo g Hg E) as [i [gs' Hs]]. by rewrite Hstuck in Hs.
Qed.
