(* ===== verification/DataTheorems.v ===== *)
(** * Identifiers, configuration, wire format and request validation

  Properties of the pure parts: UUID text and JSON round trips, the
  normalisation of the configuration, saturating arithmetic, the two JSON
  encoders against each other, and what each validator accepts. *)
From S2P Require Import Prelude GoStd Uuid Types Wire Validation.

(** C40: parsing a UUIDv7 accepts exactly the canonical text of a well-formed v7
    value, and returns that value: format and parse are inverse to each other. *)
Theorem uuid_text_roundtrip s u :
  parseUUIDv7 s = Some u ↔ uuid_wf u ∧ isValidV7 u = true ∧ formatUUID u = s.
Proof. split; [apply format_parseUUID|]. intros (W & V & <-). by apply parse_formatUUID. Qed.

(** The JSON form of a uuid, [null] for the zero value, decodes to itself. *)
Theorem uuid_json_roundtrip u : uuid_wf u → IsZero u = true ∨ isValidV7 u = true →
  UUID_UnmarshalJSON zeroUUID (UUID_MarshalJSON u) = Some u.
Proof. apply unmarshal_marshal. Qed.

(** Every minted uuid is a well-formed, non-zero UUIDv7, and two mints
    collide exactly when their 48 clock bits and 74 random bits all agree. *)
Theorem minted_uuid_valid ms a b ms' a' b' :
  uuid_wf (newUUIDv7 ms a b) ∧ isValidV7 (newUUIDv7 ms a b) = true ∧ IsZero (newUUIDv7 ms a b) = false ∧
  (newUUIDv7 ms a b = newUUIDv7 ms' a' b' ↔
   ms mod 2 ^ 48 = ms' mod 2 ^ 48 ∧ a mod 2 ^ 12 = a' mod 2 ^ 12 ∧ b mod 2 ^ 62 = b' mod 2 ^ 62).
Proof.
  split; [apply newUUIDv7_wf|]. split; [apply newUUIDv7_valid|]. split; [apply newUUIDv7_not_zero|].
  apply newUUIDv7_eq.
Qed.

(** WithDefaults turns any configuration into a usable one (positive caps, a
    store cap that fits the reserved scopes, a known events mode), keeps one
    that is already usable, and so is idempotent. *)
Theorem defaults_valid c :
  valid_config (WithDefaults c) ∧ (valid_config c ↔ WithDefaults c = c) ∧
  WithDefaults (WithDefaults c) = WithDefaults c.
Proof.
  pose proof (WithDefaults_valid c) as V. split; [done|]. split; [|by apply WithDefaults_id].
  split; [apply WithDefaults_id|]. by intros <-.
Qed.

(** The clamped addition is addition saturated at the int64 bounds, and the
    bulk request cap computed with it is the exact value saturated at MaxInt64. *)
Theorem clamped_exact a b m : in_i64 a → in_i64 b → 0 ≤ m ≤ MaxInt64 →
  addClampedInt64 a b = Z.max MinInt64 (Z.min MaxInt64 (a + b)) ∧
  bulkRequestBytesFor m = Z.min MaxInt64 (m + m / 10 + bulkRequestBytesOverhead) ∧
  m ≤ bulkRequestBytesFor m.
Proof.
  intros Ha Hb Hm. split; [by apply addClampedInt64_spec|].
  rewrite bulkRequestBytesFor_spec by done. split; [done|].
  change bulkRequestBytesOverhead with 16777216. pose proof (Z.div_pos m 10). lia.
Qed.

(** Grouping a batch by scope is a partition: each scope once, with exactly
    its items of the batch in their order. *)
Theorem grouping_partition items :
  NoDup (groupItemsByScope items).*1 ∧
  (∀ k l, (k, l) ∈ groupItemsByScope items ↔ l = filter (λ it, Scope it = k) items ∧ l ≠ []) ∧
  ∀ it, it ∈ items ↔ ∃ k l, (k, l) ∈ groupItemsByScope items ∧ it ∈ l.
Proof.
  destruct (groupItemsByScope_spec items) as [Hn Hg]. split; [done|]. split; [done|]. intros it. split.
  - intros Hit. exists (Scope it), (filter (λ x, Scope x = Scope it) items).
    assert (it ∈ filter (λ x, Scope x = Scope it) items) as H by by apply list_elem_of_filter.
    split; [|done]. apply Hg. split; [done|]. intros E. rewrite E in H. by apply elem_of_nil in H.
  - intros (k & l & [-> _]%Hg & [_ ?]%list_elem_of_filter). done.
Qed.

Section Data.
Context `{EV : Env}.

(** /append and the bulk writes accept an item exactly when its scope and
    optional id are well-formed keys, the scope is not the event log for
    /append, the payload is valid non-null JSON in UTF-8, seq and ts are not
    set, the uuid is absent (or, in bulk, v7), and it fits the size cap with
    the uuid it will get; the result adds the precomputed rendering. *)
Theorem write_item_accepted item endpoint maxB item' :
  validateWriteItem item endpoint maxB = Ok item' ↔
  (Scope item ≠ ""%string ∧ key_field_ok (Scope item) MaxScopeBytes) ∧
  ¬ (endpoint = "/append"%string ∧ Scope item = EventsScopeName) ∧
  (ID item = ""%string ∨ key_field_ok (ID item) MaxIDBytes) ∧
  payload_ok (Payload item) ∧ Seq item = 0 ∧ Ts item = 0 ∧
  (if bool_decide (endpoint = "/append"%string) then IsZero (Uuid item) = true
   else IsZero (Uuid item) = true ∨ isValidV7 (Uuid item) = true) ∧
  item' = fillRenderBytes item ∧
  approxItemSize item' + (if IsZero (Uuid item') then uuidStringLen else 0) ≤ maxB.
Proof. apply validateWriteItem_spec. Qed.

(** /counter_add accepts a request exactly when scope and id are well-formed,
    the scope is not reserved, [by] is present, not zero and within the counter
    range, and the cell it may create fits the item cap. *)
Theorem counter_request_accepted req maxB by_ :
  validateCounterAddRequest req maxB = Ok by_ ↔
  (ca_Scope req ≠ ""%string ∧ key_field_ok (ca_Scope req) MaxScopeBytes) ∧
  isReservedScope (ca_Scope req) = false ∧
  (ca_ID req ≠ ""%string ∧ key_field_ok (ca_ID req) MaxIDBytes) ∧
  ca_By req = Some by_ ∧ by_ ≠ 0 ∧ - MaxCounterValue ≤ by_ ≤ MaxCounterValue ∧
  (0 < maxB → 140 + slen (ca_Scope req) + slen (ca_ID req) ≤ maxB).
Proof. apply validateCounterAddRequest_spec. Qed.

(** A writer sends [body], or the 507 error when it is over the cap. *)
Definition sends (w : written) (maxR : Z) (miss : bool) (body : string) : Prop :=
  if maxR <? slen body then ∃ n, maxR < n ∧ w = TooLarge n maxR else w = Written miss body.

Lemma preflight_sends `{JQ : !JsonQuoteLaw} maxR items truncated offset :
  sends (if (0 <? Z.of_nat (length items)) && (maxR <? estimateMultiItemResponseBytes items)
         then TooLarge (estimateMultiItemResponseBytes items) maxR
         else writeItemsResponse maxR items truncated offset)
    maxR (Z.of_nat (length items) =? 0) (appendItemsEnvelopeJSON "" items truncated offset).
Proof.
  pose proof (envelope_estimate items truncated offset) as HE. unfold sends. rewrite items_envelope_body. cbv zeta.
  set (body := appendItemsEnvelopeJSON "" items truncated offset) in *.
  destruct (Z.ltb_spec 0 (Z.of_nat (length items))); cbn [andb].
  - assert (items ≠ []) as Hne by (by intros ->). specialize (HE Hne).
    destruct (Z.ltb_spec maxR (estimateMultiItemResponseBytes items)), (Z.ltb_spec maxR (slen body));
      [eexists; split; [|reflexivity]; done|lia|eexists; split; [|reflexivity]; done|done].
  - destruct (Z.ltb_spec maxR (slen body)); [eexists; split; [|reflexivity]; done|done].
Qed.

(** C39: the encoders of the in-process API append to any buffer, and the HTTP
    writers send, the same bytes: an item object as Item.MarshalJSON spells it, a
    /head and a /tail page, a /scopelist page, a /get answer, miss or hit (of an
    item with a payload, as every write demands); a list over the response cap,
    and only that, is replaced by the error, whether the estimate or the encoded
    body finds it. *)
Theorem encoders_agree `{JQ : !JsonQuoteLaw} maxR buf it item items truncated offset scopes :
  AppendItemJSON buf it = buf +:+ Item_MarshalJSON it ∧
  AppendHeadResponseJSON buf items truncated = buf +:+ AppendHeadResponseJSON "" items truncated ∧
  AppendTailResponseJSON buf items truncated offset = buf +:+ AppendTailResponseJSON "" items truncated offset ∧
  AppendScopeListResponseJSON buf scopes truncated = buf +:+ AppendScopeListResponseJSON "" scopes truncated ∧
  AppendGetResponseJSON buf item = buf +:+ AppendGetResponseJSON "" item ∧
  let none := Z.of_nat (length items) =? 0 in
  sends (writeHeadResponse maxR items truncated) maxR none (AppendHeadResponseJSON "" items truncated) ∧
  sends (writeTailResponse maxR items truncated offset) maxR none (AppendTailResponseJSON "" items truncated offset) ∧
  sends (writeScopeListResponse maxR (0 <? Z.of_nat (length scopes)) (Z.of_nat (length scopes)) truncated scopes)
    maxR false (AppendScopeListResponseJSON "" scopes truncated) ∧
  ((∀ x, item = Some x → 0 < blen (Payload x)) →
    writeGetResponse item = Written (bool_decide (item = None)) (AppendGetResponseJSON "" item)).
Proof.
  split; [apply AppendItemJSON_eq|]. do 2 (split; [apply appendItemsEnvelopeJSON_dst|]).
  split; [apply AppendScopeListResponseJSON_dst|]. split; [apply AppendGetResponseJSON_dst|].
  do 2 (split; [apply preflight_sends|]). split; [|apply get_body].
  unfold sends. rewrite scopelist_body. cbv zeta.
  destruct (Z.ltb_spec maxR (slen (AppendScopeListResponseJSON "" scopes truncated))); [eexists; split; [|reflexivity]; done|done].
Qed.

(** The cheap size estimate never refuses a response that would have fitted:
    /head and /tail answer 507 exactly when the encoded envelope exceeds the
    response cap. *)
Theorem estimate_is_safe `{JQ : !JsonQuoteLaw} maxR items truncated offset :
  let body := appendItemsEnvelopeJSON "" items truncated (Some offset) in
  (∃ n, writeTailResponse maxR items truncated offset = TooLarge n maxR) ↔ maxR < slen body.
Proof.
  cbv zeta. pose proof (preflight_sends maxR items truncated (Some offset)) as H. unfold sends in H.
  change (writeTailResponse _ _ _ _) with (if (0 <? Z.of_nat (length items)) && (maxR <? estimateMultiItemResponseBytes items)
    then TooLarge (estimateMultiItemResponseBytes items) maxR
    else writeItemsResponse maxR items truncated (Some offset)).
  destruct (Z.ltb_spec maxR (slen (appendItemsEnvelopeJSON "" items truncated (Some offset)))).
  - destruct H as (n & _ & ->). split; [done|]. intros _. by eexists.
  - rewrite H. split; [by intros []|lia].
Qed.
End Data.

Lemma norm_digits n : in_i64 n → FormatInt n ≠ ""%string.
Proof.
  intros Hn E. pose proof (ParseInt_FormatInt n Hn) as H. rewrite E in H. done.
Qed.

(** The window parameters: whatever the text, an accepted limit lies in
    1..10000 and an accepted offset is not negative; a decimal number is read
    as itself, a limit above the maximum clamped, one below 1 refused. *)
Theorem window_parameters raw n :
  (normalizeLimit raw = Ok n → 1 ≤ n ≤ MaxLimit) ∧
  (normalizeOffset raw = Ok n → 0 ≤ n ≤ MaxInt64) ∧
  (in_i64 n → normalizeLimit (FormatInt n) =
    if n <=? 0 then Err "the 'limit' parameter must be a positive integer"%string else Ok (Z.min n MaxLimit)) ∧
  (in_i64 n → normalizeOffset (FormatInt n) =
    if n <? 0 then Err "the 'offset' parameter must be a non-negative integer"%string else Ok n).
Proof.
  split; [apply normalizeLimit_range|]. split; [apply normalizeOffset_range|].
  unfold normalizeLimit, normalizeOffset, Atoi.
  split; intros Hn; rewrite bool_decide_false by (by apply norm_digits); rewrite ParseInt_FormatInt by done.
  - destruct (_ <=? 0); [done|]. destruct (Z.ltb_spec MaxLimit n); f_equal; lia.
  - done.
Qed.
