(* ===== verification/Demo.v ===== *)
(** * A concrete environment, for evaluating the model

  Every parameter of the model instantiated by a small executable function:
  clocks that advance one unit per reading, a fixed pseudo-random sequence, a
  JSON codec for strings without escapes, and a hash. The witnesses of the
  theorems run here. *)
From S2P Require Import Prelude GoStd Uuid Types Validation Buffer BufferInv BufferSpec BufferRead.
From S2P Require Import Store StoreInv StoreSpec Events BufferOps.

Definition demo_unquote (s : string) : option string :=
  match skip_ws (codes s) with
  | 34 :: rest =>
      match rev rest with
      | 34 :: body => Some (of_codes (rev body))
      | _ => None
      end
  | _ => None
  end.

#[export] Instance demo_env : Env := {|
  clk_micro n := 1700000000000000 + Z.of_nat n;
  clk_milli n := 1700000000000 + Z.of_nat n;
  rnd n := (6364136223846793005 * Z.of_nat n + 1442695040888963407) mod 2 ^ 64;
  json_unquote := demo_unquote;
  json_number_of s := if bool_decide (s = ""%string) then None else Some s;
  json_quote s := dq "'" +:+ s +:+ dq "'";
  growcap c := (2 * c + 1)%nat;
|}.
#[export] Instance demo_quote_law : JsonQuoteLaw.
Proof. intros s. cbn [json_quote demo_env]. rewrite !slen_app. change (slen (dq "'")) with 1. lia. Qed.

Definition demo_config : Config :=
  mkConfig 0 4096 1024 (mkEventsConfig EventsModeFull) (mkInboxConfig 0 512).
#[export] Instance demo_caps : Caps := caps_of demo_config.
#[export] Instance demo_caps_ok : CapsOk.
Proof. constructor; by vm_compute. Qed.
#[export] Instance demo_hash : ScopeHash := λ s, zsum id (codes s).
#[export] Instance demo_marshal : EventMarshal := λ e, Some (dq "'" +:+ Op e +:+ dq "'").

Definition demo_item (id payload : string) : Item :=
  mkItem "s" id 0 0 zeroUUID (Some payload) None None.
Definition demo_acct : acct := mkacct 0 0 0 0 0.
Definition demo_buf0 : scopeBuffer := newborn 3 1024 0.
Definition demo0 : ctx := mkctx demo_buf0 demo_acct 0.
Definition demo1 : ctx := (BufferWrite.appendItem (demo_item "a" "1") demo0).2.
Definition demo2 : ctx := (BufferWrite.appendItem (demo_item "b" "22") demo1).2.

Lemma demo0_pre : buf_pre demo_buf0 demo_acct.
Proof. constructor; try (by vm_compute). apply newborn_wf. Qed.

Lemma demo0_scope : scope_ok "s" demo_buf0.
Proof. intros p Hp. by apply elem_of_nil in Hp. Qed.

Lemma demo_step k item c : Scope item = k → buf_pre (c_buf c) (c_acct c) →
  detached (c_buf c) = false → scope_ok k (c_buf c) → lastSeq (c_buf c) < MaxUint64 →
  let c' := (BufferWrite.appendItem item c).2 in
  buf_pre (c_buf c') (c_acct c') ∧ scope_ok k (c_buf c').
Proof.
  intros Hk P Hd Hs Hl c'. destruct c as [b a t]. destruct (appendItem_op k item) as [Hop _]; [by rewrite Hk|].
  destruct (Hop b a t P Hd Hs Hl) as [B S _ _]. split; [|done]. by eapply bstep_pre.
Qed.

Lemma demo1_pre : buf_pre (c_buf demo1) (c_acct demo1) ∧ scope_ok "s" (c_buf demo1).
Proof. apply (demo_step "s"); [done|apply demo0_pre|done|apply demo0_scope|by vm_compute]. Qed.
Lemma demo2_pre : buf_pre (c_buf demo2) (c_acct demo2) ∧ scope_ok "s" (c_buf demo2).
Proof.
  apply (demo_step "s"); [done|apply demo1_pre|by vm_compute|apply demo1_pre|by vm_compute].
Qed.

(** The two stored items, oldest first. *)
Example demo2_view : (λ e : aitem, (ID e.1, Seq e.1, Payload e.1)) <$> view (c_buf demo2)
  = [("a"%string, 1, Some "1"%string); ("b"%string, 2, Some "22"%string)].
Proof. vm_compute. reflexivity. Qed.
