(* ===== verification/BufferWitnesses.v ===== *)
(** * The buffer theorems at concrete inputs

  Each witness applies its theorem on the demonstration buffer, where every
  hypothesis is discharged by evaluation. *)
From S2P Require Import Prelude GoStd Uuid Types Buffer BufferInv BufferSpec BufferWrite.
From S2P Require Import BufferWriteSpec BufferRead BufferDelete BufferDeleteSpec BufferCounter.
From S2P Require Import BufferCounterSpec BufferReplace BufferReplaceSpec BufferTheorems Store.
From S2P Require Import StoreInv StoreSpec Demo.

Definition d_buf : scopeBuffer := c_buf demo2.
Definition d_acct : acct := c_acct demo2.
Definition d_tick : nat := c_tick demo2.

Lemma d_wf : buf_wf d_buf.
Proof. apply (p_wf _ _ (proj1 demo2_pre)). Qed.
Lemma d_uuid : uuid_ok d_buf.
Proof.
  intros p Hp. assert (p = 0%nat ∨ p = 1%nat) as [-> | ->]; [|by vm_compute..].
  change (items d_buf) with [0%nat; 1%nat] in Hp. set_solver.
Qed.

Lemma d_live : detached d_buf = false.
Proof. by vm_compute. Qed.
Lemma d_seq : lastSeq d_buf < MaxUint64.
Proof. by vm_compute. Qed.
Lemma d_pre : buf_pre d_buf d_acct.
Proof. exact (proj1 demo2_pre). Qed.
Lemma d_by : in_counter 20.
Proof. by vm_compute. Qed.

Lemma append_correct_witness :
  let r := appendItem (demo_item "c" "333") (mkctx d_buf d_acct d_tick) in
  match r.1 with
  | Ok it => Seq it = 3 ∧ view (c_buf r.2) = view d_buf ++ [(it, None)]
  | Err _ => False
  end.
Proof.
  assert (is_ok (appendItem (demo_item "c" "333") (mkctx d_buf d_acct d_tick)).1 = true) as E
    by (by vm_compute).
  pose proof (append_correct (demo_item "c" "333") d_buf d_acct d_tick d_pre d_live d_seq) as HA.
  destruct (appendItem _ _) as [[it|e] c]; [|done].
  destruct HA as (H1 & _ & _ & _ & _ & _ & H2 & _). cbn. split; [|exact H2].
  rewrite H1. by vm_compute.
Defined.

Lemma upsert_correct_witness :
  let r := upsertByID (demo_item "a" "9") (mkctx d_buf d_acct d_tick) in
  match r.1 with
  | Ok (it, created) => Seq it = 1 ∧ created = false ∧ Payload it = Some "9"%string
  | Err _ => False
  end.
Proof.
  assert (match (upsertByID (demo_item "a" "9") (mkctx d_buf d_acct d_tick)).1 with
    | Ok (it, cr) => Seq it = 1 ∧ cr = false | Err _ => False end) as E by (by vm_compute).
  pose proof (upsert_correct (demo_item "a" "9") d_buf d_acct d_tick d_pre
    d_live d_seq) as HA.
  specialize (HA ltac:(done) ltac:(by vm_compute)).
  destruct (upsertByID _ _) as [[[it cr]|e] c]; [|done]. cbn in *. destruct E as [E1 E2].
  destruct HA as (_ & _ & H2 & _). by split.
Defined.

Lemma update_correct_witness :
  let r := update_by (AtSeq 2) (Some "7"%string) None (mkctx d_buf d_acct d_tick) in
  r.1 = Ok 1 ∧ update_hit (AtSeq 2) (Some "7"%string) (render_of None (Some "7"%string))
    (clk_micro d_tick) d_buf d_acct r.2.
Proof.
  assert ((update_by (AtSeq 2) (Some "7"%string) None (mkctx d_buf d_acct d_tick)).1 = Ok 1) as E
    by (by vm_compute).
  pose proof (update_correct (AtSeq 2) (Some "7"%string) None d_buf d_acct d_tick d_pre d_live) as HA.
  specialize (HA ltac:(by vm_compute)).
  destruct (update_by _ _ _ _) as [r c]. cbn in E. subst r. unfold update_ok in HA.
  destruct HA as [[_ HA]|[HA _]]; [by split|done].
Defined.

Lemma delete_correct_witness :
  let r := delete_by (AtID "a") (mkctx d_buf d_acct d_tick) in
  r.1 = Ok 1 ∧ totalItems (c_acct r.2) = totalItems d_acct - 1.
Proof.
  assert ((delete_by (AtID "a") (mkctx d_buf d_acct d_tick)).1 = Ok 1) as E by (by vm_compute).
  pose proof (delete_correct (AtID "a") d_buf d_acct d_tick d_pre d_live) as HA.
  destruct (delete_by _ _) as [r c]. cbn in *. subst r.
  destruct HA as (_ & _ & [[_ (i & p & _ & _ & _ & _ & HA)]|[HA _]]); [by split|done].
Defined.

Lemma drain_correct_witness :
  let r := drain_by (AtSeq 1) (mkctx d_buf d_acct d_tick) in
  r.1 = Ok 1 ∧ view (c_buf r.2) = filter (λ e : aitem, 1 < Seq e.1) (view d_buf).
Proof.
  assert ((drain_by (AtSeq 1) (mkctx d_buf d_acct d_tick)).1 = Ok 1) as E by (by vm_compute).
  pose proof (drain_correct (AtSeq 1) d_buf d_acct d_tick d_pre d_live) as HA.
  destruct (drain_by _ _) as [r c]. destruct HA as (_ & _ & HA & HV). by split.
Defined.

Lemma counterAdd_correct_witness :
  let r := counterAdd "s" "b" 20 (mkctx d_buf d_acct d_tick) in
  r.1 = Ok (42, false) ∧ counter_post d_buf d_acct "s" "b" 20 r.1 (c_buf r.2) (c_acct r.2).
Proof.
  assert ((counterAdd "s" "b" 20 (mkctx d_buf d_acct d_tick)).1 = Ok (42, false)) as E
    by (by vm_compute).
  pose proof (counterAdd_correct "s" "b" 20 d_buf d_acct d_tick d_pre d_seq) as HA.
  specialize (HA ltac:(done) d_by).
  destruct (counterAdd _ _ _ _) as [r c]. by split.
Defined.

Lemma detached_refuses_witness :
  let b := detach d_buf in
  refused b d_acct (appendItem (demo_item "z" "0") (mkctx b d_acct 0)) ∧
  refused b d_acct (deleteByID "a" (mkctx b d_acct 0)).
Proof.
  pose proof (detached_refuses (demo_item "z" "0") "a" 1 (AtID "a") None None 1 zeroUUID
    (detach d_buf) d_acct 0 eq_refl) as HA.
  split; apply HA.
Defined.

Lemma tail_correct_witness :
  no_pointer <$> (tailOffset d_buf 1 0).1 = tail_window (wire_items d_buf) 1 0 ∧
  (tailOffset d_buf 1 0).2 = true.
Proof.
  destruct (tail_correct d_buf 1 0 1 d_wf ltac:(done) ltac:(done) ltac:(done)) as (H1 & H2 & _).
  split; [exact H1|]. rewrite H2. by vm_compute.
Defined.

Lemma head_correct_witness :
  no_pointer <$> (sinceSeq d_buf 0 1).1 = take 1 (wire_items d_buf) ∧ (sinceSeq d_buf 0 1).2 = true.
Proof.
  destruct (head_correct d_buf 0 1 zeroItem d_wf ltac:(done)) as (H1 & H2 & _).
  split; [rewrite H1|rewrite H2]; by vm_compute.
Defined.

Lemma get_correct_witness :
  let u := Uuid (deref d_buf 0) in
  is_Some (getByUUID d_buf u) ∧
  ∀ it, no_pointer <$> getByUUID d_buf u = Some it ↔ it ∈ wire_items d_buf ∧ Uuid it = u.
Proof.
  split; [eexists; vm_compute; reflexivity|]. intros it.
  apply (get_correct d_buf "a" 1 (Uuid (deref d_buf 0)) it d_wf d_uuid). by vm_compute.
Defined.

(** A sparse buffer: two items in an array of 4096 slots. *)
Definition with_cap (n : nat) (b : scopeBuffer) : scopeBuffer := Eval fields in b <| itemsCap := n |>.
Lemma with_cap_wf n b : buf_wf b → uuid_ok b → buf_wf (with_cap n b) ∧ uuid_ok (with_cap n b).
Proof. intros W U. split; [by apply (wf_frame b)|exact U]. Qed.
Lemma shrink_invisible_witness :
  itemsCap (shrinkIfSparseLocked (with_cap 4096 d_buf)) = 2%nat ∧
  view (shrinkIfSparseLocked (with_cap 4096 d_buf)) = view (with_cap 4096 d_buf).
Proof.
  destruct (with_cap_wf 4096 d_buf d_wf d_uuid) as [W U].
  split; [clear; by vm_compute|]. apply (shrink_invisible (with_cap 4096 d_buf) W U).
Defined.

Lemma replacement_correct_witness :
  let l := [demo_item "x" "1"; demo_item "y" "2"] in
  let r := buildReplacementState l true 7%nat in
  is_ok r.1 = true ∧ NoDup (ids l).
Proof.
  cbv zeta.
  assert (is_ok (buildReplacementState [demo_item "x" "1"; demo_item "y" "2"] true 7%nat).1 = true) as E
    by (by vm_compute).
  pose proof (replacement_correct [demo_item "x" "1"; demo_item "y" "2"] 7%nat 0 d_buf ltac:(done)
    ltac:(by vm_compute)) as HA.
  destruct (buildReplacementState _ _ _) as [r t']. cbn in E |- *.
  split; [exact E|]. destruct HA as [HA _]. by apply HA.
Defined.
