(* ===== verification/StoreWitnesses.v ===== *)
(** * The store and data theorems at concrete inputs

  The demonstration environment runs a few calls on a new store; each witness
  applies its theorem there. *)
From S2P Require Import Prelude GoStd Uuid Types Wire Validation Buffer BufferInv BufferSpec.
From S2P Require Import BufferWrite BufferWriteSpec BufferRead BufferDelete BufferCounter.
From S2P Require Import BufferReplaceSpec BufferTheorems Store StoreInv BufferOps StoreSpec Events.
From S2P Require Import StoreOps Steps SubscribeSpec Bulk BulkSpec RebuildSpec WarmSpec OpsSteps.
From S2P Require Import EventsSpec Refine Flights FlightsSpec RefineOps RefineBulk ScopeList.
From S2P Require Import StoreTheorems Simulation.
From S2P Require Import DataTheorems Demo.

Definition demo_calls : list call :=
  [CAppend (demo_item "a" "1"); CAppend (demo_item "b" "22"); CSubscribe "_events"].
Definition ds : store := (run_calls demo_calls newStore).2.

Lemma ds_calls : Forall call_ok demo_calls.
Proof. repeat constructor. Qed.
Lemma ds_young : young ds.
Proof. by vm_compute. Qed.
Lemma ds_steps : rtc sstep newStore ds.
Proof. apply (tr_run _ _ _ (steps_calls _ ds_calls)); [apply newStore_inv|done|exact ds_young]. Qed.
Lemma ds_inv : store_inv ds.
Proof. apply (steps_ok newStore ds newStore_inv ds_steps ds_young). Qed.
Lemma ds_chans : chans_ok ds.
Proof. apply (steps_chans newStore ds newStore_inv newStore_chans ds_steps ds_young). Qed.

(** What the scope "s" of a store holds: ids, seqs and payloads. *)
Definition shown (s : store) : option (list (string * Z * slice)) :=
  (λ l : list aitem, (λ e : aitem, (ID e.1, Seq e.1, Payload e.1)) <$> l) <$> content s "s".
Example ds_shown : shown ds = Some [("a"%string, 1, Some "1"%string); ("b"%string, 2, Some "22"%string)].
Proof. vm_compute. reflexivity. Qed.

(** ** The invariant and the steps *)
(** One section of the flight at the head. *)
Definition fly1 (c : conf) : conf :=
  match c_flights c with
  | f :: fl => mkconf (fly (f_phase f) (c_store c)).2
      (mkflight (f_batch f) (fly (f_phase f) (c_store c)).1 :: fl)
      (c_over c + freed (f_phase f) (c_store c))
  | [] => c
  end.

(** The scope "s" with the item "a" of one byte, and a /warm of it. *)
Definition w_made : store := (slow_create "s" newStore).2.
Definition w_ptr : nat := default 0%nat (scopes w_made !! "s"%string).
Definition w_old : store := (with_buf w_ptr (appendItem (demo_item "a" "1")) w_made).2.
Definition demo_batch : batch := [("s"%string, [demo_item "x" "10"; demo_item "y" "11"])].
Lemma demo_batch_ok : batch_ok demo_batch.
Proof. split; [repeat constructor; set_solver|by vm_compute]. Qed.
Definition demo_plans : list plan :=
  match (warm_phase1 demo_batch [] [] 0%nat).1 with Ok ps => ps | Err _ => [] end.

(** The /warm takes its snapshot and reserves; a writer that looked "s" up before
    deletes "a"; the /warm commits. *)
Definition w_locked : conf := mkconf w_old [mkflight demo_batch (Snapping demo_plans [] 0)] 0.
Definition w_reserved : conf := fly1 (fly1 w_locked).
Definition w_shrunk : conf :=
  mkconf (with_buf w_ptr (deleteByID "a") (c_store w_reserved)).2 (c_flights w_reserved) (c_over w_reserved).
Definition w_done : conf := fly1 w_shrunk.


(** The commit adds what the delete freed, one item, to the byte counter; what
    is counted is exact again. *)
Example w_numbers : c_over w_done = 87 ∧ (totalBytes (s_acct (c_store w_done)) =? held (c_store w_done)) = true.
Proof. vm_compute. split; reflexivity. Qed.


Lemma call_is_steps_witness :
  store_inv (run_call CWipe ds).2 ∧ totalItems (s_acct (run_call CWipe ds).2) = 0.
Proof.
  split; [|by vm_compute]. apply (call_is_steps CWipe ds); [done|exact ds_inv|by vm_compute].
Defined.

(** The buffer of "s" looked up before a wipe. *)
Definition d_ptr : nat := default 0%nat (scopes ds !! "s"%string).
Lemma stale_pointer_safe_witness :
  let s' := (run_call CWipe ds).2 in
  scopes s' !! "s"%string = None ∧
  (with_buf d_ptr (appendItem (demo_item "c" "3")) s').1 = Err ScopeDetachedError.
Proof.
  assert (rtc sstep ds (run_call CWipe ds).2) as S.
  { apply (tr_run _ _ _ (steps_call CWipe I)); [apply ds_inv|done|by vm_compute]. }
  pose proof (stale_pointer_safe "s" d_ptr (appendItem (demo_item "c" "3")) ds (run_call CWipe ds).2
    (appendItem_op "s" (demo_item "c" "3") (TCEq_refl _)) ds_inv) as H.
  assert (scopes ds !! "s"%string = Some d_ptr) as Hp by (by vm_compute).
  specialize (H Hp S ltac:(by vm_compute)). unfold current_or_refused in H. cbv zeta.
  assert (scopes (run_call CWipe ds).2 !! "s"%string = None) as Hn by (by vm_compute). split; [done|].
  rewrite Hn in H. destruct (with_buf _ _ _) as [r s2]. cbn [fst]. destruct H as [H|H]; [discriminate H|exact (proj1 H)].
Defined.


(** ** The single-item writes *)
Lemma appendOne_refines_witness :
  let o := appendOne (demo_item "c" "333") ds in
  is_ok o.1 = true ∧ written "s" (append_rel (demo_item "c" "333")) ds o.
Proof.
  split; [by vm_compute|]. apply (appendOne_refines (demo_item "c" "333") ds ds_inv). by vm_compute.
Defined.

Lemma upsertOne_refines_witness :
  let o := upsertOne (demo_item "a" "9") ds in
  shown o.2 = Some [("a"%string, 1, Some "9"%string); ("b"%string, 2, Some "22"%string)] ∧
  written "s" (upsert_rel (demo_item "a" "9")) ds o.
Proof.
  split; [by vm_compute|]. apply (upsertOne_refines (demo_item "a" "9") ds); [done|exact ds_inv|by vm_compute].
Defined.

(** The uuids of "s" are all indexed; one that is not stored is a miss. *)
Lemma ds_index_full : Forall (λ p, byUUID (buf_at ds d_ptr) !! Uuid (deref (buf_at ds d_ptr) p) = Some p)
  (items (buf_at ds d_ptr)).
Proof. apply (bool_decide_eq_true_1 _). vm_compute. reflexivity. Qed.
Lemma ds_indexed : uuids_indexed ds "s".
Proof.
  intros p Hp. assert (p = d_ptr) as -> by (unfold d_ptr; by rewrite Hp).
  intros q Hq _. pose proof ds_index_full as H. rewrite Forall_forall in H. by apply H.
Qed.
Definition unknown_uuid : string := "01890a5d-ac96-774b-bcce-b302099a8057".

Lemma updateOne_refines_witness :
  let o := updateOne (demo_item "b" "7") ds in
  o.1 = Ok 1 ∧ written_in "s" 0 (update_rel (uuids_indexed ds "s") (AtID "b") (Some "7"%string)) ds o.
Proof.
  split; [by vm_compute|]. apply (updateOne_refines (demo_item "b" "7") ds); [done|exact ds_inv|by vm_compute].
Defined.

Lemma counterAddOne_refines_witness :
  let o := counterAddOne "s" "b" 20 ds in
  o.1 = Ok (42, false) ∧ written "s" (counter_rel "s" "b" 20) ds o.
Proof. split; [by vm_compute|]. apply (counterAddOne_refines "s" "b" 20 ds ds_inv). by vm_compute. Defined.

Lemma deleteOne_refines_witness :
  let o := deleteOne "s" "" 1 "" ds in
  shown o.2 = Some [("b"%string, 2, Some "22"%string)] ∧ written_in "s" 0 (delete_rel (uuids_indexed ds "s") (AtSeq 1)) ds o.
Proof. split; [by vm_compute|]. apply (deleteOne_refines "s" "" 1 "" ds ds_inv). by vm_compute. Defined.

Lemma deleteUpTo_refines_witness :
  let o := deleteUpTo "s" 0 unknown_uuid ds in
  o.1 = Ok 0 ∧ written_in "s" 0 (drain_rel (uuids_indexed ds "s") (AtUUID (parsed_uuid unknown_uuid))) ds o.
Proof. split; [by vm_compute|]. apply (deleteUpTo_refines "s" 0 unknown_uuid ds ds_inv). by vm_compute. Defined.

Lemma deleteScope_refines_witness :
  let o := deleteScope "s" ds in o.1 = Ok (2, true) ∧ scope_deleted "s" ds o.
Proof. split; [by vm_compute|]. apply (deleteScope_refines "s" ds ds_inv). by vm_compute. Defined.

Lemma wipe_refines_witness : content (wipe ds).2 "s" = None ∧ content (wipe ds).2 "_events" = Some [].
Proof. split; apply (wipe_refines ds ds_inv). Defined.

(** ** The bulk writes *)
Lemma rebuildAll_refines_witness :
  let o := rebuildAll demo_batch ds in o.1 = Ok (1, 2) ∧ rebuilt_content demo_batch (content o.2).
Proof.
  assert ((rebuildAll demo_batch ds).1 = Ok (1, 2)) as E by (by vm_compute).
  pose proof (rebuildAll_refines demo_batch ds ds_inv demo_batch_ok) as H.
  destruct (rebuildAll demo_batch ds) as [r s']. cbn [fst] in E. subst r. split; [done|]. apply H.
Defined.

Lemma replaceScopes_refines_witness :
  let o := replaceScopes demo_batch ds in
  shown o.2 = Some [("x"%string, 1, Some "10"%string); ("y"%string, 2, Some "11"%string)] ∧
  scopes_replaced demo_batch ds o.
Proof.
  split; [by vm_compute|]. apply (replaceScopes_refines demo_batch ds ds_inv demo_batch_ok). by vm_compute.
Defined.


(** ** Reads, lists, subscriptions, the simulation *)
Lemma reads_refine_witness :
  read_as "s" ([], false, false) (page (tail_page 1 0)) ds (StoreOps.tail "s" 1 0 ds) ∧
  (StoreOps.tail "s" 1 0 ds).1.1.2 = true ∧
  (∀ l it, content ds "s" = Some l → it ∈ wire <$> l → Uuid it ≠ parsed_uuid unknown_uuid).
Proof.
  destruct (reads_refine "s" 0 1 0 "" 0 unknown_uuid ds ds_inv ltac:(lia) ltac:(lia)) as (_ & H & [_ Hg] & _).
  split; [exact H|]. split; [by vm_compute|]. intros l it Hl Hin E. rewrite Hl in Hg. destruct Hg as [_ Hm].
  apply (Hm ltac:(by vm_compute) ds_indexed it Hin). split; [exact E|by vm_compute].
Defined.

Lemma scopeList_pages_witness :
  listed ds "" "" = ["_events"%string; "_inbox"%string; "s"%string] ∧
  sle_Scope <$> (scopeList ds "" "_events" 1).1 = ["_inbox"%string].
Proof.
  destruct (scopeList_pages ds "" "" 1 "_events" ds_inv ltac:(lia)) as (_ & _ & _ & _ & _ & H).
  assert (listed ds "" "" = ["_events"%string; "_inbox"%string; "s"%string]) as E by (by vm_compute).
  split; [done|]. rewrite E in H. by apply H.
Defined.

Lemma subscription_life_witness :
  is_ok (Subscribe "_inbox" ds).1 = true ∧ is_ok (Subscribe "_events" ds).1 = false.
Proof.
  destruct (subscription_life "_inbox" ds ds_chans) as [H _]. split; [apply H; by split|by vm_compute].
Defined.

Definition more_calls : list call := [CUpdate (demo_item "b" "7"); CGet "s" "b" 0 ""; CDelete "s" "x" 0 ""; CHead "s" 0 5].
Lemma more_calls_ok : Forall call_ok more_calls.
Proof. repeat constructor. Qed.
Definition answers_match (t : list event) : Prop :=
  match t with
  | [existT (CUpdate _) (Ok n); existT (CGet _ _ _ _) (Some it); existT (CDelete _ _ _ _) (Ok m); _] =>
      n = 1 ∧ Payload it = Some "7"%string ∧ m = 0
  | _ => False
  end.
Lemma calls_simulate_witness : answers_match (perform_all more_calls ds).1 ∧
  spec_run (runs_indexed more_calls ds) (perform_all more_calls ds).1 (content ds)
    (content (perform_all more_calls ds).2).
Proof.
  assert (young (perform_all more_calls ds).2) as Y by (by vm_compute).
  split; [by vm_compute|]. revert Y. generalize (calls_simulate more_calls ds more_calls_ok ds_inv).
  generalize (perform_all more_calls ds). intros [t s'] H Y. exact (proj2 (H Y)).
Defined.

(** ** Data *)
Definition demo_uuid : UUID := newUUIDv7 1700000000000 5 7.
Lemma uuid_json_roundtrip_witness : UUID_UnmarshalJSON zeroUUID (UUID_MarshalJSON demo_uuid) = Some demo_uuid.
Proof. apply (uuid_json_roundtrip demo_uuid); [apply newUUIDv7_wf|right; apply newUUIDv7_valid]. Defined.

Lemma clamped_exact_witness : addClampedInt64 MaxInt64 1 = MaxInt64 ∧ bulkRequestBytesFor MaxInt64 = MaxInt64.
Proof.
  assert (in_i64 MaxInt64) as H1 by (by vm_compute). assert (in_i64 1) as H2 by (by vm_compute).
  destruct (clamped_exact MaxInt64 1 MaxInt64 H1 H2 ltac:(by vm_compute)) as (E1 & E2 & _).
  split; [rewrite E1|rewrite E2]; by vm_compute.
Defined.

Lemma encoders_agree_witness :
  writeGetResponse (Some (demo_item "a" "1")) = Written false (AppendGetResponseJSON "" (Some (demo_item "a" "1"))).
Proof.
  destruct (encoders_agree 0 "" (demo_item "a" "1") (Some (demo_item "a" "1")) [] false 0 []) as (_ & _ & _ & _ & _ & H).
  apply H. intros x [= <-]. by vm_compute.
Defined.

Lemma window_parameters_witness : normalizeLimit "20000" = Ok 10000.
Proof. apply (window_parameters "" 20000). by vm_compute. Defined.
