(* ===== verification/ServiceWitnesses.v ===== *)
(** * The service theorems at concrete inputs

  A toy codec instantiates the decoders and encoders; each witness applies its
  theorem to the demonstration store [ds]. *)
From S2P Require Import Prelude GoStd Uuid Types Wire Validation Buffer BufferInv BufferSpec.
From S2P Require Import BufferRead Store StoreInv BufferOps StoreSpec Events StoreOps Steps Bulk.
From S2P Require Import BulkSpec RebuildSpec WarmSpec OpsSteps EventsSpec Refine RefineOps RefineBulk.
From S2P Require Import Simulation Handlers HandlersSpec Gateway GatewaySpec Guarded Adapters AdaptersSpec.
From S2P Require Import DataTheorems ServiceTheorems Demo StoreWitnesses.

(** ** The codec *)
(** A body is a payload for the item "c"; "0" is one for the item "a". *)
Definition toy {A} (n : Z) (b : string) (a : A) : decoded A :=
  if n <? slen b then DecodeErr (MaxBytesError n)
  else if bool_decide (b = ""%string) then DecodeErr SyntaxError else Decoded a true.
#[export] Instance toy_decoders : Decoders := {|
  decode_Item n b := toy n b (demo_item (if bool_decide (b = "0"%string) then "a" else "c") b);
  decode_items n b := toy n b [demo_item "c" "7"];
  decode_counter n b := toy n b (mkcounterAddRequest "s" "n" (ParseInt b));
  decode_delete n b := toy n b (mkdeleteRequest "s" b 0 "");
  decode_deleteUpTo n b := toy n b (mkdeleteUpToRequest "s" (default 0 (ParseUint b)) "");
  decode_deleteScope n b := toy n b (mkdeleteScopeRequest b);
|}.
Lemma toy_ok {A} n b (a x : A) eof : toy n b a = Decoded x eof → x = a.
Proof. unfold toy. destruct (_ <? _); [done|]. case_bool_decide; [done|]. by intros [= <- _]. Qed.
#[export] Instance toy_law : DecodeLaw.
Proof.
  constructor.
  - intros n b it eof E. by apply toy_ok in E as ->.
  - intros n b l eof E. apply toy_ok in E as ->. by vm_compute.
Qed.
#[export] Instance toy_marshal : RespMarshal := λ r, Some "{}"%string.
#[export] Instance toy_marshal_law : MarshalLaw.
Proof. intros r. by eexists. Qed.

(** A hash of 43 characters: the token, padded or cut. *)
#[export] Instance toy_hash : TokenHash := λ token,
  of_codes (take 43 (codes token ++ replicate 43 46)).
#[export] Instance toy_hash_law : TokenHashLaw.
Proof.
  intros token. unfold capID, toy_hash, slen.
  rewrite length_of_codes, length_take, length_app, length_replicate. lia.
Qed.
#[export] Instance toy_guarded : GuardedMarshal := λ b,
  match b with
  | GuardedError msg => Some msg
  | GuardedTail _ count _ _ items => Some (String.concat "," (Scope <$> items))
  end.

Definition post (body : string) : http_request := mkrequest MethodPost [] "" body.

(** ** The HTTP layer *)
(** An append of an id that exists is answered 409. *)
Lemma refusal_changes_nothing_witness :
  status (serve EAppend (post "0") ds).1 = StatusConflict ∧
  same_astore (content ds) (content (serve EAppend (post "0") ds).2).
Proof.
  assert (status (serve EAppend (post "0") ds).1 = StatusConflict) as E by (by vm_compute).
  split; [exact E|]. apply (refusal_changes_nothing EAppend (post "0") ds ds_inv);
    [by vm_compute|by rewrite E|by rewrite E].
Defined.

Lemma http_contract_witness :
  status (serve EWarm (post "x") ds).1 ∈ statuses EWarm ∧
  (serve EHead (post "x") ds).2 = ds ∧ allow (serve EHead (post "x") ds).1 = Some "GET"%string.
Proof.
  destruct (http_contract EWarm (post "x") ds) as [H1 _]. destruct (http_contract EHead (post "x") ds) as (_ & H2 & _).
  destruct (H2 ltac:(discriminate)) as (Hs & _ & Ha). split; [by apply H1|]. by split.
Defined.

(** ** The in-process API *)
Definition d_heap : Clone.heap := {[ 0%nat := "payload"%string ]}.
Definition d_grouped : list (string * list Clone.gitem) :=
  [("s"%string, [Clone.mkgitem (demo_item "a" "") (Some 0%nat)])].
Lemma clone_isolates_witness :
  let '(g', h') := Clone.cloneGroupedItemPayloads d_grouped d_heap in
  Clone.resolve (write h' 0%nat "changed") <$> concat g'.*2 = [demo_item "a" "payload"].
Proof.
  assert (valid_refs d_heap (concat d_grouped.*2)) as V.
  { intros a Ha. apply list_elem_of_singleton in Ha as ->. by vm_compute. }
  pose proof (clone_isolates d_grouped d_heap V) as H.
  destruct (Clone.cloneGroupedItemPayloads d_grouped d_heap) as [g' h'] eqn:E.
  destruct H as (_ & Hr & Hw & _). rewrite Hw by (by vm_compute). exact Hr.
Defined.

(** An item with a counter cell and a render cache of the caller's making. *)
Definition forged : Item := mkItem "s" "f" 0 0 zeroUUID (Some "1"%string) (Some "x"%string) (Some 0%nat).
Lemma gateway_safe_witness :
  store_inv (Gateway_Upsert forged ds).2 ∧ store_inv (Gateway_Warm [("s"%string, [forged])] ds).2.
Proof.
  assert (batch_ok (boundary_batch [("s"%string, [forged])])) as B.
  { split; [apply NoDup_singleton|by vm_compute]. }
  destruct (gateway_safe forged "s" "f" "" 0 0 0 [("s"%string, [forged])] B) as [(_ & H1 & _ & _ & _ & _ & _ & H2 & _) _].
  split; [apply (H1 ds ds_inv)|apply (H2 ds ds_inv)]; by vm_compute.
Defined.

Lemma registry_reload_witness :
  let g := (Registry.RegisterGateway "default" (Some 1%nat) Registry.empty_registry).2 in
  let g := (Registry.RegisterGateway "default" (Some 2%nat) g).2 in
  let g := (Registry.DeregisterGatewayIf "default" (Some 1%nat) g).2 in
  (Registry.LookupGateway "default" g).1 = Some 2%nat.
Proof.
  destruct (registry_reload Registry.empty_registry "default" 1%nat 2%nat _ empty_ok ltac:(discriminate) eq_refl)
    as [H _]. vm_compute in H |- *. exact H.
Defined.

(** ** The addon, with a store cap that has room for two scopes more *)
Section AddonWitness.
#[local] Instance big_caps : Caps :=
  caps_of (mkConfig 0 65536 1024 (mkEventsConfig EventsModeOff) (mkInboxConfig 0 512)).
#[local] Instance big_caps_ok : CapsOk.
Proof. constructor; by vm_compute. Qed.

Definition d_cid : string := capID "tok".
Definition gcalls : list call :=
  [CUpsert (mkItem "_tokens" d_cid 0 0 zeroUUID (Some "1"%string) None None);
   CAppend (mkItem (d_cid +:+ ":mine") "x" 0 0 zeroUUID (Some "2"%string) None None)].
Definition gs : store := (run_calls gcalls newStore).2.
Lemma gs_inv : store_inv gs.
Proof.
  apply (steps_ok newStore gs newStore_inv); [|by vm_compute].
  apply (tr_run _ _ _ (steps_calls gcalls ltac:(repeat constructor))); [apply newStore_inv|done|by vm_compute].
Qed.
Definition bearer (token : string) : http_request :=
  mkrequest MethodGet [("scope", "mine")]%string ("Bearer " +:+ token) "".
Lemma guarded_isolated_witness :
  (guarded_handleTail (bearer "tok") gs).1 = guarded_answer (content gs) (bearer "tok") ∧
  body (guarded_handleTail (bearer "tok") gs).1 = ("mine" +:+ newline)%string ∧
  ∃ msg, (guarded_handleTail (bearer "other") gs).1 = errorJSON StatusUnauthorized msg.
Proof.
  assert (young (guarded_handleTail (bearer "tok") gs).2) as Y by (by vm_compute).
  pose proof (guarded_isolated (bearer "tok") gs gs_inv eq_refl Y) as H.
  assert (body (guarded_handleTail (bearer "tok") gs).1 = ("mine" +:+ newline)%string) as Hb by (by vm_compute).
  assert ((guarded_handleTail (bearer "other") gs).1 = errorJSON StatusUnauthorized "invalid or unknown token")
    as He by (by vm_compute).
  split; [|split; [exact Hb|exists "invalid or unknown token"%string; exact He]].
  assert (holds_id (content gs) tokensScope (capID (extractBearer (bearer "tok")))) as Hh.
  { assert ((λ l : list aitem, (λ e, ID e.1) <$> l) <$> content gs tokensScope =
      Some [capID (extractBearer (bearer "tok"))]) as Hl by (vm_compute; reflexivity).
    revert Hl. generalize (content gs) (capID (extractBearer (bearer "tok"))). intros C k Hl. unfold holds_id.
    destruct (C tokensScope) as [[|e l]|]; [discriminate Hl| |discriminate Hl].
    injection Hl as E _. exists (e :: l), e. split; [reflexivity|]. split; [left|exact E]. }
  destruct (guarded_handleTail (bearer "tok") gs) as [resp s']. destruct H as (_ & _ & H & _).
  apply H; [discriminate|exact Hh].
Defined.
End AddonWitness.

(** ** The adapters *)
Definition h_small : Handler := mkHandler 10 1 1 0 0 "full" "" "" 5 true.
Lemma provision_exact_witness :
  provision_config h_small = Ok (caddy_config h_small EventsModeFull) ∧
  @CapsOk (caps_of (caddy_config h_small EventsModeFull)).
Proof.
  assert (provision_config h_small = Ok (caddy_config h_small EventsModeFull)) as E.
  { apply provision_exact. split; [by constructor|]. by exists EventsModeFull. }
  split; [exact E|]. by apply (provision_exact h_small).
Defined.

Lemma caddyfile_parse_witness :
  UnmarshalCaddyfile [] [("max_store_mb", Some "1"); ("events_mode", Some "full"); ("max_store_mb", Some "2")]%string
    zeroHandler = Ok (mkHandler 0 2 0 0 0 "full" "" "" 0 false).
Proof.
  apply caddyfile_parse. split; [done|]. split; [|by vm_compute].
  assert (line_ok ("max_store_mb", Some "1")%string) as H1.
  { split; [by apply (is_key 5)|]. exists "1"%string. split; [done|by eexists]. }
  assert (line_ok ("max_store_mb", Some "2")%string) as H2.
  { split; [by apply (is_key 5)|]. exists "2"%string. split; [done|by eexists]. }
  assert (line_ok ("events_mode", Some "full")%string) as H3.
  { split; [by apply (is_key 0)|]. exists "full"%string. split; [done|]. exists EventsModeFull. by vm_compute. }
  apply Forall_cons. split; [exact H1|]. apply Forall_cons. split; [exact H3|]. apply Forall_cons. by split; [exact H2|].
Defined.

(** A delete of an unknown id reaches the next handler; one of a known id does not. *)
Definition d_next : http_request → SM response := λ _, ret (mkresponse 204 false None "" "").
Lemma fallthrough_safe_witness :
  status (ServeHTTP true "/delete" (post "nope") d_next ds).1 = 204 ∧
  status (ServeHTTP true "/delete" (post "a") d_next ds).1 = 200.
Proof.
  assert (RegisterRoutes "/delete" = Some EDelete) as Er by (by vm_compute).
  assert (mux "/delete" = Some (serve EDelete)) as Em by (unfold mux; rewrite Er; reflexivity). clear Er.
  assert (∀ b, oversize (post b) = false → core_request true (post b) = post b) as Hr.
  { intros b Hb. unfold core_request. by rewrite Hb. }
  assert (oversize (post "nope") = false) as O1 by (by vm_compute).
  assert (oversize (post "a") = false) as O2 by (by vm_compute).
  assert (young (serve EDelete (post "nope") ds).2) as Y1 by (vm_compute; discriminate).
  assert (miss (serve EDelete (post "nope") ds).1 = true) as M1 by (vm_compute; reflexivity).
  assert (young (serve EDelete (post "a") ds).2) as Y2 by (vm_compute; discriminate).
  assert (miss (serve EDelete (post "a") ds).1 = false) as M2 by (vm_compute; reflexivity).
  assert (status (serve EDelete (post "a") ds).1 = 200) as S2 by (vm_compute; reflexivity).
  pose proof (fallthrough_safe true "/delete" (post "nope") d_next ds ds_inv) as H1.
  pose proof (fallthrough_safe true "/delete" (post "a") d_next ds ds_inv) as H2.
  rewrite Em, (Hr _ O1) in H1. rewrite Em, (Hr _ O2) in H2.
  destruct (serve EDelete (post "nope") ds) as [r1 s1]. destruct (serve EDelete (post "a") ds) as [r2 s2].
  cbn [fst snd] in *.
  destruct (H1 Y1) as [E1 _]. destruct (H2 Y2) as [E2 _]. rewrite E1, E2, O1, O2, M1, M2.
  split; [reflexivity|exact S2].
Defined.

(** ** Estimates *)
Lemma estimate_is_safe_witness :
  ∃ n, writeTailResponse 10 [demo_item "a" "1"] false 0 = TooLarge n 10.
Proof. apply (estimate_is_safe 10 [demo_item "a" "1"] false 0). by vm_compute. Defined.
