(* ===== verification/ExtensionWitnesses.v ===== *)
(** * The command and PHP theorems at concrete inputs *)
From S2P Require Import Prelude GoStd Uuid Types Wire Validation Buffer BufferInv BufferSpec BufferRead.
From S2P Require Import Store StoreInv BufferOps StoreSpec Events StoreOps Steps SubscribeSpec Bulk BulkSpec.
From S2P Require Import RebuildSpec WarmSpec OpsSteps EventsSpec Refine RefineOps RefineBulk.
From S2P Require Import Simulation Handlers HandlersSpec Gateway GatewaySpec Php PhpSpec.
From S2P Require Import Subscriber SubscriberSpec ExtensionTheorems Demo StoreWitnesses ServiceWitnesses.

(** ** The bridge of "_inbox" *)
Definition start0 : result start_error bridge * store := StartSubscriber "_inbox" "drain.sh" ds.
Definition b0 : bridge := mkbridge (fresh_chan ds) AtRange false 0 NotCalled.
Definition s0 : store := start0.2.
Lemma start0_ok : StartSubscriber "_inbox" "drain.sh" ds = (Ok b0, s0).
Proof. vm_compute. reflexivity. Qed.


(** Cancel, unsubscribe, leave the loop, return. *)
Definition b1 : bridge := mkbridge (br_ch b0) AtRange true 0 Cancelled.
Definition b2 : bridge := mkbridge (br_ch b0) AtRange true 0 Unsubscribed.
Definition b3 : bridge := mkbridge (br_ch b0) Exited true 0 Unsubscribed.
Definition b4 : bridge := mkbridge (br_ch b0) Exited true 0 Returned.
Definition s2 : store := (unsubscribe "_inbox" s0).2.
Lemma path1 : rtc (bridge_step "_inbox") (b0, s0) (b1, s0).
Proof. apply rtc_once. left; right. apply (stop_cancel "_inbox" b0). reflexivity. Qed.
Lemma path2 : rtc (bridge_step "_inbox") (b0, s0) (b2, s2).
Proof.
  eapply rtc_r; [exact path1|]. left; right. apply (stop_unsub "_inbox" b1). reflexivity.
Qed.
Lemma exit_step : own_step "_inbox" (b2, s2) (b3, s2).
Proof. left. apply (loop_exit b2 s2 s2); [reflexivity|vm_compute; reflexivity]. Qed.
Lemma return_step : own_step "_inbox" (b3, s2) (b4, s2).
Proof. right. apply (stop_done "_inbox" b3); reflexivity. Qed.
Lemma path4 : rtc (bridge_step "_inbox") (b0, s0) (b4, s2).
Proof.
  eapply rtc_r; [eapply rtc_r; [exact path2|]|]; left; [exact exit_step|exact return_step].
Qed.
Lemma young2 : young s2.
Proof. vm_compute. discriminate. Qed.
Lemma young0 : young s0.
Proof. vm_compute. discriminate. Qed.

(** Cancelled: a step is there to take. Unsubscribed: two steps are left.
    Returned: whatever another subscriber receives, nothing runs. *)
Definition s3 : store := (receive 99 s2).2.
Lemma stop_returns_witness :
  (∃ y, own_step "_inbox" (b1, s0) y) ∧
  ((2 ≤ 4)%nat ∧ br_runs b4 = br_runs b2) ∧
  br_phase b4 = Exited ∧ br_runs b4 = 0%nat.
Proof.
  split; [|split].
  - destruct (stop_returns "_inbox" "drain.sh" ds (b1, s0) ds_inv ds_chans) as (Hgo & _).
    + exists b0, s0. split; [exact start0_ok|]. split; [exact path1|exact young0].
    + apply Hgo; discriminate.
  - destruct (stop_returns "_inbox" "drain.sh" ds (b2, s2) ds_inv ds_chans) as (_ & _ & Hn & _).
    + exists b0, s0. split; [exact start0_ok|]. split; [exact path2|exact young2].
    + apply (Hn eq_refl 2%nat (b4, s2)); [|exact young2].
      eapply ex_own; [exact exit_step|]. eapply ex_own; [exact return_step|]. apply ex_nil.
  - destruct (stop_returns "_inbox" "drain.sh" ds (b4, s2) ds_inv ds_chans) as (_ & _ & _ & Hr).
    + exists b0, s0. split; [exact start0_ok|]. split; [exact path4|exact young2].
    + apply (Hr eq_refl (b4, s3)).
      * apply rtc_once. right. apply env_receive. vm_compute. discriminate.
      * vm_compute. discriminate.
Defined.


(** ** PHP *)
#[export] Instance toy_text : ArrayErrorText := λ e, "bad array"%string.
#[export] Instance toy_map : GoMap (list (string * list php_value)) := λ a, Ok a.
