(* ===== verification/LifecycleWitnesses.v ===== *)
(** * The theorems on the life of an instance, at concrete inputs *)
From S2P Require Import Prelude GoStd Uuid Types Wire Validation Buffer BufferInv BufferSpec BufferRead.
From S2P Require Import Clock Store StoreInv BufferOps StoreSpec Events StoreOps Steps SubscribeSpec Bulk BulkSpec.
From S2P Require Import RebuildSpec WarmSpec OpsSteps EventsSpec Refine RefineOps Simulation Gateway GatewaySpec.
From S2P Require Import Adapters AdaptersSpec Subscriber SubscriberSpec Sockets SocketsSpec.
From S2P Require Import Lifecycle LifecycleSpec BootSpec Caddy CaddySpec LifecycleTheorems Demo.

(** ** A machine: two directories, a stale socket, a kernel that refuses nothing *)
#[export] Instance demo_kernel : Kernel := {|
  refused _ := None;
  bind_perm := 493;
  temp_name _ := "/tmp/scopecache-init-1";
|}.
Definition demo_nodes : gmap string node :=
  {[ "/run" := Directory; "/tmp" := Directory; "/run/scopecache.sock" := SocketFile 432 ]}%string.
Definition demo_os : os := mkos demo_nodes ∅ 0.

Lemma demo_node p n : demo_nodes !! p = Some n → p ∈ ["/run"; "/tmp"; "/run/scopecache.sock"]%string.
Proof.
  unfold demo_nodes. intros [[<- _]|[_ [[<- _]|[_ [<- _]%lookup_singleton_Some]]%lookup_insert_Some]]%lookup_insert_Some.
  - left. - right; left. - right; right; left.
Qed.
(** The directories above a path. *)
Fixpoint dirs_of (p : string) : list string :=
  match p with
  | EmptyString => []
  | String c p => (if ascii_dec c "/" then [""%string] else []) ++ (String c <$> dirs_of p)
  end.
Lemma under_dirs d p : String.prefix (d +:+ "/") p = true → d ∈ dirs_of p.
Proof.
  revert d. induction p as [|c p IH]; intros [|a d]; [done..| |].
  - change (String.prefix ("" +:+ "/") (String c p)) with (if ascii_dec "/" c then String.prefix "" p else false).
    destruct (ascii_dec "/" c) as [<-|]; [|done]. intros _. cbn. left.
  - change (String.prefix (String a d +:+ "/") (String c p))
      with (if ascii_dec a c then String.prefix (d +:+ "/") p else false).
    destruct (ascii_dec a c) as [<-|]; [|done]. intros H%IH. cbn. apply elem_of_app. right.
    by apply list_elem_of_fmap_2.
Qed.
Lemma demo_os_ok : os_ok demo_os.
Proof.
  split; [|intros p []%elem_of_empty]. intros d p Hd Hn Hu. apply eq_None_not_Some. intros [n Hp].
  destruct Hu as [->|Hu%under_dirs]; [cbn in *; congruence|].
  apply demo_node in Hp. repeat apply elem_of_cons in Hp as [->|Hp]; [| | |by apply elem_of_nil in Hp];
    vm_compute in Hu; repeat apply elem_of_cons in Hu as [->|Hu]; try done; by apply elem_of_nil in Hu.
Qed.

Lemma listen_safe_witness : ∃ o', listenUnixSocket DefaultSocketPath demo_os = (Ok DefaultSocketPath, o') ∧
  nodes o' !! DefaultSocketPath = Some (SocketFile UnixSocketPerm) ∧ listening o' = {[DefaultSocketPath]}.
Proof.
  assert (DefaultSocketPath ∉ listening demo_os) as Hn by apply not_elem_of_empty.
  pose proof (listen_safe DefaultSocketPath demo_os Hn) as H.
  destruct (listenUnixSocket DefaultSocketPath demo_os) as [r o']. destruct H as (_ & L & _ & W).
  assert (r = Ok DefaultSocketPath) as -> by (apply W; [reflexivity|vm_compute; reflexivity|vm_compute; reflexivity]).
  exists o'. destruct L as (_ & L1 & L2). split; [reflexivity|]. split; [exact L1|].
  rewrite L2. apply (left_id_L ∅ (∪)).
Defined.

(** ** A boot with both commands *)
Definition demo_Getenv (k : string) : string :=
  if bool_decide (k = "SCOPECACHE_INIT_COMMAND") then "init.sh"
  else if bool_decide (k = "SCOPECACHE_SUBSCRIBER_COMMAND") then "drain.sh" else "".
#[local] Instance env_caps : Caps := caps_of (main_config demo_Getenv).
(** The boot command appends an item; nothing is in flight when it ends. *)
Definition demo_command (CP : Caps) : boot_command :=
  mkcommand (λ _ s, (Ok tt, (run_call (CAppend (demo_item "a" "1")) s).2)) (λ _ s, (tt, s)).
Lemma late_none (CP : Caps) sock s : requests_run s (command_late (demo_command CP) sock s).2.
Proof. split; [apply rtc_refl|reflexivity]. Qed.
Lemma demo_requests (CP : Caps) (CO : CapsOk) command : let s1 := (run_call (CAppend (demo_item "a" "1")) newStore).2 in
  young s1 → subscribers s1 = subscribers newStore → boot_requests (demo_command CP) command.
Proof.
  intros s1 Y E sock. split; [|cbv zeta; apply late_none]. split; [|exact E].
  by destruct (tr_run _ _ _ (steps_call (CAppend (demo_item "a" "1")) Logic.I) newStore newStore_inv Logic.I Y).
Qed.
Lemma env_requests command : boot_requests (demo_command env_caps) command.
Proof.
  apply (demo_requests env_caps (main_caps demo_Getenv)); [vm_compute; discriminate|vm_compute; reflexivity].
Qed.
Definition env_boot : (result os_error string * list (string * bridge)) * world :=
  main_boot (demo_command env_caps) (initCommandFromEnv demo_Getenv) (subscriberCommandFromEnv demo_Getenv)
    (socketPathFromEnv demo_Getenv) (mkworld demo_os newStore).
Lemma env_ok : env_boot.1.1 = Ok (socketPathFromEnv demo_Getenv).
Proof. vm_compute. reflexivity. Qed.
Lemma env_young : young (w_store env_boot.2).
Proof. vm_compute. discriminate. Qed.

Lemma boot_contract_witness : store_inv (w_store env_boot.2) ∧
  reserved_bridges (subscriberCommandFromEnv demo_Getenv) env_boot.1.2 (w_store env_boot.2) ∧
  listening (w_os env_boot.2) = {[socketPathFromEnv demo_Getenv]}.
Proof.
  pose proof (boot_contract demo_Getenv (demo_command env_caps) demo_os demo_os_ok eq_refl (env_requests _)) as H.
  pose proof env_ok as E. pose proof env_young as Y. unfold env_boot in *.
  destruct (main_boot (demo_command env_caps) _ _ _ _) as [[r bs] w]. cbn [fst snd] in *.
  destruct (H Y) as (I & _ & _ & RB & _ & L). rewrite E in L. split; [exact I|]. split; [exact RB|]. apply L.
Defined.

(** ** A run to the end: the signal comes, and the program finishes by itself *)
Definition env_start : process := serve_start env_boot.2 (socketPathFromEnv demo_Getenv) env_boot.1.2.
Definition env_signalled : process := env_start <| pr_signalled := true |>.
Lemma env_run : rtc process_step env_start env_signalled.
Proof. apply rtc_once. split; [discriminate|]. right. apply os_signal. Qed.
Lemma env_booted : main_boot (demo_command env_caps) (initCommandFromEnv demo_Getenv)
  (subscriberCommandFromEnv demo_Getenv) (socketPathFromEnv demo_Getenv) (mkworld demo_os newStore) =
  ((Ok (socketPathFromEnv demo_Getenv), env_boot.1.2), env_boot.2).
Proof.
  pose proof env_ok as E. fold env_boot. destruct env_boot as [[r bs] w]. cbn [fst snd] in *. by rewrite E.
Qed.
Lemma owns_young p q : rtc own_process_step p q → young (pr_store p) → young (pr_store q).
Proof.
  induction 1 as [|p p' q [_ H] _ IH]; [done|]. intros Y. apply IH. unfold young in *. by rewrite (program_tick p p' H).
Qed.
Lemma shutdown_clean_witness : ∃ q, pr_main q = MainReturned ∧ (pr_bridges q).*1 = env_boot.1.2.*1 ∧
  (∀ k b, (k, b) ∈ pr_bridges q → br_phase b = Exited) ∧
  nodes (pr_os q) !! socketPathFromEnv demo_Getenv = None.
Proof.
  pose proof (shutdown_clean demo_Getenv (demo_command env_caps) demo_os demo_os_ok eq_refl (env_requests _)
    (socketPathFromEnv demo_Getenv) env_boot.1.2 env_boot.2) as H.
  destruct (H env_signalled env_booted env_run env_young) as (_ & _ & _ & _ & Hgo).
  destruct (Hgo eq_refl) as (q & Hq & Hm).
  assert (rtc process_step env_start q) as Hr.
  { transitivity env_signalled; [exact env_run|].
    apply (rtc_congruence (λ x, x) process_step) in Hq; [exact Hq|exact own_is_step]. }
  destruct (H q env_booted Hr (owns_young _ _ Hq env_young)) as (Ek & Hst & Hc & _ & _).
  exists q. split; [exact Hm|]. split; [exact Ek|]. split.
  - intros k b Hb. apply (Hst (or_intror Hm) k b Hb).
  - apply (Hc Hm). intros n. reflexivity.
Defined.

(** ** A reload of the Caddy module *)
Definition old_handler : Handler := mkHandler 0 0 0 0 0 "full" "drain.sh" "" 0 false.
Definition new_handler : Handler := mkHandler 0 1 0 0 0 "off" "drain.sh" "init.sh" 0 false.
Definition the_config (h : Handler) : Config := match provision_config h with Ok cfg => cfg | Err _ => demo_config end.
Definition caddy_command (h : Handler) : boot_command := demo_command (caps_of (the_config h)).
Lemma caddy_boots h : provision_config h = Ok (the_config h) →
  let CP : Caps := caps_of (the_config h) in
  let s1 := (run_call (CAppend (demo_item "a" "1")) newStore).2 in
  young s1 → subscribers s1 = subscribers newStore → boots (caddy_command h) h.
Proof.
  intros E CP s1 Y Es cfg Hc. assert (cfg = the_config h) as -> by congruence.
  exact (demo_requests (caps_of (the_config h)) (provision_caps h _ Hc) (h_InitCommand h) Y Es).
Qed.
Lemma old_boots : boots (caddy_command old_handler) old_handler.
Proof. apply caddy_boots; [vm_compute; reflexivity|vm_compute; discriminate|vm_compute; reflexivity]. Qed.
Lemma new_boots : boots (caddy_command new_handler) new_handler.
Proof. apply caddy_boots; [vm_compute; reflexivity|vm_compute; discriminate|vm_compute; reflexivity]. Qed.

Definition caddy0 : caddy := mkcaddy demo_os ∅ Registry.empty_registry.
Definition first : result caddy_error instance * caddy := Provision (caddy_command old_handler) old_handler caddy0.
Definition second : result caddy_error instance * caddy := Provision (caddy_command new_handler) new_handler first.2.
Lemma first_ok : first.1 = Ok (mkinstance (Some 0%nat) (Some 0%nat)).
Proof. vm_compute. reflexivity. Qed.
Lemma second_ok : second.1 = Ok (mkinstance (Some 1%nat) (Some 1%nat)).
Proof. vm_compute. reflexivity. Qed.
Lemma first_os : cd_os first.2 = demo_os.
Proof. vm_compute. reflexivity. Qed.
Lemma first_young x : cd_caches second.2 !! 0%nat = Some x → young (ca_store x).
Proof.
  assert (match cd_caches second.2 !! 0%nat with Some x => s_tick (ca_store x) <=? 1000 | None => true end = true)%nat
    as H by (vm_compute; reflexivity).
  intros E. rewrite E in H. apply Nat.leb_le in H. unfold young, MaxInt64. lia.
Qed.

Lemma provision_publishes_witness :
  (Registry.LookupGateway "default" (cd_registry first.2)).1 = Some 0%nat ∧ ∃ x,
  cd_caches first.2 !! 0%nat = Some x ∧ ca_config x = caddy_config old_handler EventsModeFull.
Proof.
  pose proof (provision_publishes (caddy_command old_handler) old_handler caddy0 demo_os_ok empty_ok old_boots) as H.
  pose proof first_ok as E. unfold first in *.
  destruct (Provision (caddy_command old_handler) old_handler caddy0) as [r c']. cbn [fst snd] in *. rewrite E in H.
  destruct H as (gw & m & x & Ei & _ & Ex & _ & Em & Ec & L & _). injection Ei as <-. split; [exact L|].
  exists x. split; [rewrite Ex; apply lookup_insert_eq|]. rewrite Ec. f_equal.
  vm_compute in Em. by injection Em as <-.
Defined.

Lemma caddy_reload_witness :
  (Registry.LookupGateway "default" (cd_registry second.2)).1 = Some 1%nat ∧
  ∃ i c, rtc cleaning_alone (mkinstance (Some 0%nat) (Some 0%nat), second.2, AtStop) (i, c, CleanupReturned).
Proof.
  destruct (caddy_reload (caddy_command old_handler) old_handler caddy0
    (mkinstance (Some 0%nat) (Some 0%nat)) first.2 first.2 (caddy_command new_handler) new_handler
    (Ok (mkinstance (Some 1%nat) (Some 1%nat))) second.2
    (mkinstance (Some 0%nat) (Some 0%nat)) second.2 AtStop) as (L & Hr & _).
  - exact demo_os_ok.
  - exact empty_ok.
  - exact old_boots.
  - rewrite <- first_ok. unfold first. apply surjective_pairing.
  - apply rtc_refl.
  - rewrite first_os. exact demo_os_ok.
  - exact new_boots.
  - rewrite <- second_ok. unfold second. apply surjective_pairing.
  - apply rtc_refl.
  - intros gw x [= <-]. apply first_young.
  - split; [exact L|]. exact Hr.
Defined.
