(* ===== verification/InterleaveWitnesses.v ===== *)
(** * The interleaving and lock theorems at concrete inputs

  Three increments of a cell that holds 10: the second overtakes the first
  between its load and its swap, which fails and is retried; the third would
  leave the counter range and is refused. *)
From S2P Require Import Prelude GoStd Uuid Types Buffer BufferInv BufferSpec BufferWrite BufferRead.
From S2P Require Import BufferCounter BufferCounterSpec Interleave InterleaveSpec InterleaveTheorems.
From S2P Require Import Store StoreInv Locks LocksTheorems Demo.

Definition race_ctx : ctx :=
  mkctx (set_cell 0 (mkcounterCell 10 0) demo_buf0) demo_acct 0.
Definition race_bys : list Z := [1; 5; MaxCounterValue].
Definition race_at (n : Z) : Z := 1700000000000000 + n.
Definition race_sched : list (nat * Z) :=
  zip [0; 1; 1; 0; 0; 0; 0; 0; 1; 2]%nat [0; 0; race_at 0; 0; 0; race_at 1; 0; 0; 0; 0].
Definition race_log : list (event (result error Z)) :=
  [mkevent 1 (race_at 0) (Ok 15); mkevent 0 (race_at 1) (Ok 16);
   mkevent 2 0 (Err (CounterOverflowError 16 MaxCounterValue))].
Definition race_end : machine (result error Z) :=
  mkmachine (mkcounterCell 16 (race_at 1))
    [Returned (Ok 16); Returned (Ok 15);
     Returned (Err (CounterOverflowError 16 MaxCounterValue))].

Lemma race_runs : run (counter_call <$> race_bys) race_sched
  (boot (cells (c_buf race_ctx) !!! 0%nat) (counter_call <$> race_bys)) = Some (race_end, race_log).
Proof. vm_compute. reflexivity. Qed.

Lemma counter_adds_linearize_witness :
  ∃ x', adds_in_order 0 race_bys race_log race_ctx x' ∧
    cells (c_buf x') !!! 0%nat = mkcounterCell 16 (race_at 1).
Proof.
  destruct (counter_adds_linearize 0 race_bys race_ctx race_sched race_end race_log) as (_ & _ & Hx).
  - exact race_runs.
  - vm_compute. reflexivity.
  - assert (E : omap stamp_of race_log = [race_at 0; race_at 1]) by (vm_compute; reflexivity).
    rewrite E. intros [|[|j]] n Hn; [injection Hn as <-; reflexivity..|discriminate Hn].
  - exact Hx.
Defined.

(** The same run took 10 of the 51 steps three calls can take at most. *)
Lemma cas_loops_end_witness :
  (length race_sched ≤ 51)%nat ∧
  ((∀ i now, machine_step (counter_call <$> race_bys) i now race_end = None) → finished race_end = true).
Proof.
  destruct (cas_loops_end (counter_call <$> race_bys) (cells (c_buf race_ctx) !!! 0%nat)
    race_sched race_end race_log race_runs) as (Hn & _ & Hstuck).
  split; [exact Hn|exact Hstuck].
Defined.

(** A cap of 2^63-1 with 100 bytes free: a reservation of 60 and one of 70
    race, 50 held bytes are released, and a third reservation is then refused. *)
Definition cap_deltas : list Z := [60; 70; -50; 30].
Definition cap_sched : list (nat * Z) :=
  (λ i, (i, 0)) <$> [0; 1; 0; 1; 3; 2; 1; 3; 3; 1; 3; 3]%nat.
Definition cap_end : machine (bool * Z * Z) :=
  mkmachine (mkcounterCell (MaxInt64 - 20) 0)
    [Returned (true, MaxInt64 - 40, MaxInt64); Returned (true, MaxInt64 - 20, MaxInt64);
     Returned (true, MaxInt64 - 90, MaxInt64); Returned (false, MaxInt64 - 20, MaxInt64)].
Definition cap_log : list (event (bool * Z * Z)) :=
  [mkevent 0 0 (true, MaxInt64 - 40, MaxInt64); mkevent 2 0 (true, MaxInt64 - 90, MaxInt64);
   mkevent 1 0 (true, MaxInt64 - 20, MaxInt64); mkevent 3 0 (false, MaxInt64 - 20, MaxInt64)].

Lemma reservations_respect_cap_witness :
  0 ≤ cell_value (m_cell cap_end) ≤ MaxInt64 ∧
  cell_value (m_cell cap_end) = MaxInt64 - 100 + zsum granted (zip cap_deltas (m_pcs cap_end)).
Proof.
  destruct (reservations_respect_cap MaxInt64 (MaxInt64 - 100) cap_deltas cap_sched cap_end cap_log)
    as (Hr & Hv & _).
  - vm_compute. split; discriminate.
  - vm_compute. discriminate.
  - vm_compute. discriminate.
  - vm_compute. reflexivity.
  - split; [exact Hr|exact Hv].
Defined.

(** ** A /wipe, a /warm and a /delete_scope that collide

  The wipe takes the first shard, the deletion of "a" the shard of "a" and its
  buffer; once it is done the batch gets there before the wipe, which waits
  for it while it holds the shards below. *)
Definition collision : list (list section) :=
  [[Wipe [0; 1]%nat];
   [ReplaceScopes ["b"; "a"] [0; 1]%nat true [0; 1]%nat; NotifySection];
   [DeleteScope "a" (Some 0%nat); GetOrCreate EventsScopeName false; BufferMethod Writer 2]].
Definition collision_sched : list nat := [0; 2; 0; 2; 2; 2; 2; 2; 1; 1]%nat.
Definition collision_end : list goroutine :=
  Eval vm_compute in default [] (locks_run collision_sched (spawn <$> collision)).

Lemma locks_never_deadlock_witness :
  collision_end ≠ [] ∧ (∃ i, is_Some (locks_step i collision_end)).
Proof.
  assert (Hrun : locks_run collision_sched (spawn <$> collision) = Some collision_end)
    by (vm_compute; reflexivity).
  destruct (locks_never_deadlock collision collision_sched collision_end Hrun) as (_ & Hgo & _).
  split; [discriminate|].
  apply (Hgo (default (mkgoroutine [] false []) (head collision_end))).
  - apply list_elem_of_here.
  - discriminate.
Defined.
