(* ===== verification/Findings.v ===== *)
(** * Where the code and its documentation part

  Runs of the model that show a behaviour a comment or a document of the
  repository does not say. *)
From S2P Require Import Prelude GoStd Uuid Types Wire Validation Buffer BufferInv BufferSpec BufferRead.
From S2P Require Import Store StoreInv BufferOps StoreSpec Events StoreOps Steps SubscribeSpec Bulk BulkSpec.
From S2P Require Import BufferWrite BufferDelete RebuildSpec WarmSpec OpsSteps EventsSpec Refine Flights.
From S2P Require Import RefineOps RefineBulk.
From S2P Require Import Simulation Handlers HandlersSpec Gateway GatewaySpec Php PhpSpec.
From S2P Require Import Subscriber Sockets Lifecycle Demo StoreWitnesses ServiceWitnesses ExtensionWitnesses LifecycleWitnesses.

(** A store with a cap of 13392 bytes and no events holds 120 items of one byte;
    the tail of the scope is refused as too large. *)
Section FullTail.
#[local] Instance tight_caps : Caps :=
  caps_of (mkConfig 0 13392 1024 (mkEventsConfig EventsModeOff) (mkInboxConfig 0 512)).
Definition small_items : list call := replicate 120 (CAppend (demo_item "" "1")).
Definition full_store : store := (run_calls small_items newStore).2.
Example full_tail_refused :
  (length <$> content full_store "s", status (handleTail (mkrequest MethodGet [("scope", "s")]%string "" "") full_store).1)
  = (Some 120%nat, StatusInsufficientStorage).
Proof. vm_compute. reflexivity. Qed.
End FullTail.

(** A /warm that reserves nothing, a delete through an older pointer that frees
    the scope before the commit, another scope that takes the bytes: the commit
    gives the freed bytes back to the counter without asking the cap. *)
Section OverCap.
#[local] Instance over_caps : Caps :=
  caps_of (mkConfig 0 13392 1024 (mkEventsConfig EventsModeOff) (mkInboxConfig 0 512)).
Definition wide : string := of_codes (replicate 900 49).
Definition wide_item (k : string) : Item := mkItem k "" 0 0 zeroUUID (Some wide) None None.
Definition four : list Item := replicate 4 (wide_item "s").
Definition before : store := (run_calls (CAppend (wide_item "t") :: (CAppend <$> four)) newStore).2.
Definition old_ptr : nat := default 0%nat (scopes before !! "s"%string).
Definition plans : list plan :=
  match (warm_phase1 [("s"%string, four)] [] [] 0%nat).1 with Ok ps => ps | Err _ => [] end.
Definition reserved : Flights.phase * store := fly_on 2 (Snapping plans [] 0) before.
Definition emptied : store := (with_buf old_ptr (deleteUpToSeq 4) reserved.2).2.
Definition filled : store := (run_calls (replicate 8 (CAppend (wide_item "t"))) emptied).2.
Definition over : store := (fly_on 2 reserved.1 filled).2.
Example warm_passes_the_cap :
  (length <$> content over "s", length <$> content over "t", totalBytes (s_acct filled) <=? maxStoreBytes,
   totalBytes (s_acct over) <=? maxStoreBytes) = (Some 4%nat, Some 9%nat, true, false).
Proof. vm_compute. reflexivity. Qed.
End OverCap.

(** A negative max_seq from PHP is a huge unsigned one: it drains the scope. *)
Example php_negative_drain : shown (run_php true (PDeleteUpTo (array := list (string * list php_value)) "s" (-1)) ds).2 = Some [].
Proof. vm_compute. reflexivity. Qed.

(** An empty array from PHP rebuilds the cache to nothing; the HTTP endpoint
    refuses an empty batch. *)
Example php_rebuild_empty :
  shown (run_php true (PRebuild (Some ([] : list (string * list php_value)))) ds).2 = None.
Proof. vm_compute. reflexivity. Qed.

(** A rebuilt scope starts without its ids' bytes in idKeyBytes. *)
Definition rebuilt : store := (rebuildAll [("s"%string, [demo_item "abc" "1"])] ds).2.
Example rebuild_forgets_id_bytes :
  (λ p, (idKeyBytes (buf_at rebuilt p), size (byID (buf_at rebuilt p)))) <$> scopes rebuilt !! "s"%string
  = Some (0, 1%nat).
Proof. vm_compute. reflexivity. Qed.

(** main returns as soon as Shutdown has been called, not when it has drained:
    the process ends with a request in its handler. *)
Lemma main_cuts_requests w path : ∃ p, rtc process_step (serve_start w path []) p ∧
  pr_main p = MainReturned ∧ pr_watcher p = ShuttingDown ∧ pr_requests p = 1%nat.
Proof.
  eexists. split.
  - eapply rtc_l; [split; [discriminate|left; by apply ps_register]|].
    eapply rtc_l; [split; [discriminate|right; by apply os_accept]|].
    eapply rtc_l; [split; [discriminate|right; by apply os_signal]|].
    eapply rtc_l; [split; [discriminate|left; by apply ps_signal]|].
    eapply rtc_l; [split; [discriminate|left; by apply ps_shutdown]|].
    eapply rtc_l; [split; [discriminate|left; by apply ps_served]|].
    eapply rtc_l; [split; [discriminate|left; by apply ps_close]|].
    eapply rtc_l; [split; [discriminate|left; by apply ps_remove]|].
    apply rtc_once. split; [discriminate|]. left. by apply ps_return.
  - by split.
Qed.

(** A request of the boot command that is still in flight when the command ends
    logs its event after the clearing: the subscribers do not start on an empty log. *)
Definition late_command : boot_command :=
  mkcommand (λ _ s, (Ok tt, s)) (λ _ s, (tt, (run_call (CAppend (demo_item "z" "1")) s).2)).
Example late_event_logged :
  length <$> content (w_store (boot_init late_command "init.sh" (mkworld demo_os ds)).2) EventsScopeName = Some 1%nat.
Proof. vm_compute. reflexivity. Qed.
